(* ===== verification/_CoqProject ===== *)
-Q . S2P
Prelude.v
Hash.v
Meta.v
Regexp.v
Labels.v
Conditions.v
Ingress.v
NetIngress.v
Duration.v
HTTPProxy.v
Config.v
Store.v
Startup.v
Proxies.v
EndpointProbe.v
Reconcile.v
ReconcileFacts.v
Convergence.v
ProbeTargets.v
Events.v
Scheme.v
GenReconciler.v
Rollout.v
RolloutFacts.v
Failures.v
Updates.v
Interference.v
Tracker.v
Workqueue.v
TwoLane.v
Prober.v
ProberInv.v
ProberFacts.v
ProberLive.v
Readiness.v
Controller.v
Requeue.v
Client.v
Clientset.v
Fake.v
FakeFacts.v
Listers.v
TableListers.v
Informers.v
Injection.v
Samples.v
RolloutSamples.v
FailureSamples.v
UpdateSamples.v
InterferenceSamples.v
ProberSamples.v
ControllerSamples.v
