(* ===== verification/Prelude.v ===== *)
(** * net-contour: a verification development

    net-contour is a Kubernetes controller.  It watches Knative Ingresses (KIngresses)
    of its class and programs Contour, an Envoy control plane, by writing HTTPProxies.
    This library models the controller's own code (src/pkg) together with the vendored
    code whose behaviour decides what it does, and proves the properties that make it
    correct.  This file is the prelude: errors and panics, strings, sorting, map order,
    and the lemmas and tactics the other files share.

    ** The program

    Informers ([controller.go]) tell the controller about KIngresses, their endpoint
    probes, the HTTPProxies it owns, Services and pods.  Filters and handlers turn the
    events into keys on a two-lane work queue; workers take keys and hand them to the
    generated reconciler, which reads the KIngress, prepares its status, calls the
    reconciler of this program, and writes the status back.

    One reconcile ([contour.go], [ReconcileKind]) takes a KIngress and
    - if no HTTPProxy of its generation exists yet, makes an "endpoint probe": a child
      KIngress with one bogus host per Service of the new and the previous generation
      ([resources/kingress.go]), and stops until that child is ready, so that traffic
      never moves to endpoints Envoy does not know;
    - looks up the Services it refers to, registers them with the tracker, and makes
      HTTPProxies from the rules ([resources/httpproxy.go]), which it creates or updates;
    - deletes the HTTPProxies of older generations by label selector;
    - asks the status prober whether the proxies are live; the prober lists its targets
      through [lister.go], asks every Envoy pod, and puts the key back on the queue when
      all have answered;
    - records conditions and load balancers in the status, and removes the endpoint
      probe once the Ingress is ready.
    The configuration comes from a ConfigMap ([config/contour.go]) through a store that
    hands every reconcile a deep copy ([config/store.go]).  The API is reached through
    generated clients, listers and informers ([pkg/client]), which are put on a context
    at start-up by dependency injection ([pkg/client/injection]).

    ** The files

    Foundations:
    - [Prelude]: outcomes (value, error or panic), strings, [sort.Slice], [MapOrder].
    - [Hash]: MD5, SHA-1 and SHA-256 on 32-bit words.  [Meta]: object metadata, child
      names, cache keys, labels of resources/constants.go and names/names.go.
      [Regexp]: anchored patterns by derivatives.  [Duration]: [time.ParseDuration].
    - [Labels]: label selectors, their lexer, parser and printer.
    - [Conditions], [Ingress]: the condition manager and the KIngress with its
      lifecycle.  [NetIngress]: probe hashes, probe insertion and host expansion.
    - [HTTPProxy]: the HTTPProxy, Service and Endpoints resources.
    - [Events]: objects and tombstones as handlers see them, kinds, owners.
      [Scheme]: the registry of types, and what the generated packages register.

    The reconciler:
    - [Config]: config-contour.  [Store]: the configuration store and the generated
      deep copies on an explicit heap.  [Startup]: the process from [main] (main.go) to the
      workers, as a transition system around the store.
    - [Proxies]: [ServiceNames] and [MakeHTTPProxies].  [EndpointProbe]:
      [MakeEndpointProbeIngress].
    - [Reconcile]: [ReconcileKind] and [lbStatus] as a run over the interface [Backend]
      (caches, clients, tracker, prober).  [ReconcileFacts]: what holds against every
      backend.  [Convergence]: what holds against backends in sync (class [Synced]),
      and an in-memory cluster that satisfies the class.
    - [GenReconciler]: the generated reconciler around [ReconcileKind].
    - [Rollout], [RolloutFacts]: a whole rollout against an API server (class [Served]),
      stage by stage and then reconcile after reconcile, with others at work in between.
    - [Failures]: what a reconcile leaves behind when calls fail (class [Faulty]).
      [Updates]: the same for reconciles of the versions of an Ingress that changes.
      [Interference]: and with others at work between any two calls, on shared backends.

    Probing:
    - [ProbeTargets]: [lister.go].
    - [Prober]: the status prober as a transition system.  [ProberInv], [ProberFacts],
      [ProberLive]: its invariants, what it guarantees, and that it never gets stuck.
      [Readiness]: the prober together with the targets of [lister.go].

    The controller:
    - [Workqueue]: client-go's queues (deduplicating, delaying, rate limited), with the
      interface [WorkQueue].  [TwoLane]: the controller's queue, with [ControllerQueue].
    - [Tracker]: who is to be reconciled when a Service changes.
    - [Controller]: [NewController] with queue, tracker, prober and workers as one
      transition system over these interfaces.  [Requeue]: which events lead to which
      reconciles.

    The API:
    - [Client], [Clientset]: the typed clients as the requests they build, and how they
      are constructed.  [Listers], [Informers]: the listers over client-go's indexed store,
      and the informer factory as a state machine.  [Injection]: start-up.
    - [Fake], [FakeFacts], [TableListers]: the fake clientset and the listers the tests use.

    Concrete data, on which the definitions run and the hypotheses hold: [Samples],
    [RolloutSamples] (with an API server in memory), [FailureSamples] (with one that fails),
    [UpdateSamples], [InterferenceSamples], [ProberSamples], [ControllerSamples].

    ** What the theorems show

    - Reconciling ([Reconcile], [ReconcileFacts]): proxies are written only behind the
      endpoint gate; the calls come in phases, so old proxies go after new ones were
      written; every Service is tracked first; only older generations are deleted,
      through the printing and parsing of the selector; the endpoint probe is removed
      only when the Ingress is ready; the status stays consistent.  Runs do not panic
      under stated conditions, and two conditions under which they do, or can never
      succeed, are theorems too.
    - The generated reconciler: what it acts on, that it writes only the status that
      [ReconcileKind] led to, that this status is consistent, and how a failed reconcile
      makes the next one skip the probe.
    - Convergence: one pass over the proxies succeeds and leaves exactly the wanted ones,
      and a second pass changes nothing.  Here, and in the three groups below, wanted proxies
      may coincide (a rule that lists a cluster-local host under several names wants one
      proxy several times) but otherwise differ in name and in lookup labels, which holds
      unless names or digests of hosts collide ([proxies_of_separate]).
    - Rollouts: in a fair run, in which a posted endpoint probe becomes ready and the
      prober sees programmed proxies, the Ingress becomes Ready with its proxies in place
      and the probe gone, and the reconciles stop writing; until the probe is ready,
      nothing is touched.
    - Failures: whichever calls fail, hosts that are served stay served, proxies of others
      are untouched, and the next reconcile can go on.
    - Updates and interference: while an Ingress goes from version to version, with old
      versions reconciled late, calls failing and others at work between any two calls, a
      host that all versions want stays served.
    - Generation ([Proxies], [EndpointProbe]): one proxy per host and expansion with its
      routes, backends, certificates and labels; exactly the Services in use are probed;
      results do not depend on map order (with the exceptions stated).
    - Probing: the targets are exactly the hosts behind the configured envoy Services;
      the prober says ready only if every pod answered for this version; it calls back
      exactly once; it can always go on.
    - Queue and wiring: no key is reconciled twice at a time and none is lost; every event
      of a generated object, and every change of a tracked Service, requests its Ingress;
      back-off is bounded; the tracker refines a map of leases.
    - Configuration ([Config], [Store]): accepted configurations are well formed, in any
      map order; readers cannot damage the stored configuration.
    - The process ([Startup]): workers run only with a configuration that was accepted and
      with informers that have synced, in every interleaving, and start-up is never stuck.
    - API and start-up: requests are sent only to legal, distinct URLs; what clients a
      configuration gives; the listers refine a map; the informer factory is safe in every
      interleaving; start-up provides everything that is asked for; the fakes refine a map
      of objects and a list of watches; kinds and types of a scheme round-trip, in any order
      of registration.
    - Libraries: lifecycle invariant of the status; selectors round-trip and their parser
      is total; names are bounded.

    ** Conventions and bounds

    - A Go call is an [outcome]: nil dereferences, failed type assertions and explicit
      panics are [Panic], returned errors are [Fail].  Errors keep their format and
      operands, not their text; the texts of label validation errors are shortened.
    - Ranging over a Go map goes through [MapOrder] (or [KeyOrder], [KindOrder]), any
      permutation of the entries; the theorems quantify over it.
    - [sort.Slice] is Go's insertion sort for up to twelve elements; on distinct keys
      every sorting algorithm gives the same result ([sort_slice_unique]).
    - Integers are [Z]; where their width matters (hashes, durations, timeouts, port
      numbers, generations, back-off) the wrap-around or the range check is written out.
    - Concurrent parts ([Prober], [Controller], [Workqueue], [TwoLane], [Informers],
      [Startup]) are transition systems: a critical section or an atomic operation is one
      step, program counters of goroutines are part of the state, and the theorems hold for
      all interleavings.  Clock readings are arguments of steps, or a function of the number
      of readings ([Conditions]).
    - Calls to the outside are the interface [Backend] (and [ResourceClient]); the laws a
      theorem needs are a class with an instance ([Synced], [Served], [Faulty], [Steady]).
      The caches of proxies are in sync in all of them.
    - Fuel: the lexer of selectors takes one more than the bytes of its input and the
      parser the number of tokens, which [Labels] proves enough (each token consumes
      input, each requirement consumes tokens), as [Duration] does for its loop; running
      out would be a [Panic], which the totality theorems exclude.  The retries of a
      status update are the five steps of client-go's [DefaultRetry].
    - nil and empty slices and maps are not told apart, except on the heap of [Store].

    ** Not modelled

    YAML decoding (a parameter of [Config]), the serialization and transport of requests
    (parameters of [Clientset]), the parsing of config-network (a parameter of [Store] and
    [Startup]), applying patches (a parameter of [Fake]), the token bucket of
    golang.org/x/time (a parameter of [Workqueue]), what runs inside an informer, leader
    election beyond its answer, logging (except a debug log that dereferences nil), metrics,
    profiling, health probes and webhooks of the process, conversions and codecs of schemes,
    the factory of the table tests, and the tests themselves.

    ** Plan

    The rollouts ([Rollout]) and updates ([Updates]) are sequences of reconciles, which
    others interrupt in [Interference]; what remains is to state them over the transition
    system of [Controller], whose steps say when a reconcile happens, and to let the caches
    lag behind the API server there. *)

From stdpp Require Export base gmap sets list strings pretty sorting.
From Stdlib Require Export Ascii ZArith Lia.

#[export] Set Warnings "-clear-no-such-hyp".

Declare Scope go_scope.
Delimit Scope go_scope with go.

(** ** Errors and outcomes

    [Errorf] is an error built by [fmt.Errorf] or [errors.New]; [Wrapf] one built
    with the [%w] verb (the chain [errors.As] walks); [APIStatus] one carrying a
    Kubernetes status reason.  The arguments are the operands of the format. *)

Inductive StatusReason :=
  | StatusReasonUnknown
  | StatusReasonNotFound
  | StatusReasonAlreadyExists
  | StatusReasonConflict
  | StatusReasonInvalid
  | StatusReasonBadRequest.

Inductive goerr :=
  | Errorf (format : string) (args : list string)
  | Wrapf (format : string) (args : list string) (wrapped : goerr)
  | APIStatus (reason : StatusReason) (message : string).

#[export] Instance StatusReason_eq_dec : EqDecision StatusReason.
Proof. solve_decision. Defined.
#[export] Instance goerr_eq_dec : EqDecision goerr.
Proof. solve_decision. Defined.

(** The format an error was made with (what [%v] of it starts from). *)
Definition err_format (e : goerr) : string :=
  match e with Errorf f _ | Wrapf f _ _ | APIStatus _ f => f end.

(** [apierrs.IsNotFound]: the reason of the first status error of the chain. *)
Fixpoint IsNotFound (e : goerr) : bool :=
  match e with
  | APIStatus StatusReasonNotFound _ => true
  | Wrapf _ _ e => IsNotFound e
  | _ => false
  end.

(** A Go call returns a value, returns an error, or panics. *)
Inductive outcome (A : Type) :=
  | Ret (a : A)
  | Fail (e : goerr)
  | Panic (message : string).
Arguments Ret {A} a.
Arguments Fail {A} e.
Arguments Panic {A} message.

#[export] Instance outcome_eq_dec `{EqDecision A} : EqDecision (outcome A).
Proof. solve_decision. Defined.

#[export] Instance outcome_ret : MRet outcome := λ A a, Ret a.
#[export] Instance outcome_bind : MBind outcome := λ A B f m,
  match m with Ret a => f a | Fail e => Fail e | Panic s => Panic s end.
#[export] Instance outcome_fmap : FMap outcome := λ A B f m,
  match m with Ret a => Ret (f a) | Fail e => Fail e | Panic s => Panic s end.

Definition is_ret {A} (m : outcome A) : bool :=
  match m with Ret _ => true | _ => false end.

(** [safe m Q]: the call does not panic, and what it returns satisfies [Q]. *)
Definition safe {A} (m : outcome A) (Q : A → Prop) : Prop :=
  match m with Ret a => Q a | Fail _ => True | Panic _ => False end.

(** [nil_deref what o]: reading through a pointer that may be nil. *)
Definition nil_deref {A} (what : string) (o : option A) : outcome A :=
  match o with Some a => Ret a | None => Panic ("nil dereference: " +:+ what) end.

(** Run [f] over a list, left to right, stopping at the first error or panic. *)
Fixpoint outcome_mapM {A B} (f : A → outcome B) (l : list A) : outcome (list B) :=
  match l with
  | [] => Ret []
  | x :: l => y ← f x; ys ← outcome_mapM f l; Ret (y :: ys)
  end.

Fixpoint outcome_foldM {A S} (f : S → A → outcome S) (s : S) (l : list A) : outcome S :=
  match l with
  | [] => Ret s
  | x :: l => s' ← f s x; outcome_foldM f s' l
  end.

(** ** Strings: the functions of package [strings] the program calls. *)

Fixpoint stake (n : nat) (s : string) : string :=
  match n, s with
  | S n, String c s => String c (stake n s)
  | _, _ => ""
  end.

Fixpoint sdrop (n : nat) (s : string) : string :=
  match n, s with
  | S n, String _ s => sdrop n s
  | _, _ => s
  end.

Definition slen (s : string) : nat := String.length s.

Definition HasPrefix (s prefix : string) : bool :=
  (slen prefix <=? slen s) && String.eqb (stake (slen prefix) s) prefix.

Definition HasSuffix (s suffix : string) : bool :=
  (slen suffix <=? slen s) && String.eqb (sdrop (slen s - slen suffix) s) suffix.

Definition TrimSuffix (s suffix : string) : string :=
  if HasSuffix s suffix then stake (slen s - slen suffix) s else s.

Fixpoint Contains (s substr : string) : bool :=
  HasPrefix s substr ||
  match s with "" => false | String _ s => Contains s substr end.

(** [strings.Split s sep] for a one-byte separator: always at least one part. *)
Fixpoint Split (s : string) (sep : ascii) : list string :=
  match s with
  | "" => [""]
  | String c s =>
      if Ascii.eqb c sep then "" :: Split s sep
      else match Split s sep with
           | p :: ps => String c p :: ps
           | [] => [String c ""]
           end
  end.

Fixpoint Join (l : list string) (sep : string) : string :=
  match l with
  | [] => ""
  | [x] => x
  | x :: l => x +:+ sep +:+ Join l sep
  end.

(** Go's [<] on strings: bytewise lexicographic. *)
Definition string_lt (a b : string) : bool := String.ltb a b.

(** [strconv.FormatInt z 10], [strconv.Itoa] and the verb [%d]. *)
Definition FormatInt (z : Z) : string := pretty z.

Fixpoint string_bytes (s : string) : list Z :=
  match s with
  | "" => []
  | String c s => Z.of_N (N_of_ascii c) :: string_bytes s
  end.

Fixpoint sall (p : ascii → bool) (s : string) : bool :=
  match s with "" => true | String c s => p c && sall p s end.

(** ** [sort.Slice]

    For at most twelve elements Go sorts by insertion: element [i] moves left
    while it is less than its left neighbour.  [insert_left] keeps the already
    sorted prefix reversed, so the scan is from the right, as in Go.  On longer
    slices Go returns some other sorted permutation; [sort_slice_unique] shows
    that with distinct keys there is only one, so the algorithm is immaterial. *)

Section SortSlice.
Context {A : Type} (less : A → A → bool).

Fixpoint insert_left (x : A) (prefix : list A) : list A :=
  match prefix with
  | y :: prefix => if less x y then y :: insert_left x prefix else x :: y :: prefix
  | [] => [x]
  end.

Definition sort_slice (l : list A) : list A :=
  reverse (foldl (λ prefix x, insert_left x prefix) [] l).

(** [a] may stand before [b]: [b] is not less than [a]. *)
Definition not_after (a b : A) : Prop := less b a = false.

Lemma insert_left_perm x p : insert_left x p ≡ₚ x :: p.
Proof.
  induction p as [|y p IH]; simpl; [done|]. destruct (less x y); [|done].
  rewrite IH. apply Permutation_swap.
Qed.

Lemma sort_slice_foldl_perm l p :
  foldl (λ prefix x, insert_left x prefix) p l ≡ₚ l ++ p.
Proof.
  revert p. induction l as [|x l IH]; intros p; simpl; [done|].
  rewrite IH, insert_left_perm. by rewrite Permutation_middle.
Qed.

Lemma sort_slice_perm l : sort_slice l ≡ₚ l.
Proof.
  unfold sort_slice. by rewrite reverse_Permutation, sort_slice_foldl_perm, app_nil_r.
Qed.

Lemma sort_slice_elem x l : x ∈ sort_slice l ↔ x ∈ l.
Proof. by rewrite sort_slice_perm. Qed.

Lemma sort_slice_length l : length (sort_slice l) = length l.
Proof. by rewrite sort_slice_perm. Qed.

(** What a comparison must satisfy on the elements at hand. *)
Record less_ok (P : A → Prop) : Prop := {
  less_asym a b : P a → P b → less a b = true → less b a = false;
  less_negtrans a b c :
    P a → P b → P c → less b a = false → less c b = false → less c a = false
}.

Lemma insert_left_sorted P x p :
  less_ok P → P x → Forall P p →
  StronglySorted (flip not_after) p → StronglySorted (flip not_after) (insert_left x p).
Proof.
  intros [Hasym Htr] Hx HP. induction 1 as [|y p Hp IH Hy]; simpl.
  { by repeat constructor. }
  apply Forall_cons in HP as [HPy HPp].
  destruct (less x y) eqn:E; constructor; auto.
  - rewrite insert_left_perm. constructor; [|done]. unfold flip, not_after. auto.
  - by constructor.
  - constructor; [done|]. rewrite Forall_forall in Hy |- *. intros z Hz.
    specialize (Hy z Hz). unfold flip, not_after in *.
    rewrite Forall_forall in HPp. eauto.
Qed.

Lemma StronglySorted_snoc (R : relation A) l x :
  StronglySorted R l → Forall (λ y, R y x) l → StronglySorted R (l ++ [x]).
Proof.
  induction 1 as [|y l Hl IH Hy]; simpl; intros HF; [by repeat constructor|].
  apply Forall_cons in HF as [Hyx HF]. constructor; [auto|].
  apply Forall_app; auto.
Qed.

Lemma StronglySorted_reverse (R : relation A) l :
  StronglySorted R l → StronglySorted (flip R) (reverse l).
Proof.
  induction 1 as [|x l Hl IH Hx]; [constructor|].
  rewrite reverse_cons. apply StronglySorted_snoc; [done|].
  by rewrite Forall_reverse.
Qed.

Lemma sort_slice_sorted P l :
  less_ok P → Forall P l → StronglySorted not_after (sort_slice l).
Proof.
  intros Hok HP. unfold sort_slice.
  apply (StronglySorted_reverse (flip not_after)).
  assert (∀ p, Forall P p → StronglySorted (flip not_after) p →
    StronglySorted (flip not_after)
      (foldl (λ prefix x, insert_left x prefix) p l)) as Hgen; [|apply Hgen; constructor].
  induction HP as [|x l Hx HP IH]; intros p Hp Hs; simpl; [done|].
  apply IH.
  - rewrite insert_left_perm. by constructor.
  - by eapply insert_left_sorted.
Qed.

(** With a comparison that separates distinct elements, any two sorted
    permutations of the same elements are equal. *)
Lemma sorted_unique P l k :
  (∀ a b, P a → P b → less a b = false → less b a = false → a = b) →
  Forall P l → l ≡ₚ k →
  StronglySorted not_after l → StronglySorted not_after k → l = k.
Proof.
  intros Hsep HP Hperm Hl. revert k Hperm.
  induction Hl as [|x l Hl IH Hx]; intros k Hperm Hk.
  { by apply Permutation_nil_l in Hperm. }
  destruct Hk as [|y k Hk Hy].
  { by apply Permutation_nil_r in Hperm. }
  apply Forall_cons in HP as [HPx HPl].
  assert (x = y) as ->.
  { assert (x ∈ y :: k) as Hxk by (rewrite <-Hperm; left).
    assert (y ∈ x :: l) as Hyl by (rewrite Hperm; left).
    apply elem_of_cons in Hxk as [|Hxk]; [done|].
    apply elem_of_cons in Hyl as [|Hyl]; [done|].
    rewrite Forall_forall in Hx, Hy, HPl.
    apply Hsep; auto; [by apply Hy|by apply Hx]. }
  f_equal. apply IH; [done| |done]. by apply Permutation_cons_inv in Hperm.
Qed.

Lemma sort_slice_unique P l k :
  less_ok P →
  (∀ a b, P a → P b → less a b = false → less b a = false → a = b) →
  Forall P l → k ≡ₚ l → StronglySorted not_after k → k = sort_slice l.
Proof.
  intros Hok Hsep HP Hperm Hk.
  eapply sorted_unique; eauto using sort_slice_sorted.
  - by rewrite Hperm.
  - by rewrite sort_slice_perm.
Qed.

Lemma sort_slice_perm_eq P l k :
  less_ok P →
  (∀ a b, P a → P b → less a b = false → less b a = false → a = b) →
  Forall P l → l ≡ₚ k → sort_slice l = sort_slice k.
Proof.
  intros Hok Hsep HP Hperm. eapply sort_slice_unique; eauto using sort_slice_sorted.
  - by rewrite <-Hperm.
  - by rewrite sort_slice_perm.
Qed.
End SortSlice.

(** [sort.Slice] with a comparison that may panic. *)
Section SortSliceM.
Context {A : Type} (lessM : A → A → outcome bool).

Fixpoint insert_leftM (x : A) (prefix : list A) : outcome (list A) :=
  match prefix with
  | y :: prefix =>
      b ← lessM x y;
      if (b : bool) then prefix' ← insert_leftM x prefix; Ret (y :: prefix')
      else Ret (x :: y :: prefix)
  | [] => Ret [x]
  end.

Definition sort_sliceM (l : list A) : outcome (list A) :=
  p ← outcome_foldM (λ prefix x, insert_leftM x prefix) [] l; Ret (reverse p).

(** It is [sort_slice] when the comparison does not panic on distinct positions. *)
Lemma insert_leftM_pure less x p :
  Forall (λ y, lessM x y = Ret (less x y)) p → insert_leftM x p = Ret (insert_left less x p).
Proof.
  induction 1 as [|y p Hy Hp IH]; simpl; [done|]. rewrite Hy. simpl.
  destruct (less x y); [|done]. by rewrite IH.
Qed.

Lemma sort_sliceM_pure less l :
  (∀ x y l', l ≡ₚ x :: y :: l' → lessM x y = Ret (less x y)) →
  sort_sliceM l = Ret (sort_slice less l).
Proof.
  intros Hl. unfold sort_sliceM, sort_slice.
  assert (∀ p l2, l ≡ₚ p ++ l2 →
    outcome_foldM (λ prefix x, insert_leftM x prefix) p l2 =
      Ret (foldl (λ prefix x, insert_left less x prefix) p l2)) as Hgen.
  { intros p l2. revert p. induction l2 as [|x l2 IH]; intros p Hp; simpl; [done|].
    rewrite (insert_leftM_pure less).
    - simpl. apply IH. rewrite insert_left_perm, Hp. by rewrite <-Permutation_middle.
    - apply Forall_forall. intros y Hy. apply elem_of_Permutation in Hy as [p' Hp'].
      apply (Hl _ _ (p' ++ l2)).
      rewrite Hp, Hp'. simpl. rewrite <-Permutation_middle. apply Permutation_swap. }
  rewrite (Hgen [] l); done.
Qed.
End SortSliceM.

(** *** Comparisons on a string key *)

Lemma string_lt_irrefl a : string_lt a a = false.
Proof.
  unfold string_lt, String.ltb. pose proof (String.compare_antisym a a) as H.
  by destruct (a ?= a)%string.
Qed.

Lemma string_lt_not_le a b : string_lt a b = false ↔ String.le b a.
Proof.
  unfold string_lt, String.le, String.ltb, String.leb.
  rewrite (String.compare_antisym a b). destruct (b ?= a)%string; simpl; naive_solver.
Qed.

Lemma string_lt_asym a b : string_lt a b = true → string_lt b a = false.
Proof.
  unfold string_lt, String.ltb. rewrite (String.compare_antisym a b).
  by destruct (b ?= a)%string.
Qed.

Lemma string_lt_negtrans a b c :
  string_lt b a = false → string_lt c b = false → string_lt c a = false.
Proof. rewrite !string_lt_not_le. intros. by etrans. Qed.

Lemma string_lt_antisym a b :
  string_lt a b = false → string_lt b a = false → a = b.
Proof. rewrite !string_lt_not_le. intros. by eapply (anti_symm String.le). Qed.

Section KeySort.
Context {A : Type} (key : A → string).

Definition key_less (a b : A) : bool := string_lt (key a) (key b).

Lemma key_less_ok P : less_ok key_less P.
Proof.
  split; unfold key_less; eauto using string_lt_asym, string_lt_negtrans.
Qed.

Lemma NoDup_key_inj l a b :
  NoDup (key <$> l) → a ∈ l → b ∈ l → key a = key b → a = b.
Proof.
  induction l as [|x l IH]; simpl; [by intros _ ?%elem_of_nil|].
  intros [Hx Hl]%NoDup_cons Ha Hb Hk.
  apply elem_of_cons in Ha as [->|Ha], Hb as [->|Hb]; auto.
  - destruct Hx. rewrite Hk. by apply list_elem_of_fmap_2.
  - destruct Hx. rewrite <-Hk. by apply list_elem_of_fmap_2.
Qed.

Lemma key_sort_sorted l : StronglySorted (not_after key_less) (sort_slice key_less l).
Proof.
  apply (sort_slice_sorted key_less (λ _, True)); [apply key_less_ok|].
  by apply Forall_true.
Qed.

(** Sorting on distinct keys does not depend on the input order, nor on which
    sorting algorithm is used. *)
Lemma key_sort_unique l k :
  NoDup (key <$> l) → k ≡ₚ l → StronglySorted (not_after key_less) k →
  k = sort_slice key_less l.
Proof.
  intros Hnd Hperm Hk.
  apply (sort_slice_unique key_less (λ x, x ∈ l)); auto using key_less_ok.
  - intros a b Ha Hb H1 H2. eapply NoDup_key_inj; eauto using string_lt_antisym.
  - by apply Forall_forall.
Qed.

Lemma key_sort_perm_eq l k :
  NoDup (key <$> l) → l ≡ₚ k → sort_slice key_less l = sort_slice key_less k.
Proof.
  intros Hnd Hperm. apply key_sort_unique; [by rewrite <-Hperm| |apply key_sort_sorted].
  by rewrite sort_slice_perm.
Qed.
End KeySort.

(** ** Sets and maps

    [sets.Set[string]] is a [gset string]; [sets.List] lists it sorted.  Ranging
    over a Go map visits its entries in an unspecified order: every loop over a
    map goes through a [MapOrder], and the theorems quantify over all of them. *)

Definition sets_List (s : gset string) : list string :=
  sort_slice (key_less id) (elements s).

Lemma elem_of_sets_List x s : x ∈ sets_List s ↔ x ∈ s.
Proof. unfold sets_List. by rewrite sort_slice_elem, elem_of_elements. Qed.

Lemma NoDup_sets_List s : NoDup (sets_List s).
Proof. unfold sets_List. rewrite sort_slice_perm. apply NoDup_elements. Qed.

Lemma sets_List_sorted s : StronglySorted (not_after (key_less id)) (sets_List s).
Proof. apply key_sort_sorted. Qed.

(** Whatever order the set is enumerated in, its sorted list is the same. *)
Lemma sets_List_unique s l :
  NoDup l → (∀ x, x ∈ l ↔ x ∈ s) → sort_slice (key_less id) l = sets_List s.
Proof.
  intros Hnd Hl. apply key_sort_perm_eq.
  - by rewrite list_fmap_id.
  - apply NoDup_Permutation; [done|apply NoDup_elements|].
    intros x. by rewrite Hl, elem_of_elements.
Qed.

Lemma sets_List_length s : length (sets_List s) = size s.
Proof. unfold sets_List. by rewrite sort_slice_length. Qed.

Class MapOrder := {
  range_map : ∀ {V : Type}, gmap string V → list (string * V);
  range_map_perm : ∀ {V : Type} (m : gmap string V), range_map m ≡ₚ map_to_list m
}.

(** One legal order, used to run the definitions on concrete inputs. *)
Definition ascending_order : MapOrder := {|
  range_map V m := sort_slice (key_less fst) (map_to_list m);
  range_map_perm V m := sort_slice_perm _ _
|}.

Definition descending_order : MapOrder := {|
  range_map V m := sort_slice (λ a b, string_lt b.1 a.1) (map_to_list m);
  range_map_perm V m := sort_slice_perm _ _
|}.

Section MapOrderFacts.
Context `{MapOrder} {V : Type}.
Implicit Types m : gmap string V.

Lemma elem_of_range_map m k v : (k, v) ∈ range_map m ↔ m !! k = Some v.
Proof. by rewrite range_map_perm, elem_of_map_to_list. Qed.

Lemma NoDup_range_map_keys m : NoDup ((range_map m).*1).
Proof. rewrite range_map_perm. apply NoDup_fst_map_to_list. Qed.

(** Copying a map entry by entry. *)
Lemma foldl_insert_range_map m : foldl (λ t kv, <[kv.1 := kv.2]> t) ∅ (range_map m) = m.
Proof.
  assert (∀ l (t : gmap string V), NoDup l.*1 →
    foldl (λ t kv, <[kv.1 := kv.2]> t) t l = list_to_map l ∪ t) as Hgen.
  { induction l as [|[k v] l IH]; intros t Hnd; simpl; [by rewrite (left_id_L ∅ (∪))|].
    apply NoDup_cons in Hnd as [Hk Hnd]. rewrite IH by done.
    rewrite <-insert_union_l, insert_union_r; [done|]. by apply not_elem_of_list_to_map_1. }
  rewrite Hgen by apply NoDup_range_map_keys.
  rewrite (list_to_map_proper _ _ (NoDup_range_map_keys m) (range_map_perm m)), list_to_map_to_list.
  apply (right_id_L ∅ (∪)).
Qed.

Lemma range_map_length m : length (range_map m) = size m.
Proof. by rewrite range_map_perm, length_map_to_list. Qed.
End MapOrderFacts.

(** Ranging over a set, which Go stores as a map. *)
Definition range_set `{MapOrder} (s : gset string) : list string :=
  (range_map (gset_to_gmap () s)).*1.

Lemma elem_of_range_set `{MapOrder} s x : x ∈ range_set s ↔ x ∈ s.
Proof.
  unfold range_set. rewrite list_elem_of_fmap. split.
  - intros ([y []] & -> & Hy). apply elem_of_range_map, lookup_gset_to_gmap_Some in Hy as [? _].
    done.
  - intros Hx. exists (x, ()). split; [done|]. by apply elem_of_range_map, lookup_gset_to_gmap_Some.
Qed.

Lemma NoDup_range_set `{MapOrder} s : NoDup (range_set s).
Proof. apply NoDup_range_map_keys. Qed.

(** Reading a missing key of a [map[string]string] gives the empty string. *)
Definition map_get (m : gmap string string) (k : string) : string := default "" (m !! k).

(** ** String lemmas *)

Lemma app_str_cons c a b : String c a +:+ b = String c (a +:+ b).
Proof. done. Qed.

Lemma app_str_nil b : "" +:+ b = b.
Proof. done. Qed.

Lemma slen_cons c s : slen (String c s) = S (slen s).
Proof. done. Qed.

Lemma slen_app a b : slen (a +:+ b) = slen a + slen b.
Proof.
  induction a as [|c a IH]; [done|]. rewrite app_str_cons, !slen_cons, IH. done.
Qed.

Lemma app_empty_r s : s +:+ "" = s.
Proof. induction s as [|c s IH]; [done|]. by rewrite app_str_cons, IH. Qed.

Lemma app_str_assoc a b c : (a +:+ b) +:+ c = a +:+ (b +:+ c).
Proof. induction a as [|x a IH]; [done|]. by rewrite !app_str_cons, IH. Qed.

Lemma stake_sdrop n s : stake n s +:+ sdrop n s = s.
Proof.
  revert s. induction n as [|n IH]; intros [|c s]; [done..|]. simpl.
  by rewrite app_str_cons, IH.
Qed.

Lemma slen_stake n s : slen (stake n s) = min n (slen s).
Proof.
  revert s. induction n as [|n IH]; intros [|c s]; simpl; [done..|].
  unfold slen in *. simpl. by rewrite IH.
Qed.

Lemma slen_sdrop n s : slen (sdrop n s) = slen s - n.
Proof.
  revert s. induction n as [|n IH]; intros [|c s]; simpl; [done..|].
  unfold slen in *. simpl. by rewrite IH.
Qed.

Lemma stake_app a b : stake (slen a) (a +:+ b) = a.
Proof.
  induction a as [|c a IH]; [by destruct b|].
  rewrite app_str_cons, slen_cons. simpl. by rewrite IH.
Qed.

Lemma sdrop_app a b : sdrop (slen a) (a +:+ b) = b.
Proof. induction a as [|c a IH]; [by destruct b|exact IH]. Qed.

Lemma app_str_inj_l a b c : a +:+ b = a +:+ c → b = c.
Proof. apply (inj (String.app a)). Qed.

Lemma app_str_inj_r a b c : a +:+ c = b +:+ c → a = b.
Proof.
  intros E. assert (slen a = slen b) as Hlen.
  { apply (f_equal slen) in E. rewrite !slen_app in E. lia. }
  rewrite <-(stake_app a c), <-(stake_app b c). by rewrite E, Hlen.
Qed.

Lemma HasSuffix_spec s suf : HasSuffix s suf = true ↔ ∃ p, s = p +:+ suf.
Proof.
  unfold HasSuffix. rewrite andb_true_iff, Nat.leb_le, String.eqb_eq. split.
  - intros [_ E]. exists (stake (slen s - slen suf) s).
    rewrite <-(stake_sdrop (slen s - slen suf) s) at 1. by rewrite E.
  - intros [p ->]. rewrite slen_app. split; [lia|].
    replace (slen p + slen suf - slen suf) with (slen p) by lia. apply sdrop_app.
Qed.

Lemma HasPrefix_spec s pre : HasPrefix s pre = true ↔ ∃ r, s = pre +:+ r.
Proof.
  unfold HasPrefix. rewrite andb_true_iff, Nat.leb_le, String.eqb_eq. split.
  - intros [_ E]. exists (sdrop (slen pre) s).
    rewrite <-(stake_sdrop (slen pre) s) at 1. by rewrite E.
  - intros [r ->]. rewrite slen_app. split; [lia|]. apply stake_app.
Qed.

Lemma TrimSuffix_app p suf : TrimSuffix (p +:+ suf) suf = p.
Proof.
  unfold TrimSuffix. rewrite (proj2 (HasSuffix_spec (p +:+ suf) suf)) by eauto.
  rewrite slen_app. replace (slen p + slen suf - slen suf) with (slen p) by lia.
  apply stake_app.
Qed.

Lemma TrimSuffix_no s suf : HasSuffix s suf = false → TrimSuffix s suf = s.
Proof. unfold TrimSuffix. by intros ->. Qed.

Lemma TrimSuffix_shorter s suf :
  suf ≠ "" → (slen (TrimSuffix s suf) < slen s ↔ HasSuffix s suf = true).
Proof.
  intros Hne. destruct (HasSuffix s suf) eqn:E.
  - apply HasSuffix_spec in E as [p ->]. rewrite TrimSuffix_app, slen_app.
    destruct suf; [done|]. unfold slen; simpl. split; [done|lia].
  - rewrite TrimSuffix_no by done. split; [lia|done].
Qed.

Lemma Contains_spec s sub : Contains s sub = true ↔ ∃ a b, s = a +:+ sub +:+ b.
Proof.
  induction s as [|c s IH]; cbn [Contains]; rewrite orb_true_iff, HasPrefix_spec.
  - split; [intros [[r E]|]; [|done]; by exists "", r|].
    intros (a & b & E). left. destruct a; [by exists b|done].
  - rewrite IH. split.
    + intros [[r ->]|(a & b & ->)]; [by exists "", r|by exists (String c a), b].
    + intros ([|c' a] & b & E); [left; by exists b|]. right.
      injection E as _ ->. by exists a, b.
Qed.

Lemma Split_nonempty s sep : Split s sep ≠ [].
Proof. destruct s; simpl; [done|]. repeat case_match; done. Qed.

(** Splitting undoes joining when no part contains the separator. *)
Lemma Contains_sep_cons c sep s :
  Contains (String c s) (String sep "") = false ↔ c ≠ sep ∧ Contains s (String sep "") = false.
Proof.
  cbn [Contains]. rewrite orb_false_iff. f_equiv.
  rewrite <-not_true_iff_false, HasPrefix_spec. f_equiv. split; [by intros [r [= ->]]|].
  intros ->. by exists s.
Qed.

Lemma Split_app sep a b :
  Contains a (String sep "") = false → Split (a +:+ String sep b) sep = a :: Split b sep.
Proof.
  induction a as [|c a IH]; intros Ha.
  - rewrite app_str_nil. simpl. by rewrite Ascii.eqb_refl.
  - apply Contains_sep_cons in Ha as [Hc Ha]. rewrite app_str_cons. simpl.
    apply Ascii.eqb_neq in Hc. by rewrite Hc, IH.
Qed.

Lemma Split_one sep a : Contains a (String sep "") = false → Split a sep = [a].
Proof.
  induction a as [|c a IH]; intros Ha; [done|].
  apply Contains_sep_cons in Ha as [Hc Ha]. simpl.
  apply Ascii.eqb_neq in Hc. by rewrite Hc, IH.
Qed.

Lemma Split_Join sep l :
  l ≠ [] → Forall (λ a, Contains a (String sep "") = false) l →
  Split (Join l (String sep "")) sep = l.
Proof.
  intros Hne Hl. induction Hl as [|a l Ha Hl IH]; [done|].
  destruct l as [|b l]; [by apply Split_one|].
  change (Join (a :: b :: l) (String sep "")) with (a +:+ String sep (Join (b :: l) (String sep ""))).
  rewrite Split_app by done. f_equal. by apply IH.
Qed.

Lemma FormatInt_inj a b : FormatInt a = FormatInt b → a = b.
Proof. apply (inj pretty). Qed.

(** ** Lemmas on outcomes and maps *)

Lemma outcome_bind_ret {A B} (m : outcome A) (f : A → outcome B) b :
  (x ← m; f x) = Ret b ↔ ∃ a, m = Ret a ∧ f a = Ret b.
Proof. destruct m; simpl; naive_solver. Qed.

Lemma outcome_mapM_ret {A B} (f : A → outcome B) l k :
  outcome_mapM f l = Ret k ↔ Forall2 (λ x y, f x = Ret y) l k.
Proof.
  revert k. induction l as [|x l IH]; intros k; simpl.
  { split; [intros [= <-]; constructor|by inversion_clear 1]. }
  rewrite outcome_bind_ret. setoid_rewrite outcome_bind_ret. split.
  - intros (y & Hy & ys & Hys & [= <-]). constructor; [done|]. by apply IH.
  - inversion_clear 1 as [|? y ? ys Hy Hys]. exists y. split; [done|]. exists ys.
    by rewrite IH.
Qed.

Lemma outcome_mapM_pure {A B} (g : A → B) l :
  outcome_mapM (λ x, Ret (g x)) l = Ret (g <$> l).
Proof. induction l as [|x l IH]; simpl; [done|]. by rewrite IH. Qed.

Lemma outcome_mapM_ext {A B} (f g : A → outcome B) l :
  (∀ x, x ∈ l → f x = g x) → outcome_mapM f l = outcome_mapM g l.
Proof.
  induction l as [|x l IH]; intros H; simpl; [done|].
  rewrite H by left. destruct (g x); simpl; [|done..].
  rewrite IH; [done|]. intros y Hy. apply H. by right.
Qed.

Lemma safe_bind {A B} (m : outcome A) (f : A → outcome B) (P : A → Prop) (Q : B → Prop) :
  safe m P → (∀ a, P a → safe (f a) Q) → safe (m ≫= f) Q.
Proof. destruct m; simpl; auto. Qed.

Lemma safe_weaken {A} (m : outcome A) (P Q : A → Prop) :
  safe m P → (∀ a, P a → Q a) → safe m Q.
Proof. destruct m; simpl; auto. Qed.

Lemma outcome_mapM_safe {A B} (f : A → outcome B) l :
  (∀ x, safe (f x) (λ _, True)) → safe (outcome_mapM f l) (λ _, True).
Proof.
  intros Hf. induction l as [|x l IH]; simpl; [done|].
  eapply safe_bind; [apply Hf|]. intros y _. by eapply safe_bind; [exact IH|].
Qed.

Lemma outcome_mapM_total {A B} (f : A → outcome B) l :
  (∀ x, x ∈ l → ∃ y, f x = Ret y) → ∃ k, outcome_mapM f l = Ret k.
Proof.
  induction l as [|x l IH]; intros Hf; simpl; [by eexists|].
  destruct (Hf x) as [y ->]; [left|]. simpl.
  destruct IH as [k ->]; [intros z Hz; apply Hf; by right|]. by eexists.
Qed.

Lemma safe_no_panic {A} (m : outcome A) Q msg : safe m Q → m ≠ Panic msg.
Proof. by intros H ->. Qed.

Lemma fmap_list_bind {A B C} (f : B → C) (g : A → list B) (l : list A) :
  f <$> (l ≫= g) = l ≫= λ x, f <$> g x.
Proof.
  induction l as [|x l IH]; [done|]. rewrite !bind_cons, fmap_app. by rewrite IH.
Qed.

(** ** Automation *)

Create HintDb golib discriminated.
#[export] Hint Constructors StronglySorted : golib.
#[export] Hint Resolve key_sort_sorted sets_List_sorted NoDup_sets_List : golib.

(** Split an equation [m = Ret x] along the binds of [m]. *)
Ltac simpl_outcome :=
  repeat match goal with
  | H : (_ ≫= _) = Ret _ |- _ =>
      let x := fresh "x" in let E := fresh "E" in
      apply outcome_bind_ret in H as (x & E & H)
  | H : Ret _ = Ret _ |- _ => injection H as H
  | H : Fail _ = Ret _ |- _ => discriminate H
  | H : Panic _ = Ret _ |- _ => discriminate H
  end.

(** Case on the scrutinee of a [match] in the goal or in a hypothesis. *)
Ltac go_case :=
  match goal with
  | |- context [match ?x with _ => _ end] => destruct x eqn:?
  | H : context [match ?x with _ => _ end] |- _ => destruct x eqn:?
  end.
