(* ===== verification/Hash.v ===== *)
(** * The digests of Go's standard library used by the program

    [md5.Sum] (names, through [kmeta.ChildName]), [sha1.Sum] (the domain-hash
    label) and [sha256.Sum256] (the probe hash of an Ingress), on 32-bit words
    kept as [Z] with the wrap-around written out, and [hex.EncodeToString] /
    the verb [%x].  All three are executable; the examples at the end are the
    published test vectors. *)

From S2P Require Import Prelude.
Local Open Scope Z_scope.

Module W32.
Definition mask : Z := 4294967295.
Definition add (a b : Z) : Z := Z.land (a + b) mask.
Definition not (a : Z) : Z := Z.lxor a mask.
Definition rotl (a n : Z) : Z :=
  Z.land (Z.lor (Z.shiftl a n) (Z.shiftr a (32 - n))) mask.
Definition rotr (a n : Z) : Z := rotl a (32 - n).
End W32.

(** ** Bytes, words, padding *)

Definition be_word (bs : list Z) : Z := foldl (λ a b, 256 * a + b) 0 bs.
Definition le_word (bs : list Z) : Z := foldr (λ b a, b + 256 * a) 0 bs.
Definition be_bytes (n : nat) (w : Z) : list Z :=
  (λ i, Z.land (Z.shiftr w (8 * Z.of_nat (n - 1 - i))) 255) <$> seq 0 n.
Definition le_bytes (n : nat) (w : Z) : list Z := reverse (be_bytes n w).

Fixpoint chunks_go {A} (fuel n : nat) (l : list A) : list (list A) :=
  match fuel, l with
  | S fuel, _ :: _ => take n l :: chunks_go fuel n (drop n l)
  | _, _ => []
  end.
Definition chunks {A} (n : nat) (l : list A) : list (list A) := chunks_go (length l) n l.

Definition pad (len8 : Z → list Z) (msg : list Z) : list Z :=
  let n := length msg in
  msg ++ [128] ++ replicate ((119 - n mod 64) mod 64) 0 ++ len8 (8 * Z.of_nat n).

(** ** SHA-1 *)

Definition sha1_schedule (block : list Z) : list Z :=
  reverse (Nat.iter 64
    (λ rev, W32.rotl (Z.lxor (Z.lxor (nth 2 rev 0) (nth 7 rev 0))
                             (Z.lxor (nth 13 rev 0) (nth 15 rev 0))) 1 :: rev)
    (reverse (be_word <$> chunks 4 block))).

Definition sha1_round (st : list Z) (tw : nat * Z) : list Z :=
  let '(t, w) := tw in
  match st with
  | [a; b; c; d; e] =>
      let '(f, k) :=
        if (t <? 20)%nat then (Z.lor (Z.land b c) (Z.land (W32.not b) d), 1518500249)
        else if (t <? 40)%nat then (Z.lxor b (Z.lxor c d), 1859775393)
        else if (t <? 60)%nat
             then (Z.lor (Z.land b c) (Z.lor (Z.land b d) (Z.land c d)), 2400959708)
        else (Z.lxor b (Z.lxor c d), 3395469782) in
      let tmp := W32.add (W32.add (W32.add (W32.rotl a 5) f) (W32.add e k)) w in
      [tmp; a; W32.rotl b 30; c; d]
  | _ => st
  end.

Definition sha1_block (st block : list Z) : list Z :=
  zip_with W32.add st (foldl sha1_round st (imap pair (sha1_schedule block))).

Definition sha1_sum (msg : list Z) : list Z :=
  foldl sha1_block [1732584193; 4023233417; 2562383102; 271733878; 3285377520]
    (chunks 64 (pad (be_bytes 8) msg)) ≫= be_bytes 4.

(** ** MD5 *)

Definition md5_k : list Z :=
  [3614090360; 3905402710; 606105819; 3250441966; 4118548399; 1200080426;
   2821735955; 4249261313; 1770035416; 2336552879; 4294925233; 2304563134;
   1804603682; 4254626195; 2792965006; 1236535329; 4129170786; 3225465664;
   643717713; 3921069994; 3593408605; 38016083; 3634488961; 3889429448;
   568446438; 3275163606; 4107603335; 1163531501; 2850285829; 4243563512;
   1735328473; 2368359562; 4294588738; 2272392833; 1839030562; 4259657740;
   2763975236; 1272893353; 4139469664; 3200236656; 681279174; 3936430074;
   3572445317; 76029189; 3654602809; 3873151461; 530742520; 3299628645;
   4096336452; 1126891415; 2878612391; 4237533241; 1700485571; 2399980690;
   4293915773; 2240044497; 1873313359; 4264355552; 2734768916; 1309151649;
   4149444226; 3174756917; 718787259; 3951481745].

Definition md5_r : list Z :=
  [7; 12; 17; 22; 7; 12; 17; 22; 7; 12; 17; 22; 7; 12; 17; 22;
   5; 9; 14; 20; 5; 9; 14; 20; 5; 9; 14; 20; 5; 9; 14; 20;
   4; 11; 16; 23; 4; 11; 16; 23; 4; 11; 16; 23; 4; 11; 16; 23;
   6; 10; 15; 21; 6; 10; 15; 21; 6; 10; 15; 21; 6; 10; 15; 21].

Definition md5_round (m : list Z) (st : list Z) (ikr : nat * (Z * Z)) : list Z :=
  let '(i, (k, r)) := ikr in
  match st with
  | [a; b; c; d] =>
      let '(f, g) :=
        if (i <? 16)%nat then (Z.lor (Z.land b c) (Z.land (W32.not b) d), i)
        else if (i <? 32)%nat
             then (Z.lor (Z.land d b) (Z.land (W32.not d) c), (5 * i + 1) mod 16)%nat
        else if (i <? 48)%nat then (Z.lxor b (Z.lxor c d), (3 * i + 5) mod 16)%nat
        else (Z.lxor c (Z.lor b (W32.not d)), (7 * i) mod 16)%nat in
      let s := W32.add (W32.add a f) (W32.add k (nth g m 0)) in
      [d; W32.add b (W32.rotl s r); b; c]
  | _ => st
  end.

Definition md5_block (st block : list Z) : list Z :=
  let m := le_word <$> chunks 4 block in
  zip_with W32.add st (foldl (md5_round m) st (imap pair (zip md5_k md5_r))).

Definition md5_sum (msg : list Z) : list Z :=
  foldl md5_block [1732584193; 4023233417; 2562383102; 271733878]
    (chunks 64 (pad (le_bytes 8) msg)) ≫= le_bytes 4.

(** ** SHA-256 *)

Definition sha256_k : list Z :=
  [1116352408; 1899447441; 3049323471; 3921009573; 961987163; 1508970993;
   2453635748; 2870763221; 3624381080; 310598401; 607225278; 1426881987;
   1925078388; 2162078206; 2614888103; 3248222580; 3835390401; 4022224774;
   264347078; 604807628; 770255983; 1249150122; 1555081692; 1996064986;
   2554220882; 2821834349; 2952996808; 3210313671; 3336571891; 3584528711;
   113926993; 338241895; 666307205; 773529912; 1294757372; 1396182291;
   1695183700; 1986661051; 2177026350; 2456956037; 2730485921; 2820302411;
   3259730800; 3345764771; 3516065817; 3600352804; 4094571909; 275423344;
   430227734; 506948616; 659060556; 883997877; 958139571; 1322822218;
   1537002063; 1747873779; 1955562222; 2024104815; 2227730452; 2361852424;
   2428436474; 2756734187; 3204031479; 3329325298].

Definition sha256_schedule (block : list Z) : list Z :=
  reverse (Nat.iter 48
    (λ rev,
      let w15 := nth 14 rev 0 in
      let w2 := nth 1 rev 0 in
      let s0 := Z.lxor (W32.rotr w15 7) (Z.lxor (W32.rotr w15 18) (Z.shiftr w15 3)) in
      let s1 := Z.lxor (W32.rotr w2 17) (Z.lxor (W32.rotr w2 19) (Z.shiftr w2 10)) in
      W32.add (W32.add (nth 15 rev 0) s0) (W32.add (nth 6 rev 0) s1) :: rev)
    (reverse (be_word <$> chunks 4 block))).

Definition sha256_round (st : list Z) (kw : Z * Z) : list Z :=
  match st with
  | [a; b; c; d; e; f; g; h] =>
      let s1 := Z.lxor (W32.rotr e 6) (Z.lxor (W32.rotr e 11) (W32.rotr e 25)) in
      let ch := Z.lxor (Z.land e f) (Z.land (W32.not e) g) in
      let t1 := W32.add (W32.add h s1) (W32.add ch (W32.add kw.1 kw.2)) in
      let s0 := Z.lxor (W32.rotr a 2) (Z.lxor (W32.rotr a 13) (W32.rotr a 22)) in
      let maj := Z.lxor (Z.land a b) (Z.lxor (Z.land a c) (Z.land b c)) in
      [W32.add t1 (W32.add s0 maj); a; b; c; W32.add d t1; e; f; g]
  | _ => st
  end.

Definition sha256_block (st block : list Z) : list Z :=
  zip_with W32.add st (foldl sha256_round st (zip sha256_k (sha256_schedule block))).

Definition sha256_sum (msg : list Z) : list Z :=
  foldl sha256_block
    [1779033703; 3144134277; 1013904242; 2773480762;
     1359893119; 2600822924; 528734635; 1541459225]
    (chunks 64 (pad (be_bytes 8) msg)) ≫= be_bytes 4.

(** ** Hexadecimal *)

Definition hex_digit (z : Z) : ascii :=
  match z with
  | 0 => "0" | 1 => "1" | 2 => "2" | 3 => "3" | 4 => "4" | 5 => "5" | 6 => "6" | 7 => "7"
  | 8 => "8" | 9 => "9" | 10 => "a" | 11 => "b" | 12 => "c" | 13 => "d" | 14 => "e"
  | _ => "f"
  end%char.

Fixpoint hex_encode (bs : list Z) : string :=
  match bs with
  | [] => ""
  | b :: bs => String (hex_digit (b / 16)) (String (hex_digit (b mod 16)) (hex_encode bs))
  end.

Definition sha1_hex (s : string) : string := hex_encode (sha1_sum (string_bytes s)).
Definition md5_hex (s : string) : string := hex_encode (md5_sum (string_bytes s)).
Definition sha256_hex (s : string) : string := hex_encode (sha256_sum (string_bytes s)).

(** ** Lengths of the digests *)

Lemma slen_hex_encode bs : slen (hex_encode bs) = (2 * length bs)%nat.
Proof.
  induction bs as [|b bs IH]; [done|]. cbn [hex_encode length].
  rewrite !slen_cons, IH. lia.
Qed.

Lemma length_be_bytes n w : length (be_bytes n w) = n.
Proof. unfold be_bytes. by rewrite length_fmap, length_seq. Qed.

Lemma length_bind_const {A B} (f : A → list B) n l :
  (∀ x, length (f x) = n) → length (l ≫= f) = (length l * n)%nat.
Proof.
  intros Hf. induction l as [|x l IH]; [done|].
  cbn. rewrite length_app, IH, Hf. lia.
Qed.

(** Every block step keeps the number of state words. *)
Lemma foldl_length {A} (step : list Z → A → list Z) n l st :
  (∀ s x, length s = n → length (step s x) = n) → length st = n →
  length (foldl step st l) = n.
Proof. intros Hs. revert st. induction l; intros st Hst; simpl; auto. Qed.

Lemma add_rounds_length {A} (round : list Z → A → list Z) l st n :
  (∀ s x, length s = n → length (round s x) = n) → length st = n →
  length (zip_with W32.add st (foldl round st l)) = n.
Proof.
  intros Hr Hst. rewrite length_zip_with, (foldl_length round n) by done. lia.
Qed.

Lemma sha1_hex_length s : slen (sha1_hex s) = 40%nat.
Proof.
  unfold sha1_hex, sha1_sum. rewrite slen_hex_encode, (length_bind_const _ 4).
  2: intros; apply length_be_bytes.
  rewrite (foldl_length _ 5); [done| |done]. intros st b Hst. apply add_rounds_length; [|done].
  intros s' [t w] Hs'. unfold sha1_round. repeat (go_case; try done).
Qed.

Lemma md5_hex_length s : slen (md5_hex s) = 32%nat.
Proof.
  unfold md5_hex, md5_sum. rewrite slen_hex_encode, (length_bind_const _ 4).
  2: { intros. unfold le_bytes. rewrite length_reverse. apply length_be_bytes. }
  rewrite (foldl_length _ 4); [done| |done]. intros st b Hst. apply add_rounds_length; [|done].
  intros s' [i [k r]] Hs'. unfold md5_round. repeat (go_case; try done).
Qed.

Lemma sha256_hex_length s : slen (sha256_hex s) = 64%nat.
Proof.
  unfold sha256_hex, sha256_sum. rewrite slen_hex_encode, (length_bind_const _ 4).
  2: intros; apply length_be_bytes.
  rewrite (foldl_length _ 8); [done| |done]. intros st b Hst. apply add_rounds_length; [|done].
  intros s' [k w] Hs'. unfold sha256_round. repeat (go_case; try done).
Qed.

(** ** Digests are alphanumeric, so they are valid in names and labels *)

Definition is_lower_hex (c : ascii) : bool :=
  let n := N_of_ascii c in
  ((48 <=? n) && (n <=? 57) || (97 <=? n) && (n <=? 102))%N.

Lemma hex_digit_ok z : is_lower_hex (hex_digit z) = true.
Proof. unfold hex_digit. repeat (case_match; try done). Qed.

Lemma hex_encode_ok bs : sall is_lower_hex (hex_encode bs) = true.
Proof. induction bs as [|b bs IH]; [done|]. cbn. by rewrite !hex_digit_ok, IH. Qed.

Example sha1_vector_0 :
  sha1_hex "abc" =
  "a9993e364706816aba3e25717850c26c9cd0d89d".
Proof. vm_compute. reflexivity. Qed.

Example sha1_vector_1 :
  sha1_hex "the quick brown fox jumps over the lazy dog, twice, and then it rests" =
  "e8a4afe5131135fee9af2a5a6b2de5be1e13a1f7".
Proof. vm_compute. reflexivity. Qed.

Example md5_vector_0 :
  md5_hex "abc" =
  "900150983cd24fb0d6963f7d28e17f72".
Proof. vm_compute. reflexivity. Qed.

Example md5_vector_1 :
  md5_hex "the quick brown fox jumps over the lazy dog, twice, and then it rests" =
  "2de76df71fe23ca3c3b3a95f0b54eceb".
Proof. vm_compute. reflexivity. Qed.

Example sha256_vector_0 :
  sha256_hex "abc" =
  "ba7816bf8f01cfea414140de5dae2223b00361a396177a9cb410ff61f20015ad".
Proof. vm_compute. reflexivity. Qed.

Example sha256_vector_1 :
  sha256_hex "the quick brown fox jumps over the lazy dog, twice, and then it rests" =
  "972d733100b916606a0dcc5c59afd5aa4adc88861037af1727600c9937cce671".
Proof. vm_compute. reflexivity. Qed.

