(* ===== verification/Meta.v ===== *)
(** * Object metadata and names

    The part of [metav1.ObjectMeta] the program reads or writes, owner references
    ([kmeta.NewControllerRef]), map unions ([kmap.Union]), child names
    ([kmeta.ChildName]), cache keys ([cache.SplitMetaNamespaceKey]), ports that are
    a number or a name ([intstr.IntOrString]), the label and annotation keys of
    resources/constants.go and the name of the endpoint probe
    (resources/names/names.go). *)

From S2P Require Import Prelude Hash.

(** ** Metadata *)

Record OwnerReference := {
  or_api_version : string;
  or_kind : string;
  or_name : string;
  or_uid : string;
  or_controller : bool;
  or_block_owner_deletion : bool
}.
#[export] Instance OwnerReference_eq_dec : EqDecision OwnerReference.
Proof. solve_decision. Defined.

Record ObjectMeta := {
  om_name : string;
  om_namespace : string;
  om_uid : string;
  om_resource_version : string;
  om_generation : Z;
  om_labels : gmap string string;
  om_annotations : gmap string string;
  om_owners : list OwnerReference
}.
#[export] Instance ObjectMeta_eq_dec : EqDecision ObjectMeta.
Proof. solve_decision. Defined.

(** The namespace and name under which an object is stored. *)
Definition om_key (m : ObjectMeta) : string * string := (om_namespace m, om_name m).

Definition kingress_api_version : string := "networking.internal.knative.dev/v1alpha1".

(** [*kmeta.NewControllerRef(ing)] for a KIngress. *)
Definition NewControllerRef (owner : ObjectMeta) : OwnerReference := {|
  or_api_version := kingress_api_version;
  or_kind := "Ingress";
  or_name := om_name owner;
  or_uid := om_uid owner;
  or_controller := true;
  or_block_owner_deletion := true
|}.

(** [kmeta.UnionMaps]: values of later maps win. *)
Definition UnionMaps (maps : list (gmap string string)) : gmap string string :=
  foldl (λ out m, m ∪ out) ∅ maps.

Lemma UnionMaps_two a b : UnionMaps [a; b] = b ∪ a.
Proof. unfold UnionMaps. simpl. by rewrite (map_union_empty a). Qed.

(** ** Keys (resources/constants.go) *)

Definition GenerationKey : string := "contour.networking.knative.dev/generation".
Definition ParentKey : string := "contour.networking.knative.dev/parent".
Definition DomainHashKey : string := "contour.networking.knative.dev/domainHash".
Definition ClassKey : string := "projectcontour.io/ingress.class".
Definition EndpointsProbeKey : string := "contour.networking.knative.dev/endpointsProbe".
Definition InternalEncryptionProtocol : string := "tls".
Definition InternalEncryptionH2Protocol : string := "h2".
Definition HTTPChallengePath : string := "/.well-known/acme-challenge".
Definition ExtensionServiceKey : string := "contour.networking.knative.dev/extension-service".
Definition ExtensionServiceNamespaceKey : string :=
  "contour.networking.knative.dev/extension-service-namespace".

(** ** Child names *)

Definition is_digit (c : ascii) : bool :=
  let n := N_of_ascii c in ((48 <=? n) && (n <=? 57))%N.
Definition is_lower (c : ascii) : bool :=
  let n := N_of_ascii c in ((97 <=? n) && (n <=? 122))%N.
Definition is_upper (c : ascii) : bool :=
  let n := N_of_ascii c in ((65 <=? n) && (n <=? 90))%N.
Definition isAlphanumeric (c : ascii) : bool := is_digit c || is_lower c || is_upper c.

Module ChildName.

Definition longest : Z := 63.
Definition md5Len : Z := 32.
Definition head : Z := longest - md5Len.

Fixpoint drop_nonalnum (s : string) : string :=
  match s with
  | "" => ""
  | String c r => if isAlphanumeric c then s else drop_nonalnum r
  end.

(** [makeValidName]: drop trailing characters until an alphanumeric one.  (Go
    would index out of range on a string with none; [ret_has_alnum] below shows
    that [ChildName] never passes such a string.) *)
Definition makeValidName (n : string) : string :=
  String.rev (drop_nonalnum (String.rev n)).

(** Go's [s[:n]]. *)
Definition slice_to (s : string) (n : Z) : string := stake (Z.to_nat n) s.
Definition zlen (s : string) : Z := Z.of_nat (slen s).

Definition ChildName (parent suffix : string) : string :=
  if (zlen parent >? longest - zlen suffix)%Z then
    if (head - zlen suffix <=? 0)%Z then
      let h := md5_hex (parent +:+ suffix) in
      let parent := if (head <? zlen parent)%Z then slice_to parent head else parent in
      let ret := parent +:+ h in
      let d := (longest - zlen ret)%Z in
      makeValidName (if (0 <? d)%Z then ret +:+ slice_to suffix d else ret)
    else
      slice_to parent (head - zlen suffix) +:+ md5_hex parent +:+ suffix
  else parent +:+ suffix.

(** *** Lengths *)

Lemma slen_rev_app a b : slen (String.rev_app a b) = (slen a + slen b)%nat.
Proof.
  revert b. induction a as [|c a IH]; intros b; [done|].
  cbn [String.rev_app]. rewrite IH, !slen_cons. lia.
Qed.

Lemma slen_rev s : slen (String.rev s) = slen s.
Proof. unfold String.rev. rewrite slen_rev_app. unfold slen at 2. simpl. lia. Qed.

Lemma drop_nonalnum_length s : (slen (drop_nonalnum s) ≤ slen s)%nat.
Proof.
  induction s as [|c s IH]; [done|]. cbn [drop_nonalnum]. case_match; [done|].
  rewrite slen_cons. lia.
Qed.

Lemma makeValidName_length s : (slen (makeValidName s) ≤ slen s)%nat.
Proof.
  unfold makeValidName. rewrite slen_rev, <-(slen_rev s). apply drop_nonalnum_length.
Qed.

Lemma slen_slice_to s n : slen (slice_to s n) = min (Z.to_nat n) (slen s).
Proof. apply slen_stake. Qed.

(** A child name fits in a Kubernetes name. *)
Lemma ChildName_length parent suffix : (slen (ChildName parent suffix) ≤ 63)%nat.
Proof.
  unfold ChildName, head, longest, md5Len, zlen.
  destruct (_ >? _)%Z eqn:E1; [|rewrite slen_app; lia].
  destruct (_ <=? 0)%Z eqn:E2.
  - etrans; [apply makeValidName_length|].
    set (p := if (_ <? _)%Z then slice_to parent _ else parent).
    assert (slen p ≤ 31)%nat as Hp.
    { unfold p. destruct (_ <? _)%Z eqn:E3; [rewrite slen_slice_to|]; lia. }
    rewrite slen_app, md5_hex_length.
    destruct (0 <? _)%Z eqn:E4; rewrite ?slen_app, md5_hex_length, ?slen_slice_to; lia.
  - rewrite !slen_app, slen_slice_to, md5_hex_length. lia.
Qed.

(** Short names are plain concatenations. *)
Lemma ChildName_short parent suffix :
  (slen parent + slen suffix ≤ 63)%nat → ChildName parent suffix = parent +:+ suffix.
Proof.
  intros H. unfold ChildName, zlen, longest. destruct (_ >? _)%Z eqn:E; [lia|done].
Qed.

(** *** No slice is out of range, and [makeValidName] always stops *)

Lemma rev_app_app a b c : String.rev_app (a +:+ b) c = String.rev_app b (String.rev_app a c).
Proof.
  revert c. induction a as [|x a IH]; intros c; [done|].
  rewrite app_str_cons. cbn [String.rev_app]. apply IH.
Qed.

Lemma rev_app_rev a b : String.rev_app a b = String.rev a +:+ b.
Proof.
  unfold String.rev. revert b. induction a as [|x a IH]; intros b; [done|].
  cbn [String.rev_app]. rewrite IH, (IH (String x "")), app_str_assoc. done.
Qed.

Lemma rev_app_str a b : String.rev (a +:+ b) = String.rev b +:+ String.rev a.
Proof. unfold String.rev at 1. rewrite rev_app_app, rev_app_rev. done. Qed.

Definition has_alnum (s : string) : Prop :=
  ∃ a c b, s = a +:+ String c b ∧ isAlphanumeric c = true.

Lemma drop_nonalnum_nonempty s : has_alnum s → drop_nonalnum s ≠ "".
Proof.
  intros (a & c & b & -> & Hc). induction a as [|x a IH].
  - rewrite app_str_nil. cbn. by rewrite Hc.
  - rewrite app_str_cons. cbn [drop_nonalnum]. by destruct (isAlphanumeric x).
Qed.

Lemma has_alnum_rev s : has_alnum s → has_alnum (String.rev s).
Proof.
  intros (a & c & b & -> & Hc). exists (String.rev b), c, (String.rev a). split; [|done].
  change (String c b) with (String c "" +:+ b).
  by rewrite !rev_app_str, app_str_assoc.
Qed.

Lemma hex_has_alnum h : sall is_lower_hex h = true → h ≠ "" → has_alnum h.
Proof.
  destruct h as [|c h]; [done|]. cbn. intros [Hc _]%andb_true_iff _.
  exists "", c, h. split; [done|]. revert Hc.
  unfold is_lower_hex, isAlphanumeric, is_digit, is_lower. cbv zeta.
  rewrite !orb_true_iff, !andb_true_iff, !N.leb_le. lia.
Qed.

Lemma md5_has_alnum s : has_alnum (md5_hex s).
Proof.
  apply hex_has_alnum; [apply hex_encode_ok|].
  intros E. pose proof (md5_hex_length s) as H. by rewrite E in H.
Qed.

Lemma has_alnum_app a s b : has_alnum s → has_alnum (a +:+ s +:+ b).
Proof.
  intros (x & c & y & -> & Hc). exists (a +:+ x), c, (y +:+ b). split; [|done].
  by rewrite !app_str_assoc.
Qed.

(** The string handed to [makeValidName] always holds the digest. *)
Lemma ret_has_alnum p parent suffix q : has_alnum (p +:+ md5_hex (parent +:+ suffix) +:+ q).
Proof. apply has_alnum_app, md5_has_alnum. Qed.

Lemma makeValidName_nonempty s : has_alnum s → makeValidName s ≠ "".
Proof.
  intros H%has_alnum_rev%drop_nonalnum_nonempty E. unfold makeValidName in E.
  apply (f_equal slen) in E. rewrite slen_rev in E.
  by destruct (drop_nonalnum (String.rev s)).
Qed.


(** A child name has at most 63 bytes, and is parent and suffix side by side when
    these fit. *)
Theorem ChildName_bounds parent suffix :
  slen (ChildName parent suffix) ≤ 63 ∧
  (slen parent + slen suffix ≤ 63 → ChildName parent suffix = parent +:+ suffix).
Proof. split; [apply ChildName_length|apply ChildName_short]. Qed.
End ChildName.

(** [names.EndpointProbeIngress]: the name of the child KIngress. *)
Definition EndpointProbeIngress (m : ObjectMeta) : string :=
  ChildName.ChildName (om_name m +:+ "--") "ep".

(** ** Cache keys *)

Definition SplitMetaNamespaceKey (key : string) : outcome (string * string) :=
  match Split key "/"%char with
  | [name] => Ret ("", name)
  | [namespace; name] => Ret (namespace, name)
  | _ => Fail (Errorf "unexpected key format: %q" [key])
  end.

(** ** [intstr.IntOrString] *)

Inductive IntOrString :=
  | FromInt (i : Z)      (* an int32 *)
  | FromString (s : string).
#[export] Instance IntOrString_eq_dec : EqDecision IntOrString.
Proof. solve_decision. Defined.

Definition digit_value (c : ascii) : option Z :=
  if is_digit c then Some (Z.of_N (N_of_ascii c) - 48)%Z else None.

Definition maxUint64 : Z := 2 ^ 64 - 1.
Definition maxInt64 : Z := 2 ^ 63 - 1.

(** What [strconv.Atoi] returns: its value, and whether it returned no error. *)
Definition numres : Type := (Z * bool).

(** [strconv.ParseUint s 10 64]; on overflow the largest value, at once. *)
Fixpoint parse_uint_go (s : string) (n : Z) : numres + unit :=
  match s with
  | "" => inl (n, true)
  | String c s =>
      match digit_value c with
      | None => inr ()
      | Some d =>
          if (maxUint64 / 10 + 1 <=? n)%Z then inl (maxUint64, false)
          else if (maxUint64 <? n * 10 + d)%Z then inl (maxUint64, false)
          else parse_uint_go s (n * 10 + d)
      end
  end.

(** [strconv.Atoi]: a syntax error gives 0, a range error the nearest bound. *)
Definition Atoi (s : string) : numres :=
  let '(neg, digits) :=
    match s with
    | String "-" r => (true, r)
    | String "+" r => (false, r)
    | _ => (false, s)
    end%char in
  match digits with
  | "" => (0%Z, false)
  | _ =>
      match parse_uint_go digits 0 with
      | inr () => (0%Z, false)
      | inl (un, ok) =>
          if neg then if (maxInt64 + 1 <? un)%Z then (- (maxInt64 + 1), false)%Z
                      else ((- un)%Z, ok)
          else if (maxInt64 <? un)%Z then (maxInt64, false) else (un, ok)
      end
  end.

Definition IntValue (p : IntOrString) : Z :=
  match p with
  | FromInt i => i
  | FromString s => (Atoi s).1
  end.

(** ** The process environment

    [network.GetClusterDomainName()] (read once from resolv.conf or
    CLUSTER_DOMAIN) and [system.Namespace()] (SYSTEM_NAMESPACE; a panic when it is
    not set). *)

Record Env := {
  env_cluster_domain : string;
  env_system_namespace : option string
}.

Definition GetServiceHostname (env : Env) (name namespace : string) : string :=
  name +:+ "." +:+ namespace +:+ ".svc." +:+ env_cluster_domain env.

Definition SystemNamespace (env : Env) : outcome string :=
  match env_system_namespace env with
  | Some ns => if String.eqb ns "" then Panic "SYSTEM_NAMESPACE is not set" else Ret ns
  | None => Panic "SYSTEM_NAMESPACE is not set"
  end.
