(* ===== verification/Regexp.v ===== *)
(** * Regular expressions

    Go's [regexp] package as far as the program uses it: fully anchored patterns
    over bytes, matched by derivatives, with the proof that the matcher decides
    the language of the pattern.  Patterns of the sources are written as terms of
    [re], so each reads like the pattern it stands for. *)

From S2P Require Import Prelude Meta.

Inductive re :=
  | RVoid
  | REps
  | RChar (p : ascii → bool)
  | RAlt (r1 r2 : re)
  | RCat (r1 r2 : re)
  | RStar (r : re).

(** The language of a pattern. *)
Inductive lang : re → string → Prop :=
  | lang_eps : lang REps ""
  | lang_char p c : p c = true → lang (RChar p) (String c "")
  | lang_alt_l r1 r2 s : lang r1 s → lang (RAlt r1 r2) s
  | lang_alt_r r1 r2 s : lang r2 s → lang (RAlt r1 r2) s
  | lang_cat r1 r2 s1 s2 : lang r1 s1 → lang r2 s2 → lang (RCat r1 r2) (s1 +:+ s2)
  | lang_star_nil r : lang (RStar r) ""
  | lang_star_cons r s1 s2 : lang r s1 → lang (RStar r) s2 → lang (RStar r) (s1 +:+ s2).

#[export] Hint Constructors lang : golib.

(** Constructors that drop what cannot match. *)
Definition r_alt (r1 r2 : re) : re :=
  match r1, r2 with RVoid, r => r | r, RVoid => r | _, _ => RAlt r1 r2 end.
Definition r_cat (r1 r2 : re) : re :=
  match r1, r2 with
  | RVoid, _ => RVoid | _, RVoid => RVoid | REps, r => r | _, _ => RCat r1 r2
  end.

Fixpoint nullable (r : re) : bool :=
  match r with
  | RVoid | RChar _ => false
  | REps | RStar _ => true
  | RAlt r1 r2 => nullable r1 || nullable r2
  | RCat r1 r2 => nullable r1 && nullable r2
  end.

Fixpoint deriv (c : ascii) (r : re) : re :=
  match r with
  | RVoid | REps => RVoid
  | RChar p => if p c then REps else RVoid
  | RAlt r1 r2 => r_alt (deriv c r1) (deriv c r2)
  | RCat r1 r2 =>
      if nullable r1 then r_alt (r_cat (deriv c r1) r2) (deriv c r2)
      else r_cat (deriv c r1) r2
  | RStar r => r_cat (deriv c r) (RStar r)
  end.

(** [MatchString] for the anchored pattern [^r$]. *)
Fixpoint MatchString (r : re) (s : string) : bool :=
  match s with
  | "" => nullable r
  | String c s => MatchString (deriv c r) s
  end.

(** Pattern notation: [r+], [r?], literals. *)
Definition RPlus (r : re) : re := RCat r (RStar r).
Definition ROpt (r : re) : re := RAlt r REps.
Fixpoint RLit (s : string) : re :=
  match s with
  | "" => REps
  | String c s => RCat (RChar (Ascii.eqb c)) (RLit s)
  end.

(** ** Correctness of the matcher *)

Lemma lang_void s : ¬ lang RVoid s.
Proof. inversion 1. Qed.

Lemma lang_eps_iff s : lang REps s ↔ s = "".
Proof. split; [by inversion 1|]. intros ->. constructor. Qed.

Lemma lang_char_iff p s : lang (RChar p) s ↔ ∃ c, s = String c "" ∧ p c = true.
Proof. split; [inversion 1; eauto|]. intros (c & -> & Hc). by constructor. Qed.

Lemma lang_alt_iff r1 r2 s : lang (RAlt r1 r2) s ↔ lang r1 s ∨ lang r2 s.
Proof. split; [inversion 1; auto|]. intros []; eauto with golib. Qed.

Lemma lang_cat_iff r1 r2 s :
  lang (RCat r1 r2) s ↔ ∃ s1 s2, s = s1 +:+ s2 ∧ lang r1 s1 ∧ lang r2 s2.
Proof.
  split; [inversion 1; naive_solver|]. intros (s1 & s2 & -> & H1 & H2). by constructor.
Qed.

Lemma lang_r_alt r1 r2 s : lang (r_alt r1 r2) s ↔ lang r1 s ∨ lang r2 s.
Proof.
  rewrite <-lang_alt_iff. pose proof (lang_void s) as Hv.
  destruct r1, r2; simpl; rewrite ?lang_alt_iff; naive_solver.
Qed.

Lemma lang_r_cat r1 r2 s : lang (r_cat r1 r2) s ↔ lang (RCat r1 r2) s.
Proof.
  rewrite lang_cat_iff. split.
  - intros H. apply lang_cat_iff.
    destruct r1, r2; simpl in H;
      try (by apply lang_void in H); try done;
      rewrite <-(app_str_nil s); constructor; done || constructor.
  - intros (s1 & s2 & -> & H1 & H2).
    destruct r1; try (by apply lang_void in H1);
      destruct r2; try (by apply lang_void in H2); simpl;
      try (by constructor); apply lang_eps_iff in H1 as ->; by rewrite app_str_nil.
Qed.

Lemma nullable_spec r : nullable r = true ↔ lang r "".
Proof.
  induction r as [| |p|r1 IH1 r2 IH2|r1 IH1 r2 IH2|r IH]; simpl.
  - split; [done|]. by intros ?%lang_void.
  - split; [constructor|done].
  - split; [done|]. by intros (c & ? & _)%lang_char_iff.
  - rewrite orb_true_iff, lang_alt_iff. naive_solver.
  - rewrite andb_true_iff, lang_cat_iff, IH1, IH2. split.
    + intros [??]. by exists "", "".
    + intros (s1 & s2 & E & H1 & H2). by destruct s1, s2.
  - split; [constructor|done].
Qed.

Lemma lang_star_step r c s :
  lang (RStar r) (String c s) →
  ∃ s1 s2, s = s1 +:+ s2 ∧ lang r (String c s1) ∧ lang (RStar r) s2.
Proof.
  remember (RStar r) as r' eqn:Hr. remember (String c s) as s' eqn:Hs. intros H.
  revert r c s Hr Hs.
  induction H as [| | | | |r'|r' s1 s2 H1 _ H2 IH2]; intros r0 c0 s0 [= ->] Hs; [done|].
  destruct s1 as [|c1 s1].
  - rewrite app_str_nil in Hs. eauto.
  - rewrite app_str_cons in Hs. injection Hs as -> <-. eauto.
Qed.

Lemma deriv_spec c r s : lang (deriv c r) s ↔ lang r (String c s).
Proof.
  revert s. induction r as [| |p|r1 IH1 r2 IH2|r1 IH1 r2 IH2|r IH]; intros s; simpl.
  - split; by intros ?%lang_void.
  - rewrite lang_eps_iff. split; [by intros ?%lang_void|done].
  - rewrite lang_char_iff. destruct (p c) eqn:E.
    + rewrite lang_eps_iff. split; [intros ->; eauto|]. by intros (c' & [= <- ->] & _).
    + split; [by intros ?%lang_void|]. intros (c' & [= <- ->] & E'). congruence.
  - rewrite lang_r_alt, lang_alt_iff, IH1, IH2. done.
  - assert (lang (RCat (deriv c r1) r2) s ↔
      ∃ s1 s2, s = s1 +:+ s2 ∧ lang r1 (String c s1) ∧ lang r2 s2) as Hl.
    { rewrite lang_cat_iff. by setoid_rewrite IH1. }
    assert (lang (RCat r1 r2) (String c s) ↔
      (∃ s1 s2, s = s1 +:+ s2 ∧ lang r1 (String c s1) ∧ lang r2 s2) ∨
      (nullable r1 = true ∧ lang r2 (String c s))) as Hr.
    { rewrite lang_cat_iff, nullable_spec. split.
      - intros ([|c1 s1] & s2 & E & H1 & H2); [right; by rewrite E|left].
        rewrite app_str_cons in E. injection E as -> ->. eauto.
      - intros [(s1 & s2 & -> & H1 & H2)|[H1 H2]].
        + exists (String c s1), s2. by rewrite app_str_cons.
        + by exists "", (String c s). }
    rewrite Hr, <-Hl. destruct (nullable r1).
    + rewrite lang_r_alt, lang_r_cat, IH2. naive_solver.
    + rewrite lang_r_cat. naive_solver.
  - rewrite lang_r_cat, lang_cat_iff. setoid_rewrite IH. split.
    + intros (s1 & s2 & -> & H1 & H2).
      change (String c (s1 +:+ s2)) with (String c s1 +:+ s2). by constructor.
    + apply lang_star_step.
Qed.

(** The matcher decides the language. *)
Lemma MatchString_spec r s : MatchString r s = true ↔ lang r s.
Proof.
  revert r. induction s as [|c s IH]; intros r; simpl; [apply nullable_spec|].
  by rewrite IH, deriv_spec.
Qed.

(** ** Patterns over a character class *)

(** Every word of a pattern uses only characters some class of it accepts. *)
Fixpoint re_chars (r : re) (c : ascii) : bool :=
  match r with
  | RVoid | REps => false
  | RChar p => p c
  | RAlt r1 r2 | RCat r1 r2 => re_chars r1 c || re_chars r2 c
  | RStar r => re_chars r c
  end.

Lemma sall_app p a b : sall p (a +:+ b) = sall p a && sall p b.
Proof.
  induction a as [|c a IH]; [done|]. rewrite app_str_cons. cbn. by rewrite IH, andb_assoc.
Qed.

Lemma sall_impl (p q : ascii → bool) s :
  (∀ c, p c = true → q c = true) → sall p s = true → sall q s = true.
Proof.
  intros H. induction s as [|c s IH]; cbn; [done|]. rewrite !andb_true_iff. naive_solver.
Qed.

Lemma lang_chars r s : lang r s → sall (re_chars r) s = true.
Proof.
  induction 1 as [|p c Hc|r1 r2 s _ IH|r1 r2 s _ IH|r1 r2 s1 s2 _ IH1 _ IH2|r
                 |r s1 s2 _ IH1 _ IH2]; cbn; rewrite ?sall_app.
  - done.
  - by rewrite Hc.
  - eapply sall_impl; [|done]. cbn. intros c ->. done.
  - eapply sall_impl; [|done]. cbn. intros c ->. by rewrite orb_true_r.
  - apply andb_true_iff; split.
    + eapply sall_impl; [|exact IH1]. cbn. intros c ->. done.
    + eapply sall_impl; [|exact IH2]. cbn. intros c ->. by rewrite orb_true_r.
  - done.
  - apply andb_true_iff. by split.
Qed.

(** ** The validation patterns of apimachinery (api/validate/content) *)

Definition labelKeyChar (c : ascii) : bool := isAlphanumeric c.
Definition labelKeyExtChar (c : ascii) : bool :=
  isAlphanumeric c || Ascii.eqb c "-" || Ascii.eqb c "_" || Ascii.eqb c ".".
Definition labelKeyFmt : re :=
  RCat (ROpt (RCat (RChar labelKeyChar) (RStar (RChar labelKeyExtChar)))) (RChar labelKeyChar).
Definition labelValueFmt : re := ROpt labelKeyFmt.

Definition dnsChar (c : ascii) : bool := is_lower c || is_digit c.
Definition dnsExtChar (c : ascii) : bool := dnsChar c || Ascii.eqb c "-".
Definition dns1123LabelFmt : re :=
  RCat (RChar dnsChar) (ROpt (RCat (RStar (RChar dnsExtChar)) (RChar dnsChar))).
Definition dns1123SubdomainFmt : re :=
  RCat dns1123LabelFmt (RStar (RCat (RChar (Ascii.eqb ".")) dns1123LabelFmt)).

Definition IsDNS1123Label (value : string) : list string :=
  (if 63 <? slen value then ["must be no more than 63 bytes"] else []) ++
  (if MatchString dns1123LabelFmt value then [] else
   if MatchString dns1123SubdomainFmt value then ["must not contain dots"]
   else ["a lowercase RFC 1123 label"]).

Definition IsDNS1123Subdomain (value : string) : list string :=
  (if 253 <? slen value then ["must be no more than 253 bytes"] else []) ++
  (if MatchString dns1123SubdomainFmt value then [] else ["a lowercase RFC 1123 subdomain"]).

Definition IsLabelKey (value : string) : list string :=
  let check name :=
    (if String.eqb name "" then ["name part must be non-empty"]
     else if 63 <? slen name then ["name part must be no more than 63 bytes"] else []) ++
    (if MatchString labelKeyFmt name then [] else ["name part"]) in
  match Split value "/"%char with
  | [name] => check name
  | [prefix; name] =>
      (if String.eqb prefix "" then ["prefix part must be non-empty"]
       else (λ m, "prefix part " +:+ m) <$> IsDNS1123Subdomain prefix) ++ check name
  | _ => ["a valid label key"]
  end.

Definition IsLabelValue (value : string) : list string :=
  (if 63 <? slen value then ["must be no more than 63 bytes"] else []) ++
  (if MatchString labelValueFmt value then [] else ["a valid label"]).

Lemma IsLabelValue_chars v : IsLabelValue v = [] → sall labelKeyExtChar v = true.
Proof.
  unfold IsLabelValue. intros [_ H]%app_eq_nil.
  destruct (MatchString labelValueFmt v) eqn:E; [|done].
  apply MatchString_spec, lang_chars in E. eapply sall_impl; [|exact E].
  intros c. cbn. unfold labelKeyExtChar, labelKeyChar.
  destruct (isAlphanumeric c); [done|]. by rewrite !orb_false_r.
Qed.
