(* ===== verification/Labels.v ===== *)
(** * Label selectors (k8s.io/apimachinery/pkg/labels)

    Requirements and their matching, selectors built from a set, the lexer and the
    parser of the selector syntax, and the printer.  The reconciler selects its
    HTTPProxies with [labels.Set.AsSelector] and with the parsed text
    ["parent=<name>,generation!=<n>"], and sends [selector.String()] to the API
    server, which parses it again: the theorems at the end show that the parsed
    selector means what the text says and that printing and parsing agree. *)

From S2P Require Import Prelude Meta Regexp.

Inductive Operator :=
  | DoesNotExist | Equals | DoubleEquals | In | NotEquals | NotIn | Exists
  | GreaterThan | LessThan.
#[export] Instance Operator_eq_dec : EqDecision Operator.
Proof. solve_decision. Defined.

Record Requirement := {
  req_key : string;
  req_operator : Operator;
  req_values : list string
}.
#[export] Instance Requirement_eq_dec : EqDecision Requirement.
Proof. solve_decision. Defined.

(** [internalSelector]: a conjunction of requirements. *)
Abbreviation Selector := (list Requirement) (only parsing).

(** ** Building requirements *)

Definition value_arity_ok (op : Operator) (vals : list string) : bool :=
  match op with
  | In | NotIn => negb (bool_decide (vals = []))
  | Equals | DoubleEquals | NotEquals => length vals =? 1
  | Exists | DoesNotExist => length vals =? 0
  | GreaterThan | LessThan =>
      (length vals =? 1) && forallb (λ v, (Atoi v).2) vals
  end.

(** The fields at fault, as [NewRequirement] collects them. *)
Definition requirement_errors (key : string) (op : Operator) (vals : list string) : list string :=
  (if bool_decide (IsLabelKey key = []) then [] else ["key"]) ++
  (if value_arity_ok op vals then [] else ["values"]) ++
  (vals ≫= λ v, if bool_decide (IsLabelValue v = []) then [] else ["values: " +:+ v]).

Definition NewRequirement (key : string) (op : Operator) (vals : list string)
    : outcome Requirement :=
  match requirement_errors key op vals with
  | [] => Ret {| req_key := key; req_operator := op; req_values := vals |}
  | errs => Fail (Errorf "invalid requirement" errs)
  end.

(** ** Matching *)

Definition hasValue (r : Requirement) (v : string) : bool :=
  existsb (String.eqb v) (req_values r).

Definition req_Matches (r : Requirement) (ls : gmap string string) : bool :=
  match req_operator r with
  | In | Equals | DoubleEquals =>
      match ls !! req_key r with None => false | Some v => hasValue r v end
  | NotIn | NotEquals =>
      match ls !! req_key r with None => true | Some v => negb (hasValue r v) end
  | Exists => bool_decide (is_Some (ls !! req_key r))
  | DoesNotExist => negb (bool_decide (is_Some (ls !! req_key r)))
  | GreaterThan | LessThan =>
      match ls !! req_key r with
      | None => false
      | Some v =>
          let '(lv, ok) := Atoi v in
          if ok then
            match req_values r with
            | [rv] =>
                let '(n, ok) := Atoi rv in
                ok && match req_operator r with
                      | GreaterThan => (n <? lv)%Z
                      | _ => (lv <? n)%Z
                      end
            | _ => false
            end
          else false
      end
  end.

Definition Matches (s : Selector) (ls : gmap string string) : bool :=
  forallb (λ r, req_Matches r ls) s.

Definition ByKey : Requirement → Requirement → bool := key_less req_key.

(** [labels.Set(m).AsSelector()]: no validation. *)
Definition SelectorFromSet `{MapOrder} (ls : gmap string string) : Selector :=
  sort_slice ByKey
    ((λ kv, {| req_key := kv.1; req_operator := Equals; req_values := [kv.2] |}) <$> range_map ls).

(** ** Printing *)

Definition safeSort (l : list string) : list string := sort_slice (key_less id) l.

Definition req_values_string (r : Requirement) : string :=
  match req_values r with
  | [v] => v
  | vs => Join (safeSort vs) ","
  end.

Definition req_String (r : Requirement) : string :=
  match req_operator r with
  | DoesNotExist => "!" +:+ req_key r
  | Exists => req_key r
  | Equals => req_key r +:+ "=" +:+ req_values_string r
  | DoubleEquals => req_key r +:+ "==" +:+ req_values_string r
  | NotEquals => req_key r +:+ "!=" +:+ req_values_string r
  | In => req_key r +:+ " in " +:+ "(" +:+ req_values_string r +:+ ")"
  | NotIn => req_key r +:+ " notin " +:+ "(" +:+ req_values_string r +:+ ")"
  | GreaterThan => req_key r +:+ ">" +:+ req_values_string r
  | LessThan => req_key r +:+ "<" +:+ req_values_string r
  end.

Definition sel_String (s : Selector) : string := Join (req_String <$> s) ",".

(** ** The lexer

    The lexer's position is the rest of the input; reading past the end gives the
    byte 0, which also ends the input. *)

Inductive Token :=
  | ErrorToken | EndOfStringToken | ClosedParToken | CommaToken | DoesNotExistToken
  | DoubleEqualsToken | EqualsToken | GreaterThanToken | IdentifierToken | InToken
  | LessThanToken | NotEqualsToken | NotInToken | OpenParToken.
#[export] Instance Token_eq_dec : EqDecision Token.
Proof. solve_decision. Defined.

Abbreviation ScannedItem := (Token * string)%type (only parsing).

Definition string2token : gmap string Token := list_to_map
  [(")", ClosedParToken); (",", CommaToken); ("!", DoesNotExistToken);
   ("==", DoubleEqualsToken); ("=", EqualsToken); (">", GreaterThanToken);
   ("in", InToken); ("<", LessThanToken); ("!=", NotEqualsToken);
   ("notin", NotInToken); ("(", OpenParToken)].

Definition NUL : ascii := "000".

Definition isWhitespace (c : ascii) : bool :=
  Ascii.eqb c " " || Ascii.eqb c "009" || Ascii.eqb c "013" || Ascii.eqb c "010".

Definition isSpecialSymbol (c : ascii) : bool :=
  Ascii.eqb c "=" || Ascii.eqb c "!" || Ascii.eqb c "(" || Ascii.eqb c ")" ||
  Ascii.eqb c "," || Ascii.eqb c ">" || Ascii.eqb c "<".

Fixpoint scan_id (s : string) : string * string :=
  match s with
  | "" => ("", "")
  | String c r =>
      if Ascii.eqb c NUL then ("", r)
      else if isSpecialSymbol c || isWhitespace c then ("", s)
      else let '(id, rest) := scan_id r in (String c id, rest)
  end.

Definition scanIDOrKeyword (s : string) : ScannedItem * string :=
  let '(id, rest) := scan_id s in
  ((default IdentifierToken (string2token !! id), id), rest).

Fixpoint scan_special (buffer : string) (last : option ScannedItem) (s : string)
    : option ScannedItem * string * string :=
  match s with
  | "" => (last, buffer, "")
  | String c r =>
      if Ascii.eqb c NUL then (last, buffer, r)
      else if isSpecialSymbol c then
        let buffer' := buffer +:+ String c "" in
        match string2token !! buffer' with
        | Some tok => scan_special buffer' (Some (tok, buffer')) r
        | None =>
            match last with
            | Some _ => (last, buffer', s)
            | None => scan_special buffer' None r
            end
        end
      else (last, buffer, s)
  end.

Definition scanSpecialSymbol (s : string) : ScannedItem * string :=
  match scan_special "" None s with
  | (Some item, _, rest) => (item, rest)
  | (None, buffer, rest) => ((ErrorToken, "error expected: keyword found '" +:+ buffer +:+ "'"), rest)
  end.

Fixpoint skipWhiteSpaces (s : string) : string :=
  match s with
  | String c r => if isWhitespace c then skipWhiteSpaces r else s
  | "" => ""
  end.

Definition Lex (s : string) : ScannedItem * string :=
  match skipWhiteSpaces s with
  | "" => ((EndOfStringToken, ""), "")
  | String c r as s' =>
      if Ascii.eqb c NUL then ((EndOfStringToken, ""), r)
      else if isSpecialSymbol c then scanSpecialSymbol s'
      else scanIDOrKeyword s'
  end.

(** [Parser.scan]; every token but the last consumes input ([Lex_consumes]), so
    one more step than the input has bytes is enough. *)
Fixpoint scan_go (fuel : nat) (s : string) : list ScannedItem :=
  match fuel with
  | 0 => []
  | S fuel =>
      let '((tok, lit), rest) := Lex s in
      if bool_decide (tok = EndOfStringToken) then [(tok, lit)]
      else (tok, lit) :: scan_go fuel rest
  end.
Definition scan (s : string) : list ScannedItem := scan_go (S (slen s)) s.

(** ** The parser

    A parser takes the remaining scanned items; running off their end would be an
    index panic in Go. *)

Inductive ParserContext := KeyAndOperator | Values.

Definition ctx_token (ctx : ParserContext) (t : Token) : Token :=
  match ctx, t with
  | Values, InToken | Values, NotInToken => IdentifierToken
  | _, _ => t
  end.

Definition lookahead (ctx : ParserContext) (items : list ScannedItem) : outcome ScannedItem :=
  match items with
  | [] => Panic "index out of range"
  | (tok, lit) :: _ => Ret (ctx_token ctx tok, lit)
  end.

Definition consume (ctx : ParserContext) (items : list ScannedItem)
    : outcome (ScannedItem * list ScannedItem) :=
  match items with
  | [] => Panic "index out of range"
  | (tok, lit) :: items => Ret ((ctx_token ctx tok, lit), items)
  end.

Definition parseKeyAndInferOperator (items : list ScannedItem)
    : outcome (string * option Operator * list ScannedItem) :=
  '((tok, lit), items) ← consume Values items;
  '(op, (tok, lit), items) ←
    (if bool_decide (tok = DoesNotExistToken)
     then '(t, items) ← consume Values items; Ret (Some DoesNotExist, t, items)
     else Ret (None, (tok, lit), items));
  if bool_decide (tok = IdentifierToken) then
    if bool_decide (IsLabelKey lit = []) then
      '(t, _) ← lookahead Values items;
      let op :=
        if bool_decide (t = EndOfStringToken ∨ t = CommaToken)
        then match op with Some DoesNotExist => op | _ => Some Exists end
        else op in
      Ret (lit, op, items)
    else Fail (Errorf "invalid label key" (lit :: IsLabelKey lit))
  else Fail (Errorf "found '%s', expected: identifier" [lit]).

Definition parseOperator (items : list ScannedItem) : outcome (Operator * list ScannedItem) :=
  '((tok, lit), items) ← consume KeyAndOperator items;
  match tok with
  | InToken => Ret (In, items)
  | EqualsToken => Ret (Equals, items)
  | DoubleEqualsToken => Ret (DoubleEquals, items)
  | GreaterThanToken => Ret (GreaterThan, items)
  | LessThanToken => Ret (LessThan, items)
  | NotInToken => Ret (NotIn, items)
  | NotEqualsToken => Ret (NotEquals, items)
  | _ => Fail (Errorf "found '%s', expected: in, notin, =, ==, !=, gt, lt" [lit])
  end.

Fixpoint parseIdentifiersList (fuel : nat) (s : gset string) (items : list ScannedItem)
    : outcome (gset string * list ScannedItem) :=
  match fuel with
  | 0 => Panic "index out of range"
  | S fuel =>
      '((tok, lit), items) ← consume Values items;
      match tok with
      | IdentifierToken =>
          let s := {[lit]} ∪ s in
          '(tok2, lit2) ← lookahead Values items;
          match tok2 with
          | CommaToken => parseIdentifiersList fuel s items
          | ClosedParToken => Ret (s, items)
          | _ => Fail (Errorf "found '%s', expected: ',' or ')'" [lit2])
          end
      | CommaToken =>
          let s := if bool_decide (s = ∅) then {[""]} else s in
          '(tok2, _) ← lookahead Values items;
          match tok2 with
          | ClosedParToken => Ret ({[""]} ∪ s, items)
          | CommaToken => parseIdentifiersList fuel ({[""]} ∪ s) items
          | _ => parseIdentifiersList fuel s items
          end
      | _ => Fail (Errorf "found '%s', expected: ',', or identifier" [lit])
      end
  end.

Definition parseValues (items : list ScannedItem) : outcome (gset string * list ScannedItem) :=
  '((tok, lit), items) ← consume Values items;
  if bool_decide (tok = OpenParToken) then
    '(tok, lit) ← lookahead Values items;
    match tok with
    | IdentifierToken | CommaToken =>
        '(s, items) ← parseIdentifiersList (length items) ∅ items;
        '((tok, _), items) ← consume Values items;
        if bool_decide (tok = ClosedParToken) then Ret (s, items)
        else Fail (Errorf "found '%s', expected: ')'" [lit])
    | ClosedParToken => '(_, items) ← consume Values items; Ret ({[""]}, items)
    | _ => Fail (Errorf "found '%s', expected: ',', ')' or identifier" [lit])
    end
  else Fail (Errorf "found '%s' expected: '('" [lit]).

Definition parseExactValue (items : list ScannedItem) : outcome (gset string * list ScannedItem) :=
  '(tok, _) ← lookahead Values items;
  if bool_decide (tok = EndOfStringToken ∨ tok = CommaToken) then Ret ({[""]}, items)
  else
    '((tok, lit), items) ← consume Values items;
    if bool_decide (tok = IdentifierToken) then Ret ({[lit]}, items)
    else Fail (Errorf "found '%s', expected: identifier" [lit]).

Definition parseRequirement (items : list ScannedItem)
    : outcome (Requirement * list ScannedItem) :=
  '(key, op, items) ← parseKeyAndInferOperator items;
  match op with
  | Some op => r ← NewRequirement key op []; Ret (r, items)
  | None =>
      '(op, items) ← parseOperator items;
      '(values, items) ←
        match op with
        | In | NotIn => parseValues items
        | _ => parseExactValue items
        end;
      r ← NewRequirement key op (sets_List values);
      Ret (r, items)
  end.

(** [Parser.parse]; each round consumes at least one item. *)
Fixpoint parse_go (fuel : nat) (items : list ScannedItem) : outcome Selector :=
  match fuel with
  | 0 => Panic "index out of range"
  | S fuel =>
      '(tok, lit) ← lookahead Values items;
      match tok with
      | IdentifierToken | DoesNotExistToken =>
          match parseRequirement items with
          | Fail e => Fail (Errorf "unable to parse requirement: %v" [err_format e])
          | Panic m => Panic m
          | Ret (r, items) =>
              '((t, l), items) ← consume Values items;
              match t with
              | EndOfStringToken => Ret [r]
              | CommaToken =>
                  '(t2, l2) ← lookahead Values items;
                  if bool_decide (t2 = IdentifierToken ∨ t2 = DoesNotExistToken)
                  then rs ← parse_go fuel items; Ret (r :: rs)
                  else Fail (Errorf "found '%s', expected: identifier after ','" [l2])
              | _ => Fail (Errorf "found '%s', expected: ',' or 'end of string'" [l])
              end
          end
      | EndOfStringToken => Ret []
      | _ => Fail (Errorf "found '%s', expected: !, identifier, or 'end of string'" [lit])
      end
  end.

(** [labels.Parse]. *)
Definition Parse (selector : string) : outcome Selector :=
  let items := scan selector in
  rs ← parse_go (length items) items;
  Ret (sort_slice ByKey rs).

(** ** The lexer always reaches the end of the input *)

Lemma skipWhiteSpaces_length s : slen (skipWhiteSpaces s) ≤ slen s.
Proof.
  induction s as [|c s IH]; [done|]. cbn [skipWhiteSpaces].
  case_match; rewrite !slen_cons; lia.
Qed.

Lemma skipWhiteSpaces_head s c r : skipWhiteSpaces s = String c r → isWhitespace c = false.
Proof. induction s as [|d s IH]; cbn; [done|]. case_match; naive_solver. Qed.

Lemma scan_id_length s : slen (scan_id s).2 ≤ slen s.
Proof.
  induction s as [|c s IH]; [done|]. cbn [scan_id]. destruct (scan_id s) as [id rest].
  repeat case_match; cbn [snd] in *; rewrite ?slen_cons; lia.
Qed.

Lemma scan_special_length buffer last s : slen (scan_special buffer last s).2 ≤ slen s.
Proof.
  revert buffer last. induction s as [|c s IH]; intros buffer last; [done|].
  cbn [scan_special]. cbv zeta. rewrite slen_cons.
  repeat case_match; cbn [snd]; rewrite ?slen_cons; try lia; etrans; try apply IH; lia.
Qed.

Lemma Lex_consumes s : (Lex s).1.1 ≠ EndOfStringToken → slen (Lex s).2 < slen s.
Proof.
  unfold Lex. pose proof (skipWhiteSpaces_length s) as Hws.
  pose proof (skipWhiteSpaces_head s) as Hhead.
  destruct (skipWhiteSpaces s) as [|c r]; [done|]. rewrite slen_cons in Hws.
  destruct (Ascii.eqb c NUL) eqn:Enul; [done|]. destruct (isSpecialSymbol c) eqn:Esp; intros _.
  - unfold scanSpecialSymbol.
    assert (slen (scan_special "" None (String c r)).2 ≤ slen r) as Hlen.
    { cbn [scan_special]. cbv zeta. rewrite Enul, Esp.
      repeat case_match; try apply scan_special_length. }
    destruct (scan_special _ _ _) as [[[item|] buf] rest]; simpl in *; lia.
  - unfold scanIDOrKeyword.
    assert (slen (scan_id (String c r)).2 < slen s) as Hlen; [|by destruct (scan_id _)].
    cbn [scan_id]. rewrite Enul, Esp, (Hhead c r eq_refl). simpl.
    pose proof (scan_id_length r). destruct (scan_id r). simpl in *. lia.
Qed.

(** Scanned items: tokens other than the end, then the end. *)
Inductive wf_items : list (Token * string) → Prop :=
  | wf_items_end lit : wf_items [(EndOfStringToken, lit)]
  | wf_items_cons tok lit items :
      tok ≠ EndOfStringToken → wf_items items → wf_items ((tok, lit) :: items).

Lemma scan_go_wf fuel s : slen s < fuel → wf_items (scan_go fuel s).
Proof.
  revert s. induction fuel as [|fuel IH]; intros s Hs; [lia|]. cbn [scan_go].
  pose proof (Lex_consumes s) as Hlex. destruct (Lex s) as [[tok lit] rest]. simpl in Hlex.
  case_bool_decide as Htok; [subst; constructor|].
  constructor; [done|]. apply IH. specialize (Hlex Htok). lia.
Qed.

Lemma scan_wf s : wf_items (scan s).
Proof. apply scan_go_wf. lia. Qed.

(** More fuel does not change the scan. *)
Lemma scan_go_fuel f1 f2 s : slen s < f1 → slen s < f2 → scan_go f1 s = scan_go f2 s.
Proof.
  revert f2 s. induction f1 as [|f1 IH]; intros [|f2] s H1 H2; [lia..|]. cbn [scan_go].
  pose proof (Lex_consumes s) as Hlex. destruct (Lex s) as [[tok lit] rest]. simpl in Hlex.
  case_bool_decide as Htok; [done|]. specialize (Hlex Htok). f_equal. apply IH; lia.
Qed.

Lemma scan_step s :
  scan s = if bool_decide ((Lex s).1.1 = EndOfStringToken) then [(Lex s).1]
           else (Lex s).1 :: scan (Lex s).2.
Proof.
  unfold scan at 1. cbn [scan_go]. pose proof (Lex_consumes s) as Hlex.
  destruct (Lex s) as [[tok lit] rest]. simpl in *. case_bool_decide as Htok; [done|].
  f_equal. apply scan_go_fuel; [|lia]. auto.
Qed.

(** ** The parser never runs off the scanned items *)

Lemma ctx_token_end ctx t : ctx_token ctx t = EndOfStringToken ↔ t = EndOfStringToken.
Proof. by destruct ctx, t. Qed.

Lemma lookahead_safe ctx items : wf_items items → safe (lookahead ctx items) (λ _, True).
Proof. by destruct 1. Qed.

(** A token has been read: either it was the end, or well-formed items remain. *)
Definition advanced (n : nat) (tok : Token) (rest : list (Token * string)) : Prop :=
  tok = EndOfStringToken ∨ (wf_items rest ∧ n = S (length rest)).

Lemma consume_safe ctx items :
  wf_items items →
  safe (consume ctx items) (λ r, advanced (length items) r.1.1 r.2).
Proof. destruct 1; simpl; [left|right]; [by apply ctx_token_end|done]. Qed.

Lemma consume_safe_ne ctx items tok lit rest :
  wf_items items → consume ctx items = Ret ((tok, lit), rest) → tok ≠ EndOfStringToken →
  wf_items rest ∧ length items = S (length rest).
Proof.
  intros Hwf E Ht. pose proof (consume_safe ctx items Hwf) as H. rewrite E in H.
  destruct H as [?|H]; done.
Qed.

(** What every parsing routine guarantees: well-formed items remain, fewer of them. *)
Definition progressed {A} (items : list (Token * string)) (r : A * list (Token * string)) : Prop :=
  wf_items r.2 ∧ length r.2 < length items.

Ltac parse_consume Hwf :=
  eapply safe_bind; [exact (consume_safe _ _ Hwf)|];
  intros [[? ?] ?] [Hend|[? ?]]; simpl in *;
  [subst; simpl; try exact I | ].
Ltac parse_lookahead Hwf :=
  eapply safe_bind; [exact (lookahead_safe Values _ Hwf)|]; intros [? ?] _.

Lemma parseKeyAndInferOperator_safe items :
  wf_items items → safe (parseKeyAndInferOperator items) (progressed items).
Proof.
  intros Hwf. unfold parseKeyAndInferOperator.
  parse_consume Hwf.
  eapply (safe_bind _ _ (λ r, r.1.2.1 = EndOfStringToken ∨
                              (wf_items r.2 ∧ length r.2 < length items))).
  - case_bool_decide; simpl; [|right; split; [done|lia]].
    parse_consume H; [by left|]. right. split; [done|lia].
  - intros [[op [t' lit]] rest] [Hend|[Hwf' Hlen]]; simpl in *; [by subst|].
    case_bool_decide; simpl; [|done]. case_bool_decide; simpl; [|done].
    parse_lookahead Hwf'. by split.
Qed.

Lemma parseOperator_safe items :
  wf_items items → safe (parseOperator items) (progressed items).
Proof.
  intros Hwf. unfold parseOperator. parse_consume Hwf.
  case_match; simpl; try done; unfold progressed; simpl; split; (done || lia).
Qed.

Lemma parseIdentifiersList_safe fuel s items :
  wf_items items → length items ≤ fuel →
  safe (parseIdentifiersList fuel s items) (progressed items).
Proof.
  revert s items. induction fuel as [|fuel IH]; intros s items Hwf Hfuel.
  { by destruct Hwf; simpl in Hfuel; lia. }
  cbn [parseIdentifiersList]. parse_consume Hwf.
  assert (∀ s', safe (parseIdentifiersList fuel s' l) (progressed items)) as Hrec.
  { intros s'. eapply safe_weaken; [apply IH; [done|lia]|].
    unfold progressed. intros [? ?] [? ?]. simpl in *. split; [done|lia]. }
  assert (∀ s' : gset string, progressed items (s', l)) as Hret.
  { intros s'. unfold progressed. simpl. split; [done|lia]. }
  case_match; simpl; try done; parse_lookahead H; case_match; simpl; auto.
Qed.

Lemma parse_list_safe items rest lit :
  wf_items rest → length rest < length items →
  safe ('(s, items) ← parseIdentifiersList (length rest) ∅ rest;
        '((tok, _), items) ← consume Values items;
        if bool_decide (tok = ClosedParToken) then Ret (s, items)
        else Fail (Errorf "found '%s', expected: ')'" [lit])) (progressed items).
Proof.
  intros Hwf Hlen. eapply safe_bind; [by apply parseIdentifiersList_safe|].
  intros [vs rest'] [Hr Hlen']. simpl in *. parse_consume Hr.
  case_bool_decide; simpl; [|done]. unfold progressed. simpl. split; [done|lia].
Qed.

Lemma parseValues_safe items :
  wf_items items → safe (parseValues items) (progressed items).
Proof.
  intros Hwf. unfold parseValues. parse_consume Hwf.
  case_bool_decide; simpl; [|done].
  destruct H as [lit'|tok lit' rest Hne Hwf']; simpl in H0; [done|].
  cbn -[parseIdentifiersList]. case_match; try done.
  - unfold progressed. simpl. split; [done|lia].
  - apply (parse_list_safe _ ((tok, lit') :: rest)); [by constructor|simpl; lia].
  - apply (parse_list_safe _ ((tok, lit') :: rest)); [by constructor|simpl; lia].
Qed.

Lemma parseExactValue_safe items :
  wf_items items → safe (parseExactValue items) (λ r, wf_items r.2 ∧ length r.2 ≤ length items).
Proof.
  intros Hwf. unfold parseExactValue. parse_lookahead Hwf. case_bool_decide; simpl; [done|].
  parse_consume Hwf. case_bool_decide; simpl; [|done]. split; [done|lia].
Qed.

Lemma NewRequirement_safe key op vals : safe (NewRequirement key op vals) (λ _, True).
Proof. unfold NewRequirement. by destruct (requirement_errors _ _ _). Qed.

Lemma parseRequirement_safe items :
  wf_items items → safe (parseRequirement items) (progressed items).
Proof.
  intros Hwf. unfold parseRequirement.
  eapply safe_bind; [by apply parseKeyAndInferOperator_safe|].
  intros [[key [op|]] items1] [Hwf1 Hlen1]; simpl in *.
  - eapply safe_bind; [apply NewRequirement_safe|]. by intros r _.
  - eapply safe_bind; [by apply parseOperator_safe|].
    intros [op items2] [Hwf2 Hlen2]; simpl in *.
    eapply (safe_bind _ _ (λ r, wf_items r.2 ∧ length r.2 ≤ length items2)).
    + pose proof (parseExactValue_safe items2 Hwf2).
      assert (safe (parseValues items2) (λ r, wf_items r.2 ∧ length r.2 ≤ length items2)).
      { eapply safe_weaken; [by apply parseValues_safe|]. intros r [? ?]. split; [done|lia]. }
      by destruct op.
    + intros [vs items3] [Hwf3 Hlen3]; simpl in *.
      eapply safe_bind; [apply NewRequirement_safe|]. intros r _. split; simpl; [done|lia].
Qed.

Lemma parse_go_safe fuel items :
  wf_items items → length items ≤ fuel → safe (parse_go fuel items) (λ _, True).
Proof.
  revert items. induction fuel as [|fuel IH]; intros items Hwf Hfuel.
  { by destruct Hwf; simpl in Hfuel; lia. }
  cbn [parse_go]. parse_lookahead Hwf.
  pose proof (parseRequirement_safe items Hwf) as Hreq.
  case_match; simpl; try done.
  all: destruct (parseRequirement items) as [[r rest]|e|m]; [|done|done].
  all: destruct Hreq as [Hwf1 Hlen1]; simpl in *.
  all: parse_consume Hwf1; case_match; simpl; try done.
  all: parse_lookahead H0; case_bool_decide; [|done].
  all: eapply safe_bind; [apply IH; [done|lia]|]; by intros.
Qed.

Lemma Parse_safe text : safe (Parse text) (λ _, True).
Proof.
  unfold Parse. eapply safe_bind; [apply parse_go_safe; [apply scan_wf|done]|]. done.
Qed.

(** ** Lexing one token *)

Definition is_id_char (c : ascii) : bool :=
  negb (Ascii.eqb c NUL || isSpecialSymbol c || isWhitespace c).

(** A character that ends an identifier without being consumed. *)
Definition is_stop (s : string) : bool :=
  match s with "" => true | String c _ => isSpecialSymbol c && negb (Ascii.eqb c NUL) end.

Lemma is_id_char_false c :
  is_id_char c = true → Ascii.eqb c NUL = false ∧ isSpecialSymbol c = false ∧ isWhitespace c = false.
Proof. unfold is_id_char. rewrite negb_true_iff, !orb_false_iff. tauto. Qed.

Lemma scan_id_app id rest :
  sall is_id_char id = true → is_stop rest = true → scan_id (id +:+ rest) = (id, rest).
Proof.
  intros Hid Hrest. induction id as [|c id IH].
  - rewrite app_str_nil. destruct rest as [|c r]; [done|]. simpl in Hrest.
    apply andb_true_iff in Hrest as [Hs Hn]. apply negb_true_iff in Hn.
    cbn [scan_id]. by rewrite Hn, Hs.
  - cbn [sall] in Hid. apply andb_true_iff in Hid as [Hc Hid].
    apply is_id_char_false in Hc as (Hn & Hs & Hw).
    rewrite app_str_cons. cbn [scan_id]. rewrite Hn, Hs, Hw, IH by done. done.
Qed.

Definition id_token (id : string) : Token := default IdentifierToken (string2token !! id).

Lemma id_token_not_end id : id_token id ≠ EndOfStringToken.
Proof.
  unfold id_token. destruct (string2token !! id) as [t|] eqn:E; [|done].
  apply elem_of_list_to_map_2 in E. simpl. set_solver.
Qed.

(** In a value position every identifier, ["in"] and ["notin"] included, counts as one. *)
Lemma id_token_value id :
  sall is_id_char id = true → ctx_token Values (id_token id) = IdentifierToken.
Proof.
  intros Hid. unfold id_token. destruct (string2token !! id) as [t|] eqn:E; [|done].
  apply elem_of_list_to_map_2 in E. simpl.
  repeat (apply elem_of_cons in E as [[= -> ->]|E]; [done|]). by apply elem_of_nil in E.
Qed.

Lemma skipWhiteSpaces_none c s :
  isWhitespace c = false → skipWhiteSpaces (String c s) = String c s.
Proof. intros H. cbn. by rewrite H. Qed.

Lemma scan_ident id rest :
  id ≠ "" → sall is_id_char id = true → is_stop rest = true →
  scan (id +:+ rest) = (id_token id, id) :: scan rest.
Proof.
  intros Hne Hid Hrest. rewrite scan_step.
  assert (Lex (id +:+ rest) = ((id_token id, id), rest)) as ->.
  { unfold Lex. destruct id as [|c id]; [done|]. pose proof Hid as Hid'.
    cbn [sall] in Hid'. apply andb_true_iff in Hid' as [Hc _].
    apply is_id_char_false in Hc as (Hn & Hs & Hw).
    rewrite app_str_cons, skipWhiteSpaces_none by done. rewrite Hn, Hs.
    rewrite <-app_str_cons. unfold scanIDOrKeyword. by rewrite scan_id_app. }
  simpl. by rewrite bool_decide_eq_false_2 by apply id_token_not_end.
Qed.

(** Text that ends the special symbol [sym]: nothing, or a character that does not
    extend it to a longer one. *)
Definition ends_symbol (sym rest : string) : bool :=
  match rest with
  | "" => true
  | String c _ => negb (Ascii.eqb c NUL) &&
                  bool_decide (string2token !! (sym +:+ String c "") = None)
  end.

Lemma scan_special_stop sym item rest :
  ends_symbol sym rest = true → (scan_special sym (Some item) rest).1.1 = Some item ∧
                                (scan_special sym (Some item) rest).2 = rest.
Proof.
  destruct rest as [|c r]; [done|]. cbn [ends_symbol].
  intros [Hn Hl]%andb_true_iff. apply negb_true_iff in Hn. apply bool_decide_eq_true in Hl.
  cbn [scan_special]. cbv zeta. rewrite Hn, Hl. by destruct (isSpecialSymbol c).
Qed.

Lemma scan_symbol1 c tok rest :
  isSpecialSymbol c = true → isWhitespace c = false → Ascii.eqb c NUL = false →
  string2token !! String c "" = Some tok → tok ≠ EndOfStringToken →
  ends_symbol (String c "") rest = true →
  scan (String c rest) = (tok, String c "") :: scan rest.
Proof.
  intros Hs Hw Hn Ht Hne Hrest. rewrite scan_step.
  assert (Lex (String c rest) = ((tok, String c ""), rest)) as ->.
  { unfold Lex. rewrite skipWhiteSpaces_none by done. rewrite Hn, Hs.
    unfold scanSpecialSymbol. cbn [scan_special]. cbv zeta.
    rewrite Hn, Hs, app_str_nil, Ht.
    destruct (scan_special_stop (String c "") (tok, String c "") rest Hrest) as [E1 E2].
    destruct (scan_special _ _ rest) as [[? ?] ?]. simpl in *. by subst. }
  simpl. by rewrite bool_decide_eq_false_2.
Qed.

Lemma scan_not_equals rest :
  ends_symbol "!=" rest = true →
  scan (String "!" (String "=" rest)) = (NotEqualsToken, "!=") :: scan rest.
Proof.
  intros Hrest. rewrite scan_step.
  assert (Lex (String "!" (String "=" rest)) = ((NotEqualsToken, "!="), rest)) as ->; [|done].
  unfold Lex. rewrite skipWhiteSpaces_none by done.
  destruct (scan_special_stop "!=" (NotEqualsToken, "!=") rest Hrest) as [E1 E2].
  unfold scanSpecialSymbol.
  change (scan_special "" None (String "!" (String "=" rest)))
    with (scan_special "!=" (Some (NotEqualsToken, "!=")) rest).
  cbn [Ascii.eqb]. destruct (scan_special _ _ rest) as [[? ?] ?]. simpl in *. by subst.
Qed.

(** ** Exact-match requirements: printing, then parsing *)

(** [key=value] or [key!=value], both valid labels. *)
Definition exact_ok (r : Requirement) : Prop :=
  (req_operator r = Equals ∨ req_operator r = NotEquals) ∧
  IsLabelKey (req_key r) = [] ∧ req_key r ≠ "" ∧ sall is_id_char (req_key r) = true ∧
  ∃ v, req_values r = [v] ∧ IsLabelValue v = [].

Definition op_token (op : Operator) : Token * string :=
  match op with NotEquals => (NotEqualsToken, "!=") | _ => (EqualsToken, "=") end.

Definition value_items (v : string) : list (Token * string) :=
  if String.eqb v "" then [] else [(id_token v, v)].

Definition req_items (r : Requirement) : list (Token * string) :=
  [(id_token (req_key r), req_key r); op_token (req_operator r)] ++
  value_items (req_values_string r).

Lemma label_value_id v : sall labelKeyExtChar v = true → sall is_id_char v = true.
Proof.
  apply sall_impl. intros c Hc. unfold is_id_char. apply negb_true_iff.
  destruct (Ascii.eqb c NUL || isSpecialSymbol c || isWhitespace c) eqn:E; [|done].
  exfalso. rewrite !orb_true_iff in E. unfold isSpecialSymbol, isWhitespace in E.
  rewrite !orb_true_iff, !Ascii.eqb_eq in E.
  repeat destruct E as [E|E]; subst; vm_compute in Hc; done.
Qed.

(** What may follow a printed requirement: the end, or a comma. *)
Definition comma_or_end (rest : string) : Prop := rest = "" ∨ ∃ r, rest = String "," r.

Lemma scan_value v rest :
  sall labelKeyExtChar v = true → comma_or_end rest →
  scan (v +:+ rest) = value_items v ++ scan rest.
Proof.
  intros Hv Hrest. unfold value_items. destruct (String.eqb_spec v "") as [->|Hne]; [done|].
  rewrite scan_ident; [done|done|by apply label_value_id|].
  by destruct Hrest as [->|[r ->]].
Qed.

Lemma ends_symbol_value sym v rest :
  sall labelKeyExtChar v = true → comma_or_end rest →
  (∀ c, labelKeyExtChar c = true ∨ c = ","%char → string2token !! (sym +:+ String c "") = None) →
  ends_symbol sym (v +:+ rest) = true.
Proof.
  intros Hv Hrest Hsym.
  assert (∀ c r, labelKeyExtChar c = true ∨ c = ","%char → ends_symbol sym (String c r) = true) as H.
  { intros c r Hc. unfold ends_symbol. rewrite bool_decide_eq_true_2 by auto.
    rewrite andb_true_r. apply negb_true_iff. destruct (Ascii.eqb_spec c NUL) as [->|]; [|done].
    by destruct Hc as [Hc|Hc]; vm_compute in Hc. }
  destruct v as [|c v].
  - rewrite app_str_nil. destruct Hrest as [->|[r ->]]; [done|]. apply H. by right.
  - rewrite app_str_cons. apply H. left. cbn in Hv. by apply andb_true_iff in Hv as [? _].
Qed.

Lemma symbol_not_extended sym c :
  sym = "=" ∨ sym = "!=" → labelKeyExtChar c = true ∨ c = ","%char →
  string2token !! (sym +:+ String c "") = None.
Proof.
  intros Hsym Hc. destruct (string2token !! _) as [t|] eqn:E; [|done].
  exfalso. apply elem_of_list_to_map_2 in E. destruct Hsym as [->| ->];
    rewrite !app_str_cons, app_str_nil in E;
    repeat (apply elem_of_cons in E as [E|E]; [try discriminate E;
      injection E as -> _; destruct Hc as [Hc|Hc]; by vm_compute in Hc|]);
    by apply elem_of_nil in E.
Qed.

Lemma scan_req r rest :
  exact_ok r → comma_or_end rest → scan (req_String r +:+ rest) = req_items r ++ scan rest.
Proof.
  intros (Hop & _ & Hkne & Hkid & v & Hv & Hval) Hrest.
  apply IsLabelValue_chars in Hval. unfold req_String, req_items, req_values_string.
  rewrite Hv. destruct Hop as [-> | ->]; cbn [op_token].
  - rewrite !app_str_assoc, scan_ident by done. cbn [app]. f_equal.
    rewrite !app_str_cons, !app_str_nil, (scan_symbol1 _ EqualsToken); try done.
    + f_equal. by apply scan_value.
    + apply ends_symbol_value; [done..|]. intros c Hc. apply symbol_not_extended; auto.
  - rewrite !app_str_assoc, scan_ident by done. cbn [app]. f_equal.
    rewrite !app_str_cons, !app_str_nil, scan_not_equals.
    + f_equal. by apply scan_value.
    + apply ends_symbol_value; [done..|]. intros c Hc. apply symbol_not_extended; auto.
Qed.

(** The items of a printed selector. *)
Fixpoint sel_items (s : list Requirement) : list (Token * string) :=
  match s with
  | [] => [(EndOfStringToken, "")]
  | [r] => req_items r ++ [(EndOfStringToken, "")]
  | r :: s => req_items r ++ (CommaToken, ",") :: sel_items s
  end.

Lemma scan_nil : scan "" = [(EndOfStringToken, "")].
Proof. done. Qed.

Lemma ends_comma_req r rest : exact_ok r → ends_symbol "," (req_String r +:+ rest) = true.
Proof.
  intros (Hop & _ & Hkne & Hkid & _). destruct (req_key r) as [|c k] eqn:Ek; [done|].
  assert (∃ rest', req_String r = String c rest') as [rest' ->].
  { unfold req_String. rewrite Ek. destruct Hop as [-> | ->]; rewrite app_str_cons; eauto. }
  rewrite app_str_cons. cbn [ends_symbol]. cbn [sall] in Hkid.
  apply andb_true_iff in Hkid as [Hc _]. apply is_id_char_false in Hc as (Hn & Hs & _).
  rewrite Hn. apply bool_decide_eq_true_2.
  destruct (string2token !! _) as [t|] eqn:E; [|done]. exfalso.
  apply elem_of_list_to_map_2 in E. rewrite app_str_cons, app_str_nil in E. set_solver.
Qed.

Lemma scan_sel s : Forall exact_ok s → scan (sel_String s) = sel_items s.
Proof.
  unfold sel_String. induction s as [|r s IH]; intros Hok; [done|].
  apply Forall_cons in Hok as [Hr Hs]. destruct s as [|r' s].
  - change (Join (req_String <$> [r]) ",") with (req_String r).
    rewrite <-(app_empty_r (req_String r)). by rewrite scan_req, scan_nil by (done || by left).
  - change (Join (req_String <$> r :: r' :: s) ",")
      with (req_String r +:+ String "," (Join (req_String <$> r' :: s) ",")).
    rewrite scan_req; [|done|right; eauto]. cbn [sel_items]. f_equal.
    rewrite (scan_symbol1 _ CommaToken); try done; [by rewrite IH|].
    apply Forall_cons in Hs as [Hr' _]. destruct s as [|r'' s].
    + change (Join (req_String <$> [r']) ",") with (req_String r').
      rewrite <-(app_empty_r (req_String r')). by apply ends_comma_req.
    + by apply ends_comma_req.
Qed.

(** ** Parsing the items back *)

Lemma NewRequirement_exact r : exact_ok r →
  NewRequirement (req_key r) (req_operator r) (req_values r) = Ret r.
Proof.
  intros (Hop & Hk & _ & _ & v & Hv & Hval). unfold NewRequirement, requirement_errors.
  rewrite Hv, (bool_decide_eq_true_2 (IsLabelKey _ = [])) by done. cbn.
  rewrite bool_decide_eq_true_2 by done.
  destruct r as [k op vs]; simpl in *; subst. by destruct Hop as [-> | ->].
Qed.

Lemma parseExactValue_items v t rest :
  sall is_id_char v = true → t.1 = EndOfStringToken ∨ t.1 = CommaToken →
  parseExactValue (value_items v ++ t :: rest) = Ret ({[v]}, t :: rest).
Proof.
  intros Hv Ht. unfold parseExactValue, value_items.
  destruct (String.eqb_spec v "") as [->|Hne]; destruct t as [tok lit]; simpl in Ht; cbn [app].
  - cbn [lookahead mbind outcome_bind]. by destruct Ht as [-> | ->].
  - cbn [lookahead consume mbind outcome_bind]. rewrite id_token_value by done. done.
Qed.

Lemma sets_List_singleton v : sets_List {[v]} = [v].
Proof. unfold sets_List. by rewrite elements_singleton. Qed.

(** Parsing the items of one printed requirement validates and rebuilds it. *)
Lemma parseRequirement_items r t rest :
  (req_operator r = Equals ∨ req_operator r = NotEquals) →
  IsLabelKey (req_key r) = [] → sall is_id_char (req_key r) = true →
  ∀ v, req_values r = [v] → sall is_id_char v = true →
  t.1 = EndOfStringToken ∨ t.1 = CommaToken →
  parseRequirement (req_items r ++ t :: rest) =
    (r' ← NewRequirement (req_key r) (req_operator r) [v]; Ret (r', t :: rest)).
Proof.
  intros Hop Hk Hkid v Hv Hvid Ht. unfold req_items, req_values_string. rewrite Hv, <-app_assoc.
  unfold parseRequirement, parseKeyAndInferOperator.
  cbn [app consume lookahead mbind outcome_bind]. rewrite id_token_value by done.
  rewrite bool_decide_eq_false_2 by done. cbn [mbind outcome_bind].
  rewrite bool_decide_eq_true_2 by done. rewrite bool_decide_eq_true_2 by done.
  destruct Hop as [Hop | Hop]; rewrite Hop; cbn [op_token lookahead mbind outcome_bind];
    rewrite bool_decide_eq_false_2 by (vm_compute; naive_solver);
    cbn [parseOperator consume ctx_token mbind outcome_bind];
    rewrite parseExactValue_items by done; cbn [mbind outcome_bind];
    by rewrite sets_List_singleton.
Qed.

Lemma parseRequirement_exact r t rest :
  exact_ok r → t.1 = EndOfStringToken ∨ t.1 = CommaToken →
  parseRequirement (req_items r ++ t :: rest) = Ret (r, t :: rest).
Proof.
  intros Hok Ht. pose proof (NewRequirement_exact r Hok) as Hnew.
  destruct Hok as (Hop & Hk & _ & Hkid & v & Hv & Hval).
  rewrite (parseRequirement_items r t rest Hop Hk Hkid v Hv) by
    eauto using label_value_id, IsLabelValue_chars.
  rewrite Hv in Hnew. by rewrite Hnew.
Qed.

Lemma req_items_head r tl : ∃ more, req_items r ++ tl = (id_token (req_key r), req_key r) :: more.
Proof. eexists. reflexivity. Qed.

Lemma parse_go_items fuel s :
  Forall exact_ok s → s ≠ [] → length s ≤ fuel → parse_go fuel (sel_items s) = Ret s.
Proof.
  revert s. induction fuel as [|fuel IH]; intros [|r s] Hok Hne Hlen; simpl in Hlen; try done; [lia|].
  apply Forall_cons in Hok as [Hr Hs]. pose proof Hr as (_ & _ & _ & Hkid & _).
  assert (∀ t rest, lookahead Values (req_items r ++ t :: rest) =
    Ret (IdentifierToken, req_key r)) as Hla.
  { intros t rest. destruct (req_items_head r (t :: rest)) as [more ->]. cbn [lookahead].
    by rewrite id_token_value. }
  destruct s as [|r' s]; cbn [sel_items parse_go]; rewrite Hla; cbn [mbind outcome_bind].
  - rewrite parseRequirement_exact by (done || by left). done.
  - change (match s with [] => req_items r' ++ [(EndOfStringToken, "")]
            | _ :: _ => req_items r' ++ (CommaToken, ",") :: sel_items s end)
      with (sel_items (r' :: s)).
    rewrite parseRequirement_exact by (done || by right).
    cbn [consume ctx_token mbind outcome_bind].
    assert (lookahead Values (sel_items (r' :: s)) = Ret (IdentifierToken, req_key r')) as ->.
    { apply Forall_cons in Hs as [(_ & _ & _ & Hkid' & _) _].
      destruct s; cbn [sel_items]; edestruct (req_items_head r') as [more ->];
        cbn [lookahead]; by rewrite id_token_value. }
    cbn [mbind outcome_bind]. rewrite bool_decide_eq_true_2 by (by left).
    rewrite IH; [done|done|done|lia].
Qed.

Lemma sel_items_length s : length s ≤ length (sel_items s).
Proof.
  induction s as [|r s IH]; [simpl; lia|]. destruct s as [|r' s].
  - cbn [sel_items]. rewrite length_app. simpl. lia.
  - cbn [sel_items] in *. rewrite length_app. simpl in *. lia.
Qed.

(** Parsing what was printed gives the requirements back, sorted by key. *)
Lemma Parse_sel_String s :
  Forall exact_ok s → Parse (sel_String s) = Ret (sort_slice ByKey s).
Proof.
  intros Hok. unfold Parse. rewrite scan_sel by done. cbv zeta.
  destruct s as [|r s]; [done|].
  rewrite parse_go_items; [done|done|done|apply sel_items_length].
Qed.

(** ** Decimal numbers are label values *)

Lemma sall_alnum_star p q s :
  (∀ c, p c = true → q c = true) → sall p s = true → lang (RStar (RChar q)) s.
Proof.
  intros Hpq. induction s as [|c s IH]; cbn; [constructor|].
  intros [Hc Hs]%andb_true_iff. change (String c s) with (String c "" +:+ s).
  constructor; [constructor|]; auto.
Qed.

Lemma string_snoc s : s ≠ "" → ∃ a c, s = a +:+ String c "".
Proof.
  induction s as [|c s IH]; [done|]. intros _. destruct s as [|d s].
  - by exists "", c.
  - destruct IH as (a & e & E); [done|]. exists (String c a), e. by rewrite app_str_cons, <-E.
Qed.

Lemma alnum_label_value v :
  sall isAlphanumeric v = true → slen v ≤ 63 → IsLabelValue v = [].
Proof.
  intros Hv Hlen. unfold IsLabelValue. rewrite (proj2 (Nat.ltb_ge 63 (slen v))) by done.
  assert (MatchString labelValueFmt v = true) as ->; [|done].
  apply MatchString_spec. apply lang_alt_iff.
  destruct (decide (v = "")) as [->|Hne]; [right; constructor|left].
  apply string_snoc in Hne as (a & c & ->). rewrite sall_app in Hv.
  apply andb_true_iff in Hv as [Ha Hc]. cbn in Hc. rewrite andb_true_r in Hc.
  unfold labelKeyFmt. apply lang_cat_iff. exists a, (String c ""). split; [done|].
  split; [|by constructor]. apply lang_alt_iff. destruct a as [|d a]; [right; constructor|left].
  cbn in Ha. apply andb_true_iff in Ha as [Hd Ha]. apply lang_cat_iff.
  exists (String d ""), a. split_and!; [done|by constructor|].
  eapply sall_alnum_star; [|done]. intros e He. unfold labelKeyExtChar. by rewrite He.
Qed.

Lemma pretty_N_char_digit x : is_digit (pretty_N_char x) = true.
Proof. unfold pretty_N_char. by repeat case_match. Qed.

Lemma pretty_N_go_digits x s : sall is_digit s = true → sall is_digit (pretty_N_go x s) = true.
Proof.
  revert s. induction (N.lt_wf_0 x) as [x _ IH]; intros s Hs.
  destruct (decide (x = 0)%N) as [->|Hx]; [by rewrite pretty_N_go_0|].
  rewrite pretty_N_go_step by lia. apply IH; [apply N.div_lt; lia|].
  cbn. by rewrite pretty_N_char_digit.
Qed.

Lemma pretty_N_go_length k x s :
  (x < 10 ^ N.of_nat k)%N → slen (pretty_N_go x s) ≤ k + slen s.
Proof.
  revert x s. induction k as [|k IH]; intros x s Hx.
  { assert (x = 0)%N as -> by (simpl in Hx; lia). rewrite pretty_N_go_0. lia. }
  destruct (decide (x = 0)%N) as [->|Hne]; [rewrite pretty_N_go_0; lia|].
  rewrite pretty_N_go_step by lia. etrans; [apply IH|rewrite slen_cons; lia].
  apply N.Div0.div_lt_upper_bound. by rewrite <-N.pow_succ_r', <-Nat2N.inj_succ.
Qed.

Lemma FormatInt_label n : (0 ≤ n < 2 ^ 63)%Z → IsLabelValue (FormatInt n) = [].
Proof.
  intros Hn. assert (∀ p : positive, (Z.pos p < 2 ^ 63)%Z → IsLabelValue (pretty p) = []) as Hpos.
  { intros p Hp. unfold pretty, pretty_positive, pretty, pretty_N. case_decide; [done|].
    apply alnum_label_value.
    - eapply sall_impl; [|by apply pretty_N_go_digits]. intros c Hc.
      unfold isAlphanumeric. by rewrite Hc.
    - etrans; [apply (pretty_N_go_length 20)|unfold slen; simpl; lia].
      change (N.of_nat 20) with 20%N. lia. }
  unfold FormatInt, pretty, pretty_Z. destruct n as [|p|p]; [done| |lia]. apply Hpos. lia.
Qed.

(** ** The selectors of the reconciler *)

Definition eq_req (k v : string) : Requirement :=
  {| req_key := k; req_operator := Equals; req_values := [v] |}.
Definition neq_req (k v : string) : Requirement :=
  {| req_key := k; req_operator := NotEquals; req_values := [v] |}.

(** [fmt.Sprintf("%s=%s,%s!=%d", ParentKey, name, GenerationKey, generation)] *)
Definition old_generation_text (name : string) (generation : Z) : string :=
  ParentKey +:+ "=" +:+ name +:+ "," +:+ GenerationKey +:+ "!=" +:+ FormatInt generation.

(** What it is meant to select. *)
Definition old_generation_selector (name : string) (generation : Z) : Selector :=
  [neq_req GenerationKey (FormatInt generation); eq_req ParentKey name].

Lemma old_generation_text_String name generation :
  old_generation_text name generation =
  sel_String [eq_req ParentKey name; neq_req GenerationKey (FormatInt generation)].
Proof.
  unfold old_generation_text, sel_String, req_String. cbn -[String.append].
  by rewrite !app_str_assoc.
Qed.

Lemma parent_req_ok name : IsLabelValue name = [] → exact_ok (eq_req ParentKey name).
Proof.
  intros H. split_and!; [by left|vm_compute; reflexivity|done|vm_compute; reflexivity|].
  by exists name.
Qed.

Lemma generation_req_ok generation :
  (0 ≤ generation < 2 ^ 63)%Z → exact_ok (neq_req GenerationKey (FormatInt generation)).
Proof.
  intros H. split_and!; [by right|vm_compute; reflexivity|done|vm_compute; reflexivity|].
  eexists. split; [done|]. by apply FormatInt_label.
Qed.

Lemma sort_old_generation name generation :
  sort_slice ByKey [eq_req ParentKey name; neq_req GenerationKey (FormatInt generation)] =
  old_generation_selector name generation.
Proof. reflexivity. Qed.

Lemma Parse_old_generation name generation :
  IsLabelValue name = [] → (0 ≤ generation < 2 ^ 63)%Z →
  Parse (old_generation_text name generation) = Ret (old_generation_selector name generation).
Proof.
  intros Hn Hg. rewrite old_generation_text_String, Parse_sel_String, sort_old_generation; [done|].
  constructor; [by apply parent_req_ok|]. constructor; [by apply generation_req_ok|constructor].
Qed.

(** A name that is not a label value (longer than 63 bytes, say) is refused. *)
Lemma Parse_old_generation_invalid name generation :
  sall labelKeyExtChar name = true → name ≠ "" → IsLabelValue name ≠ [] →
  ∃ e, Parse (old_generation_text name generation) = Fail e.
Proof.
  intros Hid Hne Hbad. unfold Parse.
  set (tail := GenerationKey +:+ "!=" +:+ FormatInt generation).
  assert (scan (old_generation_text name generation) =
          req_items (eq_req ParentKey name) ++ (CommaToken, ",") :: scan tail) as ->.
  { unfold old_generation_text. rewrite scan_ident by done.
    rewrite (app_str_cons "="), app_str_nil, (scan_symbol1 _ EqualsToken); try done.
    2: { apply ends_symbol_value; [done|right; by eexists|].
         intros c Hc. apply symbol_not_extended; auto. }
    rewrite scan_value by (done || (right; by eexists)).
    rewrite (app_str_cons ","), app_str_nil, (scan_symbol1 _ CommaToken); done. }
  cbv zeta. rewrite length_app. destruct (_ + _) as [|fuel] eqn:Ef; [simpl in Ef; lia|].
  assert (requirement_errors ParentKey Equals [name] ≠ []) as Herr.
  { unfold requirement_errors. cbn -[ParentKey IsLabelKey].
    rewrite (bool_decide_eq_false_2 (IsLabelValue name = [])) by done.
    by destruct (bool_decide _). }
  assert (lookahead Values (req_items (eq_req ParentKey name) ++ (CommaToken, ",") :: scan tail)
          = Ret (IdentifierToken, ParentKey)) as Hla by reflexivity.
  cbn [parse_go]. rewrite Hla. cbn [mbind outcome_bind].
  rewrite (parseRequirement_items (eq_req ParentKey name) _ _
             (or_introl eq_refl) eq_refl eq_refl name eq_refl) by (by apply label_value_id || by right).
  unfold NewRequirement. cbn [req_key req_operator eq_req].
  destruct (requirement_errors ParentKey Equals [name]); [done|]. simpl. eauto.
Qed.

(** The old generations: the parent's proxies whose generation label differs. *)
Lemma old_generation_Matches name generation ls :
  Matches (old_generation_selector name generation) ls = true ↔
  ls !! ParentKey = Some name ∧ ls !! GenerationKey ≠ Some (FormatInt generation).
Proof.
  unfold Matches, old_generation_selector. cbn [forallb]. rewrite andb_true_r, andb_true_iff.
  unfold req_Matches, hasValue. cbn [req_operator req_key req_values neq_req eq_req existsb].
  destruct (ls !! GenerationKey) as [g|], (ls !! ParentKey) as [p|];
    rewrite ?orb_false_r, ?negb_true_iff, ?String.eqb_eq, ?String.eqb_neq; naive_solver.
Qed.

Section FromSet.
Context `{MapOrder}.

(** A selector made from a set matches exactly the supersets of it, whatever
    the order the set was enumerated in. *)
Lemma SelectorFromSet_Matches ls m :
  Matches (SelectorFromSet ls) m = true ↔ ls ⊆ m.
Proof.
  unfold Matches, SelectorFromSet. rewrite forallb_forall, map_subseteq_spec. split.
  - intros Hall k v Hkv.
    assert (req_Matches (eq_req k v) m = true) as Hm.
    { apply Hall, list_elem_of_In, sort_slice_elem, list_elem_of_fmap.
      exists (k, v). split; [done|]. by apply elem_of_range_map. }
    unfold req_Matches, hasValue in Hm. simpl in Hm. destruct (m !! k); [|done].
    rewrite orb_false_r in Hm. by apply String.eqb_eq in Hm as ->.
  - intros Hsub r [[k v] [-> Hkv]]%list_elem_of_In%sort_slice_elem%list_elem_of_fmap.
    apply elem_of_range_map, Hsub in Hkv.
    unfold req_Matches, hasValue. simpl. rewrite Hkv. simpl. by rewrite String.eqb_refl.
Qed.
End FromSet.

(** ** Selector texts *)

(** C40: parsing a selector's text never panics, whatever the text. *)
Theorem Parse_never_panics text msg : Parse text ≠ Panic msg.
Proof. eapply safe_no_panic, Parse_safe. Qed.

(** C39: a selector of requirements "key = value" and "key != value" with legal keys
    and values, printed as the API server is sent it and parsed again, gives the same
    requirements in the order of their keys. *)
Theorem selector_roundtrip s :
  Forall exact_ok s → Parse (sel_String s) = Ret (sort_slice ByKey s).
Proof. apply Parse_sel_String. Qed.

Lemma selector_roundtrip_witness :
  Parse "contour.networking.knative.dev/parent=hello" =
  Ret (sort_slice ByKey [eq_req ParentKey "hello"]).
Proof.
  apply (selector_roundtrip [eq_req ParentKey "hello"]).
  constructor; [apply parent_req_ok; vm_compute; reflexivity|constructor].
Defined.
