(* ===== verification/Conditions.v ===== *)
(** * Status conditions (knative.dev/pkg/apis/condition_set.go)

    The condition manager behind [ing.Status.Mark...]: conditions sorted by type,
    a happy condition that follows its dependents, transition times read from the
    clock.  [clock n] is the n-th reading of [time.Now]; the number of readings so
    far is part of the state.

    The theorems: the manager keeps a status well formed, and the happy condition
    is never True unless every dependent is; clearing a condition refuses the ones
    it depends on and removes any other.  The accessor is never nil here. *)

From S2P Require Import Prelude.

Inductive ConditionStatus := ConditionTrue | ConditionFalse | ConditionUnknown.
Inductive ConditionSeverity := SeverityError | SeverityWarning | SeverityInfo.
#[export] Instance ConditionStatus_eq_dec : EqDecision ConditionStatus.
Proof. solve_decision. Defined.
#[export] Instance ConditionSeverity_eq_dec : EqDecision ConditionSeverity.
Proof. solve_decision. Defined.

Record Condition := {
  c_type : string;
  c_status : ConditionStatus;
  c_severity : ConditionSeverity;
  c_time : Z;
  c_reason : string;
  c_message : string
}.
#[export] Instance Condition_eq_dec : EqDecision Condition.
Proof. solve_decision. Defined.

Definition with_time (t : Z) (c : Condition) : Condition := {|
  c_type := c_type c; c_status := c_status c; c_severity := c_severity c;
  c_time := t; c_reason := c_reason c; c_message := c_message c
|}.

(** The methods on a possibly nil [*Condition]. *)
Definition IsTrue (c : option Condition) : bool :=
  match c with None => false | Some c => bool_decide (c_status c = ConditionTrue) end.
Definition IsFalse (c : option Condition) : bool :=
  match c with None => false | Some c => bool_decide (c_status c = ConditionFalse) end.
Definition IsUnknown (c : option Condition) : bool :=
  match c with None => true | Some c => bool_decide (c_status c = ConditionUnknown) end.

Record ConditionSet := {
  happy : string;
  dependents : list string
}.

Fixpoint dedup_types (happy : string) (deps ds : list string) : list string :=
  match ds with
  | [] => deps
  | d :: ds =>
      if String.eqb d happy || existsb (String.eqb d) deps then dedup_types happy deps ds
      else dedup_types happy (deps ++ [d]) ds
  end.

Definition newConditionSet (happy : string) (dependents : list string) : ConditionSet :=
  {| happy := happy; dependents := dedup_types happy [] dependents |}.

Definition NewLivingConditionSet (d : list string) : ConditionSet := newConditionSet "Ready" d.
Definition NewBatchConditionSet (d : list string) : ConditionSet := newConditionSet "Succeeded" d.

(** The conditions of a status, and how often the clock was read. *)
Record CondState := {
  cs_conditions : list Condition;
  cs_ticks : nat
}.

Section Manager.
Context (clock : nat → Z) (r : ConditionSet).

Fixpoint find_condition (t : string) (l : list Condition) : option Condition :=
  match l with
  | [] => None
  | c :: l => if String.eqb (c_type c) t then Some c else find_condition t l
  end.

Definition GetCondition (s : CondState) (t : string) : option Condition :=
  find_condition t (cs_conditions s).

Definition GetTopLevelCondition (s : CondState) : option Condition := GetCondition s (happy r).

Definition IsHappy (s : CondState) : bool := IsTrue (GetTopLevelCondition s).

(** The loop of [SetCondition]: the conditions of other types, and the new
    condition with the old transition time; [None] when nothing but the time
    would change. *)
Fixpoint set_scan (cond : Condition) (l acc : list Condition) : option (list Condition * Condition) :=
  match l with
  | [] => Some (acc, cond)
  | c :: l =>
      if String.eqb (c_type c) (c_type cond) then
        let cond := with_time (c_time c) cond in
        if bool_decide (cond = c) then None else set_scan cond l acc
      else set_scan cond l (acc ++ [c])
  end.

Definition SetCondition (s : CondState) (cond : Condition) : CondState :=
  match set_scan cond (cs_conditions s) [] with
  | None => s
  | Some (conditions, cond) =>
      {| cs_conditions :=
           sort_slice (key_less c_type) (conditions ++ [with_time (clock (cs_ticks s)) cond]);
         cs_ticks := S (cs_ticks s) |}
  end.

Definition isTerminal (t : string) : bool :=
  existsb (String.eqb t) (dependents r) || String.eqb t (happy r).

Definition severity (t : string) : ConditionSeverity :=
  if isTerminal t then SeverityError else SeverityInfo.

(** A condition as a composite literal builds it: the zero time. *)
Definition mk_condition (t : string) (st : ConditionStatus) (reason message : string) : Condition := {|
  c_type := t; c_status := st; c_severity := severity t;
  c_time := 0; c_reason := reason; c_message := message
|}.

Definition findUnhappyDependent (s : CondState) : option Condition :=
  match dependents r with
  | [] => None
  | _ =>
      let conditions :=
        filter (λ c, c_severity c = SeverityError ∧ c_type c ≠ happy r) (cs_conditions s) in
      let conditions := sort_slice (λ a b, (c_time b <? c_time a)%Z) conditions in
      match find (λ c, IsFalse (Some c)) conditions with
      | Some c => Some c
      | None =>
          match find (λ c, IsUnknown (Some c)) conditions with
          | Some c => Some c
          | None =>
              if length conditions <? length (dependents r)
              then Some {| c_type := ""; c_status := ConditionUnknown; c_severity := SeverityError;
                           c_time := 0; c_reason := ""; c_message := "" |}
              else None
          end
      end
  end.

Definition recomputeHappiness (s : CondState) (t : string) : CondState :=
  match findUnhappyDependent s with
  | Some c => SetCondition s (mk_condition (happy r) (c_status c) (c_reason c) (c_message c))
  | None =>
      if String.eqb t (happy r) then s
      else SetCondition s (mk_condition (happy r) ConditionTrue "" "")
  end.

Definition ClearCondition (s : CondState) (t : string) : CondState * option string :=
  if isTerminal t then (s, Some "clearing terminal conditions not implemented") else
  match GetCondition s t with
  | None => (s, None)
  | Some _ =>
      ({| cs_conditions :=
            sort_slice (key_less c_type) (filter (λ c, c_type c ≠ t) (cs_conditions s));
          cs_ticks := cs_ticks s |}, None)
  end.

Definition MarkTrue (s : CondState) (t : string) : CondState :=
  recomputeHappiness (SetCondition s (mk_condition t ConditionTrue "" "")) t.

(** The message is the formatted one. *)
Definition MarkTrueWithReason (s : CondState) (t reason message : string) : CondState :=
  recomputeHappiness (SetCondition s (mk_condition t ConditionTrue reason message)) t.

Definition MarkFalse (s : CondState) (t reason message : string) : CondState :=
  let types := t :: ((λ _, happy r) <$> filter (λ cond, cond = t) (dependents r)) in
  foldl (λ s t, SetCondition s (mk_condition t ConditionFalse reason message)) s types.

Definition MarkUnknown (s : CondState) (t reason message : string) : CondState :=
  let s := SetCondition s (mk_condition t ConditionUnknown reason message) in
  if existsb (λ d, IsFalse (GetCondition s d)) (dependents r) then
    if IsFalse (GetCondition s (happy r)) then s else MarkFalse s (happy r) reason message
  else if existsb (String.eqb t) (dependents r) then
    SetCondition s (mk_condition (happy r) ConditionUnknown reason message)
  else s.

Definition initializeTerminalCondition (st : ConditionStatus) (s : CondState) (t : string) : CondState :=
  match GetCondition s t with
  | Some _ => s
  | None => SetCondition s {| c_type := t; c_status := st; c_severity := SeverityError;
                              c_time := 0; c_reason := ""; c_message := "" |}
  end.

Definition InitializeConditions (s : CondState) : CondState :=
  let '(s, happy_status) :=
    match GetCondition s (happy r) with
    | Some c => (s, c_status c)
    | None =>
        (SetCondition s {| c_type := happy r; c_status := ConditionUnknown;
                           c_severity := SeverityError; c_time := 0; c_reason := ""; c_message := "" |},
         ConditionUnknown)
    end in
  let status := if bool_decide (happy_status = ConditionTrue) then ConditionTrue else ConditionUnknown in
  foldl (initializeTerminalCondition status) s (dependents r).

End Manager.

(** ** Reading back what was set *)

(** One condition per type. *)
Definition types_unique (l : list Condition) : Prop := NoDup (c_type <$> l).

(** The status recorded for a type, if any. *)
Definition status_of (s : CondState) (t : string) : option ConditionStatus :=
  c_status <$> GetCondition s t.

Lemma find_condition_Some t l c :
  find_condition t l = Some c → c ∈ l ∧ c_type c = t.
Proof.
  induction l as [|d l IH]; simpl; [done|]. destruct (String.eqb_spec (c_type d) t) as [Ht|Ht].
  - intros [= ->]. split; [left|done].
  - intros [? ?]%IH. split; [by right|done].
Qed.

Lemma find_condition_elem t l c :
  types_unique l → c ∈ l → c_type c = t → find_condition t l = Some c.
Proof.
  unfold types_unique. induction l as [|d l IH]; simpl; [by intros _ ?%elem_of_nil|].
  intros [Hd Hl]%NoDup_cons [->|Hc]%elem_of_cons Ht.
  - by rewrite (proj2 (String.eqb_eq _ _) Ht).
  - destruct (String.eqb_spec (c_type d) t) as [Hdt|]; [|auto].
    destruct Hd. rewrite Hdt, <-Ht. by apply list_elem_of_fmap_2.
Qed.

Lemma find_condition_perm t l k :
  types_unique l → l ≡ₚ k → find_condition t l = find_condition t k.
Proof.
  intros Hl Hp. assert (types_unique k) as Hk by (unfold types_unique; by rewrite <-Hp).
  destruct (find_condition t l) as [c|] eqn:El.
  - apply find_condition_Some in El as [Hc Ht]. symmetry.
    apply find_condition_elem; [done| |done]. by rewrite <-Hp.
  - destruct (find_condition t k) as [c|] eqn:Ek; [|done].
    apply find_condition_Some in Ek as [Hc Ht]. rewrite <-Hp in Hc.
    by rewrite (find_condition_elem t l c) in El.
Qed.

Lemma find_condition_app t l k :
  find_condition t (l ++ k) =
  match find_condition t l with Some c => Some c | None => find_condition t k end.
Proof. induction l as [|c l IH]; simpl; [done|]. by destruct (String.eqb _ _). Qed.

Lemma find_condition_None t l : t ∉ c_type <$> l → find_condition t l = None.
Proof.
  intros H. destruct (find_condition t l) as [c|] eqn:E; [|done].
  apply find_condition_Some in E as [Hc <-]. destruct H. by apply list_elem_of_fmap_2.
Qed.

(** Two conditions that differ at most in their transition time. *)
Definition same_but_time (a b : Condition) : Prop := with_time 0 a = with_time 0 b.

Lemma set_scan_spec cond l acc :
  types_unique (acc ++ l) → c_type cond ∉ c_type <$> acc →
  match set_scan cond l acc with
  | None => ∃ c, c ∈ l ∧ same_but_time c cond
  | Some (others, cond') =>
      others = acc ++ filter (λ c, c_type c ≠ c_type cond) l ∧ same_but_time cond' cond
  end.
Proof.
  revert cond acc. induction l as [|c l IH]; intros cond acc Hu Hacc; simpl.
  { by rewrite app_nil_r. }
  destruct (String.eqb_spec (c_type c) (c_type cond)) as [Ht|Ht].
  - case_bool_decide as Heq.
    + exists c. split; [left|]. rewrite <-Heq. done.
    + specialize (IH (with_time (c_time c) cond) acc).
      assert (types_unique (acc ++ l)) as Hu'.
      { unfold types_unique in *. rewrite fmap_app in *. simpl in Hu.
        apply NoDup_app in Hu as (H1 & H2 & H3). apply NoDup_cons in H3 as [_ H3].
        apply NoDup_app. split_and!; [done| |done]. set_solver. }
      specialize (IH Hu' Hacc). simpl in IH. rewrite filter_cons_False by (simpl; naive_solver).
      destruct (set_scan _ _ _) as [[others cond']|].
      * destruct IH as [-> IH]. split; [done|]. unfold same_but_time in *. by rewrite IH.
      * destruct IH as (d & Hd & IH). exists d. split; [by right|].
        unfold same_but_time in *. by rewrite IH.
  - specialize (IH cond (acc ++ [c])). rewrite <-app_assoc in IH. specialize (IH Hu).
    rewrite filter_cons_True by done.
    assert (c_type cond ∉ c_type <$> acc ++ [c]) as Hacc' by (rewrite fmap_app; set_solver).
    specialize (IH Hacc'). destruct (set_scan _ _ _) as [[others cond']|].
    + destruct IH as [-> IH]. by rewrite <-app_assoc.
    + destruct IH as (d & Hd & IH). exists d. split; [by right|done].
Qed.

Section SetFacts.
Context (clock : nat → Z).

Lemma same_but_time_fields a b :
  same_but_time a b → c_type a = c_type b ∧ c_status a = c_status b ∧
    c_severity a = c_severity b ∧ c_reason a = c_reason b ∧ c_message a = c_message b.
Proof. unfold same_but_time, with_time. by intros [=]. Qed.

(** [SetCondition] either changes nothing, because an equal condition is there, or
    replaces the condition of that type. *)
Lemma SetCondition_cases s cond :
  types_unique (cs_conditions s) →
  (SetCondition clock s cond = s ∧ ∃ c, c ∈ cs_conditions s ∧ same_but_time c cond) ∨
  (∃ cond', same_but_time cond' cond ∧
    cs_conditions (SetCondition clock s cond) ≡ₚ
      filter (λ c, c_type c ≠ c_type cond) (cs_conditions s) ++ [cond']).
Proof.
  intros Hu. unfold SetCondition.
  pose proof (set_scan_spec cond (cs_conditions s) [] Hu ltac:(simpl; set_solver)) as H.
  destruct (set_scan _ _ _) as [[others cond']|]; [right|left; auto].
  destruct H as [-> H]. eexists. split; [|simpl; by rewrite sort_slice_perm].
  unfold same_but_time in *. simpl in *. rewrite <-H. done.
Qed.

Lemma SetCondition_unique s cond :
  types_unique (cs_conditions s) → types_unique (cs_conditions (SetCondition clock s cond)).
Proof.
  intros Hu. destruct (SetCondition_cases s cond Hu) as [[-> _]|(cond' & Hs & Hp)]; [done|].
  apply same_but_time_fields in Hs as (Ht & _).
  unfold types_unique. rewrite Hp, fmap_app. simpl. apply NoDup_app. split_and!.
  - eapply sublist_NoDup; [exact Hu|]. apply fmap_sublist, sublist_filter.
  - intros t (c & -> & [Hc _]%list_elem_of_filter)%list_elem_of_fmap.
    rewrite list_elem_of_singleton. congruence.
  - apply NoDup_singleton.
Qed.

Lemma SetCondition_get s cond t :
  types_unique (cs_conditions s) →
  (t = c_type cond → ∃ c, GetCondition (SetCondition clock s cond) t = Some c ∧ same_but_time c cond) ∧
  (t ≠ c_type cond → GetCondition (SetCondition clock s cond) t = GetCondition s t).
Proof.
  intros Hu. pose proof (SetCondition_unique s cond Hu) as Hu'. unfold GetCondition.
  destruct (SetCondition_cases s cond Hu) as [[-> (c & Hc & Hs)]|(cond' & Hs & Hp)].
  - split; [|done]. intros ->. exists c. split; [|done].
    apply find_condition_elem; [done..|]. by apply same_but_time_fields in Hs as (? & _).
  - rewrite (find_condition_perm t _ _ Hu' Hp), find_condition_app.
    apply same_but_time_fields in Hs as Hf. destruct Hf as (Hty & _). split.
    + intros ->. rewrite find_condition_None.
      * simpl. rewrite (proj2 (String.eqb_eq _ _) Hty). eauto.
      * rewrite list_elem_of_fmap. intros (c & E & [Hc _]%list_elem_of_filter). congruence.
    + intros Hne.
      assert (find_condition t (filter (λ c, c_type c ≠ c_type cond) (cs_conditions s)) =
              find_condition t (cs_conditions s)) as ->.
      { clear -Hne. induction (cs_conditions s) as [|c l IH]; [done|].
        rewrite filter_cons. case_decide as Hc; simpl; rewrite IH; [done|].
        destruct (String.eqb_spec (c_type c) t); [congruence|done]. }
      simpl. destruct (find_condition t _); [done|].
      destruct (String.eqb_spec (c_type cond') t); [congruence|done].
Qed.

Lemma SetCondition_status s cond t :
  types_unique (cs_conditions s) →
  status_of (SetCondition clock s cond) t =
  if String.eqb t (c_type cond) then Some (c_status cond) else status_of s t.
Proof.
  intros Hu. destruct (SetCondition_get s cond t Hu) as [Heq Hne]. unfold status_of.
  destruct (String.eqb_spec t (c_type cond)) as [E|E]; [|by rewrite Hne].
  destruct (Heq E) as (c & -> & Hs). by apply same_but_time_fields in Hs as (_ & <- & _).
Qed.

Lemma SetCondition_elem s cond c :
  types_unique (cs_conditions s) →
  c ∈ cs_conditions (SetCondition clock s cond) → c ∈ cs_conditions s ∨ same_but_time c cond.
Proof.
  intros Hu. destruct (SetCondition_cases s cond Hu) as [[-> _]|(cond' & Hs & Hp)]; [by left|].
  rewrite Hp, elem_of_app, list_elem_of_filter, list_elem_of_singleton.
  intros [[_ ?]| ->]; auto.
Qed.
End SetFacts.

(** ** Well-formed statuses and the meaning of the happy condition *)

Section Happy.
Context (clock : nat → Z) (r : ConditionSet).
Hypothesis happy_not_dependent : happy r ∉ dependents r.
Hypothesis dependents_NoDup : NoDup (dependents r).
Hypothesis dependents_nonempty : dependents r ≠ [].

(** One condition per type, only types of the set, all of severity Error. *)
Definition cond_wf (s : CondState) : Prop :=
  types_unique (cs_conditions s) ∧
  Forall (λ c, c_type c ∈ happy r :: dependents r ∧ c_severity c = SeverityError) (cs_conditions s).

(** If the happy condition is True, so is every dependent. *)
Definition happy_sound (s : CondState) : Prop :=
  status_of s (happy r) = Some ConditionTrue →
  ∀ d, d ∈ dependents r → status_of s d = Some ConditionTrue.

Definition cond_inv (s : CondState) : Prop := cond_wf s ∧ happy_sound s.

Lemma isTerminal_spec t : isTerminal r t = true ↔ t ∈ happy r :: dependents r.
Proof.
  unfold isTerminal. rewrite orb_true_iff, existsb_exists, String.eqb_eq, elem_of_cons.
  split.
  - intros [(x & Hx & ->%String.eqb_eq)| ->]; [right; by apply list_elem_of_In|by left].
  - intros [->|Ht]; [by right|left]. exists t. split; [by apply list_elem_of_In|].
    apply String.eqb_refl.
Qed.

Lemma SetCondition_wf s cond :
  cond_wf s → c_type cond ∈ happy r :: dependents r → c_severity cond = SeverityError →
  cond_wf (SetCondition clock s cond).
Proof.
  intros [Hu HF] Ht Hsev. split; [by apply SetCondition_unique|].
  apply Forall_forall. intros c Hc. rewrite Forall_forall in HF.
  apply SetCondition_elem in Hc as [Hc|Hc]; [by apply HF| |done].
  apply same_but_time_fields in Hc as (-> & _ & -> & _). done.
Qed.

Lemma mk_condition_wf s t st reason message :
  cond_wf s → t ∈ happy r :: dependents r →
  cond_wf (SetCondition clock s (mk_condition r t st reason message)).
Proof.
  intros Hwf Ht. apply SetCondition_wf; [done|done|]. simpl. unfold severity.
  by rewrite (proj2 (isTerminal_spec t) Ht).
Qed.

Lemma set_status s t st reason message x :
  cond_wf s →
  status_of (SetCondition clock s (mk_condition r t st reason message)) x =
  if String.eqb x t then Some st else status_of s x.
Proof. intros [Hu _]. by rewrite SetCondition_status. Qed.

(** An unhappy dependent is missing, Unknown or False; with none, all are True. *)
Lemma findUnhappyDependent_status s c :
  findUnhappyDependent r s = Some c → c_status c ≠ ConditionTrue.
Proof.
  unfold findUnhappyDependent. destruct (dependents r); [done|].
  destruct (find _ _) as [c'|] eqn:E1.
  { apply find_some in E1 as [_ E]. intros [= ->]. simpl in E.
    apply bool_decide_eq_true in E. congruence. }
  destruct (find _ _) as [c'|] eqn:E2 in |- *.
  { apply find_some in E2 as [_ E]. intros [= ->]. simpl in E.
    apply bool_decide_eq_true in E. congruence. }
  case_match; [|done]. by intros [= <-].
Qed.

Lemma findUnhappyDependent_None s :
  cond_wf s → findUnhappyDependent r s = None →
  ∀ d, d ∈ dependents r → status_of s d = Some ConditionTrue.
Proof.
  intros [Hu HF]. unfold findUnhappyDependent.
  assert (∀ A (a b : A), match dependents r with [] => a | _ => b end = b) as Hdeps.
  { intros A a b. by destruct (dependents r). }
  rewrite Hdeps.
  set (cs := filter _ (cs_conditions s)).
  set (sorted := sort_slice _ cs).
  destruct (find _ sorted) eqn:E1; [done|]. destruct (find _ sorted) eqn:E2 in |- *; [done|].
  destruct (_ <? _) eqn:Elen; [done|]. intros _ d Hd.
  apply Nat.ltb_ge in Elen. unfold sorted in Elen. rewrite sort_slice_length in Elen.
  (* the types of [cs] are distinct dependents, at least as many: all of them *)
  assert (c_type <$> cs ⊆ dependents r) as Hsub.
  { intros t (c & -> & [[_ Hne] Hc]%list_elem_of_filter)%list_elem_of_fmap.
    rewrite Forall_forall in HF. apply HF in Hc as [Hc _]. set_solver. }
  assert (NoDup (c_type <$> cs)) as Hnd.
  { eapply sublist_NoDup; [exact Hu|]. apply fmap_sublist, sublist_filter. }
  assert (d ∈ c_type <$> cs) as Hin.
  { rewrite (submseteq_length_Permutation (c_type <$> cs) (dependents r)); [done| |].
    - by apply NoDup_submseteq.
    - by rewrite length_fmap. }
  apply list_elem_of_fmap in Hin as (c & -> & Hc).
  assert (c ∈ sorted) as Hcs by (by apply sort_slice_elem).
  apply list_elem_of_filter in Hc as [_ Hc].
  unfold status_of, GetCondition. rewrite (find_condition_elem _ _ c Hu Hc eq_refl). simpl.
  apply list_elem_of_In in Hcs.
  pose proof (find_none _ _ E1 c Hcs) as N1. pose proof (find_none _ _ E2 c Hcs) as N2.
  simpl in N1, N2. apply bool_decide_eq_false in N1, N2. by destruct (c_status c).
Qed.

Lemma recomputeHappiness_wf s t : cond_wf s → cond_wf (recomputeHappiness clock r s t).
Proof.
  intros Hwf. unfold recomputeHappiness.
  destruct (findUnhappyDependent r s); [apply mk_condition_wf; [done|left]|].
  destruct (String.eqb t (happy r)); [done|]. apply mk_condition_wf; [done|left].
Qed.

Lemma dep_ne_happy d : d ∈ dependents r → String.eqb d (happy r) = false.
Proof. intros Hd. apply String.eqb_neq. by intros ->. Qed.

(** Setting a dependent to True, whatever the reason says. *)
Lemma MarkTrueWithReason_inv s t reason message :
  cond_inv s → t ∈ dependents r → cond_inv (MarkTrueWithReason clock r s t reason message).
Proof.
  intros [Hwf _] Ht. unfold MarkTrueWithReason.
  set (s1 := SetCondition _ s _).
  assert (cond_wf s1) as Hwf1 by (apply mk_condition_wf; [done|by right]).
  split; [by apply recomputeHappiness_wf|].
  unfold happy_sound, recomputeHappiness.
  destruct (findUnhappyDependent r s1) as [c|] eqn:E.
  - rewrite set_status by done. rewrite String.eqb_refl.
    apply findUnhappyDependent_status in E. congruence.
  - rewrite (dep_ne_happy t Ht). intros _ d Hd. rewrite set_status by done.
    rewrite (dep_ne_happy d Hd). by apply findUnhappyDependent_None.
Qed.

Lemma MarkTrue_inv s t : cond_inv s → t ∈ dependents r → cond_inv (MarkTrue clock r s t).
Proof. apply MarkTrueWithReason_inv. Qed.

(** [MarkFalse] puts its types to False, the happy condition among them when the
    type is a dependent. *)
Lemma MarkFalse_fold_wf s types reason message :
  cond_wf s → Forall (λ t, t ∈ happy r :: dependents r) types →
  cond_wf (foldl (λ s t, SetCondition clock s (mk_condition r t ConditionFalse reason message)) s types).
Proof.
  intros Hwf HF. revert s Hwf. induction HF; intros s Hwf; simpl; [done|].
  auto using mk_condition_wf.
Qed.

Lemma MarkFalse_fold_status s types reason message x :
  cond_wf s → Forall (λ t, t ∈ happy r :: dependents r) types →
  status_of (foldl (λ s t, SetCondition clock s (mk_condition r t ConditionFalse reason message)) s types) x =
  if bool_decide (x ∈ types) then Some ConditionFalse else status_of s x.
Proof.
  intros Hwf HF. revert s Hwf. induction HF as [|t types Ht HF IH]; intros s Hwf; simpl; [done|].
  rewrite IH by auto using mk_condition_wf. rewrite set_status by done.
  destruct (String.eqb_spec x t) as [->|Hne].
  - rewrite (bool_decide_eq_true_2 (t ∈ t :: types)) by left. by case_bool_decide.
  - rewrite (bool_decide_ext (x ∈ t :: types) (x ∈ types)); [done|]. set_solver.
Qed.

Lemma MarkFalse_types_ok t :
  t ∈ happy r :: dependents r →
  Forall (λ t, t ∈ happy r :: dependents r)
    (t :: ((λ _, happy r) <$> filter (λ cond, cond = t) (dependents r))).
Proof.
  intros Ht. constructor; [done|]. apply Forall_fmap, Forall_forall. intros ? _. left.
Qed.

Lemma MarkFalse_wf s t reason message :
  cond_wf s → t ∈ happy r :: dependents r → cond_wf (MarkFalse clock r s t reason message).
Proof. intros. apply MarkFalse_fold_wf; [done|]. by apply MarkFalse_types_ok. Qed.

Lemma MarkFalse_happy s t reason message :
  cond_wf s → t ∈ happy r :: dependents r →
  status_of (MarkFalse clock r s t reason message) (happy r) = Some ConditionFalse.
Proof.
  intros Hwf Ht. unfold MarkFalse.
  rewrite MarkFalse_fold_status by auto using MarkFalse_types_ok.
  rewrite bool_decide_eq_true_2; [done|]. apply elem_of_cons in Ht as [->|Ht]; [left|right].
  apply list_elem_of_fmap. exists t. split; [done|]. by apply list_elem_of_filter.
Qed.

Lemma MarkFalse_inv s t reason message :
  cond_inv s → t ∈ happy r :: dependents r → cond_inv (MarkFalse clock r s t reason message).
Proof.
  intros [Hwf _] Ht. split; [by apply MarkFalse_wf|].
  unfold happy_sound. by rewrite MarkFalse_happy.
Qed.

Lemma IsFalse_status s t : IsFalse (GetCondition s t) = true ↔ status_of s t = Some ConditionFalse.
Proof.
  unfold status_of. destruct (GetCondition s t) as [c|]; simpl; [|done].
  rewrite bool_decide_eq_true. split; [by intros ->|by intros [=]].
Qed.

Lemma IsTrue_status s t : IsTrue (GetCondition s t) = true ↔ status_of s t = Some ConditionTrue.
Proof.
  unfold status_of. destruct (GetCondition s t) as [c|]; simpl; [|done].
  rewrite bool_decide_eq_true. split; [by intros ->|by intros [=]].
Qed.

(** After [MarkUnknown] on any type of the set, the happy condition is not True. *)
Lemma MarkUnknown_spec s t reason message :
  cond_wf s → t ∈ happy r :: dependents r →
  cond_wf (MarkUnknown clock r s t reason message) ∧
  status_of (MarkUnknown clock r s t reason message) (happy r) ≠ Some ConditionTrue.
Proof.
  intros Hwf Ht. unfold MarkUnknown.
  set (s1 := SetCondition _ s _).
  assert (cond_wf s1) as Hwf1 by (by apply mk_condition_wf).
  destruct (existsb (λ d, _) (dependents r)).
  - destruct (IsFalse (GetCondition s1 (happy r))) eqn:E.
    + apply IsFalse_status in E. split; [done|congruence].
    + split; [apply MarkFalse_wf; [done|left]|]. rewrite MarkFalse_happy by (done || left). done.
  - destruct (existsb (String.eqb t) (dependents r)) eqn:E.
    + split; [apply mk_condition_wf; [done|left]|]. rewrite set_status by done.
      by rewrite String.eqb_refl.
    + split; [done|]. unfold s1. rewrite set_status by done.
      apply elem_of_cons in Ht as [->|Ht]; [by rewrite String.eqb_refl|].
      assert (existsb (String.eqb t) (dependents r) = true) as E'; [|congruence].
      apply existsb_exists. exists t. split; [by apply list_elem_of_In|apply String.eqb_refl].
Qed.

Lemma MarkUnknown_inv s t reason message :
  cond_inv s → t ∈ happy r :: dependents r → cond_inv (MarkUnknown clock r s t reason message).
Proof.
  intros [Hwf _] Ht. destruct (MarkUnknown_spec s t reason message Hwf Ht) as [Hwf' Hne].
  split; [done|]. intros E. congruence.
Qed.

(** [MarkUnknown] leaves the other dependents alone. *)
Lemma MarkUnknown_other s t reason message d :
  cond_wf s → t ∈ happy r :: dependents r → d ∈ dependents r → d ≠ t →
  status_of (MarkUnknown clock r s t reason message) d = status_of s d.
Proof.
  intros Hwf Ht Hd Hne. unfold MarkUnknown.
  set (s1 := SetCondition _ s _).
  assert (cond_wf s1) as Hwf1 by (by apply mk_condition_wf).
  assert (status_of s1 d = status_of s d) as Hs1.
  { unfold s1. rewrite set_status by done. by destruct (String.eqb_spec d t). }
  assert (d ≠ happy r) as Hh by (by intros ->).
  destruct (existsb (λ d, _) (dependents r)).
  - destruct (IsFalse _); [done|]. unfold MarkFalse.
    rewrite MarkFalse_fold_status by (done || apply MarkFalse_types_ok; left).
    rewrite bool_decide_eq_false_2; [done|]. set_solver.
  - destruct (existsb (String.eqb t) (dependents r)); [|done].
    rewrite set_status by done. by rewrite (dep_ne_happy d Hd).
Qed.

(** [MarkTrue] on the last dependent that was not True makes the happy condition True. *)
Lemma findUnhappyDependent_all_true s :
  cond_wf s → (∀ d, d ∈ dependents r → status_of s d = Some ConditionTrue) →
  findUnhappyDependent r s = None.
Proof.
  intros [Hu HF] Hall. unfold findUnhappyDependent.
  assert (∀ A (a b : A), match dependents r with [] => a | _ => b end = b) as Hdeps.
  { intros A a b. by destruct (dependents r). }
  rewrite Hdeps.
  set (cs := filter _ (cs_conditions s)).
  set (sorted := sort_slice _ cs).
  assert (∀ c, c ∈ sorted → c_status c = ConditionTrue) as Htrue.
  { intros c Hc. unfold sorted in Hc. rewrite sort_slice_elem in Hc.
    apply list_elem_of_filter in Hc as [[_ Hne] Hc]. rewrite Forall_forall in HF.
    destruct (HF c Hc) as [Ht _]. apply elem_of_cons in Ht as [Ht|Ht]; [done|].
    specialize (Hall _ Ht). unfold status_of, GetCondition in Hall.
    rewrite (find_condition_elem _ _ c Hu Hc eq_refl) in Hall. simpl in Hall. congruence. }
  destruct (find _ sorted) as [c|] eqn:E1.
  { apply find_some in E1 as [Hc%list_elem_of_In E]. simpl in E. rewrite (Htrue c Hc) in E. done. }
  destruct (find _ sorted) as [c|] eqn:E2 in |- *.
  { apply find_some in E2 as [Hc%list_elem_of_In E]. simpl in E. rewrite (Htrue c Hc) in E. done. }
  destruct (length sorted <? length (dependents r)) eqn:E; [|done]. exfalso.
  apply Nat.ltb_lt in E. unfold sorted in E. rewrite sort_slice_length in E.
  assert (length (dependents r) ≤ length (c_type <$> cs)) as Hle; [|rewrite length_fmap in Hle; lia].
  apply submseteq_length, NoDup_submseteq; [done|].
  intros d Hd. specialize (Hall d Hd).
  unfold status_of, GetCondition in Hall.
  destruct (find_condition d (cs_conditions s)) as [c|] eqn:Ef; [|done].
  apply find_condition_Some in Ef as [Hc <-]. apply list_elem_of_fmap_2.
  apply list_elem_of_filter. split; [|done]. rewrite Forall_forall in HF.
  split; [by apply HF|]. intros E'. by rewrite E' in Hd.
Qed.

Lemma MarkTrue_happy s t :
  cond_wf s → t ∈ dependents r →
  (∀ d, d ∈ dependents r → d ≠ t → status_of s d = Some ConditionTrue) →
  status_of (MarkTrue clock r s t) (happy r) = Some ConditionTrue.
Proof.
  intros Hwf Ht Hall. unfold MarkTrue, recomputeHappiness.
  set (s1 := SetCondition _ s _).
  assert (cond_wf s1) as Hwf1 by (apply mk_condition_wf; [done|by right]).
  rewrite findUnhappyDependent_all_true; [|done|].
  - rewrite (dep_ne_happy t Ht). rewrite set_status by done. by rewrite String.eqb_refl.
  - intros d Hd. unfold s1. rewrite set_status by done.
    destruct (String.eqb_spec d t); auto.
Qed.

(** What [MarkTrue] does to the dependents. *)
Lemma MarkTrue_status s t d :
  cond_wf s → t ∈ dependents r → d ∈ dependents r →
  status_of (MarkTrue clock r s t) d = if String.eqb d t then Some ConditionTrue else status_of s d.
Proof.
  intros Hwf Ht Hd. unfold MarkTrue, recomputeHappiness.
  set (s1 := SetCondition _ s _).
  assert (cond_wf s1) as Hwf1 by (apply mk_condition_wf; [done|by right]).
  assert (status_of s1 d = if String.eqb d t then Some ConditionTrue else status_of s d) as <-
    by (unfold s1; by rewrite set_status).
  destruct (findUnhappyDependent r s1); [|rewrite (dep_ne_happy t Ht)];
    rewrite set_status by done; by rewrite (dep_ne_happy d Hd).
Qed.

(** [IsHappy] can be trusted: every dependent is True then. *)
Lemma IsHappy_dependents s d :
  cond_inv s → IsHappy r s = true → d ∈ dependents r → status_of s d = Some ConditionTrue.
Proof. intros [_ Hs] E%IsTrue_status. by apply Hs. Qed.

(** ** Clearing a condition *)

Lemma find_condition_filter l t x :
  find_condition x (filter (λ c, c_type c ≠ t) l) = if String.eqb x t then None else find_condition x l.
Proof.
  induction l as [|c l IH]; [simpl; by destruct (String.eqb x t)|]. rewrite filter_cons.
  destruct (decide (c_type c ≠ t)) as [Hne|E%dec_stable]; simpl; rewrite IH.
  - destruct (String.eqb_spec (c_type c) x) as [<-|]; [|done]. by rewrite (proj2 (String.eqb_neq _ _) Hne).
  - rewrite E, (String.eqb_sym t x). by destruct (String.eqb x t).
Qed.

Lemma find_condition_sort l x :
  types_unique l → find_condition x (sort_slice (key_less c_type) l) = find_condition x l.
Proof.
  intros Hu. assert (types_unique (sort_slice (key_less c_type) l)) as Hu'.
  { unfold types_unique. by rewrite sort_slice_perm. }
  destruct (find_condition x l) as [c|] eqn:E.
  - apply find_condition_Some in E as [Hc Ht]. apply find_condition_elem; [done| |done].
    by rewrite sort_slice_elem.
  - destruct (find_condition x (sort_slice _ l)) as [c|] eqn:E'; [|done].
    apply find_condition_Some in E' as [Hc Ht]. rewrite sort_slice_elem in Hc.
    by rewrite (find_condition_elem _ _ c Hu Hc Ht) in E.
Qed.

(** A condition the happy one depends on is not cleared: the error, and the status as it was. *)
Lemma ClearCondition_terminal s t :
  t ∈ happy r :: dependents r →
  ClearCondition r s t = (s, Some "clearing terminal conditions not implemented").
Proof. unfold ClearCondition. by intros ->%isTerminal_spec. Qed.

(** Any other is gone afterwards, nothing else changes and the clock is not read. *)
Lemma ClearCondition_get s t x :
  types_unique (cs_conditions s) → t ∉ happy r :: dependents r →
  (ClearCondition r s t).2 = None ∧
  cs_ticks (ClearCondition r s t).1 = cs_ticks s ∧
  GetCondition (ClearCondition r s t).1 x = if String.eqb x t then None else GetCondition s x.
Proof.
  intros Hu Ht. unfold ClearCondition. destruct (isTerminal r t) eqn:E; [by apply isTerminal_spec in E|].
  destruct (GetCondition s t) as [c|] eqn:Eg; simpl; (split_and!; [done..|]).
  - unfold GetCondition. simpl. rewrite find_condition_sort, find_condition_filter; [done|].
    eapply sublist_NoDup; [exact Hu|]. apply fmap_sublist, sublist_filter.
  - destruct (String.eqb_spec x t) as [->|]; done.
Qed.

(** So the invariant survives in every case. *)
Lemma ClearCondition_inv s t : cond_inv s → cond_inv (ClearCondition r s t).1.
Proof.
  intros Hs. destruct (decide (t ∈ happy r :: dependents r)) as [Ht|Ht]; [by rewrite ClearCondition_terminal|].
  destruct Hs as [[Hu HF] Hh]. unfold ClearCondition.
  destruct (isTerminal r t) eqn:E; [by apply isTerminal_spec in E|].
  destruct (GetCondition s t) as [c|] eqn:Eg; [|done]. exfalso. apply Ht.
  apply find_condition_Some in Eg as [Hc <-]. rewrite Forall_forall in HF. by apply (HF c Hc).
Qed.

Lemma set_plain_status s t st x :
  cond_wf s →
  status_of (SetCondition clock s {| c_type := t; c_status := st; c_severity := SeverityError;
    c_time := 0; c_reason := ""; c_message := "" |}) x =
  if String.eqb x t then Some st else status_of s x.
Proof. intros [Hu _]. by rewrite SetCondition_status. Qed.

Lemma initializeTerminalCondition_spec s st t :
  cond_wf s → t ∈ dependents r →
  cond_wf (initializeTerminalCondition clock st s t) ∧
  ∀ x, status_of (initializeTerminalCondition clock st s t) x =
       if String.eqb x t then Some (default st (status_of s t)) else status_of s x.
Proof.
  intros Hwf Ht. unfold initializeTerminalCondition.
  destruct (GetCondition s t) as [c|] eqn:E.
  - split; [done|]. intros x. destruct (String.eqb_spec x t) as [->|]; [|done].
    unfold status_of. by rewrite E.
  - split; [apply SetCondition_wf; [done|by right|done]|]. intros x.
    rewrite set_plain_status by done. unfold status_of. by rewrite E.
Qed.

Lemma initialize_fold s st ds :
  cond_wf s → ds ⊆ dependents r →
  let s' := foldl (initializeTerminalCondition clock st) s ds in
  cond_wf s' ∧ status_of s' (happy r) = status_of s (happy r) ∧
  (∀ d, d ∈ dependents r → status_of s d = Some ConditionTrue → status_of s' d = Some ConditionTrue) ∧
  (st = ConditionTrue → ∀ d, d ∈ ds → status_of s d = None → status_of s' d = Some ConditionTrue).
Proof.
  revert s. induction ds as [|t ds IH]; intros s Hwf Hsub; simpl.
  { split_and!; [done..|]. intros _ d ?%elem_of_nil. done. }
  assert (t ∈ dependents r) as Ht by set_solver.
  set (s1 := initializeTerminalCondition clock st s t).
  assert (cond_wf s1 ∧ ∀ x, status_of s1 x =
    if String.eqb x t then Some (default st (status_of s t)) else status_of s x)
    as [Hwf1 Hst1] by (by apply initializeTerminalCondition_spec).
  destruct (IH s1 Hwf1 ltac:(set_solver)) as (IH1 & IH2 & IH3 & IH4).
  split_and!; [done| | |].
  - rewrite IH2, Hst1. destruct (String.eqb_spec (happy r) t); [congruence|done].
  - intros d Hd Htr. apply IH3; [done|]. rewrite Hst1.
    destruct (String.eqb_spec d t) as [->|]; [|done]. rewrite Htr. done.
  - intros -> d [->|Hd]%elem_of_cons Hnone.
    + apply IH3; [done|]. rewrite Hst1, String.eqb_refl, Hnone. done.
    + destruct (String.eqb_spec d t) as [->|Hne].
      * apply IH3; [done|]. rewrite Hst1, String.eqb_refl, Hnone. done.
      * apply IH4; [done|done|]. rewrite Hst1. by rewrite (proj2 (String.eqb_neq d t) Hne).
Qed.

Lemma InitializeConditions_inv s : cond_inv s → cond_inv (InitializeConditions clock r s).
Proof.
  intros [Hwf Hs]. unfold InitializeConditions.
  destruct (GetCondition s (happy r)) as [c|] eqn:E.
  - assert (status_of s (happy r) = Some (c_status c)) as Hh by (unfold status_of; by rewrite E).
    set (st := if bool_decide (c_status c = ConditionTrue) then ConditionTrue else ConditionUnknown).
    destruct (initialize_fold s st (dependents r) Hwf ltac:(done)) as (H1 & H2 & H3 & H4).
    split; [done|]. intros Htrue d Hd. rewrite H2 in Htrue. auto.
  - set (s1 := SetCondition _ s _).
    assert (cond_wf s1) as Hwf1 by (apply SetCondition_wf; [done|left|done]).
    assert (status_of s1 (happy r) = Some ConditionUnknown) as Hh.
    { unfold s1. rewrite set_plain_status by done. by rewrite String.eqb_refl. }
    set (st := if bool_decide (ConditionUnknown = ConditionTrue) then ConditionTrue else ConditionUnknown).
    destruct (initialize_fold s1 st (dependents r) Hwf1 ltac:(done)) as (H1 & H2 & _ & _).
    split; [done|]. intros Htrue. rewrite H2, Hh in Htrue. done.
Qed.

Lemma InitializeConditions_keeps_true s d :
  cond_wf s → d ∈ dependents r → status_of s d = Some ConditionTrue →
  status_of (InitializeConditions clock r s) d = Some ConditionTrue.
Proof.
  intros Hwf Hd Ht. unfold InitializeConditions. destruct (GetCondition s (happy r)) as [c|] eqn:E.
  - set (st := if bool_decide (c_status c = ConditionTrue) then ConditionTrue else ConditionUnknown).
    destruct (initialize_fold s st (dependents r) Hwf ltac:(done)) as (_ & _ & H3 & _). by apply H3.
  - set (s1 := SetCondition _ s _).
    assert (cond_wf s1) as Hwf1 by (apply SetCondition_wf; [done|left|done]).
    set (st := if bool_decide (ConditionUnknown = ConditionTrue) then ConditionTrue else ConditionUnknown).
    destruct (initialize_fold s1 st (dependents r) Hwf1 ltac:(done)) as (_ & _ & H3 & _).
    apply H3; [done|]. unfold s1. rewrite set_plain_status by done. by rewrite (dep_ne_happy d Hd).
Qed.

(** ** Conditions that are True already *)

(** The condition is the one [MarkTrue] sets, whenever it was set. *)
Definition plain (s : CondState) (t : string) : Prop :=
  ∃ c, GetCondition s t = Some c ∧ same_but_time c (mk_condition r t ConditionTrue "" "").
Definition all_plain (s : CondState) : Prop := ∀ t, t ∈ happy r :: dependents r → plain s t.

Lemma plain_status s t : plain s t → status_of s t = Some ConditionTrue.
Proof. intros (c & E & Hs). unfold status_of. rewrite E. apply same_but_time_fields in Hs as (_ & Hs & _). simpl in *. by rewrite Hs. Qed.

(** Setting a condition that is there changes nothing. *)
Lemma SetCondition_same s cond c :
  GetCondition s (c_type cond) = Some c → same_but_time c cond → SetCondition clock s cond = s.
Proof.
  unfold GetCondition, SetCondition. intros Hg Hs.
  assert (∀ acc, set_scan cond (cs_conditions s) acc = None) as ->; [|done].
  induction (cs_conditions s) as [|x l IH]; [done|]. intros acc. simpl in *.
  destruct (String.eqb (c_type x) (c_type cond)); [|by apply IH].
  injection Hg as ->. rewrite bool_decide_true; [done|].
  unfold same_but_time, with_time in *. destruct c, cond. simpl in *. by simplify_eq.
Qed.

Lemma set_plain s t : cond_wf s → plain (SetCondition clock s (mk_condition r t ConditionTrue "" "")) t.
Proof.
  intros [Hu _]. destruct (proj1 (SetCondition_get clock s (mk_condition r t ConditionTrue "" "") t Hu) eq_refl)
    as (c & E & Hs). by exists c.
Qed.

Lemma set_plain_other s cond t : cond_wf s → t ≠ c_type cond → plain s t → plain (SetCondition clock s cond) t.
Proof.
  intros [Hu _] Hne (c & E & Hs). exists c. split; [|done].
  by rewrite (proj2 (SetCondition_get clock s cond t Hu) Hne).
Qed.

Lemma recompute_plain_other s t d : cond_wf s → d ∈ dependents r → plain s d → plain (recomputeHappiness clock r s t) d.
Proof.
  intros Hwf Hd Hp. assert (d ≠ happy r) as Hne by by intros ->.
  unfold recomputeHappiness. destruct (findUnhappyDependent r s); [by apply set_plain_other|].
  destruct (String.eqb t (happy r)); [done|by apply set_plain_other].
Qed.

Lemma MarkTrue_plain s t d : cond_wf s → t ∈ dependents r → d ∈ dependents r →
  d = t ∨ plain s d → plain (MarkTrue clock r s t) d.
Proof.
  intros Hwf Ht Hd Hp. unfold MarkTrue.
  apply recompute_plain_other; [apply mk_condition_wf; [done|by right]|done|].
  destruct (decide (d = t)) as [->|Hne]; [by apply set_plain|]. destruct Hp; [done|by apply set_plain_other].
Qed.

Lemma MarkTrue_plain_happy s t : cond_wf s → t ∈ dependents r →
  (∀ d, d ∈ dependents r → d ≠ t → status_of s d = Some ConditionTrue) →
  plain (MarkTrue clock r s t) (happy r).
Proof.
  intros Hwf Ht Hall. unfold MarkTrue, recomputeHappiness. set (s1 := SetCondition _ s _).
  assert (cond_wf s1) as Hwf1 by (apply mk_condition_wf; [done|by right]).
  rewrite findUnhappyDependent_all_true; [|done|].
  - rewrite (dep_ne_happy t Ht). by apply set_plain.
  - intros d Hd. unfold s1. rewrite set_status by done. destruct (String.eqb_spec d t); auto.
Qed.

(** When all are True, nothing is left to do. *)
Lemma MarkTrue_settled s t : cond_wf s → t ∈ dependents r → all_plain s → MarkTrue clock r s t = s.
Proof.
  intros Hwf Ht Hall. unfold MarkTrue.
  destruct (Hall t) as (c & E & Hs); [by right|]. rewrite (SetCondition_same s (mk_condition r t ConditionTrue "" "") c E Hs).
  unfold recomputeHappiness. rewrite findUnhappyDependent_all_true; [|done|].
  - rewrite (dep_ne_happy t Ht). destruct (Hall (happy r)) as (ch & Eh & Hh); [by left|].
    by apply (SetCondition_same s (mk_condition r (happy r) ConditionTrue "" "") ch).
  - intros d Hd. apply plain_status, Hall. by right.
Qed.

Lemma InitializeConditions_settled s : all_plain s → InitializeConditions clock r s = s.
Proof.
  intros Hall. unfold InitializeConditions. destruct (Hall (happy r)) as (c & -> & _); [by left|].
  assert (∀ st ds, ds ⊆ dependents r → foldl (initializeTerminalCondition clock st) s ds = s) as Hf.
  { intros st. induction ds as [|d ds IH]; intros Hsub; simpl; [done|].
    unfold initializeTerminalCondition at 2. destruct (Hall d) as (cd & -> & _); [set_solver|]. apply IH. set_solver. }
  by apply Hf.
Qed.
End Happy.
