(* ===== verification/Ingress.v ===== *)
(** * The KIngress resource (knative.dev/networking/pkg/apis/networking/v1alpha1)

    The resource the controller reconciles: its spec, its status with the lifecycle
    operations of ingress_lifecycle.go, [IsReady], and
    [GetIngressTLSForVisibility].  Visibilities and HTTP options are Go strings and
    stay strings here. *)

From S2P Require Import Prelude Meta Conditions.

Definition HTTPOptionEnabled : string := "Enabled".
Definition HTTPOptionRedirected : string := "Redirected".
Definition IngressVisibilityExternalIP : string := "ExternalIP".
Definition IngressVisibilityClusterLocal : string := "ClusterLocal".

Record IngressTLS := {
  tls_hosts : list string;
  tls_secret_name : string;
  tls_secret_namespace : string
}.
#[export] Instance IngressTLS_eq_dec : EqDecision IngressTLS.
Proof. solve_decision. Defined.

Record HeaderMatch := { hm_exact : string }.
#[export] Instance HeaderMatch_eq_dec : EqDecision HeaderMatch.
Proof. solve_decision. Defined.

Record IngressBackendSplit := {
  sp_service_namespace : string;
  sp_service_name : string;
  sp_service_port : IntOrString;
  sp_percent : Z;
  sp_append_headers : gmap string string
}.
#[export] Instance IngressBackendSplit_eq_dec : EqDecision IngressBackendSplit.
Proof. solve_decision. Defined.

Record HTTPIngressPath := {
  pa_path : string;
  pa_rewrite_host : string;
  pa_headers : gmap string HeaderMatch;
  pa_splits : list IngressBackendSplit;
  pa_append_headers : gmap string string
}.
#[export] Instance HTTPIngressPath_eq_dec : EqDecision HTTPIngressPath.
Proof. solve_decision. Defined.

(** [ru_http] is the pointer [rule.HTTP]; its only field is the list of paths. *)
Record IngressRule := {
  ru_hosts : list string;
  ru_visibility : string;
  ru_http : option (list HTTPIngressPath)
}.
#[export] Instance IngressRule_eq_dec : EqDecision IngressRule.
Proof. solve_decision. Defined.

Record IngressSpec := {
  is_tls : list IngressTLS;
  is_rules : list IngressRule;
  is_http_option : string
}.
#[export] Instance IngressSpec_eq_dec : EqDecision IngressSpec.
Proof. solve_decision. Defined.

Record LoadBalancerIngressStatus := {
  lb_ip : string;
  lb_domain : string;
  lb_domain_internal : string;
  lb_mesh_only : bool
}.
#[export] Instance LoadBalancerIngressStatus_eq_dec : EqDecision LoadBalancerIngressStatus.
Proof. solve_decision. Defined.

Record IngressStatus := {
  st_observed_generation : Z;
  st_conditions : list Condition;
  st_public : option (list LoadBalancerIngressStatus);
  st_private : option (list LoadBalancerIngressStatus)
}.
#[export] Instance IngressStatus_eq_dec : EqDecision IngressStatus.
Proof. solve_decision. Defined.

Record Ingress := {
  ing_meta : ObjectMeta;
  ing_spec : IngressSpec;
  ing_status : IngressStatus
}.
#[export] Instance Ingress_eq_dec : EqDecision Ingress.
Proof. solve_decision. Defined.

Definition ing_name (i : Ingress) : string := om_name (ing_meta i).
Definition ing_namespace (i : Ingress) : string := om_namespace (ing_meta i).
Definition ing_generation (i : Ingress) : Z := om_generation (ing_meta i).
Definition ing_annotations (i : Ingress) : gmap string string := om_annotations (ing_meta i).

Definition with_spec (sp : IngressSpec) (i : Ingress) : Ingress :=
  {| ing_meta := ing_meta i; ing_spec := sp; ing_status := ing_status i |}.
Definition with_status (st : IngressStatus) (i : Ingress) : Ingress :=
  {| ing_meta := ing_meta i; ing_spec := ing_spec i; ing_status := st |}.

(** ** Lifecycle *)

Definition IngressConditionReady : string := "Ready".
Definition IngressConditionNetworkConfigured : string := "NetworkConfigured".
Definition IngressConditionLoadBalancerReady : string := "LoadBalancerReady".

Definition ingressCondSet : ConditionSet :=
  NewLivingConditionSet [IngressConditionNetworkConfigured; IngressConditionLoadBalancerReady].

(** A status together with the number of clock readings so far. *)
Definition StatusState : Type := (IngressStatus * nat).

Definition manage (s : StatusState) (f : CondState → CondState) : StatusState :=
  let '(st, ticks) := s in
  let s' := f {| cs_conditions := st_conditions st; cs_ticks := ticks |} in
  ({| st_observed_generation := st_observed_generation st;
      st_conditions := cs_conditions s';
      st_public := st_public st;
      st_private := st_private st |}, cs_ticks s').

Definition status_condition (st : IngressStatus) (t : string) : option Condition :=
  find_condition t (st_conditions st).

Definition with_observed (g : Z) (st : IngressStatus) : IngressStatus :=
  {| st_observed_generation := g; st_conditions := st_conditions st;
     st_public := st_public st; st_private := st_private st |}.

Section Lifecycle.
Context (clock : nat → Z).

Definition st_InitializeConditions (s : StatusState) : StatusState :=
  manage s (InitializeConditions clock ingressCondSet).

Definition MarkNetworkConfigured (s : StatusState) : StatusState :=
  manage s (λ c, MarkTrue clock ingressCondSet c IngressConditionNetworkConfigured).

Definition MarkResourceNotOwned (kind name : string) (s : StatusState) : StatusState :=
  manage s (λ c, MarkFalse clock ingressCondSet c IngressConditionNetworkConfigured "NotOwned"
    ("There is an existing " +:+ kind +:+ " " +:+ name +:+ " that we do not own.")).

Definition MarkLoadBalancerReady (publicLbs privateLbs : list LoadBalancerIngressStatus)
    (s : StatusState) : StatusState :=
  let '(st, ticks) := s in
  manage ({| st_observed_generation := st_observed_generation st;
             st_conditions := st_conditions st;
             st_public := Some publicLbs;
             st_private := Some privateLbs |}, ticks)
    (λ c, MarkTrue clock ingressCondSet c IngressConditionLoadBalancerReady).

Definition MarkLoadBalancerNotReady (s : StatusState) : StatusState :=
  manage s (λ c, MarkUnknown clock ingressCondSet c IngressConditionLoadBalancerReady
    "Uninitialized" "Waiting for load balancer to be ready").

Definition MarkLoadBalancerFailed (reason message : string) (s : StatusState) : StatusState :=
  manage s (λ c, MarkFalse clock ingressCondSet c IngressConditionLoadBalancerReady reason message).

Definition MarkIngressNotReady (reason message : string) (s : StatusState) : StatusState :=
  manage s (λ c, MarkUnknown clock ingressCondSet c IngressConditionReady reason message).

(** Every way the status of an Ingress changes. *)
Inductive status_step : StatusState → StatusState → Prop :=
  | step_initialize s : status_step s (st_InitializeConditions s)
  | step_network s : status_step s (MarkNetworkConfigured s)
  | step_not_owned kind name s : status_step s (MarkResourceNotOwned kind name s)
  | step_lb_ready pub priv s : status_step s (MarkLoadBalancerReady pub priv s)
  | step_lb_not_ready s : status_step s (MarkLoadBalancerNotReady s)
  | step_lb_failed reason message s : status_step s (MarkLoadBalancerFailed reason message s)
  | step_not_ready reason message s : status_step s (MarkIngressNotReady reason message s)
  | step_observe g st ticks : status_step (st, ticks) (with_observed g st, ticks).
End Lifecycle.

Definition IsReady (i : Ingress) : bool :=
  bool_decide (st_observed_generation (ing_status i) = ing_generation i) &&
  IsTrue (status_condition (ing_status i) IngressConditionReady).

(** ** Certificates for a visibility *)

Definition contains_all_hosts (tls : IngressTLS) (hosts : list string) : bool :=
  forallb (λ h, existsb (String.eqb h) (tls_hosts tls)) hosts.

Fixpoint tls_for_rules (tls : list IngressTLS) (visibility : string)
    (rules : list IngressRule) (acc : list IngressTLS) : list IngressTLS :=
  match rules with
  | [] => acc
  | rule :: rules =>
      if String.eqb (ru_visibility rule) visibility then
        match ru_hosts rule with
        | [] => acc   (* the early return on a rule without hosts *)
        | hosts =>
            tls_for_rules tls visibility rules
              (acc ++ filter (λ t, contains_all_hosts t hosts = true) tls)
        end
      else tls_for_rules tls visibility rules acc
  end.

Definition GetIngressTLSForVisibility (i : Ingress) (visibility : string) : list IngressTLS :=
  match is_tls (ing_spec i) with
  | [] => []
  | tls => tls_for_rules tls visibility (is_rules (ing_spec i)) []
  end.

(** ** Facts about the lifecycle *)

Definition st_state (s : StatusState) : CondState :=
  {| cs_conditions := st_conditions s.1; cs_ticks := s.2 |}.

(** Well formed, and Ready only when both dependents are True. *)
Definition status_inv (s : StatusState) : Prop := cond_inv ingressCondSet (st_state s).

Lemma manage_state s f : st_state (manage s f) = f (st_state s).
Proof. destruct s as [st t]. unfold manage, st_state. simpl. by destruct (f _). Qed.

Lemma ing_happy_not_dep : happy ingressCondSet ∉ dependents ingressCondSet.
Proof. vm_compute. set_solver. Qed.
Lemma ing_deps_NoDup : NoDup (dependents ingressCondSet).
Proof. vm_compute. repeat constructor; set_solver. Qed.
Lemma ing_deps_nonempty : dependents ingressCondSet ≠ [].
Proof. done. Qed.
#[export] Hint Resolve ing_happy_not_dep ing_deps_NoDup ing_deps_nonempty : golib.

Lemma network_dep : IngressConditionNetworkConfigured ∈ dependents ingressCondSet.
Proof. left. Qed.
Lemma lb_dep : IngressConditionLoadBalancerReady ∈ dependents ingressCondSet.
Proof. right. left. Qed.
Lemma ready_type : IngressConditionReady ∈ happy ingressCondSet :: dependents ingressCondSet.
Proof. left. Qed.
Lemma network_type :
  IngressConditionNetworkConfigured ∈ happy ingressCondSet :: dependents ingressCondSet.
Proof. right. left. Qed.
Lemma lb_type :
  IngressConditionLoadBalancerReady ∈ happy ingressCondSet :: dependents ingressCondSet.
Proof. right. right. left. Qed.
#[export] Hint Resolve network_dep lb_dep ready_type network_type lb_type : golib.
#[export] Hint Constructors status_step : golib.

Lemma empty_status_inv ticks g pub priv :
  status_inv ({| st_observed_generation := g; st_conditions := []; st_public := pub;
                 st_private := priv |}, ticks).
Proof. split; [split|]; [constructor|constructor|done]. Qed.

Section LifecycleFacts.
Context (clock : nat → Z).

Lemma lb_ready_state pub priv s :
  st_state (MarkLoadBalancerReady clock pub priv s) =
  MarkTrue clock ingressCondSet (st_state s) IngressConditionLoadBalancerReady.
Proof. destruct s. unfold MarkLoadBalancerReady. by rewrite manage_state. Qed.

Lemma status_step_inv s s' : status_step clock s s' → status_inv s → status_inv s'.
Proof.
  unfold status_inv. destruct 1; intros Hinv;
    rewrite ?lb_ready_state; unfold st_InitializeConditions, MarkNetworkConfigured,
    MarkResourceNotOwned, MarkLoadBalancerNotReady, MarkLoadBalancerFailed, MarkIngressNotReady;
    rewrite ?manage_state.
  all: auto using InitializeConditions_inv, MarkTrue_inv, MarkFalse_inv, MarkUnknown_inv with golib.
Qed.

Lemma status_steps_inv s s' : rtc (status_step clock) s s' → status_inv s → status_inv s'.
Proof. induction 1; eauto using status_step_inv. Qed.

Lemma status_of_condition s t :
  status_of (st_state s) t = c_status <$> status_condition s.1 t.
Proof. done. Qed.

(** Ready in the status means both dependents are True. *)
Lemma ready_means_configured s :
  status_inv s → IsTrue (status_condition s.1 IngressConditionReady) = true →
  IsTrue (status_condition s.1 IngressConditionNetworkConfigured) = true ∧
  IsTrue (status_condition s.1 IngressConditionLoadBalancerReady) = true.
Proof.
  intros [_ Hs] Hr. apply (IsTrue_status (st_state s)) in Hr.
  split; apply (IsTrue_status (st_state s)); apply Hs; auto with golib.
Qed.

(** However the status of an Ingress is changed by its lifecycle operations, in
    any order and at any times, Ready is True only while both the network is
    configured and the load balancer is ready, and no condition type occurs twice. *)
Theorem lifecycle_ready ticks s :
  rtc (status_step clock)
    ({| st_observed_generation := 0; st_conditions := []; st_public := None; st_private := None |}, ticks)
    s →
  NoDup (c_type <$> st_conditions s.1) ∧
  (IsTrue (status_condition s.1 IngressConditionReady) = true →
   IsTrue (status_condition s.1 IngressConditionNetworkConfigured) = true ∧
   IsTrue (status_condition s.1 IngressConditionLoadBalancerReady) = true).
Proof.
  intros Hsteps. assert (status_inv s) as Hinv.
  { eapply status_steps_inv; [exact Hsteps|]. apply empty_status_inv. }
  split; [apply Hinv|]. by apply ready_means_configured.
Qed.
End LifecycleFacts.

Lemma lifecycle_ready_witness :
  ∃ s : StatusState, IsTrue (status_condition s.1 IngressConditionReady) = true ∧
    IsTrue (status_condition s.1 IngressConditionNetworkConfigured) = true.
Proof.
  set (s0 := ({| st_observed_generation := 0; st_conditions := []; st_public := None;
                 st_private := None |}, 0)).
  set (s1 := MarkNetworkConfigured (λ n, Z.of_nat n) s0).
  set (s2 := MarkLoadBalancerReady (λ n, Z.of_nat n) [] [] s1).
  exists s2. assert (IsTrue (status_condition s2.1 IngressConditionReady) = true) as Hr
    by (vm_compute; reflexivity).
  split; [exact Hr|]. apply (lifecycle_ready (λ n, Z.of_nat n) 0 s2); [|exact Hr].
  eapply rtc_l; [apply step_network|]. apply rtc_once, step_lb_ready.
Defined.
