(* ===== verification/NetIngress.v ===== *)
(** * Hosts, hashes and probes of a KIngress (knative.dev/networking/pkg/ingress)

    [ComputeHash] (SHA-256 of the JSON of the spec, the namespace and the name),
    [InsertProbe], [ExpandedHosts], [HostsPerVisibility].  Theorems: what the
    expanded hosts are, that expansion and the grouping by visibility do not depend
    on map order, and that [InsertProbe] doubles every rule's paths. *)

From S2P Require Import Prelude Hash Meta Conditions Ingress.

(** ** JSON ([encoding/json])

    Strings are taken to be valid UTF-8, as everything decoded from the API server
    is; an empty list stands for the nil slice, so a list without [omitempty]
    encodes as [null]. *)

Definition dquote : string := String (ascii_of_nat 34) "".
Definition backslash : string := String (ascii_of_nat 92) "".

Definition json_u (hex : string) : string := backslash +:+ "u" +:+ hex.

Definition json_char (c : ascii) : string :=
  let n := N_of_ascii c in
  if (n =? 34)%N then backslash +:+ dquote
  else if (n =? 92)%N then backslash +:+ backslash
  else if (n =? 8)%N then backslash +:+ "b"
  else if (n =? 12)%N then backslash +:+ "f"
  else if (n =? 10)%N then backslash +:+ "n"
  else if (n =? 13)%N then backslash +:+ "r"
  else if (n =? 9)%N then backslash +:+ "t"
  else if (n <? 32)%N || (n =? 60)%N || (n =? 62)%N || (n =? 38)%N
       then json_u ("00" +:+ hex_encode [Z.of_N n])
  else String c "".

(** U+2028 and U+2029 (E2 80 A8, E2 80 A9) are escaped too. *)
Fixpoint json_body (s : string) : string :=
  match s with
  | "" => ""
  | String a r =>
      match r with
      | String b (String c r') =>
          if ((N_of_ascii a =? 226) && (N_of_ascii b =? 128) && (N_of_ascii c =? 168))%N
          then json_u "2028" +:+ json_body r'
          else if ((N_of_ascii a =? 226) && (N_of_ascii b =? 128) && (N_of_ascii c =? 169))%N
          then json_u "2029" +:+ json_body r'
          else json_char a +:+ json_body r
      | _ => json_char a +:+ json_body r
      end
  end.

Definition json_string (s : string) : string := dquote +:+ json_body s +:+ dquote.

(** An object from its fields, [None] for one left out by [omitempty]. *)
Definition json_object (fields : list (option (string * string))) : string :=
  "{" +:+ Join ((λ f, json_string f.1 +:+ ":" +:+ f.2) <$> omap id fields) "," +:+ "}".

Definition json_list (l : list string) : string := "[" +:+ Join l "," +:+ "]".

Definition omit_str (name s : string) : option (string * string) :=
  if String.eqb s "" then None else Some (name, json_string s).
Definition omit_list (name : string) (l : list string) : option (string * string) :=
  match l with [] => None | _ => Some (name, json_list l) end.
Definition nil_list (l : list string) : string :=
  match l with [] => "null" | _ => json_list l end.

(** Maps encode with their keys sorted. *)
Definition json_map {V} (enc : V → string) (m : gmap string V) : string :=
  json_object ((λ kv, Some (kv.1, enc kv.2)) <$> sort_slice (key_less fst) (map_to_list m)).
Definition omit_map {V} (name : string) (enc : V → string) (m : gmap string V)
    : option (string * string) :=
  if bool_decide (size m = 0) then None else Some (name, json_map enc m).

Definition json_port (p : IntOrString) : string :=
  match p with FromInt i => FormatInt i | FromString s => json_string s end.

Definition json_split (s : IngressBackendSplit) : string := json_object
  [Some ("serviceNamespace", json_string (sp_service_namespace s));
   Some ("serviceName", json_string (sp_service_name s));
   Some ("servicePort", json_port (sp_service_port s));
   (if (sp_percent s =? 0)%Z then None else Some ("percent", FormatInt (sp_percent s)));
   omit_map "appendHeaders" json_string (sp_append_headers s)].

Definition json_path (p : HTTPIngressPath) : string := json_object
  [omit_str "path" (pa_path p);
   omit_str "rewriteHost" (pa_rewrite_host p);
   omit_map "headers" (λ h, json_object [Some ("exact", json_string (hm_exact h))]) (pa_headers p);
   Some ("splits", nil_list (json_split <$> pa_splits p));
   omit_map "appendHeaders" json_string (pa_append_headers p)].

Definition json_rule (r : IngressRule) : string := json_object
  [omit_list "hosts" (json_string <$> ru_hosts r);
   omit_str "visibility" (ru_visibility r);
   match ru_http r with
   | None => None
   | Some paths => Some ("http", json_object [Some ("paths", nil_list (json_path <$> paths))])
   end].

Definition json_tls (t : IngressTLS) : string := json_object
  [omit_list "hosts" (json_string <$> tls_hosts t);
   omit_str "secretName" (tls_secret_name t);
   omit_str "secretNamespace" (tls_secret_namespace t)].

Definition json_spec (sp : IngressSpec) : string := json_object
  [omit_list "tls" (json_tls <$> is_tls sp);
   omit_list "rules" (json_rule <$> is_rules sp);
   omit_str "httpOption" (is_http_option sp)].

(** [hex.EncodeToString] of [ComputeHash]; marshalling a spec cannot fail. *)
Definition ComputeHash (i : Ingress) : string :=
  sha256_hex (json_spec (ing_spec i) +:+ ing_namespace i +:+ ing_name i).

(** ** Probes *)

Definition HashKey : string := "K-Network-Hash".
Definition HashValueOverride : string := "override".
Definition OriginalHostKey : string := "K-Original-Host".

(** The copy of a path that answers probes. *)
Definition probe_path (hash : string) (p : HTTPIngressPath) : HTTPIngressPath := {|
  pa_path := pa_path p;
  pa_rewrite_host := pa_rewrite_host p;
  pa_headers := <[HashKey := {| hm_exact := HashValueOverride |}]> (pa_headers p);
  pa_splits := pa_splits p;
  pa_append_headers := <[HashKey := hash]> (pa_append_headers p)
|}.

Definition with_http (paths : list HTTPIngressPath) (r : IngressRule) : IngressRule :=
  {| ru_hosts := ru_hosts r; ru_visibility := ru_visibility r; ru_http := Some paths |}.

(** The loop of [InsertProbe]: it changes the rules in place and stops at the first
    one without an HTTP block. *)
Fixpoint insert_probe_rules (hash : string) (rules : list IngressRule)
    : list IngressRule * option goerr :=
  match rules with
  | [] => ([], None)
  | rule :: rules =>
      match ru_http rule with
      | None => (rule :: rules, Some (Errorf "rule is missing HTTP block: %+v" (ru_hosts rule)))
      | Some paths =>
          let '(rules', err) := insert_probe_rules hash rules in
          (with_http ((probe_path hash <$> paths) ++ paths) rule :: rules', err)
      end
  end.

(** The Ingress as [InsertProbe] leaves it, and what it returns. *)
Definition InsertProbe (i : Ingress) : Ingress * outcome string :=
  let hash := ComputeHash i in
  let '(rules, err) := insert_probe_rules hash (is_rules (ing_spec i)) in
  (with_spec {| is_tls := is_tls (ing_spec i); is_rules := rules;
                is_http_option := is_http_option (ing_spec i) |} i,
   match err with Some e => Fail e | None => Ret hash end).

(** ** Hosts *)

Definition isValidTopLevelDomain (domain : string) : bool :=
  let tld := List.last (Split domain "."%char) "" in
  if 63 <? slen tld then false
  else existsb (λ c, (c =? 45)%Z || (57 <? c)%Z) (string_bytes tld).

Definition allowedSuffixes (env : Env) : list string :=
  [""; "." +:+ env_cluster_domain env; ".svc." +:+ env_cluster_domain env].

Definition expand_host (env : Env) (h : string) : list string :=
  allowedSuffixes env ≫= λ suffix,
    let th := TrimSuffix h suffix in
    if (String.eqb suffix "" || (slen th <? slen h)) && isValidTopLevelDomain th
    then [th] else [].

Definition ExpandedHosts (env : Env) (hosts : gset string) : gset string :=
  list_to_set (sets_List hosts ≫= expand_host env).

Section HostsPerVisibility.
Context `{MapOrder} (env : Env).

Definition add_host_to_keys (keys : gset string) (out : gmap string (gset string)) (host : string)
    : gmap string (gset string) :=
  foldl (λ out key,
    match out !! key with
    | None => <[key := {[host]}]> out
    | Some s => <[key := {[host]} ∪ s]> out
    end) out (range_set keys).

Definition add_rule_hosts (visibilityToKey : gmap string (gset string))
    (out : gmap string (gset string)) (rule : IngressRule) : gmap string (gset string) :=
  foldl (add_host_to_keys (default ∅ (visibilityToKey !! ru_visibility rule))) out
    (range_set (ExpandedHosts env (list_to_set (ru_hosts rule)))).

Definition HostsPerVisibility (i : Ingress) (visibilityToKey : gmap string (gset string))
    : gmap string (gset string) :=
  foldl (add_rule_hosts visibilityToKey) ∅ (is_rules (ing_spec i)).
End HostsPerVisibility.

(** ** Facts about hosts *)

Lemma elem_of_expand_host env h th :
  th ∈ expand_host env h ↔
  isValidTopLevelDomain th = true ∧ ∃ suffix, suffix ∈ allowedSuffixes env ∧ h = th +:+ suffix.
Proof.
  unfold expand_host. rewrite list_elem_of_bind. split.
  - intros (suffix & Hth & Hs). destruct (_ && _) eqn:E; [|by apply elem_of_nil in Hth].
    apply list_elem_of_singleton in Hth as ->. apply andb_true_iff in E as [E Hv].
    split; [done|]. exists suffix. split; [done|].
    apply orb_true_iff in E as [E|E].
    + apply String.eqb_eq in E as ->. rewrite <-(app_empty_r h) at 2.
      by rewrite TrimSuffix_app, app_empty_r.
    + apply Nat.ltb_lt in E. unfold TrimSuffix in *. destruct (HasSuffix h suffix) eqn:Hsuf; [|lia].
      apply HasSuffix_spec in Hsuf as [p ->]. rewrite slen_app.
      replace (slen p + slen suffix - slen suffix) with (slen p) by lia. by rewrite stake_app.
  - intros (Hv & suffix & Hs & ->). exists suffix. split; [|done].
    rewrite TrimSuffix_app, Hv, andb_true_r, slen_app.
    assert (String.eqb suffix "" || (slen th <? slen th + slen suffix) = true) as ->; [|left].
    destruct suffix; [done|]. rewrite slen_cons. apply Nat.ltb_lt. lia.
Qed.

(** Exactly the hosts and their short names, when they have a valid top level. *)
Lemma elem_of_ExpandedHosts env hosts th :
  th ∈ ExpandedHosts env hosts ↔
  isValidTopLevelDomain th = true ∧
  ∃ h suffix, h ∈ hosts ∧ suffix ∈ allowedSuffixes env ∧ h = th +:+ suffix.
Proof.
  unfold ExpandedHosts. rewrite elem_of_list_to_set, list_elem_of_bind.
  setoid_rewrite elem_of_expand_host. setoid_rewrite elem_of_sets_List. naive_solver.
Qed.

Section HostsFacts.
Context `{MapOrder} (env : Env).
Implicit Types out : gmap string (gset string).

(** [host] is recorded under [key]. *)
Definition recorded out (key host : string) : Prop := ∃ s, out !! key = Some s ∧ host ∈ s.

Lemma recorded_insert out k s key h :
  recorded (<[k := s]> out) key h ↔ (key = k ∧ h ∈ s) ∨ (key ≠ k ∧ recorded out key h).
Proof.
  unfold recorded. destruct (decide (key = k)) as [->|Hne].
  - rewrite lookup_insert_eq. naive_solver.
  - rewrite lookup_insert_ne by done. naive_solver.
Qed.

Lemma add_host_to_keys_spec keys out host key h :
  recorded (add_host_to_keys keys out host) key h ↔
  recorded out key h ∨ (key ∈ keys ∧ h = host).
Proof.
  unfold add_host_to_keys. rewrite <-(elem_of_range_set keys key).
  generalize (range_set keys) as ks. intros ks. revert out.
  induction ks as [|k ks IH]; intros out; simpl.
  { rewrite elem_of_nil. naive_solver. }
  rewrite IH, elem_of_cons.
  assert (recorded (match out !! k with
            | None => <[k := {[host]}]> out
            | Some s => <[k := {[host]} ∪ s]> out end) key h ↔
          recorded out key h ∨ (key = k ∧ h = host)) as ->; [|naive_solver].
  destruct (out !! k) as [s|] eqn:E; rewrite recorded_insert.
  - assert (key = k → (recorded out key h ↔ h ∈ s)) as Hk.
    { intros ->. unfold recorded. rewrite E. naive_solver. }
    rewrite elem_of_union, elem_of_singleton. destruct (decide (key = k)); tauto.
  - assert (key = k → ¬ recorded out key h) as Hk.
    { intros -> (s & Hs & _). congruence. }
    rewrite elem_of_singleton. destruct (decide (key = k)); tauto.
Qed.

Lemma add_rule_hosts_spec vk out rule key h :
  recorded (add_rule_hosts env vk out rule) key h ↔
  recorded out key h ∨
  (h ∈ ExpandedHosts env (list_to_set (ru_hosts rule)) ∧
   key ∈ default ∅ (vk !! ru_visibility rule)).
Proof.
  unfold add_rule_hosts.
  rewrite <-(elem_of_range_set (ExpandedHosts env (list_to_set (ru_hosts rule))) h).
  generalize (range_set (ExpandedHosts env (list_to_set (ru_hosts rule)))) as hs. intros hs.
  revert out. induction hs as [|x hs IH]; intros out; simpl.
  { rewrite elem_of_nil. naive_solver. }
  rewrite IH, elem_of_cons, add_host_to_keys_spec. naive_solver.
Qed.

Lemma HostsPerVisibility_recorded i vk key h :
  recorded (HostsPerVisibility env i vk) key h ↔
  ∃ rule, rule ∈ is_rules (ing_spec i) ∧
    h ∈ ExpandedHosts env (list_to_set (ru_hosts rule)) ∧
    key ∈ default ∅ (vk !! ru_visibility rule).
Proof.
  unfold HostsPerVisibility.
  assert (∀ rules out, recorded (foldl (add_rule_hosts env vk) out rules) key h ↔
    recorded out key h ∨ ∃ rule, rule ∈ rules ∧
      h ∈ ExpandedHosts env (list_to_set (ru_hosts rule)) ∧
      key ∈ default ∅ (vk !! ru_visibility rule)) as Hgen.
  { induction rules as [|r rules IH]; intros out; simpl.
    { setoid_rewrite elem_of_nil. naive_solver. }
    rewrite IH, add_rule_hosts_spec. setoid_rewrite elem_of_cons. naive_solver. }
  rewrite Hgen. unfold recorded at 1. setoid_rewrite lookup_empty. naive_solver.
Qed.

(** No key is recorded with an empty set of hosts. *)
Lemma HostsPerVisibility_nonempty i vk key s :
  HostsPerVisibility env i vk !! key = Some s → s ≠ ∅.
Proof.
  set (ok := λ out, ∀ key s, out !! key = Some s → s ≠ (∅ : gset string)).
  assert (∀ host ks out, ok out → ok (foldl (λ out key,
    match out !! key with
    | None => <[key := {[host]}]> out
    | Some s => <[key := {[host]} ∪ s]> out
    end) out ks)) as H1.
  { intros host ks. induction ks as [|k ks IH]; intros out Hok; simpl; [done|]. apply IH.
    intros key' s'. destruct (out !! k); rewrite lookup_insert_Some;
      intros [[_ <-]|[_ Hs]]; [|by eapply Hok| |by eapply Hok]; set_solver. }
  assert (∀ keys hs out, ok out → ok (foldl (add_host_to_keys keys) out hs)) as H2.
  { intros keys hs. induction hs as [|x hs IH]; intros out Hok; simpl; [done|].
    apply IH. by apply H1. }
  assert (∀ rules out, ok out → ok (foldl (add_rule_hosts env vk) out rules)) as H3.
  { intros rules. induction rules as [|x rules IH]; intros out Hok; simpl; [done|].
    apply IH. by apply H2. }
  apply (H3 (is_rules (ing_spec i)) ∅). intros k s' Hk. by rewrite lookup_empty in Hk.
Qed.
End HostsFacts.

(** The grouping is the same map for every two iteration orders. *)
Lemma HostsPerVisibility_order (o1 o2 : MapOrder) env i vk :
  @HostsPerVisibility o1 env i vk = @HostsPerVisibility o2 env i vk.
Proof.
  assert (∀ oa ob key s, @HostsPerVisibility oa env i vk !! key = Some s →
    @HostsPerVisibility ob env i vk !! key = Some s) as Hle.
  { intros oa ob key s Hs.
    pose proof (@HostsPerVisibility_nonempty oa env i vk key s Hs) as Hne.
    apply set_choose_L in Hne as [h Hh].
    assert (recorded (@HostsPerVisibility ob env i vk) key h) as (s' & Hs' & _).
    { apply HostsPerVisibility_recorded.
      apply (@HostsPerVisibility_recorded oa). by exists s. }
    rewrite Hs'. f_equal. apply set_eq. intros x.
    pose proof (@HostsPerVisibility_recorded oa env i vk key x) as Ha.
    pose proof (@HostsPerVisibility_recorded ob env i vk key x) as Hb.
    unfold recorded in *. rewrite Hs in Ha. rewrite Hs' in Hb. naive_solver. }
  apply map_eq. intros key.
  destruct (@HostsPerVisibility o1 env i vk !! key) as [s|] eqn:E1.
  { symmetry. by apply (Hle o1 o2). }
  destruct (@HostsPerVisibility o2 env i vk !! key) as [s|] eqn:E2; [|done].
  apply (Hle o2 o1) in E2. congruence.
Qed.

(** The hosts to probe behind an envoy Service are exactly the expansions of the
    hosts of the rules whose visibility that Service serves, in whatever order Go
    ranges over the sets and maps involved. *)
Theorem HostsPerVisibility_spec (o1 o2 : MapOrder) env i vk key h :
  @HostsPerVisibility o1 env i vk = @HostsPerVisibility o2 env i vk ∧
  ((∃ s, @HostsPerVisibility o1 env i vk !! key = Some s ∧ h ∈ s) ↔
   ∃ rule, rule ∈ is_rules (ing_spec i) ∧
     h ∈ ExpandedHosts env (list_to_set (ru_hosts rule)) ∧
     key ∈ default ∅ (vk !! ru_visibility rule)).
Proof. split; [apply HostsPerVisibility_order|apply (@HostsPerVisibility_recorded o1)]. Qed.

(** ** Facts about probes *)

(** With an HTTP block in every rule, [InsertProbe] succeeds and every rule holds its
    probe paths followed by its own paths. *)
Lemma insert_probe_rules_ok hash rules :
  Forall (λ r, is_Some (ru_http r)) rules →
  insert_probe_rules hash rules =
    ((λ r, with_http ((probe_path hash <$> default [] (ru_http r)) ++ default [] (ru_http r)) r)
       <$> rules, None).
Proof.
  induction 1 as [|r rules [paths Hr] _ IH]; simpl; [done|]. by rewrite Hr, IH.
Qed.
