(* ===== verification/Duration.v ===== *)
(** * [time.ParseDuration]

    The duration syntax of Go's standard library, which the timeout settings of
    config-contour must follow: an optional sign, then numbers with optional
    fractions, each with a unit, the sum kept in 64 bits.  The fraction is scaled in
    IEEE binary64, as in Go.  The loop takes fuel; [parse_loop_enough] shows that one
    more round than the input has bytes is enough. *)

From S2P Require Import Prelude Meta.
From Stdlib Require Import SpecFloat.
Local Open Scope Z_scope.

Definition two63 : Z := 2 ^ 63.

(** ** binary64 *)

Definition f64_of_Z (z : Z) : spec_float := binary_normalize 53 1024 z 0 false.
Definition f64_mul : spec_float → spec_float → spec_float := SFmul 53 1024.
Definition f64_div : spec_float → spec_float → spec_float := SFdiv 53 1024.

(** [uint64(x)] of a non-negative number in range: truncation. *)
Definition f64_trunc (x : spec_float) : Z :=
  match x with
  | S754_finite false m e =>
      if 0 <=? e then Z.pos m * 2 ^ e else Z.pos m / 2 ^ (- e)
  | _ => 0
  end.

(** ** Leading digits *)

Fixpoint leadingInt (x : Z) (s : string) : option (Z * string) :=
  match s with
  | "" => Some (x, "")
  | String c r =>
      match digit_value c with
      | None => Some (x, s)
      | Some d =>
          if two63 / 10 <? x then None
          else if two63 <? x * 10 + d then None
          else leadingInt (x * 10 + d) r
      end
  end.

Fixpoint leadingFraction (x : Z) (scale : spec_float) (overflow : bool) (s : string)
  : Z * spec_float * string :=
  match s with
  | "" => (x, scale, "")
  | String c r =>
      match digit_value c with
      | None => (x, scale, s)
      | Some d =>
          if overflow then leadingFraction x scale true r
          else if (two63 - 1) / 10 <? x then leadingFraction x scale true r
          else if two63 <? x * 10 + d then leadingFraction x scale true r
          else leadingFraction (x * 10 + d) (f64_mul scale (f64_of_Z 10)) false r
      end
  end.

(** The unit runs up to the next digit or dot. *)
Fixpoint span_unit (s : string) : string * string :=
  match s with
  | "" => ("", "")
  | String c r =>
      if Ascii.eqb c "." || is_digit c then ("", s)
      else let '(u, rest) := span_unit r in (String c u, rest)
  end.

(** The micro sign (C2 B5) and the Greek mu (CE BC), in UTF-8. *)
Definition micro_sign : string := String (ascii_of_nat 194) (String (ascii_of_nat 181) "").
Definition greek_mu : string := String (ascii_of_nat 206) (String (ascii_of_nat 188) "").

Definition unitMap : gmap string Z := list_to_map
  [("ns", 1); ("us", 1000); (micro_sign +:+ "s", 1000); (greek_mu +:+ "s", 1000);
   ("ms", 1000000); ("s", 1000000000); ("m", 60000000000); ("h", 3600000000000)].

(** ** The loop *)

Definition invalid_duration (orig : string) : goerr := Errorf "time: invalid duration %q" [orig].

(** The optional fraction: its digits, their scale, the rest, and whether it has
    digits. *)
Definition fraction_part (s1 : string) : Z * spec_float * string * bool :=
  match s1 with
  | String "." r =>
      let '(f, scale, s2) := leadingFraction 0 (f64_of_Z 1) false r in
      (f, scale, s2, negb (slen r =? slen s2)%nat)
  | _ => (0, f64_of_Z 1, s1, false)
  end.

(** One number and its unit: its value in nanoseconds and the rest of the input. *)
Definition parse_term (orig s : string) : outcome (Z * string) :=
  match s with
  | "" => Fail (invalid_duration orig)
  | String c _ =>
      if Ascii.eqb c "." || is_digit c then
        match leadingInt 0 s with
        | None => Fail (invalid_duration orig)
        | Some (v, s1) =>
            let pre := negb (slen s =? slen s1)%nat in
            let '(f, scale, s2, post) := fraction_part s1 in
            if pre || post then
              let '(u, s3) := span_unit s2 in
              if String.eqb u "" then Fail (Errorf "time: missing unit in duration %q" [orig])
              else
                match unitMap !! u with
                | None => Fail (Errorf "time: unknown unit %q in duration %q" [u; orig])
                | Some unit =>
                    if two63 / unit <? v then Fail (invalid_duration orig)
                    else
                      let v := v * unit in
                      if 0 <? f then
                        let v := v + f64_trunc (f64_mul (f64_of_Z f)
                                                  (f64_div (f64_of_Z unit) scale)) in
                        if two63 <? v then Fail (invalid_duration orig) else Ret (v, s3)
                      else Ret (v, s3)
                end
            else Fail (invalid_duration orig)
        end
      else Fail (invalid_duration orig)
  end.

Fixpoint parse_loop (fuel : nat) (orig : string) (d : Z) (s : string) : outcome Z :=
  match fuel with
  | O => Panic "out of fuel"
  | S fuel =>
      if String.eqb s "" then Ret d
      else
        '(v, rest) ← parse_term orig s;
        if two63 <? d + v then Fail (invalid_duration orig)
        else parse_loop fuel orig (d + v) rest
  end.

Definition ParseDuration (orig : string) : outcome Z :=
  let '(neg, s) :=
    match orig with
    | String "-" r => (true, r)
    | String "+" r => (false, r)
    | _ => (false, orig)
    end%char in
  if String.eqb s "0" then Ret 0
  else if String.eqb s "" then Fail (invalid_duration orig)
  else
    d ← parse_loop (S (slen s)) orig 0 s;
    if neg then Ret (- d)
    else if two63 - 1 <? d then Fail (invalid_duration orig)
    else Ret d.

(** ** The loop terminates within its fuel *)

Lemma leadingInt_length x s v r : leadingInt x s = Some (v, r) → (slen r ≤ slen s)%nat.
Proof.
  revert x. induction s as [|c s IH]; intros x; cbn [leadingInt].
  { by intros [= _ <-]. }
  rewrite slen_cons. destruct (digit_value c); [|by intros [= _ <-]].
  repeat (case_match; [done|]). intros Hr%IH. lia.
Qed.

Lemma leadingFraction_length x scale o s : (slen (leadingFraction x scale o s).2 ≤ slen s)%nat.
Proof.
  revert x scale o. induction s as [|c s IH]; intros x scale o; cbn [leadingFraction]; [done|].
  rewrite slen_cons. destruct (digit_value c); [|done].
  repeat case_match; (etrans; [apply IH|lia]).
Qed.

Lemma fraction_part_length s : (slen (fraction_part s).1.2 ≤ slen s)%nat.
Proof.
  unfold fraction_part. destruct s as [|c r]; [done|].
  repeat (case_match; try done). subst. rewrite slen_cons.
  match goal with E : leadingFraction ?a ?b ?c ?d = _ |- _ =>
    pose proof (leadingFraction_length a b c d) as Hl; rewrite E in Hl end.
  simpl in *. lia.
Qed.

Lemma span_unit_length s : s = (span_unit s).1 +:+ (span_unit s).2.
Proof.
  induction s as [|c s IH]; cbn [span_unit]; [done|]. case_match; [done|].
  destruct (span_unit s) as [u rest]. cbn [fst snd] in *. by rewrite app_str_cons, <-IH.
Qed.

Lemma parse_term_consumes orig s v rest :
  parse_term orig s = Ret (v, rest) → (slen rest < slen s)%nat.
Proof.
  unfold parse_term. destruct s as [|c s0] eqn:Es; [done|]. rewrite <-Es. clear Es.
  case_match; [|done]. destruct (leadingInt 0 s) as [[v1 s1]|] eqn:E1; [|done].
  apply leadingInt_length in E1.
  pose proof (fraction_part_length s1) as Hf.
  destruct (fraction_part s1) as [[[f scale] s2] post]. simpl in Hf.
  case_match; [|done]. pose proof (span_unit_length s2) as Hu.
  destruct (span_unit s2) as [u s3]. simpl in Hu.
  destruct (String.eqb_spec u "") as [|Hne]; [done|].
  assert (slen s3 < slen s2)%nat as H3.
  { rewrite Hu, slen_app. destruct u; [done|]. rewrite slen_cons. lia. }
  destruct (unitMap !! u); [|done]. repeat (case_match; [done|]).
  repeat case_match; try done; intros [= _ <-]; lia.
Qed.

Lemma parse_loop_enough fuel orig d s :
  (slen s < fuel)%nat → safe (parse_loop fuel orig d s) (λ _, True).
Proof.
  revert d s. induction fuel as [|fuel IH]; intros d s Hlt; [lia|]. cbn [parse_loop].
  destruct (String.eqb s ""); [done|].
  destruct (parse_term orig s) as [[v rest]|e|m] eqn:E; simpl; [|done|].
  - apply parse_term_consumes in E. case_match; [done|]. apply IH. lia.
  - revert E. unfold parse_term. repeat (case_match; try done).
Qed.

(** [ParseDuration] returns a value or an error for every input. *)
Lemma ParseDuration_total orig : safe (ParseDuration orig) (λ _, True).
Proof.
  unfold ParseDuration.
  set (p := match orig with String _ _ => _ | _ => _ end). destruct p as [neg s].
  destruct (String.eqb s "0"); [done|]. destruct (String.eqb s ""); [done|].
  eapply safe_bind; [apply parse_loop_enough; lia|]. intros d _. by repeat case_match.
Qed.

(** ** The result fits in 64 bits *)

Lemma leadingInt_nonneg x s v r : 0 ≤ x → leadingInt x s = Some (v, r) → 0 ≤ v.
Proof.
  revert x. induction s as [|c s IH]; intros x Hx; cbn [leadingInt].
  { by intros [= <- _]. }
  destruct (digit_value c) as [d|] eqn:Ed; [|by intros [= <- _]].
  repeat (case_match; [done|]). apply IH.
  unfold digit_value, is_digit in Ed.
  destruct (N.leb_spec 48 (N_of_ascii c)); [|done]. simpl in Ed. case_match; [|done].
  injection Ed as <-. lia.
Qed.

Lemma f64_trunc_nonneg x : 0 ≤ f64_trunc x.
Proof.
  unfold f64_trunc. destruct x as [| | |[] m e]; try lia. destruct (Z.leb_spec 0 e).
  - apply Z.mul_nonneg_nonneg; [lia|]. apply Z.pow_nonneg. lia.
  - apply Z.div_pos; [lia|]. apply Z.pow_pos_nonneg; lia.
Qed.

Lemma unitMap_pos u unit : unitMap !! u = Some unit → 0 < unit.
Proof.
  intros Hu. assert (map_Forall (λ _ z, 0 < z) unitMap) as Hall; [|by eapply Hall].
  apply map_Forall_to_list. refine (bool_decide_unpack _ _). vm_compute. exact I.
Qed.

Lemma parse_term_nonneg orig s v rest : parse_term orig s = Ret (v, rest) → 0 ≤ v.
Proof.
  unfold parse_term. destruct s as [|c s0] eqn:Es; [done|]. rewrite <-Es. clear Es.
  case_match; [|done]. destruct (leadingInt 0 s) as [[v1 s1]|] eqn:E1; [|done].
  apply leadingInt_nonneg in E1; [|lia].
  destruct (fraction_part s1) as [[[f scale] s2] post].
  case_match; [|done]. destruct (span_unit s2) as [u s3].
  destruct (String.eqb u ""); [done|].
  destruct (unitMap !! u) as [unit|] eqn:Eu; [|done]. apply unitMap_pos in Eu.
  case_match; [done|].
  pose proof (f64_trunc_nonneg (f64_mul (f64_of_Z f) (f64_div (f64_of_Z unit) scale))).
  repeat case_match; try done; intros [= <- _]; nia.
Qed.

Lemma parse_loop_range fuel orig d s r :
  0 ≤ d ≤ two63 → parse_loop fuel orig d s = Ret r → 0 ≤ r ≤ two63.
Proof.
  revert d s. induction fuel as [|fuel IH]; intros d s Hd; [done|]. cbn [parse_loop].
  destruct (String.eqb s ""); [by intros [= <-]|].
  destruct (parse_term orig s) as [[v rest]|e|m] eqn:E; simpl; [|done..].
  apply parse_term_nonneg in E. destruct (Z.ltb_spec two63 (d + v)); [done|]. apply IH. lia.
Qed.

(** [ParseDuration] never panics (nor runs out of the fuel of its loop), and what
    it returns fits a signed 64-bit integer. *)
Theorem ParseDuration_range orig : safe (ParseDuration orig) (λ d, - two63 ≤ d < two63).
Proof.
  unfold ParseDuration.
  set (p := match orig with String _ _ => _ | _ => _ end). destruct p as [neg s].
  destruct (String.eqb s "0"); [done|]. destruct (String.eqb s ""); [done|].
  pose proof (parse_loop_enough (S (slen s)) orig 0 s (Nat.lt_succ_diag_r _)) as Hs.
  destruct (parse_loop (S (slen s)) orig 0 s) as [d|e|m] eqn:E; [|done..]. simpl.
  apply parse_loop_range in E; [|by vm_compute]. unfold two63 in *. destruct neg; simpl; [lia|].
  destruct (Z.ltb_spec (2 ^ 63 - 1) d); simpl; lia.
Qed.

Example duration_ok : ParseDuration "1h15m30.918s" = Ret 4530918000000.
Proof. vm_compute. reflexivity. Qed.
Example duration_frac : ParseDuration "-.5ms" = Ret (-500000).
Proof. vm_compute. reflexivity. Qed.
Example duration_max : ParseDuration "9223372036854775807ns" = Ret 9223372036854775807.
Proof. vm_compute. reflexivity. Qed.
Example duration_over :
  ParseDuration "9223372036854775808ns" = Fail (invalid_duration "9223372036854775808ns").
Proof. vm_compute. reflexivity. Qed.
