(* ===== verification/HTTPProxy.v ===== *)
(** * The resources around the reconciler

    The fields of Contour's [HTTPProxy] that the controller reads or writes (from
    the projectcontour v1 API), and the fields of the core [Service] and [Endpoints]
    resources it looks at.  A Go pointer field is an [option]; a slice is a list, so
    nil and empty slices are not told apart, as in [equality.Semantic.DeepEqual]. *)

From S2P Require Import Prelude Meta.

(** ** HTTPProxy *)

Record HeaderValue := { hv_name : string; hv_value : string }.
#[export] Instance HeaderValue_eq_dec : EqDecision HeaderValue.
Proof. solve_decision. Defined.

Record HeadersPolicy := { hp_set : list HeaderValue }.
#[export] Instance HeadersPolicy_eq_dec : EqDecision HeadersPolicy.
Proof. solve_decision. Defined.

Record UpstreamValidation := {
  uv_ca_certificate : string;
  uv_subject_name : string;
  uv_subject_names : list string
}.
#[export] Instance UpstreamValidation_eq_dec : EqDecision UpstreamValidation.
Proof. solve_decision. Defined.

(** A backend of a route (Contour's [Service], not the core one). *)
Record ProxyService := {
  ps_name : string;
  ps_port : Z;
  ps_protocol : option string;
  ps_weight : Z;
  ps_validation : option UpstreamValidation;
  ps_request_headers : option HeadersPolicy
}.
#[export] Instance ProxyService_eq_dec : EqDecision ProxyService.
Proof. solve_decision. Defined.

Record HeaderMatchCondition := { hc_name : string; hc_exact : string }.
#[export] Instance HeaderMatchCondition_eq_dec : EqDecision HeaderMatchCondition.
Proof. solve_decision. Defined.

Record MatchCondition := {
  mc_prefix : string;
  mc_header : option HeaderMatchCondition
}.
#[export] Instance MatchCondition_eq_dec : EqDecision MatchCondition.
Proof. solve_decision. Defined.

Record TimeoutPolicy := { tp_response : string; tp_idle : string }.
#[export] Instance TimeoutPolicy_eq_dec : EqDecision TimeoutPolicy.
Proof. solve_decision. Defined.

Record RetryPolicy := { rp_num_retries : Z; rp_retry_on : list string }.
#[export] Instance RetryPolicy_eq_dec : EqDecision RetryPolicy.
Proof. solve_decision. Defined.

Record Route := {
  ro_conditions : list MatchCondition;
  ro_timeout : option TimeoutPolicy;
  ro_retry : option RetryPolicy;
  ro_services : list ProxyService;
  ro_websockets : bool;
  ro_request_headers : option HeadersPolicy;
  ro_permit_insecure : bool
}.
#[export] Instance Route_eq_dec : EqDecision Route.
Proof. solve_decision. Defined.

Record ExtensionServiceReference := { es_name : string; es_namespace : string }.
#[export] Instance ExtensionServiceReference_eq_dec : EqDecision ExtensionServiceReference.
Proof. solve_decision. Defined.

Record CORSPolicy := {
  co_allow_credentials : bool;
  co_allow_origin : list string;
  co_allow_methods : list string;
  co_allow_headers : list string;
  co_expose_headers : list string;
  co_max_age : string;
  co_allow_private_network : bool
}.
#[export] Instance CORSPolicy_eq_dec : EqDecision CORSPolicy.
Proof. solve_decision. Defined.

(** [vh_tls] holds the secret name of the TLS block, [vh_authorization] the
    extension service of the authorization block. *)
Record VirtualHost := {
  vh_fqdn : string;
  vh_tls : option string;
  vh_authorization : option ExtensionServiceReference;
  vh_cors : option CORSPolicy
}.
#[export] Instance VirtualHost_eq_dec : EqDecision VirtualHost.
Proof. solve_decision. Defined.

Record HTTPProxySpec := {
  hs_virtual_host : option VirtualHost;
  hs_routes : list Route
}.
#[export] Instance HTTPProxySpec_eq_dec : EqDecision HTTPProxySpec.
Proof. solve_decision. Defined.

Record HTTPProxy := {
  hp_meta : ObjectMeta;
  hp_spec : HTTPProxySpec;
  hp_current_status : string
}.
#[export] Instance HTTPProxy_eq_dec : EqDecision HTTPProxy.
Proof. solve_decision. Defined.

Definition hp_name (p : HTTPProxy) : string := om_name (hp_meta p).
Definition hp_namespace (p : HTTPProxy) : string := om_namespace (hp_meta p).
Definition hp_labels (p : HTTPProxy) : gmap string string := om_labels (hp_meta p).
Definition hp_annotations (p : HTTPProxy) : gmap string string := om_annotations (hp_meta p).

(** [types.NamespacedName]. *)
Record NamespacedName := { nn_namespace : string; nn_name : string }.
#[export] Instance NamespacedName_eq_dec : EqDecision NamespacedName.
Proof. solve_decision. Defined.

Definition nn_String (n : NamespacedName) : string := nn_namespace n +:+ "/" +:+ nn_name n.

(** ** Core resources *)

Record ServicePort := { sv_port_name : string; sv_port : Z }.
#[export] Instance ServicePort_eq_dec : EqDecision ServicePort.
Proof. solve_decision. Defined.

Record Service := {
  sv_meta : ObjectMeta;
  sv_cluster_ip : string;
  sv_ports : list ServicePort
}.
#[export] Instance Service_eq_dec : EqDecision Service.
Proof. solve_decision. Defined.

Record EndpointPort := { ep_port_name : string; ep_port : Z }.
#[export] Instance EndpointPort_eq_dec : EqDecision EndpointPort.
Proof. solve_decision. Defined.

Record EndpointSubset := { es_addresses : list string; es_ports : list EndpointPort }.
#[export] Instance EndpointSubset_eq_dec : EqDecision EndpointSubset.
Proof. solve_decision. Defined.

Record Endpoints := { en_meta : ObjectMeta; en_subsets : list EndpointSubset }.
#[export] Instance Endpoints_eq_dec : EqDecision Endpoints.
Proof. solve_decision. Defined.
