(* ===== verification/Config.v ===== *)
(** * Configuration (pkg/reconciler/contour/config)

    config-contour: parsing and validation of the ConfigMap ([contour.go]), and the
    configuration a reconcile reads.  YAML decoding is a library the sources call: it
    is a parameter, a function from text to a value or an error. *)

From S2P Require Import Prelude Meta Regexp Ingress Duration HTTPProxy.

Definition ContourConfigName : string := "config-contour".
Definition visibilityConfigKey : string := "visibility".
Definition defaultTLSSecretConfigKey : string := "default-tls-secret".
Definition timeoutPolicyIdleKey : string := "timeout-policy-idle".
Definition timeoutPolicyResponseKey : string := "timeout-policy-response".
Definition corsPolicy : string := "cors-policy".

Record Contour := {
  VisibilityKeys : gmap string (gset string);
  VisibilityClasses : gmap string string;
  DefaultTLSSecret : option NamespacedName;
  TimeoutPolicyResponse : string;
  TimeoutPolicyIdle : string;
  ContourCORSPolicy : option CORSPolicy
}.
#[export] Instance Contour_eq_dec : EqDecision Contour.
Proof. solve_decision. Defined.

Record visibilityValue := { vv_class : string; vv_service : string }.
#[export] Instance visibilityValue_eq_dec : EqDecision visibilityValue.
Proof. solve_decision. Defined.

(** ** Parsers of single keys *)

Definition ParseFunc (T : Type) : Type := gmap string string → T → outcome T.

Definition validate_namespace_name (key val : string) : outcome () :=
  match IsDNS1123Label val with
  | [] => Ret ()
  | errs => Fail (Errorf "failed to parse %q: %s" [key; Join errs ", "])
  end.

(** [strings.SplitN raw "/" 3] has two elements exactly when [Split] has. *)
Definition AsNamespacedName (key : string) : ParseFunc NamespacedName := λ data target,
  match data !! key with
  | None => Ret target
  | Some raw =>
      match Split raw "/"%char with
      | [ns; name] =>
          _ ← validate_namespace_name key ns;
          _ ← validate_namespace_name key name;
          Ret {| nn_namespace := ns; nn_name := name |}
      | _ => Fail (Errorf "failed to parse %q: expected 'namespace/name' format" [key])
      end
  end.

Definition AsOptionalNamespacedName (key : string) : ParseFunc (option NamespacedName) :=
  λ data target,
    match data !! key with
    | None => Ret target
    | Some _ => Some <$> AsNamespacedName key data {| nn_namespace := ""; nn_name := "" |}
    end.

Definition asContourDuration (key : string) : ParseFunc string := λ data target,
  match data !! key with
  | Some raw =>
      if String.eqb raw "infinity" then Ret raw
      else match ParseDuration raw with
           | Ret _ => Ret raw
           | Fail err => Fail (Wrapf "failed to parse %q: %w" [key] err)
           | Panic s => Panic s
           end
  | None => Ret target
  end.

(** ** The CORS policy *)

(** The characters of a header token: letters, digits and the punctuation of the
    class in the source. *)
Definition is_token_char (c : ascii) : bool :=
  isAlphanumeric c || existsb (Ascii.eqb c) (String.list_ascii_of_string "!#$%&'*+.^_`|~-").

Definition validCORSOption : re := RPlus (RChar is_token_char).

(** Digits, an optional dot with digits, a unit; every digit run may be empty. *)
Definition age_term (unit : string) : re :=
  RCat (RStar (RChar is_digit))
    (RCat (ROpt (RCat (RChar (Ascii.eqb ".")) (RStar (RChar is_digit)))) (RLit unit)).

Definition validMaxAge : re :=
  RAlt
    (RPlus
      (RAlt (age_term "h") (RAlt (age_term "m") (RAlt (age_term "s") (RAlt (age_term "ms")
        (RAlt (age_term "us") (RAlt (age_term (micro_sign +:+ "s")) (age_term "ns"))))))))
    (RChar (Ascii.eqb "0")).

(** The three lists of header values, each with the name used in errors. *)
Definition cors_fields (p : CORSPolicy) : list (list string * string) :=
  [(co_allow_methods p, corsPolicy +:+ ".allowMethods");
   (co_allow_headers p, corsPolicy +:+ ".allowHeaders");
   (co_expose_headers p, corsPolicy +:+ ".exposeHeaders")].

Definition check_cors_field (f : list string * string) : outcome () :=
  outcome_foldM (λ _ option,
    if MatchString validCORSOption option then Ret ()
    else Fail (Errorf "option %q is invalid for %s" [option; f.2])) () f.1.

Definition check_cors (policy : option CORSPolicy) : outcome (option CORSPolicy) :=
  match policy with
  | None => Fail (Errorf "the following fields are required but are missing or empty: %s.allowOrigin and %s.allowMethods" [corsPolicy; corsPolicy])
  | Some p =>
      if bool_decide (co_allow_origin p = []) || bool_decide (co_allow_methods p = []) then
        Fail (Errorf "the following fields are required but are missing or empty: %s.allowOrigin and %s.allowMethods" [corsPolicy; corsPolicy])
      else
        _ ← outcome_foldM (λ _ f, check_cors_field f) () (cors_fields p);
        if String.eqb (co_max_age p) "" || MatchString validMaxAge (co_max_age p) then Ret policy
        else Fail (Errorf "%s.maxAge is invalid. Must be 0 or \d*(h|m|s|ms|us|ns)" [corsPolicy])
  end.

Definition lift {A} (r : goerr + A) : outcome A :=
  match r with inl e => Fail e | inr a => Ret a end.

(** The defaults, used when the ConfigMap says nothing about visibility. *)
Definition default_keys : gmap string (gset string) :=
  <[IngressVisibilityClusterLocal := {["contour-internal/envoy"]}]>
    {[IngressVisibilityExternalIP := {["contour-external/envoy"]}]}.
Definition default_classes : gmap string string :=
  <[IngressVisibilityClusterLocal := "contour-internal"]>
    {[IngressVisibilityExternalIP := "contour-external"]}.

Definition is_visibility (key : string) : bool :=
  String.eqb key IngressVisibilityClusterLocal || String.eqb key IngressVisibilityExternalIP.

Section NewContour.
Context `{MapOrder}.
Context (yaml_cors : string → goerr + option CORSPolicy).
Context (yaml_visibility : string → goerr + gmap string visibilityValue).

(** The body of the loop over the decoded visibilities. *)
Definition add_visibility (m : gmap string (gset string) * gmap string string)
    (e : string * visibilityValue) : outcome (gmap string (gset string) * gmap string string) :=
  let '(key, value) := e in
  if is_visibility key then
    _ ← SplitMetaNamespaceKey (vv_service value);
    Ret (<[key := {[vv_service value]}]> m.1, <[key := vv_class value]> m.2)
  else Fail (Errorf "unrecognized visibility: %q" [key]).

Definition require_visibility (entry : gmap string visibilityValue) (vis : string) : outcome () :=
  match entry !! vis with
  | Some _ => Ret ()
  | None => Fail (Errorf "visibility must contain %q with class and service" [vis])
  end.

Definition NewContourFromConfigMap (data : gmap string string) : outcome Contour :=
  tlsSecret ← AsOptionalNamespacedName defaultTLSSecretConfigKey data None;
  response ← asContourDuration timeoutPolicyResponseKey data "infinity";
  idle ← asContourDuration timeoutPolicyIdleKey data "infinity";
  cors ← match data !! corsPolicy with
         | None => Ret None
         | Some text => policy ← lift (yaml_cors text); check_cors policy
         end;
  match data !! visibilityConfigKey with
  | None =>
      Ret {| VisibilityKeys := default_keys; VisibilityClasses := default_classes;
             DefaultTLSSecret := tlsSecret; TimeoutPolicyResponse := response;
             TimeoutPolicyIdle := idle; ContourCORSPolicy := cors |}
  | Some v =>
      entry ← lift (yaml_visibility v);
      _ ← require_visibility entry IngressVisibilityClusterLocal;
      _ ← require_visibility entry IngressVisibilityExternalIP;
      '(keys, classes) ← outcome_foldM add_visibility (∅, ∅) (range_map entry);
      Ret {| VisibilityKeys := keys; VisibilityClasses := classes;
             DefaultTLSSecret := tlsSecret; TimeoutPolicyResponse := response;
             TimeoutPolicyIdle := idle; ContourCORSPolicy := cors |}
  end.
End NewContour.

(** ** What a parsed configuration satisfies *)

Definition duration_ok_text (s : string) : Prop :=
  s = "infinity" ∨ ∃ d, ParseDuration s = Ret d.

Definition nn_wf (n : NamespacedName) : Prop :=
  IsDNS1123Label (nn_namespace n) = [] ∧ IsDNS1123Label (nn_name n) = [].

Definition cors_wf (p : CORSPolicy) : Prop :=
  co_allow_origin p ≠ [] ∧ co_allow_methods p ≠ [] ∧
  (∀ o, o ∈ co_allow_methods p ++ co_allow_headers p ++ co_expose_headers p →
     o ≠ "" ∧ sall is_token_char o = true) ∧
  (co_max_age p = "" ∨ lang validMaxAge (co_max_age p)).

(** Exactly the two visibilities are configured; each has a class and one envoy
    Service, whose key names a namespace and a name. *)
Definition visibilities_wf (keys : gmap string (gset string)) (classes : gmap string string) : Prop :=
  dom keys = {[IngressVisibilityClusterLocal; IngressVisibilityExternalIP]} ∧
  dom classes = {[IngressVisibilityClusterLocal; IngressVisibilityExternalIP]} ∧
  map_Forall (λ _ s, ∃ svc, s = {[svc]} ∧ is_ret (SplitMetaNamespaceKey svc) = true) keys.

Definition contour_wf (c : Contour) : Prop :=
  visibilities_wf (VisibilityKeys c) (VisibilityClasses c) ∧
  duration_ok_text (TimeoutPolicyResponse c) ∧ duration_ok_text (TimeoutPolicyIdle c) ∧
  (∀ n, DefaultTLSSecret c = Some n → nn_wf n) ∧
  (∀ p, ContourCORSPolicy c = Some p → cors_wf p).

Lemma asContourDuration_ok key data target d :
  duration_ok_text target → asContourDuration key data target = Ret d → duration_ok_text d.
Proof.
  unfold asContourDuration, duration_ok_text. destruct (data !! key) as [raw|]; [|by intros ? [= <-]].
  intros _. destruct (String.eqb_spec raw "infinity"); [intros [= <-]; auto|].
  destruct (ParseDuration raw) eqn:E; [|done..]. intros [= <-]. eauto.
Qed.

Lemma asContourDuration_safe key data target : safe (asContourDuration key data target) (λ _, True).
Proof.
  unfold asContourDuration. destruct (data !! key) as [raw|]; [|done].
  destruct (String.eqb raw "infinity"); [done|].
  pose proof (ParseDuration_total raw). by destruct (ParseDuration raw).
Qed.

Lemma validate_namespace_name_ok key v u :
  validate_namespace_name key v = Ret u → IsDNS1123Label v = [].
Proof. unfold validate_namespace_name. by destruct (IsDNS1123Label v). Qed.

Lemma AsNamespacedName_ok key data n n' :
  is_Some (data !! key) → AsNamespacedName key data n = Ret n' → nn_wf n'.
Proof.
  unfold AsNamespacedName. intros [raw ->]. go_case; [done|]. go_case; [done|].
  go_case; [|done]. intros Hr. simpl_outcome. subst n'. split; simpl;
    eauto using validate_namespace_name_ok.
Qed.

Lemma AsOptionalNamespacedName_ok key data o n :
  AsOptionalNamespacedName key data None = Ret o → o = Some n → nn_wf n.
Proof.
  unfold AsOptionalNamespacedName. destruct (data !! key) as [raw|] eqn:E; [|by intros [= <-]].
  destruct (AsNamespacedName _ _ _) eqn:E'; [|done..]. intros [= <-] [= ->].
  eapply AsNamespacedName_ok; eauto.
Qed.

Lemma validate_namespace_name_safe key v : safe (validate_namespace_name key v) (λ _, True).
Proof. unfold validate_namespace_name. by destruct (IsDNS1123Label v). Qed.

Lemma AsOptionalNamespacedName_safe key data o :
  safe (AsOptionalNamespacedName key data o) (λ _, True).
Proof.
  unfold AsOptionalNamespacedName, AsNamespacedName. destruct (data !! key) as [raw|]; [|done].
  go_case; [done|]. go_case; [done|]. go_case; [|done].
  unfold validate_namespace_name. by repeat (go_case; try done).
Qed.

(** ** The CORS checks *)

Lemma validCORSOption_spec o :
  MatchString validCORSOption o = true → o ≠ "" ∧ sall is_token_char o = true.
Proof.
  intros Hm%MatchString_spec. split.
  - intros ->. apply MatchString_spec in Hm. discriminate.
  - apply lang_chars in Hm. eapply sall_impl; [|exact Hm]. intros c. cbn.
    by destruct (is_token_char c).
Qed.

Lemma check_cors_field_ok f u :
  check_cors_field f = Ret u → ∀ o, o ∈ f.1 → o ≠ "" ∧ sall is_token_char o = true.
Proof.
  unfold check_cors_field. destruct f as [l name]. cbn [fst snd].
  induction l as [|x l IH]; simpl; [by intros _ o ?%elem_of_nil|].
  destruct (MatchString validCORSOption x) eqn:E; [|done]. simpl. intros Hr o Ho.
  apply elem_of_cons in Ho as [->|Ho]; [by apply validCORSOption_spec|]. by apply IH.
Qed.

Lemma check_cors_field_safe f : safe (check_cors_field f) (λ _, True).
Proof.
  unfold check_cors_field. destruct f as [l name]. cbn [fst snd].
  induction l as [|x l IH]; simpl; [done|].
  by destruct (MatchString validCORSOption x); simpl.
Qed.

Lemma check_cors_ok o o' : check_cors o = Ret o' → ∃ p, o = Some p ∧ o' = Some p ∧ cors_wf p.
Proof.
  unfold check_cors. destruct o as [p|]; [|done].
  destruct (bool_decide (co_allow_origin p = [])) eqn:E1; [done|].
  destruct (bool_decide (co_allow_methods p = [])) eqn:E2; [done|].
  apply bool_decide_eq_false in E1, E2. cbn [orb]. simpl. intros Hr. simpl_outcome.
  destruct (String.eqb (co_max_age p) "" || _) eqn:Em; [|done]. simplify_eq.
  exists p. split_and!; [done..|]. split_and!; [done..| |].
  - intros o. rewrite !elem_of_app.
    intros [Ho|[Ho|Ho]]; match goal with Hc : check_cors_field (?l, _) = _, _ : o ∈ ?l |- _ =>
      exact (check_cors_field_ok _ _ Hc o Ho) end.
  - apply orb_true_iff in Em as [?%String.eqb_eq|?%MatchString_spec]; auto.
Qed.

Lemma check_cors_safe o : safe (check_cors o) (λ _, True).
Proof.
  unfold check_cors. destruct o as [p|]; [|done]. go_case; [done|].
  apply (safe_bind _ _ (λ _, True)); [|intros ? _; by go_case]. simpl.
  repeat (eapply safe_bind; [apply check_cors_field_safe|intros ? _]). done.
Qed.

(** ** The visibilities *)

Definition entry_ok (e : string * visibilityValue) : Prop :=
  is_visibility e.1 = true ∧ is_ret (SplitMetaNamespaceKey (vv_service e.2)) = true.

Definition vis_keys (entry : gmap string visibilityValue) : gmap string (gset string) :=
  (λ v, {[vv_service v]}) <$> entry.
Definition vis_classes (entry : gmap string visibilityValue) : gmap string string :=
  vv_class <$> entry.

Definition add_pure (m : gmap string (gset string) * gmap string string)
    (e : string * visibilityValue) : gmap string (gset string) * gmap string string :=
  (<[e.1 := {[vv_service e.2]}]> m.1, <[e.1 := vv_class e.2]> m.2).

Lemma add_visibility_fold m l m' :
  outcome_foldM add_visibility m l = Ret m' ↔ Forall entry_ok l ∧ m' = foldl add_pure m l.
Proof.
  revert m. induction l as [|[k v] l IH]; intros m; simpl.
  { split; [intros [= ->]; done|]. by intros [_ ->]. }
  rewrite Forall_cons. unfold entry_ok at 1. simpl.
  destruct (is_visibility k); simpl; [|naive_solver].
  destruct (SplitMetaNamespaceKey (vv_service v)); simpl; [|naive_solver..].
  rewrite IH. naive_solver.
Qed.

(** Inserting the entries of a map one by one gives the image of the map. *)
Lemma insert_all_lookup {A B} (f : A → B) (l : list (string * A)) (m : gmap string B) k :
  NoDup l.*1 →
  foldl (λ m e, <[e.1 := f e.2]> m) m l !! k =
    match (list_to_map l : gmap string A) !! k with Some v => Some (f v) | None => m !! k end.
Proof.
  revert m. induction l as [|[k' v] l IH]; intros m; simpl; [done|].
  intros [Hk Hl]%NoDup_cons. rewrite IH by done.
  destruct (decide (k = k')) as [->|Hne].
  - rewrite lookup_insert_eq, (proj1 (not_elem_of_list_to_map l k')) by done.
    by rewrite lookup_insert_eq.
  - by rewrite !lookup_insert_ne by done.
Qed.

Lemma insert_all_map `{MapOrder} {A B} (f : A → B) (m : gmap string A) :
  foldl (λ m e, <[e.1 := f e.2]> m) ∅ (range_map m) = f <$> m.
Proof.
  apply map_eq. intros k. rewrite insert_all_lookup by apply NoDup_range_map_keys.
  rewrite (list_to_map_proper _ _ (NoDup_range_map_keys m) (range_map_perm m)).
  rewrite list_to_map_to_list, lookup_fmap, lookup_empty. by destruct (m !! k).
Qed.

Lemma add_pure_fold l m :
  foldl add_pure m l =
    (foldl (λ m e, <[e.1 := {[vv_service e.2]}]> m) m.1 l,
     foldl (λ m e, <[e.1 := vv_class e.2]> m) m.2 l).
Proof. revert m. induction l as [|e l IH]; intros [a b]; simpl; [done|]. by rewrite IH. Qed.

Lemma add_visibility_all `{MapOrder} entry m' :
  outcome_foldM add_visibility (∅, ∅) (range_map entry) = Ret m' ↔
  map_Forall (λ k v, entry_ok (k, v)) entry ∧ m' = (vis_keys entry, vis_classes entry).
Proof.
  rewrite add_visibility_fold, add_pure_fold. cbn [fst snd].
  rewrite (insert_all_map (λ v, {[vv_service v]} : gset string)), (insert_all_map vv_class).
  rewrite range_map_perm, map_Forall_to_list.
  apply and_iff_compat_r, Forall_iff. by intros [k v].
Qed.

Lemma add_visibility_safe m l : safe (outcome_foldM add_visibility m l) (λ _, True).
Proof.
  revert m. induction l as [|[k v] l IH]; intros m; simpl; [done|].
  destruct (is_visibility k); simpl; [|done].
  unfold SplitMetaNamespaceKey. by repeat (go_case; simpl; try done).
Qed.

Lemma require_visibility_ok entry vis u :
  require_visibility entry vis = Ret u → is_Some (entry !! vis).
Proof. unfold require_visibility. by destruct (entry !! vis). Qed.

Lemma visibilities_dom {A} (entry : gmap string A) :
  is_Some (entry !! IngressVisibilityClusterLocal) →
  is_Some (entry !! IngressVisibilityExternalIP) →
  map_Forall (λ k _, is_visibility k = true) entry →
  dom entry = {[IngressVisibilityClusterLocal; IngressVisibilityExternalIP]}.
Proof.
  intros Hc He Hall. apply set_eq. intros k. rewrite elem_of_dom, elem_of_union, !elem_of_singleton.
  split; [|by intros [->| ->]]. intros [v Hv].
  apply Hall in Hv. apply orb_true_iff in Hv as [?%String.eqb_eq|?%String.eqb_eq]; auto.
Qed.

Lemma default_visibilities_wf : visibilities_wf default_keys default_classes.
Proof.
  split_and!; [by unfold default_keys, default_classes; rewrite dom_insert_L, dom_singleton_L..|].
  unfold default_keys. intros k s Hs. apply lookup_insert_Some in Hs as [[_ <-]|[_ Hs]].
  - by eexists.
  - apply lookup_singleton_Some in Hs as [_ <-]. by eexists.
Qed.

Lemma entry_visibilities_wf entry :
  is_Some (entry !! IngressVisibilityClusterLocal) →
  is_Some (entry !! IngressVisibilityExternalIP) →
  map_Forall (λ k v, entry_ok (k, v)) entry →
  visibilities_wf (vis_keys entry) (vis_classes entry).
Proof.
  intros Hc He Hall. unfold visibilities_wf, vis_keys, vis_classes. rewrite !dom_fmap_L.
  rewrite visibilities_dom; [|done..|by intros k v [??]%Hall]. split_and!; [done..|].
  intros k s. rewrite lookup_fmap_Some. intros (v & <- & [_ Hv]%Hall). eauto.
Qed.

Section NewContourFacts.
Context (yaml_cors : string → goerr + option CORSPolicy).
Context (yaml_visibility : string → goerr + gmap string visibilityValue).

Lemma lift_safe {A} (r : goerr + A) : safe (lift r) (λ _, True).
Proof. by destruct r. Qed.

Lemma cors_part_safe (data : gmap string string) :
  safe (match data !! corsPolicy with
        | None => Ret None
        | Some text => policy ← lift (yaml_cors text); check_cors policy
        end) (λ o, ∀ p, o = Some p → cors_wf p).
Proof.
  destruct (data !! corsPolicy) as [text|]; [|done].
  eapply safe_bind; [apply lift_safe|]. intros o _. pose proof (check_cors_safe o) as Hs.
  destruct (check_cors o) eqn:E; [|done..]. apply check_cors_ok in E as (p & -> & -> & ?).
  simpl. naive_solver.
Qed.

(** Both ways in which [m] returns: without a panic, and with [Q]. *)
Lemma safe_ret {A} (m : outcome A) (Q : A → Prop) :
  safe m (λ _, True) → (∀ a, m = Ret a → Q a) → safe m Q.
Proof. destruct m; simpl; auto. Qed.

Lemma optional_name_safe key data :
  safe (AsOptionalNamespacedName key data None) (λ o, ∀ n, o = Some n → nn_wf n).
Proof.
  apply safe_ret; [apply AsOptionalNamespacedName_safe|].
  intros o Ho n. by apply AsOptionalNamespacedName_ok with (key := key) (data := data).
Qed.

Lemma duration_safe key data target :
  duration_ok_text target → safe (asContourDuration key data target) duration_ok_text.
Proof.
  intros Ht. apply safe_ret; [apply asContourDuration_safe|].
  intros d. by apply asContourDuration_ok.
Qed.

(** C31: config-contour is parsed without a panic, and a configuration that is
    accepted is well formed: exactly the visibilities ClusterLocal and ExternalIP
    have a class and a Service key that splits into namespace and name, the timeouts
    are "infinity" or Go durations, the default certificate is a pair of DNS labels,
    and a CORS policy has origins and methods, token-only header values and a
    matching max age. *)
Theorem NewContourFromConfigMap_wf `{MapOrder} data :
  safe (NewContourFromConfigMap yaml_cors yaml_visibility data) contour_wf.
Proof.
  unfold NewContourFromConfigMap.
  eapply safe_bind; [apply (optional_name_safe _ data)|]. intros tls Htls.
  eapply safe_bind; [apply duration_safe; by left|]. intros resp Hresp.
  eapply safe_bind; [apply duration_safe; by left|]. intros idle Hidle.
  eapply safe_bind; [apply cors_part_safe|]. intros cors Hcors.
  destruct (data !! visibilityConfigKey) as [v|].
  2: { split_and!; [apply default_visibilities_wf|done..]. }
  eapply safe_bind; [apply lift_safe|]. intros entry _.
  destruct (require_visibility entry IngressVisibilityClusterLocal) eqn:E1; [|done|by revert E1; unfold require_visibility; case_match].
  destruct (require_visibility entry IngressVisibilityExternalIP) eqn:E2; [|done|by revert E2; unfold require_visibility; case_match].
  simpl. eapply safe_bind; [eapply safe_ret; [apply add_visibility_safe|];
    intros m Hm; exact (proj1 (add_visibility_all _ _) Hm)|].
  intros [keys classes] [Hall [= -> ->]]. simpl. split_and!; try done; simpl.
  apply entry_visibilities_wf; eauto using require_visibility_ok.
Qed.

(** Two outcomes agree on what they return. *)
Definition same_ret {A} (m1 m2 : outcome A) : Prop := ∀ a, m1 = Ret a ↔ m2 = Ret a.

Lemma same_ret_bind {A B} (m : outcome A) (f g : A → outcome B) :
  (∀ a, same_ret (f a) (g a)) → same_ret (m ≫= f) (m ≫= g).
Proof. intros Hfg b. destruct m; simpl; [apply Hfg|done..]. Qed.

(** Whether a ConfigMap is accepted, and the configuration it then gives, do
    not depend on the order in which Go ranges over the decoded visibilities (which
    of several errors is reported may depend on it). *)
Theorem NewContourFromConfigMap_order (o1 o2 : MapOrder) data c :
  @NewContourFromConfigMap o1 yaml_cors yaml_visibility data = Ret c ↔
  @NewContourFromConfigMap o2 yaml_cors yaml_visibility data = Ret c.
Proof.
  revert c. unfold NewContourFromConfigMap. fold (@same_ret Contour).
  do 4 (apply same_ret_bind; intros ?). destruct (data !! visibilityConfigKey); [|done].
  do 3 (apply same_ret_bind; intros ?). intros c. rewrite !outcome_bind_ret.
  setoid_rewrite add_visibility_all. done.
Qed.

(** A ConfigMap with only a visibility block is accepted exactly when the block
    decodes, names both visibilities and nothing else, and every Service key has at
    most one slash; the configuration then holds each entry's class and Service, and
    the documented defaults elsewhere. *)
Theorem NewContourFromConfigMap_visibility `{MapOrder} text entry c :
  yaml_visibility text = inr entry →
  NewContourFromConfigMap yaml_cors yaml_visibility {[visibilityConfigKey := text]} = Ret c ↔
  is_Some (entry !! IngressVisibilityClusterLocal) ∧
  is_Some (entry !! IngressVisibilityExternalIP) ∧
  map_Forall (λ k v, entry_ok (k, v)) entry ∧
  c = {| VisibilityKeys := vis_keys entry; VisibilityClasses := vis_classes entry;
         DefaultTLSSecret := None; TimeoutPolicyResponse := "infinity";
         TimeoutPolicyIdle := "infinity"; ContourCORSPolicy := None |}.
Proof.
  intros Hy. unfold NewContourFromConfigMap, AsOptionalNamespacedName, asContourDuration.
  rewrite (lookup_singleton_ne _ defaultTLSSecretConfigKey),
    (lookup_singleton_ne _ timeoutPolicyResponseKey),
    (lookup_singleton_ne _ timeoutPolicyIdleKey),
    (lookup_singleton_ne _ corsPolicy), lookup_singleton_eq by done.
  simpl. rewrite Hy. simpl.
  unfold require_visibility.
  destruct (entry !! IngressVisibilityClusterLocal); simpl; [|naive_solver].
  destruct (entry !! IngressVisibilityExternalIP); simpl; [|naive_solver].
  rewrite outcome_bind_ret. setoid_rewrite add_visibility_all. naive_solver.
Qed.
End NewContourFacts.

(** ** The configuration of a reconcile *)

(** The fields of the networking configuration that the controller reads. *)
Record NetworkConfig := { SystemInternalTLS : string }.
#[export] Instance NetworkConfig_eq_dec : EqDecision NetworkConfig.
Proof. solve_decision. Defined.

Definition EncryptionEnabled : string := "Enabled".
Definition SystemInternalTLSEnabled (c : NetworkConfig) : bool :=
  String.eqb (SystemInternalTLS c) EncryptionEnabled.

Record Config := {
  cfg_Contour : Contour;
  cfg_Network : option NetworkConfig
}.
#[export] Instance Config_eq_dec : EqDecision Config.
Proof. solve_decision. Defined.

(** The internal-encryption switch as the reconciler tests it:
    [cfg.Network != nil && cfg.Network.SystemInternalTLSEnabled()]. *)
Definition internal_tls (cfg : Config) : bool :=
  match cfg_Network cfg with Some n => SystemInternalTLSEnabled n | None => false end.
