(* ===== verification/Store.v ===== *)
(** * The configuration store (pkg/reconciler/contour/config/store.go)

    The store keeps pointers to the parsed ConfigMaps and hands every reconcile a deep
    copy ([zz_generated.deepcopy.go]).  Whether a reconcile can damage the stored
    configuration is a question of aliasing, so pointers, maps, sets and slices are
    locations of a heap here, and the copies are the generated code's allocations and
    assignments.  What a structure on the heap stands for is a relation between a
    location and a value of [Config.Contour]. *)

From S2P Require Import Prelude Meta Regexp Ingress Duration HTTPProxy Config.

(** ** The heap *)

Abbreviation loc := nat (only parsing).
Abbreviation ptr := (option nat) (only parsing).

(** The structs, with their maps, pointers and slices as references (nil is [None]). *)
Record contour_struct := {
  cs_keys : ptr;
  cs_classes : ptr;
  cs_secret : ptr;
  cs_response : string;
  cs_idle : string;
  cs_cors : ptr
}.

Record cors_struct := {
  os_credentials : bool;
  os_origin : ptr;
  os_methods : ptr;
  os_headers : ptr;
  os_expose : ptr;
  os_max_age : string;
  os_private : bool
}.

Record config_struct := { fs_contour : ptr; fs_network : ptr }.

Inductive cell :=
  | CellKeys (m : gmap string ptr)
  | CellSet (s : gset string)
  | CellClasses (m : gmap string string)
  | CellName (n : NamespacedName)
  | CellStrings (l : list string)
  | CellCORS (c : cors_struct)
  | CellContour (c : contour_struct)
  | CellNetwork (n : NetworkConfig)
  | CellConfig (c : config_struct).

Record heap := { cells : gmap nat cell; next : nat }.

Definition hm (A : Type) : Type := heap → outcome (A * heap).
Definition hret {A} (a : A) : hm A := λ h, Ret (a, h).
#[export] Instance hm_bind : MBind hm := λ A B f m h,
  match m h with Ret (a, h') => f a h' | Fail e => Fail e | Panic s => Panic s end.

Definition alloc (c : cell) : hm nat := λ h,
  Ret (next h, {| cells := <[next h := c]> (cells h); next := S (next h) |}).
Definition assign (l : loc) (c : cell) : hm () := λ h,
  Ret ((), {| cells := <[l := c]> (cells h); next := next h |}).
(** Reading a cell at its type; the type system rules the other cases out. *)
Definition fetch_as {A} (get : cell → option A) (l : loc) : hm A :=
  λ h, match cells h !! l with
       | None => Panic "invalid memory address"
       | Some c => match get c with Some a => Ret (a, h) | None => Panic "cell of another type" end
       end.
Definition get_keys (c : cell) : option (gmap string ptr) := match c with CellKeys m => Some m | _ => None end.
Definition as_keys : loc → hm (gmap string ptr) := fetch_as get_keys.
Definition get_set (c : cell) : option (gset string) := match c with CellSet s => Some s | _ => None end.
Definition as_set : loc → hm (gset string) := fetch_as get_set.
Definition get_classes (c : cell) : option (gmap string string) := match c with CellClasses m => Some m | _ => None end.
Definition as_classes : loc → hm (gmap string string) := fetch_as get_classes.
Definition get_name (c : cell) : option NamespacedName := match c with CellName n => Some n | _ => None end.
Definition as_name : loc → hm NamespacedName := fetch_as get_name.
Definition get_strings (c : cell) : option (list string) := match c with CellStrings l => Some l | _ => None end.
Definition as_strings : loc → hm (list string) := fetch_as get_strings.
Definition get_cors (c : cell) : option (cors_struct) := match c with CellCORS c => Some c | _ => None end.
Definition as_cors : loc → hm (cors_struct) := fetch_as get_cors.
Definition get_contour (c : cell) : option (contour_struct) := match c with CellContour c => Some c | _ => None end.
Definition as_contour : loc → hm (contour_struct) := fetch_as get_contour.
Definition get_network (c : cell) : option (NetworkConfig) := match c with CellNetwork n => Some n | _ => None end.
Definition as_network : loc → hm (NetworkConfig) := fetch_as get_network.
Definition get_config (c : cell) : option (config_struct) := match c with CellConfig c => Some c | _ => None end.
Definition as_config : loc → hm (config_struct) := fetch_as get_config.

Fixpoint for_each {A} (l : list A) (f : A → hm ()) : hm () :=
  match l with [] => hret () | x :: l => _ ← f x; for_each l f end.

Definition when_not_nil (p : ptr) (f : loc → hm ()) : hm () :=
  match p with Some l => f l | None => hret () end.

(** ** The generated copies (zz_generated.deepcopy.go) *)

Section DeepCopy.
Context `{MapOrder}.

Definition set_keys (p : ptr) (c : contour_struct) : contour_struct :=
  {| cs_keys := p; cs_classes := cs_classes c; cs_secret := cs_secret c;
     cs_response := cs_response c; cs_idle := cs_idle c; cs_cors := cs_cors c |}.
Definition set_classes (p : ptr) (c : contour_struct) : contour_struct :=
  {| cs_keys := cs_keys c; cs_classes := p; cs_secret := cs_secret c;
     cs_response := cs_response c; cs_idle := cs_idle c; cs_cors := cs_cors c |}.
Definition set_secret (p : ptr) (c : contour_struct) : contour_struct :=
  {| cs_keys := cs_keys c; cs_classes := cs_classes c; cs_secret := p;
     cs_response := cs_response c; cs_idle := cs_idle c; cs_cors := cs_cors c |}.
Definition set_cors (p : ptr) (c : contour_struct) : contour_struct :=
  {| cs_keys := cs_keys c; cs_classes := cs_classes c; cs_secret := cs_secret c;
     cs_response := cs_response c; cs_idle := cs_idle c; cs_cors := p |}.

(** Assign to a field of the struct at [out]. *)
Definition update_contour (out : loc) (f : contour_struct → contour_struct) : hm () :=
  c ← as_contour out; assign out (CellContour (f c)).
Definition update_cors (out : loc) (f : cors_struct → cors_struct) : hm () :=
  c ← as_cors out; assign out (CellCORS (f c)).

(** [*out = make(...)] and the inner loop, for one set. *)
Definition copy_set (ls : loc) : hm nat :=
  s ← as_set ls;
  ls' ← alloc (CellSet ∅);
  _ ← for_each (range_set s) (λ key, t ← as_set ls'; assign ls' (CellSet (t ∪ {[key]})));
  hret ls'.

Definition copy_key (lk' : loc) (kv : string * ptr) : hm () :=
  outVal ← match kv.2 with
           | None => m ← as_keys lk'; _ ← assign lk' (CellKeys (<[kv.1 := None]> m)); hret None
           | Some ls => ls' ← copy_set ls; hret (Some ls')
           end;
  m ← as_keys lk'; assign lk' (CellKeys (<[kv.1 := outVal]> m)).

Definition set_origin (p : ptr) (c : cors_struct) : cors_struct :=
  {| os_credentials := os_credentials c; os_origin := p; os_methods := os_methods c;
     os_headers := os_headers c; os_expose := os_expose c; os_max_age := os_max_age c; os_private := os_private c |}.
Definition set_methods (p : ptr) (c : cors_struct) : cors_struct :=
  {| os_credentials := os_credentials c; os_origin := os_origin c; os_methods := p;
     os_headers := os_headers c; os_expose := os_expose c; os_max_age := os_max_age c; os_private := os_private c |}.
Definition set_headers (p : ptr) (c : cors_struct) : cors_struct :=
  {| os_credentials := os_credentials c; os_origin := os_origin c; os_methods := os_methods c;
     os_headers := p; os_expose := os_expose c; os_max_age := os_max_age c; os_private := os_private c |}.
Definition set_expose (p : ptr) (c : cors_struct) : cors_struct :=
  {| os_credentials := os_credentials c; os_origin := os_origin c; os_methods := os_methods c;
     os_headers := os_headers c; os_expose := p; os_max_age := os_max_age c; os_private := os_private c |}.

(** [*out = make([]T, len( *in)); copy( *out, *in)] for a slice of strings. *)
Definition copy_strings (out : loc) (set : ptr → cors_struct → cors_struct) (p : loc) : hm () :=
  l ← as_strings p;
  p' ← alloc (CellStrings (replicate (length l) ""));
  _ ← update_cors out (set (Some p'));
  assign p' (CellStrings l).

Definition CORSPolicy_DeepCopyInto (in_ out : loc) : hm () :=
  c ← as_cors in_;
  _ ← assign out (CellCORS c);
  _ ← when_not_nil (os_origin c) (copy_strings out set_origin);
  _ ← when_not_nil (os_methods c) (copy_strings out set_methods);
  _ ← when_not_nil (os_headers c) (copy_strings out set_headers);
  when_not_nil (os_expose c) (copy_strings out set_expose).

Definition zero_cors : cors_struct :=
  {| os_credentials := false; os_origin := None; os_methods := None; os_headers := None;
     os_expose := None; os_max_age := ""; os_private := false |}.
Definition zero_contour : contour_struct :=
  {| cs_keys := None; cs_classes := None; cs_secret := None; cs_response := ""; cs_idle := "";
     cs_cors := None |}.

Definition copy_keys (out lk : loc) : hm () :=
  m ← as_keys lk;
  lk' ← alloc (CellKeys ∅);
  _ ← update_contour out (set_keys (Some lk'));
  for_each (range_map m) (copy_key lk').

Definition copy_classes (out lc : loc) : hm () :=
  m ← as_classes lc;
  lc' ← alloc (CellClasses ∅);
  _ ← update_contour out (set_classes (Some lc'));
  for_each (range_map m) (λ kv, t ← as_classes lc'; assign lc' (CellClasses (<[kv.1 := kv.2]> t))).

Definition copy_secret (out ln : loc) : hm () :=
  n ← as_name ln;
  ln' ← alloc (CellName {| nn_namespace := ""; nn_name := "" |});
  _ ← update_contour out (set_secret (Some ln'));
  assign ln' (CellName n).

Definition copy_cors (out lo : loc) : hm () :=
  lo' ← alloc (CellCORS zero_cors);
  _ ← update_contour out (set_cors (Some lo'));
  CORSPolicy_DeepCopyInto lo lo'.

Definition Contour_DeepCopyInto (in_ out : loc) : hm () :=
  c ← as_contour in_;
  _ ← assign out (CellContour c);
  _ ← when_not_nil (cs_keys c) (copy_keys out);
  _ ← when_not_nil (cs_classes c) (copy_classes out);
  _ ← when_not_nil (cs_secret c) (copy_secret out);
  when_not_nil (cs_cors c) (copy_cors out).

Definition Contour_DeepCopy (in_ : ptr) : hm ptr :=
  match in_ with
  | None => hret None
  | Some l => out ← alloc (CellContour zero_contour); _ ← Contour_DeepCopyInto l out; hret (Some out)
  end.

(** The fields of the network configuration that are modelled hold no references. *)
Definition Network_DeepCopy (in_ : ptr) : hm ptr :=
  match in_ with
  | None => hret None
  | Some l => n ← as_network l; out ← alloc (CellNetwork n); hret (Some out)
  end.

Definition Config_DeepCopyInto (in_ out : loc) : hm () :=
  c ← as_config in_;
  _ ← assign out (CellConfig c);
  _ ← when_not_nil (fs_contour c) (λ lc,
        lc' ← alloc (CellContour zero_contour);
        d ← as_config out;
        _ ← assign out (CellConfig {| fs_contour := Some lc'; fs_network := fs_network d |});
        Contour_DeepCopyInto lc lc');
  when_not_nil (fs_network c) (λ ln,
        n ← as_network ln;
        ln' ← alloc (CellNetwork n);
        d ← as_config out;
        assign out (CellConfig {| fs_contour := fs_contour d; fs_network := Some ln' |})).

Definition Config_DeepCopy (in_ : ptr) : hm ptr :=
  match in_ with
  | None => hret None
  | Some l =>
      out ← alloc (CellConfig {| fs_contour := None; fs_network := None |});
      _ ← Config_DeepCopyInto l out; hret (Some out)
  end.
End DeepCopy.

(** ** What the structures on a heap stand for *)

Definition rep_ptr {A} (R : nat → A → Prop) (nil : A) (p : option nat) (a : A) : Prop :=
  match p with Some l => R l a | None => a = nil end.
Definition rep_opt {A} (R : nat → A → Prop) (p : option nat) (o : option A) : Prop :=
  match p, o with Some l, Some a => R l a | None, None => True | _, _ => False end.

Section Rep.
Context (h : gmap nat cell).

Definition rep_set (l : nat) (s : gset string) : Prop := h !! l = Some (CellSet s).
Definition rep_strings (l : nat) (v : list string) : Prop := h !! l = Some (CellStrings v).
Definition rep_classes (l : nat) (v : gmap string string) : Prop := h !! l = Some (CellClasses v).
Definition rep_name (l : nat) (v : NamespacedName) : Prop := h !! l = Some (CellName v).
Definition rep_network (l : nat) (v : NetworkConfig) : Prop := h !! l = Some (CellNetwork v).

Definition rep_keys (l : nat) (v : gmap string (gset string)) : Prop :=
  ∃ m, h !! l = Some (CellKeys m) ∧ map_Forall2 (λ _, rep_ptr rep_set ∅) m v.

Definition rep_cors (l : nat) (v : CORSPolicy) : Prop :=
  ∃ c, h !! l = Some (CellCORS c) ∧
    os_credentials c = co_allow_credentials v ∧ os_max_age c = co_max_age v ∧
    os_private c = co_allow_private_network v ∧
    rep_ptr rep_strings [] (os_origin c) (co_allow_origin v) ∧
    rep_ptr rep_strings [] (os_methods c) (co_allow_methods v) ∧
    rep_ptr rep_strings [] (os_headers c) (co_allow_headers v) ∧
    rep_ptr rep_strings [] (os_expose c) (co_expose_headers v).

Definition rep_contour (l : nat) (v : Contour) : Prop :=
  ∃ c, h !! l = Some (CellContour c) ∧
    cs_response c = TimeoutPolicyResponse v ∧ cs_idle c = TimeoutPolicyIdle v ∧
    rep_ptr rep_keys ∅ (cs_keys c) (VisibilityKeys v) ∧
    rep_ptr rep_classes ∅ (cs_classes c) (VisibilityClasses v) ∧
    rep_opt rep_name (cs_secret c) (DefaultTLSSecret v) ∧
    rep_opt rep_cors (cs_cors c) (ContourCORSPolicy v).

Definition rep_config (l : nat) (v : Config) : Prop :=
  ∃ c, h !! l = Some (CellConfig c) ∧
    (∃ lc, fs_contour c = Some lc ∧ rep_contour lc (cfg_Contour v)) ∧
    rep_opt rep_network (fs_network c) (cfg_Network v).
End Rep.

Lemma rep_ptr_mono {A} (R S : nat → A → Prop) nil p a :
  (∀ l a, R l a → S l a) → rep_ptr R nil p a → rep_ptr S nil p a.
Proof. destruct p; simpl; auto. Qed.
Lemma rep_opt_mono {A} (R S : nat → A → Prop) p o :
  (∀ l a, R l a → S l a) → rep_opt R p o → rep_opt S p o.
Proof. destruct p, o; simpl; auto. Qed.

Section RepMono.
Context (h h' : gmap nat cell) (Hsub : h ⊆ h').

Lemma rep_keys_mono l v : rep_keys h l v → rep_keys h' l v.
Proof.
  intros (m & Hm & Hv). exists m. split; [by eapply lookup_weaken|].
  eapply map_Forall2_impl; [exact Hv|]. intros k p s. apply rep_ptr_mono. intros l' a.
  unfold rep_set. intros. by eapply lookup_weaken.
Qed.

Lemma rep_cors_mono l v : rep_cors h l v → rep_cors h' l v.
Proof.
  assert (∀ p v, rep_ptr (rep_strings h) [] p v → rep_ptr (rep_strings h') [] p v) as Hs.
  { intros p v'. apply rep_ptr_mono. intros l' a. unfold rep_strings. intros. by eapply lookup_weaken. }
  intros (c & Hc & ? & ? & ? & ? & ? & ? & ?). exists c. split_and!; auto. by eapply lookup_weaken.
Qed.

Lemma rep_contour_mono l v : rep_contour h l v → rep_contour h' l v.
Proof.
  intros (c & Hc & ? & ? & Hk & Hcl & Hs & Ho). exists c. split_and!; auto.
  - by eapply lookup_weaken.
  - eapply rep_ptr_mono; [apply rep_keys_mono|done].
  - eapply rep_ptr_mono; [|done]. unfold rep_classes. intros. by eapply lookup_weaken.
  - eapply rep_opt_mono; [|done]. unfold rep_name. intros. by eapply lookup_weaken.
  - eapply rep_opt_mono; [apply rep_cors_mono|done].
Qed.
End RepMono.

(** ** Running the copies

    [h0] is the heap before the copy; the code only adds to it.  [hwp m hf Q]: with [hf] the
    cells allocated so far, [m] returns, leaves [h0] as it is, and [Q] holds of its result
    and of the new cells. *)

Section Wp.
Context (h0 : gmap nat cell).
Implicit Types hf : gmap nat cell.

Definition grown hf (h : heap) : Prop :=
  cells h = h0 ∪ hf ∧ h0 ##ₘ hf ∧ ∀ l, next h ≤ l → cells h !! l = None.

Definition hwp {A} (m : hm A) hf (Q : A → gmap nat cell → Prop) : Prop :=
  ∀ h, grown hf h → ∃ a h' hf', m h = Ret (a, h') ∧ grown hf' h' ∧ Q a hf'.

Lemma hwp_ret {A} (a : A) hf Q : Q a hf → hwp (hret a) hf Q.
Proof. intros HQ h Hh. by exists a, h, hf. Qed.

Lemma hwp_bind {A B} (m : hm A) (f : A → hm B) hf Q :
  hwp m hf (λ a hf, hwp (f a) hf Q) → hwp (m ≫= f) hf Q.
Proof.
  intros Hm h Hh. destruct (Hm h Hh) as (a & h' & hf' & E & Hh' & Hf).
  destruct (Hf h' Hh') as (b & h'' & hf'' & E' & Hh'' & HQ).
  exists b, h'', hf''. unfold mbind, hm_bind. by rewrite E.
Qed.

Lemma hwp_mono {A} (m : hm A) hf (P Q : A → gmap nat cell → Prop) :
  hwp m hf P → (∀ a hf, P a hf → Q a hf) → hwp m hf Q.
Proof. intros Hm HPQ h Hh. destruct (Hm h Hh) as (a & h' & hf' & ? & ? & ?). eauto 10. Qed.

Lemma hwp_alloc c hf (Q : nat → gmap nat cell → Prop) :
  (∀ l, h0 !! l = None → hf !! l = None → Q l (<[l := c]> hf)) → hwp (alloc c) hf Q.
Proof.
  intros HQ h (E & Hd & Hn). unfold alloc.
  assert (cells h !! next h = None) as Hnew by (by apply Hn). rewrite E in Hnew.
  apply lookup_union_None in Hnew as [Hn0 Hnf].
  exists (next h), {| cells := <[next h := c]> (cells h); next := S (next h) |},
    (<[next h := c]> hf).
  split; [done|]. split; [|by apply HQ]. split_and!; simpl.
  - rewrite E. by apply insert_union_r.
  - by apply map_disjoint_insert_r_2.
  - intros l Hl. rewrite lookup_insert_ne by lia. apply Hn. lia.
Qed.

Lemma hwp_assign l c c0 hf Q : hf !! l = Some c0 → Q () (<[l := c]> hf) → hwp (assign l c) hf Q.
Proof.
  intros Hl HQ h (E & Hd & Hn). eexists _, _, _. split; [done|]. split; [|exact HQ]. split_and!; simpl.
  - rewrite E. apply insert_union_r. by eapply map_disjoint_Some_r.
  - apply map_disjoint_insert_r_2; [|done]. by eapply map_disjoint_Some_r.
  - intros l' Hl'. rewrite lookup_insert_ne; [by apply Hn|]. intros ->.
    assert (cells h !! l' = None) as Hx by (by apply Hn).
    rewrite E in Hx. apply lookup_union_None in Hx as [_ Hx]. congruence.
Qed.

Lemma hwp_fetch_old {A} (get : cell → option A) l c a hf Q :
  h0 !! l = Some c → get c = Some a → Q a hf → hwp (fetch_as get l) hf Q.
Proof.
  intros Hl Hg HQ h Hh. exists a, h, hf. split; [|done]. destruct Hh as (E & _ & _).
  unfold fetch_as. by rewrite E, (lookup_union_Some_l _ _ _ _ Hl), Hg.
Qed.

Lemma hwp_fetch_new {A} (get : cell → option A) l c a hf Q :
  hf !! l = Some c → get c = Some a → Q a hf → hwp (fetch_as get l) hf Q.
Proof.
  intros Hl Hg HQ h Hh. exists a, h, hf. split; [|done]. destruct Hh as (E & Hd & _).
  unfold fetch_as. by rewrite E, (lookup_union_Some_r _ _ _ _ Hd Hl), Hg.
Qed.

Lemma hwp_for_each {A} (f : A → hm ()) l hf (Inv : list A → gmap nat cell → Prop) :
  Inv [] hf →
  (∀ d x hf, x ∈ l → Inv d hf → hwp (f x) hf (λ _, Inv (d ++ [x]))) →
  hwp (for_each l f) hf (λ _, Inv l).
Proof.
  intros H0 Hf.
  assert (∀ d k hf, l = d ++ k → Inv d hf → hwp (for_each k f) hf (λ _, Inv l)) as Hgen;
    [|by apply (Hgen [])].
  intros d k. revert d. induction k as [|x k IH]; intros d hf' E Hd; simpl.
  - apply hwp_ret. by rewrite E, app_nil_r.
  - apply hwp_bind. eapply hwp_mono; [apply Hf; [rewrite E; set_solver|exact Hd]|].
    intros u hf'' Hd'. apply (IH (d ++ [x])); [|done]. by rewrite <-app_assoc.
Qed.

(** The new cells other than [out] are left as they are. *)
Definition kept (out : nat) hf hf' : Prop :=
  ∀ x c, x ≠ out → hf !! x = Some c → hf' !! x = Some c.

Lemma kept_trans out hf1 hf2 hf3 : kept out hf1 hf2 → kept out hf2 hf3 → kept out hf1 hf3.
Proof. unfold kept. eauto. Qed.

Lemma kept_sub out hf hf' : kept out hf hf' → delete out hf ⊆ delete out hf'.
Proof.
  intros Hk. apply map_subseteq_spec. intros x c [Hne Hx]%lookup_delete_Some.
  apply lookup_delete_Some. auto.
Qed.

(** Look a cell up through assignments to other cells. *)
Ltac look :=
  repeat first [rewrite lookup_insert_eq by done|rewrite lookup_insert_ne by congruence
               |rewrite lookup_delete_ne by congruence]; try done.
Ltac keep := intros ?x ?c ?Hx ?Hc; look.

(** Copies of one field: allocate, point the field at the copy, fill it. *)
Lemma hwp_copy_strings out (get : cors_struct → option nat) set s v hf :
  (∀ s, set (get s) s = s) → hf !! out = Some (CellCORS s) →
  rep_ptr (rep_strings h0) [] (get s) v →
  hwp (when_not_nil (get s) (copy_strings out set)) hf (λ _ hf', ∃ p',
    hf' !! out = Some (CellCORS (set p' s)) ∧ kept out hf hf' ∧
    rep_ptr (rep_strings (delete out hf')) [] p' v).
Proof.
  intros Hset Hout Hrep. destruct (get s) as [p|] eqn:Eg; cbn [when_not_nil rep_ptr] in *.
  2: { apply hwp_ret. exists None. split_and!; [by rewrite <-Eg, Hset|by keep|done]. }
  unfold copy_strings. apply hwp_bind. eapply hwp_fetch_old; [done..|].
  apply hwp_bind, hwp_alloc. intros l Hl0 Hlf. assert (l ≠ out) as Hne by congruence.
  apply hwp_bind. unfold update_cors. apply hwp_bind.
  eapply hwp_fetch_new; [by look|done|]. eapply hwp_assign; [by look|]. eapply hwp_assign; [by look|].
  exists (Some l). split_and!; [by look|by keep|]. simpl. unfold rep_strings. by look.
Qed.

Lemma rep_strings_kept out hf hf' p v :
  kept out hf hf' → rep_ptr (rep_strings (delete out hf)) [] p v →
  rep_ptr (rep_strings (delete out hf')) [] p v.
Proof.
  intros Hk. apply rep_ptr_mono. unfold rep_strings. intros l a Hl.
  eapply lookup_weaken; [exact Hl|by apply kept_sub].
Qed.

Lemma hwp_CORSPolicy_DeepCopyInto in_ out v c0 hf :
  rep_cors h0 in_ v → hf !! out = Some c0 →
  hwp (CORSPolicy_DeepCopyInto in_ out) hf (λ _ hf', rep_cors hf' out v ∧ kept out hf hf').
Proof.
  intros (c & Hc & E1 & E2 & E3 & R1 & R2 & R3 & R4) Hout. unfold CORSPolicy_DeepCopyInto.
  apply hwp_bind. eapply hwp_fetch_old; [done..|]. apply hwp_bind. eapply hwp_assign; [done|].
  apply hwp_bind. eapply hwp_mono;
    [apply (hwp_copy_strings out os_origin set_origin); [by intros []|by look|done]|].
  intros _ hf1 (p1 & H1 & K1 & S1).
  apply hwp_bind. eapply hwp_mono;
    [apply (hwp_copy_strings out os_methods set_methods (set_origin p1 c)); [by intros []|done|done]|].
  intros _ hf2 (p2 & H2 & K2 & S2).
  apply hwp_bind. eapply hwp_mono;
    [apply (hwp_copy_strings out os_headers set_headers (set_methods p2 (set_origin p1 c))); [by intros []|done|done]|].
  intros _ hf3 (p3 & H3 & K3 & S3).
  eapply hwp_mono; [apply (hwp_copy_strings out os_expose set_expose
    (set_headers p3 (set_methods p2 (set_origin p1 c)))); [by intros []|done|done]|].
  intros _ hf4 (p4 & H4 & K4 & S4). split.
  - assert (∀ p v, rep_ptr (rep_strings (delete out hf4)) [] p v →
      rep_ptr (rep_strings hf4) [] p v) as Hsub.
    { intros p v'. apply rep_ptr_mono. unfold rep_strings. intros l a Hl.
      eapply lookup_weaken; [exact Hl|apply delete_subseteq]. }
    eexists. split; [exact H4|]. simpl. split_and!; try done; apply Hsub;
      eauto using rep_strings_kept.
  - eapply kept_trans; [|eapply kept_trans; [exact K2|eapply kept_trans; [exact K3|exact K4]]].
    eapply kept_trans; [|exact K1]. by keep.
Qed.

(** A structure of another type does not use the cell of a configuration. *)
Lemma rep_cors_delete out s h l v :
  h !! out = Some (CellContour s) → rep_cors h l v → rep_cors (delete out h) l v.
Proof.
  intros Hout.
  assert (∀ p v, rep_ptr (rep_strings h) [] p v → rep_ptr (rep_strings (delete out h)) [] p v) as Hs.
  { intros p v'. apply rep_ptr_mono. unfold rep_strings. intros l' a Hl. by look. }
  intros (c & Hc & ? & ? & ? & ? & ? & ? & ?). exists c. split_and!; auto. by look.
Qed.

(** The same for the fields of the configuration. *)
Section Fields.
Context (out : nat) (s : contour_struct) (hf : gmap nat cell).
Hypothesis Hout : hf !! out = Some (CellContour s).

Lemma hwp_update_contour l c f Q :
  l ≠ out → Q () (<[out := CellContour (f s)]> (<[l := c]> hf)) →
  hwp (update_contour out f) (<[l := c]> hf) Q.
Proof.
  intros Hne HQ. unfold update_contour. apply hwp_bind. eapply hwp_fetch_new; [by look|done|].
  eapply hwp_assign; [by look|done].
Qed.

Lemma hwp_copy_secret v :
  rep_opt (rep_name h0) (cs_secret s) v →
  hwp (when_not_nil (cs_secret s) (copy_secret out)) hf (λ _ hf', ∃ p',
    hf' !! out = Some (CellContour (set_secret p' s)) ∧ kept out hf hf' ∧
    rep_opt (rep_name (delete out hf')) p' v).
Proof.
  intros Hrep. destruct (cs_secret s) as [p|] eqn:Eg, v as [n|]; cbn [when_not_nil rep_opt] in *; try done.
  2: { apply hwp_ret. exists None. split_and!; [|by keep|done]. rewrite Hout, <-Eg. by destruct s. }
  unfold copy_secret. apply hwp_bind. eapply hwp_fetch_old; [done..|].
  apply hwp_bind, hwp_alloc. intros l Hl0 Hlf. assert (l ≠ out) as Hne by congruence.
  apply hwp_bind, hwp_update_contour; [done|]. eapply hwp_assign; [by look|].
  exists (Some l). split_and!; [by look|by keep|]. simpl. unfold rep_name. by look.
Qed.

Lemma hwp_copy_cors v :
  rep_opt (rep_cors h0) (cs_cors s) v →
  hwp (when_not_nil (cs_cors s) (copy_cors out)) hf (λ _ hf', ∃ p',
    hf' !! out = Some (CellContour (set_cors p' s)) ∧ kept out hf hf' ∧
    rep_opt (rep_cors (delete out hf')) p' v).
Proof.
  intros Hrep. destruct (cs_cors s) as [p|] eqn:Eg, v as [n|]; cbn [when_not_nil rep_opt] in *; try done.
  2: { apply hwp_ret. exists None. split_and!; [|by keep|done]. rewrite Hout, <-Eg. by destruct s. }
  unfold copy_cors. apply hwp_bind, hwp_alloc. intros l Hl0 Hlf. assert (l ≠ out) as Hne by congruence.
  apply hwp_bind, hwp_update_contour; [done|].
  eapply hwp_mono; [eapply hwp_CORSPolicy_DeepCopyInto; [done|by look]|].
  intros _ hf' [Hr Hk].
  assert (hf' !! out = Some (CellContour (set_cors (Some l) s))) as Ho by (apply Hk; [done|by look]).
  exists (Some l). split_and!; [done| |by eapply rep_cors_delete].
  intros x c Hx Hc. apply Hk; [congruence|by look].
Qed.

Lemma hwp_copy_classes `{MapOrder} v :
  rep_ptr (rep_classes h0) ∅ (cs_classes s) v →
  hwp (when_not_nil (cs_classes s) (copy_classes out)) hf (λ _ hf', ∃ p',
    hf' !! out = Some (CellContour (set_classes p' s)) ∧ kept out hf hf' ∧
    rep_ptr (rep_classes (delete out hf')) ∅ p' v).
Proof.
  intros Hrep. destruct (cs_classes s) as [p|] eqn:Eg; cbn [when_not_nil rep_ptr] in *.
  2: { apply hwp_ret. exists None. split_and!; [|by keep|done]. rewrite Hout, <-Eg. by destruct s. }
  unfold copy_classes. apply hwp_bind. eapply hwp_fetch_old; [done..|].
  apply hwp_bind, hwp_alloc. intros l Hl0 Hlf. assert (l ≠ out) as Hne by congruence.
  apply hwp_bind, hwp_update_contour; [done|].
  eapply hwp_mono; [apply (hwp_for_each _ _ _ (λ d hf', hf' =
    <[l := CellClasses (foldl (λ t kv, <[kv.1 := kv.2]> t) ∅ d)]>
      (<[out := CellContour (set_classes (Some l) s)]> (<[l := CellClasses ∅]> hf))))|].
  - simpl. symmetry. apply insert_id. by look.
  - intros d [k x] hf' _ ->. apply hwp_bind. eapply hwp_fetch_new; [by look|done|].
    eapply hwp_assign; [by look|]. rewrite insert_insert_eq, foldl_app. done.
  - intros _ hf' ->. exists (Some l). split_and!; [by look|by keep|]. simpl. unfold rep_classes.
    rewrite lookup_delete_ne by done. by rewrite lookup_insert_eq, foldl_insert_range_map.
Qed.

Lemma hwp_copy_set `{MapOrder} ls v hf1 (Q : nat → gmap nat cell → Prop) :
  rep_set h0 ls v →
  (∀ l, h0 !! l = None → hf1 !! l = None → Q l (<[l := CellSet v]> hf1)) → hwp (copy_set ls) hf1 Q.
Proof.
  intros Hv HQ. unfold copy_set. apply hwp_bind. eapply hwp_fetch_old; [done..|].
  apply hwp_bind, hwp_alloc. intros l Hl0 Hlf. apply hwp_bind.
  eapply hwp_mono; [apply (hwp_for_each _ _ _ (λ d hf', hf' = <[l := CellSet (list_to_set d)]> hf1))|].
  - done.
  - intros d k hf' _ ->. apply hwp_bind. eapply hwp_fetch_new; [by look|done|].
    eapply hwp_assign; [by look|]. rewrite insert_insert_eq. do 2 f_equal.
    rewrite list_to_set_app_L. set_solver.
  - intros _ hf' ->. apply hwp_ret. replace (list_to_set (range_set v)) with v; [by apply HQ|].
    apply set_eq. intros k. by rewrite elem_of_list_to_set, elem_of_range_set.
Qed.

(** The map of sets after some of its entries have been copied to [l]. *)
Record keys_copied (hf1 : gmap nat cell) (l : nat) (v : gmap string (gset string))
    (d : list (string * option nat)) (hf' : gmap nat cell) : Prop := {
  kc_kept : kept l hf1 hf';
  kc_map : ∃ m', hf' !! l = Some (CellKeys m') ∧ dom m' = list_to_set d.*1 ∧
    ∀ k p' sv, m' !! k = Some p' → v !! k = Some sv → rep_ptr (rep_set hf') ∅ p' sv
}.

Lemma hwp_copy_key `{MapOrder} hf1 l m v d k p hf' :
  map_Forall2 (λ _, rep_ptr (rep_set h0) ∅) m v → m !! k = Some p →
  keys_copied hf1 l v d hf' →
  hwp (copy_key l (k, p)) hf' (λ _, keys_copied hf1 l v (d ++ [(k, p)])).
Proof.
  intros Hmv Hk [Hkept (m' & Hm' & Hdom & Hrep)].
  pose proof (Hmv k) as Hp. rewrite Hk in Hp. destruct (v !! k) as [sv|] eqn:Hv;
    inversion Hp as [? ? Hps|]; simplify_eq. clear Hp.
  assert (∀ p', dom (<[k := p']> m') = list_to_set ((d ++ [(k, p)]).*1)) as Hdom'.
  { intros p'. rewrite dom_insert_L, Hdom, fmap_app. simpl. rewrite list_to_set_app_L. set_solver. }
  unfold copy_key. cbn [fst snd]. destruct p as [ls|].
  - apply hwp_bind, hwp_bind. eapply hwp_copy_set; [exact Hps|]. intros ls' _ Hls'.
    assert (ls' ≠ l) as Hne by congruence.
    apply hwp_ret, hwp_bind. eapply hwp_fetch_new; [by look|done|]. eapply hwp_assign; [by look|]. split.
    + intros x c Hx Hc. apply Hkept in Hc; [|done]. by look.
    + eexists. split; [by look|]. split; [apply Hdom'|].
      intros k' p' sv' [[<- <-]|[_ Hk']]%lookup_insert_Some Hv'.
      * simplify_eq. simpl. unfold rep_set. by look.
      * eapply rep_ptr_mono; [|by eapply Hrep]. unfold rep_set. intros x a Hx. by look.
  - apply hwp_bind, hwp_bind. eapply hwp_fetch_new; [done|done|]. apply hwp_bind.
    eapply hwp_assign; [done|]. apply hwp_ret, hwp_bind. eapply hwp_fetch_new; [by look|done|].
    eapply hwp_assign; [by look|]. rewrite insert_insert_eq, insert_insert_eq. split.
    + intros x c Hx Hc. apply Hkept in Hc; [|done]. by look.
    + eexists. split; [by look|]. split; [apply Hdom'|].
      intros k' p' sv' [[<- <-]|[_ Hk']]%lookup_insert_Some Hv'.
      * simplify_eq. done.
      * eapply rep_ptr_mono; [|by eapply Hrep]. unfold rep_set. intros x a Hx. by look.
Qed.

Lemma hwp_copy_keys `{MapOrder} v :
  rep_ptr (rep_keys h0) ∅ (cs_keys s) v →
  hwp (when_not_nil (cs_keys s) (copy_keys out)) hf (λ _ hf', ∃ p',
    hf' !! out = Some (CellContour (set_keys p' s)) ∧ kept out hf hf' ∧
    rep_ptr (rep_keys (delete out hf')) ∅ p' v).
Proof.
  intros Hrep. destruct (cs_keys s) as [p|] eqn:Eg; cbn [when_not_nil rep_ptr] in *.
  2: { apply hwp_ret. exists None. split_and!; [|by keep|done]. rewrite Hout, <-Eg. by destruct s. }
  destruct Hrep as (m & Hm & Hmv).
  unfold copy_keys. apply hwp_bind. eapply hwp_fetch_old; [done..|].
  apply hwp_bind, hwp_alloc. intros l Hl0 Hlf. assert (l ≠ out) as Hne by congruence.
  apply hwp_bind, hwp_update_contour; [done|].
  eapply hwp_mono; [apply (hwp_for_each _ _ _ (keys_copied
    (<[out := CellContour (set_keys (Some l) s)]> (<[l := CellKeys ∅]> hf)) l v))|].
  - split; [by keep|]. exists ∅. split; [by look|]. split; [done|]. intros k p' sv. by rewrite lookup_empty.
  - intros d [k p'] hf' Hk Hd. eapply hwp_copy_key; [done| |done]. by apply elem_of_range_map.
  - intros _ hf' [Hkept (m' & Hm' & Hdom & Hr)]. exists (Some l). split_and!.
    + apply Hkept; [done|by look].
    + intros x c Hx Hc. apply Hkept; [congruence|by look].
    + simpl. exists m'. split; [by look|]. intros k.
      assert (dom m' = dom v) as Hdv.
      { rewrite <-(map_Forall2_dom_L _ _ _ Hmv), Hdom. apply set_eq. intros k'.
        rewrite elem_of_list_to_set, elem_of_dom, list_elem_of_fmap. split.
        - intros ([k1 p1] & -> & E%elem_of_range_map). by eexists.
        - intros [p1 E]. exists (k', p1). by rewrite elem_of_range_map. }
      assert (is_Some (m' !! k) ↔ is_Some (v !! k)) as Hk by (by rewrite <-!elem_of_dom, Hdv).
      destruct (m' !! k) as [p'|] eqn:E1, (v !! k) as [sv|] eqn:E2; try constructor.
      * eapply rep_ptr_mono; [|by eapply Hr]. unfold rep_set. intros x a Hx.
        assert (hf' !! out = Some (CellContour (set_keys (Some l) s))) by (apply Hkept; [done|by look]).
        by look.
      * destruct (is_Some_None (A := gset string)). apply Hk. by eexists.
      * destruct (is_Some_None (A := option nat)). apply Hk. by eexists.
Qed.
End Fields.

Lemma hwp_Contour_DeepCopyInto `{MapOrder} in_ out v c0 hf :
  rep_contour h0 in_ v → hf !! out = Some c0 →
  hwp (Contour_DeepCopyInto in_ out) hf (λ _ hf', rep_contour hf' out v ∧ kept out hf hf').
Proof.
  intros (s & Hs & E1 & E2 & Rk & Rc & Rn & Ro) Hout. unfold Contour_DeepCopyInto.
  apply hwp_bind. eapply hwp_fetch_old; [done..|]. apply hwp_bind. eapply hwp_assign; [done|].
  apply hwp_bind. eapply hwp_mono; [apply hwp_copy_keys; [by look|exact Rk]|].
  intros _ hf1 (p1 & H1 & K1 & S1).
  apply hwp_bind. eapply hwp_mono; [apply (hwp_copy_classes out (set_keys p1 s)); [done|exact Rc]|].
  intros _ hf2 (p2 & H2 & K2 & S2).
  apply hwp_bind. eapply hwp_mono;
    [apply (hwp_copy_secret out (set_classes p2 (set_keys p1 s))); [done|exact Rn]|].
  intros _ hf3 (p3 & H3 & K3 & S3).
  eapply hwp_mono;
    [apply (hwp_copy_cors out (set_secret p3 (set_classes p2 (set_keys p1 s)))); [done|exact Ro]|].
  intros _ hf4 (p4 & H4 & K4 & S4). split.
  - pose proof (delete_subseteq hf4 out) as Hd.
    assert (delete out hf3 ⊆ hf4) as D3 by (etrans; [by apply kept_sub|done]).
    assert (delete out hf2 ⊆ hf4) as D2 by (etrans; [by apply kept_sub|done]).
    assert (delete out hf1 ⊆ hf4) as D1 by (etrans; [by apply kept_sub|done]).
    eexists. split; [exact H4|]. simpl. split_and!; [done|done|..].
    + eapply rep_ptr_mono; [|exact S1]. by apply rep_keys_mono.
    + eapply rep_ptr_mono; [|exact S2]. unfold rep_classes. intros. by eapply lookup_weaken.
    + eapply rep_opt_mono; [|exact S3]. unfold rep_name. intros. by eapply lookup_weaken.
    + eapply rep_opt_mono; [|exact S4]. by apply rep_cors_mono.
  - eapply kept_trans; [|eapply kept_trans; [exact K2|eapply kept_trans; [exact K3|exact K4]]].
    eapply kept_trans; [|exact K1]. by keep.
Qed.

Lemma rep_contour_delete out x h l v :
  h !! out = Some (CellConfig x) → rep_contour h l v → rep_contour (delete out h) l v.
Proof.
  intros Hout.
  assert (∀ p v, rep_ptr (rep_strings h) [] p v → rep_ptr (rep_strings (delete out h)) [] p v) as Hstr.
  { intros p v'. apply rep_ptr_mono. unfold rep_strings. intros l' a Hl. by look. }
  intros (c & Hc & ? & ? & Hk & Hcl & Hs & Ho). exists c. split_and!; auto; [by look|..].
  - eapply rep_ptr_mono; [|exact Hk]. intros l' a (m & Hm & Ha). exists m. split; [by look|].
    eapply map_Forall2_impl; [exact Ha|]. intros k p s. apply rep_ptr_mono. unfold rep_set.
    intros l2 a2 Hl2. by look.
  - eapply rep_ptr_mono; [|exact Hcl]. unfold rep_classes. intros l' a Hl. by look.
  - eapply rep_opt_mono; [|exact Hs]. unfold rep_name. intros l' a Hl. by look.
  - eapply rep_opt_mono; [|exact Ho]. intros l' a (c' & Hc' & ? & ? & ? & ? & ? & ? & ?).
    exists c'. split_and!; auto. by look.
Qed.

Lemma hwp_Contour_DeepCopy `{MapOrder} l v hf :
  rep_contour h0 l v →
  hwp (Contour_DeepCopy (Some l)) hf (λ p hf', ∃ l', p = Some l' ∧ rep_contour hf' l' v ∧ hf ⊆ hf').
Proof.
  intros Hr. unfold Contour_DeepCopy. apply hwp_bind, hwp_alloc. intros out _ Hnew. apply hwp_bind.
  eapply hwp_mono; [eapply hwp_Contour_DeepCopyInto; [done|by look]|].
  intros _ hf' [Hr' Hk]. apply hwp_ret. exists out. split_and!; [done..|].
  apply map_subseteq_spec. intros x c Hx. assert (x ≠ out) by congruence. apply Hk; [done|by look].
Qed.

Lemma hwp_Network_DeepCopy l n hf :
  rep_network h0 l n →
  hwp (Network_DeepCopy (Some l)) hf (λ p hf', ∃ l', p = Some l' ∧ rep_network hf' l' n ∧ hf ⊆ hf').
Proof.
  intros Hr. unfold Network_DeepCopy. apply hwp_bind. eapply hwp_fetch_old; [done..|].
  apply hwp_bind, hwp_alloc. intros out _ Hnew. apply hwp_ret. exists out. split_and!; [done| |].
  - unfold rep_network. by look.
  - by apply insert_subseteq.
Qed.

Lemma hwp_Config_DeepCopy `{MapOrder} l v hf :
  rep_config h0 l v →
  hwp (Config_DeepCopy (Some l)) hf (λ p hf', ∃ l', p = Some l' ∧ rep_config hf' l' v ∧ hf ⊆ hf').
Proof.
  intros (c & Hc & (lc & Elc & Rc) & Rn). unfold Config_DeepCopy. apply hwp_bind, hwp_alloc.
  intros out Ho0 Hnew. apply hwp_bind. unfold Config_DeepCopyInto.
  apply hwp_bind. eapply hwp_fetch_old; [done..|]. apply hwp_bind. eapply hwp_assign; [by look|].
  rewrite Elc. cbn [when_not_nil]. apply hwp_bind, hwp_bind, hwp_alloc. intros lc' Hl0 Hlnew.
  assert (lc' ≠ out) as Hne by (intros ->; by rewrite lookup_insert_eq in Hlnew).
  rewrite !lookup_insert_ne in Hlnew by done.
  apply hwp_bind. eapply hwp_fetch_new; [by look|done|]. apply hwp_bind. eapply hwp_assign; [by look|].
  eapply hwp_mono; [eapply hwp_Contour_DeepCopyInto; [exact Rc|by look]|].
  intros _ hf1 [Rc' Hk].
  assert (hf1 !! out = Some (CellConfig {| fs_contour := Some lc'; fs_network := fs_network c |})) as Ho
    by (apply Hk; [done|by look]).
  assert (hf ⊆ hf1) as Hsub.
  { apply map_subseteq_spec. intros x y Hx. apply Hk; [congruence|]. by look. }
  destruct (fs_network c) as [ln|] eqn:En, (cfg_Network v) as [n|] eqn:Ev; try done;
    cbn [when_not_nil].
  - apply hwp_bind. eapply hwp_fetch_old; [exact Rn|done|]. apply hwp_bind, hwp_alloc. intros ln' _ Hn'.
    assert (ln' ≠ out) as Hne' by congruence.
    apply hwp_bind. eapply hwp_fetch_new; [by look|done|]. eapply hwp_assign; [by look|].
    apply hwp_ret. exists out. split_and!; [done| |].
    + eexists. split; [by look|]. split; [|rewrite Ev; simpl; unfold rep_network; by look].
      exists lc'. split; [done|]. eapply rep_contour_mono, rep_contour_delete; [|exact Ho|exact Rc'].
      apply map_subseteq_spec. intros x y [Hx Hy]%lookup_delete_Some. by look.
    + apply map_subseteq_spec. intros x y Hx.
      assert (x ≠ out) by congruence. assert (hf1 !! x = Some y) by (by eapply lookup_weaken). by look.
  - apply hwp_ret, hwp_ret. exists out. split_and!; [done| |done].
    eexists. split; [exact Ho|]. split; [by exists lc'|]. by rewrite Ev.
Qed.
End Wp.

(** ** The store (store.go, and knative.dev/pkg/configmap/store.go)

    [storages] holds the pointer last stored for each ConfigMap name, [notified] the
    calls of the callbacks that run after a store. *)

Definition NetworkConfigName : string := "config-network".

Record UntypedStore := {
  storages : gmap string nat;
  notified : list (string * nat)
}.

Definition NewStore : UntypedStore := {| storages := ∅; notified := [] |}.

Definition UntypedLoad (s : UntypedStore) (name : string) : option nat := storages s !! name.

(** [result] is what the constructor returned for the ConfigMap.  A failure is logged
    when there is a value already, and fatal to the process otherwise. *)
Definition OnConfigChanged (name : string) (result : goerr + nat) (s : UntypedStore)
    : outcome UntypedStore :=
  match result with
  | inl err =>
      match UntypedLoad s name with
      | Some _ => Ret s
      | None => Panic "Error initializing config"
      end
  | inr p => Ret {| storages := <[name := p]> (storages s); notified := notified s ++ [(name, p)] |}
  end.

Section Load.
Context `{MapOrder}.

Definition Load (s : UntypedStore) : hm nat :=
  lc ← match UntypedLoad s ContourConfigName with
       | Some p => Contour_DeepCopy (Some p)
       | None => λ _, Panic "interface conversion: interface is nil, not *config.Contour"
       end;
  ln ← match UntypedLoad s NetworkConfigName with
       | Some p => Network_DeepCopy (Some p)
       | None => λ _, Panic "interface conversion: interface is nil, not *config.Config"
       end;
  alloc (CellConfig {| fs_contour := lc; fs_network := ln |}).

(** The context, as far as the configuration is concerned. *)
Definition ToContext (ctx : option nat) (c : nat) : option nat := Some c.
Definition FromContext (ctx : option nat) : outcome nat :=
  match ctx with
  | Some c => Ret c
  | None => Panic "interface conversion: interface is nil, not *config.Config"
  end.
Definition Store_ToContext (s : UntypedStore) (ctx : option nat) : hm (option nat) :=
  c ← Load s; hret (ToContext ctx c).
End Load.

Lemma Load_spec `{MapOrder} s h pc pn v n :
  (∀ l, next h ≤ l → cells h !! l = None) →
  storages s !! ContourConfigName = Some pc → storages s !! NetworkConfigName = Some pn →
  rep_contour (cells h) pc v → rep_network (cells h) pn n →
  ∃ l h' hf, Load s h = Ret (l, h') ∧ cells h ##ₘ hf ∧ cells h' = cells h ∪ hf ∧
    (∀ l, next h' ≤ l → cells h' !! l = None) ∧
    rep_config hf l {| cfg_Contour := v; cfg_Network := Some n |}.
Proof.
  intros Hh Hc Hn Rc Rn.
  assert (hwp (cells h) (Load s) ∅ (λ l hf,
    rep_config hf l {| cfg_Contour := v; cfg_Network := Some n |})) as Hw.
  { unfold Load, UntypedLoad. rewrite Hc, Hn. apply hwp_bind.
    eapply hwp_mono; [by apply hwp_Contour_DeepCopy|]. intros ? hf1 (lc & -> & Rc' & _).
    apply hwp_bind. eapply hwp_mono; [by apply hwp_Network_DeepCopy|].
    intros ? hf2 (ln & -> & Rn' & Hsub). apply hwp_alloc. intros l _ Hl.
    pose proof (insert_subseteq hf2 l
      (CellConfig {| fs_contour := Some lc; fs_network := Some ln |}) Hl) as Hsub'.
    eexists. split; [by rewrite lookup_insert_eq|]. split.
    - exists lc. split; [done|]. eapply rep_contour_mono; [|exact Rc']. by etrans.
    - simpl. unfold rep_network. by eapply lookup_weaken. }
  destruct (Hw h) as (l & h' & hf & E & (Eh & Hd & Hn') & Hr).
  { split_and!; [by rewrite (right_id_L ∅ (∪))|apply map_disjoint_empty_r|done]. }
  by exists l, h', hf.
Qed.

(** ** Reconciles cannot damage the stored configuration

    [owned] are the cells that were handed to readers, or that they allocated: they may
    write anything there.  [last_contour] and [last_network] are the values of the last
    ConfigMaps that were accepted. *)

Section Isolation.
Context `{MapOrder}.
Context (parse_contour : gmap string string → outcome Contour).
Context (parse_network : gmap string string → outcome NetworkConfig).

Record world := {
  w_heap : heap;
  w_store : UntypedStore;
  w_owned : gset nat;
  last_contour : option Contour;
  last_network : option NetworkConfig
}.

Definition start : world := {|
  w_heap := {| cells := ∅; next := 0 |}; w_store := NewStore; w_owned := ∅;
  last_contour := None; last_network := None |}.

(** [hf]: new cells above the old ones, as an allocation may lay them out. *)
Definition allocated (h : heap) (hf : gmap nat cell) (h' : heap) : Prop :=
  cells h' = cells h ∪ hf ∧ cells h ##ₘ hf ∧ ∀ l, next h' ≤ l → cells h' !! l = None.

Inductive step : world → world → Prop :=
  | StepContour w data v hf h' p s' :
      parse_contour data = Ret v → allocated (w_heap w) hf h' → rep_contour hf p v →
      OnConfigChanged ContourConfigName (inr p) (w_store w) = Ret s' →
      step w {| w_heap := h'; w_store := s'; w_owned := w_owned w; last_contour := Some v;
                last_network := last_network w |}
  | StepNetwork w data n hf h' p s' :
      parse_network data = Ret n → allocated (w_heap w) hf h' → rep_network hf p n →
      OnConfigChanged NetworkConfigName (inr p) (w_store w) = Ret s' →
      step w {| w_heap := h'; w_store := s'; w_owned := w_owned w; last_contour := last_contour w;
                last_network := Some n |}
  | StepRejected w name e s' :
      OnConfigChanged name (inl e) (w_store w) = Ret s' →
      step w {| w_heap := w_heap w; w_store := s'; w_owned := w_owned w;
                last_contour := last_contour w; last_network := last_network w |}
  | StepLoad w l h' :
      Load (w_store w) (w_heap w) = Ret (l, h') →
      step w {| w_heap := h'; w_store := w_store w;
                w_owned := w_owned w ∪ (dom (cells h') ∖ dom (cells (w_heap w)));
                last_contour := last_contour w; last_network := last_network w |}
  | StepAlloc w c :
      step w {| w_heap := {| cells := <[next (w_heap w) := c]> (cells (w_heap w));
                             next := S (next (w_heap w)) |};
                w_store := w_store w; w_owned := w_owned w ∪ {[next (w_heap w)]};
                last_contour := last_contour w; last_network := last_network w |}
  | StepWrite w l c :
      l ∈ w_owned w →
      step w {| w_heap := {| cells := <[l := c]> (cells (w_heap w)); next := next (w_heap w) |};
                w_store := w_store w; w_owned := w_owned w;
                last_contour := last_contour w; last_network := last_network w |}.

(** The stored structures live in cells [hs] that no reader owns. *)
Record stored (w : world) (hs : gmap nat cell) : Prop := {
  so_fresh l : next (w_heap w) ≤ l → cells (w_heap w) !! l = None;
  so_owned l : l ∈ w_owned w → is_Some (cells (w_heap w) !! l) ∧ hs !! l = None;
  so_cells : hs ⊆ cells (w_heap w);
  so_contour : rep_opt (rep_contour hs) (storages (w_store w) !! ContourConfigName) (last_contour w);
  so_network : rep_opt (rep_network hs) (storages (w_store w) !! NetworkConfigName) (last_network w)
}.

Lemma rep_contour_opt_mono h h' p o :
  h ⊆ h' → rep_opt (rep_contour h) p o → rep_opt (rep_contour h') p o.
Proof. intros. eapply rep_opt_mono; [|done]. intros. by eapply rep_contour_mono. Qed.

Lemma rep_network_opt_mono h h' p o :
  h ⊆ h' → rep_opt (rep_network h) p o → rep_opt (rep_network h') p o.
Proof. intros. eapply rep_opt_mono; [|done]. unfold rep_network. intros. by eapply lookup_weaken. Qed.

Lemma stored_start : stored start ∅.
Proof. split; simpl; [intros; apply lookup_empty|intros l Hl; set_solver|done..]. Qed.

(** A new structure is added next to the stored ones. *)
Lemma stored_allocated w hs hf h' :
  stored w hs → allocated (w_heap w) hf h' →
  hs ⊆ hs ∪ hf ∧ hf ⊆ hs ∪ hf ∧ hs ∪ hf ⊆ cells h' ∧
  ∀ l, l ∈ w_owned w → is_Some (cells h' !! l) ∧ (hs ∪ hf) !! l = None.
Proof.
  intros Hs (E & Hd & _). pose proof (so_cells _ _ Hs) as Hsub.
  assert (hs ##ₘ hf) as Hd' by (by eapply map_disjoint_weaken_l).
  split_and!; [apply map_union_subseteq_l|by apply map_union_subseteq_r| |].
  - rewrite E. by apply map_union_mono_r.
  - intros l [[c Hc] Hl]%(so_owned _ _ Hs). split.
    + rewrite E, (lookup_union_Some_l _ _ _ _ Hc). by eexists.
    + apply lookup_union_None. split; [done|].
      eapply map_disjoint_Some_l; [exact Hd|exact Hc].
Qed.

(** When [Load] returns, both configurations are there. *)
Lemma Load_stored s h l h' :
  Load s h = Ret (l, h') →
  is_Some (storages s !! ContourConfigName) ∧ is_Some (storages s !! NetworkConfigName).
Proof.
  unfold Load, UntypedLoad, mbind, hm_bind.
  destruct (storages s !! ContourConfigName) as [p|]; [|done].
  destruct (Contour_DeepCopy _ _) as [[? ?]| |]; [|done..].
  destruct (storages s !! NetworkConfigName); [|done]. intros _. split; by eexists.
Qed.

Lemma step_stored w w' hs : stored w hs → step w w' → ∃ hs', stored w' hs'.
Proof.
  intros Hs Hstep. destruct Hstep as [w data v hf h' p s' _ Ha Hr [= <-]|w data n hf h' p s' _ Ha Hr [= <-]
    |w name e s' Hc|w l h' Hl|w c|w l c Hl].
  - destruct (stored_allocated _ _ _ _ Hs Ha) as (S1 & S2 & S3 & Hown). exists (hs ∪ hf).
    split; simpl; [apply Ha|done|done| |].
    + rewrite lookup_insert_eq. simpl. by eapply rep_contour_mono.
    + rewrite lookup_insert_ne by done. eapply rep_network_opt_mono; [exact S1|apply Hs].
  - destruct (stored_allocated _ _ _ _ Hs Ha) as (S1 & S2 & S3 & Hown). exists (hs ∪ hf).
    split; simpl; [apply Ha|done|done| |].
    + rewrite lookup_insert_ne by done. eapply rep_contour_opt_mono; [exact S1|apply Hs].
    + rewrite lookup_insert_eq. simpl. unfold rep_network. by eapply lookup_weaken.
  - exists hs. simpl in Hc. destruct (UntypedLoad _ _); [|done]. injection Hc as <-. by destruct Hs.
  - destruct (Load_stored _ _ _ _ Hl) as [[pc Ec] [pn En]].
    pose proof (so_contour _ _ Hs) as Rc. pose proof (so_network _ _ Hs) as Rn. rewrite Ec in Rc. rewrite En in Rn.
    destruct (last_contour w) as [v|] eqn:Ev; [|done]. destruct (last_network w) as [n|] eqn:Enn; [|done].
    simpl in Rc, Rn.
    destruct (Load_spec (w_store w) (w_heap w) pc pn v n) as (l2 & h2 & hf & E2 & Hd & Eh & Hf & _);
      [apply Hs|done|done| | |].
    { eapply rep_contour_mono; [apply Hs|done]. }
    { unfold rep_network. eapply lookup_weaken; [done|apply Hs]. }
    rewrite Hl in E2. injection E2 as <- <-. exists hs. split; simpl; [done| | | |].
    + intros x [Hx|[Hx Hnx]%elem_of_difference]%elem_of_union.
      * destruct (so_owned _ _ Hs _ Hx) as [[c Hc] Hn]. split; [|done].
        rewrite Eh, (lookup_union_Some_l _ _ _ _ Hc). by eexists.
      * split; [by apply elem_of_dom|]. apply not_elem_of_dom in Hnx.
        by eapply lookup_weaken_None; [|apply Hs].
    + rewrite Eh. etrans; [apply Hs|apply map_union_subseteq_l].
    + by rewrite Ec.
    + by rewrite En.
  - exists hs. pose proof (so_fresh _ _ Hs (next (w_heap w)) (le_n _)) as Hnew.
    destruct Hs; split; simpl; [| | |done|done].
    + intros l Hl. rewrite lookup_insert_ne by lia. apply so_fresh0. lia.
    + intros l [Hl| ->%elem_of_singleton]%elem_of_union.
      * destruct (so_owned0 l Hl) as [[c' Hc'] ?]. split; [|done].
        rewrite lookup_insert_ne by (intros E; by rewrite <-E, Hnew in Hc'). by eexists.
      * split; [rewrite lookup_insert_eq; by eexists|]. by eapply lookup_weaken_None.
    + etrans; [done|]. by apply insert_subseteq.
  - exists hs. destruct Hs; split; simpl; [| | |done|done].
    + intros x Hx. rewrite lookup_insert_ne; [auto|]. intros ->.
      destruct (so_owned0 x Hl) as [[? Hc] _]. rewrite so_fresh0 in Hc by done. done.
    + intros x Hx. destruct (so_owned0 x Hx) as [[c' Hc'] ?]. split; [|done].
      destruct (decide (x = l)) as [->|]; [rewrite lookup_insert_eq; by eexists|].
      rewrite lookup_insert_ne by done. by eexists.
    + apply insert_subseteq_r; [|done]. by apply so_owned0.
Qed.

Lemma steps_stored w w' hs : stored w hs → rtc step w w' → ∃ hs', stored w' hs'.
Proof.
  intros Hs Hr. revert hs Hs. induction Hr as [|w w1 w2 H1 Hr IH]; intros hs Hs; [by exists hs|].
  destruct (step_stored _ _ _ Hs H1) as [hs1 Hs1]. by eapply IH.
Qed.

(** What a load gives once both configurations are there. *)
Lemma stored_load w hs v n : stored w hs → last_contour w = Some v → last_network w = Some n →
  ∃ l h' hf, Load (w_store w) (w_heap w) = Ret (l, h') ∧ cells (w_heap w) ##ₘ hf ∧
    cells h' = cells (w_heap w) ∪ hf ∧ rep_config hf l {| cfg_Contour := v; cfg_Network := Some n |}.
Proof.
  intros Hs Ev En. pose proof (so_contour _ _ Hs) as Rc. pose proof (so_network _ _ Hs) as Rn. rewrite Ev in Rc. rewrite En in Rn.
  destruct (storages (w_store w) !! ContourConfigName) as [pc|] eqn:Ec; [|done].
  destruct (storages (w_store w) !! NetworkConfigName) as [pn|] eqn:Enn; [|done].
  apply (rep_contour_mono _ _ (so_cells _ _ Hs)) in Rc.
  apply (rep_network_opt_mono _ _ (Some pn) (Some n) (so_cells _ _ Hs)) in Rn.
  destruct (Load_spec (w_store w) (w_heap w) pc pn v n) as (l & h' & hf & ? & ? & ? & _ & ?);
    [apply Hs|done..|]. by exists l, h', hf.
Qed.
End Isolation.

(** C32: Whatever readers write into the configurations they were given, and however
    updates, failed updates and loads interleave, a load gives the last accepted
    configuration: a new structure, disjoint from every cell that existed before, that
    stands for the values parsed from the last accepted ConfigMaps.  Before both
    ConfigMaps have been accepted, a load panics. *)
Theorem Load_isolated `{MapOrder} parse_contour parse_network w :
  rtc (step parse_contour parse_network) start w →
  match last_contour w, last_network w with
  | Some v, Some n =>
      ∃ l h' hf, Load (w_store w) (w_heap w) = Ret (l, h') ∧ cells (w_heap w) ##ₘ hf ∧
        cells h' = cells (w_heap w) ∪ hf ∧
        rep_config hf l {| cfg_Contour := v; cfg_Network := Some n |}
  | _, _ => ∃ msg, Load (w_store w) (w_heap w) = Panic msg
  end.
Proof.
  intros Hr. destruct (steps_stored _ _ _ _ _ stored_start Hr) as [hs Hs].
  pose proof (so_contour _ _ Hs) as Rc. pose proof (so_network _ _ Hs) as Rn.
  destruct (last_contour w) as [v|] eqn:Ev, (storages (w_store w) !! ContourConfigName) as [pc|] eqn:Ec; try done.
  2: { unfold Load, UntypedLoad. rewrite Ec. by eexists. }
  destruct (last_network w) as [n|] eqn:Enn, (storages (w_store w) !! NetworkConfigName) as [pn|] eqn:En; try done.
  - by apply (stored_load w hs).
  - apply (rep_contour_mono _ _ (so_cells _ _ Hs)) in Rc.
    destruct (hwp_Contour_DeepCopy (cells (w_heap w)) pc v ∅ Rc (w_heap w)) as (a & h' & hf & E & _ & _).
    { split_and!; [by rewrite (right_id_L ∅ (∪))|apply map_disjoint_empty_r|apply Hs]. }
    unfold Load, UntypedLoad, mbind, hm_bind. rewrite Ec, E, En. by eexists.
Qed.

(** Both ConfigMaps arrive (config-contour empty, so with the defaults), a reconcile loads
    them and then overwrites the envoy Services of its copy. *)
Section Witness.
#[local] Existing Instance ascending_order.

Definition no_yaml {A} (_ : string) : goerr + A := inl (Errorf "no document" []).
Definition sample_parse : gmap string string → outcome Contour :=
  NewContourFromConfigMap no_yaml no_yaml.
Definition sample_parse_network (_ : gmap string string) : outcome NetworkConfig :=
  Ret {| SystemInternalTLS := "Disabled" |}.

Definition default_contour : Contour := {|
  VisibilityKeys := default_keys; VisibilityClasses := default_classes; DefaultTLSSecret := None;
  TimeoutPolicyResponse := "infinity"; TimeoutPolicyIdle := "infinity"; ContourCORSPolicy := None |}.

Definition contour_cells : gmap nat cell :=
  <[0 := CellSet {["contour-internal/envoy"]}]> (<[1 := CellSet {["contour-external/envoy"]}]>
  (<[2 := CellKeys (<[IngressVisibilityClusterLocal := Some 0]>
                     {[IngressVisibilityExternalIP := Some 1]})]>
  (<[3 := CellClasses default_classes]>
  {[4 := CellContour {| cs_keys := Some 2; cs_classes := Some 3; cs_secret := None;
                        cs_response := "infinity"; cs_idle := "infinity"; cs_cors := None |}]}))).

Definition store_w1 : world := {|
  w_heap := {| cells := ∅ ∪ contour_cells; next := 5 |};
  w_store := {| storages := <[ContourConfigName := 4]> ∅; notified := [(ContourConfigName, 4)] |};
  w_owned := ∅; last_contour := Some default_contour; last_network := None |}.

Definition network_cells : gmap nat cell := {[5 := CellNetwork {| SystemInternalTLS := "Disabled" |}]}.
Definition store_w2 : world := {|
  w_heap := {| cells := cells (w_heap store_w1) ∪ network_cells; next := 6 |};
  w_store := {| storages := <[NetworkConfigName := 5]> (storages (w_store store_w1));
                notified := [(ContourConfigName, 4); (NetworkConfigName, 5)] |};
  w_owned := ∅; last_contour := Some default_contour;
  last_network := Some {| SystemInternalTLS := "Disabled" |} |}.

Definition loaded_heap : heap :=
  match Load (w_store store_w2) (w_heap store_w2) with Ret (_, h) => h | _ => w_heap store_w2 end.
Definition store_w3 : world := {|
  w_heap := loaded_heap; w_store := w_store store_w2;
  w_owned := ∅ ∪ (dom (cells loaded_heap) ∖ dom (cells (w_heap store_w2)));
  last_contour := last_contour store_w2; last_network := last_network store_w2 |}.

Definition store_w4 : world := {|
  w_heap := {| cells := <[8 := CellSet {["elsewhere/proxy"]}]> (cells (w_heap store_w3));
               next := next (w_heap store_w3) |};
  w_store := w_store store_w3; w_owned := w_owned store_w3;
  last_contour := last_contour store_w3; last_network := last_network store_w3 |}.

Lemma contour_cells_rep : rep_contour contour_cells 4 default_contour.
Proof.
  eexists. split; [reflexivity|]. simpl. split_and!; try done.
  eexists. split; [reflexivity|]. unfold default_contour, default_keys. simpl.
  apply map_Forall2_insert_2; [done|]. by apply map_Forall2_singleton.
Qed.

Lemma Load_isolated_witness :
  ∃ l h' hf, Load (w_store store_w4) (w_heap store_w4) = Ret (l, h') ∧
    cells (w_heap store_w4) ##ₘ hf ∧ cells h' = cells (w_heap store_w4) ∪ hf ∧
    rep_config hf l {| cfg_Contour := default_contour;
                       cfg_Network := Some {| SystemInternalTLS := "Disabled" |} |}.
Proof.
  apply (Load_isolated sample_parse sample_parse_network store_w4).
  eapply rtc_l; [apply (StepContour _ _ start ∅ default_contour contour_cells
    {| cells := ∅ ∪ contour_cells; next := 5 |} 4 (w_store store_w1))|].
  { vm_compute. reflexivity. }
  { split_and!; [done|apply map_disjoint_empty_l|]. intros l Hl. simpl in *. rewrite (left_id_L ∅ (∪)).
    unfold contour_cells. rewrite !lookup_insert_ne by lia. by rewrite lookup_singleton_ne by lia. }
  { apply contour_cells_rep. }
  { reflexivity. }
  eapply rtc_l; [apply (StepNetwork _ _ store_w1 ∅ {| SystemInternalTLS := "Disabled" |} network_cells
    (w_heap store_w2) 5 (w_store store_w2))|].
  { reflexivity. }
  { split_and!; [done|by apply map_disjoint_singleton_r_2|]. intros l Hl. simpl in *.
    rewrite (left_id_L ∅ (∪)). apply lookup_union_None.
    unfold contour_cells, network_cells. rewrite !lookup_insert_ne by lia.
    by rewrite !lookup_singleton_ne by lia. }
  { reflexivity. }
  { reflexivity. }
  eapply rtc_l; [apply (StepLoad _ _ store_w2 12 loaded_heap); vm_compute; reflexivity|].
  eapply rtc_l; [apply (StepWrite _ _ store_w3 8 (CellSet {["elsewhere/proxy"]}))|apply rtc_refl].
  vm_compute. tauto.
Defined.
End Witness.
