(* ===== verification/Startup.v ===== *)
(** * The process (cmd/controller/main.go)

    What [main] does before the first reconcile (knative.dev/pkg/injection/sharedmain): the
    constructor of the controller registers the configuration store with the ConfigMap
    watcher, the watcher is started and waited for, then the informers are, and only then do
    the workers run.  ConfigMap events are handled by another goroutine all the while, a
    rejected first ConfigMap ends the process, and so does a stop before the workers run.

    The process is a transition system around the store of [Store].  [workers_find_config]
    says that a worker never meets a store without a configuration, nor an informer that has
    not synced; [startup_can_finish] that start-up is never stuck. *)

From S2P Require Import Prelude Meta Regexp Ingress Duration HTTPProxy Config Store.

(** ** Watching ConfigMaps (knative.dev/pkg/configmap) *)

Record ConfigMap := { cm_name : string; cm_data : gmap string string }.
#[export] Instance ConfigMap_eq_dec : EqDecision ConfigMap.
Proof. solve_decision. Defined.

(** Who is called: the configuration store, or one of the watchers of the framework's own
    settings, which log what they cannot use. *)
Inductive observer := ObserveStore | ObserveOther.

(** [ManualWatcher.Watch] *)
Definition Watch (name : string) (o : observer) (w : gmap string (list observer)) : gmap string (list observer) :=
  <[name := default [] (w !! name) ++ [o]]> w.

(** [UntypedStore.WatchConfigs]: the constructors of config/store.go. *)
Definition constructor_names : list string := [ContourConfigName; NetworkConfigName].
Definition WatchConfigs (w : gmap string (list observer)) : gmap string (list observer) :=
  foldl (λ w name, Watch name ObserveStore w) w constructor_names.

(** A constructor of a controller, as far as the watcher is concerned; that of this program. *)
Definition constructor : Type := gmap string (list observer) → gmap string (list observer).
Definition NewController_watches : constructor := WatchConfigs.
Definition ControllersAndWebhooksFromCtors (ctors : list constructor) : constructor := λ w, foldl (λ w cf, cf w) w ctors.

(** The settings of the framework are watched if their ConfigMaps exist (when that cannot be
    found out, the process ends before it has done anything). *)
Definition WatchIfExists (name : string) (exists_ : bool) : constructor := λ w,
  if exists_ then Watch name ObserveOther w else w.

(** ** The process *)

(** Where [MainWithConfig] is: before [cmw.Start]; in it, waiting for the informer, checking
    that what is watched exists, waiting for the first calls; waiting for the i-th informer;
    running workers; or gone. *)
Inductive main_pc :=
  | MStart
  | MWaitForCacheSync
  | MCheckResources
  | MWaitForAllKeys
  | MStartInformers (i : nat)
  | MRunning
  | MFatal (reason : string).

(** An event of the ConfigMap informer, on its way to the handler. *)
Inductive cm_event := CMAdd (c : ConfigMap) | CMUpdate (old new : ConfigMap) | CMDelete (c : ConfigMap).

Record process := {
  pr_pc : main_pc;
  pr_observers : gmap string (list observer);
  pr_cache : gmap string ConfigMap;          (* the lister *)
  pr_cache_synced : bool;
  pr_events : list cm_event;                 (* not handled yet *)
  pr_pending : gset string;                  (* the keys of the wait group *)
  pr_informers : list bool;                  (* which have synced *)
  pr_world : Store.world
}.

Definition goto pc p := {|
  pr_pc := pc; pr_observers := pr_observers p; pr_cache := pr_cache p; pr_cache_synced := pr_cache_synced p;
  pr_events := pr_events p; pr_pending := pr_pending p; pr_informers := pr_informers p; pr_world := pr_world p |}.
Definition with_cache cache events p := {|
  pr_pc := pr_pc p; pr_observers := pr_observers p; pr_cache := cache; pr_cache_synced := pr_cache_synced p;
  pr_events := events; pr_pending := pr_pending p; pr_informers := pr_informers p; pr_world := pr_world p |}.
Definition with_cache_synced p := {|
  pr_pc := pr_pc p; pr_observers := pr_observers p; pr_cache := pr_cache p; pr_cache_synced := true;
  pr_events := pr_events p; pr_pending := pr_pending p; pr_informers := pr_informers p; pr_world := pr_world p |}.
Definition with_pending pending p := {|
  pr_pc := pr_pc p; pr_observers := pr_observers p; pr_cache := pr_cache p; pr_cache_synced := pr_cache_synced p;
  pr_events := pr_events p; pr_pending := pending; pr_informers := pr_informers p; pr_world := pr_world p |}.
Definition with_informer i p := {|
  pr_pc := pr_pc p; pr_observers := pr_observers p; pr_cache := pr_cache p; pr_cache_synced := pr_cache_synced p;
  pr_events := pr_events p; pr_pending := pr_pending p; pr_informers := <[i := true]> (pr_informers p); pr_world := pr_world p |}.
Definition with_store w p := {|
  pr_pc := pr_pc p; pr_observers := pr_observers p; pr_cache := pr_cache p; pr_cache_synced := pr_cache_synced p;
  pr_events := pr_events p; pr_pending := pr_pending p; pr_informers := pr_informers p; pr_world := w |}.

(** The process when [cmw.Start] is called: the constructors ran, then the watches of the
    framework; [n] informers were injected. *)
Definition main_process (logging observability : bool) (n : nat) : process := {|
  pr_pc := MStart;
  pr_observers := WatchIfExists "config-observability" observability
                    (WatchIfExists "config-logging" logging
                      (ControllersAndWebhooksFromCtors [NewController_watches] ∅));
  pr_cache := ∅; pr_cache_synced := false; pr_events := []; pr_pending := ∅;
  pr_informers := replicate n false; pr_world := Store.start |}.

(** The next step of the main goroutine, if it is not waiting. *)
Definition main_step (p : process) : option process :=
  match pr_pc p with
  | MStart => Some (goto MWaitForCacheSync (with_pending (dom (pr_observers p)) p))
  | MWaitForCacheSync => if pr_cache_synced p then Some (goto MCheckResources p) else None
  | MCheckResources =>
      Some (goto (if decide (dom (pr_observers p) ⊆ dom (pr_cache p)) then MWaitForAllKeys
                  else MFatal "Failed to start configmap watcher") p)
  | MWaitForAllKeys => if decide (pr_pending p = ∅) then Some (goto (MStartInformers 0) p) else None
  | MStartInformers i =>
      match pr_informers p !! i with
      | Some true => Some (goto (MStartInformers (S i)) p)
      | Some false => None
      | None => Some (goto MRunning p)
      end
  | MRunning | MFatal _ => None
  end.

(** The waits that a stop ends. *)
Definition stopped_at (pc : main_pc) : bool :=
  match pc with MWaitForCacheSync | MWaitForAllKeys | MStartInformers _ => true | _ => false end.
Definition watching (pc : main_pc) : bool := match pc with MStart | MFatal _ => false | _ => true end.
Definition informing (pc : main_pc) : bool := match pc with MStartInformers _ | MRunning => true | _ => false end.

(** ** Every configuration can be laid out on a heap *)

Section Layout.
Context (h0 : gmap nat cell).

(** After [hf] there is room for cells of which [Q] holds. *)
Definition fits {A} (hf : gmap nat cell) (Q : A → gmap nat cell → Prop) : Prop :=
  ∀ h, grown h0 hf h → ∃ a h' hf', grown h0 hf' h' ∧ hf ⊆ hf' ∧ Q a hf'.

Lemma fits_ret {A} (a : A) hf Q : Q a hf → fits hf Q.
Proof. intros HQ h Hh. by exists a, h, hf. Qed.

Lemma fits_bind {A B} hf (P : A → gmap nat cell → Prop) (Q : B → gmap nat cell → Prop) :
  fits hf P → (∀ a hf', hf ⊆ hf' → P a hf' → fits hf' Q) → fits hf Q.
Proof.
  intros HP HQ h Hh. destruct (HP h Hh) as (a & h1 & hf1 & Hh1 & Hs1 & Ha).
  destruct (HQ a hf1 Hs1 Ha h1 Hh1) as (b & h2 & hf2 & Hh2 & Hs2 & Hb). exists b, h2, hf2.
  split_and!; [done|by etrans|done].
Qed.

Lemma fits_cell c hf : fits hf (λ l hf', hf' !! l = Some c).
Proof.
  intros h Hh. destruct (hwp_alloc h0 c hf (λ l hf', hf ⊆ hf' ∧ hf' !! l = Some c)) with (h := h) as (l & h' & hf' & _ & Hh' & Hs & Hl); [|done|by exists l, h', hf'].
  intros l _ Hl. split; [by apply insert_subseteq|apply lookup_insert_eq].
Qed.

Lemma fits_keys (v : gmap string (gset string)) hf : fits hf (λ (m : gmap string (option nat)) hf', map_Forall2 (λ _, rep_ptr (rep_set hf') ∅) m v).
Proof.
  induction v as [|k s v Hk IH] using map_ind; [apply (fits_ret ∅), map_Forall2_empty|].
  eapply fits_bind; [exact IH|]. intros m hf1 _ Hm. eapply fits_bind; [apply (fits_cell (CellSet s))|].
  intros l hf2 Hs Hl. apply (fits_ret (<[k := Some l]> m)). apply map_Forall2_insert_2; [done|].
  eapply map_Forall2_impl; [exact Hm|]. intros k' p s'. apply rep_ptr_mono. intros x a. unfold rep_set. intros. by eapply lookup_weaken.
Qed.

Lemma fits_strings l hf : fits hf (λ p hf', rep_ptr (rep_strings hf') [] p l).
Proof. eapply fits_bind; [apply (fits_cell (CellStrings l))|]. intros p hf' _ Hp. by apply (fits_ret (Some p)). Qed.

Lemma rep_strings_mono hf hf' p l : hf ⊆ hf' → rep_ptr (rep_strings hf) [] p l → rep_ptr (rep_strings hf') [] p l.
Proof. intros Hs. apply rep_ptr_mono. intros x a. unfold rep_strings. intros. by eapply lookup_weaken. Qed.

Lemma fits_cors v hf : fits hf (λ l hf', rep_cors hf' l v).
Proof.
  eapply fits_bind; [apply (fits_strings (co_allow_origin v))|]. intros po h1 _ Ho.
  eapply fits_bind; [apply (fits_strings (co_allow_methods v))|]. intros pm h2 S2 Hm.
  eapply fits_bind; [apply (fits_strings (co_allow_headers v))|]. intros ph h3 S3 Hh.
  eapply fits_bind; [apply (fits_strings (co_expose_headers v))|]. intros pe h4 S4 He.
  eapply fits_bind; [apply (fits_cell (CellCORS {| os_credentials := co_allow_credentials v; os_origin := po; os_methods := pm;
    os_headers := ph; os_expose := pe; os_max_age := co_max_age v; os_private := co_allow_private_network v |}))|].
  intros l h5 S5 Hl. apply (fits_ret l). eexists. split; [exact Hl|].
  assert (h3 ⊆ h5) as T3 by by etrans. assert (h2 ⊆ h5) as T2 by by etrans. assert (h1 ⊆ h5) as T1 by by etrans.
  split_and!; [done..|exact (rep_strings_mono _ _ _ _ T1 Ho)|exact (rep_strings_mono _ _ _ _ T2 Hm)|
    exact (rep_strings_mono _ _ _ _ T3 Hh)|exact (rep_strings_mono _ _ _ _ S5 He)].
Qed.

Lemma fits_contour v hf : fits hf (λ l hf', rep_contour hf' l v).
Proof.
  eapply fits_bind; [apply (fits_keys (VisibilityKeys v))|]. intros m h1 _ Hm.
  eapply fits_bind; [apply (fits_cell (CellKeys m))|]. intros lk h2 S2 Hk.
  assert (rep_keys h2 lk (VisibilityKeys v)) as Rk.
  { exists m. split; [done|]. eapply map_Forall2_impl; [exact Hm|]. intros k p s. apply rep_ptr_mono. intros x a.
    unfold rep_set. intros. by eapply lookup_weaken. }
  eapply fits_bind; [apply (fits_cell (CellClasses (VisibilityClasses v)))|]. intros lc h3 S3 Hc.
  assert (fits h3 (λ p hf', rep_opt (rep_name hf') p (DefaultTLSSecret v))) as Hsec.
  { destruct (DefaultTLSSecret v) as [s|]; [|by apply (fits_ret None)].
    eapply fits_bind; [apply (fits_cell (CellName s))|]. intros l h' _ Hl. by apply (fits_ret (Some l)). }
  eapply fits_bind; [exact Hsec|]. intros ps h4 S4 Hs.
  assert (fits h4 (λ p hf', rep_opt (rep_cors hf') p (ContourCORSPolicy v))) as Hcors.
  { destruct (ContourCORSPolicy v) as [c|]; [|by apply (fits_ret None)].
    eapply fits_bind; [apply (fits_cors c)|]. intros l h' _ Hl. by apply (fits_ret (Some l)). }
  eapply fits_bind; [exact Hcors|]. intros po h5 S5 Ho.
  eapply fits_bind; [apply (fits_cell (CellContour {| cs_keys := Some lk; cs_classes := Some lc; cs_secret := ps;
    cs_response := TimeoutPolicyResponse v; cs_idle := TimeoutPolicyIdle v; cs_cors := po |}))|].
  intros l h6 S6 Hl. assert (h4 ⊆ h6) as T4 by by etrans. assert (h3 ⊆ h6) as T3 by by etrans.
  assert (h2 ⊆ h6) as T2 by by etrans. apply (fits_ret l). eexists. split; [exact Hl|]. split_and!; [done|done| | | |]; simpl.
  - by eapply rep_keys_mono; [|exact Rk].
  - by eapply lookup_weaken; [exact Hc|].
  - eapply rep_opt_mono; [|exact Hs]. unfold rep_name. intros x a E. by eapply lookup_weaken.
  - eapply rep_opt_mono; [|exact Ho]. intros x a. apply rep_cors_mono. done.
Qed.
End Layout.

(** A place for it in the heap of a world. *)
Lemma allocated_fits {A} (h : heap) (Q : A → gmap nat cell → Prop) :
  (∀ l, next h ≤ l → cells h !! l = None) → fits (cells h) ∅ Q → ∃ hf h' a, allocated h hf h' ∧ Q a hf.
Proof.
  intros Hf HQ. destruct (HQ h) as (a & h' & hf & (E & Hd & Hn) & _ & Ha).
  { split_and!; [by rewrite (right_id_L ∅ (∪))|apply map_disjoint_empty_r|done]. }
  exists hf, h', a. done.
Qed.

(** ** The steps *)

Section Process.
Context `{MapOrder}.
Context (parse_contour : gmap string string → outcome Contour).
Context (parse_network : gmap string string → outcome NetworkConfig).

(** What the constructor of the ConfigMap's name says of it, the value aside. *)
Definition constructed (c : ConfigMap) : outcome () :=
  if String.eqb (cm_name c) ContourConfigName then (λ _, ()) <$> parse_contour (cm_data c)
  else (λ _, ()) <$> parse_network (cm_data c).

(** [OnConfigChanged] of the store: [None] if it ends the process. *)
Inductive store_changed (c : ConfigMap) (w : Store.world) : option Store.world → Prop :=
  | AcceptedContour v hf h' p s' : cm_name c = ContourConfigName → parse_contour (cm_data c) = Ret v →
      allocated (w_heap w) hf h' → rep_contour hf p v →
      OnConfigChanged ContourConfigName (inr p) (w_store w) = Ret s' →
      store_changed c w (Some {| w_heap := h'; w_store := s'; w_owned := w_owned w;
                                 last_contour := Some v; last_network := last_network w |})
  | AcceptedNetwork n hf h' p s' : cm_name c = NetworkConfigName → parse_network (cm_data c) = Ret n →
      allocated (w_heap w) hf h' → rep_network hf p n →
      OnConfigChanged NetworkConfigName (inr p) (w_store w) = Ret s' →
      store_changed c w (Some {| w_heap := h'; w_store := s'; w_owned := w_owned w;
                                 last_contour := last_contour w; last_network := Some n |})
  | Rejected e s' : constructed c = Fail e → OnConfigChanged (cm_name c) (inl e) (w_store w) = Ret s' →
      store_changed c w (Some {| w_heap := w_heap w; w_store := s'; w_owned := w_owned w;
                                 last_contour := last_contour w; last_network := last_network w |})
  | RejectedFirst e m : constructed c = Fail e → OnConfigChanged (cm_name c) (inl e) (w_store w) = Panic m →
      store_changed c w None
  | Panicked m : constructed c = Panic m → store_changed c w None.

(** [ManualWatcher.OnChange]: the observers of the name, one after the other. *)
Inductive on_change (c : ConfigMap) : list observer → Store.world → option Store.world → Prop :=
  | OnChangeEnd w : on_change c [] w (Some w)
  | OnChangeOther os w r : on_change c os w r → on_change c (ObserveOther :: os) w r
  | OnChangeStore os w w' r : store_changed c w (Some w') → on_change c os w' r → on_change c (ObserveStore :: os) w r
  | OnChangeFatal os w : store_changed c w None → on_change c (ObserveStore :: os) w None.

(** The handlers: updates that change nothing are ignored, deletions too (nothing is
    defaulted); an addition is reported to the wait group. *)
Definition changed_to (e : cm_event) : option ConfigMap :=
  match e with
  | CMAdd c => Some c
  | CMUpdate old new => if decide (old = new) then None else Some new
  | CMDelete _ => None
  end.
Definition handled_keys (e : cm_event) : gset string := match e with CMAdd c => {[cm_name c]} | _ => ∅ end.
Definition on_event (e : cm_event) (p : process) (r : option Store.world) : Prop :=
  match changed_to e with
  | Some c => on_change c (default [] (pr_observers p !! cm_name c)) (pr_world p) r
  | None => r = Some (pr_world p)
  end.

(** What a reconcile does to the store: it loads, and writes into its own copies. *)
Definition reads (w w' : Store.world) : Prop :=
  Store.step parse_contour parse_network w w' ∧ w_store w' = w_store w ∧
  last_contour w' = last_contour w ∧ last_network w' = last_network w.

Inductive step (p : process) : process → Prop :=
  | Main p' : main_step p = Some p' → step p p'
  | Stop : stopped_at (pr_pc p) = true → step p (goto (MFatal "stopped") p)
  | Added c : watching (pr_pc p) = true → pr_cache p !! cm_name c = None →
      step p (with_cache (<[cm_name c := c]> (pr_cache p)) (pr_events p ++ [CMAdd c]) p)
  | Updated old c : watching (pr_pc p) = true → pr_cache p !! cm_name c = Some old →
      step p (with_cache (<[cm_name c := c]> (pr_cache p)) (pr_events p ++ [CMUpdate old c]) p)
  | Deleted c : watching (pr_pc p) = true → pr_cache p !! cm_name c = Some c →
      step p (with_cache (delete (cm_name c) (pr_cache p)) (pr_events p ++ [CMDelete c]) p)
  | CacheSynced : watching (pr_pc p) = true → step p (with_cache_synced p)
  | Handled e events w' : watching (pr_pc p) = true → pr_events p = e :: events → on_event e p (Some w') →
      step p (with_store w' (with_pending (pr_pending p ∖ handled_keys e) (with_cache (pr_cache p) events p)))
  | Crashed e events : watching (pr_pc p) = true → pr_events p = e :: events → on_event e p None →
      step p (goto (MFatal "Error initializing config") p)
  | InformerSynced i : informing (pr_pc p) = true → step p (with_informer i p)
  | Reads w' : pr_pc p = MRunning → reads (pr_world p) w' → step p (with_store w' p).

(** ** What holds in every state *)

Definition configured (w : Store.world) (name : string) : Prop := is_Some (storages (w_store w) !! name).
(** The configurations are what the constructors made of some ConfigMaps. *)
Definition parsed (w : Store.world) : Prop :=
  (∀ v, last_contour w = Some v → ∃ data, parse_contour data = Ret v) ∧
  (∀ n, last_network w = Some n → ∃ data, parse_network data = Ret n).
Definition world_ok (w : Store.world) : Prop := (∃ hs, stored w hs) ∧ parsed w.

Definition main_ok (p : process) : Prop :=
  match pr_pc p with
  | MStartInformers i => ∀ j, j < i → pr_informers p !! j = Some true
  | MRunning => Forall (λ b, b = true) (pr_informers p)
  | _ => True
  end.

Record process_ok (n : nat) (p : process) : Prop := {
  po_world : world_ok (pr_world p);
  po_observed name : name ∈ constructor_names ↔ ObserveStore ∈ default [] (pr_observers p !! name);
  po_pending : watching (pr_pc p) = true → pr_pending p ⊆ dom (pr_observers p);
  po_configured name : watching (pr_pc p) = true → name ∈ constructor_names →
    name ∈ pr_pending p ∨ configured (pr_world p) name;
  po_done : informing (pr_pc p) = true → pr_pending p = ∅;
  po_informers : length (pr_informers p) = n ∧ main_ok p;
  po_fresh : pr_pc p = MStart → pr_cache p = ∅;
  po_cache name c : pr_cache p !! name = Some c → cm_name c = name;
  po_coming name c : watching (pr_pc p) = true → name ∈ pr_pending p → pr_cache p !! name = Some c →
    ∃ c', cm_name c' = name ∧ CMAdd c' ∈ pr_events p
}.

(** The store after a ConfigMap was handled. *)
Lemma store_changed_ok c w w' : world_ok w → store_changed c w (Some w') →
  world_ok w' ∧ configured w' (cm_name c) ∧ ∀ name, configured w name → configured w' name.
Proof.
  intros [[hs Hs] [Hpc Hpn]] Hc.
  assert (∃ hs', stored w' hs') as Hs'.
  { eapply (step_stored parse_contour parse_network); [exact Hs|].
    inversion Hc; subst; [by eapply StepContour|by eapply StepNetwork|by eapply StepRejected]. }
  inversion Hc as [v hf h' q s' Hn Hv _ _ E|v hf h' q s' Hn Hv _ _ E|e s' _ E| |]; subst; simpl in *.
  - injection E as <-. split; [split; [done|]|].
    + split; simpl; [intros ? [= <-]; by exists (cm_data c)|done].
    + unfold configured. simpl. rewrite Hn. split; [rewrite lookup_insert_eq; by eexists|]. intros name Hname.
      destruct (decide (name = ContourConfigName)) as [->|]; [rewrite lookup_insert_eq; by eexists|by rewrite lookup_insert_ne].
  - injection E as <-. split; [split; [done|]|].
    + split; simpl; [done|intros ? [= <-]; by exists (cm_data c)].
    + unfold configured. simpl. rewrite Hn. split; [rewrite lookup_insert_eq; by eexists|]. intros name Hname.
      destruct (decide (name = NetworkConfigName)) as [->|]; [rewrite lookup_insert_eq; by eexists|by rewrite lookup_insert_ne].
  - unfold UntypedLoad in E. destruct (storages (w_store w) !! cm_name c) eqn:Es; [|done]. injection E as <-.
    split; [done|]. unfold configured. simpl. rewrite Es. split; [by eexists|done].
Qed.

Lemma on_change_ok c os w w' : world_ok w → on_change c os w (Some w') →
  world_ok w' ∧ (ObserveStore ∈ os → configured w' (cm_name c)) ∧ ∀ name, configured w name → configured w' name.
Proof.
  intros Hw Hc. remember (Some w') as r eqn:Er. induction Hc as [w|os w r _ IH|os w w1 r Hs _ IH|]; [| | |done].
  - injection Er as <-. split_and!; [done|by intros ?%elem_of_nil|done].
  - destruct IH as (H1 & H2 & H3); [done..|]. split_and!; [done| |done]. intros [Hx|Hx]%elem_of_cons; [done|auto].
  - destruct (store_changed_ok c w w1 Hw Hs) as (G1 & G2 & G3). destruct IH as (H1 & H2 & H3); [done..|].
    split_and!; [done|auto|auto].
Qed.
Lemma goto_ok n pc p : process_ok n p → watching (pr_pc p) = true → pc ≠ MStart →
  (informing pc = true → pr_pending p = ∅) → main_ok (goto pc p) → process_ok n (goto pc p).
Proof.
  intros [Hw Ho Hp Hc Hd [Hl _] Hf Hk Hm] Hpc Hne Hd' Hm'. split; simpl; [done|done|auto|auto|done|done|done|done|eauto].
Qed.

Lemma main_step_ok n p p' : process_ok n p → main_step p = Some p' → process_ok n p'.
Proof.
  intros Hp. pose proof (proj2 (po_informers _ _ Hp)) as Hm. unfold main_ok in Hm. unfold main_step.
  destruct (pr_pc p) as [| | | |i| |r] eqn:Epc; try done.
  - intros [= <-]. destruct Hp as [Hw Ho Hpe Hc Hd [Hl _] Hf Hk Hco]. split; simpl; [done|done|done| |done|done|done|done|].
    + intros name _ Hname. left. apply elem_of_dom. apply Ho in Hname.
      destruct (pr_observers p !! name); [by eexists|by apply elem_of_nil in Hname].
    + intros name c _ _. by rewrite Hf.
  - destruct (pr_cache_synced p); [|done]. intros [= <-]. apply goto_ok; [done|by rewrite Epc|done..].
  - intros [= <-]. case_decide; (apply goto_ok; [done|by rewrite Epc|done..]).
  - case_decide; [|done]. intros [= <-]. apply goto_ok; [done|by rewrite Epc|done|done|].
    unfold main_ok. simpl. intros; lia.
  - pose proof (po_done _ _ Hp) as Hd. rewrite Epc in Hd. destruct (pr_informers p !! i) as [[]|] eqn:Ei; [|done|];
      intros [= <-]; (apply goto_ok; [done|by rewrite Epc|done|intros _; by apply Hd|]); unfold main_ok; simpl.
    + intros j Hj. destruct (decide (j = i)) as [->|]; [done|]. apply Hm. lia.
    + apply Forall_lookup. intros j b Hj. apply lookup_lt_Some in Hj as Hl. apply lookup_ge_None in Ei.
      rewrite Hm in Hj by lia. by injection Hj.
Qed.

(** The cache changes, and an event is on its way. *)
Lemma cached_ok n p cache e : process_ok n p → watching (pr_pc p) = true →
  (∀ name c, cache !! name = Some c → cm_name c = name ∧ (pr_cache p !! name = None → e = CMAdd c)) →
  process_ok n (with_cache cache (pr_events p ++ [e]) p).
Proof.
  intros [Hw Ho Hp Hc Hd Hi Hf Hk Hco] Hpc Hcache. split; simpl; [done|done|done|done|done|done| | |].
  - intros E. by rewrite E in Hpc.
  - intros name c Hn. by apply Hcache.
  - intros name c _ Hpe Hn. destruct (Hcache name c Hn) as [En Hnew]. setoid_rewrite elem_of_app.
    destruct (pr_cache p !! name) as [c0|] eqn:E0.
    + destruct (Hco name c0 Hpc Hpe E0) as (c' & ? & ?). exists c'. auto.
    + exists c. split; [done|]. right. rewrite (Hnew eq_refl). by left.
Qed.

Lemma handled_ok n p e events w' : process_ok n p → watching (pr_pc p) = true → pr_events p = e :: events →
  on_event e p (Some w') →
  process_ok n (with_store w' (with_pending (pr_pending p ∖ handled_keys e) (with_cache (pr_cache p) events p))).
Proof.
  intros [Hw Ho Hp Hc Hd Hi Hf Hk Hco] Hpc He Hh.
  assert (world_ok w' ∧ (∀ name, name ∈ handled_keys e → name ∈ constructor_names → configured w' name) ∧
    ∀ name, configured (pr_world p) name → configured w' name) as (Hw' & Hnew & Hold).
  { unfold on_event in Hh. destruct (changed_to e) as [c|] eqn:Ec.
    - destruct (on_change_ok _ _ _ _ Hw Hh) as (H1 & H2 & H3). split_and!; [done| |done].
      intros name Hn Hname. destruct e; simpl in *; [|by apply not_elem_of_empty in Hn..].
      injection Ec as ->. apply elem_of_singleton in Hn as ->. by apply H2, Ho.
    - injection Hh as ->. split_and!; [done| |done]. intros name Hn. by destruct e; simpl in *; [|apply not_elem_of_empty in Hn..]. }
  split; simpl; [done|done|set_solver| |set_solver|done|done|done|].
  - intros name _ Hname. destruct (decide (name ∈ handled_keys e)) as [Hin|Hout]; [by right; apply Hnew|].
    destruct (Hc name Hpc Hname) as [Hpe|Hcf]; [left; set_solver|right; by apply Hold].
  - intros name c _ [Hpe Hout]%elem_of_difference Hn. destruct (Hco name c Hpc Hpe Hn) as (c' & En & Hin).
    exists c'. split; [done|]. rewrite He in Hin. apply elem_of_cons in Hin as [<-|Hin]; [|done].
    destruct Hout. simpl. rewrite En. by apply elem_of_singleton.
Qed.

Lemma step_ok n p p' : process_ok n p → step p p' → process_ok n p'.
Proof.
  intros Hp [p1 Hs|Hs|c Hw Hc|old c Hw Hc|c Hw Hc|Hw|e events w' Hw He Hh|e events Hw He Hh|i Hi|w' Hr Hread].
  - by eapply main_step_ok.
  - apply goto_ok; [done|by destruct (pr_pc p)|done..].
  - apply cached_ok; [done..|]. intros name c' [[<- <-]|[Hne E]]%lookup_insert_Some; [by split|].
    split; [by eapply (po_cache _ _ Hp)|by rewrite E].
  - apply cached_ok; [done..|]. intros name c' [[<- <-]|[Hne E]]%lookup_insert_Some; [by rewrite Hc|].
    split; [by eapply (po_cache _ _ Hp)|by rewrite E].
  - apply cached_ok; [done..|]. intros name c' [_ E]%lookup_delete_Some.
    split; [by eapply (po_cache _ _ Hp)|by rewrite E].
  - destruct Hp as [? ? ? ? ? ? ? ? ?]. by split.
  - by eapply handled_ok.
  - by apply goto_ok.
  - destruct Hp as [? ? ? ? ? [Hl Hm] ? ? ?]. split; simpl; try done. split; [by rewrite length_insert|].
    unfold main_ok in *. simpl. destruct (pr_pc p) as [| | | |k| |]; try done.
    + intros j Hj. specialize (Hm j Hj). destruct (decide (i = j)) as [->|]; [|by rewrite list_lookup_insert_ne].
      apply list_lookup_insert_eq. by eapply lookup_lt_Some.
    + by apply Forall_insert.
  - destruct Hp as [[[hs Hst] Hpa] Ho Hpe Hc Hd [Hl Hm] Hf Hk Hco]. destruct Hread as (Hstep & Es & Ec & En).
    split; simpl; try done.
    + split; [by eapply step_stored|]. unfold parsed. by rewrite Ec, En.
    + unfold configured. rewrite Es. apply Hc.
Qed.

Lemma main_observers logging observability n name : name ∈ constructor_names ↔
  ObserveStore ∈ default [] (pr_observers (main_process logging observability n) !! name).
Proof.
  unfold constructor_names. rewrite !elem_of_cons, elem_of_nil.
  assert (∀ o1 o2 : observer, o1 ∈ [o2] ↔ o1 = o2) as Hone by (intros; apply list_elem_of_singleton).
  destruct (decide (name = ContourConfigName)) as [->|H1];
    [destruct logging, observability; vm_compute; (split; [intros _; by left|auto])|].
  destruct (decide (name = NetworkConfigName)) as [->|H2];
    [destruct logging, observability; vm_compute; (split; [intros _; by left|auto])|].
  split; [by intros [?|[?|?]]|]. intros Hin. exfalso. revert Hin.
  destruct (decide (name = "config-logging")) as [->|H3]; [destruct logging, observability; vm_compute; rewrite ?Hone; set_solver|].
  destruct (decide (name = "config-observability")) as [->|H4]; [destruct logging, observability; vm_compute; rewrite ?Hone; set_solver|].
  destruct logging, observability; cbn [main_process pr_observers WatchIfExists]; unfold ControllersAndWebhooksFromCtors,
    NewController_watches, WatchConfigs, constructor_names; cbn [foldl]; unfold Watch; rewrite ?lookup_insert_ne by done;
    rewrite lookup_empty; apply not_elem_of_nil.
Qed.

Lemma main_process_ok logging observability n : process_ok n (main_process logging observability n).
Proof.
  split; simpl; try done.
  - split; [exists ∅; apply stored_start|done].
  - intros name. exact (main_observers logging observability n name).
  - split; [apply length_replicate|done].
Qed.

Lemma steps_ok n p p' : process_ok n p → rtc step p p' → process_ok n p'.
Proof. intros Hp Hr. induction Hr as [|p p1 p2 Hs _ IH]; [done|]. by eapply IH, step_ok. Qed.

(** ** Start-up can always go on *)

(** The constructors of the store accept what it is shown. *)
Definition acceptable (c : ConfigMap) : Prop := cm_name c ∈ constructor_names → constructed c = Ret ().
Definition all_acceptable (p : process) : Prop := ∀ e c, e ∈ pr_events p → changed_to e = Some c → acceptable c.

Lemma store_changed_runs c w : world_ok w → cm_name c ∈ constructor_names → constructed c = Ret () →
  ∃ w', store_changed c w (Some w').
Proof.
  intros [[hs Hs] _] Hn Hc. unfold constructed in Hc. destruct (String.eqb_spec (cm_name c) ContourConfigName) as [En|En].
  - destruct (parse_contour (cm_data c)) as [v| |] eqn:Ev; [|done..].
    destruct (allocated_fits (w_heap w) (λ l hf, rep_contour hf l v)) as (hf & h' & l & Ha & Hl); [apply Hs|apply fits_contour|].
    eexists. by eapply AcceptedContour.
  - destruct (parse_network (cm_data c)) as [v| |] eqn:Ev; [|done..].
    destruct (allocated_fits (w_heap w) (λ l hf, hf !! l = Some (CellNetwork v))) as (hf & h' & l & Ha & Hl); [apply Hs|apply fits_cell|].
    eexists. eapply AcceptedNetwork; [|done..]. unfold constructor_names in Hn. set_solver.
Qed.

Lemma on_change_runs c os w : world_ok w → (ObserveStore ∈ os → cm_name c ∈ constructor_names) → acceptable c →
  ∃ w', on_change c os w (Some w').
Proof.
  intros Hw Hos Hc. revert w Hw Hos. induction os as [|[] os IH]; intros w Hw Hos.
  - exists w. constructor.
  - destruct (store_changed_runs c w) as [w1 H1]; [done|apply Hos; by left|apply Hc, Hos; by left|].
    destruct (IH w1) as [w2 H2]; [by apply (store_changed_ok c w)|intros; apply Hos; by right|].
    exists w2. by eapply OnChangeStore.
  - destruct (IH w) as [w1 H1]; [done|intros; apply Hos; by right|]. exists w1. by constructor.
Qed.

(** The same place of the main goroutine, and what is watched. *)
Definition same_place (p p' : process) : Prop := pr_pc p' = pr_pc p ∧ pr_observers p' = pr_observers p.

(** All events can be handled. *)
Lemma drain n p : process_ok n p → watching (pr_pc p) = true → all_acceptable p →
  ∃ p', rtc step p p' ∧ same_place p p' ∧ pr_events p' = [] ∧ pr_cache p' = pr_cache p.
Proof.
  remember (pr_events p) as l eqn:El. revert p El. induction l as [|e l IH]; intros p El Hp Hw Ha.
  { exists p. split_and!; [done|by split|done|done]. }
  assert (∃ w', on_event e p (Some w')) as [w' Hw'].
  { unfold on_event. destruct (changed_to e) as [c|] eqn:Ec; [|by eexists].
    apply on_change_runs; [apply Hp| |by apply (Ha e c); [rewrite <-El; left|]]. intros Ho. by apply (po_observed _ _ Hp). }
  set (p1 := with_store w' (with_pending (pr_pending p ∖ handled_keys e) (with_cache (pr_cache p) l p))).
  assert (step p p1) as Hs by (by apply Handled).
  destruct (IH p1) as (p2 & Hr & [Hpc Ho] & He & Hk); [done|by eapply step_ok|done| |].
  { intros e' c He'. apply Ha. rewrite <-El. by right. }
  exists p2. split_and!; [by eapply rtc_l|by split|done|done].
Qed.

(** What is watched can be there. *)
Lemma fill n (names : list string) p : process_ok n p → watching (pr_pc p) = true → all_acceptable p →
  (∀ name, name ∈ constructor_names → ∃ data, constructed {| cm_name := name; cm_data := data |} = Ret ()) →
  ∃ p', rtc step p p' ∧ process_ok n p' ∧ same_place p p' ∧ all_acceptable p' ∧
    (∀ name, name ∈ names → name ∈ dom (pr_cache p')).
Proof.
  intros Hp Hw Ha Hdata. induction names as [|name names IH].
  { exists p. split_and!; [done..|]. by intros ? ?%elem_of_nil. }
  destruct IH as (p1 & Hr & Hp1 & [Hpc Ho] & Ha1 & Hn). destruct (pr_cache p1 !! name) as [c|] eqn:Ec.
  { exists p1. split_and!; [done|done|by split|done|]. intros x [->|Hx]%elem_of_cons; [by apply elem_of_dom|auto]. }
  assert (∃ c, cm_name c = name ∧ acceptable c) as (c & Hcn & Hc).
  { destruct (decide (name ∈ constructor_names)) as [Hin|Hout].
    - destruct (Hdata name Hin) as [data Hd]. exists {| cm_name := name; cm_data := data |}. split; [done|by intros _].
    - exists {| cm_name := name; cm_data := ∅ |}. split; [done|]. by intros Hin. }
  set (p2 := with_cache (<[cm_name c := c]> (pr_cache p1)) (pr_events p1 ++ [CMAdd c]) p1).
  assert (step p1 p2) as Hs by (apply Added; [by rewrite Hpc|by rewrite Hcn]).
  exists p2. split_and!; [by eapply rtc_r|by eapply step_ok|by split| |].
  - intros e c' [He| ->%list_elem_of_singleton]%elem_of_app Hch; [by eapply Ha1|]. by injection Hch as <-.
  - intros x Hx. simpl. rewrite Hcn, dom_insert. apply elem_of_cons in Hx as [->|Hx]; [set_solver|]. apply Hn in Hx. set_solver.
Qed.

(** The informers sync, and are waited for. *)
Lemma finish_informers n i p : process_ok n p → pr_pc p = MStartInformers i → ∃ p', rtc step p p' ∧ pr_pc p' = MRunning.
Proof.
  remember (n - i) as k eqn:Ek. revert i p Ek. induction k as [|k IH]; intros i p Ek Hp Hpc;
    pose proof (proj1 (po_informers _ _ Hp)) as Hl.
  - exists (goto MRunning p). split; [|done]. apply rtc_once, Main. unfold main_step. rewrite Hpc.
    by rewrite (proj2 (lookup_ge_None _ _)) by lia.
  - set (p1 := with_informer i p). assert (step p p1) as H1 by (apply InformerSynced; by rewrite Hpc).
    set (p2 := goto (MStartInformers (S i)) p1). assert (step p1 p2) as H2.
    { apply Main. unfold main_step. simpl. rewrite Hpc, list_lookup_insert_eq by lia. done. }
    destruct (IH (S i) p2) as (p3 & Hr & Hpc3); [lia|by eapply step_ok, H2; eapply step_ok|done|].
    exists p3. split; [|done]. eapply rtc_l; [exact H1|]. by eapply rtc_l.
Qed.

(** Once all that is watched has been handled, the watcher is done. *)
Lemma finish_watching n p : process_ok n p → watching (pr_pc p) = true → informing (pr_pc p) = false →
  pr_events p = [] → pr_cache_synced p = true → dom (pr_observers p) ⊆ dom (pr_cache p) →
  ∃ p', rtc step p p' ∧ pr_pc p' = MStartInformers 0.
Proof.
  intros Hp Hw Hi He Hs Hd.
  assert (pr_pending p = ∅) as Hpe.
  { apply set_eq. intros name. split; [|by intros ?%not_elem_of_empty]. intros Hin. exfalso.
    pose proof (po_pending _ _ Hp Hw name Hin) as [c Hc]%Hd%elem_of_dom.
    destruct (po_coming _ _ Hp name c Hw Hin Hc) as (c' & _ & Hev). rewrite He in Hev. by apply elem_of_nil in Hev. }
  set (p4 := goto (MStartInformers 0) p). set (p3 := goto MWaitForAllKeys p). set (p2 := goto MCheckResources p).
  assert (main_step p3 = Some p4) as H3 by (unfold main_step; simpl; by rewrite decide_True).
  assert (main_step p2 = Some p3) as H2 by (unfold main_step; simpl; by rewrite decide_True).
  exists p4. split; [|done]. destruct (pr_pc p) eqn:Epc; try done.
  - eapply rtc_l; [apply Main; unfold main_step; rewrite Epc, Hs; done|].
    eapply rtc_l; [by apply Main|]. by apply rtc_once, Main.
  - assert (p = p2) as E by (destruct p; simpl in Epc; by subst). rewrite E at 1.
    eapply rtc_l; [by apply Main|]. by apply rtc_once, Main.
  - assert (p = p3) as E by (destruct p; simpl in Epc; by subst). rewrite E at 1. by apply rtc_once, Main.
Qed.

Lemma go_on n p : process_ok n p → watching (pr_pc p) = true → all_acceptable p →
  (∀ name, name ∈ constructor_names → ∃ data, constructed {| cm_name := name; cm_data := data |} = Ret ()) →
  ∃ p', rtc step p p' ∧ pr_pc p' = MRunning.
Proof.
  intros Hp Hw Ha Hdata. destruct (informing (pr_pc p)) eqn:Hi.
  { destruct (pr_pc p) as [| | | |i| |] eqn:Epc; try done; [by eapply finish_informers|by exists p]. }
  destruct (fill n (elements (dom (pr_observers p))) p) as (p1 & R1 & Hp1 & [P1 O1] & A1 & F1); [done..|].
  destruct (drain n p1) as (p2 & R2 & [P2 O2] & E2 & K2); [done|by rewrite P1|done|].
  assert (process_ok n p2) as Hp2 by by eapply steps_ok.
  assert (step p2 (with_cache_synced p2)) as S3 by (apply CacheSynced; by rewrite P2, P1).
  destruct (finish_watching n (with_cache_synced p2)) as (p4 & R4 & P4);
    [by eapply step_ok|simpl; by rewrite P2, P1..|done|done| |].
  { simpl. rewrite O2, O1, K2. intros name Hn. by apply F1, elem_of_elements. }
  assert (process_ok n p4) as Hp4 by (eapply steps_ok; [by eapply step_ok|done]).
  destruct (finish_informers n 0 p4 Hp4 P4) as (p5 & R5 & P5). exists p5. split; [|done].
  etrans; [exact R1|]. etrans; [exact R2|]. eapply rtc_l; [exact S3|]. by etrans.
Qed.
End Process.

(** C33: workers run only once everything they use is there.  In every state the process can
    get to, whatever ConfigMap events arrive when, if workers run, all informers have synced
    and loading the configuration succeeds: both ConfigMaps have been accepted, and a
    reconcile gets a new structure, apart from all others, with what the constructors made of
    the last accepted ones. *)
Theorem workers_find_config `{MapOrder} parse_contour parse_network logging observability n p :
  rtc (step parse_contour parse_network) (main_process logging observability n) p → pr_pc p = MRunning →
  (length (pr_informers p) = n ∧ Forall (λ b, b = true) (pr_informers p)) ∧
  ∃ v nw, (∃ data, parse_contour data = Ret v) ∧ (∃ data, parse_network data = Ret nw) ∧
    last_contour (pr_world p) = Some v ∧ last_network (pr_world p) = Some nw ∧
    ∃ l h' hf, Load (w_store (pr_world p)) (w_heap (pr_world p)) = Ret (l, h') ∧
      cells (w_heap (pr_world p)) ##ₘ hf ∧ cells h' = cells (w_heap (pr_world p)) ∪ hf ∧
      rep_config hf l {| cfg_Contour := v; cfg_Network := Some nw |}.
Proof.
  intros Hr Hpc. pose proof (steps_ok parse_contour parse_network n _ p (main_process_ok _ _ logging observability n) Hr) as Hp.
  destruct (po_informers _ _ _ _ Hp) as [Hl Hm]. unfold main_ok in Hm. rewrite Hpc in Hm. split; [done|].
  assert (∀ name, name ∈ constructor_names → configured (pr_world p) name) as Hc.
  { intros name Hn. destruct (po_configured _ _ _ _ Hp name) as [Hin|]; [by rewrite Hpc|done| |done].
    rewrite (po_done _ _ _ _ Hp) in Hin by by rewrite Hpc. by apply not_elem_of_empty in Hin. }
  destruct (po_world _ _ _ _ Hp) as [[hs Hs] [Pc Pn]].
  destruct (Hc ContourConfigName) as [pc Ec]; [by left|]. destruct (Hc NetworkConfigName) as [pn En]; [by right; left|].
  pose proof (so_contour _ _ Hs) as Rc. pose proof (so_network _ _ Hs) as Rn. rewrite Ec in Rc. rewrite En in Rn.
  destruct (last_contour (pr_world p)) as [v|] eqn:Ev; [|done]. destruct (last_network (pr_world p)) as [nw|] eqn:Enw; [|done].
  exists v, nw. split_and!; [by apply Pc|by apply Pn|done|done|]. by apply (stored_load _ hs).
Qed.

(** Start-up is never stuck: unless the process has ended, and if the ConfigMaps whose events
    are on their way are accepted and acceptable ones exist, the workers can get to run. *)
Theorem startup_can_finish `{MapOrder} parse_contour parse_network logging observability n p :
  rtc (step parse_contour parse_network) (main_process logging observability n) p →
  (∀ reason, pr_pc p ≠ MFatal reason) → all_acceptable parse_contour parse_network p →
  (∀ name, name ∈ constructor_names →
     ∃ data, constructed parse_contour parse_network {| cm_name := name; cm_data := data |} = Ret ()) →
  ∃ p', rtc (step parse_contour parse_network) p p' ∧ pr_pc p' = MRunning.
Proof.
  intros Hr Hnf Ha Hdata.
  pose proof (steps_ok parse_contour parse_network n _ p (main_process_ok _ _ logging observability n) Hr) as Hp.
  destruct (pr_pc p) eqn:Epc; try (eapply go_on; [done|by rewrite Epc|done..]); [|by destruct (Hnf reason)].
  set (p1 := goto MWaitForCacheSync (with_pending (dom (pr_observers p)) p)).
  assert (step parse_contour parse_network p p1) as H1 by (apply Main; unfold main_step; by rewrite Epc).
  destruct (go_on parse_contour parse_network n p1) as (p2 & R2 & P2); [by eapply step_ok|done..|]. exists p2. split; [by eapply rtc_l|done].
Qed.

(** ** A start-up

    Both ConfigMaps of the witness of [Store] arrive, the one informer syncs, the workers run. *)
Section Witness.
#[local] Existing Instance ascending_order.

Definition contour_map : ConfigMap := {| cm_name := ContourConfigName; cm_data := ∅ |}.
Definition network_map : ConfigMap := {| cm_name := NetworkConfigName; cm_data := ∅ |}.

Definition up0 : process := main_process false false 1.
Definition up1 : process := goto MWaitForCacheSync (with_pending (dom (pr_observers up0)) up0).
Definition up2 : process := with_cache (<[ContourConfigName := contour_map]> (pr_cache up1)) [CMAdd contour_map] up1.
Definition up3 : process := with_cache (<[NetworkConfigName := network_map]> (pr_cache up2)) [CMAdd contour_map; CMAdd network_map] up2.
Definition up4 : process :=
  with_store store_w1 (with_pending (pr_pending up3 ∖ {[ContourConfigName]}) (with_cache (pr_cache up3) [CMAdd network_map] up3)).
Definition up5 : process :=
  with_store store_w2 (with_pending (pr_pending up4 ∖ {[NetworkConfigName]}) (with_cache (pr_cache up4) [] up4)).
Definition up6 : process := goto MWaitForAllKeys (goto MCheckResources (with_cache_synced up5)).
Definition up7 : process := with_informer 0 (goto (MStartInformers 0) up6).
Definition up8 : process := goto MRunning (goto (MStartInformers 1) up7).

Lemma contour_accepted : store_changed sample_parse sample_parse_network contour_map Store.start (Some store_w1).
Proof.
  apply (AcceptedContour _ _ contour_map Store.start default_contour contour_cells
    {| cells := ∅ ∪ contour_cells; next := 5 |} 4 (w_store store_w1)).
  - reflexivity.
  - vm_compute. reflexivity.
  - split_and!; [done|apply map_disjoint_empty_l|]. intros l Hl. simpl in *. rewrite (left_id_L ∅ (∪)).
    unfold contour_cells. rewrite !lookup_insert_ne by lia. by rewrite lookup_singleton_ne by lia.
  - apply contour_cells_rep.
  - reflexivity.
Defined.

Lemma network_accepted : store_changed sample_parse sample_parse_network network_map store_w1 (Some store_w2).
Proof.
  apply (AcceptedNetwork _ _ network_map store_w1 {| SystemInternalTLS := "Disabled" |} network_cells
    (w_heap store_w2) 5 (w_store store_w2)).
  - reflexivity.
  - reflexivity.
  - split_and!; [done|by apply map_disjoint_singleton_r_2|]. intros l Hl. simpl in *.
    rewrite (left_id_L ∅ (∪)). apply lookup_union_None.
    unfold contour_cells, network_cells. rewrite !lookup_insert_ne by lia. by rewrite !lookup_singleton_ne by lia.
  - reflexivity.
  - reflexivity.
Defined.

Lemma started_up : rtc (step sample_parse sample_parse_network) up0 up8.
Proof.
  eapply rtc_l; [apply (Main _ _ up0 up1); reflexivity|].
  eapply rtc_l; [apply (Added _ _ up1 contour_map); reflexivity|].
  eapply rtc_l; [apply (Added _ _ up2 network_map); reflexivity|].
  eapply (rtc_l _ _ up4).
  { apply (Handled _ _ up3 (CMAdd contour_map) [CMAdd network_map] store_w1); [reflexivity..|].
    eapply OnChangeStore; [exact contour_accepted|constructor]. }
  eapply (rtc_l _ _ up5).
  { apply (Handled _ _ up4 (CMAdd network_map) [] store_w2); [reflexivity..|].
    eapply OnChangeStore; [exact network_accepted|constructor]. }
  eapply rtc_l; [apply (CacheSynced _ _ up5); reflexivity|].
  eapply rtc_l; [apply (Main _ _ (with_cache_synced up5) (goto MCheckResources (with_cache_synced up5))); reflexivity|].
  eapply rtc_l; [apply (Main _ _ (goto MCheckResources (with_cache_synced up5)) up6); vm_compute; reflexivity|].
  eapply rtc_l; [apply (Main _ _ up6 (goto (MStartInformers 0) up6)); vm_compute; reflexivity|].
  eapply rtc_l; [apply (InformerSynced _ _ (goto (MStartInformers 0) up6) 0); reflexivity|].
  eapply rtc_l; [apply (Main _ _ up7 (goto (MStartInformers 1) up7)); reflexivity|].
  eapply rtc_l; [apply (Main _ _ (goto (MStartInformers 1) up7) up8); reflexivity|]. apply rtc_refl.
Defined.

Lemma workers_find_config_witness : pr_informers up8 = [true] ∧
  ∃ l h' hf, Load (w_store (pr_world up8)) (w_heap (pr_world up8)) = Ret (l, h') ∧
    rep_config hf l {| cfg_Contour := default_contour; cfg_Network := Some {| SystemInternalTLS := "Disabled" |} |}.
Proof.
  destruct (workers_find_config sample_parse sample_parse_network false false 1 up8 started_up eq_refl)
    as [_ (v & nw & _ & _ & Ev & En & l & h' & hf & Hl & _ & _ & Hr)].
  split; [reflexivity|]. exists l, h', hf. split; [exact Hl|].
  assert (v = default_contour) as -> by (injection Ev as <-; reflexivity).
  assert (nw = {| SystemInternalTLS := "Disabled" |}) as -> by (injection En as <-; reflexivity). exact Hr.
Defined.
End Witness.
