(* ===== verification/Proxies.v ===== *)
(** * HTTPProxies of a KIngress (resources/httpproxy.go)

    [ServiceNames] and [MakeHTTPProxies], with the steps of the loop as functions of
    their own.  A nil [rule.HTTP], a nil [Header] met by the comparison of conditions
    and an unset SYSTEM_NAMESPACE are panics, so the code is in the [outcome] monad. *)

From S2P Require Import Prelude Hash Meta Conditions Ingress NetIngress HTTPProxy Config.

(** ** Services of an Ingress *)

Record ServiceInfo := {
  si_port : IntOrString;
  si_raw_visibilities : gset string;
  si_rewrite_host : string;
  si_has_path : bool
}.
#[export] Instance ServiceInfo_eq_dec : EqDecision ServiceInfo.
Proof. solve_decision. Defined.

Definition Visibilities (si : ServiceInfo) : list string := sets_List (si_raw_visibilities si).

Definition insert_visibility (vis : string) (si : ServiceInfo) : ServiceInfo := {|
  si_port := si_port si;
  si_raw_visibilities := {[vis]} ∪ si_raw_visibilities si;
  si_rewrite_host := si_rewrite_host si;
  si_has_path := si_has_path si
|}.

Definition add_split (vis : string) (path : HTTPIngressPath) (s : gmap string ServiceInfo)
    (split : IngressBackendSplit) : gmap string ServiceInfo :=
  let si := match s !! sp_service_name split with
            | Some si => si
            | None => {| si_port := sp_service_port split;
                         si_raw_visibilities := ∅;
                         si_rewrite_host := pa_rewrite_host path;
                         si_has_path := negb (String.eqb (pa_path path) "") |}
            end in
  <[sp_service_name split := insert_visibility vis si]> s.

Definition add_path (vis : string) (s : gmap string ServiceInfo) (path : HTTPIngressPath)
    : gmap string ServiceInfo :=
  foldl (add_split vis path) s (pa_splits path).

Definition add_rule (s : gmap string ServiceInfo) (rule : IngressRule)
    : outcome (gmap string ServiceInfo) :=
  paths ← nil_deref "rule.HTTP" (ru_http rule);
  Ret (foldl (add_path (ru_visibility rule)) s paths).

Definition ServiceNames (ing : Ingress) : outcome (gmap string ServiceInfo) :=
  outcome_foldM add_rule ∅ (is_rules (ing_spec ing)).

(** ** Pieces of a proxy *)

Definition defaultRetryPolicy : RetryPolicy := {|
  rp_num_retries := 2;
  rp_retry_on := ["cancelled"; "connect-failure"; "refused-stream"; "resource-exhausted";
                  "retriable-status-codes"; "reset"]
|}.

Definition addHostEntries (entries : gmap string IngressTLS) (l : list IngressTLS)
    : gmap string IngressTLS :=
  foldl (λ entries tls, foldl (λ entries host, <[host := tls]> entries) entries (tls_hosts tls))
    entries l.

Definition tlsEntries (ing : Ingress) : gmap string IngressTLS :=
  let external := GetIngressTLSForVisibility ing IngressVisibilityExternalIP in
  let internal := GetIngressTLSForVisibility ing IngressVisibilityClusterLocal in
  addHostEntries (addHostEntries ∅ external) internal.

(** [strings.ToLower] on ASCII text (a namespace is a DNS label). *)
Fixpoint ToLower (s : string) : string :=
  match s with
  | "" => ""
  | String c s =>
      String (if is_upper c then ascii_of_nat (nat_of_ascii c + 32) else c) (ToLower s)
  end.

Definition DataPlaneUserSAN (namespace : string) : string := "kn-user-" +:+ ToLower namespace.
Definition DataPlaneRoutingSAN : string := "kn-routing".
Definition ServingRoutingCertName : string := "routing-serving-certs".

(** The comparison of two match conditions: a prefix goes first, headers go in
    descending order of their names. *)
Definition condition_less (a b : MatchCondition) : outcome bool :=
  let hasPrefixLHS := negb (String.eqb (mc_prefix a) "") in
  let hasPrefixRHS := negb (String.eqb (mc_prefix b) "") in
  if hasPrefixLHS && negb hasPrefixRHS then Ret true
  else if negb hasPrefixLHS && hasPrefixRHS then Ret false
  else
    ha ← nil_deref "conditions[i].Header" (mc_header a);
    hb ← nil_deref "conditions[j].Header" (mc_header b);
    Ret (string_lt (hc_name hb) (hc_name ha)).

Section Make.
Context `{MapOrder} (env : Env) (cfg : Config).

Definition header_values (m : gmap string string) : list HeaderValue :=
  (λ kv, {| hv_name := kv.1; hv_value := kv.2 |}) <$> range_map m.

Definition pre_split_headers (path : HTTPIngressPath) : HeadersPolicy := {|
  hp_set := sort_slice (key_less hv_name)
    (header_values (pa_append_headers path) ++
     (if String.eqb (pa_rewrite_host path) "" then []
      else [{| hv_name := "Host"; hv_value := pa_rewrite_host path |}]))
|}.

Definition post_split_headers (split : IngressBackendSplit) : option HeadersPolicy :=
  match header_values (sp_append_headers split) with
  | [] => None
  | hs => Some {| hp_set := sort_slice (key_less hv_name) hs |}
  end.

Definition has_original_host (split : IngressBackendSplit) : bool :=
  existsb (λ kv, String.eqb kv.1 OriginalHostKey) (range_map (sp_append_headers split)).

Definition upstream_validation (ns : string) : outcome (option UpstreamValidation) :=
  if internal_tls cfg then
    sysns ← SystemNamespace env;
    Ret (Some {| uv_ca_certificate := sysns +:+ "/" +:+ ServingRoutingCertName;
                 uv_subject_name := DataPlaneUserSAN ns;
                 uv_subject_names := [DataPlaneUserSAN ns; DataPlaneRoutingSAN] |})
  else Ret None.

Definition service_protocol (serviceToProtocol : gmap string string) (path : HTTPIngressPath)
    (split : IngressBackendSplit) : option string :=
  match serviceToProtocol !! sp_service_name split with
  | Some proto =>
      if negb (String.eqb (pa_rewrite_host path) "") && has_original_host split
      then Some "h2c" else Some proto
  | None => None
  end.

Definition make_service (serviceToProtocol : gmap string string) (ns : string)
    (path : HTTPIngressPath) (split : IngressBackendSplit) : outcome ProxyService :=
  validation ← upstream_validation ns;
  let challenge := Contains (pa_path path) HTTPChallengePath in
  Ret {| ps_name := sp_service_name split;
         ps_port := IntValue (sp_service_port split);
         ps_protocol := if challenge then None else service_protocol serviceToProtocol path split;
         ps_weight := sp_percent split;
         ps_validation := if challenge then None else validation;
         ps_request_headers := post_split_headers split |}.

Definition path_conditions (path : HTTPIngressPath) : list MatchCondition :=
  (if String.eqb (pa_path path) "" then []
   else [{| mc_prefix := pa_path path; mc_header := None |}]) ++
  ((λ kv, {| mc_prefix := ""; mc_header := Some {| hc_name := kv.1; hc_exact := hm_exact kv.2 |} |})
     <$> range_map (pa_headers path)).

Definition sort_conditions (conditions : list MatchCondition) : outcome (list MatchCondition) :=
  if 1 <? length conditions then sort_sliceM condition_less conditions else Ret conditions.

Definition allow_insecure (option : string) : bool :=
  if String.eqb option HTTPOptionRedirected then false
  else String.eqb option HTTPOptionEnabled.

Definition make_route (serviceToProtocol : gmap string string) (ing : Ingress)
    (rule : IngressRule) (path : HTTPIngressPath) : outcome Route :=
  svcs ← outcome_mapM (make_service serviceToProtocol (ing_namespace ing) path) (pa_splits path);
  conditions ← sort_conditions (path_conditions path);
  Ret {| ro_conditions := conditions;
         ro_timeout := Some {| tp_response := TimeoutPolicyResponse (cfg_Contour cfg);
                               tp_idle := TimeoutPolicyIdle (cfg_Contour cfg) |};
         ro_retry := Some defaultRetryPolicy;
         ro_services := svcs;
         ro_websockets := true;
         ro_request_headers := Some (pre_split_headers path);
         ro_permit_insecure :=
           String.eqb (ru_visibility rule) IngressVisibilityClusterLocal ||
           allow_insecure (is_http_option (ing_spec ing)) |}.

Definition class_of (visibility : string) : string :=
  map_get (VisibilityClasses (cfg_Contour cfg)) visibility.

Definition authorization_of (ing : Ingress) : option ExtensionServiceReference :=
  match ing_annotations ing !! ExtensionServiceKey with
  | Some extensionService =>
      Some {| es_name := extensionService;
              es_namespace := map_get (ing_annotations ing) ExtensionServiceNamespaceKey |}
  | None => None
  end.

Definition host_tls (entries : gmap string IngressTLS) (rule : IngressRule) (host : string)
    : option string :=
  match entries !! host with
  | Some tls => Some (tls_secret_namespace tls +:+ "/" +:+ tls_secret_name tls)
  | None =>
      match DefaultTLSSecret (cfg_Contour cfg) with
      | Some s =>
          if String.eqb (ru_visibility rule) IngressVisibilityExternalIP
          then Some (nn_String s) else None
      | None => None
      end
  end.

(** The class a proxy ends up with: hosts of the cluster domain are always
    cluster-local. *)
Definition host_class (rule : IngressRule) (originalHost : string) : string :=
  if HasSuffix originalHost (env_cluster_domain env)
  then class_of IngressVisibilityClusterLocal else class_of (ru_visibility rule).

(** The proxy of one host: the copy of [base] with the fields of the inner loop. *)
Definition make_host_proxy (ing : Ingress) (entries : gmap string IngressTLS)
    (rule : IngressRule) (routes : list Route) (originalHost host : string) : HTTPProxy :=
  let class := class_of (ru_visibility rule) in
  let annotations := UnionMaps [ing_annotations ing; {[ClassKey := class]}] in
  let labels : gmap string string :=
    <[GenerationKey := FormatInt (ing_generation ing)]>
      (<[ParentKey := ing_name ing]> {[ClassKey := class]}) in
  let local := HasSuffix originalHost (env_cluster_domain env) in
  let class := host_class rule originalHost in
  let annotations := if local then <[ClassKey := class]> annotations else annotations in
  let labels := if local then <[ClassKey := class]> labels else labels in
  {| hp_meta := {|
       om_name := ChildName.ChildName (ing_name ing +:+ "-" +:+ class +:+ "-") host;
       om_namespace := ing_namespace ing;
       om_uid := "";
       om_resource_version := "";
       om_generation := 0;
       om_labels := <[DomainHashKey := sha1_hex host]> labels;
       om_annotations := annotations;
       om_owners := [NewControllerRef (ing_meta ing)] |};
     hp_spec := {|
       hs_virtual_host := Some {|
         vh_fqdn := host;
         vh_tls := host_tls entries rule host;
         vh_authorization := authorization_of ing;
         vh_cors :=
           if String.eqb (ru_visibility rule) IngressVisibilityExternalIP
           then ContourCORSPolicy (cfg_Contour cfg) else None |};
       hs_routes := routes |};
     hp_current_status := "" |}.

Definition make_rule_proxies (serviceToProtocol : gmap string string) (ing : Ingress)
    (entries : gmap string IngressTLS) (rule : IngressRule) : outcome (list HTTPProxy) :=
  paths ← nil_deref "rule.HTTP" (ru_http rule);
  routes ← outcome_mapM (make_route serviceToProtocol ing rule) paths;
  Ret (ru_hosts rule ≫= λ originalHost,
         make_host_proxy ing entries rule routes originalHost <$>
           sets_List (ExpandedHosts env {[originalHost]})).

(** [InsertProbe] works on a copy of the Ingress; its result is not looked at. *)
Definition MakeHTTPProxies (ing : Ingress) (serviceToProtocol : gmap string string)
    : outcome (list HTTPProxy) :=
  let ing := (InsertProbe ing).1 in
  proxies ← outcome_mapM (make_rule_proxies serviceToProtocol ing (tlsEntries ing))
              (is_rules (ing_spec ing));
  Ret (concat proxies).
End Make.

(** ** The order of match conditions *)

(** A condition made by [path_conditions]: a prefix or a header, never both. *)
Definition condition_wf (c : MatchCondition) : Prop :=
  (mc_prefix c ≠ "" ∧ mc_header c = None) ∨ (mc_prefix c = "" ∧ is_Some (mc_header c)).

Definition has_prefix (c : MatchCondition) : bool := negb (String.eqb (mc_prefix c) "").

(** The comparison without the nil check. *)
Definition condition_lessb (a b : MatchCondition) : bool :=
  if has_prefix a then negb (has_prefix b)
  else if has_prefix b then false
  else match mc_header a, mc_header b with
       | Some ha, Some hb => string_lt (hc_name hb) (hc_name ha)
       | _, _ => false
       end.

Lemma has_prefix_spec c :
  condition_wf c → if has_prefix c then mc_header c = None else is_Some (mc_header c).
Proof.
  unfold has_prefix. intros [[Hp Hh]|[Hp Hh]].
  - destruct (String.eqb_spec (mc_prefix c) ""); done.
  - by rewrite Hp.
Qed.

Lemma condition_less_pure a b :
  condition_wf a → condition_wf b → ¬ (has_prefix a = true ∧ has_prefix b = true) →
  condition_less a b = Ret (condition_lessb a b).
Proof.
  intros Ha%has_prefix_spec Hb%has_prefix_spec Hab. unfold condition_less, condition_lessb.
  fold (has_prefix a) (has_prefix b).
  destruct (has_prefix a), (has_prefix b); simpl; try done; [by destruct Hab|].
  destruct Ha as [ha ->], Hb as [hb ->]. done.
Qed.

Lemma condition_less_ok : less_ok condition_lessb condition_wf.
Proof.
  split.
  - intros a b Ha%has_prefix_spec Hb%has_prefix_spec. unfold condition_lessb.
    destruct (has_prefix a), (has_prefix b); try done.
    destruct Ha as [ha ->], Hb as [hb ->]. apply string_lt_asym.
  - intros a b c Ha%has_prefix_spec Hb%has_prefix_spec Hc%has_prefix_spec. unfold condition_lessb.
    destruct (has_prefix a), (has_prefix b), (has_prefix c); try done.
    destruct Ha as [ha ->], Hb as [hb ->], Hc as [hc ->].
    intros. by apply (string_lt_negtrans (hc_name hc) (hc_name hb) (hc_name ha)).
Qed.

Section Conditions.
Context `{MapOrder}.
Implicit Types path : HTTPIngressPath.

Lemma path_conditions_elem path c :
  c ∈ path_conditions path ↔
  (pa_path path ≠ "" ∧ c = {| mc_prefix := pa_path path; mc_header := None |}) ∨
  ∃ k v, pa_headers path !! k = Some v ∧
    c = {| mc_prefix := ""; mc_header := Some {| hc_name := k; hc_exact := hm_exact v |} |}.
Proof.
  unfold path_conditions. rewrite elem_of_app, list_elem_of_fmap.
  assert ((∃ kv : string * HeaderMatch, c = {| mc_prefix := "";
      mc_header := Some {| hc_name := kv.1; hc_exact := hm_exact kv.2 |} |} ∧
      kv ∈ range_map (pa_headers path)) ↔
    ∃ k v, pa_headers path !! k = Some v ∧
      c = {| mc_prefix := ""; mc_header := Some {| hc_name := k; hc_exact := hm_exact v |} |})
    as ->.
  { split.
    - intros ([k v] & -> & Hkv%elem_of_range_map). eauto.
    - intros (k & v & Hkv & ->). exists (k, v). by rewrite elem_of_range_map. }
  destruct (String.eqb_spec (pa_path path) "").
  - rewrite elem_of_nil. naive_solver.
  - rewrite list_elem_of_singleton. naive_solver.
Qed.

Lemma path_conditions_wf path : Forall condition_wf (path_conditions path).
Proof.
  apply Forall_forall. intros c [[? ->]|(k & v & _ & ->)]%path_conditions_elem.
  - by left.
  - right. split; [done|]. by eexists.
Qed.

(** At most one of the conditions is a prefix. *)
Lemma path_conditions_prefix path x y l :
  path_conditions path ≡ₚ x :: y :: l → ¬ (has_prefix x = true ∧ has_prefix y = true).
Proof.
  intros Hp [Hx Hy].
  assert (length (List.filter has_prefix (path_conditions path)) ≤ 1) as Hle.
  { unfold path_conditions. rewrite List.filter_app, length_app.
    assert (List.filter has_prefix ((λ kv : string * HeaderMatch, {| mc_prefix := "";
      mc_header := Some {| hc_name := kv.1; hc_exact := hm_exact kv.2 |} |})
        <$> range_map (pa_headers path)) = []) as ->.
    { by induction (range_map (pa_headers path)). }
    destruct (String.eqb (pa_path path) ""); simpl; repeat case_match; simpl; lia. }
  assert (List.filter has_prefix (path_conditions path) ≡ₚ List.filter has_prefix (x :: y :: l))
    as Hf.
  { clear Hle. induction Hp; simpl; repeat case_match; eauto using Permutation. }
  rewrite Hf in Hle. simpl in Hle. rewrite Hx, Hy in Hle. simpl in Hle. lia.
Qed.

Lemma path_conditions_sep path a b :
  a ∈ path_conditions path → b ∈ path_conditions path →
  condition_lessb a b = false → condition_lessb b a = false → a = b.
Proof.
  intros Ha Hb. apply path_conditions_elem in Ha as [[Hne ->]|(ka & va & Hka & ->)];
    apply path_conditions_elem in Hb as [[Hne' ->]|(kb & vb & Hkb & ->)]; try done.
  - unfold condition_lessb, has_prefix. simpl. by destruct (String.eqb_spec (pa_path path) "").
  - unfold condition_lessb, has_prefix. simpl. by destruct (String.eqb_spec (pa_path path) "").
  - unfold condition_lessb. simpl. intros H1 H2.
    assert (ka = kb) as -> by by apply string_lt_antisym. by simplify_eq.
Qed.

(** The comparison never meets a nil [Header]: sorting succeeds. *)
Lemma sort_conditions_ret path :
  sort_conditions (path_conditions path) =
    Ret (sort_slice condition_lessb (path_conditions path)).
Proof.
  unfold sort_conditions. destruct (Nat.ltb_spec 1 (length (path_conditions path))) as [|Hl].
  - apply sort_sliceM_pure. intros x y l Hp.
    pose proof (path_conditions_wf path) as Hwf. rewrite Hp, !Forall_cons in Hwf.
    apply condition_less_pure; [by apply Hwf..|]. by eapply path_conditions_prefix.
  - by destruct (path_conditions path) as [|c [|d l]]; simpl in *; [..|lia].
Qed.
End Conditions.

Lemma path_conditions_perm (o1 o2 : MapOrder) path :
  @path_conditions o1 path ≡ₚ @path_conditions o2 path.
Proof. unfold path_conditions. by rewrite !range_map_perm. Qed.

Lemma sorted_conditions_order (o1 o2 : MapOrder) path :
  sort_slice condition_lessb (@path_conditions o1 path) =
  sort_slice condition_lessb (@path_conditions o2 path).
Proof.
  apply (sort_slice_perm_eq _ (λ c, c ∈ @path_conditions o1 path ∧ condition_wf c)).
  - destruct condition_less_ok as [Ha Ht]. split; naive_solver.
  - intros a b [Ha _] [Hb _]. by apply (@path_conditions_sep o1 path).
  - apply Forall_forall. intros c Hc. split; [done|].
    by apply (proj1 (Forall_forall _ _) (@path_conditions_wf o1 path)).
  - apply path_conditions_perm.
Qed.

(** ** What the generator returns, as a pure function *)

(** Every rule has its HTTP block. *)
Definition has_http (ing : Ingress) : Prop :=
  Forall (λ r, is_Some (ru_http r)) (is_rules (ing_spec ing)).

(** The system namespace is known when it is needed. *)
Definition env_ok (env : Env) (cfg : Config) : Prop :=
  internal_tls cfg = true → is_ret (SystemNamespace env) = true.

Section Pure.
Context `{MapOrder} (env : Env) (cfg : Config).

Definition validation_of (ns : string) : option UpstreamValidation :=
  match SystemNamespace env with
  | Ret sysns =>
      if internal_tls cfg then
        Some {| uv_ca_certificate := sysns +:+ "/" +:+ ServingRoutingCertName;
                uv_subject_name := DataPlaneUserSAN ns;
                uv_subject_names := [DataPlaneUserSAN ns; DataPlaneRoutingSAN] |}
      else None
  | _ => None
  end.

Definition service_of (stp : gmap string string) (ns : string) (path : HTTPIngressPath)
    (split : IngressBackendSplit) : ProxyService :=
  let challenge := Contains (pa_path path) HTTPChallengePath in
  {| ps_name := sp_service_name split;
     ps_port := IntValue (sp_service_port split);
     ps_protocol := if challenge then None else service_protocol stp path split;
     ps_weight := sp_percent split;
     ps_validation := if challenge then None else validation_of ns;
     ps_request_headers := post_split_headers split |}.

Definition route_of (stp : gmap string string) (ing : Ingress) (rule : IngressRule)
    (path : HTTPIngressPath) : Route :=
  {| ro_conditions := sort_slice condition_lessb (path_conditions path);
     ro_timeout := Some {| tp_response := TimeoutPolicyResponse (cfg_Contour cfg);
                           tp_idle := TimeoutPolicyIdle (cfg_Contour cfg) |};
     ro_retry := Some defaultRetryPolicy;
     ro_services := service_of stp (ing_namespace ing) path <$> pa_splits path;
     ro_websockets := true;
     ro_request_headers := Some (pre_split_headers path);
     ro_permit_insecure :=
       String.eqb (ru_visibility rule) IngressVisibilityClusterLocal ||
       allow_insecure (is_http_option (ing_spec ing)) |}.

(** The routes of a rule: those of its probe paths, then those of its own paths. *)
Definition routes_of (stp : gmap string string) (ing : Ingress) (rule : IngressRule) : list Route :=
  let paths := default [] (ru_http rule) in
  route_of stp ing rule <$> (probe_path (ComputeHash ing) <$> paths) ++ paths.

Definition proxies_of_rule (stp : gmap string string) (ing : Ingress) (rule : IngressRule)
    : list HTTPProxy :=
  ru_hosts rule ≫= λ originalHost,
    make_host_proxy env cfg ing (tlsEntries ing) rule (routes_of stp ing rule) originalHost <$>
      sets_List (ExpandedHosts env {[originalHost]}).

Definition proxies_of (stp : gmap string string) (ing : Ingress) : list HTTPProxy :=
  is_rules (ing_spec ing) ≫= proxies_of_rule stp ing.

Lemma make_service_ret stp ns path split :
  env_ok env cfg →
  make_service env cfg stp ns path split = Ret (service_of stp ns path split).
Proof.
  unfold env_ok, make_service, service_of, upstream_validation, validation_of. intros Hok.
  destruct (internal_tls cfg), (SystemNamespace env); simpl in *; try done;
    try (by discriminate Hok); by destruct (Contains _ _).
Qed.

Lemma make_route_ret stp ing rule path :
  env_ok env cfg → make_route env cfg stp ing rule path = Ret (route_of stp ing rule path).
Proof.
  intros Hok. unfold make_route.
  rewrite (outcome_mapM_ext _ (λ s, Ret (service_of stp (ing_namespace ing) path s)))
    by (intros; by apply make_service_ret).
  rewrite outcome_mapM_pure. simpl. by rewrite sort_conditions_ret.
Qed.

(** The Ingress as [InsertProbe] leaves it. *)
Definition probed (ing : Ingress) : Ingress := (InsertProbe ing).1.

Lemma probed_fields ing :
  ing_meta (probed ing) = ing_meta ing ∧ is_tls (ing_spec (probed ing)) = is_tls (ing_spec ing) ∧
  is_http_option (ing_spec (probed ing)) = is_http_option (ing_spec ing).
Proof. unfold probed, InsertProbe. by destruct (insert_probe_rules _ _). Qed.

Lemma probed_rules ing :
  has_http ing →
  is_rules (ing_spec (probed ing)) =
    (λ r, with_http ((probe_path (ComputeHash ing) <$> default [] (ru_http r))
                       ++ default [] (ru_http r)) r) <$> is_rules (ing_spec ing).
Proof.
  intros Hh. unfold probed, InsertProbe. by rewrite (insert_probe_rules_ok _ _ Hh).
Qed.

Lemma tls_for_rules_ext tls vis rules1 rules2 acc :
  Forall2 (λ r1 r2, ru_visibility r1 = ru_visibility r2 ∧ ru_hosts r1 = ru_hosts r2) rules1 rules2 →
  tls_for_rules tls vis rules1 acc = tls_for_rules tls vis rules2 acc.
Proof.
  intros HF. revert acc. induction HF as [|r1 r2 l1 l2 [Hv Hh] HF IH]; intros acc; simpl; [done|].
  rewrite Hv, Hh, IH. destruct (ru_hosts r2); [done|]. by rewrite IH.
Qed.

Lemma tlsEntries_probed ing : has_http ing → tlsEntries (probed ing) = tlsEntries ing.
Proof.
  intros Hh. unfold tlsEntries, GetIngressTLSForVisibility.
  destruct (probed_fields ing) as (_ & -> & _). destruct (is_tls (ing_spec ing)); [done|].
  assert (∀ tls vis acc, tls_for_rules tls vis (is_rules (ing_spec (probed ing))) acc =
    tls_for_rules tls vis (is_rules (ing_spec ing)) acc) as Heq; [|by rewrite !Heq].
  intros. apply tls_for_rules_ext. rewrite probed_rules by done.
  by apply Forall2_fmap_l, Forall_Forall2_diag, Forall_true.
Qed.
End Pure.

Section MakeFacts.
Context `{MapOrder} (env : Env) (cfg : Config).
Implicit Types (stp : gmap string string) (ing : Ingress) (rule : IngressRule).

Lemma host_proxy_probed ing entries rule paths routes oh h :
  make_host_proxy env cfg (probed ing) entries (with_http paths rule) routes oh h =
  make_host_proxy env cfg ing entries rule routes oh h.
Proof.
  destruct (probed_fields ing) as (Hm & _ & _).
  unfold make_host_proxy, host_class, host_tls, authorization_of, ing_annotations,
    ing_name, ing_namespace, ing_generation. by rewrite Hm.
Qed.

Lemma route_probed stp ing rule paths path :
  route_of env cfg stp (probed ing) (with_http paths rule) path = route_of env cfg stp ing rule path.
Proof.
  destruct (probed_fields ing) as (Hm & _ & Ho). unfold route_of, ing_namespace.
  by rewrite Hm, Ho.
Qed.

Lemma make_rule_proxies_ret stp ing rule :
  env_ok env cfg → has_http ing →
  make_rule_proxies env cfg stp (probed ing) (tlsEntries (probed ing))
    (with_http ((probe_path (ComputeHash ing) <$> default [] (ru_http rule))
                  ++ default [] (ru_http rule)) rule) =
  Ret (proxies_of_rule env cfg stp ing rule).
Proof.
  intros Hok Hh. unfold make_rule_proxies. simpl. rewrite tlsEntries_probed by done.
  erewrite outcome_mapM_ext; [|intros path _; rewrite make_route_ret by done;
    rewrite route_probed; reflexivity].
  rewrite outcome_mapM_pure. simpl. f_equal. unfold proxies_of_rule.
  apply list_bind_ext; [|done]. intros oh. apply list_fmap_ext. intros _ h _.
  apply host_proxy_probed.
Qed.

Lemma MakeHTTPProxies_ret stp ing :
  env_ok env cfg → has_http ing → MakeHTTPProxies env cfg ing stp = Ret (proxies_of env cfg stp ing).
Proof.
  intros Hok Hh. unfold MakeHTTPProxies. fold (probed ing).
  rewrite (proj2 (outcome_mapM_ret _ _ (proxies_of_rule env cfg stp ing <$> is_rules (ing_spec ing)))).
  - simpl. f_equal. unfold proxies_of. generalize (is_rules (ing_spec ing)).
    intros l. induction l as [|r l IH]; [done|]. simpl. f_equal. exact IH.
  - rewrite probed_rules by done. apply Forall2_fmap, Forall_Forall2_diag, Forall_true.
    intros r. by apply make_rule_proxies_ret.
Qed.
End MakeFacts.

(** ** Sorted conditions, explicitly *)

Section SortedConditions.
Context `{MapOrder}.
Implicit Types (path : HTTPIngressPath) (m : gmap string HeaderMatch).

Definition header_conditions m : list MatchCondition :=
  (λ kv, {| mc_prefix := ""; mc_header := Some {| hc_name := kv.1; hc_exact := hm_exact kv.2 |} |})
    <$> range_map m.

Lemma elem_of_header_conditions m c :
  c ∈ header_conditions m ↔ ∃ k v, m !! k = Some v ∧
    c = {| mc_prefix := ""; mc_header := Some {| hc_name := k; hc_exact := hm_exact v |} |}.
Proof.
  unfold header_conditions. rewrite list_elem_of_fmap. split.
  - intros ([k v] & -> & Hkv%elem_of_range_map). eauto.
  - intros (k & v & Hkv & ->). exists (k, v). by rewrite elem_of_range_map.
Qed.

Lemma header_conditions_wf m : Forall condition_wf (header_conditions m).
Proof.
  apply Forall_forall. intros c (k & v & _ & ->)%elem_of_header_conditions.
  right. split; [done|]. by eexists.
Qed.

Definition header_name (c : MatchCondition) : string :=
  match mc_header c with Some h => hc_name h | None => "" end.

Lemma header_conditions_names m : NoDup (header_name <$> header_conditions m).
Proof.
  unfold header_conditions. rewrite <-list_fmap_compose.
  rewrite (list_fmap_ext _ fst) by done. apply NoDup_range_map_keys.
Qed.

(** A sorted list without duplicate names is strictly sorted. *)
Lemma StronglySorted_strict {A} (R S : relation A) (key : A → string) l :
  (∀ a b, a ∈ l → b ∈ l → key a ≠ key b → R a b → S a b) →
  NoDup (key <$> l) → StronglySorted R l → StronglySorted S l.
Proof.
  intros HRS Hnd. induction 1 as [|x l Hl IH Hx]; [constructor|].
  apply NoDup_cons in Hnd as [Hxl Hnd]. constructor.
  - apply IH; [|done]. intros a b Ha Hb. apply HRS; by right.
  - rewrite Forall_forall in Hx |- *. intros y Hy. apply HRS; [left|by right| |by apply Hx].
    intros Heq. apply Hxl. rewrite Heq. by apply list_elem_of_fmap_2.
Qed.

Lemma sorted_path_conditions path :
  sort_slice condition_lessb (path_conditions path) =
    (if String.eqb (pa_path path) "" then []
     else [{| mc_prefix := pa_path path; mc_header := None |}]) ++
    sort_slice condition_lessb (header_conditions (pa_headers path)).
Proof.
  symmetry. apply (sort_slice_unique _ (λ c, c ∈ path_conditions path ∧ condition_wf c)).
  - destruct condition_less_ok as [Ha Ht]. split; naive_solver.
  - intros a b [Ha _] [Hb _]. by apply path_conditions_sep with (path := path).
  - apply Forall_forall. intros c Hc. split; [done|].
    by apply (proj1 (Forall_forall _ _) (path_conditions_wf path)).
  - unfold path_conditions. fold (header_conditions (pa_headers path)).
    by rewrite sort_slice_perm.
  - pose proof (sort_slice_sorted _ _ _ condition_less_ok (header_conditions_wf (pa_headers path)))
      as Hs.
    destruct (String.eqb_spec (pa_path path) "") as [|Hne]; [done|]. simpl. constructor; [done|].
    apply Forall_forall. intros c. rewrite sort_slice_elem, elem_of_header_conditions.
    intros (k & v & _ & ->). unfold not_after, condition_lessb, has_prefix. simpl.
    by destruct (String.eqb_spec (pa_path path) "").
Qed.

(** The names of header conditions fall strictly. *)
Definition header_after (a b : MatchCondition) : Prop :=
  ∃ ha hb, mc_header a = Some ha ∧ mc_header b = Some hb ∧
    string_lt (hc_name hb) (hc_name ha) = true.

Lemma header_conditions_sorted m :
  StronglySorted header_after (sort_slice condition_lessb (header_conditions m)).
Proof.
  apply (StronglySorted_strict (not_after condition_lessb) _ header_name).
  - intros a b. rewrite !sort_slice_elem, !elem_of_header_conditions.
    intros (ka & va & _ & ->) (kb & vb & _ & ->). unfold header_name, not_after, condition_lessb.
    simpl. intros Hne Hlt. do 2 eexists. split_and!; [done..|]. simpl.
    destruct (string_lt kb ka) eqn:E; [done|]. destruct Hne. by apply string_lt_antisym.
  - rewrite sort_slice_perm. apply header_conditions_names.
  - apply (sort_slice_sorted _ condition_wf); [apply condition_less_ok|apply header_conditions_wf].
Qed.
End SortedConditions.

(** ** Labels, annotations and names *)

Definition proxy_labels (ing : Ingress) (class host : string) : gmap string string :=
  <[DomainHashKey := sha1_hex host]>
    (<[GenerationKey := FormatInt (ing_generation ing)]>
      (<[ParentKey := ing_name ing]> {[ClassKey := class]})).

Definition vhost_of (p : HTTPProxy) : option VirtualHost := hs_virtual_host (hp_spec p).

Lemma host_proxy_labels env cfg ing entries rule routes oh h :
  hp_labels (make_host_proxy env cfg ing entries rule routes oh h) =
  proxy_labels ing (host_class env cfg rule oh) h.
Proof.
  unfold hp_labels, make_host_proxy, proxy_labels, host_class. simpl. f_equal.
  destruct (HasSuffix oh _); [|done].
  rewrite (insert_insert_ne _ ClassKey GenerationKey), (insert_insert_ne _ ClassKey ParentKey) by done.
  by rewrite insert_singleton_eq.
Qed.

Lemma host_proxy_annotations env cfg ing entries rule routes oh h :
  hp_annotations (make_host_proxy env cfg ing entries rule routes oh h) =
  <[ClassKey := host_class env cfg rule oh]> (ing_annotations ing).
Proof.
  unfold hp_annotations, make_host_proxy, host_class. simpl.
  rewrite UnionMaps_two, <-insert_union_singleton_l.
  destruct (HasSuffix oh _); [|done]. by rewrite insert_insert_eq.
Qed.

(** A host a rule lists under two names of one class gets the same proxy twice. *)
Lemma host_proxy_same env cfg ing entries rule routes oh oh' h :
  host_class env cfg rule oh = host_class env cfg rule oh' →
  make_host_proxy env cfg ing entries rule routes oh h = make_host_proxy env cfg ing entries rule routes oh' h.
Proof.
  intros E. pose proof (host_proxy_labels env cfg ing entries rule routes oh h) as El.
  pose proof (host_proxy_annotations env cfg ing entries rule routes oh h) as Ea.
  rewrite E, <-(host_proxy_labels env cfg ing entries rule routes oh' h) in El.
  rewrite E, <-(host_proxy_annotations env cfg ing entries rule routes oh' h) in Ea.
  unfold hp_labels, hp_annotations, make_host_proxy in *. simpl in *. by rewrite El, Ea, E.
Qed.

Section ProxyTheorems.
Context `{MapOrder} (env : Env) (cfg : Config).
Implicit Types (stp : gmap string string) (ing : Ingress) (rule : IngressRule).

Lemma elem_of_proxies_of stp ing p :
  p ∈ proxies_of env cfg stp ing ↔
  ∃ rule oh h, rule ∈ is_rules (ing_spec ing) ∧ oh ∈ ru_hosts rule ∧
    h ∈ ExpandedHosts env {[oh]} ∧
    p = make_host_proxy env cfg ing (tlsEntries ing) rule (routes_of env cfg stp ing rule) oh h.
Proof.
  unfold proxies_of, proxies_of_rule. rewrite list_elem_of_bind.
  setoid_rewrite list_elem_of_bind. setoid_rewrite list_elem_of_fmap.
  setoid_rewrite elem_of_sets_List. naive_solver.
Qed.

(** C24: for an Ingress whose rules all have an HTTP block, proxy generation does not
    panic, and it produces exactly one proxy for each rule, host of the rule and
    expansion of that host, in that order. *)
Theorem MakeHTTPProxies_per_host stp ing :
  env_ok env cfg → has_http ing →
  ∃ ps, MakeHTTPProxies env cfg ing stp = Ret ps ∧
    vhost_of <$> ps =
      is_rules (ing_spec ing) ≫= λ rule, ru_hosts rule ≫= λ oh,
        (λ h, Some {| vh_fqdn := h;
                      vh_tls := host_tls cfg (tlsEntries ing) rule h;
                      vh_authorization := authorization_of ing;
                      vh_cors := if String.eqb (ru_visibility rule) IngressVisibilityExternalIP
                                 then ContourCORSPolicy (cfg_Contour cfg) else None |})
          <$> sets_List (ExpandedHosts env {[oh]}).
Proof.
  intros Hok Hh. eexists. split; [by apply MakeHTTPProxies_ret|].
  unfold proxies_of, proxies_of_rule. rewrite fmap_list_bind.
  apply list_bind_ext; [|done]. intros rule. rewrite fmap_list_bind.
  apply list_bind_ext; [|done]. intros oh. by rewrite <-list_fmap_compose.
Qed.

(** C25: every generated proxy belongs to its Ingress and carries the labels by which
    the reconciler finds it again: the parent, its generation, the SHA-1 of its host
    and its class, which is also its class annotation (the parent's own class
    annotation never wins); its name has at most 63 bytes. *)
Theorem MakeHTTPProxies_identity stp ing ps p :
  MakeHTTPProxies env cfg ing stp = Ret ps → env_ok env cfg → has_http ing → p ∈ ps →
  ∃ rule oh h, rule ∈ is_rules (ing_spec ing) ∧ oh ∈ ru_hosts rule ∧
    h ∈ ExpandedHosts env {[oh]} ∧ vh_fqdn <$> vhost_of p = Some h ∧
    hp_namespace p = ing_namespace ing ∧
    om_owners (hp_meta p) = [NewControllerRef (ing_meta ing)] ∧
    hp_labels p = proxy_labels ing (host_class env cfg rule oh) h ∧
    hp_annotations p = <[ClassKey := host_class env cfg rule oh]> (ing_annotations ing) ∧
    slen (hp_name p) ≤ 63.
Proof.
  intros Hr Hok Hh. rewrite MakeHTTPProxies_ret in Hr by done. injection Hr as <-.
  rewrite elem_of_proxies_of. intros (rule & oh & h & ? & ? & ? & ->).
  exists rule, oh, h. rewrite host_proxy_labels, host_proxy_annotations. split_and!; try done.
  apply ChildName.ChildName_length.
Qed.


(** Sorting the conditions of a path never dereferences a nil [Header].  The
    result has the path's prefix first, if it has one, then one condition per header
    match, in strictly descending order of the header names. *)
Theorem sort_conditions_spec path :
  ∃ headers, sort_conditions (path_conditions path) =
      Ret ((if String.eqb (pa_path path) "" then []
            else [{| mc_prefix := pa_path path; mc_header := None |}]) ++ headers) ∧
    StronglySorted header_after headers ∧
    ∀ c, c ∈ headers ↔ ∃ k v, pa_headers path !! k = Some v ∧
      c = {| mc_prefix := ""; mc_header := Some {| hc_name := k; hc_exact := hm_exact v |} |}.
Proof.
  exists (sort_slice condition_lessb (header_conditions (pa_headers path))).
  rewrite sort_conditions_ret, sorted_path_conditions. split; [done|].
  split; [apply header_conditions_sorted|].
  intros c. rewrite sort_slice_elem. apply elem_of_header_conditions.
Qed.
End ProxyTheorems.

(** ** Backends *)

(** A path and split of a domain mapping: the host is rewritten and the original one
    kept in a header. *)
Definition is_domain_mapping (path : HTTPIngressPath) (split : IngressBackendSplit) : bool :=
  negb (String.eqb (pa_rewrite_host path) "") &&
  bool_decide (is_Some (sp_append_headers split !! OriginalHostKey)).

(** What the backend made for a split of a path must satisfy. *)
Definition backend_ok (cfg : Config) (stp : gmap string string) (ns : string)
    (path : HTTPIngressPath) (split : IngressBackendSplit) (s : ProxyService) : Prop :=
  ps_name s = sp_service_name split ∧ ps_port s = IntValue (sp_service_port split) ∧
  ps_weight s = sp_percent split ∧
  (if Contains (pa_path path) HTTPChallengePath then
     ps_protocol s = None ∧ ps_validation s = None
   else
     ps_protocol s =
       (if is_domain_mapping path split then (λ _, "h2c") <$> stp !! sp_service_name split
        else stp !! sp_service_name split) ∧
     (internal_tls cfg = false → ps_validation s = None) ∧
     (internal_tls cfg = true → ∃ v, ps_validation s = Some v ∧
        uv_subject_names v = [DataPlaneUserSAN ns; DataPlaneRoutingSAN])).

Section Backends.
Context `{MapOrder} (env : Env) (cfg : Config).
Implicit Types (stp : gmap string string) (ing : Ingress) (path : HTTPIngressPath).

Lemma has_original_host_spec split :
  has_original_host split = true ↔ is_Some (sp_append_headers split !! OriginalHostKey).
Proof.
  unfold has_original_host. rewrite existsb_exists. split.
  - intros ([k v] & Hin & Heq%String.eqb_eq). simpl in Heq. subst k.
    apply list_elem_of_In, elem_of_range_map in Hin. by eexists.
  - intros [v Hv]. exists (OriginalHostKey, v). split; [|done].
    by apply list_elem_of_In, elem_of_range_map.
Qed.

Lemma service_protocol_spec stp path split :
  service_protocol stp path split =
    if is_domain_mapping path split then (λ _, "h2c") <$> stp !! sp_service_name split
    else stp !! sp_service_name split.
Proof.
  unfold service_protocol, is_domain_mapping.
  assert (has_original_host split =
    bool_decide (is_Some (sp_append_headers split !! OriginalHostKey))) as ->.
  { apply eq_bool_prop_intro. by rewrite bool_decide_spec, <-has_original_host_spec, Is_true_true. }
  by destruct (stp !! sp_service_name split), (_ && _).
Qed.

Lemma service_of_ok stp ns path split :
  env_ok env cfg → backend_ok cfg stp ns path split (service_of env cfg stp ns path split).
Proof.
  intros Hok. unfold backend_ok, service_of. simpl. split_and!; [done..|].
  destruct (Contains (pa_path path) HTTPChallengePath); [done|].
  rewrite service_protocol_spec. split; [done|]. unfold validation_of, env_ok in *.
  split; intros Ht; rewrite Ht in *.
  - by destruct (SystemNamespace env).
  - destruct (SystemNamespace env); [by eexists|by discriminate Hok..].
Qed.

(** C27: every route of a generated proxy comes from a path of a rule and has one
    backend per split of that path, with the split's Service, port and percentage.
    Traffic to the ACME challenge path is never encrypted; elsewhere the protocol is
    the Service's, except that domain mappings (a rewritten host and an original-host
    header) go back to Envoy as h2c, and with internal encryption the peer must
    present one of the data-plane names. *)
Theorem MakeHTTPProxies_backends stp ing ps p route :
  MakeHTTPProxies env cfg ing stp = Ret ps → env_ok env cfg → has_http ing →
  p ∈ ps → route ∈ hs_routes (hp_spec p) →
  ∃ rule paths path, rule ∈ is_rules (ing_spec ing) ∧ ru_http rule = Some paths ∧ path ∈ paths ∧
    Forall2 (backend_ok cfg stp (ing_namespace ing) path) (pa_splits path) (ro_services route) ∧
    ro_permit_insecure route =
      bool_decide (ru_visibility rule = IngressVisibilityClusterLocal ∨
                   is_http_option (ing_spec ing) = HTTPOptionEnabled).
Proof.
  intros Hr Hok Hh. rewrite MakeHTTPProxies_ret in Hr by done. injection Hr as <-.
  rewrite elem_of_proxies_of. intros (rule & oh & h & Hrule & ? & ? & ->). simpl.
  unfold routes_of. rewrite list_elem_of_fmap. intros (path & -> & Hpath).
  destruct (proj1 (Forall_forall _ _) Hh rule Hrule) as [paths Hp]. rewrite Hp in Hpath.
  assert (∃ path', path' ∈ paths ∧ pa_splits path' = pa_splits path ∧
    pa_path path' = pa_path path ∧ pa_rewrite_host path' = pa_rewrite_host path)
    as (path' & Hin & Hs & Hpp & Hrw).
  { apply elem_of_app in Hpath as [(path' & -> & ?)%list_elem_of_fmap|]; by eexists. }
  exists rule, paths, path'. split_and!; [done..| |].
  - rewrite Hs. simpl. apply Forall2_fmap_r, Forall_Forall2_diag, Forall_true. intros split.
    unfold backend_ok, is_domain_mapping. rewrite Hpp, Hrw. by apply service_of_ok.
  - simpl. apply eq_bool_prop_intro. rewrite bool_decide_spec, orb_True.
    unfold allow_insecure.
    destruct (String.eqb_spec (ru_visibility rule) IngressVisibilityClusterLocal),
      (String.eqb_spec (is_http_option (ing_spec ing)) HTTPOptionRedirected) as [Ho|],
      (String.eqb_spec (is_http_option (ing_spec ing)) HTTPOptionEnabled);
      try rewrite Ho; naive_solver.
Qed.
End Backends.

(** ** Independence of the order of map iteration *)

(** The rewritten host does not compete with a "Host" header of the path. *)
Definition host_header_free (path : HTTPIngressPath) : Prop :=
  pa_rewrite_host path ≠ "" → pa_append_headers path !! "Host" = None.

Definition hosts_free (ing : Ingress) : Prop :=
  Forall (λ r, Forall host_header_free (default [] (ru_http r))) (is_rules (ing_spec ing)).

Lemma header_values_perm (o1 o2 : MapOrder) m : @header_values o1 m ≡ₚ @header_values o2 m.
Proof. unfold header_values. by rewrite !range_map_perm. Qed.

Lemma header_values_names `{MapOrder} m : hv_name <$> header_values m = (range_map m).*1.
Proof. unfold header_values. by rewrite <-list_fmap_compose. Qed.

Lemma pre_split_headers_order (o1 o2 : MapOrder) path :
  host_header_free path → @pre_split_headers o1 path = @pre_split_headers o2 path.
Proof.
  intros Hfree. unfold pre_split_headers. f_equal. apply key_sort_perm_eq.
  - rewrite fmap_app, header_values_names.
    destruct (String.eqb_spec (pa_rewrite_host path) "") as [|Hne]; simpl.
    { rewrite app_nil_r. apply NoDup_range_map_keys. }
    apply NoDup_app. split_and!; [apply NoDup_range_map_keys| |apply NoDup_singleton].
    intros k ([k' v] & Hk & Hkv%elem_of_range_map)%list_elem_of_fmap Hh%list_elem_of_singleton.
    simpl in Hk. subst k k'. by rewrite (Hfree Hne) in Hkv.
  - by rewrite (header_values_perm o1 o2).
Qed.

Lemma post_split_headers_order (o1 o2 : MapOrder) split :
  @post_split_headers o1 split = @post_split_headers o2 split.
Proof.
  unfold post_split_headers. pose proof (header_values_perm o1 o2 (sp_append_headers split)) as Hp.
  assert (sort_slice (key_less hv_name) (@header_values o1 (sp_append_headers split)) =
    sort_slice (key_less hv_name) (@header_values o2 (sp_append_headers split))) as Hs.
  { apply key_sort_perm_eq; [|done]. rewrite header_values_names. apply NoDup_range_map_keys. }
  destruct (@header_values o1 _), (@header_values o2 _); [done| | |by rewrite Hs].
  - by apply Permutation_nil_l in Hp.
  - by apply Permutation_nil_r in Hp.
Qed.

Lemma service_of_order (o1 o2 : MapOrder) env cfg stp ns path split :
  @service_of o1 env cfg stp ns path split = @service_of o2 env cfg stp ns path split.
Proof.
  unfold service_of.
  by rewrite (@service_protocol_spec o1), (@service_protocol_spec o2),
    (post_split_headers_order o1 o2).
Qed.

Lemma route_of_order (o1 o2 : MapOrder) env cfg stp ing rule path :
  host_header_free path →
  @route_of o1 env cfg stp ing rule path = @route_of o2 env cfg stp ing rule path.
Proof.
  intros Hf. unfold route_of. rewrite (sorted_conditions_order o1 o2).
  rewrite (pre_split_headers_order o1 o2) by done. f_equal.
  apply list_fmap_ext. intros _ split _. apply service_of_order.
Qed.

Lemma routes_of_order (o1 o2 : MapOrder) env cfg stp ing rule :
  Forall host_header_free (default [] (ru_http rule)) →
  @routes_of o1 env cfg stp ing rule = @routes_of o2 env cfg stp ing rule.
Proof.
  rewrite Forall_forall. intros Hf. unfold routes_of. apply list_fmap_ext. intros i path Hp.
  apply list_elem_of_lookup_2, elem_of_app in Hp as [(path' & -> & Hp)%list_elem_of_fmap|Hp].
  - apply route_of_order. unfold host_header_free, probe_path. simpl. intros Hr.
    rewrite lookup_insert_ne by done. by apply Hf.
  - apply route_of_order. by apply Hf.
Qed.

(** C28: the generated proxies do not depend on the order in which Go iterates over
    header maps, provided no path both rewrites the host and appends a "Host" header
    of its own (two entries with one name, whose order sorting leaves open). *)
Theorem MakeHTTPProxies_deterministic (o1 o2 : MapOrder) env cfg ing stp :
  env_ok env cfg → has_http ing → hosts_free ing →
  @MakeHTTPProxies o1 env cfg ing stp = @MakeHTTPProxies o2 env cfg ing stp.
Proof.
  intros Hok Hh Hf. rewrite !MakeHTTPProxies_ret by done. f_equal.
  unfold proxies_of. unfold hosts_free in Hf. induction Hf as [|r l Hr Hl IH]; [done|].
  rewrite !bind_cons, IH. f_equal. unfold proxies_of_rule.
  by rewrite (routes_of_order o1 o2).
Qed.

(** ** Certificates *)

Lemma insert_hosts_lookup (t : IngressTLS) hs (m : gmap string IngressTLS) host :
  foldl (λ entries h, <[h := t]> entries) m hs !! host =
    if existsb (String.eqb host) hs then Some t else m !! host.
Proof.
  revert m. induction hs as [|h hs IH]; intros m; simpl; [done|].
  rewrite IH. destruct (String.eqb_spec host h) as [->|Hne]; simpl.
  - destruct (existsb (String.eqb h) hs); [done|]. apply lookup_insert_eq.
  - destruct (existsb (String.eqb host) hs); [done|]. by apply lookup_insert_ne.
Qed.

(** The last certificate that names the host wins. *)
Lemma addHostEntries_lookup entries l host :
  addHostEntries entries l !! host =
    match List.find (λ t, existsb (String.eqb host) (tls_hosts t)) (reverse l) with
    | Some t => Some t
    | None => entries !! host
    end.
Proof.
  induction l as [|t l IH] using rev_ind; [done|].
  unfold addHostEntries. rewrite foldl_app. fold (addHostEntries entries l).
  rewrite reverse_snoc. cbn [foldl List.find]. rewrite insert_hosts_lookup, IH.
  by destruct (existsb (String.eqb host) (tls_hosts t)).
Qed.

Lemma existsb_eqb x l : existsb (String.eqb x) l = true ↔ x ∈ l.
Proof.
  rewrite existsb_exists, list_elem_of_In. split.
  - by intros (y & Hy & ->%String.eqb_eq).
  - intros Hx. exists x. by rewrite String.eqb_refl.
Qed.

Lemma contains_all_hosts_spec t hosts :
  contains_all_hosts t hosts = true ↔ ∀ h, h ∈ hosts → h ∈ tls_hosts t.
Proof.
  unfold contains_all_hosts. rewrite forallb_forall. setoid_rewrite existsb_eqb.
  by setoid_rewrite list_elem_of_In.
Qed.

(** The certificates chosen for a visibility: each covers a whole rule. *)
Lemma tls_for_rules_spec tls vis rules acc t :
  t ∈ tls_for_rules tls vis rules acc →
  t ∈ acc ∨ t ∈ tls ∧ ∃ r, r ∈ rules ∧ ru_visibility r = vis ∧ ru_hosts r ≠ [] ∧
    ∀ h, h ∈ ru_hosts r → h ∈ tls_hosts t.
Proof.
  revert acc. induction rules as [|r rules IH]; intros acc; simpl; [by left|].
  destruct (String.eqb_spec (ru_visibility r) vis) as [Hv|Hv].
  - destruct (ru_hosts r) as [|h hs] eqn:Eh; [by left|]. intros Ht. apply IH in Ht as [Ht|(? & r' & ? & ?)].
    + apply elem_of_app in Ht as [?|Ht]; [by left|]. right.
      apply list_elem_of_filter in Ht as [Hc Ht]. split; [done|].
      exists r. split_and!; [left|done|by rewrite Eh|]. rewrite Eh. by apply contains_all_hosts_spec.
    + right. split; [done|]. exists r'. split; [by right|done].
  - intros Ht. apply IH in Ht as [?|(? & r' & ? & ?)]; [by left|]. right. split; [done|].
    exists r'. split; [by right|done].
Qed.

Lemma GetIngressTLSForVisibility_spec ing vis t :
  t ∈ GetIngressTLSForVisibility ing vis →
  t ∈ is_tls (ing_spec ing) ∧ ∃ r, r ∈ is_rules (ing_spec ing) ∧ ru_visibility r = vis ∧
    ru_hosts r ≠ [] ∧ ∀ h, h ∈ ru_hosts r → h ∈ tls_hosts t.
Proof.
  unfold GetIngressTLSForVisibility. destruct (is_tls (ing_spec ing)) eqn:E; [by intros ?%elem_of_nil|].
  rewrite <-E. intros Ht%tls_for_rules_spec. destruct Ht as [?%elem_of_nil|?]; done.
Qed.

(** Without a rule that lacks hosts, every covering certificate is chosen. *)
Lemma tls_for_rules_complete tls vis rules acc t :
  Forall (λ r, ru_visibility r = vis → ru_hosts r ≠ []) rules →
  t ∈ acc ∨ (t ∈ tls ∧ ∃ r, r ∈ rules ∧ ru_visibility r = vis ∧
    ∀ h, h ∈ ru_hosts r → h ∈ tls_hosts t) →
  t ∈ tls_for_rules tls vis rules acc.
Proof.
  intros Hall. revert acc. induction Hall as [|r rules Hr Hall IH]; intros acc; simpl.
  { intros [?|(_ & r & Hr & _)]; [done|by apply elem_of_nil in Hr]. }
  intros Ht. destruct (String.eqb_spec (ru_visibility r) vis) as [Hv|Hv].
  - destruct (ru_hosts r) as [|h hs] eqn:Eh; [by destruct (Hr Hv)|]. apply IH.
    destruct Ht as [?|(? & r' & [->|?]%elem_of_cons & ? & Hc)].
    + left. apply elem_of_app. by left.
    + left. apply elem_of_app. right. apply list_elem_of_filter. split; [|done].
      apply (contains_all_hosts_spec t (h :: hs)). by rewrite <-Eh.
    + right. eauto.
  - apply IH. destruct Ht as [?|(? & r' & [->|?]%elem_of_cons & ? & ?)]; [by left|done|].
    right. eauto.
Qed.

Lemma find_host_some host l t :
  List.find (λ t, existsb (String.eqb host) (tls_hosts t)) (reverse l) = Some t →
  t ∈ l ∧ host ∈ tls_hosts t.
Proof.
  intros [Hin Hh]%find_some. split; [|by apply existsb_eqb].
  by apply elem_of_reverse, list_elem_of_In.
Qed.

Lemma find_host_none host l t :
  List.find (λ t, existsb (String.eqb host) (tls_hosts t)) (reverse l) = None →
  t ∈ l → host ∉ tls_hosts t.
Proof.
  intros Hn Hin Hh%existsb_eqb. apply elem_of_reverse, list_elem_of_In in Hin.
  by rewrite (find_none _ _ Hn t Hin) in Hh.
Qed.

(** The certificate a proxy of [host] gets from the Ingress is one of the
    Ingress's TLS blocks, names that host, and covers every host of some rule. *)
Theorem tlsEntries_sound ing host t :
  tlsEntries ing !! host = Some t →
  t ∈ is_tls (ing_spec ing) ∧ host ∈ tls_hosts t ∧
  ∃ r, r ∈ is_rules (ing_spec ing) ∧ ru_hosts r ≠ [] ∧ (∀ h, h ∈ ru_hosts r → h ∈ tls_hosts t) ∧
    (ru_visibility r = IngressVisibilityExternalIP ∨ ru_visibility r = IngressVisibilityClusterLocal).
Proof.
  unfold tlsEntries. rewrite !addHostEntries_lookup, lookup_empty.
  destruct (List.find _ (reverse (GetIngressTLSForVisibility ing IngressVisibilityClusterLocal)))
    as [t'|] eqn:E1; [|destruct (List.find _ (reverse (GetIngressTLSForVisibility ing IngressVisibilityExternalIP)))
    as [t'|] eqn:E2; [|done]]; intros [= ->].
  - apply find_host_some in E1 as [(? & r & ? & ? & ? & ?)%GetIngressTLSForVisibility_spec ?].
    split_and!; [done..|]. exists r. auto.
  - apply find_host_some in E2 as [(? & r & ? & ? & ? & ?)%GetIngressTLSForVisibility_spec ?].
    split_and!; [done..|]. exists r. auto.
Qed.

Lemma tlsEntries_covered ing r t host :
  Forall (λ r, ru_hosts r ≠ []) (is_rules (ing_spec ing)) →
  r ∈ is_rules (ing_spec ing) → t ∈ is_tls (ing_spec ing) → host ∈ ru_hosts r →
  (∀ h, h ∈ ru_hosts r → h ∈ tls_hosts t) →
  ru_visibility r = IngressVisibilityExternalIP ∨ ru_visibility r = IngressVisibilityClusterLocal →
  is_Some (tlsEntries ing !! host).
Proof.
  intros Hall Hr Ht Hhost Hcov Hvis.
  assert (t ∈ GetIngressTLSForVisibility ing (ru_visibility r)) as Hin.
  { unfold GetIngressTLSForVisibility. destruct (is_tls (ing_spec ing)) eqn:E.
    - by apply elem_of_nil in Ht.
    - apply tls_for_rules_complete; [|right; split; [done|by exists r]].
      eapply Forall_impl; [exact Hall|]. by intros. }
  unfold tlsEntries. rewrite !addHostEntries_lookup.
  destruct (List.find _ (reverse (GetIngressTLSForVisibility ing IngressVisibilityClusterLocal))) eqn:E1;
    [done|].
  destruct (List.find _ (reverse (GetIngressTLSForVisibility ing IngressVisibilityExternalIP))) eqn:E2;
    [done|].
  destruct Hvis as [Hv|Hv]; rewrite Hv in Hin.
  - by destruct (find_host_none _ _ _ E2 Hin (Hcov _ Hhost)).
  - by destruct (find_host_none _ _ _ E1 Hin (Hcov _ Hhost)).
Qed.

(** When every rule has hosts, a host of a rule that some TLS block covers
    completely always gets a certificate. *)
Theorem tlsEntries_complete ing r t host :
  Forall (λ r, ru_hosts r ≠ []) (is_rules (ing_spec ing)) →
  r ∈ is_rules (ing_spec ing) → t ∈ is_tls (ing_spec ing) → host ∈ ru_hosts r →
  (∀ h, h ∈ ru_hosts r → h ∈ tls_hosts t) →
  ru_visibility r = IngressVisibilityExternalIP ∨ ru_visibility r = IngressVisibilityClusterLocal →
  is_Some (tlsEntries ing !! host).
Proof. apply tlsEntries_covered. Qed.

(** ** The services of an Ingress *)

(** One use of a Service: the visibility of the rule, the path and the split. *)
Record reference := {
  rf_visibility : string;
  rf_path : HTTPIngressPath;
  rf_split : IngressBackendSplit
}.

Definition rf_name (r : reference) : string := sp_service_name (rf_split r).

(** All uses, in the order of the Ingress. *)
Definition references (ing : Ingress) : list reference :=
  is_rules (ing_spec ing) ≫= λ rule, default [] (ru_http rule) ≫= λ path,
    (λ split, {| rf_visibility := ru_visibility rule; rf_path := path; rf_split := split |})
      <$> pa_splits path.

(** What is recorded for a Service with the given uses: port, host and path of the
    first one, the visibilities of all. *)
Definition info_of (uses : list reference) : option ServiceInfo :=
  match uses with
  | [] => None
  | r :: _ =>
      Some {| si_port := sp_service_port (rf_split r);
              si_raw_visibilities := list_to_set (rf_visibility <$> uses);
              si_rewrite_host := pa_rewrite_host (rf_path r);
              si_has_path := negb (String.eqb (pa_path (rf_path r)) "") |}
  end.

Definition uses_of (name : string) (l : list reference) : list reference :=
  filter (λ r, rf_name r = name) l.

Definition add_reference (s : gmap string ServiceInfo) (r : reference) : gmap string ServiceInfo :=
  add_split (rf_visibility r) (rf_path r) s (rf_split r).

Lemma foldl_bind {A B C} (f : C → B → C) (g : A → list B) l c :
  foldl f c (l ≫= g) = foldl (λ c x, foldl f c (g x)) c l.
Proof. revert c. induction l as [|x l IH]; intros c; simpl; [done|]. by rewrite foldl_app, IH. Qed.

Lemma foldl_fmap' {A B C} (f : C → B → C) (g : A → B) l c :
  foldl f c (g <$> l) = foldl (λ c x, f c (g x)) c l.
Proof. revert c. induction l as [|x l IH]; intros c; simpl; [done|]. apply IH. Qed.

Lemma foldl_ext' {A C} (f g : C → A → C) l c :
  (∀ c x, f c x = g c x) → foldl f c l = foldl g c l.
Proof. intros Hfg. revert c. induction l as [|x l IH]; intros c; simpl; [done|]. by rewrite Hfg. Qed.

Lemma ServiceNames_ret ing :
  has_http ing → ServiceNames ing = Ret (foldl add_reference ∅ (references ing)).
Proof.
  unfold has_http, ServiceNames, references. rewrite foldl_bind. generalize (∅ : gmap string ServiceInfo).
  intros s Hall. revert s. induction Hall as [|r rules [paths Hr] Hall IH]; intros s; [done|].
  cbn [outcome_foldM foldl].
  assert (add_rule s r = Ret (foldl (add_path (ru_visibility r)) s paths)) as ->
    by (unfold add_rule; by rewrite Hr).
  simpl. rewrite IH. do 2 f_equal. rewrite Hr, foldl_bind. apply foldl_ext'. intros c path. rewrite foldl_fmap'. done.
Qed.

Lemma add_references_lookup l name :
  foldl add_reference ∅ l !! name = info_of (uses_of name l).
Proof.
  induction l as [|r l IH] using rev_ind; [done|].
  rewrite foldl_app. unfold uses_of in *. rewrite filter_app. cbn [foldl].
  unfold add_reference at 1, add_split. fold (rf_name r).
  destruct (decide (rf_name r = name)) as [Hn|Hn].
  - rewrite filter_cons_True, filter_nil by done. rewrite Hn, lookup_insert_eq, IH.
    destruct (filter _ l) as [|r0 l0]; simpl; unfold insert_visibility; simpl.
    + by rewrite union_empty_r_L.
    + do 2 f_equal. rewrite fmap_app, list_to_set_app_L. set_solver.
  - rewrite filter_cons_False, filter_nil, app_nil_r by done. by rewrite lookup_insert_ne.
Qed.

(** With an HTTP block in every rule, [ServiceNames] returns, for exactly the
    Services some split refers to, the port, rewritten host and path flag of their
    first use and the visibilities of all their uses. *)
Theorem ServiceNames_spec ing :
  has_http ing →
  ∃ m, ServiceNames ing = Ret m ∧ ∀ name, m !! name = info_of (uses_of name (references ing)).
Proof.
  intros Hh. eexists. split; [by apply ServiceNames_ret|]. apply add_references_lookup.
Qed.

Definition no_http (r : IngressRule) : Prop := ¬ is_Some (ru_http r).

Lemma insert_probe_missing hash rules :
  Exists no_http rules →
  ∃ rules' e, insert_probe_rules hash rules = (rules', Some e) ∧ Exists no_http rules'.
Proof.
  induction rules as [|r rules IH]; [by intros ?%Exists_nil|]. intros Hex. simpl.
  destruct (ru_http r) as [paths|] eqn:E.
  - apply Exists_cons in Hex as [Hno|Hex]; [by destruct Hno; rewrite E|].
    destruct (IH Hex) as (rules' & e & -> & Hex'). do 2 eexists. split; [done|]. by right.
  - do 2 eexists. split; [done|]. left. unfold no_http. rewrite E. by intros [].
Qed.

Lemma add_rules_panic s rules :
  Exists no_http rules → ∃ msg, outcome_foldM add_rule s rules = Panic msg.
Proof.
  revert s. induction rules as [|r rules IH]; intros s; [by intros ?%Exists_nil|]. intros Hex. simpl.
  destruct (ru_http r) as [paths|] eqn:E; unfold add_rule at 2; rewrite E; simpl; [|by eexists].
  apply Exists_cons in Hex as [Hno|Hex]; [by destruct Hno; rewrite E|]. by apply IH.
Qed.

(** Neither services nor routes return an error value. *)
Lemma make_routes_no_error `{MapOrder} env cfg stp ing rule paths e :
  outcome_mapM (make_route env cfg stp ing rule) paths ≠ Fail e.
Proof.
  assert (∀ path e, make_route env cfg stp ing rule path ≠ Fail e) as Hr.
  { intros path e'. unfold make_route. rewrite sort_conditions_ret.
    assert (∀ l e, outcome_mapM (make_service env cfg stp (ing_namespace ing) path) l ≠ Fail e) as Hs.
    { intros l. induction l as [|x l IH]; intros e0; simpl; [done|].
      unfold make_service at 2, upstream_validation, SystemNamespace.
      specialize (IH e0).
      repeat case_match; simpl; try done; destruct (outcome_mapM _ l); simpl in *; congruence. }
    specialize (Hs (pa_splits path) e'). destruct (outcome_mapM _ _); simpl in *; congruence. }
  induction paths as [|path paths IH]; simpl; [done|].
  specialize (Hr path e). destruct (make_route _ _ _ _ _ path); simpl; try congruence.
  destruct (outcome_mapM _ paths); simpl; congruence.
Qed.

Lemma make_rules_panic `{MapOrder} env cfg stp ing entries rules :
  Exists no_http rules →
  ∃ msg, outcome_mapM (make_rule_proxies env cfg stp ing entries) rules = Panic msg.
Proof.
  induction rules as [|r rules IH]; [by intros ?%Exists_nil|]. intros Hex. simpl.
  unfold make_rule_proxies at 2.
  destruct (ru_http r) as [paths|] eqn:E; simpl; [|by eexists].
  apply Exists_cons in Hex as [Hno|Hex]; [by destruct Hno; rewrite E|].
  pose proof (make_routes_no_error env cfg stp ing r paths) as Hne.
  destruct (outcome_mapM _ paths); simpl; [|by destruct (Hne e)|by eexists].
  destruct (IH Hex) as [msg ->]. by exists msg.
Qed.

(** A rule without an HTTP block makes both [ServiceNames] and
    [MakeHTTPProxies] panic: the error of [InsertProbe], which does look for the
    block, is dropped. *)
Theorem missing_http_panics `{MapOrder} env cfg ing stp :
  ¬ has_http ing →
  (∃ msg, ServiceNames ing = Panic msg) ∧ (∃ msg, MakeHTTPProxies env cfg ing stp = Panic msg) ∧
  (∃ e, (InsertProbe ing).2 = Fail e).
Proof.
  unfold has_http, ServiceNames, MakeHTTPProxies, InsertProbe. intros Hn.
  apply not_Forall_Exists in Hn; [|intros r; destruct (ru_http r); [left; by eexists|right; by intros []]].
  destruct (insert_probe_missing (ComputeHash ing) _ Hn) as (rules & e & -> & Hn').
  split_and!; [by apply add_rules_panic| |by eexists]. cbn [fst snd with_spec ing_spec is_rules].
  generalize (tlsEntries (with_spec {| is_tls := is_tls (ing_spec ing); is_rules := rules;
                is_http_option := is_http_option (ing_spec ing) |} ing)).
  intros entries. destruct (make_rules_panic env cfg stp (with_spec {| is_tls := is_tls (ing_spec ing);
    is_rules := rules; is_http_option := is_http_option (ing_spec ing) |} ing) entries rules Hn')
    as [msg ->]. by exists msg.
Qed.
