(* ===== verification/EndpointProbe.v ===== *)
(** * The endpoint probe (resources/kingress.go)

    [MakeEndpointProbeIngress]: the child KIngress, with one bogus host per Service,
    that is probed before any HTTPProxy of a new generation is written.  It covers
    the Services of the new generation and, read back from the older HTTPProxies,
    those of the previous one. *)

From S2P Require Import Prelude Hash Meta Conditions Ingress NetIngress HTTPProxy Config Proxies.

(** [int32(val)]. *)
Definition wrap32 (z : Z) : Z := ((z + 2 ^ 31) mod 2 ^ 32 - 2 ^ 31)%Z.

(** [intstr.FromInt]. *)
Definition intstr_FromInt (val : Z) : IntOrString := FromInt (wrap32 val).

Definition empty_status : IngressStatus := {|
  st_observed_generation := 0; st_conditions := []; st_public := None; st_private := None
|}.

Definition probe_host (ing : Ingress) (name : string) : string :=
  name +:+ ".gen-" +:+ FormatInt (ing_generation ing) +:+ "." +:+ ing_name ing +:+ "." +:+
  ing_namespace ing +:+ ".net-contour.invalid".

Definition child_meta (ing : Ingress) : ObjectMeta := {|
  om_name := EndpointProbeIngress (ing_meta ing);
  om_namespace := ing_namespace ing;
  om_uid := ""; om_resource_version := ""; om_generation := 0;
  om_labels := om_labels (ing_meta ing);
  om_annotations := UnionMaps [ing_annotations ing; {[EndpointsProbeKey := "true"]}];
  om_owners := [NewControllerRef (ing_meta ing)]
|}.

(** A use of a Service found in an older proxy. *)
Definition add_prior_service (vis : string) (hasPath : bool) (sns : gmap string ServiceInfo)
    (svc : ProxyService) : gmap string ServiceInfo :=
  let si := match sns !! ps_name svc with
            | Some si => si
            | None => {| si_port := intstr_FromInt (ps_port svc);
                         si_raw_visibilities := ∅;
                         si_rewrite_host := "";
                         si_has_path := hasPath |}
            end in
  <[ps_name svc := insert_visibility vis si]> sns.

Definition route_has_path (route : Route) : bool :=
  existsb (λ cond, negb (String.eqb (mc_prefix cond) "")) (ro_conditions route).

Definition add_prior_route (vis : string) (sns : gmap string ServiceInfo) (route : Route)
    : gmap string ServiceInfo :=
  foldl (add_prior_service vis (route_has_path route)) sns (ro_services route).

(** The rule that probes one Service at one visibility. *)
Definition probe_rule (ing : Ingress) (name : string) (si : ServiceInfo) (vis : string)
    : IngressRule := {|
  ru_hosts := [probe_host ing name];
  ru_visibility := vis;
  ru_http := Some [{|
    pa_path := "";
    pa_rewrite_host := si_rewrite_host si;
    pa_headers := ∅;
    pa_splits := [{| sp_service_namespace := ing_namespace ing;
                     sp_service_name := name;
                     sp_service_port := si_port si;
                     sp_percent := 100;
                     sp_append_headers := ∅ |}];
    pa_append_headers := ∅ |}]
|}.

Definition probe_rules (ing : Ingress) (sns : gmap string ServiceInfo) : list IngressRule :=
  sets_List (dom sns) ≫= λ name,
    match sns !! name with
    | Some si => if si_has_path si then [] else probe_rule ing name si <$> Visibilities si
    | None => []
    end.

Definition with_tls_hosts (hosts : list string) (t : IngressTLS) : IngressTLS :=
  {| tls_hosts := hosts; tls_secret_name := tls_secret_name t;
     tls_secret_namespace := tls_secret_namespace t |}.

Section Make.
Context `{MapOrder} (cfg : Config).

(** The visibility with the given class; the last one met wins. *)
Definition visibility_of_class (class : string) : string :=
  foldl (λ vis kv, if String.eqb kv.2 class then kv.1 else vis) ""
    (range_map (VisibilityClasses (cfg_Contour cfg))).

Definition add_prior_proxy (sns : gmap string ServiceInfo) (proxy : HTTPProxy)
    : gmap string ServiceInfo :=
  if String.eqb (hp_current_status proxy) "valid" then
    let vis := visibility_of_class (map_get (hp_annotations proxy) ClassKey) in
    if String.eqb vis "" then sns
    else foldl (add_prior_route vis) sns (hs_routes (hp_spec proxy))
  else sns.

Definition MakeEndpointProbeIngress (ing : Ingress) (previousState : list HTTPProxy)
    : outcome Ingress :=
  sns ← ServiceNames ing;
  let sns := foldl add_prior_proxy sns previousState in
  let rules := probe_rules ing sns in
  let probeHosts := rules ≫= ru_hosts in
  let external := GetIngressTLSForVisibility ing IngressVisibilityExternalIP in
  let hasCert := negb (bool_decide (external = [])) ||
                 bool_decide (is_Some (DefaultTLSSecret (cfg_Contour cfg))) in
  let https := String.eqb (is_http_option (ing_spec ing)) HTTPOptionRedirected && hasCert in
  Ret {| ing_meta := child_meta ing;
         ing_spec := {|
           is_tls := if https then with_tls_hosts probeHosts <$> external else [];
           is_rules := rules;
           is_http_option := if https then HTTPOptionRedirected else HTTPOptionEnabled |};
         ing_status := empty_status |}.
End Make.

(** ** Uses of Services in older proxies *)

Record prior_use := {
  pu_visibility : string;
  pu_has_path : bool;
  pu_service : ProxyService
}.

Definition pu_name (u : prior_use) : string := ps_name (pu_service u).

Section Prior.
Context `{MapOrder} (cfg : Config).

(** The uses in the proxies that are valid and whose class is that of a visibility. *)
Definition prior_uses (prev : list HTTPProxy) : list prior_use :=
  prev ≫= λ proxy,
    let vis := visibility_of_class cfg (map_get (hp_annotations proxy) ClassKey) in
    if String.eqb (hp_current_status proxy) "valid" && negb (String.eqb vis "") then
      hs_routes (hp_spec proxy) ≫= λ route,
        (λ svc, {| pu_visibility := vis; pu_has_path := route_has_path route; pu_service := svc |})
          <$> ro_services route
    else [].

Definition add_prior_use (sns : gmap string ServiceInfo) (u : prior_use) : gmap string ServiceInfo :=
  add_prior_service (pu_visibility u) (pu_has_path u) sns (pu_service u).

Lemma add_prior_proxies_uses sns prev :
  foldl (add_prior_proxy cfg) sns prev = foldl add_prior_use sns (prior_uses prev).
Proof.
  unfold prior_uses. rewrite foldl_bind. apply foldl_ext'. intros s proxy. unfold add_prior_proxy.
  destruct (String.eqb (hp_current_status proxy) "valid"); [|done]. simpl.
  destruct (String.eqb (visibility_of_class _ _) ""); [done|]. simpl.
  rewrite foldl_bind. apply foldl_ext'. intros s' route. by rewrite foldl_fmap'.
Qed.

(** Whether the first use of a Service, in the Ingress or else in an older proxy,
    is under a path. *)
Definition first_has_path (ing : Ingress) (prev : list HTTPProxy) (name : string) : option bool :=
  head (((λ r, negb (String.eqb (pa_path (rf_path r)) "")) <$> uses_of name (references ing)) ++
        (pu_has_path <$> filter (λ u, pu_name u = name) (prior_uses prev))).

(** The Service is used at that visibility. *)
Definition used_at (ing : Ingress) (prev : list HTTPProxy) (name vis : string) : Prop :=
  (∃ r, r ∈ references ing ∧ rf_name r = name ∧ rf_visibility r = vis) ∨
  (∃ u, u ∈ prior_uses prev ∧ pu_name u = name ∧ pu_visibility u = vis).

(** The rule probes that Service at that visibility. *)
Definition probes (ing : Ingress) (rule : IngressRule) (name vis : string) : Prop :=
  ru_hosts rule = [probe_host ing name] ∧ ru_visibility rule = vis ∧
  ∃ path split, ru_http rule = Some [path] ∧ pa_path path = "" ∧ pa_splits path = [split] ∧
    sp_service_name split = name ∧ sp_percent split = 100%Z.

Lemma add_prior_uses_lookup sns l name :
  match foldl add_prior_use sns l !! name with
  | Some si =>
      Some (si_has_path si) =
        head (option_list (si_has_path <$> sns !! name) ++
              (pu_has_path <$> filter (λ u, pu_name u = name) l)) ∧
      ∀ v, v ∈ si_raw_visibilities si ↔
        (∃ si0, sns !! name = Some si0 ∧ v ∈ si_raw_visibilities si0) ∨
        (∃ u, u ∈ l ∧ pu_name u = name ∧ pu_visibility u = v)
  | None => sns !! name = None ∧ filter (λ u, pu_name u = name) l = []
  end.
Proof.
  induction l as [|u l IH] using rev_ind; simpl.
  { destruct (sns !! name) as [si|]; simpl; [|done]. split; [done|]. set_solver. }
  rewrite foldl_app, filter_app. cbn [foldl]. unfold add_prior_use at 1, add_prior_service.
  fold (pu_name u). destruct (decide (pu_name u = name)) as [Hn|Hn].
  - rewrite Hn, lookup_insert_eq, filter_cons_True, filter_nil by done.
    destruct (foldl add_prior_use sns l !! name) as [si|]; simpl.
    + destruct IH as [Hp Hv]. split.
      * destruct (sns !! name); simpl in *; [done|]. rewrite fmap_app.
        by destruct (filter _ l).
      * intros v. rewrite elem_of_union, elem_of_singleton, Hv. setoid_rewrite elem_of_app.
        setoid_rewrite list_elem_of_singleton. naive_solver.
    + destruct IH as [Hs Hf]. rewrite Hs, Hf. simpl. split; [done|]. intros v.
      rewrite elem_of_union, elem_of_singleton. setoid_rewrite elem_of_app.
      setoid_rewrite list_elem_of_singleton.
      assert (∀ u', u' ∈ l → pu_name u' ≠ name) as Hno.
      { intros u' Hu' Hname. assert (u' ∈ filter (λ u, pu_name u = name) l) as Hin
          by by apply list_elem_of_filter. rewrite Hf in Hin. by apply elem_of_nil in Hin. }
      set_solver.
  - rewrite lookup_insert_ne, filter_cons_False, filter_nil, app_nil_r by done.
    destruct (foldl add_prior_use sns l !! name) as [si|]; [|done].
    destruct IH as [Hp Hv]. split; [done|]. intros v. rewrite Hv. setoid_rewrite elem_of_app.
    setoid_rewrite list_elem_of_singleton. naive_solver.
Qed.
End Prior.

Section ProbeTheorems.
Context `{MapOrder} (cfg : Config).
Implicit Types (ing : Ingress) (prev : list HTTPProxy).

(** The Services the probe of [ing] covers. *)
Definition probe_services ing prev : gmap string ServiceInfo :=
  foldl (add_prior_use) (foldl add_reference ∅ (references ing)) (prior_uses cfg prev).

Lemma probe_services_lookup ing prev name :
  match probe_services ing prev !! name with
  | Some si => first_has_path cfg ing prev name = Some (si_has_path si) ∧
               ∀ v, v ∈ si_raw_visibilities si ↔ used_at cfg ing prev name v
  | None => first_has_path cfg ing prev name = None
  end.
Proof.
  pose proof (add_prior_uses_lookup (foldl add_reference ∅ (references ing))
    (prior_uses cfg prev) name) as Hl.
  unfold probe_services. rewrite add_references_lookup in Hl.
  assert (∀ v, (∃ si0, info_of (uses_of name (references ing)) = Some si0 ∧
      v ∈ si_raw_visibilities si0) ↔
    ∃ r, r ∈ references ing ∧ rf_name r = name ∧ rf_visibility r = v) as Hv.
  { intros v. unfold uses_of. split.
    - intros (si0 & Hi & Hin). destruct (filter _ (references ing)) as [|r0 l] eqn:E; [done|].
      injection Hi as <-. simpl in Hin. change ({[_]} ∪ list_to_set _) with
        (list_to_set (rf_visibility <$> r0 :: l) : gset string) in Hin. rewrite <-E in Hin.
      apply elem_of_list_to_set, list_elem_of_fmap in Hin as (r & -> & [??]%list_elem_of_filter).
      eauto.
    - intros (r & Hr & Hn & <-).
      assert (r ∈ filter (λ r, rf_name r = name) (references ing)) as Hin
        by by apply list_elem_of_filter.
      destruct (filter _ (references ing)) as [|r0 l]; [by apply elem_of_nil in Hin|].
      eexists. split; [done|]. cbn [si_raw_visibilities]. apply elem_of_list_to_set.
      by apply list_elem_of_fmap_2. }
  unfold first_has_path, used_at.
  destruct (foldl add_prior_use _ _ !! name) as [si|].
  - destruct Hl as [Hp Hvis]. split.
    + rewrite Hp. by destruct (uses_of name (references ing)).
    + intros v. by rewrite Hvis, Hv.
  - destruct Hl as [Hi ->]. by destruct (uses_of name (references ing)).
Qed.

Lemma MakeEndpointProbeIngress_ret ing prev :
  has_http ing →
  ∃ child, MakeEndpointProbeIngress cfg ing prev = Ret child ∧
    ing_meta child = child_meta ing ∧ ing_status child = empty_status ∧
    is_rules (ing_spec child) = probe_rules ing (probe_services ing prev).
Proof.
  intros Hh. unfold MakeEndpointProbeIngress. rewrite ServiceNames_ret by done. simpl.
  rewrite add_prior_proxies_uses. by eexists.
Qed.

Lemma elem_of_probe_rules ing sns rule :
  rule ∈ probe_rules ing sns ↔
  ∃ name si vis, sns !! name = Some si ∧ si_has_path si = false ∧
    vis ∈ si_raw_visibilities si ∧ rule = probe_rule ing name si vis.
Proof.
  unfold probe_rules. rewrite list_elem_of_bind. setoid_rewrite elem_of_sets_List. split.
  - intros (name & Hin & Hd). destruct (sns !! name) as [si|] eqn:E; [|by apply elem_of_nil in Hin].
    destruct (si_has_path si) eqn:Ep; [by apply elem_of_nil in Hin|].
    apply list_elem_of_fmap in Hin as (vis & -> & Hv%elem_of_sets_List).
    exists name, si, vis. done.
  - intros (name & si & vis & Hs & Hp & Hv & ->). exists name. rewrite Hs, Hp. split.
    + apply list_elem_of_fmap_2. by apply elem_of_sets_List.
    + by apply elem_of_dom_2 in Hs.
Qed.

(** C29: the endpoint probe exists for every Ingress with complete rules, and it
    probes exactly the Services used by the Ingress or by a valid older proxy, at
    exactly the visibilities they are used at, save those whose first use is under a
    path. *)
Theorem MakeEndpointProbeIngress_coverage ing prev :
  has_http ing →
  ∃ child, MakeEndpointProbeIngress cfg ing prev = Ret child ∧
    ∀ name vis,
      (∃ rule, rule ∈ is_rules (ing_spec child) ∧ probes ing rule name vis) ↔
      first_has_path cfg ing prev name = Some false ∧ used_at cfg ing prev name vis.
Proof.
  intros Hh. destruct (MakeEndpointProbeIngress_ret ing prev Hh) as (child & Hr & _ & _ & Hrules).
  exists child. split; [done|]. intros name vis. rewrite Hrules. setoid_rewrite elem_of_probe_rules.
  pose proof (probe_services_lookup ing prev name) as Hl. split.
  - intros (rule & (name' & si & vis' & Hs & Hp & Hv & ->) & Hprobe).
    destruct Hprobe as (_ & Hvis & path & split & [= <-] & _ & [= <-] & Hname & _).
    simpl in Hvis, Hname. subst name' vis'. rewrite Hs in Hl. destruct Hl as [-> Hl].
    rewrite Hp. split; [done|]. by apply Hl.
  - intros [Hp Hu]. destruct (probe_services ing prev !! name) as [si|] eqn:E; [|congruence].
    destruct Hl as [Hp' Hl]. rewrite Hp in Hp'. injection Hp' as Hp'.
    exists (probe_rule ing name si vis). split.
    + exists name, si, vis. split_and!; [done..| |done]. by apply Hl.
    + split_and!; [done..|]. by do 2 eexists.
Qed.

(** The child is marked, so that reconciling it does not create a probe of the
    probe; it is owned by its parent and lives in its namespace under a name of at
    most 63 bytes; all its rules are complete, so it can be reconciled in turn. *)
Theorem MakeEndpointProbeIngress_child ing prev child :
  has_http ing → MakeEndpointProbeIngress cfg ing prev = Ret child →
  ing_annotations child = <[EndpointsProbeKey := "true"]> (ing_annotations ing) ∧
  ing_namespace child = ing_namespace ing ∧
  om_owners (ing_meta child) = [NewControllerRef (ing_meta ing)] ∧
  slen (ing_name child) ≤ 63 ∧ has_http child ∧ IsReady child = false ∧
  Forall (λ r, ∃ name, ru_hosts r = [probe_host ing name]) (is_rules (ing_spec child)).
Proof.
  intros Hh Hr. destruct (MakeEndpointProbeIngress_ret ing prev Hh) as (c & Hr' & Hm & Hst & Hrules).
  rewrite Hr' in Hr. injection Hr as ->.
  unfold ing_annotations, ing_namespace, ing_name, has_http, IsReady.
  rewrite Hm, Hst, Hrules. simpl. split_and!; try done.
  - by rewrite UnionMaps_two, <-insert_union_singleton_l.
  - apply ChildName.ChildName_length.
  - apply Forall_forall. intros r (name & si & vis & _ & _ & _ & ->)%elem_of_probe_rules. by eexists.
  - by rewrite andb_false_r.
  - apply Forall_forall. intros r (name & si & vis & _ & _ & _ & ->)%elem_of_probe_rules. by eexists.
Qed.

(** The probe asks for HTTPS exactly when the parent redirects to HTTPS and a
    certificate is at hand, and then every external probe host has one: from the
    child's own TLS blocks, or the configured default. *)
Theorem MakeEndpointProbeIngress_https ing prev child :
  has_http ing → MakeEndpointProbeIngress cfg ing prev = Ret child →
  (is_http_option (ing_spec child) = HTTPOptionRedirected ↔
     is_http_option (ing_spec ing) = HTTPOptionRedirected ∧
     (GetIngressTLSForVisibility ing IngressVisibilityExternalIP ≠ [] ∨
      is_Some (DefaultTLSSecret (cfg_Contour cfg)))) ∧
  (is_http_option (ing_spec child) = HTTPOptionRedirected →
     ∀ rule host, rule ∈ is_rules (ing_spec child) → host ∈ ru_hosts rule →
       ru_visibility rule = IngressVisibilityExternalIP →
       is_Some (host_tls cfg (tlsEntries child) rule host)).
Proof.
  intros Hh Hr. unfold MakeEndpointProbeIngress in Hr. rewrite ServiceNames_ret in Hr by done.
  simpl in Hr. rewrite add_prior_proxies_uses in Hr. fold (probe_services ing prev) in Hr.
  set (ext := GetIngressTLSForVisibility ing IngressVisibilityExternalIP) in *.
  set (hasCert := negb (bool_decide (ext = [])) || _) in Hr.
  assert (hasCert = true ↔ ext ≠ [] ∨ is_Some (DefaultTLSSecret (cfg_Contour cfg))) as Hcert.
  { unfold hasCert. by rewrite orb_true_iff, negb_true_iff, bool_decide_eq_false, bool_decide_eq_true. }
  rewrite <-Hcert. injection Hr as <-. simpl.
  destruct (String.eqb_spec (is_http_option (ing_spec ing)) HTTPOptionRedirected) as [Ho|Ho];
    [|by split; [split; [done|by intros []]|]].
  destruct hasCert eqn:Ec; simpl; [|by split; [split; [done|by intros []]|]].
  split; [done|]. intros _ rule host Hrule Hhost Hvis. unfold host_tls.
  destruct (tlsEntries _ !! host) eqn:E; [done|].
  destruct (proj1 Hcert eq_refl) as [Hext|[s ->]]; [|by rewrite Hvis].
  destruct ext as [|t ext']; [done|]. exfalso.
  eapply eq_None_not_Some; [exact E|].
  apply (tlsEntries_covered _ rule (with_tls_hosts (probe_rules ing (probe_services ing prev) ≫= ru_hosts) t));
    simpl; [|done|by left|done| |by left].
  - apply Forall_forall. by intros r (name & si & vis & _ & _ & _ & ->)%elem_of_probe_rules.
  - intros h Hin. apply list_elem_of_bind. by exists rule.
Qed.
End ProbeTheorems.

(** ** The visibility of a class *)

(** No two visibilities share a class. *)
Definition classes_distinct (cfg : Config) : Prop :=
  ∀ v1 v2 c, VisibilityClasses (cfg_Contour cfg) !! v1 = Some c →
    VisibilityClasses (cfg_Contour cfg) !! v2 = Some c → v1 = v2.

Lemma visibility_of_class_cases `{MapOrder} cfg class :
  VisibilityClasses (cfg_Contour cfg) !! visibility_of_class cfg class = Some class ∨
  (visibility_of_class cfg class = "" ∧
   ∀ v, VisibilityClasses (cfg_Contour cfg) !! v ≠ Some class).
Proof.
  unfold visibility_of_class.
  setoid_rewrite <-elem_of_range_map.
  induction (range_map (VisibilityClasses (cfg_Contour cfg))) as [|[k c] l IH] using rev_ind.
  { right. split; [done|]. intros v. apply not_elem_of_nil. }
  rewrite foldl_app. simpl. destruct (String.eqb_spec c class) as [->|Hne].
  - left. apply elem_of_app. right. by apply list_elem_of_singleton.
  - destruct IH as [IH|[-> IH]]; [left; apply elem_of_app; by left|]. right. split; [done|].
    intros v [?|[= -> ->]%list_elem_of_singleton]%elem_of_app; [by eapply IH|done].
Qed.

Lemma visibility_of_class_order (o1 o2 : MapOrder) cfg class :
  classes_distinct cfg → @visibility_of_class o1 cfg class = @visibility_of_class o2 cfg class.
Proof.
  intros Hd. destruct (@visibility_of_class_cases o1 cfg class) as [H1|[H1 N1]],
    (@visibility_of_class_cases o2 cfg class) as [H2|[H2 N2]].
  - by eapply Hd.
  - by apply N2 in H1.
  - by apply N1 in H2.
  - by rewrite H1, H2.
Qed.

(** When the two visibilities have different classes, the endpoint probe does not
    depend on the order of map iteration. *)
Theorem MakeEndpointProbeIngress_deterministic (o1 o2 : MapOrder) cfg ing prev :
  classes_distinct cfg →
  @MakeEndpointProbeIngress o1 cfg ing prev = @MakeEndpointProbeIngress o2 cfg ing prev.
Proof.
  intros Hd. unfold MakeEndpointProbeIngress. destruct (ServiceNames ing) as [sns|e|m]; [|done..].
  simpl.
  assert (∀ s, foldl (@add_prior_proxy o1 cfg) s prev = foldl (@add_prior_proxy o2 cfg) s prev)
    as Heq; [|by rewrite Heq].
  intros s. apply foldl_ext'. intros s' proxy. unfold add_prior_proxy.
  by rewrite (visibility_of_class_order o1 o2) by done.
Qed.

(** Without that, it can: an older proxy whose class both visibilities share is
    probed at the visibility met last. *)
Definition shared_class_config : Config := {|
  cfg_Contour := {|
    VisibilityKeys := default_keys;
    VisibilityClasses := <[IngressVisibilityClusterLocal := "contour"]>
                           {[IngressVisibilityExternalIP := "contour"]};
    DefaultTLSSecret := None; TimeoutPolicyResponse := "infinity"; TimeoutPolicyIdle := "infinity";
    ContourCORSPolicy := None |};
  cfg_Network := None
|}.

Lemma shared_class_depends_on_order :
  @visibility_of_class ascending_order shared_class_config "contour" ≠
  @visibility_of_class descending_order shared_class_config "contour".
Proof. vm_compute. discriminate. Qed.

(** ** The order of the older proxies

    The lister that finds them has no order. *)

Section Order.
Context `{MapOrder} (cfg : Config).
Implicit Types (ing : Ingress) (prev : list HTTPProxy).

(** What the uses of a Service in older proxies add to what the Ingress says of it. *)
Definition merge_prior (si : option ServiceInfo) (us : list prior_use) : option ServiceInfo :=
  match si, us with
  | None, [] => None
  | None, u :: _ =>
      Some {| si_port := intstr_FromInt (ps_port (pu_service u));
              si_raw_visibilities := list_to_set (pu_visibility <$> us);
              si_rewrite_host := ""; si_has_path := pu_has_path u |}
  | Some si, us =>
      Some {| si_port := si_port si;
              si_raw_visibilities := list_to_set (pu_visibility <$> us) ∪ si_raw_visibilities si;
              si_rewrite_host := si_rewrite_host si; si_has_path := si_has_path si |}
  end.

Lemma merge_prior_snoc si us u :
  merge_prior si (us ++ [u]) =
    Some (insert_visibility (pu_visibility u)
      (default {| si_port := intstr_FromInt (ps_port (pu_service u)); si_raw_visibilities := ∅;
                  si_rewrite_host := ""; si_has_path := pu_has_path u |} (merge_prior si us))).
Proof.
  destruct si as [si|], us as [|u0 us]; simpl; unfold insert_visibility; simpl; do 2 f_equal;
    rewrite ?fmap_app, ?list_to_set_app_L; set_solver.
Qed.

Lemma add_prior_uses_merge sns l name :
  foldl add_prior_use sns l !! name = merge_prior (sns !! name) (filter (λ u, pu_name u = name) l).
Proof.
  induction l as [|u l IH] using rev_ind.
  { simpl. destruct (sns !! name) as [[]|]; simpl; [by rewrite union_empty_l_L|done]. }
  rewrite foldl_app, filter_app. cbn [foldl]. unfold add_prior_use at 1, add_prior_service. fold (pu_name u).
  destruct (decide (pu_name u = name)) as [Hn|Hn].
  - rewrite Hn, lookup_insert_eq, filter_cons_True, filter_nil, merge_prior_snoc, IH by done.
    by destruct (merge_prior _ _).
  - by rewrite lookup_insert_ne, filter_cons_False, filter_nil, app_nil_r by done.
Qed.

(** Of a Service the Ingress does not use any more, the older proxies say the same. *)
Definition priors_agree ing prev : Prop :=
  ∀ u1 u2, u1 ∈ prior_uses cfg prev → u2 ∈ prior_uses cfg prev → pu_name u1 = pu_name u2 →
    (∃ r, r ∈ references ing ∧ rf_name r = pu_name u1) ∨
    (pu_has_path u1 = pu_has_path u2 ∧ ps_port (pu_service u1) = ps_port (pu_service u2)).

Lemma prior_uses_elem prev1 prev2 u :
  (∀ p, p ∈ prev1 ↔ p ∈ prev2) → u ∈ prior_uses cfg prev1 ↔ u ∈ prior_uses cfg prev2.
Proof. intros Hp. unfold prior_uses. rewrite !list_elem_of_bind. by setoid_rewrite Hp. Qed.

Lemma references_info_None ing name : info_of (uses_of name (references ing)) = None →
  ∀ r, r ∈ references ing → rf_name r ≠ name.
Proof.
  intros Hi r Hr Hn. unfold uses_of in Hi.
  assert (r ∈ filter (λ r, rf_name r = name) (references ing)) as Hin by by apply list_elem_of_filter.
  destruct (filter _ (references ing)); [by apply elem_of_nil in Hin|done].
Qed.

(** Then the order in which they are found does not matter. *)
Lemma MakeEndpointProbeIngress_order ing prev1 prev2 :
  has_http ing → (∀ p, p ∈ prev1 ↔ p ∈ prev2) → priors_agree ing prev1 →
  MakeEndpointProbeIngress cfg ing prev1 = MakeEndpointProbeIngress cfg ing prev2.
Proof.
  intros Hh Hp Ha. unfold MakeEndpointProbeIngress. rewrite ServiceNames_ret by done. simpl.
  rewrite !add_prior_proxies_uses.
  replace (foldl add_prior_use (foldl add_reference ∅ (references ing)) (prior_uses cfg prev2))
    with (foldl add_prior_use (foldl add_reference ∅ (references ing)) (prior_uses cfg prev1)); [done|].
  apply map_eq. intros name. rewrite !add_prior_uses_merge, add_references_lookup.
  assert (∀ u, u ∈ filter (λ u, pu_name u = name) (prior_uses cfg prev1) ↔
    u ∈ filter (λ u, pu_name u = name) (prior_uses cfg prev2)) as Hf.
  { intros u. rewrite !list_elem_of_filter. by rewrite (prior_uses_elem prev1 prev2). }
  assert (∀ u1 u2, u1 ∈ filter (λ u, pu_name u = name) (prior_uses cfg prev1) →
    u2 ∈ filter (λ u, pu_name u = name) (prior_uses cfg prev1) →
    info_of (uses_of name (references ing)) = None →
    pu_has_path u1 = pu_has_path u2 ∧ ps_port (pu_service u1) = ps_port (pu_service u2)) as Hsame.
  { intros u1 u2 [Hn1 H1]%list_elem_of_filter [Hn2 H2]%list_elem_of_filter Hi.
    destruct (Ha u1 u2) as [(r & Hr & Hn)|?]; [done|done|congruence| |done].
    destruct (references_info_None ing name Hi r Hr). congruence. }
  assert (list_to_set (C := gset string) (pu_visibility <$> filter (λ u, pu_name u = name) (prior_uses cfg prev1)) =
    list_to_set (pu_visibility <$> filter (λ u, pu_name u = name) (prior_uses cfg prev2))) as Hset.
  { apply set_eq. intros v. rewrite !elem_of_list_to_set, !list_elem_of_fmap. by setoid_rewrite Hf. }
  revert Hf Hsame Hset. generalize (filter (λ u, pu_name u = name) (prior_uses cfg prev1)),
    (filter (λ u, pu_name u = name) (prior_uses cfg prev2)). intros l1 l2 Hf Hsame Hset.
  destruct (info_of _) as [si|]; simpl; [by rewrite Hset|].
  destruct l1 as [|u1 l1], l2 as [|u2 l2].
  - done.
  - exfalso. apply (elem_of_nil u2), Hf. by left.
  - exfalso. apply (elem_of_nil u1), Hf. by left.
  - simpl in *. rewrite Hset. destruct (Hsame u1 u2) as [-> ->]; [by left|apply Hf; by left|done|done].
Qed.
End Order.

(** Otherwise it does: of two older proxies with the same Service, one under a path, the
    one found first decides whether the Service is probed, so that the child changes from
    one reconcile to the next. *)
Definition bare_meta (name : string) : ObjectMeta := {|
  om_name := name; om_namespace := "default"; om_uid := ""; om_resource_version := ""; om_generation := 2;
  om_labels := ∅; om_annotations := ∅; om_owners := [] |}.

Definition older_proxy (name prefix : string) : HTTPProxy := {|
  hp_meta := {| om_name := name; om_namespace := "default"; om_uid := ""; om_resource_version := "";
                om_generation := 1; om_labels := ∅; om_annotations := {[ClassKey := "contour-external"]};
                om_owners := [] |};
  hp_spec := {|
    hs_virtual_host := None;
    hs_routes := [{|
      ro_conditions := [{| mc_prefix := prefix; mc_header := None |}];
      ro_timeout := None; ro_retry := None;
      ro_services := [{| ps_name := "old"; ps_port := 80; ps_protocol := None; ps_weight := 100;
                         ps_validation := None; ps_request_headers := None |}];
      ro_websockets := true; ro_request_headers := None; ro_permit_insecure := false |}] |};
  hp_current_status := "valid"
|}.

Definition ruleless_ingress : Ingress := {|
  ing_meta := bare_meta "web";
  ing_spec := {| is_tls := []; is_rules := []; is_http_option := HTTPOptionEnabled |};
  ing_status := empty_status
|}.

Definition default_config : Config := {|
  cfg_Contour := {|
    VisibilityKeys := default_keys; VisibilityClasses := default_classes; DefaultTLSSecret := None;
    TimeoutPolicyResponse := "infinity"; TimeoutPolicyIdle := "infinity"; ContourCORSPolicy := None |};
  cfg_Network := None
|}.

Lemma older_proxies_order `{MapOrder} :
  ∃ c1 c2,
    MakeEndpointProbeIngress default_config ruleless_ingress [older_proxy "a" ""; older_proxy "b" "/p"] = Ret c1 ∧
    MakeEndpointProbeIngress default_config ruleless_ingress [older_proxy "b" "/p"; older_proxy "a" ""] = Ret c2 ∧
    length (is_rules (ing_spec c1)) = 1 ∧ is_rules (ing_spec c2) = [].
Proof.
  assert (visibility_of_class default_config "contour-external" = IngressVisibilityExternalIP) as Hv.
  { rewrite (visibility_of_class_order _ ascending_order); [done|]. intros v1 v2 c.
    simpl. unfold default_classes. rewrite !lookup_insert_Some, !lookup_singleton_Some. naive_solver. }
  assert (has_http ruleless_ingress) as Hh by constructor.
  destruct (MakeEndpointProbeIngress_ret default_config _ [older_proxy "a" ""; older_proxy "b" "/p"] Hh)
    as (c1 & E1 & _ & _ & R1).
  destruct (MakeEndpointProbeIngress_ret default_config _ [older_proxy "b" "/p"; older_proxy "a" ""] Hh)
    as (c2 & E2 & _ & _ & R2).
  assert (∀ name prefix prev, prior_uses default_config (older_proxy name prefix :: prev) =
    {| pu_visibility := IngressVisibilityExternalIP; pu_has_path := negb (String.eqb prefix "");
       pu_service := {| ps_name := "old"; ps_port := 80; ps_protocol := None; ps_weight := 100;
                        ps_validation := None; ps_request_headers := None |} |} ::
    prior_uses default_config prev) as Hu.
  { intros name prefix prev. unfold prior_uses at 1. rewrite bind_cons. fold (prior_uses default_config prev).
    change (map_get (hp_annotations (older_proxy name prefix)) ClassKey) with "contour-external". rewrite Hv.
    simpl. unfold route_has_path. simpl. by rewrite orb_false_r. }
  exists c1, c2. split_and!; [done|done| |]; rewrite ?R1, ?R2; unfold probe_services; rewrite !Hu; vm_compute; reflexivity.
Qed.
