(* ===== verification/Reconcile.v ===== *)
(** * The reconciler (pkg/reconciler/contour/contour.go)

    [ReconcileKind] and [lbStatus].  What the reconciler talks to (the informer
    caches, the two API clients, the tracker and the status manager) is an interface,
    the class [Backend]: the theorems here hold for every implementation of it, with
    any pattern of failures.  A run returns the backend's new state, the Ingress's
    new status, the calls that change something, in order, and the outcome. *)

From S2P Require Import Prelude Meta Labels Conditions Ingress NetIngress HTTPProxy Config Proxies EndpointProbe.

Definition ContourIngressClassName : string := "contour.ingress.networking.knative.dev".
Definition ServicePortNameH2C : string := "http2".

(** [tracker.Reference] *)
Record Reference := {
  tr_api_version : string;
  tr_kind : string;
  tr_namespace : string;
  tr_name : string
}.
#[export] Instance Reference_eq_dec : EqDecision Reference.
Proof. solve_decision. Defined.

(** ** The interface to the outside *)

Class Backend (S : Type) := {
  (* informer caches *)
  bk_list_proxies : S → string → Selector → goerr + list HTTPProxy;
  bk_get_ingress : S → string → string → goerr + Ingress;
  bk_get_service : S → string → string → goerr + Service;
  (* API clients *)
  bk_create_ingress : S → string → Ingress → S * (goerr + Ingress);
  bk_update_ingress : S → string → Ingress → S * (goerr + Ingress);
  bk_delete_ingress : S → string → string → S * (goerr + ());
  bk_create_proxy : S → string → HTTPProxy → S * (goerr + HTTPProxy);
  bk_update_proxy : S → string → HTTPProxy → S * (goerr + HTTPProxy);
  bk_delete_proxies : S → string → string → S * (goerr + ());
  (* tracker and status manager *)
  bk_track : S → Reference → Ingress → S * (goerr + ());
  bk_probe : S → Ingress → S * (goerr + bool)
}.

(** The calls that change something outside. *)
Inductive action :=
  | ACreateIngress (ns : string) (i : Ingress)
  | AUpdateIngress (ns : string) (i : Ingress)
  | ATrack (ref : Reference)
  | ACreateProxy (ns : string) (p : HTTPProxy)
  | AUpdateProxy (ns : string) (p : HTTPProxy)
  | ADeleteProxies (ns : string) (selector : string)
  | AProbe
  | ADeleteIngress (ns name : string).

(** ** The monad of a run *)

Record run_state (S : Type) := { rs_backend : S; rs_status : StatusState }.
Arguments rs_backend {S} _.
Arguments rs_status {S} _.

Definition run (S A : Type) : Type := run_state S → run_state S * list action * outcome A.

#[export] Instance run_ret {S} : MRet (run S) := λ A a s, (s, [], Ret a).
#[export] Instance run_bind {S} : MBind (run S) := λ A B f m s,
  match m s with
  | (s1, l1, Ret a) => let '(s2, l2, r) := f a s1 in (s2, l1 ++ l2, r)
  | (s1, l1, Fail e) => (s1, l1, Fail e)
  | (s1, l1, Panic p) => (s1, l1, Panic p)
  end.

Section Primitives.
Context {S : Type}.

Definition of_outcome {A} (m : outcome A) : run S A := λ s, (s, [], m).
Definition throw {A} (e : goerr) : run S A := λ s, (s, [], Fail e).

(** Read from a cache; what the caller makes of an error is its own. *)
Definition look {A} (f : S → A) : run S A := λ s, (s, [], Ret (f (rs_backend s))).

(** A call that changes the backend: it is recorded, and its error returned. *)
Definition call {A} (a : action) (f : S → S * (goerr + A)) : run S A := λ s,
  let '(b, r) := f (rs_backend s) in
  ({| rs_backend := b; rs_status := rs_status s |}, [a], lift r).

Definition get_status : run S IngressStatus := λ s, (s, [], Ret (rs_status s).1).
Definition mark (f : StatusState → StatusState) : run S () := λ s,
  ({| rs_backend := rs_backend s; rs_status := f (rs_status s) |}, [], Ret ()).

Fixpoint for_each {A} (l : list A) (f : A → run S ()) : run S () :=
  match l with
  | [] => mret ()
  | x :: l => _ ← f x; for_each l f
  end.

Fixpoint for_fold {A B} (l : list A) (b : B) (f : B → A → run S B) : run S B :=
  match l with
  | [] => mret b
  | x :: l => b' ← f b x; for_fold l b' f
  end.
End Primitives.

(** ** The reconciler *)

(** The protocol of a Service: the loop over its ports. *)
Fixpoint port_protocol (internal : bool) (ports : list ServicePort) : option string :=
  match ports with
  | [] => None
  | port :: ports =>
      if String.eqb (sv_port_name port) ServicePortNameH2C then
        Some (if internal then InternalEncryptionH2Protocol else "h2c")
      else if internal then Some InternalEncryptionProtocol
      else port_protocol internal ports
  end.

Definition current_labels (ing : Ingress) : gmap string string :=
  <[ParentKey := ing_name ing]> {[GenerationKey := FormatInt (ing_generation ing)]}.

(** The labels by which the proxy of a host is found again. *)
Definition match_labels (proxy : HTTPProxy) : gmap string string :=
  <[ParentKey := map_get (hp_labels proxy) ParentKey]>
    (<[DomainHashKey := map_get (hp_labels proxy) DomainHashKey]>
      {[ClassKey := map_get (hp_labels proxy) ClassKey]}).

(** [matches[0].DeepCopy()] with the annotations, labels and spec of [proxy]. *)
Definition updated_proxy (found proxy : HTTPProxy) : HTTPProxy :=
  {| hp_meta := {| om_name := om_name (hp_meta found);
                   om_namespace := om_namespace (hp_meta found);
                   om_uid := om_uid (hp_meta found);
                   om_resource_version := om_resource_version (hp_meta found);
                   om_generation := om_generation (hp_meta found);
                   om_labels := hp_labels proxy;
                   om_annotations := hp_annotations proxy;
                   om_owners := om_owners (hp_meta found) |};
     hp_spec := hp_spec proxy;
     hp_current_status := hp_current_status found |}.

Section Reconciler.
Context {S : Type} `{Backend S} `{MapOrder}.
Context (env : Env) (cfg : Config) (clock : nat → Z).

(** Get, create or update the child KIngress. *)
Definition reconcile_child (desired : Ingress) : run S Ingress :=
  got ← look (λ s, bk_get_ingress s (ing_namespace desired) (ing_name desired));
  match got with
  | inl err =>
      if IsNotFound err then
        call (ACreateIngress (ing_namespace desired) desired)
             (λ s, bk_create_ingress s (ing_namespace desired) desired)
      else throw err
  | inr actual =>
      if decide (ing_spec actual = ing_spec desired) then mret actual
      else
        let update := with_spec (ing_spec desired) actual in
        call (AUpdateIngress (ing_namespace update) update)
             (λ s, bk_update_ingress s (ing_namespace update) update)
  end.

(** The first part of [ReconcileKind]: [None] is the early return while the
    endpoints are not ready, [Some b] carries [haveEndpointProbe]. *)
Definition endpoint_probe (ing : Ingress) : run S (option bool) :=
  match ing_annotations ing !! EndpointsProbeKey with
  | Some _ => mret (Some false)
  | None =>
      listed ← look (λ s, bk_list_proxies s (ing_namespace ing)
                            (SelectorFromSet (current_labels ing)));
      currentGeneration ← of_outcome (lift listed);
      match currentGeneration with
      | [] =>
          selector ← of_outcome (Parse (old_generation_text (ing_name ing) (ing_generation ing)));
          listed ← look (λ s, bk_list_proxies s (ing_namespace ing) selector);
          oldGeneration ← of_outcome (lift listed);
          desired ← of_outcome (MakeEndpointProbeIngress cfg ing oldGeneration);
          actual ← reconcile_child desired;
          if IsReady actual then mret (Some true)
          else
            _ ← mark (MarkLoadBalancerNotReady clock);
            _ ← mark (MarkIngressNotReady clock "EndpointsNotReady"
                        "Waiting for Envoys to receive Endpoints data.");
            mret None
      | _ =>
          got ← look (λ s, bk_get_ingress s (ing_namespace ing) (EndpointProbeIngress (ing_meta ing)));
          match got with
          | inr _ => mret (Some true)
          | inl err =>
              if IsNotFound err then mret (Some false)
              else of_outcome (Panic "nil dereference: ing.IsReady() in the debug log")
          end
      end
  end.

(** Track a Service and find its protocol. *)
Definition service_step (ing : Ingress) (stp : gmap string string) (name : string)
    : run S (gmap string string) :=
  let ref := {| tr_api_version := "v1"; tr_kind := "Service";
                tr_namespace := ing_namespace ing; tr_name := name |} in
  st ← get_status;
  _ ← call (ATrack ref) (λ s, bk_track s ref (with_status st ing));
  got ← look (λ s, bk_get_service s (ing_namespace ing) name);
  svc ← of_outcome (lift got);
  mret (match port_protocol (internal_tls cfg) (sv_ports svc) with
        | Some proto => <[name := proto]> stp
        | None => stp
        end).

Definition service_protocols (ing : Ingress) : run S (gmap string string) :=
  info ← of_outcome (ServiceNames ing);
  for_fold (sets_List (dom (info : gmap string ServiceInfo))) ∅ (service_step ing).

(** Create or update one proxy. *)
Definition reconcile_proxy (ing : Ingress) (proxy : HTTPProxy) : run S () :=
  listed ← look (λ s, bk_list_proxies s (ing_namespace ing) (SelectorFromSet (match_labels proxy)));
  matches ← of_outcome (lift listed);
  match matches with
  | [] =>
      _ ← call (ACreateProxy (hp_namespace proxy) proxy)
               (λ s, bk_create_proxy s (hp_namespace proxy) proxy);
      mret ()
  | found :: _ =>
      let update := updated_proxy found proxy in
      if decide (found = update) then mret ()
      else
        _ ← call (AUpdateProxy (hp_namespace proxy) update)
                 (λ s, bk_update_proxy s (hp_namespace proxy) update);
        mret ()
  end.

(** Remove the proxies of other generations, if the cache shows any. *)
Definition cleanup (ing : Ingress) : run S () :=
  selector ← of_outcome (Parse (old_generation_text (ing_name ing) (ing_generation ing)));
  listed ← look (λ s, bk_list_proxies s (ing_namespace ing) selector);
  leftovers ← of_outcome (lift listed);
  match leftovers with
  | [] => mret ()
  | _ => call (ADeleteProxies (ing_namespace ing) (sel_String selector))
              (λ s, bk_delete_proxies s (ing_namespace ing) (sel_String selector))
  end.

Definition lbStatus (b : S) (vis : string) : list LoadBalancerIngressStatus :=
  match VisibilityKeys (cfg_Contour cfg) !! vis with
  | None => []
  | Some keys =>
      (λ key,
        let '(namespace, name) :=
          match SplitMetaNamespaceKey key with Ret p => p | _ => ("", "") end in
        {| lb_ip := match bk_get_service b namespace name with
                    | inr service => sv_cluster_ip service
                    | inl _ => ""
                    end;
           lb_domain := "";
           lb_domain_internal := GetServiceHostname env name namespace;
           lb_mesh_only := false |}) <$> sets_List keys
  end.

(** Whether the Ingress is ready: from its status, or by asking the prober. *)
Definition probe_ready (ing : Ingress) : run S bool :=
  st ← get_status;
  if IsReady (with_status st ing) then mret true
  else λ s,
    let '(b, r) := bk_probe (rs_backend s) (with_status st ing) in
    ({| rs_backend := b; rs_status := rs_status s |}, [AProbe],
     match r with
     | inl err => Fail (Wrapf "failed to probe Ingress %s/%s: %w" [ing_namespace ing; ing_name ing] err)
     | inr ready => Ret ready
     end).

(** The part of [ReconcileKind] after the endpoint probe. *)
Definition program_proxies (ing : Ingress) : run S () :=
  serviceToProtocol ← service_protocols ing;
  proxies ← of_outcome (MakeHTTPProxies env cfg ing serviceToProtocol);
  _ ← for_each proxies (reconcile_proxy ing);
  cleanup ing.

Definition report_balancers (ready : bool) : run S () :=
  if ready then
    publicLbs ← look (λ s, lbStatus s IngressVisibilityExternalIP);
    privateLbs ← look (λ s, lbStatus s IngressVisibilityClusterLocal);
    mark (MarkLoadBalancerReady clock publicLbs privateLbs)
  else mark (MarkLoadBalancerNotReady clock).

(** Remove the endpoint probe once the Ingress is ready. *)
Definition remove_probe (ing : Ingress) (haveEndpointProbe : bool) : run S () :=
  if haveEndpointProbe then
    st ← get_status;
    if IsReady (with_status st ing) then
      call (ADeleteIngress (ing_namespace ing) (EndpointProbeIngress (ing_meta ing)))
           (λ s, bk_delete_ingress s (ing_namespace ing) (EndpointProbeIngress (ing_meta ing)))
    else mret ()
  else mret ().

Definition finish (ing : Ingress) (haveEndpointProbe : bool) : run S () :=
  _ ← mark (MarkNetworkConfigured clock);
  ready ← probe_ready ing;
  _ ← report_balancers ready;
  _ ← mark (λ s, (with_observed (ing_generation ing) s.1, s.2));
  remove_probe ing haveEndpointProbe.

Definition ReconcileKind (ing : Ingress) : run S () :=
  have ← endpoint_probe ing;
  match have with
  | None => mret ()
  | Some haveEndpointProbe =>
      _ ← program_proxies ing;
      finish ing haveEndpointProbe
  end.
End Reconciler.

(** ** Reasoning about runs

    [wp m s Q]: from [s], the run [m] ends in a state, with a list of calls and an
    outcome, for which [Q] holds. *)

Section Wp.
Context {S : Type}.
Implicit Types s : run_state S.

Definition wp {A} (m : run S A) s (Q : run_state S → list action → outcome A → Prop) : Prop :=
  let '(s', l, r) := m s in Q s' l r.

Lemma wp_mono {A} (m : run S A) s (P Q : run_state S → list action → outcome A → Prop) :
  wp m s P → (∀ s' l r, P s' l r → Q s' l r) → wp m s Q.
Proof. unfold wp. destruct (m s) as [[s' l] r]. auto. Qed.

(** What a bind does with the result of its first half. *)
Definition after {A B} (f : A → run S B) (Q : run_state S → list action → outcome B → Prop)
    s1 (l1 : list action) (r : outcome A) : Prop :=
  match r with
  | Ret a => wp (f a) s1 (λ s2 l2 r2, Q s2 (l1 ++ l2) r2)
  | Fail e => Q s1 l1 (Fail e)
  | Panic p => Q s1 l1 (Panic p)
  end.

Lemma wp_bind {A B} (m : run S A) (f : A → run S B) s Q :
  wp m s (after f Q) → wp (m ≫= f) s Q.
Proof.
  unfold wp, mbind, run_bind. destruct (m s) as [[s1 l1] [a|e|p]]; simpl; [|done..].
  unfold wp. by destruct (f a s1) as [[s2 l2] r].
Qed.

Lemma wp_ret {A} (a : A) s (Q : run_state S → list action → outcome A → Prop) :
  Q s [] (Ret a) → wp (mret a) s Q.
Proof. done. Qed.

Lemma wp_run {A} (m : run S A) s Q : wp m s Q ↔ Q (m s).1.1 (m s).1.2 (m s).2.
Proof. unfold wp. by destruct (m s) as [[??]?]. Qed.

Lemma wp_true {A} (m : run S A) s Q : (∀ s' l r, Q s' l r) → wp m s Q.
Proof. intros HQ. apply wp_run, HQ. Qed.

(** A bind whose first half changes nothing. *)
Lemma wp_look {A B} (g : S → A) (f : A → run S B) s Q :
  wp (f (g (rs_backend s))) s Q → wp (look g ≫= f) s Q.
Proof. intros. apply wp_bind. unfold wp, look. simpl. by eapply wp_mono. Qed.

Lemma wp_of_outcome {A B} (m : outcome A) (f : A → run S B) s Q :
  (∀ a, m = Ret a → wp (f a) s Q) →
  (∀ e, m = Fail e → Q s [] (Fail e)) → (∀ p, m = Panic p → Q s [] (Panic p)) →
  wp (of_outcome m ≫= f) s Q.
Proof.
  intros Hr Hf Hp. apply wp_bind. unfold wp, of_outcome. destruct m; simpl; auto.
Qed.

Lemma wp_get_status {B} (f : IngressStatus → run S B) s Q :
  wp (f (rs_status s).1) s Q → wp (get_status ≫= f) s Q.
Proof. intros. apply wp_bind. unfold wp, get_status. simpl. by eapply wp_mono. Qed.

Lemma wp_mark {B} g (f : () → run S B) s Q :
  wp (f ()) {| rs_backend := rs_backend s; rs_status := g (rs_status s) |} Q →
  wp (mark g ≫= f) s Q.
Proof. intros. apply wp_bind. unfold wp, mark. simpl. by eapply wp_mono. Qed.
End Wp.

(** Go through the next step of a run. *)
Ltac wp_step :=
  match goal with
  | |- wp (look _ ≫= _) _ _ => apply wp_look
  | |- wp (get_status ≫= _) _ _ => apply wp_get_status
  | |- wp (mark _ ≫= _) _ _ => apply wp_mark
  | |- wp (of_outcome _ ≫= _) _ _ => apply wp_of_outcome; [intros ? ?|intros ? ?|intros ? ?]
  end.

(** ** The calls of a run, phase by phase *)

Definition phase (a : action) : nat :=
  match a with
  | ACreateIngress _ _ | AUpdateIngress _ _ => 0
  | ATrack _ => 1
  | ACreateProxy _ _ | AUpdateProxy _ _ => 2
  | ADeleteProxies _ _ => 3
  | AProbe => 4
  | ADeleteIngress _ _ => 5
  end.

Definition in_phase (n : nat) (l : list action) : Prop := Forall (λ a, phase a = n) l.
Definition by_phase (a b : action) : Prop := phase a ≤ phase b.

(** Calls all in phases [lo..hi], in order. *)
Definition phased (lo hi : nat) (l : list action) : Prop :=
  Forall (λ a, lo ≤ phase a ≤ hi) l ∧ StronglySorted by_phase l.

Lemma phased_nil lo hi : phased lo hi [].
Proof. split; constructor. Qed.

Lemma phased_one a lo hi : lo ≤ phase a ≤ hi → phased lo hi [a].
Proof. intros Ha. split; [by constructor|]. by repeat constructor. Qed.

Lemma phased_weaken lo hi lo' hi' l : phased lo hi l → lo' ≤ lo → hi ≤ hi' → phased lo' hi' l.
Proof. intros [F St] ??. split; [|done]. eapply Forall_impl; [exact F|]. simpl. lia. Qed.

Lemma phased_app lo mid hi l1 l2 :
  lo ≤ mid ≤ hi → phased lo mid l1 → phased mid hi l2 → phased lo hi (l1 ++ l2).
Proof.
  intros Hle [F1 S1] [F2 S2]. split.
  - apply Forall_app. split; (eapply Forall_impl; [eassumption|]); simpl; lia.
  - induction S1 as [|a l1 S1 IH Ha]; simpl; [done|]. apply Forall_cons in F1 as [Fa F1].
    constructor; [by apply IH|]. apply Forall_app. split; [done|].
    eapply Forall_impl; [exact F2|]. unfold by_phase. simpl. lia.
Qed.

(** A run that makes calls of these phases only, in order, whatever happens. *)
Definition calls {S A} (lo hi : nat) (m : run S A) : Prop := ∀ s, wp m s (λ _ l _, phased lo hi l).

Section CallsRules.
Context {S : Type}.

Lemma calls_bind {A B} lo mid hi (m : run S A) (f : A → run S B) :
  lo ≤ mid ≤ hi → calls lo mid m → (∀ a, calls mid hi (f a)) → calls lo hi (m ≫= f).
Proof.
  intros Hle Hm Hf s. apply wp_bind. eapply wp_mono; [apply Hm|]. intros s1 l1 r Hl. simpl in Hl.
  destruct r as [a|e|p]; simpl; [|by eapply phased_weaken; [exact Hl|lia..]..].
  eapply wp_mono; [apply Hf|]. simpl. intros _ l2 _ Hl2. by eapply phased_app.
Qed.

Lemma calls_ret {A} lo hi (a : A) : calls lo hi (mret a : run S A).
Proof. intros s. apply phased_nil. Qed.

Lemma calls_of_outcome {A} lo hi (m : outcome A) : calls lo hi (of_outcome m : run S A).
Proof. intros s. apply phased_nil. Qed.

Lemma calls_throw {A} lo hi e : calls lo hi (throw e : run S A).
Proof. intros s. apply phased_nil. Qed.

Lemma calls_look {A} lo hi (g : S → A) : calls lo hi (look g).
Proof. intros s. apply phased_nil. Qed.

Lemma calls_get_status lo hi : calls lo hi (get_status : run S _).
Proof. intros s. apply phased_nil. Qed.

Lemma calls_mark lo hi g : calls lo hi (mark g : run S ()).
Proof. intros s. apply phased_nil. Qed.

Lemma calls_call {A} lo hi a (f : S → S * (goerr + A)) :
  lo ≤ phase a ≤ hi → calls lo hi (call a f).
Proof.
  intros Ha s. unfold wp, call. destruct (f (rs_backend s)) as [b r]. by apply phased_one.
Qed.

Lemma calls_for_each {A} n (l : list A) (f : A → run S ()) :
  (∀ x, calls n n (f x)) → calls n n (for_each l f).
Proof.
  intros Hf. induction l as [|x l IH]; simpl; [apply calls_ret|].
  apply (calls_bind n n n); [lia|apply Hf|done].
Qed.

Lemma calls_for_fold {A B} n (l : list A) (b : B) (f : B → A → run S B) :
  (∀ b x, calls n n (f b x)) → calls n n (for_fold l b f).
Proof.
  intros Hf. revert b. induction l as [|x l IH]; intros b; simpl; [apply calls_ret|].
  apply (calls_bind n n n); [lia|apply Hf|done].
Qed.

Lemma calls_weaken {A} lo hi lo' hi' (m : run S A) :
  calls lo hi m → lo' ≤ lo → hi ≤ hi' → calls lo' hi' m.
Proof. intros Hm ?? s. eapply wp_mono; [apply Hm|]. simpl. intros. by eapply phased_weaken. Qed.
End CallsRules.

Create HintDb calls_db discriminated.
#[export] Hint Resolve calls_ret calls_of_outcome calls_throw calls_look calls_get_status
  calls_mark : calls_db.
#[export] Hint Extern 1 (calls _ _ (call _ _)) => apply calls_call; simpl; lia : calls_db.

(** Go through the binds and branches of a run that stays in phase [n]. *)
Ltac calls_in n :=
  repeat first
    [ progress eauto with calls_db
    | apply (calls_bind n n n); [lia| |intros ?]
    | case_match ].

Section ReconcileCalls.
Context {S : Type} `{Backend S} `{MapOrder}.
Context (env : Env) (cfg : Config) (clock : nat → Z).

Lemma reconcile_child_calls desired : calls 0 0 (reconcile_child desired : run S _).
Proof. unfold reconcile_child. calls_in 0. Qed.

#[local] Hint Resolve reconcile_child_calls : calls_db.

Lemma endpoint_probe_calls ing : calls 0 0 (endpoint_probe cfg clock ing : run S _).
Proof. unfold endpoint_probe. calls_in 0. Qed.

Lemma service_step_calls ing stp name : calls 1 1 (service_step cfg ing stp name : run S _).
Proof. unfold service_step. calls_in 1. Qed.

Lemma service_protocols_calls ing : calls 1 1 (service_protocols cfg ing : run S _).
Proof. unfold service_protocols. calls_in 1. apply calls_for_fold, service_step_calls. Qed.

Lemma reconcile_proxy_calls ing p : calls 2 2 (reconcile_proxy ing p : run S _).
Proof. unfold reconcile_proxy. calls_in 2. Qed.

Lemma cleanup_calls ing : calls 3 3 (cleanup ing : run S _).
Proof. unfold cleanup. calls_in 3. Qed.

Lemma program_proxies_calls ing : calls 1 3 (program_proxies env cfg ing : run S _).
Proof.
  unfold program_proxies. apply (calls_bind 1 1 3); [lia|apply service_protocols_calls|intros stp].
  apply (calls_bind 1 2 3); [lia|apply calls_of_outcome|intros ps].
  apply (calls_bind 2 2 3); [lia|apply calls_for_each, reconcile_proxy_calls|intros _].
  eapply calls_weaken; [apply cleanup_calls|lia..].
Qed.

Lemma probe_ready_calls ing : calls 4 4 (probe_ready ing : run S _).
Proof.
  unfold probe_ready. calls_in 4. intros s. unfold wp. destruct (bk_probe _ _) as [b r].
  by apply phased_one.
Qed.

Lemma finish_calls ing have : calls 4 5 (finish env cfg clock ing have : run S _).
Proof.
  unfold finish, report_balancers, remove_probe. apply (calls_bind 4 4 5); [lia|apply calls_mark|intros _].
  apply (calls_bind 4 4 5); [lia|apply probe_ready_calls|intros ready].
  apply (calls_bind 4 5 5); [lia| |intros _].
  - apply (calls_weaken 5 5); [|lia..]. calls_in 5.
  - calls_in 5.
Qed.

(** C2: whatever the backend answers, the calls of one reconcile come in a fixed
    order: the child KIngress is created or updated first, then Services are tracked,
    then proxies are created and updated, and only then are the proxies of older
    generations deleted; probing follows, and removing the child comes last. *)
Theorem ReconcileKind_phases ing s :
  StronglySorted by_phase (ReconcileKind env cfg clock ing s).1.2.
Proof.
  assert (calls 0 5 (ReconcileKind env cfg clock ing : run S _)) as Hc.
  { unfold ReconcileKind. apply (calls_bind 0 0 5); [lia|apply endpoint_probe_calls|intros [have|]].
    - apply (calls_bind 0 3 5); [lia| |intros _].
      + eapply calls_weaken; [apply program_proxies_calls|lia..].
      + eapply calls_weaken; [apply finish_calls|lia..].
    - apply calls_ret. }
  specialize (Hc s). apply wp_run in Hc. apply Hc.
Qed.
End ReconcileCalls.
