(* ===== verification/ReconcileFacts.v ===== *)
(** * What every reconcile guarantees

    Safety of [ReconcileKind] against any backend: the gate on ready endpoints, what
    must have happened before the endpoint probe is removed or old proxies are
    deleted, the status it leaves behind, and the absence of panics. *)

From S2P Require Import Prelude Meta Regexp Labels Conditions Ingress NetIngress HTTPProxy Config Proxies EndpointProbe Reconcile.

(** ** What can be observed of a run: its calls, its result, the status it leaves *)

Section Observe.
Context {S A : Type}.
Definition calls_of (m : run S A) (s : run_state S) : list action := (m s).1.2.
Definition result_of (m : run S A) (s : run_state S) : outcome A := (m s).2.
Definition status_after (m : run S A) (s : run_state S) : IngressStatus := (rs_status (m s).1.1).1.
End Observe.

(** ** Status facts *)

Section StatusFacts.
Context (clock : nat → Z).
Implicit Types s : StatusState.

Definition cond_true (st : IngressStatus) (t : string) : bool := IsTrue (status_condition st t).

Lemma IsReady_status ing st :
  IsReady (with_status st ing) =
    bool_decide (st_observed_generation st = ing_generation ing) && cond_true st IngressConditionReady.
Proof. done. Qed.

Lemma cond_true_status s t : cond_true s.1 t = true ↔ status_of (st_state s) t = Some ConditionTrue.
Proof. apply (IsTrue_status (st_state s)). Qed.

Lemma unknown_not_ready s reason message :
  status_inv s → cond_true (MarkIngressNotReady clock reason message s).1 IngressConditionReady = false.
Proof.
  intros [Hwf _]. apply not_true_iff_false. rewrite cond_true_status.
  unfold MarkIngressNotReady. rewrite manage_state.
  apply (MarkUnknown_spec clock ingressCondSet ing_happy_not_dep); auto with golib.
Qed.

Lemma lb_not_ready_not_ready s :
  status_inv s → cond_true (MarkLoadBalancerNotReady clock s).1 IngressConditionReady = false.
Proof.
  intros [Hwf _]. apply not_true_iff_false. rewrite cond_true_status.
  unfold MarkLoadBalancerNotReady. rewrite manage_state.
  apply (MarkUnknown_spec clock ingressCondSet ing_happy_not_dep); auto with golib.
Qed.

Lemma network_configured s :
  status_inv s → cond_true (MarkNetworkConfigured clock s).1 IngressConditionNetworkConfigured = true.
Proof.
  intros [Hwf _]. rewrite cond_true_status. unfold MarkNetworkConfigured. rewrite manage_state.
  rewrite MarkTrue_status; auto with golib.
Qed.

Lemma lb_ready_all s pub priv :
  status_inv s → cond_true s.1 IngressConditionNetworkConfigured = true →
  cond_true (MarkLoadBalancerReady clock pub priv s).1 IngressConditionReady = true.
Proof.
  intros [Hwf _] Hn. rewrite cond_true_status in Hn |- *. rewrite lb_ready_state.
  apply MarkTrue_happy; auto with golib. intros d Hd Hne.
  apply elem_of_cons in Hd as [->|[->|Hd%elem_of_nil]%elem_of_cons]; done.
Qed.

Lemma lb_not_ready_network s :
  status_inv s → cond_true s.1 IngressConditionNetworkConfigured = true →
  cond_true (MarkLoadBalancerNotReady clock s).1 IngressConditionNetworkConfigured = true.
Proof.
  intros [Hwf _] Hn. rewrite cond_true_status in Hn |- *. unfold MarkLoadBalancerNotReady.
  rewrite manage_state, MarkUnknown_other; auto with golib.
Qed.

Lemma lb_ready_balancers s pub priv :
  st_public (MarkLoadBalancerReady clock pub priv s).1 = Some pub ∧
  st_private (MarkLoadBalancerReady clock pub priv s).1 = Some priv.
Proof. by destruct s. Qed.
End StatusFacts.

Lemma lift_ret {A} (r : goerr + A) a : lift r = Ret a → r = inr a.
Proof. destruct r; [done|]. by intros [= ->]. Qed.

(** ** The gate on endpoints *)

Section Gate.
Context {S : Type} `{Backend S} `{MapOrder}.
Context (env : Env) (cfg : Config) (clock : nat → Z).
Implicit Types (ing : Ingress) (s : run_state S).

(** [child] is what the backend [b] has or returns for the child [desired]: found
    with the desired spec, newly created, or updated. *)
Definition child_result (b : S) (desired child : Ingress) : Prop :=
  let ns := ing_namespace desired in
  match bk_get_ingress b ns (ing_name desired) with
  | inl e => IsNotFound e = true ∧ (bk_create_ingress b ns desired).2 = inr child
  | inr actual =>
      if decide (ing_spec actual = ing_spec desired) then child = actual
      else let update := with_spec (ing_spec desired) actual in
           (bk_update_ingress b (ing_namespace update) update).2 = inr child
  end.

(** Proxies of [ing] may be written: proxies of this generation are there already,
    or the endpoint probe for its Services and those of the older proxies is ready. *)
Definition gate_open (b : S) ing : Prop :=
  (∃ p ps, bk_list_proxies b (ing_namespace ing) (SelectorFromSet (current_labels ing)) = inr (p :: ps)) ∨
  (∃ selector old desired child,
     Parse (old_generation_text (ing_name ing) (ing_generation ing)) = Ret selector ∧
     bk_list_proxies b (ing_namespace ing) selector = inr old ∧
     MakeEndpointProbeIngress cfg ing old = Ret desired ∧
     child_result b desired child ∧ IsReady child = true).

Lemma reconcile_child_wp desired s :
  wp (reconcile_child desired) s (λ s' _ r,
    rs_status s' = rs_status s ∧ ∀ child, r = Ret child → child_result (rs_backend s) desired child).
Proof.
  unfold reconcile_child, child_result. wp_step.
  destruct (bk_get_ingress _ _ _) as [e|actual].
  - destruct (IsNotFound e); [|done]. unfold wp, call.
    destruct (bk_create_ingress _ _ _) as [b [e'|c]]; simpl; (split; [done|]); [done|].
    by intros child [= ->].
  - case_decide; [apply wp_ret; split; [done|]; by intros child [= ->]|].
    unfold wp, call. destruct (bk_update_ingress _ _ _) as [b [e'|c]]; simpl; (split; [done|]); [done|].
    by intros child [= ->].
Qed.

(** What the first part of a run establishes. *)
Lemma endpoint_probe_wp ing s :
  wp (endpoint_probe cfg clock ing) s (λ s' _ r,
    match r with
    | Ret (Some have) =>
        rs_status s' = rs_status s ∧
        (is_Some (ing_annotations ing !! EndpointsProbeKey) ∧ have = false ∨
         ing_annotations ing !! EndpointsProbeKey = None ∧ gate_open (rs_backend s) ing)
    | Ret None => rs_status s' =
        MarkIngressNotReady clock "EndpointsNotReady" "Waiting for Envoys to receive Endpoints data."
          (MarkLoadBalancerNotReady clock (rs_status s))
    | _ => rs_status s' = rs_status s
    end).
Proof.
  unfold endpoint_probe. destruct (ing_annotations ing !! EndpointsProbeKey) as [v|] eqn:Ea.
  { apply wp_ret. split; [done|]. left. split; [by eexists|done]. }
  wp_step. apply wp_of_outcome; [|done..]. intros current Ec%lift_ret.
  destruct current as [|p ps].
  - apply wp_of_outcome; [|done..]. intros selector Hsel. wp_step.
    apply wp_of_outcome; [|done..]. intros old Eo%lift_ret.
    apply wp_of_outcome; [|done..]. intros desired Hd. apply wp_bind. eapply wp_mono; [apply reconcile_child_wp|].
    intros s1 l1 [child|e|m] [Hst Hc]; simpl; [|done..].
    specialize (Hc child eq_refl). destruct (IsReady child) eqn:Er.
    + apply wp_ret. split; [done|]. right. split; [done|]. right. exists selector, old, desired, child. split_and!; assumption.
    + wp_step. wp_step. apply wp_ret. simpl. by rewrite Hst.
  - wp_step. destruct (bk_get_ingress _ _ _) as [e|c].
    + destruct (IsNotFound e); [|done]. apply wp_ret. split; [done|]. right. split; [done|]. left. eauto.
    + apply wp_ret. split; [done|]. right. split; [done|]. left. eauto.
Qed.

(** C1: a reconcile of a top-level Ingress creates, updates or deletes proxies only
    if proxies of its generation already exist, or the endpoint probe for the
    Services of the new and the previous generation is ready. *)
Theorem ReconcileKind_gate ing s a :
  ing_annotations ing !! EndpointsProbeKey = None →
  a ∈ (ReconcileKind env cfg clock ing s).1.2 → phase a = 2 ∨ phase a = 3 →
  gate_open (rs_backend s) ing.
Proof.
  intros Hann. revert a.
  assert (wp (ReconcileKind env cfg clock ing) s (λ _ l _,
    (∀ a, a ∈ l → phase a ≠ 2 ∧ phase a ≠ 3) ∨ gate_open (rs_backend s) ing)) as Hwp.
  { unfold ReconcileKind. apply wp_bind.
    pose proof (endpoint_probe_calls cfg clock ing s) as Hc.
    pose proof (endpoint_probe_wp ing s) as Hp. unfold wp in Hc, Hp |- *.
    destruct (endpoint_probe cfg clock ing s) as [[s1 l1] r].
    assert (∀ a, a ∈ l1 → phase a ≠ 2 ∧ phase a ≠ 3) as Hl.
    { intros a Ha. destruct Hc as [Hc _]. rewrite Forall_forall in Hc. specialize (Hc a Ha). lia. }
    destruct r as [[have|]|e|m]; simpl; [|left; by rewrite ?app_nil_r..].
    destruct Hp as [_ [[[v Hv] _]|[_ Hg]]]; [congruence|].
    apply wp_true. by right. }
  apply wp_run in Hwp. intros a Ha Hph. destruct Hwp as [Hno|?]; [|done].
  destruct (Hno a Ha). lia.
Qed.
End Gate.

(** ** The status a run leaves *)

(** A run that leaves the status alone. *)
Definition keeps_status {S A} (m : run S A) : Prop :=
  ∀ s, wp m s (λ s' _ _, rs_status s' = rs_status s).

Section KeepsRules.
Context {S : Type}.

Lemma keeps_bind {A B} (m : run S A) (f : A → run S B) :
  keeps_status m → (∀ a, keeps_status (f a)) → keeps_status (m ≫= f).
Proof.
  intros Hm Hf s. apply wp_bind. eapply wp_mono; [apply Hm|]. intros s1 l1 [a|e|p] Hs; simpl; [|done..].
  eapply wp_mono; [apply Hf|]. simpl. congruence.
Qed.

Lemma keeps_ret {A} (a : A) : keeps_status (mret a : run S A).
Proof. done. Qed.
Lemma keeps_of_outcome {A} (m : outcome A) : keeps_status (of_outcome m : run S A).
Proof. done. Qed.
Lemma keeps_look {A} (g : S → A) : keeps_status (look g).
Proof. done. Qed.
Lemma keeps_get_status : keeps_status (get_status : run S _).
Proof. done. Qed.
Lemma keeps_call {A} a (f : S → S * (goerr + A)) : keeps_status (call a f).
Proof. intros s. unfold wp, call. by destruct (f _). Qed.

Lemma keeps_for_each {A} (l : list A) (f : A → run S ()) :
  (∀ x, keeps_status (f x)) → keeps_status (for_each l f).
Proof.
  intros Hf. induction l as [|x l IH]; simpl; [apply keeps_ret|]. by apply keeps_bind.
Qed.

Lemma keeps_for_fold {A B} (l : list A) (b : B) (f : B → A → run S B) :
  (∀ b x, keeps_status (f b x)) → keeps_status (for_fold l b f).
Proof.
  intros Hf. revert b. induction l as [|x l IH]; intros b; simpl; [apply keeps_ret|].
  by apply keeps_bind.
Qed.
End KeepsRules.

Create HintDb keeps_db discriminated.
#[export] Hint Resolve keeps_ret keeps_of_outcome keeps_look keeps_get_status keeps_call
  keeps_for_each keeps_for_fold : keeps_db.

Ltac keeps :=
  repeat first [ progress eauto with keeps_db | apply keeps_bind; [|intros ?] | case_match ].

Section Status.
Context {S : Type} `{Backend S} `{MapOrder}.
Context (env : Env) (cfg : Config) (clock : nat → Z).
Implicit Types (ing : Ingress) (s : run_state S).

Lemma program_proxies_keeps ing : keeps_status (program_proxies env cfg ing : run S _).
Proof.
  unfold program_proxies, service_protocols, service_step, reconcile_proxy, cleanup.
  apply keeps_bind; [keeps; apply keeps_for_fold; intros; keeps|intros stp].
  apply keeps_bind; [keeps|intros ps].
  apply keeps_bind; [apply keeps_for_each; intros; keeps|intros _]. keeps.
Qed.

(** The backend as it is at the end, or as it was before the endpoint probe was removed: the
    one the addresses of the load balancers were read from. *)
Definition read_from ing (b b' : S) : Prop :=
  b' = b ∨ b' = (bk_delete_ingress b (ing_namespace ing) (EndpointProbeIngress (ing_meta ing))).1.

(** After a run that went all the way. *)
Definition reconciled_status ing (s : run_state S) : Prop :=
  let st := (rs_status s).1 in
  st_observed_generation st = ing_generation ing ∧
  cond_true st IngressConditionNetworkConfigured = true ∧
  (cond_true st IngressConditionReady = true → ∃ b : S, read_from ing b (rs_backend s) ∧
     st_public st = Some (lbStatus env cfg b IngressVisibilityExternalIP) ∧
     st_private st = Some (lbStatus env cfg b IngressVisibilityClusterLocal)).

Lemma probe_ready_wp ing s :
  wp (probe_ready ing) s (λ s' l r, rs_status s' = rs_status s ∧
    (cond_true (rs_status s).1 IngressConditionReady = false ∨
     st_observed_generation (rs_status s).1 ≠ ing_generation ing → l = [AProbe])).
Proof.
  unfold probe_ready. wp_step. rewrite IsReady_status.
  destruct (bool_decide_reflect (st_observed_generation (rs_status s).1 = ing_generation ing)),
    (cond_true (rs_status s).1 IngressConditionReady); simpl; [by apply wp_ret; naive_solver|..].
  all: unfold wp; by destruct (bk_probe _ _).
Qed.

Lemma status_step_1 (f : StatusState → StatusState) st :
  (∀ st, status_step clock st (f st)) → status_inv st → status_inv (f st).
Proof. intros Hf. apply status_step_inv with (clock := clock), Hf. Qed.

Lemma observe_inv g st : status_inv st → status_inv (with_observed g st.1, st.2).
Proof. destruct st. apply status_step_inv with (clock := clock). constructor. Qed.

Lemma report_balancers_wp ready s :
  status_inv (rs_status s) → cond_true (rs_status s).1 IngressConditionNetworkConfigured = true →
  wp (report_balancers env cfg clock ready) s (λ s' l r,
    l = [] ∧ r = Ret () ∧ status_inv (rs_status s') ∧
    cond_true (rs_status s').1 IngressConditionNetworkConfigured = true ∧
    cond_true (rs_status s').1 IngressConditionReady = ready ∧
    (ready = true → st_public (rs_status s').1 = Some (lbStatus env cfg (rs_backend s) IngressVisibilityExternalIP) ∧
     st_private (rs_status s').1 = Some (lbStatus env cfg (rs_backend s) IngressVisibilityClusterLocal)) ∧
    rs_backend s' = rs_backend s).
Proof.
  intros Hinv Hnet. unfold report_balancers. destruct ready.
  - do 2 wp_step. unfold wp, mark. simpl.
    set (pub := lbStatus _ _ _ IngressVisibilityExternalIP). set (priv := lbStatus _ _ _ _).
    assert (status_inv (MarkLoadBalancerReady clock pub priv (rs_status s))) as Hinv'
      by (by apply status_step_1; [constructor|]).
    assert (cond_true (MarkLoadBalancerReady clock pub priv (rs_status s)).1
      IngressConditionReady = true) as Hr by by apply lb_ready_all.
    split_and!; [done..| |done| |done].
    + by apply ready_means_configured.
    + intros _. apply lb_ready_balancers.
  - unfold wp, mark. simpl. split_and!; [done..| | | |done|done].
    + by apply status_step_1; [constructor|].
    + by apply lb_not_ready_network.
    + by apply lb_not_ready_not_ready.
Qed.

Lemma remove_probe_wp ing have s :
  wp (remove_probe ing have) s (λ s' l r, rs_status s' = rs_status s ∧ read_from ing (rs_backend s) (rs_backend s') ∧
    ∀ ns name, ADeleteIngress ns name ∈ l →
      have = true ∧ ns = ing_namespace ing ∧ name = EndpointProbeIngress (ing_meta ing) ∧
      IsReady (with_status (rs_status s).1 ing) = true).
Proof.
  unfold remove_probe. destruct have; [|apply wp_ret; split_and!; [done|by left|by intros ?? ?%elem_of_nil]].
  wp_step. destruct (IsReady _) eqn:E; [|apply wp_ret; split_and!; [done|by left|by intros ?? ?%elem_of_nil]].
  unfold wp, call. destruct (bk_delete_ingress _ _ _) as [b r] eqn:Ed. simpl. split_and!; [done|right; by rewrite Ed|].
  by intros ns name [= -> ->]%list_elem_of_singleton.
Qed.

Lemma finish_wp ing have s :
  status_inv (rs_status s) →
  wp (finish env cfg clock ing have) s (λ s' l r,
    status_inv (rs_status s') ∧
    (r = Ret () → reconciled_status ing s') ∧
    (∀ ns name, ADeleteIngress ns name ∈ l →
       have = true ∧ ns = ing_namespace ing ∧ name = EndpointProbeIngress (ing_meta ing) ∧
       IsReady (with_status (rs_status s').1 ing) = true)).
Proof.
  intros Hinv. unfold finish. wp_step.
  set (s1 := {| rs_backend := _; rs_status := MarkNetworkConfigured _ _ |}).
  assert (status_inv (rs_status s1)) as Hinv1 by (apply status_step_1; [constructor|done]).
  assert (cond_true (rs_status s1).1 IngressConditionNetworkConfigured = true) as Hnet
    by by apply network_configured.
  clearbody s1. apply wp_bind.
  pose proof (probe_ready_calls ing s1) as Hcalls. pose proof (probe_ready_wp ing s1) as Hwp.
  unfold wp in Hcalls, Hwp |- *. destruct (probe_ready ing s1) as [[s2 l2] r].
  destruct Hwp as [Hs2 _].
  assert (∀ ns name, ADeleteIngress ns name ∉ l2) as Hl2.
  { intros ns name Hin. destruct Hcalls as [Hc _]. rewrite Forall_forall in Hc.
    specialize (Hc _ Hin). simpl in Hc. lia. }
  rewrite <-Hs2 in Hinv1, Hnet.
  destruct r as [ready|e|m]; simpl;
    [|split_and!; [done|done|by intros ns name ?%Hl2]..].
  apply wp_bind. eapply wp_mono; [by apply report_balancers_wp|].
  intros s3 l3 r (-> & -> & Hinv3 & Hnet3 & Hready & Hlb & Hb3). cbn [after].
  wp_step. set (s4 := {| rs_backend := _; rs_status := _ |}).
  eapply wp_mono; [apply remove_probe_wp|]. intros s5 l5 r (Hs5 & Hfrom & Hdel).
  unfold reconciled_status. rewrite Hs5. split_and!.
  - by apply observe_inv.
  - intros _. split_and!; [done|done|]. intros Hr. exists (rs_backend s2).
    split; [by rewrite <-Hb3|]. apply Hlb. rewrite <-Hready. exact Hr.
  - intros ns name [?%Hl2|Hin]%elem_of_app; [done|]. by apply Hdel.
Qed.

Lemma ReconcileKind_status_wp ing s :
  status_inv (rs_status s) →
  wp (ReconcileKind env cfg clock ing) s (λ s' l r,
    status_inv (rs_status s') ∧ (r = Ret () →
      (cond_true (rs_status s').1 IngressConditionReady = false ∧ in_phase 0 l) ∨
      reconciled_status ing s')).
Proof.
  intros Hinv. unfold ReconcileKind. apply wp_bind.
  pose proof (endpoint_probe_calls cfg clock ing s) as Hc.
  pose proof (endpoint_probe_wp cfg clock ing s) as Hp. unfold wp in Hc, Hp |- *.
  destruct (endpoint_probe cfg clock ing s) as [[s1 l1] [[have|]|e|m]]; simpl;
    [|..|rewrite Hp; done|rewrite Hp; done].
  - destruct Hp as [Hs1 _]. apply wp_bind. eapply wp_mono; [apply program_proxies_keeps|].
    intros s2 l2 [[]|e|m] Hs2; simpl; [|by rewrite Hs2, Hs1..].
    rewrite Hs1 in Hs2. rewrite <-Hs2 in Hinv.
    eapply wp_mono; [by apply finish_wp|]. intros s3 l3 r (Hinv3 & Hst & _). split; [done|].
    intros Hr. right. by apply Hst.
  - apply wp_ret. rewrite Hp.
    assert (status_inv (MarkLoadBalancerNotReady clock (rs_status s))) as Hi
      by by apply status_step_1; [constructor|].
    split; [by apply (status_step_1 (MarkIngressNotReady clock _ _)); [constructor|]|].
    intros _. left. split.
    + by apply unknown_not_ready.
    + rewrite app_nil_r. destruct Hc as [Hc _]. eapply Forall_impl; [exact Hc|]. simpl. lia.
Qed.

(** C7: a reconcile keeps the status consistent (one condition per type, Ready only when its
    dependents are).  If it returns without error, either it stopped for want of endpoints,
    having touched no proxy and with the Ingress not ready, or the status is that of the
    current generation, with the network configured; and if it says Ready, it reports the
    configured load balancers, with the addresses their Services had at the end, or just
    before the endpoint probe was removed.  While the prober says not ready, no load
    balancers are promised. *)
Theorem ReconcileKind_status ing s :
  status_inv (rs_status s) →
  let '(s', l, r) := ReconcileKind env cfg clock ing s in
  status_inv (rs_status s') ∧
  (r = Ret () →
     (IsReady (with_status (rs_status s').1 ing) = false ∧ in_phase 0 l) ∨
     reconciled_status ing s').
Proof.
  intros Hinv. pose proof (ReconcileKind_status_wp ing s Hinv) as Hwp. unfold wp in Hwp.
  destruct (ReconcileKind env cfg clock ing s) as [[s' l] r]. destruct Hwp as [? Hret].
  split; [done|]. intros Hr. destruct (Hret Hr) as [[Hn ?]|?]; [left|by right].
  rewrite IsReady_status, Hn. by rewrite andb_false_r.
Qed.

(** C9: the endpoint probe is removed only when the Ingress has become ready for its
    current generation, and it is this Ingress's own probe that is removed. *)
Theorem ReconcileKind_probe_removal ing s ns name :
  status_inv (rs_status s) →
  ADeleteIngress ns name ∈ calls_of (ReconcileKind env cfg clock ing) s →
  ns = ing_namespace ing ∧ name = EndpointProbeIngress (ing_meta ing) ∧
  ing_annotations ing !! EndpointsProbeKey = None ∧
  IsReady (with_status (status_after (ReconcileKind env cfg clock ing) s) ing) = true.
Proof.
  unfold calls_of, status_after. intros Hinv. revert ns name.
  assert (wp (ReconcileKind env cfg clock ing) s (λ s' l r, ∀ ns name, ADeleteIngress ns name ∈ l →
    ns = ing_namespace ing ∧ name = EndpointProbeIngress (ing_meta ing) ∧
    ing_annotations ing !! EndpointsProbeKey = None ∧
    IsReady (with_status (rs_status s').1 ing) = true)) as Hwp; [|by apply wp_run in Hwp].
  unfold ReconcileKind. apply wp_bind.
  pose proof (endpoint_probe_calls cfg clock ing s) as Hc.
  pose proof (endpoint_probe_wp cfg clock ing s) as Hp. unfold wp in Hc, Hp |- *.
  destruct (endpoint_probe cfg clock ing s) as [[s1 l1] r].
  assert (∀ ns name, ADeleteIngress ns name ∉ l1) as Hl1.
  { intros ns name Hin. destruct Hc as [Hc _]. rewrite Forall_forall in Hc.
    specialize (Hc _ Hin). simpl in Hc. lia. }
  destruct r as [[have|]|e|m]; simpl;
    [|apply wp_ret; rewrite app_nil_r; by intros ns name ?%Hl1|by intros ns name ?%Hl1..].
  destruct Hp as [Hs1 Hhave]. apply wp_bind.
  pose proof (program_proxies_calls env cfg ing s1) as Hc2.
  pose proof (program_proxies_keeps ing s1) as Hk. unfold wp in Hc2, Hk |- *.
  destruct (program_proxies env cfg ing s1) as [[s2 l2] r].
  assert (∀ ns name, ADeleteIngress ns name ∉ l2) as Hl2.
  { intros ns name Hin. destruct Hc2 as [Hc2 _]. rewrite Forall_forall in Hc2.
    specialize (Hc2 _ Hin). simpl in Hc2. lia. }
  destruct r as [[]|e|m]; simpl;
    [|by intros ns name [?%Hl1|?%Hl2]%elem_of_app..].
  rewrite Hs1 in Hk. rewrite <-Hk in Hinv. eapply wp_mono; [by apply finish_wp|].
  intros s3 l3 r (_ & _ & Hdel) ns name [?%Hl1|[?%Hl2|Hin]%elem_of_app]%elem_of_app; [done..|].
  destruct (Hdel ns name Hin) as (-> & -> & -> & ->). split_and!; [done..| |done].
  by destruct Hhave as [[_ ?]|[? _]].
Qed.
End Status.

(** ** Panics *)

(** A run that does not panic. *)
Definition panic_free {S A} (m : run S A) : Prop :=
  ∀ s, wp m s (λ _ _ r, safe r (λ _, True)).

Section PanicRules.
Context {S : Type}.

Lemma panic_free_bind {A B} (m : run S A) (f : A → run S B) :
  panic_free m → (∀ a, panic_free (f a)) → panic_free (m ≫= f).
Proof.
  intros Hm Hf s. apply wp_bind. eapply wp_mono; [apply Hm|]. intros s1 l1 [a|e|p] Hs; simpl; [|done..].
  eapply wp_mono; [apply Hf|]. done.
Qed.

Lemma panic_free_ret {A} (a : A) : panic_free (mret a : run S A).
Proof. done. Qed.
Lemma panic_free_of_outcome {A} (m : outcome A) : safe m (λ _, True) → panic_free (of_outcome m : run S A).
Proof. by intros Hm s. Qed.
Lemma panic_free_lift {A} (r : goerr + A) : panic_free (of_outcome (lift r) : run S A).
Proof. intros s. by destruct r. Qed.
Lemma panic_free_throw {A} e : panic_free (throw e : run S A).
Proof. done. Qed.
Lemma panic_free_look {A} (g : S → A) : panic_free (look g).
Proof. done. Qed.
Lemma panic_free_mark g : panic_free (mark g : run S ()).
Proof. done. Qed.
Lemma panic_free_get_status : panic_free (get_status : run S _).
Proof. done. Qed.
Lemma panic_free_call {A} a (f : S → S * (goerr + A)) : panic_free (call a f).
Proof. intros s. unfold wp, call. by destruct (f _) as [b [e|x]]. Qed.

Lemma panic_free_for_each {A} (l : list A) (f : A → run S ()) :
  (∀ x, panic_free (f x)) → panic_free (for_each l f).
Proof.
  intros Hf. induction l as [|x l IH]; simpl; [apply panic_free_ret|]. by apply panic_free_bind.
Qed.

Lemma panic_free_for_fold {A B} (l : list A) (b : B) (f : B → A → run S B) :
  (∀ b x, panic_free (f b x)) → panic_free (for_fold l b f).
Proof.
  intros Hf. revert b. induction l as [|x l IH]; intros b; simpl; [apply panic_free_ret|].
  by apply panic_free_bind.
Qed.
End PanicRules.

Create HintDb panic_db discriminated.
#[export] Hint Resolve panic_free_ret panic_free_lift panic_free_throw panic_free_look
  panic_free_mark panic_free_get_status panic_free_call : panic_db.

Ltac panic_free :=
  repeat first [ progress eauto with panic_db | apply panic_free_bind; [|intros ?] | case_match ].

Section PanicFree.
Context {S : Type} `{Backend S} `{MapOrder}.
Context (env : Env) (cfg : Config) (clock : nat → Z).
Implicit Types (ing : Ingress) (s : run_state S).

Lemma reconcile_child_panic_free desired : panic_free (reconcile_child desired : run S _).
Proof. unfold reconcile_child. panic_free. Qed.

Lemma program_proxies_panic_free ing :
  env_ok env cfg → has_http ing → panic_free (program_proxies env cfg ing : run S _).
Proof.
  intros Hok Hh. unfold program_proxies, service_protocols, service_step, reconcile_proxy, cleanup.
  apply panic_free_bind; [|intros stp; apply panic_free_bind; [|intros ps; apply panic_free_bind; [|intros _]]].
  - apply panic_free_bind; [apply panic_free_of_outcome; by rewrite ServiceNames_ret|intros info].
    apply panic_free_for_fold. intros. panic_free.
  - apply panic_free_of_outcome. by rewrite MakeHTTPProxies_ret.
  - apply panic_free_for_each. intros. panic_free.
  - apply panic_free_bind; [apply panic_free_of_outcome, Parse_safe|intros]. panic_free.
Qed.

Lemma finish_panic_free ing have : panic_free (finish env cfg clock ing have : run S _).
Proof.
  unfold finish, report_balancers, remove_probe, probe_ready. panic_free.
  intros s. unfold wp. by destruct (bk_probe _ _) as [b [e|ready]].
Qed.

Lemma endpoint_probe_panic_free ing s :
  has_http ing →
  (∀ e, bk_get_ingress (rs_backend s) (ing_namespace ing) (EndpointProbeIngress (ing_meta ing)) = inl e →
    IsNotFound e = true) →
  wp (endpoint_probe cfg clock ing) s (λ _ _ r, safe r (λ _, True)).
Proof.
  intros Hh Hget. unfold endpoint_probe. case_match; [done|]. wp_step.
  apply wp_of_outcome; [|done|by intros p Hp; destruct (bk_list_proxies _ _ _)].
  intros [|p ps] _.
  - revert s Hget. intros s _. apply (panic_free_bind); [apply panic_free_of_outcome, Parse_safe|intros].
    panic_free. apply panic_free_of_outcome.
    by destruct (MakeEndpointProbeIngress_ret cfg ing a1 Hh) as (child & -> & _).
  - wp_step. destruct (bk_get_ingress _ _ _) as [e|c] eqn:E; [|done].
    by rewrite (Hget e eq_refl).
Qed.

(** With complete rules, a known system namespace, and a cache that answers a
    missing child with NotFound, a reconcile never panics. *)
Theorem ReconcileKind_no_panic ing s msg :
  env_ok env cfg → has_http ing →
  (∀ e, bk_get_ingress (rs_backend s) (ing_namespace ing) (EndpointProbeIngress (ing_meta ing)) = inl e →
    IsNotFound e = true) →
  result_of (ReconcileKind env cfg clock ing) s ≠ Panic msg.
Proof.
  unfold result_of.
  intros Hok Hh Hget.
  assert (wp (ReconcileKind env cfg clock ing) s (λ _ _ r, safe r (λ _, True))) as Hwp.
  { unfold ReconcileKind. apply wp_bind. eapply wp_mono; [by apply endpoint_probe_panic_free|].
    intros s1 l1 [[have|]|e|m] Hs; simpl; [|done..].
    apply panic_free_bind; [by apply program_proxies_panic_free|intros _; apply finish_panic_free]. }
  apply wp_run in Hwp. by eapply safe_no_panic.
Qed.

(** Any other error of that lookup is a crash: the lookup's nil result is
    dereferenced to log it. *)
Theorem ReconcileKind_lookup_panic ing s p ps e :
  ing_annotations ing !! EndpointsProbeKey = None →
  bk_list_proxies (rs_backend s) (ing_namespace ing) (SelectorFromSet (current_labels ing)) = inr (p :: ps) →
  bk_get_ingress (rs_backend s) (ing_namespace ing) (EndpointProbeIngress (ing_meta ing)) = inl e →
  IsNotFound e = false →
  calls_of (ReconcileKind env cfg clock ing) s = [] ∧
  ∃ msg, result_of (ReconcileKind env cfg clock ing) s = Panic msg.
Proof.
  intros Ha Hl Hg He.
  assert (∃ msg, ReconcileKind env cfg clock ing s = (s, [], Panic msg)) as [msg E];
    [|unfold calls_of, result_of; rewrite E; by split; [|exists msg]].
  eexists. unfold ReconcileKind, endpoint_probe, mbind, run_bind, look, of_outcome.
  rewrite Ha, Hl. simpl. rewrite Hg, He. reflexivity.
Qed.
End PanicFree.

(** ** Deleting old proxies, and tracking *)

(** A run whose calls all satisfy [P]. *)
Definition emits {S A} (P : action → Prop) (m : run S A) : Prop := ∀ s, wp m s (λ _ l _, Forall P l).

Lemma emits_bind {S A B} P (m : run S A) (f : A → run S B) :
  emits P m → (∀ a, emits P (f a)) → emits P (m ≫= f).
Proof.
  intros Hm Hf s. apply wp_bind. eapply wp_mono; [apply Hm|]. intros s1 l1 [a|e|p] Hs; simpl; [|done..].
  eapply wp_mono; [apply Hf|]. simpl. intros. by apply Forall_app.
Qed.

Lemma emits_phase {S A} (P : action → Prop) lo hi (m : run S A) :
  calls lo hi m → (∀ a, lo ≤ phase a ≤ hi → P a) → emits P m.
Proof.
  intros Hc HP s. eapply wp_mono; [apply Hc|]. intros _ l _ [Hl _].
  eapply Forall_impl; [exact Hl|]. done.
Qed.

Section Deletion.
Context {S : Type} `{Backend S} `{MapOrder}.
Context (env : Env) (cfg : Config) (clock : nat → Z).
Implicit Types (ing : Ingress) (s : run_state S).

(** A deletion aimed at the proxies of other generations of [ing]. *)
Definition deletes_old ing (a : action) : Prop :=
  ∀ ns text, a = ADeleteProxies ns text → ns = ing_namespace ing ∧
    ∃ selector, Parse (old_generation_text (ing_name ing) (ing_generation ing)) = Ret selector ∧
      text = sel_String selector.

Lemma not_phase_3_deletes_old ing a : phase a ≠ 3 → deletes_old ing a.
Proof. by intros Hp ns text ->. Qed.

Lemma cleanup_emits ing : emits (deletes_old ing) (cleanup ing : run S _).
Proof.
  intros s. unfold cleanup. apply wp_of_outcome; [|by constructor..]. intros selector Hsel.
  wp_step. apply wp_of_outcome; [|by constructor..]. intros [|p ps] _; [by constructor|].
  unfold wp, call. destruct (bk_delete_proxies _ _ _) as [b r]. constructor; [|constructor].
  intros ns text [= <- <-]. split; [done|]. exists selector. split; [exact Hsel|reflexivity].
Qed.

Lemma program_proxies_emits ing : emits (deletes_old ing) (program_proxies env cfg ing : run S _).
Proof.
  unfold program_proxies.
  apply emits_bind; [|intros stp; apply emits_bind; [|intros ps; apply emits_bind; [|intros _]]].
  - eapply emits_phase; [apply service_protocols_calls|]. intros. apply not_phase_3_deletes_old. lia.
  - intros s. constructor.
  - eapply (emits_phase _ 2 2); [apply calls_for_each, reconcile_proxy_calls|].
    intros. apply not_phase_3_deletes_old. lia.
  - apply cleanup_emits.
Qed.

Lemma ReconcileKind_emits ing : emits (deletes_old ing) (ReconcileKind env cfg clock ing : run S _).
Proof.
  unfold ReconcileKind. apply emits_bind; [|intros [have|]; [apply emits_bind; [|intros _]|]].
  - eapply emits_phase; [apply endpoint_probe_calls|]. intros. apply not_phase_3_deletes_old. lia.
  - apply program_proxies_emits.
  - eapply emits_phase; [apply finish_calls|]. intros. apply not_phase_3_deletes_old. lia.
  - intros s. constructor.
Qed.

Lemma Parse_delete_text name generation :
  IsLabelValue name = [] → (0 ≤ generation < 2 ^ 63)%Z →
  Parse (sel_String (old_generation_selector name generation)) =
    Ret (old_generation_selector name generation).
Proof.
  intros Hn Hg. rewrite Parse_sel_String; [reflexivity|].
  constructor; [by apply generation_req_ok|]. constructor; [by apply parent_req_ok|constructor].
Qed.

(** C8: what a reconcile asks the API server to delete, in the Ingress's namespace,
    is a selector text that reads back as: the proxies of this parent whose
    generation label is not the current one.  A proxy of the current generation never
    matches it. *)
Theorem ReconcileKind_deletes_only_old ing s ns text :
  IsLabelValue (ing_name ing) = [] → (0 ≤ ing_generation ing < 2 ^ 63)%Z →
  ADeleteProxies ns text ∈ calls_of (ReconcileKind env cfg clock ing) s →
  ns = ing_namespace ing ∧
  ∃ selector, Parse text = Ret selector ∧
    ∀ labels, Matches selector labels = true ↔
      labels !! ParentKey = Some (ing_name ing) ∧
      labels !! GenerationKey ≠ Some (FormatInt (ing_generation ing)).
Proof.
  intros Hn Hg Hin. pose proof (ReconcileKind_emits ing s) as He. apply wp_run in He.
  rewrite Forall_forall in He. destruct (He _ Hin ns text eq_refl) as (-> & selector & Hp & ->).
  split; [done|]. rewrite Parse_old_generation in Hp by done. injection Hp as <-.
  exists (old_generation_selector (ing_name ing) (ing_generation ing)).
  split; [by apply Parse_delete_text|]. intros labels. apply old_generation_Matches.
Qed.

(** C23: an Ingress whose name is not a valid label value (Kubernetes allows names of
    up to 253 bytes, label values of 63) can never be reconciled: the run does not
    return without an error, and deletes nothing. *)
Theorem ReconcileKind_long_name ing s :
  sall labelKeyExtChar (ing_name ing) = true → ing_name ing ≠ "" →
  IsLabelValue (ing_name ing) ≠ [] → ing_annotations ing !! EndpointsProbeKey = None →
  (∀ ns text, ADeleteProxies ns text ∉ calls_of (ReconcileKind env cfg clock ing) s) ∧
  result_of (ReconcileKind env cfg clock ing) s ≠ Ret ().
Proof.
  unfold calls_of, result_of. intros Hc Hne Hbad Hann.
  destruct (Parse_old_generation_invalid _ (ing_generation ing) Hc Hne Hbad) as [e He].
  assert (∀ s, wp (ReconcileKind env cfg clock ing) s (λ _ l _, Forall (deletes_old ing) l)) as Hem
    by apply ReconcileKind_emits.
  specialize (Hem s). apply wp_run in Hem. split.
  - intros ns text Hin. rewrite Forall_forall in Hem.
    destruct (Hem _ Hin ns text eq_refl) as (_ & selector & Hp & _). congruence.
  - clear Hem.
    assert (wp (ReconcileKind env cfg clock ing) s (λ _ _ r, r ≠ Ret ())) as Hwp;
      [|by apply wp_run in Hwp].
    unfold ReconcileKind. apply wp_bind. unfold endpoint_probe. rewrite Hann. wp_step.
    apply wp_of_outcome; [|done..]. intros [|p ps] _.
    + apply wp_of_outcome; [congruence|done..].
    + wp_step.
      assert (∀ have s, wp (_ ← program_proxies env cfg ing; finish env cfg clock ing have) s
        (λ _ _ r, r ≠ Ret ())) as Hprog.
      { clear s. intros have s. apply wp_bind. unfold program_proxies.
        do 3 (apply wp_bind; apply wp_true; intros ? ? [?|?|?]; simpl; [|done..]).
        unfold cleanup. apply wp_of_outcome; [congruence|done..]. }
      destruct (bk_get_ingress _ _ _) as [e'|c]; [destruct (IsNotFound e')|].
      * apply wp_ret, Hprog.
      * unfold wp, of_outcome. simpl. discriminate.
      * apply wp_ret, Hprog.
Qed.

(** The reference under which a Service of [ing] is tracked. *)
Definition service_ref ing (name : string) : Reference :=
  {| tr_api_version := "v1"; tr_kind := "Service"; tr_namespace := ing_namespace ing; tr_name := name |}.

Lemma for_fold_tracks ing names stp s :
  wp (for_fold names stp (service_step cfg ing)) s (λ _ l r,
    is_ret r = true → ∀ name, name ∈ names → ATrack (service_ref ing name) ∈ l).
Proof.
  revert stp s. induction names as [|n names IH]; intros stp s; simpl.
  { apply wp_ret. by intros _ name ?%elem_of_nil. }
  apply wp_bind. unfold service_step. wp_step. apply wp_bind. unfold wp at 1, call at 1.
  destruct (bk_track _ _ _) as [b [e|[]]]; simpl; [done|].
  wp_step. apply wp_of_outcome; [|done..]. intros svc _. apply wp_ret. simpl.
  eapply wp_mono; [apply IH|]. simpl. intros _ l r Hl Hr name [->|Hin]%elem_of_cons; [left|right].
  by apply Hl.
Qed.

(** C10: before it writes any proxy, a reconcile has registered every Service the
    Ingress refers to with the tracker, so that a change to one of them requeues the
    Ingress. *)
Theorem ReconcileKind_tracks ing s a info name :
  a ∈ (ReconcileKind env cfg clock ing s).1.2 → 2 ≤ phase a →
  ServiceNames ing = Ret info → name ∈ dom info →
  ATrack (service_ref ing name) ∈ (ReconcileKind env cfg clock ing s).1.2.
Proof.
  intros Ha Hph Hinfo Hname. revert a Ha Hph.
  assert (wp (ReconcileKind env cfg clock ing) s (λ _ l _, ∀ a, a ∈ l → 2 ≤ phase a →
    ATrack (service_ref ing name) ∈ l)) as Hwp; [|apply wp_run in Hwp; apply Hwp].
  unfold ReconcileKind. apply wp_bind. eapply wp_mono; [apply endpoint_probe_calls|].
  intros s1 l1 r [Hl1 _]. rewrite Forall_forall in Hl1.
  assert (∀ a, a ∈ l1 → ¬ 2 ≤ phase a) as Hno by (intros a Ha; specialize (Hl1 a Ha); simpl in Hl1; lia).
  destruct r as [[have|]|e|m]; simpl; [|apply wp_ret; rewrite app_nil_r; by intros a ?%Hno|by intros a ?%Hno..].
  apply wp_bind. unfold program_proxies. apply wp_bind. unfold service_protocols. rewrite Hinfo.
  apply wp_of_outcome; [|done..]. intros info' [= <-].
  pose proof (calls_for_fold 1 (sets_List (dom info)) ∅ (service_step cfg ing)) as Hc.
  specialize (Hc (service_step_calls cfg ing) s1).
  pose proof (for_fold_tracks ing (sets_List (dom info)) ∅ s1) as Ht. unfold wp in Hc, Ht |- *.
  destruct (for_fold _ _ _ s1) as [[s2 l2] r]. destruct Hc as [Hl2 _]. rewrite Forall_forall in Hl2.
  destruct r as [stp|e|m]; cbn [after].
  - assert (ATrack (service_ref ing name) ∈ l2) as Hin
      by (apply Ht; [done|by apply elem_of_sets_List]).
    apply wp_true. intros s3 l3 [[]|e|m]; cbn [after]; [apply wp_true; intros _ l4 _|..]; set_solver.
  - intros a [?%Hno|Ha]%elem_of_app; [done|]. specialize (Hl2 a Ha). simpl in Hl2. lia.
  - intros a [?%Hno|Ha]%elem_of_app; [done|]. specialize (Hl2 a Ha). simpl in Hl2. lia.
Qed.
End Deletion.
