(* ===== verification/Convergence.v ===== *)
(** * Convergence

    What the reconciler achieves against an API server whose caches are in sync: the
    class [Synced] states the documented behaviour the reconciler relies on, and the
    theorems show that programming the proxies of an Ingress succeeds, leaves exactly
    the wanted proxies, and does nothing the second time.  [cluster] is an in-memory
    implementation that satisfies the class. *)

From S2P Require Import Prelude Hash Meta Regexp Labels Conditions Ingress NetIngress HTTPProxy Config Proxies EndpointProbe Reconcile ReconcileFacts.

Abbreviation proxy_store := (gmap (string * string) HTTPProxy).

(** Equal up to what the server manages (uid, resource version, generation, status). *)
Definition same_content (p q : HTTPProxy) : Prop :=
  hp_name p = hp_name q ∧ hp_namespace p = hp_namespace q ∧ hp_labels p = hp_labels q ∧
  hp_annotations p = hp_annotations q ∧ hp_spec p = hp_spec q.

(** The stored object is an up-to-date version of the wanted one, under any name. *)
Definition up_to_date (found wanted : HTTPProxy) : Prop :=
  hp_labels found = hp_labels wanted ∧ hp_annotations found = hp_annotations wanted ∧
  hp_spec found = hp_spec wanted.

(** ** The interface with its laws *)

Class Synced (S : Type) `{Backend S} := {
  sy_proxies : S → proxy_store;
  sy_keys s k p : sy_proxies s !! k = Some p → om_key (hp_meta p) = k;
  sy_list s ns sel : ∃ l, bk_list_proxies s ns sel = inr l ∧
    ∀ p, p ∈ l ↔ ∃ name, sy_proxies s !! (ns, name) = Some p ∧ Matches sel (hp_labels p) = true;
  sy_create s p : sy_proxies s !! om_key (hp_meta p) = None →
    ∃ s' p', bk_create_proxy s (hp_namespace p) p = (s', inr p') ∧ same_content p' p ∧
      sy_proxies s' = <[om_key (hp_meta p) := p']> (sy_proxies s);
  sy_update s p : is_Some (sy_proxies s !! om_key (hp_meta p)) →
    ∃ s' p', bk_update_proxy s (hp_namespace p) p = (s', inr p') ∧ same_content p' p ∧
      sy_proxies s' = <[om_key (hp_meta p) := p']> (sy_proxies s);
  sy_delete s ns text sel : Parse text = Ret sel →
    ∃ s', bk_delete_proxies s ns text = (s', inr ()) ∧
      sy_proxies s' = filter (λ kp, ¬ (kp.1.1 = ns ∧ Matches sel (hp_labels kp.2) = true)) (sy_proxies s);
  sy_track s ref ing : ∃ s', bk_track s ref ing = (s', inr ()) ∧
    sy_proxies s' = sy_proxies s ∧ ∀ ns name, bk_get_service s' ns name = bk_get_service s ns name
}.

(** ** One proxy *)

(** The proxies of [ns] that the labels of [p] find. *)
Definition found_by (m : proxy_store) (ns : string) (p found : HTTPProxy) : Prop :=
  ∃ name, m !! (ns, name) = Some found ∧ match_labels p ⊆ hp_labels found.

(** The store can take [p]: at most one proxy is found for it, and a proxy that
    already has its name is one of those found. *)
Definition admits (m : proxy_store) (ns : string) (p : HTTPProxy) : Prop :=
  (∀ q1 q2, found_by m ns p q1 → found_by m ns p q2 → q1 = q2) ∧
  (∀ q, m !! (ns, hp_name p) = Some q → found_by m ns p q).

(** The store has [p], up to date, and nothing else is found for it. *)
Definition settled (m : proxy_store) (ns : string) (p : HTTPProxy) : Prop :=
  ∃ found, found_by m ns p found ∧ up_to_date found p ∧ ∀ q, found_by m ns p q → q = found.

(** Two wanted proxies that do not get in each other's way. *)
Definition apart (p q : HTTPProxy) : Prop :=
  hp_name p ≠ hp_name q ∧ match_labels p ≠ match_labels q.

Lemma apart_sym p q : apart p q → apart q p.
Proof. intros []. by split; apply not_eq_sym. Qed.

(** Any two are the same proxy or apart. *)
Definition separate (W : list HTTPProxy) : Prop := ∀ p q, p ∈ W → q ∈ W → p = q ∨ apart p q.

Lemma separate_singleton p : separate [p].
Proof. intros q r ->%list_elem_of_singleton ->%list_elem_of_singleton. by left. Qed.

Lemma separate_cons p W : separate (p :: W) → separate W.
Proof. intros Hs q r Hq Hr. by apply Hs; right. Qed.

(** The labels by which a proxy is looked up are among its own. *)
Definition self_found (p : HTTPProxy) : Prop := match_labels p ⊆ hp_labels p.

Lemma match_labels_lookup p k :
  match_labels p !! k =
    if String.eqb k ParentKey then Some (map_get (hp_labels p) ParentKey)
    else if String.eqb k DomainHashKey then Some (map_get (hp_labels p) DomainHashKey)
    else if String.eqb k ClassKey then Some (map_get (hp_labels p) ClassKey)
    else None.
Proof.
  unfold match_labels. destruct (String.eqb_spec k ParentKey) as [->|H1]; [by rewrite lookup_insert_eq|].
  rewrite lookup_insert_ne by done.
  destruct (String.eqb_spec k DomainHashKey) as [->|H2]; [by rewrite lookup_insert_eq|].
  rewrite lookup_insert_ne by done.
  destruct (String.eqb_spec k ClassKey) as [->|H3]; [by rewrite lookup_singleton_eq|].
  by rewrite lookup_singleton_ne.
Qed.

Lemma match_labels_found p (ls : gmap string string) :
  match_labels p ⊆ ls ↔ ∀ k, k ∈ [ParentKey; DomainHashKey; ClassKey] →
    ls !! k = Some (map_get (hp_labels p) k).
Proof.
  rewrite map_subseteq_spec. split.
  - intros Hs k Hk. apply Hs. rewrite match_labels_lookup.
    repeat (apply elem_of_cons in Hk as [->|Hk]; [done|]). by apply elem_of_nil in Hk.
  - intros Hs k v. rewrite match_labels_lookup.
    destruct (String.eqb_spec k ParentKey) as [->|]; [intros [= <-]; apply Hs; set_solver|].
    destruct (String.eqb_spec k DomainHashKey) as [->|]; [intros [= <-]; apply Hs; set_solver|].
    destruct (String.eqb_spec k ClassKey) as [->|]; [intros [= <-]; apply Hs; set_solver|done].
Qed.

(** Labels found for two wanted proxies make their lookup labels equal. *)
Lemma match_labels_eq p q (ls : gmap string string) :
  match_labels p ⊆ ls → match_labels q ⊆ ls → match_labels p = match_labels q.
Proof.
  rewrite !match_labels_found. intros Hp Hq. apply map_eq. intros k.
  rewrite !match_labels_lookup.
  assert (∀ k, k ∈ [ParentKey; DomainHashKey; ClassKey] →
    map_get (hp_labels p) k = map_get (hp_labels q) k) as Heq.
  { intros k' Hk. specialize (Hp k' Hk). specialize (Hq k' Hk). congruence. }
  by rewrite !Heq by set_solver.
Qed.

Lemma match_labels_proper p q : hp_labels p = hp_labels q → match_labels p = match_labels q.
Proof. unfold match_labels. by intros ->. Qed.

Lemma updated_proxy_content found p :
  hp_name (updated_proxy found p) = hp_name found ∧
  hp_namespace (updated_proxy found p) = hp_namespace found ∧ up_to_date (updated_proxy found p) p.
Proof. done. Qed.

Lemma up_to_date_unchanged found p : up_to_date found p → found = updated_proxy found p.
Proof.
  unfold up_to_date, updated_proxy, hp_labels, hp_annotations. destruct found as [[] ? ?]. simpl.
  intros (-> & -> & ->). done.
Qed.

(** ** Writing one proxy into the store *)

(** [p] is settled, and wanted proxies apart from it are as they were. *)
Definition effect (m m' : proxy_store) (ns : string) (p : HTTPProxy) : Prop :=
  settled m' ns p ∧
  ∀ q, apart p q → (settled m ns q → settled m' ns q) ∧ (admits m ns q → admits m' ns q).

Section Put.
Context (m : proxy_store) (ns n : string) (p p' : HTTPProxy).
Hypothesis Hkeys : ∀ k q, m !! k = Some q → om_key (hp_meta q) = k.
Hypothesis Hself : self_found p.
Hypothesis Hdate : up_to_date p' p.
(** The slot is free, or holds what was found for [p]; nothing else was found. *)
Hypothesis Hslot : ∀ q, m !! (ns, n) = Some q → match_labels p ⊆ hp_labels q.
Hypothesis Honly : ∀ q, found_by m ns p q → m !! (ns, n) = Some q.

Let m' : proxy_store := <[(ns, n) := p']> m.

Lemma put_labels : match_labels p ⊆ hp_labels p'.
Proof. destruct Hdate as [-> _]. apply Hself. Qed.

Lemma put_found_other q r :
  match_labels p ≠ match_labels q → found_by m' ns q r ↔ found_by m ns q r.
Proof.
  intros Hne. unfold found_by, m'. split; intros (name & Hl & Hs).
  - destruct (decide (name = n)) as [->|Hn].
    + rewrite lookup_insert_eq in Hl. injection Hl as <-. destruct Hne.
      by apply (match_labels_eq _ _ (hp_labels p')); [apply put_labels|].
    + rewrite lookup_insert_ne in Hl by congruence. by exists name.
  - exists name. split; [|done]. rewrite lookup_insert_ne; [done|]. intros [= <-]. destruct Hne.
    by apply (match_labels_eq _ _ (hp_labels r)); [apply Hslot|].
Qed.

Lemma put_settled : settled m' ns p.
Proof.
  exists p'. split_and!; [|done|].
  - exists n. unfold m'. rewrite lookup_insert_eq. split; [done|]. apply put_labels.
  - intros q (name & Hl & Hs). unfold m' in Hl. destruct (decide (name = n)) as [->|Hn].
    + rewrite lookup_insert_eq in Hl. by injection Hl.
    + rewrite lookup_insert_ne in Hl by congruence.
      assert (m !! (ns, n) = Some q) as Hq by (apply Honly; by exists name).
      apply Hkeys in Hl, Hq. congruence.
Qed.

Lemma put_settled_other q : match_labels p ≠ match_labels q → settled m ns q → settled m' ns q.
Proof.
  intros Hne (found & Hf & Hd & Hall). exists found. split_and!; [by apply put_found_other|done|].
  intros r. rewrite put_found_other by done. apply Hall.
Qed.

Lemma put_admits_other q :
  match_labels p ≠ match_labels q → (m !! (ns, n) = None → n ≠ hp_name q) →
  admits m ns q → admits m' ns q.
Proof.
  intros Hne Hname [Hu Hc]. split.
  - intros q1 q2. rewrite !put_found_other by done. apply Hu.
  - intros r Hr. rewrite put_found_other by done. apply Hc. unfold m' in Hr.
    rewrite lookup_insert_ne in Hr; [done|]. intros [= Hn].
    destruct (m !! (ns, n)) as [q0|] eqn:E; [|by apply Hname].
    destruct Hne. rewrite Hn in E. destruct (Hc q0 E) as (name & Hl & Hs).
    apply (match_labels_eq _ _ (hp_labels q0)); [apply Hslot; congruence|done].
Qed.

Lemma put_effect : (m !! (ns, n) = None → n = hp_name p) → effect m m' ns p.
Proof.
  intros Hname. split; [apply put_settled|]. intros q [Hn Hne].
  split; [by apply put_settled_other|]. apply put_admits_other; [done|].
  intros E. by rewrite (Hname E).
Qed.
End Put.

(** ** One proxy, through the backend *)

Section Converge.
Context {S : Type} `{Synced S} `{MapOrder}.
Context (env : Env) (cfg : Config) (clock : nat → Z).
Implicit Types (ing : Ingress) (s : run_state S).

Definition store s : proxy_store := sy_proxies (rs_backend s).

Lemma list_found s ns p :
  ∃ l, bk_list_proxies (rs_backend s) ns (SelectorFromSet (match_labels p)) = inr l ∧
    ∀ q, q ∈ l ↔ found_by (store s) ns p q.
Proof.
  destruct (sy_list (rs_backend s) ns (SelectorFromSet (match_labels p))) as (l & Hl & Hin).
  exists l. split; [done|]. intros q. rewrite Hin. unfold found_by, store.
  by setoid_rewrite SelectorFromSet_Matches.
Qed.

(** Reconciling a proxy that the store admits settles it, without an error, and
    disturbs no proxy apart from it. *)
Lemma reconcile_proxy_settles ing p s :
  hp_namespace p = ing_namespace ing → self_found p → admits (store s) (ing_namespace ing) p →
  wp (reconcile_proxy ing p) s (λ s' _ r,
    r = Ret () ∧ effect (store s) (store s') (ing_namespace ing) p).
Proof.
  intros Hns Hself [Huniq Hname]. unfold reconcile_proxy. wp_step.
  destruct (list_found s (ing_namespace ing) p) as (l & Hl & Hin). rewrite Hl.
  apply wp_of_outcome; [|done..]. intros matches [= <-]. destruct l as [|found l].
  - assert (∀ q, ¬ found_by (store s) (ing_namespace ing) p q) as Hno.
    { intros q Hq. apply Hin in Hq. by apply elem_of_nil in Hq. }
    assert (store s !! (ing_namespace ing, hp_name p) = None) as Hfree.
    { apply eq_None_not_Some. intros [q E]. apply (Hno q), (Hname q E). }
    assert (om_key (hp_meta p) = (ing_namespace ing, hp_name p)) as Hkey by by rewrite <-Hns.
    destruct (sy_create (rs_backend s) p) as (s1 & p1 & Hcr & (_ & _ & Hsame) & Hst);
      [by rewrite Hkey|].
    apply wp_bind. unfold wp at 1, call. rewrite Hcr. simpl. apply wp_ret. split; [done|].
    unfold store at 2. simpl. rewrite Hst, Hkey.
    fold (store s). apply put_effect; [apply sy_keys|exact Hself|exact Hsame| | |reflexivity].
    + intros q Hq. rewrite Hfree in Hq. discriminate.
    + intros q Hq. by destruct (Hno q).
  - assert (found_by (store s) (ing_namespace ing) p found) as Hf by (apply Hin; left).
    case_decide as Hupd.
    + apply wp_ret. split; [done|]. split; [|done]. exists found. split_and!; [done| |].
      * rewrite Hupd. done.
      * intros q Hq. by apply Huniq.
    + destruct Hf as (name & Hlook & Hs).
      pose proof (sy_keys _ _ _ Hlook) as Hk.
      destruct (sy_update (rs_backend s) (updated_proxy found p)) as (s1 & p1 & Hu & (_ & _ & Hsame) & Hst).
      { change (om_key (hp_meta (updated_proxy found p))) with (om_key (hp_meta found)).
        rewrite Hk. by eexists. }
      assert (hp_namespace (updated_proxy found p) = hp_namespace p) as Hnsu
        by (rewrite Hns; by injection Hk).
      rewrite Hnsu in Hu. apply wp_bind. unfold wp at 1, call. rewrite Hu. simpl. apply wp_ret.
      split; [done|]. unfold store at 2. simpl. rewrite Hst.
      change (om_key (hp_meta (updated_proxy found p))) with (om_key (hp_meta found)). rewrite Hk.
      fold (store s).
      apply put_effect; [apply sy_keys|exact Hself|exact Hsame| | |rewrite Hlook; discriminate].
      * intros q Hq. rewrite Hlook in Hq. by injection Hq as <-.
      * intros q Hq. assert (q = found) as ->; [|done].
        apply Huniq; [done|]. by exists name.
Qed.

(** A settled proxy is left alone. *)
Lemma reconcile_proxy_unchanged ing p s :
  settled (store s) (ing_namespace ing) p → reconcile_proxy ing p s = (s, [], Ret ()).
Proof.
  intros (found & Hf & Hd & Hall). unfold reconcile_proxy, mbind, run_bind, look, of_outcome.
  destruct (list_found s (ing_namespace ing) p) as (l & -> & Hin). simpl.
  destruct l as [|q l]; [by apply Hin, elem_of_nil in Hf|].
  assert (q = found) as -> by (apply Hall, Hin; left).
  rewrite decide_True by by apply up_to_date_unchanged. done.
Qed.

(** All of them: what is separate settles together, a proxy wanted twice included. *)
Lemma reconcile_proxies_settle ing ps s :
  Forall (λ p, hp_namespace p = ing_namespace ing ∧ self_found p ∧
                 (admits (store s) (ing_namespace ing) p ∨ settled (store s) (ing_namespace ing) p)) ps →
  separate ps →
  wp (for_each ps (reconcile_proxy ing)) s (λ s' _ r, r = Ret () ∧
    Forall (settled (store s') (ing_namespace ing)) ps ∧
    ∀ q, Forall (λ p, p = q ∨ apart p q) ps → settled (store s) (ing_namespace ing) q →
      settled (store s') (ing_namespace ing) q).
Proof.
  revert s. induction ps as [|p ps IH]; intros s Hall Hsep; simpl.
  { apply wp_ret. split_and!; [done|constructor|done]. }
  apply Forall_cons in Hall as [(Hns & Hself & Hp) Hall]. pose proof (separate_cons _ _ Hsep) as Hps.
  assert (Forall (λ q, q = p ∨ apart q p) ps) as Hpq
    by (apply Forall_forall; intros q Hq; apply Hsep; [by right|by left]).
  assert (wp (reconcile_proxy ing p) s (λ s1 _ r, r = Ret () ∧ effect (store s) (store s1) (ing_namespace ing) p)) as Hone.
  { destruct Hp as [Hadm|Hset]; [by apply reconcile_proxy_settles|].
    unfold wp. rewrite reconcile_proxy_unchanged by done. by split. }
  apply wp_bind. eapply wp_mono; [exact Hone|]. intros s1 l1 r (-> & Hset & Heff). cbn [after].
  eapply wp_mono; [apply IH; [|done]|].
  - rewrite Forall_forall in Hall, Hpq |- *. intros q Hq. destruct (Hall q Hq) as (? & ? & Hq0). split_and!; [done..|].
    destruct (Hpq q Hq) as [->|Ha%apart_sym]; [by right|]. destruct (Heff q Ha) as [Hst Had].
    destruct Hq0; [left; by apply Had|right; by apply Hst].
  - intros s2 l2 r (-> & Hset2 & Hkeep). split_and!; [done|constructor; [by apply Hkeep|done]|].
    intros q [[<-|Hq1] Hq2]%Forall_cons Hs; apply Hkeep; [done..|done|]. by apply Heff.
Qed.

Lemma reconcile_proxies_unchanged ing ps s :
  Forall (settled (store s) (ing_namespace ing)) ps →
  for_each ps (reconcile_proxy ing) s = (s, [], Ret ()).
Proof.
  induction 1 as [|p ps Hp Hps IH]; simpl; [done|]. unfold mbind, run_bind.
  by rewrite reconcile_proxy_unchanged, IH.
Qed.

(** ** Services *)

(** The protocol map of the Services named, as the backend [b] has them. *)
Definition protocols_of (b : S) (ns : string) (names : list string) (stp : gmap string string)
    : gmap string string :=
  foldl (λ stp name,
    match bk_get_service b ns name with
    | inr svc =>
        match port_protocol (internal_tls cfg) (sv_ports svc) with
        | Some proto => <[name := proto]> stp
        | None => stp
        end
    | inl _ => stp
    end) stp names.

Lemma protocols_of_ext b1 b2 ns names stp :
  (∀ name, bk_get_service b1 ns name = bk_get_service b2 ns name) →
  protocols_of b1 ns names stp = protocols_of b2 ns names stp.
Proof. intros Heq. apply foldl_ext'. intros c x. by rewrite Heq. Qed.

Lemma services_found ing names stp s :
  Forall (λ name, ∃ svc, bk_get_service (rs_backend s) (ing_namespace ing) name = inr svc) names →
  wp (for_fold names stp (service_step cfg ing)) s (λ s' l r,
    r = Ret (protocols_of (rs_backend s) (ing_namespace ing) names stp) ∧ store s' = store s ∧
    in_phase 1 l).
Proof.
  revert stp s. induction names as [|n names IH]; intros stp s Hall; simpl.
  { apply wp_ret. split_and!; [done..|constructor]. }
  apply Forall_cons in Hall as [[svc Hsvc] Hall]. apply wp_bind. unfold service_step. wp_step.
  apply wp_bind. unfold wp at 1, call.
  destruct (sy_track (rs_backend s) (service_ref ing n) (with_status (rs_status s).1 ing))
    as (b & Ht & Hst & Hsv). unfold service_ref in Ht. rewrite Ht. simpl.
  wp_step. simpl. rewrite Hsv, Hsvc. apply wp_of_outcome; [|done..]. intros svc' [= <-].
  apply wp_ret. simpl. eapply wp_mono; [apply IH|].
  - eapply Forall_impl; [exact Hall|]. simpl. intros name. by rewrite Hsv.
  - simpl. intros s2 l r (-> & Hs2 & Hl). split_and!.
    + f_equal. by apply protocols_of_ext.
    + by rewrite Hs2.
    + by constructor.
Qed.

(** The proxies wanted for [ing], given the Services the backend has. *)
Definition wanted (b : S) ing : list HTTPProxy :=
  proxies_of env cfg
    (protocols_of b (ing_namespace ing) (sets_List (dom (foldl add_reference ∅ (references ing)))) ∅) ing.

Definition services_present (b : S) ing : Prop :=
  ∀ r, r ∈ references ing → ∃ svc, bk_get_service b (ing_namespace ing) (rf_name r) = inr svc.

Lemma service_protocols_wp ing s :
  has_http ing → services_present (rs_backend s) ing →
  wp (service_protocols cfg ing) s (λ s' l r,
    r = Ret (protocols_of (rs_backend s) (ing_namespace ing)
               (sets_List (dom (foldl add_reference ∅ (references ing)))) ∅) ∧
    store s' = store s ∧ in_phase 1 l).
Proof.
  intros Hh Hp. unfold service_protocols. rewrite ServiceNames_ret by done.
  apply wp_of_outcome; [|done..]. intros info [= <-]. apply services_found. apply Forall_forall.
  intros name. rewrite elem_of_sets_List, elem_of_dom, add_references_lookup. unfold uses_of.
  intros [si Hsi]. destruct (filter _ (references ing)) as [|r l] eqn:E; [done|].
  assert (r ∈ filter (λ r, rf_name r = name) (references ing)) as Hr by (rewrite E; left).
  apply list_elem_of_filter in Hr as [<- Hr]. by apply Hp.
Qed.

(** ** Clean-up *)

(** No proxy of another generation of [ing] is left. *)
Definition no_leftovers (m : proxy_store) ing : Prop :=
  ∀ name q, m !! (ing_namespace ing, name) = Some q → hp_labels q !! ParentKey = Some (ing_name ing) →
    hp_labels q !! GenerationKey = Some (FormatInt (ing_generation ing)).

(** [p] carries the labels of the current generation. *)
Definition current ing (p : HTTPProxy) : Prop :=
  hp_labels p !! GenerationKey = Some (FormatInt (ing_generation ing)).

Lemma filter_settled (P : (string * string) * HTTPProxy → Prop) `{∀ x, Decision (P x)} m ns p :
  (∀ name q, m !! (ns, name) = Some q → up_to_date q p → P ((ns, name), q)) →
  settled m ns p → settled (filter P m) ns p.
Proof.
  intros HP (found & (name & Hl & Hs) & Hd & Hall). exists found. split_and!; [|done|].
  - exists name. split; [|done]. apply map_lookup_filter_Some. split; [done|]. by apply HP.
  - intros q (name' & Hq & Hqs). apply map_lookup_filter_Some in Hq as [Hq _].
    apply Hall. by exists name'.
Qed.

Lemma cleanup_wp ing s :
  IsLabelValue (ing_name ing) = [] → (0 ≤ ing_generation ing < 2 ^ 63)%Z →
  wp (cleanup ing) s (λ s' l r,
    r = Ret () ∧ no_leftovers (store s') ing ∧ (no_leftovers (store s) ing → l = [] ∧ s' = s) ∧
    ∀ p, current ing p → settled (store s) (ing_namespace ing) p →
      settled (store s') (ing_namespace ing) p).
Proof.
  intros Hn Hg. unfold cleanup. rewrite Parse_old_generation by done.
  apply wp_of_outcome; [|done..]. intros sel [= <-]. wp_step.
  destruct (sy_list (rs_backend s) (ing_namespace ing)
    (old_generation_selector (ing_name ing) (ing_generation ing))) as (l & -> & Hin).
  apply wp_of_outcome; [|done..]. intros left [= <-].
  assert (no_leftovers (store s) ing ↔ l = []) as Hleft.
  { split.
    - intros Hno. destruct l as [|q l]; [done|]. destruct (proj1 (Hin q)) as (name & Hq & Hm); [left|].
      apply old_generation_Matches in Hm as [Hp Hgen]. by destruct Hgen; eapply Hno.
    - intros -> name q Hq Hp. destruct (decide (hp_labels q !! GenerationKey =
        Some (FormatInt (ing_generation ing)))) as [|Hgen]; [done|].
      assert (q ∈ []) as Hbad; [|by apply elem_of_nil in Hbad]. apply Hin. exists name.
      split; [done|]. by apply old_generation_Matches. }
  destruct l as [|q l].
  { apply wp_ret. split_and!; [done|by apply Hleft|done|done]. }
  destruct (sy_delete (rs_backend s) (ing_namespace ing) _ _ (Parse_delete_text _ _ Hn Hg))
    as (b & Hdel & Hst).
  unfold wp, call. rewrite Hdel. unfold store at 1 4. simpl. rewrite Hst. split_and!.
  - done.
  - intros name p Hp Hpar. apply map_lookup_filter_Some in Hp as [Hp Hno].
    destruct (decide (hp_labels p !! GenerationKey =
      Some (FormatInt (ing_generation ing)))) as [|Hgen]; [done|]. destruct Hno. simpl.
    split; [done|]. by apply old_generation_Matches.
  - intros Hno. apply Hleft in Hno. done.
  - intros p Hcur. apply filter_settled. intros name found _ [Hlab _] [_ Hm]. simpl in Hm.
    apply old_generation_Matches in Hm as [_ Hgen]. rewrite Hlab in Hgen. done.
Qed.

Lemma proxies_of_facts stp ing p :
  p ∈ proxies_of env cfg stp ing →
  hp_namespace p = ing_namespace ing ∧ self_found p ∧ current ing p.
Proof.
  rewrite elem_of_proxies_of. intros (rule & oh & h & _ & _ & _ & ->).
  unfold current, self_found. rewrite match_labels_found, host_proxy_labels. split_and!; [done| |].
  - intros k Hk. unfold map_get, proxy_labels.
    repeat (apply elem_of_cons in Hk as [->|Hk]; [by simpl_map|]). by apply elem_of_nil in Hk.
  - unfold proxy_labels. by simpl_map.
Qed.

Lemma wanted_facts b ing p :
  p ∈ wanted b ing →
  hp_namespace p = ing_namespace ing ∧ self_found p ∧ current ing p.
Proof. apply proxies_of_facts. Qed.

(** When wanted proxies are separate: a host has one rule per class, and neither the names nor
    the digests of the hosts collide.  A rule may list a host under several names, as the
    rules of cluster-local hosts do; the proxies for the host it expands to are the same. *)
Definition claims ing (rule : IngressRule) (oh h : string) : Prop :=
  rule ∈ is_rules (ing_spec ing) ∧ oh ∈ ru_hosts rule ∧ h ∈ ExpandedHosts env {[oh]}.

Record collision_free ing : Prop := {
  cf_rule rule oh rule' oh' h : claims ing rule oh h → claims ing rule' oh' h →
    host_class env cfg rule oh = host_class env cfg rule' oh' → rule = rule';
  cf_name rule oh h rule' oh' h' : claims ing rule oh h → claims ing rule' oh' h' →
    ChildName.ChildName (ing_name ing +:+ "-" +:+ host_class env cfg rule oh +:+ "-") h =
      ChildName.ChildName (ing_name ing +:+ "-" +:+ host_class env cfg rule' oh' +:+ "-") h' →
    host_class env cfg rule oh = host_class env cfg rule' oh' ∧ h = h';
  cf_digest rule oh h rule' oh' h' : claims ing rule oh h → claims ing rule' oh' h' →
    sha1_hex h = sha1_hex h' → h = h'
}.

Lemma host_match_digest ing entries rule routes oh h :
  match_labels (make_host_proxy env cfg ing entries rule routes oh h) !! DomainHashKey = Some (sha1_hex h).
Proof.
  rewrite match_labels_lookup, host_proxy_labels. unfold map_get, proxy_labels. generalize (sha1_hex h). intros d.
  by simpl_map.
Qed.
Lemma host_match_class ing entries rule routes oh h :
  match_labels (make_host_proxy env cfg ing entries rule routes oh h) !! ClassKey = Some (host_class env cfg rule oh).
Proof.
  rewrite match_labels_lookup, host_proxy_labels. unfold map_get, proxy_labels. generalize (sha1_hex h). intros d.
  by simpl_map.
Qed.

Lemma proxies_of_separate stp ing : collision_free ing → separate (proxies_of env cfg stp ing).
Proof.
  intros [Hr Hn Hd] p q. rewrite !elem_of_proxies_of.
  intros (rule & oh & h & Hru & Hoh & Hh & ->) (rule' & oh' & h' & Hru' & Hoh' & Hh' & ->).
  assert (claims ing rule oh h) as Hc by done. assert (claims ing rule' oh' h') as Hc' by done.
  destruct (decide (host_class env cfg rule oh = host_class env cfg rule' oh' ∧ h = h')) as [[Hcl ->]|Hne].
  - left. assert (rule = rule') as -> by (by eapply Hr). by apply host_proxy_same.
  - right. split; [intros E; by apply Hne, (Hn _ _ _ _ _ _ Hc Hc')|]. intros E. apply Hne.
    pose proof (f_equal (lookup DomainHashKey) E) as Ed. pose proof (f_equal (lookup ClassKey) E) as Ec.
    rewrite !host_match_digest in Ed. rewrite !host_match_class in Ec. injection Ed as Ed. injection Ec as Ec.
    split; [exact Ec|exact (Hd _ _ _ _ _ _ Hc Hc' Ed)].
Qed.

(** What one pass over the proxies needs and gives, in one place. *)
Lemma program_proxies_wp ing s (Q : run_state S → Prop) (L : list action → Prop) :
  env_ok env cfg → has_http ing → services_present (rs_backend s) ing →
  (∀ s1 l1, store s1 = store s → in_phase 1 l1 →
    wp (for_each (wanted (rs_backend s) ing) (reconcile_proxy ing)) s1 (λ s2 l2 r, r = Ret () ∧
      wp (cleanup ing) s2 (λ s3 l3 r, r = Ret () ∧ Q s3 ∧ L (l1 ++ l2 ++ l3)))) →
  ∃ s' l, program_proxies env cfg ing s = (s', l, Ret ()) ∧ Q s' ∧ L l.
Proof.
  intros Hok Hh Hsvc Hbody.
  assert (wp (program_proxies env cfg ing) s (λ s' l r, r = Ret () ∧ Q s' ∧ L l)) as Hwp.
  { unfold program_proxies. apply wp_bind. eapply wp_mono; [by apply service_protocols_wp|].
    intros s1 l1 r (-> & Hs1 & Hl1). cbn [after]. rewrite MakeHTTPProxies_ret by done.
    apply wp_of_outcome; [|done..]. intros ps [= <-]. apply wp_bind.
    eapply wp_mono; [apply (Hbody s1 l1); done|]. intros s2 l2 r [-> Hc]. cbn [after].
    eapply wp_mono; [exact Hc|]. intros s3 l3 r Hq. exact Hq. }
  unfold wp in Hwp. destruct (program_proxies env cfg ing s) as [[s' l] r].
  destruct Hwp as (-> & HQ & HL). by exists s', l.
Qed.

(** Writing the wanted proxies and cleaning up, from a store that admits them. *)
Lemma converging_pass ing s s1 :
  IsLabelValue (ing_name ing) = [] → (0 ≤ ing_generation ing < 2 ^ 63)%Z →
  separate (wanted (rs_backend s) ing) →
  Forall (admits (store s) (ing_namespace ing)) (wanted (rs_backend s) ing) → store s1 = store s →
  wp (for_each (wanted (rs_backend s) ing) (reconcile_proxy ing)) s1 (λ s2 _ r, r = Ret () ∧
    wp (cleanup ing) s2 (λ s3 _ r, r = Ret () ∧
      Forall (settled (store s3) (ing_namespace ing)) (wanted (rs_backend s) ing) ∧
      no_leftovers (store s3) ing)).
Proof.
  intros Hn Hg Hap Hadm Hs1. eapply wp_mono; [apply reconcile_proxies_settle; [|done]|].
  - rewrite Forall_forall in Hadm |- *. intros p Hp. destruct (wanted_facts _ _ _ Hp) as (? & ? & _).
    rewrite Hs1. split_and!; [done..|]. left. by apply Hadm.
  - intros s2 l2 r (-> & Hset & _). split; [done|]. eapply wp_mono; [by apply cleanup_wp|].
    intros s3 l3 r (-> & Hno & _ & Hkeep). split_and!; [done| |done].
    rewrite Forall_forall in Hset |- *. intros p Hp. apply Hkeep; [|by apply Hset].
    by apply wanted_facts in Hp as (_ & _ & ?).
Qed.

(** The same where they are settled already: nothing is written. *)
Lemma settled_pass ing s s1 :
  IsLabelValue (ing_name ing) = [] → (0 ≤ ing_generation ing < 2 ^ 63)%Z →
  Forall (settled (store s) (ing_namespace ing)) (wanted (rs_backend s) ing) →
  no_leftovers (store s) ing → store s1 = store s →
  wp (for_each (wanted (rs_backend s) ing) (reconcile_proxy ing)) s1 (λ s2 l2 r, r = Ret () ∧
    wp (cleanup ing) s2 (λ s3 l3 r, r = Ret () ∧ s3 = s1 ∧ l2 = [] ∧ l3 = [])).
Proof.
  intros Hn Hg Hset Hno Hs1. unfold wp at 1. rewrite reconcile_proxies_unchanged by by rewrite Hs1.
  split; [done|]. eapply wp_mono; [by apply cleanup_wp|]. intros s3 l3 r (-> & _ & Hsame & _).
  rewrite <-Hs1 in Hno. destruct (Hsame Hno) as [-> ->]. done.
Qed.

(** C3: against an API server in sync, one pass over the proxies of an Ingress returns
    without error, and afterwards every wanted proxy is there exactly once and up to date,
    and none of an older generation is left, under these conditions: the Ingress is one that
    proxies can be made for (every rule has an HTTP block, the name is a label value, the
    generation a non-negative int64), the system namespace is known if internal TLS needs it,
    its Services exist, any two wanted proxies are the same or differ both in name and in
    lookup labels (see [proxies_of_separate]), and the store has for each at most one proxy
    with its lookup labels and no other one with its name. *)
Theorem program_proxies_converges ing s :
  env_ok env cfg → has_http ing → services_present (rs_backend s) ing →
  IsLabelValue (ing_name ing) = [] → (0 ≤ ing_generation ing < 2 ^ 63)%Z →
  separate (wanted (rs_backend s) ing) →
  Forall (admits (store s) (ing_namespace ing)) (wanted (rs_backend s) ing) →
  ∃ s' l, program_proxies env cfg ing s = (s', l, Ret ()) ∧
    Forall (settled (store s') (ing_namespace ing)) (wanted (rs_backend s) ing) ∧
    no_leftovers (store s') ing.
Proof.
  intros Hok Hh Hsvc Hn Hg Hap Hadm.
  destruct (program_proxies_wp ing s (λ s', Forall (settled (store s') (ing_namespace ing))
    (wanted (rs_backend s) ing) ∧ no_leftovers (store s') ing) (λ _, True))
    as (s' & l & Hrun & [Hset Hno] & _); [done..| |by exists s', l].
  intros s1 l1 Hs1 _. eapply wp_mono; [exact (converging_pass ing s s1 Hn Hg Hap Hadm Hs1)|]. intros s2 l2 r [-> Hc].
  split; [done|]. eapply wp_mono; [exact Hc|]. intros s3 l3 r (-> & ? & ?). split_and!; first [assumption|done].
Qed.

(** Once the proxies are settled, another pass over them writes nothing: it only
    tracks the Services again. *)
Theorem program_proxies_idempotent ing s :
  env_ok env cfg → has_http ing → services_present (rs_backend s) ing →
  IsLabelValue (ing_name ing) = [] → (0 ≤ ing_generation ing < 2 ^ 63)%Z →
  Forall (settled (store s) (ing_namespace ing)) (wanted (rs_backend s) ing) →
  no_leftovers (store s) ing →
  ∃ s' l, program_proxies env cfg ing s = (s', l, Ret ()) ∧ store s' = store s ∧ in_phase 1 l.
Proof.
  intros Hok Hh Hsvc Hn Hg Hset Hno.
  apply (program_proxies_wp ing s (λ s', store s' = store s) (in_phase 1)); [done..|].
  intros s1 l1 Hs1 Hl1. eapply wp_mono; [exact (settled_pass ing s s1 Hn Hg Hset Hno Hs1)|]. intros s2 l2 r [-> Hc].
  split; [done|]. eapply wp_mono; [exact Hc|]. intros s3 l3 r (-> & -> & -> & ->). rewrite app_nil_r. split_and!; first [assumption|done].
Qed.
End Converge.

(** ** An in-memory API server *)

Record cluster := {
  cl_ingresses : gmap (string * string) Ingress;
  cl_proxies : gmap (string * string) HTTPProxy;
  cl_services : gmap (string * string) Service;
  cl_tracked : list Reference;
  cl_probed : bool      (* what the status manager answers *)
}.

Definition not_found (what name : string) : goerr :=
  APIStatus StatusReasonNotFound (what +:+ " " +:+ name +:+ " not found").
Definition already_exists (what name : string) : goerr :=
  APIStatus StatusReasonAlreadyExists (what +:+ " " +:+ name +:+ " already exists").

Definition with_proxies (m : gmap (string * string) HTTPProxy) (c : cluster) : cluster :=
  {| cl_ingresses := cl_ingresses c; cl_proxies := m; cl_services := cl_services c;
     cl_tracked := cl_tracked c; cl_probed := cl_probed c |}.
Definition with_ingresses (m : gmap (string * string) Ingress) (c : cluster) : cluster :=
  {| cl_ingresses := m; cl_proxies := cl_proxies c; cl_services := cl_services c;
     cl_tracked := cl_tracked c; cl_probed := cl_probed c |}.

(** Objects are filed under their own key. *)
Definition filed (m : gmap (string * string) HTTPProxy) : gmap (string * string) HTTPProxy :=
  filter (λ kp, om_key (hp_meta kp.2) = kp.1) m.

#[export] Instance cluster_backend : Backend cluster := {|
  bk_list_proxies c ns sel :=
    inr ((map_to_list (filter (λ kp, kp.1.1 = ns ∧ Matches sel (hp_labels kp.2) = true)
            (filed (cl_proxies c)))).*2);
  bk_get_ingress c ns name :=
    match cl_ingresses c !! (ns, name) with Some i => inr i | None => inl (not_found "ingress" name) end;
  bk_get_service c ns name :=
    match cl_services c !! (ns, name) with Some v => inr v | None => inl (not_found "service" name) end;
  bk_create_ingress c ns i :=
    match cl_ingresses c !! (ns, ing_name i) with
    | Some _ => (c, inl (already_exists "ingress" (ing_name i)))
    | None => (with_ingresses (<[(ns, ing_name i) := i]> (cl_ingresses c)) c, inr i)
    end;
  bk_update_ingress c ns i :=
    match cl_ingresses c !! (ns, ing_name i) with
    | Some _ => (with_ingresses (<[(ns, ing_name i) := i]> (cl_ingresses c)) c, inr i)
    | None => (c, inl (not_found "ingress" (ing_name i)))
    end;
  bk_delete_ingress c ns name :=
    match cl_ingresses c !! (ns, name) with
    | Some _ => (with_ingresses (delete (ns, name) (cl_ingresses c)) c, inr ())
    | None => (c, inl (not_found "ingress" name))
    end;
  bk_create_proxy c ns p :=
    match filed (cl_proxies c) !! (ns, hp_name p) with
    | Some _ => (c, inl (already_exists "httpproxy" (hp_name p)))
    | None => (with_proxies (<[(ns, hp_name p) := p]> (filed (cl_proxies c))) c, inr p)
    end;
  bk_update_proxy c ns p :=
    match filed (cl_proxies c) !! (ns, hp_name p) with
    | Some _ => (with_proxies (<[(ns, hp_name p) := p]> (filed (cl_proxies c))) c, inr p)
    | None => (c, inl (not_found "httpproxy" (hp_name p)))
    end;
  bk_delete_proxies c ns text :=
    match Parse text with
    | Ret sel =>
        (with_proxies (filter (λ kp, ¬ (kp.1.1 = ns ∧ Matches sel (hp_labels kp.2) = true))
                         (filed (cl_proxies c))) c, inr ())
    | _ => (c, inl (Errorf "bad selector %q" [text]))
    end;
  bk_track c ref _ :=
    ({| cl_ingresses := cl_ingresses c; cl_proxies := cl_proxies c; cl_services := cl_services c;
        cl_tracked := ref :: cl_tracked c; cl_probed := cl_probed c |}, inr ());
  bk_probe c _ := (c, inr (cl_probed c))
|}.

Lemma filed_insert m p :
  filed (<[om_key (hp_meta p) := p]> (filed m)) = <[om_key (hp_meta p) := p]> (filed m).
Proof.
  apply map_filter_id. intros k q Hq. apply lookup_insert_Some in Hq as [[<- <-]|[_ Hq]]; [done|].
  by apply map_lookup_filter_Some in Hq as [_ ?].
Qed.

Lemma filed_filter P `{∀ x, Decision (P x)} m : filed (filter P (filed m)) = filter P (filed m).
Proof.
  apply map_filter_id. intros k q Hq. apply map_lookup_filter_Some in Hq as [Hq _].
  by apply map_lookup_filter_Some in Hq as [_ ?].
Qed.

#[export] Instance cluster_synced : Synced cluster.
Proof.
  refine {| sy_proxies c := filed (cl_proxies c) |}.
  - intros c k p Hp. by apply map_lookup_filter_Some in Hp as [_ ?].
  - intros c ns sel. eexists. split; [done|]. intros p. rewrite list_elem_of_fmap. split.
    + intros ([[ns' name] q] & -> & Hin%elem_of_map_to_list).
      apply map_lookup_filter_Some in Hin as [Hl [Hns Hm]]. simpl in *. subst ns'. by exists name.
    + intros (name & Hl & Hm). exists ((ns, name), p). split; [done|].
      apply elem_of_map_to_list, map_lookup_filter_Some. done.
  - intros c p Hp. simpl. change (om_key (hp_meta p)) with (hp_namespace p, hp_name p) in Hp.
    rewrite Hp. do 2 eexists. split; [done|]. split; [done|]. simpl. apply filed_insert.
  - intros c p [q Hq]. simpl. change (om_key (hp_meta p)) with (hp_namespace p, hp_name p) in Hq.
    rewrite Hq. do 2 eexists. split; [done|]. split; [done|]. simpl. apply filed_insert.
  - intros c ns text sel Hp. simpl. rewrite Hp. eexists. split; [done|]. simpl. apply filed_filter.
  - intros c ref ing. simpl. eexists. split; [done|]. done.
Defined.
