(* ===== verification/ProbeTargets.v ===== *)
(** * Probe targets (pkg/reconciler/contour/lister.go)

    [ListProbeTargets]: for each envoy Service of the configured visibilities, the
    pods to probe and the URLs to ask them for.  The Service and Endpoints listers
    are parameters. *)

From S2P Require Import Prelude Meta Ingress NetIngress HTTPProxy Config.

Record ProbeTarget := {
  pt_pod_ips : gset string;
  pt_pod_port : string;
  pt_port : string;
  pt_urls : list (string * string)   (* scheme and host *)
}.
#[export] Instance ProbeTarget_eq_dec : EqDecision ProbeTarget.
Proof. solve_decision. Defined.

(** ** Ports (networking/pkg/k8s) *)

Definition NameForPortNumber (svc : Service) (portNumber : Z) : outcome string :=
  match List.find (λ p, (sv_port p =? portNumber)%Z) (sv_ports svc) with
  | Some p => Ret (sv_port_name p)
  | None => Fail (Errorf "no port with number %d found" [FormatInt portNumber])
  end.

Definition PortNumberForName (sub : EndpointSubset) (portName : string) : outcome Z :=
  match List.find (λ p, String.eqb (ep_port_name p) portName) (es_ports sub) with
  | Some p => Ret (ep_port p)
  | None => Fail (Errorf "no port for name %q found" [portName])
  end.

(** [fmt.Errorf(format + ": %w", ..., err)] around the error of a call. *)
Definition wrap_err {A} (format : string) (args : list string) (m : outcome A) : outcome A :=
  match m with Fail e => Fail (Wrapf format args e) | _ => m end.

Section Lister.
Context `{MapOrder} (env : Env) (cfg : Config).
Context (get_service : string → string → goerr + Service).
Context (get_endpoints : string → string → goerr + Endpoints).

(** Port and scheme of a probe of the Service [key]. *)
Definition port_scheme (ing : Ingress) (key : string) : Z * string :=
  if String.eqb (is_http_option (ing_spec ing)) HTTPOptionRedirected &&
     negb (bool_decide (key ∈ default ∅ (VisibilityKeys (cfg_Contour cfg) !! "ClusterLocal")))
  then (443%Z, "https") else (80%Z, "http").

Definition subset_target (port : Z) (urls : list (string * string)) (namespace name portName : string)
    (sub : EndpointSubset) : outcome ProbeTarget :=
  podPort ← wrap_err "failed to lookup port name %q in endpoints subset for %s/%s: %w"
              [portName; namespace; name] (PortNumberForName sub portName);
  Ret {| pt_pod_ips := list_to_set (es_addresses sub);
         pt_pod_port := FormatInt podPort;
         pt_port := FormatInt port;
         pt_urls := urls |}.

(** The body of the loop over the keys. *)
Definition key_targets (ing : Ingress) (e : string * gset string) : outcome (list ProbeTarget) :=
  let '(key, hosts) := e in
  let '(port, scheme) := port_scheme ing key in
  '(namespace, name) ← wrap_err "failed to parse key: %w" [] (SplitMetaNamespaceKey key);
  service ← wrap_err "failed to get Service: %w" [] (lift (get_service namespace name));
  endpoints ← wrap_err "failed to get Endpoints: %w" [] (lift (get_endpoints namespace name));
  let urls := (λ host, (scheme, host)) <$> range_set hosts in
  portName ← wrap_err "failed to lookup port %d in %s/%s: %w" [FormatInt port; namespace; name]
               (NameForPortNumber service port);
  outcome_mapM (subset_target port urls namespace name portName) (en_subsets endpoints).

Definition ListProbeTargets (ing : Ingress) : outcome (list ProbeTarget) :=
  results ← outcome_mapM (key_targets ing)
              (range_map (HostsPerVisibility env ing (VisibilityKeys (cfg_Contour cfg))));
  Ret (concat results).
End Lister.

(** ** What is probed *)

Lemma elem_of_concat {A} (x : A) ls : x ∈ concat ls ↔ ∃ l, x ∈ l ∧ l ∈ ls.
Proof. rewrite list_elem_of_In, in_concat. setoid_rewrite list_elem_of_In. naive_solver. Qed.

Section ListerFacts.
Context `{MapOrder} (env : Env) (cfg : Config).
Context (get_service : string → string → goerr + Service).
Context (get_endpoints : string → string → goerr + Endpoints).
Implicit Types ing : Ingress.

Lemma wrap_err_ret {A} fmt args (m : outcome A) a : wrap_err fmt args m = Ret a ↔ m = Ret a.
Proof. by destruct m. Qed.

(** The Service [key] is probed with a subset of its endpoints, giving the target [t]. *)
Definition target_of ing (key : string) (sub : EndpointSubset) (t : ProbeTarget) : Prop :=
  ∃ ns name svc eps portName podPort,
    SplitMetaNamespaceKey key = Ret (ns, name) ∧ get_service ns name = inr svc ∧
    get_endpoints ns name = inr eps ∧ sub ∈ en_subsets eps ∧
    NameForPortNumber svc (port_scheme cfg ing key).1 = Ret portName ∧
    PortNumberForName sub portName = Ret podPort ∧
    pt_pod_ips t = list_to_set (es_addresses sub) ∧ pt_pod_port t = FormatInt podPort ∧
    pt_port t = FormatInt (port_scheme cfg ing key).1.

Lemma key_targets_ret ing key hosts ts :
  key_targets cfg get_service get_endpoints ing (key, hosts) = Ret ts →
  ∃ ns name eps, SplitMetaNamespaceKey key = Ret (ns, name) ∧ get_endpoints ns name = inr eps ∧
    Forall2 (λ sub t, target_of ing key sub t ∧
      pt_urls t = (λ host, ((port_scheme cfg ing key).2, host)) <$> range_set hosts) (en_subsets eps) ts.
Proof.
  unfold key_targets. destruct (port_scheme cfg ing key) as [port scheme] eqn:Eps.
  destruct (SplitMetaNamespaceKey key) as [[ns name]|e|m] eqn:Es; [|done..]. simpl.
  destruct (get_service ns name) as [e|svc] eqn:Esv; [done|]. simpl.
  destruct (get_endpoints ns name) as [e|eps] eqn:Ee; [done|]. simpl.
  destruct (NameForPortNumber svc port) as [portName|e|m] eqn:Ep; [|done..]. simpl.
  intros Hr%outcome_mapM_ret. exists ns, name, eps. split_and!; [done..|].
  apply Forall2_same_length_lookup. split; [by eapply Forall2_length|].
  intros i sub t Hs Ht. eapply Forall2_lookup_lr in Hr; [|done..]. unfold subset_target in Hr.
  destruct (PortNumberForName sub portName) as [podPort|e|m] eqn:Epp; [|done..].
  injection Hr as <-. split; [|done]. exists ns, name, svc, eps, portName, podPort. rewrite Eps.
  split_and!; try done. by eapply list_elem_of_lookup_2.
Qed.

Lemma subset_target_safe port urls ns name portName sub :
  safe (subset_target port urls ns name portName sub) (λ _, True).
Proof. unfold subset_target, PortNumberForName. by destruct (List.find _ _). Qed.

Lemma key_targets_safe ing key hosts :
  safe (key_targets cfg get_service get_endpoints ing (key, hosts)) (λ _, True).
Proof.
  unfold key_targets. destruct (port_scheme cfg ing key) as [port scheme].
  destruct (SplitMetaNamespaceKey key) as [[ns name]|e|m] eqn:E; simpl; [|done|].
  2: { revert E. unfold SplitMetaNamespaceKey. by repeat case_match. }
  destruct (get_service ns name) as [e|svc]; [done|]. destruct (get_endpoints ns name) as [e|eps]; [done|].
  simpl. unfold NameForPortNumber. destruct (List.find _ _); [|done]. simpl.
  apply outcome_mapM_safe. intros sub. apply subset_target_safe.
Qed.

Lemma ListProbeTargets_covers ing targets rule host key :
  ListProbeTargets env cfg get_service get_endpoints ing = Ret targets →
  rule ∈ is_rules (ing_spec ing) → host ∈ ExpandedHosts env (list_to_set (ru_hosts rule)) →
  key ∈ default ∅ (VisibilityKeys (cfg_Contour cfg) !! ru_visibility rule) →
  ∃ ns name eps, SplitMetaNamespaceKey key = Ret (ns, name) ∧ get_endpoints ns name = inr eps ∧
    ∀ sub, sub ∈ en_subsets eps → ∃ t, t ∈ targets ∧ target_of ing key sub t ∧
      ((port_scheme cfg ing key).2, host) ∈ pt_urls t.
Proof.
  intros Hr Hrule Hhost Hkey. unfold ListProbeTargets in Hr. simpl_outcome. subst targets.
  assert (recorded (HostsPerVisibility env ing (VisibilityKeys (cfg_Contour cfg))) key host)
    as (hosts & Hl & Hin) by (apply HostsPerVisibility_recorded; by exists rule).
  apply elem_of_range_map, list_elem_of_lookup in Hl as [i Hi].
  apply outcome_mapM_ret in E. destruct (Forall2_lookup_l _ _ _ _ _ E Hi) as (ts & Hts & Hkt).
  apply key_targets_ret in Hkt as (ns & name & eps & Hs & He & HF). exists ns, name, eps.
  split_and!; [done..|]. intros sub [j Hj]%list_elem_of_lookup.
  destruct (Forall2_lookup_l _ _ _ _ _ HF Hj) as (t & Ht & Htar & Hurls). exists t. split_and!; [|done|].
  - apply elem_of_concat. exists ts. split; by eapply list_elem_of_lookup_2.
  - rewrite Hurls. apply list_elem_of_fmap_2. by apply elem_of_range_set.
Qed.

(** C30: when the targets can be listed, every host (in all its expansions) of every
    rule is probed, with the right scheme, on every subset of endpoints of every envoy
    Service that serves the rule's visibility. *)
Theorem ListProbeTargets_complete ing targets rule host key :
  ListProbeTargets env cfg get_service get_endpoints ing = Ret targets →
  rule ∈ is_rules (ing_spec ing) → host ∈ ExpandedHosts env (list_to_set (ru_hosts rule)) →
  key ∈ default ∅ (VisibilityKeys (cfg_Contour cfg) !! ru_visibility rule) →
  ∃ ns name eps, SplitMetaNamespaceKey key = Ret (ns, name) ∧ get_endpoints ns name = inr eps ∧
    ∀ sub, sub ∈ en_subsets eps → ∃ t, t ∈ targets ∧ target_of ing key sub t ∧
      ((port_scheme cfg ing key).2, host) ∈ pt_urls t.
Proof. apply ListProbeTargets_covers. Qed.

(** Nothing else is probed: every target comes from a subset of the endpoints of
    a configured envoy Service, and every URL asked for is an expansion of a host of
    a rule with that Service's visibility, over HTTPS exactly when the Ingress
    redirects and the Service is not the cluster-local one. *)
Theorem ListProbeTargets_sound ing targets t scheme host :
  ListProbeTargets env cfg get_service get_endpoints ing = Ret targets →
  t ∈ targets → (scheme, host) ∈ pt_urls t →
  ∃ key sub rule, target_of ing key sub t ∧ rule ∈ is_rules (ing_spec ing) ∧
    host ∈ ExpandedHosts env (list_to_set (ru_hosts rule)) ∧
    key ∈ default ∅ (VisibilityKeys (cfg_Contour cfg) !! ru_visibility rule) ∧
    scheme = if decide (is_http_option (ing_spec ing) = HTTPOptionRedirected ∧
                key ∉ default ∅ (VisibilityKeys (cfg_Contour cfg) !! "ClusterLocal"))
             then "https" else "http".
Proof.
  intros Hr Ht Hurl. unfold ListProbeTargets in Hr. simpl_outcome. subst targets.
  apply elem_of_concat in Ht as (ts & Ht & Hts). apply outcome_mapM_ret in E.
  apply list_elem_of_lookup in Hts as [i Hi].
  destruct (Forall2_lookup_r _ _ _ _ _ E Hi) as ([key hosts] & Hk & Hkt).
  apply key_targets_ret in Hkt as (ns & name & eps & Hs & He & HF).
  apply list_elem_of_lookup in Ht as [j Hj].
  destruct (Forall2_lookup_r _ _ _ _ _ HF Hj) as (sub & Hsub & Htar & Hurls).
  rewrite Hurls in Hurl. apply list_elem_of_fmap in Hurl as (h & Heq & Hh%elem_of_range_set).
  injection Heq as -> ->. apply list_elem_of_lookup_2, elem_of_range_map in Hk.
  assert (recorded (HostsPerVisibility env ing (VisibilityKeys (cfg_Contour cfg))) key h)
    as (rule & Hrule & Hhost & Hkey)%HostsPerVisibility_recorded by by exists hosts.
  exists key, sub, rule. split_and!; try done. unfold port_scheme.
  destruct (String.eqb_spec (is_http_option (ing_spec ing)) HTTPOptionRedirected);
    [case_bool_decide|]; simpl; case_decide; naive_solver.
Qed.

(** Listing the targets never panics, and it succeeds when every key in use
    names an existing Service and Endpoints whose ports fit together. *)
Theorem ListProbeTargets_total ing :
  (∀ msg, ListProbeTargets env cfg get_service get_endpoints ing ≠ Panic msg) ∧
  ((∀ key, is_Some (HostsPerVisibility env ing (VisibilityKeys (cfg_Contour cfg)) !! key) →
     ∃ ns name svc eps portName, SplitMetaNamespaceKey key = Ret (ns, name) ∧
       get_service ns name = inr svc ∧ get_endpoints ns name = inr eps ∧
       NameForPortNumber svc (port_scheme cfg ing key).1 = Ret portName ∧
       ∀ sub, sub ∈ en_subsets eps → ∃ podPort, PortNumberForName sub portName = Ret podPort) →
   ∃ targets, ListProbeTargets env cfg get_service get_endpoints ing = Ret targets).
Proof.
  split.
  - intros msg. apply (safe_no_panic _ (λ _, True)). unfold ListProbeTargets.
    apply (safe_bind _ _ (λ _, True)); [|done].
    apply outcome_mapM_safe. intros [key hosts]. apply key_targets_safe.
  - intros Hall. unfold ListProbeTargets.
    destruct (outcome_mapM_total (key_targets cfg get_service get_endpoints ing)
      (range_map (HostsPerVisibility env ing (VisibilityKeys (cfg_Contour cfg))))) as [ts ->];
      [|by eexists].
    intros [key hosts] Hin%elem_of_range_map. unfold key_targets.
    destruct (Hall key) as (ns & name & svc & eps & portName & Hs & Hsv & He & Hp & Hsub); [by eexists|].
    destruct (port_scheme cfg ing key) as [port scheme]. simpl in Hp.
    rewrite Hs. simpl. rewrite Hsv. simpl. rewrite He. simpl. rewrite Hp. simpl.
    apply outcome_mapM_total. intros sub Hin'. unfold subset_target.
    destruct (Hsub sub Hin') as [podPort ->]. by eexists.
Qed.
End ListerFacts.
