(* ===== verification/Events.v ===== *)
(** * Objects as informers hand them to event handlers

    A handler gets an [interface{}]: an object, a [cache.DeletedFinalStateUnknown] (a
    tombstone, sent when the deletion itself was missed), or anything else.  kmeta's
    [DeletionHandlingAccessor] looks into tombstones; a plain type assertion does not. *)

From S2P Require Import Prelude Meta Ingress HTTPProxy.

(** The objects the controller's informers watch; [APIVersion] and [Kind] are the fields
    of the object's [TypeMeta], which objects from a cache usually lack. *)
Inductive Kobject :=
  | KIngress (i : Ingress)
  | KHTTPProxy (p : HTTPProxy)
  | KService (s : Service)
  | KPod (m : ObjectMeta) (podIP : string).
#[export] Instance Kobject_eq_dec : EqDecision Kobject.
Proof. solve_decision. Defined.

Record Accessor := { ac_api_version : string; ac_kind : string; ac_object : Kobject }.
#[export] Instance Accessor_eq_dec : EqDecision Accessor.
Proof. solve_decision. Defined.

Definition ac_meta (a : Accessor) : ObjectMeta :=
  match ac_object a with
  | KIngress i => ing_meta i
  | KHTTPProxy p => hp_meta p
  | KService s => sv_meta s
  | KPod m _ => m
  end.

Inductive eventobj :=
  | Object (a : Accessor)
  | Tombstone (key : string) (obj : option Accessor)
  | OtherValue.
#[export] Instance eventobj_eq_dec : EqDecision eventobj.
Proof. solve_decision. Defined.

Definition DeletionHandlingAccessor (obj : eventobj) : goerr + Accessor :=
  match obj with
  | Object a => inr a
  | Tombstone _ (Some a) => inr a
  | Tombstone key None =>
      inl (Errorf "the object that Tombstone contained is not of kmeta.Accessor %#v" [key])
  | OtherValue => inl (Errorf "couldn't get Accessor from tombstone %#v" [])
  end.

(** The type assertions to [metav1.Object] and to a pointer to a Pod. *)
Definition as_object (obj : eventobj) : option Accessor :=
  match obj with Object a => Some a | _ => None end.

Definition as_pod (obj : eventobj) : option string :=
  match obj with
  | Object {| ac_object := KPod _ podIP |} => Some podIP
  | _ => None
  end.

(** The key [types.NamespacedName{Namespace: ..., Name: ...}] of an object. *)
Definition key_of (m : ObjectMeta) : NamespacedName :=
  {| nn_namespace := om_namespace m; nn_name := om_name m |}.

#[export] Instance NamespacedName_countable : Countable NamespacedName.
Proof.
  apply (inj_countable' (λ n, (nn_namespace n, nn_name n))
           (λ p, {| nn_namespace := p.1; nn_name := p.2 |})). by intros [].
Defined.

(** Ranging over a map from keys visits them in any order. *)
Class KeyOrder := {
  range_keys : ∀ {V : Type}, gmap NamespacedName V → list (NamespacedName * V);
  range_keys_perm : ∀ {V : Type} (m : gmap NamespacedName V), range_keys m ≡ₚ map_to_list m
}.
Definition some_key_order : KeyOrder := {| range_keys V m := map_to_list m; range_keys_perm V m := reflexivity _ |}.

Lemma elem_of_range_keys `{KeyOrder} {V} (m : gmap NamespacedName V) k v :
  (k, v) ∈ range_keys m ↔ m !! k = Some v.
Proof. by rewrite range_keys_perm, elem_of_map_to_list. Qed.

(** ** Kinds (apimachinery's runtime/schema/group_version.go) *)

Record GroupVersion := { gv_group : string; gv_version : string }.
Record GroupVersionKind := { gvk_group : string; gvk_version : string; gvk_kind : string }.

Definition ParseGroupVersion (gv : string) : goerr + GroupVersion :=
  if String.eqb gv "" || String.eqb gv "/" then inr {| gv_group := ""; gv_version := "" |}
  else match Split gv "/"%char with
       | [version] => inr {| gv_group := ""; gv_version := version |}
       | [group; version] => inr {| gv_group := group; gv_version := version |}
       | _ => inl (Errorf "unexpected GroupVersion string: %v" [gv])
       end.

Definition gv_String (group version : string) : string :=
  if String.eqb group "" then version else group +:+ "/" +:+ version.

Definition ToAPIVersionAndKind (gvk : GroupVersionKind) : string * string :=
  if String.eqb (gvk_group gvk) "" && String.eqb (gvk_version gvk) "" && String.eqb (gvk_kind gvk) ""
  then ("", "")
  else (gv_String (gvk_group gvk) (gvk_version gvk), gvk_kind gvk).

Definition FromAPIVersionAndKind (apiVersion kind : string) : GroupVersionKind :=
  match ParseGroupVersion apiVersion with
  | inr gv => {| gvk_group := gv_group gv; gvk_version := gv_version gv; gvk_kind := kind |}
  | inl _ => {| gvk_group := ""; gvk_version := ""; gvk_kind := kind |}
  end.

(** [GetControllerOf]: the first owner marked as controller. *)
Definition GetControllerOf (m : ObjectMeta) : option OwnerReference :=
  head (filter (λ r, or_controller r = true) (om_owners m)).
