(* ===== verification/Scheme.v ===== *)
(** * Schemes (pkg/client/clientset/versioned/scheme and fake/register.go)

    The registry of types that the clientset, the fakes and the table tests use:
    apimachinery's [runtime.Scheme] (scheme.go, scheme_builder.go), the registration of the
    meta types (meta/v1/register.go), of Contour's types and of the networking types
    (register.go of each), and the [init] functions of the two generated packages.

    Types are told apart by package and name, as [reflect.Type] does.  Conversions,
    defaulting functions and codecs are other fields of the scheme and are left out, and
    so are unstructured objects, which this program does not have. *)

From S2P Require Import Prelude Events.
Local Open Scope string_scope.

(** ** Types of objects *)

Record go_type := { gt_pkg : string; gt_name : string; gt_struct : bool }.
#[export] Instance go_type_eq_dec : EqDecision go_type.
Proof. solve_decision. Defined.
#[export] Instance go_type_countable : Countable go_type.
Proof.
  apply (inj_countable' (λ t, (gt_pkg t, gt_name t, gt_struct t))
           (λ p, {| gt_pkg := p.1.1; gt_name := p.1.2; gt_struct := p.2 |})). by intros [].
Defined.
#[export] Instance GroupVersion_eq_dec : EqDecision GroupVersion.
Proof. solve_decision. Defined.
#[export] Instance GroupVersionKind_eq_dec : EqDecision GroupVersionKind.
Proof. solve_decision. Defined.
#[export] Instance GroupVersionKind_countable : Countable GroupVersionKind.
Proof.
  apply (inj_countable' (λ k, (gvk_group k, gvk_version k, gvk_kind k))
           (λ p, {| gvk_group := p.1.1; gvk_version := p.1.2; gvk_kind := p.2 |})). by intros [].
Defined.

(** What an [Object] holds, as far as reflection sees it. *)
Inductive dyn :=
  | DNil                                  (* the nil interface *)
  | DPtr (t : go_type) (is_nil : bool)
  | DValue (t : go_type).

Definition WithKind (gv : GroupVersion) (kind : string) : GroupVersionKind :=
  {| gvk_group := gv_group gv; gvk_version := gv_version gv; gvk_kind := kind |}.
Definition GroupVersion_of (gvk : GroupVersionKind) : GroupVersion :=
  {| gv_group := gvk_group gvk; gv_version := gvk_version gvk |}.

(** ** The scheme (runtime/scheme.go) *)

Record scheme := {
  gvkToType : gmap GroupVersionKind go_type;
  typeToGVK : gmap go_type (list GroupVersionKind);
  unversionedTypes : gmap go_type GroupVersionKind;
  unversionedKinds : gmap string go_type;
  versionPriority : gmap string (list string);
  observedVersions : list GroupVersion
}.

Definition NewScheme : scheme := {| gvkToType := ∅; typeToGVK := ∅; unversionedTypes := ∅;
  unversionedKinds := ∅; versionPriority := ∅; observedVersions := [] |}.

(** The assignments to the fields. *)
Definition set_types (gvk : GroupVersionKind) (t : go_type) (s : scheme) : scheme := {|
  gvkToType := <[gvk := t]> (gvkToType s); typeToGVK := typeToGVK s; unversionedTypes := unversionedTypes s;
  unversionedKinds := unversionedKinds s; versionPriority := versionPriority s; observedVersions := observedVersions s |}.
Definition set_kinds (t : go_type) (ks : list GroupVersionKind) (s : scheme) : scheme := {|
  gvkToType := gvkToType s; typeToGVK := <[t := ks]> (typeToGVK s); unversionedTypes := unversionedTypes s;
  unversionedKinds := unversionedKinds s; versionPriority := versionPriority s; observedVersions := observedVersions s |}.
Definition set_unversioned_type (t : go_type) (gvk : GroupVersionKind) (s : scheme) : scheme := {|
  gvkToType := gvkToType s; typeToGVK := typeToGVK s; unversionedTypes := <[t := gvk]> (unversionedTypes s);
  unversionedKinds := unversionedKinds s; versionPriority := versionPriority s; observedVersions := observedVersions s |}.
Definition set_unversioned_kind (k : string) (t : go_type) (s : scheme) : scheme := {|
  gvkToType := gvkToType s; typeToGVK := typeToGVK s; unversionedTypes := unversionedTypes s;
  unversionedKinds := <[k := t]> (unversionedKinds s); versionPriority := versionPriority s;
  observedVersions := observedVersions s |}.
Definition set_observed (l : list GroupVersion) (s : scheme) : scheme := {|
  gvkToType := gvkToType s; typeToGVK := typeToGVK s; unversionedTypes := unversionedTypes s;
  unversionedKinds := unversionedKinds s; versionPriority := versionPriority s; observedVersions := l |}.

(** Registration changes the scheme; it returns nil or an error, or panics half way. *)
Definition registration : Type := scheme → scheme * outcome ().
Definition done_reg : registration := λ s, (s, Ret ()).
Definition then_reg (f g : registration) : registration := λ s,
  match f s with
  | (s, Ret _) => g s
  | (s, r) => (s, r)
  end.
Fixpoint each_reg {A} (f : A → registration) (l : list A) : registration :=
  match l with [] => done_reg | x :: l => then_reg (f x) (each_reg f l) end.

Definition APIVersionInternal : string := "__internal".

Definition addObservedVersion (version : GroupVersion) (s : scheme) : scheme :=
  if String.eqb (gv_version version) "" || String.eqb (gv_version version) APIVersionInternal then s
  else if decide (version ∈ observedVersions s) then s
  else set_observed (observedVersions s ++ [version])%list s.

Definition kinds_of (s : scheme) (t : go_type) : list GroupVersionKind := default [] (typeToGVK s !! t).

Definition AddKnownTypeWithName (gvk : GroupVersionKind) (obj : dyn) : registration := λ s,
  let s := addObservedVersion (GroupVersion_of gvk) s in
  if String.eqb (gvk_version gvk) "" then (s, Panic "version is required on all types: %s %v")
  else match obj with
       | DNil => (s, Panic "invalid memory address or nil pointer dereference")
       | DValue _ => (s, Panic "All types must be pointers to structs.")
       | DPtr t _ =>
           if negb (gt_struct t) then (s, Panic "All types must be pointers to structs.")
           else if match gvkToType s !! gvk with Some oldT => bool_decide (oldT ≠ t) | None => false end
           then (s, Panic "Double registration of different types for %v: old=%v.%v, new=%v.%v in scheme %q")
           else
             let s := set_types gvk t s in
             if decide (gvk ∈ kinds_of s t) then (s, Ret ())
             else (set_kinds t (kinds_of s t ++ [gvk])%list s, Ret ())
       end.

(** One turn of the loop. *)
Definition add_type (gv : GroupVersion) (obj : dyn) : registration :=
  match obj with
  | DPtr t _ => AddKnownTypeWithName (WithKind gv (gt_name t)) obj
  | DNil => λ s, (s, Panic "invalid memory address or nil pointer dereference")
  | DValue _ => λ s, (s, Panic "All types must be pointers to structs.")
  end.
Definition AddKnownTypes (gv : GroupVersion) (types : list dyn) : registration := λ s,
  each_reg (add_type gv) types (addObservedVersion gv s).

Definition add_unversioned (version : GroupVersion) (obj : dyn) : registration := λ s,
  match obj with
  | DPtr t _ =>
      let gvk := WithKind version (gt_name t) in
      let s := set_unversioned_type t gvk s in
      match unversionedKinds s !! gvk_kind gvk with
      | Some old =>
          if decide (t = old) then (set_unversioned_kind (gvk_kind gvk) t s, Ret ())
          else (s, Panic "%v.%v has already been registered as unversioned kind %q - kind name must be unique in scheme %q")
      | None => (set_unversioned_kind (gvk_kind gvk) t s, Ret ())
      end
  | _ => (s, Panic "reflect: Elem of invalid type")
  end.
Definition AddUnversionedTypes (version : GroupVersion) (types : list dyn) : registration := λ s,
  then_reg (AddKnownTypes version types) (each_reg (add_unversioned version) types) (addObservedVersion version s).

(** *** Looking up *)

Definition EnforcePtr (obj : dyn) : outcome go_type :=
  match obj with
  | DNil => Fail (Errorf "expected pointer, but got invalid kind" [])
  | DValue t => Fail (Errorf "expected pointer, but got %v type" [gt_name t])
  | DPtr _ true => Fail (Errorf "expected pointer, but got nil" [])
  | DPtr t false => Ret t
  end.

Definition NewNotRegisteredErrForType (t : go_type) : goerr :=
  Errorf "no kind is registered for the type %v in scheme %q" [gt_pkg t; gt_name t].
Definition NewNotRegisteredErrForKind (gvk : GroupVersionKind) : goerr :=
  Errorf "no kind %q is registered for version %q in scheme %q" [gvk_kind gvk; gv_String (gvk_group gvk) (gvk_version gvk)].

Definition ObjectKinds (s : scheme) (obj : dyn) : outcome (list GroupVersionKind * bool) :=
  t ← EnforcePtr obj;
  match typeToGVK s !! t with
  | None => Fail (NewNotRegisteredErrForType t)
  | Some gvks => Ret (gvks, bool_decide (is_Some (unversionedTypes s !! t)))
  end.

Definition Recognizes (s : scheme) (gvk : GroupVersionKind) : bool := bool_decide (is_Some (gvkToType s !! gvk)).

Definition IsUnversioned (s : scheme) (obj : dyn) : bool * bool :=
  match EnforcePtr obj with
  | Ret t =>
      match typeToGVK s !! t with
      | None => (false, false)
      | Some _ => (bool_decide (is_Some (unversionedTypes s !! t)), true)
      end
  | _ => (false, false)
  end.

Definition New (s : scheme) (kind : GroupVersionKind) : outcome dyn :=
  match gvkToType s !! kind with
  | Some t => Ret (DPtr t false)
  | None =>
      match unversionedKinds s !! gvk_kind kind with
      | Some t => Ret (DPtr t false)
      | None => Fail (NewNotRegisteredErrForKind kind)
      end
  end.

Definition AllKnownTypes (s : scheme) : gmap GroupVersionKind go_type := gvkToType s.
Definition KnownTypes (s : scheme) (gv : GroupVersion) : gmap string go_type :=
  list_to_map ((λ kt, (gvk_kind kt.1, kt.2)) <$>
    filter (λ kt, GroupVersion_of kt.1 = gv) (map_to_list (gvkToType s))).

Definition SetVersionPriority (versions : list GroupVersion) : registration := λ s,
  match find (λ v, String.eqb (gv_version v) "" || String.eqb (gv_version v) APIVersionInternal) versions with
  | Some v => (s, Fail (Errorf "internal versions cannot be prioritized: %v" [gv_String (gv_group v) (gv_version v)]))
  | None =>
      match remove_dups (gv_group <$> versions) with
      | [group] =>
          ({| gvkToType := gvkToType s; typeToGVK := typeToGVK s; unversionedTypes := unversionedTypes s;
              unversionedKinds := unversionedKinds s;
              versionPriority := <[group := gv_version <$> versions]> (versionPriority s);
              observedVersions := observedVersions s |}, Ret ())
      | groups => (s, Fail (Errorf "must register versions for exactly one group: %v" [Join (sort_slice string_lt groups) ", "]))
      end
  end.

Definition PrioritizedVersionsForGroup (s : scheme) (group : string) : list GroupVersion :=
  foldl (λ ret observed,
      if decide (gv_group observed = group) then if decide (observed ∈ ret) then ret else (ret ++ [observed])%list else ret)
    ((λ v, {| gv_group := group; gv_version := v |}) <$> default [] (versionPriority s !! group)) (observedVersions s).

(** ** Scheme builders (runtime/scheme_builder.go) *)

Definition SchemeBuilder : Type := list registration.
Definition Register (funcs sb : SchemeBuilder) : SchemeBuilder := (sb ++ funcs)%list.
Definition NewSchemeBuilder (funcs : SchemeBuilder) : SchemeBuilder := Register funcs [].
Definition builder_AddToScheme (sb : SchemeBuilder) : registration := each_reg id sb.

(** [utilruntime.Must]: an error is a panic. *)
Definition Must (r : registration) : registration := λ s,
  match r s with
  | (s, Fail e) => (s, Panic "panic(err)")
  | sr => sr
  end.

(** ** The types *)

Definition ptr_to (pkg name : string) : dyn := DPtr {| gt_pkg := pkg; gt_name := name; gt_struct := true |} false.

Definition meta_pkg : string := "k8s.io/apimachinery/pkg/apis/meta/v1".
Definition optionsTypes : list dyn :=
  ptr_to meta_pkg <$> ["ListOptions"; "GetOptions"; "DeleteOptions"; "CreateOptions"; "UpdateOptions"; "PatchOptions"].
Definition Unversioned : GroupVersion := {| gv_group := ""; gv_version := "v1" |}.
Definition WatchEventKind : string := "WatchEvent".

Definition AddToGroupVersion (groupVersion : GroupVersion) : registration :=
  then_reg (AddKnownTypeWithName (WithKind groupVersion WatchEventKind) (ptr_to meta_pkg "WatchEvent"))
  (then_reg (AddKnownTypeWithName
      (WithKind {| gv_group := gv_group groupVersion; gv_version := APIVersionInternal |} WatchEventKind)
      (ptr_to meta_pkg "InternalEvent"))
  (then_reg (AddKnownTypes groupVersion optionsTypes)
  (AddUnversionedTypes Unversioned
    (ptr_to meta_pkg <$> ["Status"; "APIVersions"; "APIGroupList"; "APIGroup"; "APIResourceList"])))).

(** Contour's types. *)
Definition contour_pkg : string := "github.com/projectcontour/contour/apis/projectcontour/v1".
Definition contour_GroupVersion : GroupVersion := {| gv_group := "projectcontour.io"; gv_version := "v1" |}.
Definition contour_AddKnownTypes : registration :=
  then_reg (AddKnownTypes contour_GroupVersion
    (ptr_to contour_pkg <$> ["HTTPProxy"; "HTTPProxyList"; "TLSCertificateDelegation"; "TLSCertificateDelegationList"]))
  (AddToGroupVersion contour_GroupVersion).
Definition contour_AddToScheme : registration := builder_AddToScheme (NewSchemeBuilder [contour_AddKnownTypes]).

(** The networking types. *)
Definition networking_pkg : string := "knative.dev/networking/pkg/apis/networking/v1alpha1".
Definition networking_GroupVersion : GroupVersion := {| gv_group := "networking.internal.knative.dev"; gv_version := "v1alpha1" |}.
Definition networking_addKnownTypes : registration :=
  then_reg (AddKnownTypes networking_GroupVersion
    (ptr_to networking_pkg <$> ["Ingress"; "IngressList"; "ServerlessService"; "ServerlessServiceList";
      "Certificate"; "CertificateList"; "ClusterDomainClaim"; "ClusterDomainClaimList"]))
  (AddToGroupVersion networking_GroupVersion).
Definition networking_AddToScheme : registration := builder_AddToScheme (NewSchemeBuilder [networking_addKnownTypes]).

(** The generated packages: the clientset's scheme and the one of the fakes. *)
Definition localSchemeBuilder : SchemeBuilder := [contour_AddToScheme].
Definition AddToScheme : registration := builder_AddToScheme localSchemeBuilder.
Definition scheme_init : registration :=
  then_reg (AddToGroupVersion {| gv_group := ""; gv_version := "v1" |}) (Must AddToScheme).

Definition fake_localSchemeBuilder : SchemeBuilder := [contour_AddToScheme].
Definition fake_AddToScheme : registration := builder_AddToScheme fake_localSchemeBuilder.
Definition fake_scheme_init : registration :=
  then_reg (AddToGroupVersion {| gv_group := ""; gv_version := "v1" |}) (Must fake_AddToScheme).

(** The fake networking clientset's. *)
Definition networking_fake_AddToScheme : registration := builder_AddToScheme [networking_AddToScheme].

(** ** Schemes in order *)

Record scheme_ok (s : scheme) : Prop := {
  so_kinds gvk t : gvkToType s !! gvk = Some t ↔ gvk ∈ kinds_of s t;
  so_nodup t : NoDup (kinds_of s t);
  so_some t ks : typeToGVK s !! t = Some ks → ks ≠ [];
  so_struct gvk t : gvkToType s !! gvk = Some t → gt_struct t = true ∧ gvk_version gvk ≠ "";
  so_observed gvk t : gvkToType s !! gvk = Some t → gvk_version gvk ≠ APIVersionInternal →
    GroupVersion_of gvk ∈ observedVersions s;
  so_unversioned t gvk : unversionedTypes s !! t = Some gvk →
    gvk ∈ kinds_of s t ∧ unversionedKinds s !! gvk_kind gvk = Some t;
  so_unversioned_kind k t : unversionedKinds s !! k = Some t → is_Some (unversionedTypes s !! t)
}.

Lemma NewScheme_ok : scheme_ok NewScheme.
Proof. split; unfold kinds_of; intros *; simpl; rewrite ?lookup_empty; simpl; try done; [|constructor]. split; [done|by intros ?%elem_of_nil]. Qed.

Lemma addObservedVersion_same gv s : gvkToType (addObservedVersion gv s) = gvkToType s ∧
  typeToGVK (addObservedVersion gv s) = typeToGVK s ∧ unversionedTypes (addObservedVersion gv s) = unversionedTypes s ∧
  unversionedKinds (addObservedVersion gv s) = unversionedKinds s.
Proof. unfold addObservedVersion. by repeat case_match. Qed.

Lemma addObservedVersion_observed gv gv' s : gv' ∈ observedVersions (addObservedVersion gv s) ↔
  gv' ∈ observedVersions s ∨ gv' = gv ∧ gv_version gv ≠ "" ∧ gv_version gv ≠ APIVersionInternal.
Proof.
  unfold addObservedVersion. destruct (String.eqb_spec (gv_version gv) ""), (String.eqb_spec (gv_version gv) APIVersionInternal);
    simpl; [naive_solver..|]. case_decide; simpl; [naive_solver|]. set_solver.
Qed.

Lemma addObservedVersion_ok gv s : scheme_ok s → scheme_ok (addObservedVersion gv s).
Proof.
  intros Hok. destruct (addObservedVersion_same gv s) as (E1 & E2 & E3 & E4).
  split; unfold kinds_of; rewrite ?E1, ?E2, ?E3, ?E4; try apply Hok.
  intros gvk t E Hi. apply addObservedVersion_observed. left. by eapply so_observed.
Qed.

(** A registration that can be made: of a pointer to a struct, with a version, and not in
    conflict with what is there. *)
Definition registerable (s : scheme) (gvk : GroupVersionKind) (obj : dyn) : Prop :=
  gvk_version gvk ≠ "" ∧ ∃ t n, obj = DPtr t n ∧ gt_struct t = true ∧
    ∀ t', gvkToType s !! gvk = Some t' → t' = t.

Definition dyn_type (obj : dyn) : go_type :=
  match obj with DPtr t _ | DValue t => t | DNil => {| gt_pkg := ""; gt_name := ""; gt_struct := false |} end.

Lemma set_types_kinds_ok gvk t s : scheme_ok s → gt_struct t = true → gvk_version gvk ≠ "" →
  (∀ t', gvkToType s !! gvk = Some t' → t' = t) →
  (gvk_version gvk ≠ APIVersionInternal → GroupVersion_of gvk ∈ observedVersions s) →
  let s1 := set_types gvk t s in
  scheme_ok (if decide (gvk ∈ kinds_of s1 t) then s1 else set_kinds t (kinds_of s1 t ++ [gvk])%list s1).
Proof.
  intros Hok Hst Hv Hag Hobs s1. change (kinds_of s1 t) with (kinds_of s t).
  assert (∀ s2, (∀ t' k, k ∈ kinds_of s2 t' ↔ k ∈ kinds_of s t' ∨ k = gvk ∧ t' = t) → (∀ t', NoDup (kinds_of s2 t')) →
    (∀ t' ks, typeToGVK s2 !! t' = Some ks → ks ≠ []) → gvkToType s2 = gvkToType s1 →
    unversionedTypes s2 = unversionedTypes s → unversionedKinds s2 = unversionedKinds s →
    observedVersions s2 = observedVersions s → scheme_ok s2) as Hgen.
  { intros s2 Hk Hnd Hne E1 E3 E4 E5. split; rewrite ?E1, ?E3, ?E4, ?E5.
    - intros k t'. rewrite Hk, <-(so_kinds _ Hok). unfold s1. simpl. rewrite lookup_insert_Some.
      destruct (decide (k = gvk)) as [->|]; naive_solver.
    - exact Hnd.
    - exact Hne.
    - intros k t'. unfold s1. simpl. rewrite lookup_insert_Some. intros [[<- <-]|[_ E]]; [done|]. by apply (so_struct _ Hok).
    - intros k t'. unfold s1. simpl. rewrite lookup_insert_Some. intros [[<- <-]|[_ E]]; [done|]. by apply (so_observed _ Hok k t').
    - intros t' k E. rewrite Hk. destruct (so_unversioned _ Hok _ _ E). auto.
    - apply Hok. }
  case_decide as Hin; apply Hgen; try done.
  - intros t' k. change (kinds_of s1 t') with (kinds_of s t'). naive_solver.
  - apply (so_nodup _ Hok).
  - apply (so_some _ Hok).
  - intros t' k. unfold kinds_of at 1, set_kinds. simpl. destruct (decide (t' = t)) as [->|].
    + rewrite lookup_insert_eq. simpl. fold (kinds_of s t). set_solver.
    + rewrite lookup_insert_ne by done. fold (kinds_of s t'). naive_solver.
  - intros t'. unfold kinds_of at 1, set_kinds. simpl. destruct (decide (t' = t)) as [->|].
    + rewrite lookup_insert_eq. simpl. apply NoDup_app. split_and!; [apply (so_nodup _ Hok)| |apply NoDup_singleton].
      intros k Hk ->%list_elem_of_singleton. done.
    + rewrite lookup_insert_ne by done. apply (so_nodup _ Hok).
  - intros t' ks. unfold set_kinds. simpl. rewrite lookup_insert_Some. intros [[<- <-]|[_ E]]; [|by eapply so_some].
    by destruct (kinds_of s t).
Qed.

(** What a registration does: it is made, or it panics. *)
Lemma AddKnownTypeWithName_spec gvk obj s : scheme_ok s →
  (registerable s gvk obj ∧ ∃ s', AddKnownTypeWithName gvk obj s = (s', Ret ()) ∧ scheme_ok s' ∧
    gvkToType s' = <[gvk := dyn_type obj]> (gvkToType s) ∧
    unversionedTypes s' = unversionedTypes s ∧ unversionedKinds s' = unversionedKinds s) ∨
  (¬ registerable s gvk obj ∧ ∃ s' m, AddKnownTypeWithName gvk obj s = (s', Panic m)).
Proof.
  intros Hok0. unfold AddKnownTypeWithName.
  pose proof (addObservedVersion_ok (GroupVersion_of gvk) s Hok0) as Hok.
  destruct (addObservedVersion_same (GroupVersion_of gvk) s) as (E1 & _ & E3 & E4).
  assert (gvk_version gvk ≠ "" → gvk_version gvk ≠ APIVersionInternal →
    GroupVersion_of gvk ∈ observedVersions (addObservedVersion (GroupVersion_of gvk) s)) as Hobs
    by (intros; apply addObservedVersion_observed; by right).
  revert Hok E1 E3 E4 Hobs. generalize (addObservedVersion (GroupVersion_of gvk) s). intros s0 Hok E1 E3 E4 Hobs.
  unfold registerable. rewrite <-E1, <-E3, <-E4.
  destruct (String.eqb_spec (gvk_version gvk) "") as [Hv|Hv]; [right; split; [by intros [? _]|by do 2 eexists]|].
  destruct obj as [|t n|t]; [right; split; [by intros (_ & ? & ? & [=] & _)|by do 2 eexists]| |
    right; split; [by intros (_ & ? & ? & [=] & _)|by do 2 eexists]].
  destruct (gt_struct t) eqn:Hst; simpl; [|right; split; [intros (_ & ? & ? & [= <- <-] & ? & _); congruence|by do 2 eexists]].
  assert ((∀ t', gvkToType s0 !! gvk = Some t' → t' = t) ∨ ∃ t', gvkToType s0 !! gvk = Some t' ∧ t' ≠ t) as [Hag|(t' & Et & Hne)].
  { destruct (gvkToType s0 !! gvk) as [t'|]; [|by left]. destruct (decide (t' = t)); [left|right]; naive_solver. }
  - left. split; [by eauto 6|].
    assert (match gvkToType s0 !! gvk with Some oldT => bool_decide (oldT ≠ t) | None => false end = false) as ->.
    { destruct (gvkToType s0 !! gvk) as [t'|]; [|done]. apply bool_decide_eq_false. intros Hne. apply Hne. auto. }
    pose proof (set_types_kinds_ok gvk t s0 Hok Hst Hv Hag (Hobs Hv)) as Hok'. simpl in Hok'.
    destruct (decide (gvk ∈ kinds_of (set_types gvk t s0) t)); eexists; (split; [reflexivity|]); done.
  - right. split; [intros (_ & ? & ? & [= <- <-] & _ & Ha); by apply Hne, Ha|]. rewrite Et, bool_decide_true by done. by do 2 eexists.
Qed.

(** ** Sequences of registrations *)

Lemma then_reg_ret f g s s1 : f s = (s1, Ret ()) → then_reg f g s = g s1.
Proof. unfold then_reg. by intros ->. Qed.

Definition regs (l : list (GroupVersionKind * dyn)) : registration := each_reg (λ p, AddKnownTypeWithName p.1 p.2) l.

(** All can be made, and none in conflict with another. *)
Definition compatible (s : scheme) (l : list (GroupVersionKind * dyn)) : Prop :=
  (∀ p, p ∈ l → registerable s p.1 p.2) ∧
  ∀ p q, p ∈ l → q ∈ l → p.1 = q.1 → dyn_type p.2 = dyn_type q.2.

Lemma registerable_step s s' gvk obj gvk' obj' :
  registerable s gvk obj → gvkToType s' = <[gvk := dyn_type obj]> (gvkToType s) →
  registerable s' gvk' obj' ↔ registerable s gvk' obj' ∧ (gvk' = gvk → dyn_type obj' = dyn_type obj).
Proof.
  intros (_ & t & n & -> & _ & Ht) E. unfold registerable. rewrite E. simpl. split.
  - intros (Hv & t' & n' & -> & Hst & Ha). split; [split; [done|]; exists t', n'; split_and!; [done..|]|].
    + intros t2 E2. destruct (decide (gvk' = gvk)) as [->|Hne].
      * rewrite lookup_insert_eq in Ha. rewrite (Ht _ E2). by apply Ha.
      * apply Ha. by rewrite lookup_insert_ne.
    + intros ->. rewrite lookup_insert_eq in Ha. simpl. symmetry. by apply Ha.
  - intros [(Hv & t' & n' & -> & Hst & Ha) Hs]. split; [done|]. exists t', n'. split_and!; [done..|].
    intros t2. rewrite lookup_insert_Some. intros [[<- <-]|[_ E2]]; [|by apply Ha]. symmetry. by apply Hs.
Qed.

Lemma compatible_cons s s' gvk obj l : registerable s gvk obj → gvkToType s' = <[gvk := dyn_type obj]> (gvkToType s) →
  compatible s ((gvk, obj) :: l) ↔ compatible s' l.
Proof.
  intros Hr E. unfold compatible. split.
  - intros [H1 H2]. split; [|intros p q Hp Hq; apply H2; by right].
    intros p Hp. rewrite (registerable_step s s' gvk obj) by done. split; [apply H1; by right|].
    intros ->%eq_sym. by apply (H2 p (p.1, obj)); [right|left|].
  - intros [H1 H2].
    assert (∀ p, p ∈ l → registerable s p.1 p.2 ∧ (p.1 = gvk → dyn_type p.2 = dyn_type obj)) as H1'
      by (intros p Hp; apply (registerable_step s s' gvk obj); auto).
    split.
    + intros p [->|Hp]%elem_of_cons; [done|]. by apply H1'.
    + intros p q [->|Hp]%elem_of_cons [->|Hq]%elem_of_cons Epq; simpl in *; [done| | |by apply H2].
      * symmetry. by apply H1'.
      * by apply H1'.
Qed.

Lemma regs_spec l s : scheme_ok s →
  (compatible s l ∧ ∃ s', regs l s = (s', Ret ()) ∧ scheme_ok s' ∧
    (∀ gvk t, gvkToType s' !! gvk = Some t ↔ gvkToType s !! gvk = Some t ∨ ∃ o, (gvk, o) ∈ l ∧ dyn_type o = t) ∧
    unversionedTypes s' = unversionedTypes s ∧ unversionedKinds s' = unversionedKinds s) ∨
  (¬ compatible s l ∧ ∃ s' m, regs l s = (s', Panic m)).
Proof.
  revert s. induction l as [|[gvk obj] l IH]; intros s Hok.
  { left. split; [split; [by intros p Hp%elem_of_nil|by intros p q Hp%elem_of_nil]|]. exists s. split_and!; try done.
    intros gvk t. split; [by left|]. by intros [?|(o & ?%elem_of_nil & _)]. }
  unfold regs. cbn [each_reg fst snd]. unfold then_reg.
  destruct (AddKnownTypeWithName_spec gvk obj s Hok) as [(Hr & s1 & -> & Hok1 & E1 & E2 & E3)|(Hn & s1 & m & ->)].
  - rewrite (compatible_cons s s1) by done. fold (regs l).
    destruct (IH s1 Hok1) as [(Hc & s' & -> & Hok' & Hl & F2 & F3)|Hn]; [left|right; done].
    split; [done|]. exists s'. split_and!; [done..| |congruence|congruence]. intros g t. rewrite Hl, E1, lookup_insert_Some.
    assert ((∃ o, (g, o) ∈ (gvk, obj) :: l ∧ dyn_type o = t) ↔
      (gvk = g ∧ dyn_type obj = t) ∨ ∃ o, (g, o) ∈ l ∧ dyn_type o = t) as ->.
    { setoid_rewrite elem_of_cons. naive_solver. }
    destruct Hr as (_ & t0 & n & -> & _ & Ha). destruct (decide (gvk = g)) as [->|]; [|naive_solver].
    simpl. split; [naive_solver|]. intros [Eg|[[_ <-]|?]]; [|by auto..]. left. left. split; [done|]. symmetry. by apply Ha.
  - right. split; [|by do 2 eexists]. intros [Hc _]. apply Hn, (Hc (gvk, obj)). by left.
Qed.

(** *** What is kept *)

Definition keeps (r : registration) : Prop := ∀ s, scheme_ok s →
  match r s with
  | (_, Panic _) => True
  | (s', _) => scheme_ok s' ∧ gvkToType s ⊆ gvkToType s'
  end.

Lemma keeps_done : keeps done_reg.
Proof. by intros s. Qed.
Lemma keeps_then f g : keeps f → keeps g → keeps (then_reg f g).
Proof.
  intros Hf Hg s Hok. specialize (Hf s Hok). unfold then_reg. destruct (f s) as [s1 [[]|e|m]]; [|done..].
  destruct Hf as [Hok1 Hs1]. specialize (Hg s1 Hok1). destruct (g s1) as [s2 [?|e|m]]; [| |done];
    (split; [apply Hg|etrans; [exact Hs1|apply Hg]]).
Qed.
Lemma keeps_each {A} (f : A → registration) l : (∀ x, keeps (f x)) → keeps (each_reg f l).
Proof. intros Hf. induction l; simpl; [apply keeps_done|by apply keeps_then]. Qed.
Lemma keeps_Must r : keeps r → keeps (Must r).
Proof. intros Hr s Hok. specialize (Hr s Hok). unfold Must. by destruct (r s) as [s' [?|e|m]]. Qed.

Lemma keeps_AddKnownTypeWithName gvk obj : keeps (AddKnownTypeWithName gvk obj).
Proof.
  intros s Hok. destruct (AddKnownTypeWithName_spec gvk obj s Hok) as [(Hr & s1 & -> & Hok1 & -> & _)|(_ & s1 & m & ->)]; [|done].
  split; [done|]. destruct Hr as (_ & t & n & -> & _ & Ha). simpl. apply map_subseteq_spec. intros g t' E.
  destruct (decide (g = gvk)) as [->|]; [|by rewrite lookup_insert_ne]. rewrite lookup_insert_eq. f_equal. symmetry. auto.
Qed.

Lemma keeps_observed gv r : keeps r → keeps (λ s, r (addObservedVersion gv s)).
Proof.
  intros Hr s Hok. specialize (Hr _ (addObservedVersion_ok gv s Hok)).
  destruct (addObservedVersion_same gv s) as [E _]. by rewrite E in Hr.
Qed.

Lemma keeps_add_types gv types : keeps (each_reg (add_type gv) types).
Proof. apply keeps_each. intros []; [done|apply keeps_AddKnownTypeWithName|done]. Qed.

Lemma keeps_AddKnownTypes gv types : keeps (AddKnownTypes gv types).
Proof. exact (keeps_observed gv _ (keeps_add_types gv types)). Qed.

(** Known afterwards. *)
Lemma AddKnownTypes_known gv types s s' : scheme_ok s → AddKnownTypes gv types s = (s', Ret ()) →
  Forall (λ obj, ∃ t n, obj = DPtr t n ∧ gvkToType s' !! WithKind gv (gt_name t) = Some t) types.
Proof.
  intros Hok. unfold AddKnownTypes. pose proof (addObservedVersion_ok gv s Hok) as Hok0.
  revert Hok0. generalize (addObservedVersion gv s). clear s Hok. intros s Hok. revert s Hok.
  induction types as [|obj types IH]; intros s Hok; [constructor|]. cbn [each_reg]. unfold then_reg at 1.
  destruct obj as [|t n|t]; [done| |done]. cbn [add_type].
  destruct (AddKnownTypeWithName_spec (WithKind gv (gt_name t)) (DPtr t n) s Hok)
    as [(Hr & s1 & -> & Hok1 & E1 & _)|(_ & s1 & m & ->)]; [|done].
  intros Hrun. constructor; [|by apply (IH s1)]. exists t, n. split; [done|].
  pose proof (keeps_add_types gv types s1 Hok1) as Hk'. rewrite Hrun in Hk'. destruct Hk' as [_ Hsub].
  apply (lookup_weaken _ _ _ _ (eq_trans (f_equal (lookup _) E1) (lookup_insert_eq _ _ _)) Hsub).
Qed.

Lemma add_unversioned_ok gv t n s : scheme_ok s → gvkToType s !! WithKind gv (gt_name t) = Some t →
  match add_unversioned gv (DPtr t n) s with
  | (s', Ret _) => scheme_ok s' ∧ gvkToType s' = gvkToType s
  | (_, r) => ∃ m, r = Panic m
  end.
Proof.
  intros Hok Hkn. unfold add_unversioned. simpl.
  assert (unversionedKinds s !! gt_name t = None ∨ unversionedKinds s !! gt_name t = Some t →
    scheme_ok (set_unversioned_kind (gt_name t) t (set_unversioned_type t (WithKind gv (gt_name t)) s))) as Hgen.
  { intros Hold. split; unfold kinds_of; simpl; try apply Hok.
    - intros t2 g. rewrite !lookup_insert_Some. intros [[<- <-]|[Hne E]].
      + split; [by apply (so_kinds _ Hok)|]. by left.
      + destruct (so_unversioned _ Hok _ _ E) as [? Hk]. split; [done|].
        destruct (decide (gt_name t = gvk_kind g)) as [En|]; [left|by right]. split; [done|].
        rewrite <-En in Hk. naive_solver.
    - intros k t2. rewrite lookup_insert_Some. intros [[<- <-]|[_ E]]; [rewrite lookup_insert_eq; by eexists|].
      destruct (decide (t2 = t)) as [->|]; [rewrite lookup_insert_eq; by eexists|].
      rewrite lookup_insert_ne by done. by apply (so_unversioned_kind _ Hok k). }
  destruct (unversionedKinds s !! gt_name t) as [old|]; [|split; [by apply Hgen; left|done]].
  case_decide as Hd; [subst; split; [by apply Hgen; right|done]|by eexists].
Qed.

Lemma keeps_AddUnversionedTypes gv types : keeps (AddUnversionedTypes gv types).
Proof.
  apply (keeps_observed gv (then_reg (AddKnownTypes gv types) (each_reg (add_unversioned gv) types))).
  intros s Hok. unfold then_reg. pose proof (keeps_AddKnownTypes gv types _ Hok) as Hk.
  destruct (AddKnownTypes gv types s) as [s1 [[]|e|m]] eqn:E; [|done..].
  apply AddKnownTypes_known in E as HF; [|done]. clear E.
  assert (match each_reg (add_unversioned gv) types s1 with
    | (s', Ret _) => scheme_ok s' ∧ gvkToType s' = gvkToType s1
    | (_, r) => ∃ m, r = Panic m end) as Hu.
  { destruct Hk as [Hok1 _]. revert s1 Hok1 HF. induction types as [|obj types IH]; intros s1 Hok1 HF; [done|].
    apply Forall_cons in HF as [(t & n & -> & Hkn) HF]. cbn [each_reg]. unfold then_reg.
    pose proof (add_unversioned_ok gv t n s1 Hok1 Hkn) as Ha.
    destruct (add_unversioned gv (DPtr t n) s1) as [s2 [[]|e|m]]; [|by destruct Ha|done].
    destruct Ha as [Hok2 E2]. rewrite <-E2. apply IH; [done|]. by rewrite E2. }
  destruct (each_reg (add_unversioned gv) types s1) as [s2 [?|e|m]]; [|by destruct Hu|done].
  destruct Hu as [? ->]. split; [done|apply Hk].
Qed.

Lemma keeps_SetVersionPriority versions : keeps (SetVersionPriority versions).
Proof.
  intros s Hok. unfold SetVersionPriority. destruct (find _ _); [done|].
  destruct (remove_dups _) as [|g [|? ?]]; [done| |done]. split; [|done]. destruct Hok. by split.
Qed.

(** ** Reachable schemes *)

Inductive reg_op :=
  | RegTypeWithName (gvk : GroupVersionKind) (obj : dyn)
  | RegTypes (gv : GroupVersion) (types : list dyn)
  | RegUnversionedTypes (gv : GroupVersion) (types : list dyn)
  | RegVersionPriority (versions : list GroupVersion).

Definition run_op (op : reg_op) : registration :=
  match op with
  | RegTypeWithName gvk obj => AddKnownTypeWithName gvk obj
  | RegTypes gv types => AddKnownTypes gv types
  | RegUnversionedTypes gv types => AddUnversionedTypes gv types
  | RegVersionPriority versions => SetVersionPriority versions
  end.

Lemma keeps_run_op op : keeps (run_op op).
Proof.
  destruct op; [apply keeps_AddKnownTypeWithName|apply keeps_AddKnownTypes|apply keeps_AddUnversionedTypes|
    apply keeps_SetVersionPriority].
Qed.

(** A scheme that registrations led to without a panic; errors may have been ignored. *)
Inductive reachable : scheme → Prop :=
  | reach_new : reachable NewScheme
  | reach_op s op s' r : reachable s → run_op op s = (s', r) → (∀ m, r ≠ Panic m) → reachable s'.

Lemma reachable_ok s : reachable s → scheme_ok s.
Proof.
  induction 1 as [|s op s' r _ IH E Hr]; [apply NewScheme_ok|].
  pose proof (keeps_run_op op s IH) as Hk. rewrite E in Hk. destruct r as [?|e|m]; [apply Hk..|by destruct (Hr m)].
Qed.

(** Registrations and the program's own ones compose from these. *)
Definition composed (r : registration) : Prop := ∀ s, reachable s →
  match r s with (_, Panic _) => True | (s', _) => reachable s' end.

Lemma composed_op op : composed (run_op op).
Proof. intros s Hs. destruct (run_op op s) as [s' [?|e|m]] eqn:E; [by eapply reach_op..|done]. Qed.
Lemma composed_then f g : composed f → composed g → composed (then_reg f g).
Proof.
  intros Hf Hg s Hs. specialize (Hf s Hs). unfold then_reg. destruct (f s) as [s1 [[]|e|m]]; [by apply Hg|done..].
Qed.
Lemma composed_each {A} (f : A → registration) l : (∀ x, x ∈ l → composed (f x)) → composed (each_reg f l).
Proof.
  induction l as [|x l IH]; intros Hf; simpl; [by intros s|]. apply composed_then; [apply Hf; by left|].
  apply IH. intros y Hy. apply Hf. by right.
Qed.
Lemma composed_Must r : composed r → composed (Must r).
Proof. intros Hr s Hs. specialize (Hr s Hs). unfold Must. by destruct (r s) as [s' [?|e|m]]. Qed.

Lemma composed_AddToGroupVersion gv : composed (AddToGroupVersion gv).
Proof.
  apply composed_then; [apply (composed_op (RegTypeWithName _ _))|].
  apply composed_then; [apply (composed_op (RegTypeWithName _ _))|].
  apply composed_then; [apply (composed_op (RegTypes _ _))|apply (composed_op (RegUnversionedTypes _ _))].
Qed.
Lemma composed_builder sb : (∀ r, r ∈ sb → composed r) → composed (builder_AddToScheme sb).
Proof. apply composed_each. Qed.
Lemma composed_contour : composed contour_AddToScheme.
Proof.
  apply composed_builder. intros r ->%list_elem_of_singleton.
  apply composed_then; [apply (composed_op (RegTypes _ _))|apply composed_AddToGroupVersion].
Qed.
Lemma composed_networking : composed networking_AddToScheme.
Proof.
  apply composed_builder. intros r ->%list_elem_of_singleton.
  apply composed_then; [apply (composed_op (RegTypes _ _))|apply composed_AddToGroupVersion].
Qed.
Lemma composed_AddToScheme : composed AddToScheme.
Proof. apply composed_builder. intros r ->%list_elem_of_singleton. apply composed_contour. Qed.

(** ** What the scheme answers *)

Lemma ObjectKinds_spec s t : scheme_ok s →
  ObjectKinds s (DPtr t false) =
    if decide (kinds_of s t = []) then Fail (NewNotRegisteredErrForType t)
    else Ret (kinds_of s t, bool_decide (is_Some (unversionedTypes s !! t))).
Proof.
  intros Hok. unfold ObjectKinds, kinds_of. simpl. destruct (typeToGVK s !! t) as [ks|] eqn:E; simpl; [|done].
  pose proof (so_some _ Hok t ks E). by case_decide.
Qed.

(** Kinds and types are in step: a recognized kind makes an object of which it is a kind,
    and a kind of an object makes an object of the same type.  A kind that is not
    recognized makes an object only if its name is that of an unversioned type. *)
Theorem scheme_roundtrip s : reachable s →
  (∀ gvk, Recognizes s gvk = true → ∃ t ks u, New s gvk = Ret (DPtr t false) ∧
     ObjectKinds s (DPtr t false) = Ret (ks, u) ∧ gvk ∈ ks) ∧
  (∀ t ks u, ObjectKinds s (DPtr t false) = Ret (ks, u) → ks ≠ [] ∧ NoDup ks ∧
     IsUnversioned s (DPtr t false) = (u, true) ∧
     ∀ gvk, gvk ∈ ks ↔ Recognizes s gvk = true ∧ New s gvk = Ret (DPtr t false)) ∧
  (∀ gvk obj, Recognizes s gvk = false → New s gvk = Ret obj →
     IsUnversioned s obj = (true, true) ∧ ∃ k ks, ObjectKinds s obj = Ret (ks, true) ∧ k ∈ ks).
Proof.
  intros Hok%reachable_ok. split_and!.
  - intros gvk [t E]%bool_decide_eq_true. pose proof E as Hin%(so_kinds _ Hok). exists t.
    unfold New. rewrite E, ObjectKinds_spec by done. rewrite decide_False by (intros E0; rewrite E0 in Hin; by apply elem_of_nil in Hin).
    by do 2 eexists.
  - intros t ks u. rewrite ObjectKinds_spec by done. case_decide as Hne; [done|]. intros [= <- <-]. split_and!; [done|apply (so_nodup _ Hok)| |].
    + unfold IsUnversioned. simpl. unfold kinds_of in Hne. by destruct (typeToGVK s !! t).
    + intros gvk. rewrite <-(so_kinds _ Hok). unfold Recognizes, New. rewrite bool_decide_eq_true. split.
      * intros E. rewrite E. split; [by eexists|done].
      * intros [[t' E] Hn]. rewrite E in Hn. by injection Hn as ->.
  - intros gvk obj Hr%bool_decide_eq_false. unfold New. rewrite <-eq_None_not_Some in Hr. rewrite Hr.
    destruct (unversionedKinds s !! gvk_kind gvk) as [t|] eqn:Eu; [|done]. intros [= <-].
    destruct (so_unversioned_kind _ Hok _ _ Eu) as [g Eg]. destruct (so_unversioned _ Hok _ _ Eg) as [Hin _].
    unfold IsUnversioned. rewrite ObjectKinds_spec by done. simpl. unfold kinds_of in *.
    destruct (typeToGVK s !! t) as [ks|]; [|by apply elem_of_nil in Hin]. simpl in *.
    rewrite bool_decide_true by (by eexists). split; [done|]. exists g, ks.
    rewrite decide_False; [done|]. intros ->. by apply elem_of_nil in Hin.
Qed.

Lemma compatible_perm s l l' : l ≡ₚ l' → compatible s l → compatible s l'.
Proof. intros Hp [H1 H2]. split; [by setoid_rewrite <-Hp|]. intros p q. rewrite <-Hp. apply H2. Qed.

(** The order of registrations matters neither for whether they conflict nor, up to the
    order of the kinds of a type, for the scheme they lead to. *)
Theorem registration_order s l l' : reachable s → l ≡ₚ l' →
  match regs l s, regs l' s with
  | (s1, Ret _), (s2, Ret _) =>
      (∀ gvk, Recognizes s1 gvk = Recognizes s2 gvk ∧ New s1 gvk = New s2 gvk) ∧
      ∀ t, kinds_of s1 t ≡ₚ kinds_of s2 t
  | (_, Panic _), (_, Panic _) => True
  | _, _ => False
  end.
Proof.
  intros Hok%reachable_ok Hp.
  destruct (regs_spec l s Hok) as [(Hc & s1 & -> & Hok1 & Hl1 & _ & Hu1)|(Hc & s1 & m & ->)],
    (regs_spec l' s Hok) as [(Hc' & s2 & -> & Hok2 & Hl2 & _ & Hu2)|(Hc' & s2 & m' & ->)];
    [|by destruct Hc'; apply (compatible_perm s l)|by destruct Hc; apply (compatible_perm s l')|done].
  assert (gvkToType s1 = gvkToType s2) as E.
  { apply map_eq. intros gvk. apply option_eq. intros t. rewrite Hl1, Hl2. by setoid_rewrite Hp. }
  split.
  - intros gvk. unfold Recognizes, New. by rewrite E, Hu1, Hu2.
  - intros t. apply NoDup_Permutation; [apply (so_nodup _ Hok1)|apply (so_nodup _ Hok2)|].
    intros gvk. by rewrite <-(so_kinds _ Hok1), <-(so_kinds _ Hok2), E.
Qed.

(** ** The schemes of the two packages *)

Definition Scheme : scheme := (scheme_init NewScheme).1.
Definition fake_scheme : scheme := (fake_scheme_init NewScheme).1.

Example scheme_init_returns : (scheme_init NewScheme).2 = Ret () ∧ (fake_scheme_init NewScheme).2 = Ret ().
Proof. split; vm_compute; reflexivity. Qed.

(** Each of Contour's types has one kind, and so a list of it has. *)
Example contour_kinds :
  (λ name, ObjectKinds Scheme (ptr_to contour_pkg name)) <$>
    ["HTTPProxy"; "HTTPProxyList"; "TLSCertificateDelegation"; "TLSCertificateDelegationList"] =
  (λ name, Ret ([WithKind contour_GroupVersion name], false)) <$>
    ["HTTPProxy"; "HTTPProxyList"; "TLSCertificateDelegation"; "TLSCertificateDelegationList"].
Proof. vm_compute. reflexivity. Qed.

(** Adding the types again changes nothing, and the clientsets compose in either order. *)
Example AddToScheme_again : bool_decide (gvkToType (AddToScheme Scheme).1 = gvkToType Scheme) = true ∧
  (AddToScheme Scheme).2 = Ret ().
Proof. split; vm_compute; reflexivity. Qed.
Example clientsets_compose :
  bool_decide (gvkToType (then_reg AddToScheme networking_fake_AddToScheme NewScheme).1 =
               gvkToType (then_reg networking_fake_AddToScheme AddToScheme NewScheme).1) = true ∧
  (then_reg AddToScheme networking_fake_AddToScheme NewScheme).2 = Ret ().
Proof. split; vm_compute; reflexivity. Qed.

(** A registration that conflicts is a panic. *)
Example double_registration :
  (AddKnownTypeWithName (WithKind contour_GroupVersion "HTTPProxy") (ptr_to networking_pkg "Ingress") Scheme).2 =
  Panic "Double registration of different types for %v: old=%v.%v, new=%v.%v in scheme %q".
Proof. vm_compute. reflexivity. Qed.

Lemma Scheme_reachable : reachable Scheme.
Proof.
  assert (composed scheme_init) as Hc
    by (apply composed_then; [apply composed_AddToGroupVersion|apply composed_Must, composed_AddToScheme]).
  assert ((scheme_init NewScheme).2 = Ret ()) as Hr by (vm_compute; reflexivity).
  specialize (Hc NewScheme reach_new). unfold Scheme. revert Hc Hr. generalize (scheme_init NewScheme).
  intros [s r]. cbn [fst snd]. by intros Hs ->.
Qed.

Lemma scheme_roundtrip_witness : ∃ t ks u, New Scheme (WithKind contour_GroupVersion "HTTPProxy") = Ret (DPtr t false) ∧
  ObjectKinds Scheme (DPtr t false) = Ret (ks, u) ∧ WithKind contour_GroupVersion "HTTPProxy" ∈ ks.
Proof.
  destruct (scheme_roundtrip Scheme Scheme_reachable) as [Hrec _]. apply Hrec. vm_compute. reflexivity.
Defined.
