(* ===== verification/GenReconciler.v ===== *)
(** * The generated reconciler (vendor/knative.dev/networking/pkg/client/injection/
      reconciler/networking/v1alpha1/ingress, with knative.dev/pkg/reconciler)

    What stands between the work queue and [ReconcileKind]: it takes a key, checks that
    this replica leads for it, reads the Ingress from the cache, checks its class, fills
    in defaults, prepares the status, calls [ReconcileKind] on the copy, finishes the
    status and writes it back if it changed, retrying on conflicts.

    The reconciler of this program implements neither [Finalizer], [ReadOnlyInterface]
    nor [OnDeletionInterface], and the options leave [SkipStatusUpdates] unset; the
    branches these would enable are left out.  No error of this program is a
    [ReconcilerEvent], a skip, a requeue or a permanent error, so that only the conflict
    test of the last [switch] remains.  Logging is left out. *)

From S2P Require Import Prelude Meta Conditions Ingress NetIngress HTTPProxy Config Labels Proxies EndpointProbe Reconcile ReconcileFacts.
Local Open Scope Z_scope.

(** ** Defaults (ingress_defaults.go) *)

Definition split_with_percent (p : Z) (s : IngressBackendSplit) : IngressBackendSplit := {|
  sp_service_namespace := sp_service_namespace s; sp_service_name := sp_service_name s;
  sp_service_port := sp_service_port s; sp_percent := p; sp_append_headers := sp_append_headers s |}.

Definition path_SetDefaults (h : HTTPIngressPath) : HTTPIngressPath :=
  match pa_splits h with
  | [s] =>
      if sp_percent s =? 0 then
        {| pa_path := pa_path h; pa_rewrite_host := pa_rewrite_host h; pa_headers := pa_headers h;
           pa_splits := [split_with_percent 100 s]; pa_append_headers := pa_append_headers h |}
      else h
  | _ => h
  end.

Definition rule_SetDefaults (r : IngressRule) : outcome IngressRule :=
  let visibility :=
    if String.eqb (ru_visibility r) "" then IngressVisibilityExternalIP else ru_visibility r in
  paths ← nil_deref "h.Paths" (ru_http r);
  Ret {| ru_hosts := ru_hosts r; ru_visibility := visibility;
         ru_http := Some (path_SetDefaults <$> paths) |}.

Definition SetDefaults (i : Ingress) : outcome Ingress :=
  rules ← outcome_mapM rule_SetDefaults (is_rules (ing_spec i));
  Ret (with_spec {| is_tls := is_tls (ing_spec i); is_rules := rules;
                    is_http_option := is_http_option (ing_spec i) |} i).

(** ** Before and after [ReconcileKind] (reconcile_common.go) *)

Definition failedGenerationBump : string := "NewObservedGenFailure".
Definition ClassAnnotationKey : string := "networking.knative.dev/ingress.class".

Section Status.
Context (clock : nat → Z).

Definition PreProcessReconcile (generation : Z) (s : StatusState) : StatusState :=
  let s := st_InitializeConditions clock s in
  if st_observed_generation s.1 =? generation then s
  else manage s (λ c, MarkUnknown clock ingressCondSet c IngressConditionReady failedGenerationBump
                        "unsuccessfully observed a new generation").

Definition with_conditions (l : list Condition) (st : IngressStatus) : IngressStatus :=
  {| st_observed_generation := st_observed_generation st; st_conditions := l;
     st_public := st_public st; st_private := st_private st |}.

(** [groomConditionsTransitionTime] for one condition. *)
Definition groom (now : Z) (old : IngressStatus) (cond : Condition) : Condition :=
  match status_condition old (c_type cond) with
  | Some oldCond =>
      let cond := with_time (c_time oldCond) cond in
      if decide (cond = oldCond) then cond else with_time now cond
  | None => with_time now cond
  end.

Definition PostProcessReconcile (generation : Z) (old : IngressStatus) (s : StatusState) : StatusState :=
  let st := with_observed generation s.1 in
  (with_conditions (groom (clock s.2) old <$> st_conditions st) st, S s.2).
End Status.

(** [equality.Semantic.DeepEqual] of two statuses: transition times do not count. *)
Definition status_equal (a b : IngressStatus) : bool :=
  bool_decide (with_conditions (with_time 0 <$> st_conditions a) a =
               with_conditions (with_time 0 <$> st_conditions b) b).

(** [apierrs.IsConflict]: the reason of the first status error of the chain. *)
Fixpoint IsConflict (e : goerr) : bool :=
  match e with
  | APIStatus StatusReasonConflict _ => true
  | Wrapf _ _ e => IsConflict e
  | _ => false
  end.

(** ** The outside of the generated reconciler

    [rc_get_cached] also says whether the deletion timestamp is set; [rc_get] asks the API
    server, whose state may have changed since. *)
Class ResourceClient (S : Type) := {
  rc_leader : S → NamespacedName → bool;
  rc_get_cached : S → string → string → goerr + (Ingress * bool);
  rc_get : S → string → string → S * (goerr + Ingress);
  rc_update_status : S → string → Ingress → S * (goerr + ())
}.

Inductive gen_action :=
  | GCall (a : action)
  | GUpdateStatus (ns : string) (i : Ingress)
  | GEvent (reason : string).

(** What [Reconcile] returns: nil, an error, the skip of a key; or it panics. *)
Inductive gen_result := GDone | GError (e : goerr) | GSkipKey (key : string) | GPanic (message : string).

Section Reconcile.
Context {S : Type} `{Backend S} `{ResourceClient S} `{MapOrder}.
Context (env : Env) (cfg : Config) (clock : nat → Z).

(** ** [updateStatus] *)

(** [retry.DefaultRetry] *)
Definition DefaultRetry_Steps : nat := 5.

(** The attempts that are left; [existing] is read again on all but the first. *)
Fixpoint update_attempts (steps attempts : nat) (existing desired : Ingress) (lastErr : option goerr) (s : S)
    : S * list gen_action * option goerr :=
  match steps with
  | O => (s, [], lastErr)
  | Datatypes.S steps =>
      let '(s, got) :=
        match attempts with
        | O => (s, inr existing)
        | _ => rc_get s (ing_namespace desired) (ing_name desired)
        end in
      match got with
      | inl e =>
          if IsConflict e
          then update_attempts steps (Datatypes.S attempts) existing desired (Some e) s
          else (s, [], Some e)
      | inr existing =>
          if status_equal (ing_status existing) (ing_status desired) then (s, [], None)
          else
            let update := with_status (ing_status desired) existing in
            let '(s, r) := rc_update_status s (ing_namespace update) update in
            match r with
            | inr () => (s, [GUpdateStatus (ing_namespace update) update], None)
            | inl e =>
                if IsConflict e then
                  let '(s, l, r) := update_attempts steps (Datatypes.S attempts) update desired (Some e) s in
                  (s, GUpdateStatus (ing_namespace update) update :: l, r)
                else (s, [GUpdateStatus (ing_namespace update) update], Some e)
            end
      end
  end.

Definition updateStatus (existing desired : Ingress) (s : S) : S * list gen_action * option goerr :=
  update_attempts DefaultRetry_Steps 0 existing desired None s.

(** ** [Reconcile] *)

(** The end of [Reconcile]: report the error of [ReconcileKind], if any. *)
Definition report_event (r : outcome ()) : list gen_action * gen_result :=
  match r with
  | Ret () => ([], GDone)
  | Fail e => (if IsConflict e then [] else [GEvent "InternalError"], GError e)
  | Panic m => ([], GPanic m)
  end.

(** The case [DoReconcileKind], and the status update. *)
Definition reconcile_resource (original resource : Ingress) (ticks : nat) (s : S)
    : S * list gen_action * gen_result :=
  let status := PreProcessReconcile clock (ing_generation resource) (ing_status resource, ticks) in
  let '(rs, calls, r) := ReconcileKind env cfg clock resource {| rs_backend := s; rs_status := status |} in
  let calls := GCall <$> calls in
  match r with
  | Panic m => (rs_backend rs, calls, GPanic m)
  | _ =>
      let status := PostProcessReconcile clock (ing_generation resource) (ing_status original) (rs_status rs) in
      let resource := with_status status.1 resource in
      if status_equal (ing_status original) (ing_status resource) then
        let '(l, result) := report_event r in (rs_backend rs, calls ++ l, result)
      else
        let '(s', updates, err) := updateStatus original resource (rs_backend rs) in
        match err with
        | Some e => (s', calls ++ updates ++ [GEvent "UpdateFailed"], GError e)
        | None => let '(l, result) := report_event r in (s', calls ++ updates ++ l, result)
        end
  end.

Definition Reconcile (key : string) (ticks : nat) (s : S) : S * list gen_action * gen_result :=
  match SplitMetaNamespaceKey key with
  | Ret (namespace, name) =>
      if rc_leader s {| nn_namespace := namespace; nn_name := name |} then
        match rc_get_cached s namespace name with
        | inl e => (s, [], if IsNotFound e then GDone else GError e)
        | inr (original, deleting) =>
            if decide (ing_annotations original !! ClassAnnotationKey = Some ContourIngressClassName) then
              if deleting then (s, [], GDone)
              else match SetDefaults original with
                   | Ret resource => reconcile_resource original resource ticks s
                   | Fail e => (s, [], GError e)
                   | Panic m => (s, [], GPanic m)
                   end
            else (s, [], GDone)
        end
      else (s, [], GSkipKey key)
  | _ => (s, [], GDone)
  end.
End Reconcile.

(** ** Facts about the status *)

Section StatusFacts.
Context (clock : nat → Z).

Lemma PreProcessReconcile_inv g s : status_inv s → status_inv (PreProcessReconcile clock g s).
Proof.
  intros Hi. unfold PreProcessReconcile.
  assert (status_inv (st_InitializeConditions clock s)) as Hi1 by (eapply status_step_inv; [constructor|done]).
  destruct (_ =? _); [done|]. by eapply status_step_inv; [apply (step_not_ready clock failedGenerationBump)|].
Qed.

Lemma PreProcessReconcile_observed g s :
  st_observed_generation (PreProcessReconcile clock g s).1 = st_observed_generation s.1.
Proof.
  unfold PreProcessReconcile, st_InitializeConditions. destruct s as [st n]. simpl. by destruct (_ =? _).
Qed.

Lemma PreProcessReconcile_keeps_true g s d : status_inv s → d ∈ dependents ingressCondSet →
  cond_true s.1 d = true → cond_true (PreProcessReconcile clock g s).1 d = true.
Proof.
  intros Hi Hd. rewrite !cond_true_status. intros Ht. unfold PreProcessReconcile.
  assert (status_of (st_state (st_InitializeConditions clock s)) d = Some ConditionTrue) as Ht1.
  { unfold st_InitializeConditions. rewrite manage_state. apply InitializeConditions_keeps_true; auto with golib.
    apply Hi. }
  assert (status_inv (st_InitializeConditions clock s)) as Hi1 by (eapply status_step_inv; [constructor|done]).
  destruct (_ =? _); [done|]. rewrite manage_state, MarkUnknown_other; auto with golib; [apply Hi1|].
  intros ->. by apply ing_happy_not_dep.
Qed.

(** A new generation resets Ready. *)
Lemma PreProcessReconcile_new_generation g s : status_inv s → st_observed_generation s.1 ≠ g →
  cond_true (PreProcessReconcile clock g s).1 IngressConditionReady = false.
Proof.
  intros Hi Hg. unfold PreProcessReconcile.
  assert (st_observed_generation (st_InitializeConditions clock s).1 = st_observed_generation s.1) as E
    by (by destruct s).
  destruct (Z.eqb_spec (st_observed_generation (st_InitializeConditions clock s).1) g); [congruence|].
  apply unknown_not_ready. eapply status_step_inv; [constructor|done].
Qed.

Lemma groom_but_time now old c : same_but_time (groom now old c) c.
Proof. unfold groom, same_but_time. destruct (status_condition _ _); [case_decide|]; done. Qed.

Lemma groom_fields now old c : c_type (groom now old c) = c_type c ∧
  c_status (groom now old c) = c_status c ∧ c_severity (groom now old c) = c_severity c.
Proof. destruct (same_but_time_fields _ _ (groom_but_time now old c)) as (?&?&?&_). done. Qed.

Lemma groom_find now old l t :
  find_condition t (groom now old <$> l) = groom now old <$> find_condition t l.
Proof.
  induction l as [|c l IH]; simpl; [done|]. rewrite (proj1 (groom_fields now old c)).
  by destruct (String.eqb _ _).
Qed.

Lemma PostProcessReconcile_cond g old s t :
  cond_true (PostProcessReconcile clock g old s).1 t = cond_true s.1 t.
Proof.
  unfold cond_true, status_condition, PostProcessReconcile. simpl. rewrite groom_find.
  destruct (find_condition t (st_conditions s.1)) as [c|]; simpl; [|done].
  by rewrite (proj1 (proj2 (groom_fields (clock s.2) old c))).
Qed.

Lemma PostProcessReconcile_inv g old s : status_inv s → status_inv (PostProcessReconcile clock g old s).
Proof.
  intros [[Hu HF] Hs]. set (now := clock s.2).
  assert (∀ t, status_of (st_state (PostProcessReconcile clock g old s)) t = status_of (st_state s) t) as Hst.
  { intros t. unfold status_of, GetCondition. simpl. rewrite groom_find.
    destruct (find_condition t _) as [c|]; simpl; [|done]. by rewrite (proj1 (proj2 (groom_fields _ old c))). }
  split; [split|].
  - unfold types_unique in *. simpl. rewrite <-list_fmap_compose.
    erewrite list_fmap_ext; [exact Hu|]. intros i c _. simpl. apply groom_fields.
  - simpl. apply Forall_fmap. eapply Forall_impl; [exact HF|]. intros c [Ht Hsev]. simpl.
    destruct (groom_fields (clock s.2) old c) as (-> & _ & ->). done.
  - intros Hh d Hd. rewrite Hst in *. by apply Hs.
Qed.

(** Transition times: an unchanged condition keeps its time, all others get the same one. *)
Lemma PostProcessReconcile_times g old s c :
  types_unique (st_conditions old) → c ∈ st_conditions (PostProcessReconcile clock g old s).1 →
  c ∈ st_conditions old ∨
  (c_time c = clock s.2 ∧ ∀ c', c' ∈ st_conditions old → ¬ same_but_time c' c).
Proof.
  intros Hu. simpl. intros (c0 & -> & _)%list_elem_of_fmap. unfold groom, status_condition.
  destruct (find_condition (c_type c0) (st_conditions old)) as [oc|] eqn:E.
  - apply find_condition_Some in E as [Hoc Ht]. case_decide as Heq; [left; by rewrite Heq|right].
    split; [done|]. intros c' Hc' Hsame. apply same_but_time_fields in Hsame as Hf.
    destruct Hf as [Hct _]. simpl in Hct. pose proof (find_condition_elem _ _ _ Hu Hc' Hct) as E'.
    pose proof (find_condition_elem _ _ _ Hu Hoc Ht) as E2. rewrite E2 in E'. injection E' as <-.
    apply Heq. unfold same_but_time, with_time in *. destruct oc, c0. simpl in *. by simplify_eq.
  - right. split; [done|]. intros c' Hc' [Hct _]%same_but_time_fields. simpl in Hct.
    by rewrite (find_condition_elem _ _ _ Hu Hc' Hct) in E.
Qed.
End StatusFacts.

(** ** What [Reconcile] does *)

Lemma rule_SetDefaults_http r r' : rule_SetDefaults r = Ret r' → is_Some (ru_http r').
Proof. unfold rule_SetDefaults. destruct (ru_http r); simpl; [|done]. intros [= <-]. by eexists. Qed.

Lemma outcome_mapM_Forall {A B} (f : A → outcome B) (P : B → Prop) l l' :
  (∀ a b, f a = Ret b → P b) → outcome_mapM f l = Ret l' → Forall P l'.
Proof.
  intros Hf. revert l'. induction l as [|x l IH]; simpl; intros l'; [intros [= <-]; constructor|].
  destruct (f x) as [b|e|m] eqn:E; simpl; [|done..].
  destruct (outcome_mapM f l) as [bs|e|m]; simpl; [|done..]. intros [= <-]. constructor; eauto.
Qed.

(** Defaulting keeps metadata and status, and an Ingress that survives it has complete rules. *)
Lemma SetDefaults_spec i i' : SetDefaults i = Ret i' →
  ing_meta i' = ing_meta i ∧ ing_status i' = ing_status i ∧ has_http i'.
Proof.
  unfold SetDefaults. destruct (outcome_mapM _ _) as [rules|e|m] eqn:E; simpl; [|done..].
  intros [= <-]. split_and!; [done..|]. eapply outcome_mapM_Forall; [apply rule_SetDefaults_http|done].
Qed.

Section Facts.
Context {S : Type} `{Backend S} `{ResourceClient S} `{MapOrder}.
Context (env : Env) (cfg : Config) (clock : nat → Z).
Implicit Types s : S.

(** The run of [ReconcileKind] inside a reconcile, and the status it leads to. *)
Definition kind_run (resource : Ingress) ticks s : run_state S * list action * outcome () :=
  ReconcileKind env cfg clock resource
    {| rs_backend := s;
       rs_status := PreProcessReconcile clock (ing_generation resource) (ing_status resource, ticks) |}.
Definition final_status (original resource : Ingress) ticks s : IngressStatus :=
  (PostProcessReconcile clock (ing_generation resource) (ing_status original)
     (rs_status (kind_run resource ticks s).1.1)).1.

(** An update of the status replaces the status of an object read before, and nothing else. *)
Definition status_write (original desired : Ingress) (g : gen_action) : Prop :=
  ∃ existing, g = GUpdateStatus (ing_namespace existing) (with_status (ing_status desired) existing) ∧
    status_equal (ing_status existing) (ing_status desired) = false ∧
    (existing = original ∨
     ∃ s0 s1, rc_get s0 (ing_namespace desired) (ing_name desired) = (s1, inr existing)).

(** The update got through, or the status was there already. *)
Definition status_stored (original desired : Ingress) : Prop :=
  status_equal (ing_status original) (ing_status desired) = true ∨
  (∃ s0 s1 existing, rc_get s0 (ing_namespace desired) (ing_name desired) = (s1, inr existing) ∧
     status_equal (ing_status existing) (ing_status desired) = true) ∨
  (∃ s0 s1 u, rc_update_status s0 (ing_namespace u) u = (s1, inr ()) ∧ ing_status u = ing_status desired).

Lemma update_attempts_spec steps attempts original existing desired lastErr s :
  (attempts = 0%nat → existing = original) → (steps = 0%nat → is_Some lastErr) →
  let '(s', l, r) := update_attempts steps attempts existing desired lastErr s in
  Forall (status_write original desired) l ∧ (length l ≤ steps)%nat ∧
  (r = None → status_stored original desired).
Proof.
  revert attempts existing lastErr s. induction steps as [|steps IH]; intros attempts existing lastErr s Ha He; simpl.
  { split_and!; [constructor|lia|]. intros ->. by destruct He. }
  assert (∀ e s existing, let '(s', l, r) :=
    update_attempts steps (Datatypes.S attempts) existing desired (Some e) s in
    Forall (status_write original desired) l ∧ (length l ≤ steps)%nat ∧
    (r = None → status_stored original desired)) as IH'.
  { intros. apply IH; [done|]. by eexists. }
  clear IH. destruct attempts as [|n].
  - rewrite (Ha eq_refl). destruct (status_equal _ _) eqn:Eq; [split_and!; [constructor|simpl; lia|by left]|].
    assert (status_write original desired (GUpdateStatus (ing_namespace original)
      (with_status (ing_status desired) original))) as Hw by (exists original; auto).
    destruct (rc_update_status _ _ _) as [s1 [e|[]]] eqn:Eu.
    + destruct (IsConflict e).
      * specialize (IH' e s1 (with_status (ing_status desired) original)).
        destruct (update_attempts _ _ _ _ _ _) as [[s2 l] r]. destruct IH' as (?&?&?).
        split_and!; [by constructor|simpl; lia|done].
      * split_and!; [by repeat constructor|simpl; lia|done].
    + split_and!; [by repeat constructor|simpl; lia|]. intros _. right. right. eauto 6.
  - destruct (rc_get s _ _) as [s1 [e|ex]] eqn:Eg.
    + destruct (IsConflict e).
      * specialize (IH' e s1 existing). destruct (update_attempts _ _ _ _ _ _) as [[s2 l] r].
        destruct IH' as (?&?&?). split_and!; [done|simpl; lia|done].
      * split_and!; [constructor|simpl; lia|done].
    + destruct (status_equal _ _) eqn:Eq.
      { split_and!; [constructor|simpl; lia|]. intros _. right. left. eauto. }
      assert (status_write original desired (GUpdateStatus (ing_namespace ex)
        (with_status (ing_status desired) ex))) as Hw by (exists ex; eauto 6).
      destruct (rc_update_status _ _ _) as [s2 [e|[]]] eqn:Eu.
      * destruct (IsConflict e).
        -- specialize (IH' e s2 (with_status (ing_status desired) ex)).
           destruct (update_attempts _ _ _ _ _ _) as [[s3 l] r]. destruct IH' as (?&?&?).
           split_and!; [by constructor|simpl; lia|done].
        -- split_and!; [by repeat constructor|simpl; lia|done].
      * split_and!; [by repeat constructor|simpl; lia|]. intros _. right. right. eauto 6.
Qed.

(** The key names an Ingress of our class, not being deleted, for which this replica leads. *)
Definition eligible key s (original : Ingress) : Prop :=
  ∃ namespace name, SplitMetaNamespaceKey key = Ret (namespace, name) ∧
    rc_leader s {| nn_namespace := namespace; nn_name := name |} = true ∧
    rc_get_cached s namespace name = inr (original, false) ∧
    ing_annotations original !! ClassAnnotationKey = Some ContourIngressClassName.

Lemma reconcile_resource_spec original resource ticks s :
  let '(s', l, r) := reconcile_resource env cfg clock original resource ticks s in
  let desired := with_status (final_status original resource ticks s) resource in
  ∃ updates events, l = (GCall <$> (kind_run resource ticks s).1.2) ++ updates ++ events ∧
    Forall (status_write original desired) updates ∧ (length updates ≤ 5)%nat ∧
    Forall (λ g, ∃ reason, g = GEvent reason) events ∧
    (r = GDone → (kind_run resource ticks s).2 = Ret () ∧ status_stored original desired) ∧
    (∀ key, r ≠ GSkipKey key).
Proof.
  unfold reconcile_resource, final_status. fold (kind_run resource ticks s).
  destruct (kind_run resource ticks s) as [[rs calls] o]. cbn [fst snd ing_status with_status].
  set (st := PostProcessReconcile clock _ _ _).
  assert (∀ l r, report_event o = (l, r) → Forall (λ g, ∃ reason, g = GEvent reason) l ∧
    (r = GDone → o = Ret ()) ∧ (∀ key, r ≠ GSkipKey key)) as Hrep.
  { unfold report_event. intros l r. destruct o as [[]|e|m]; intros [= <- <-]; split_and!; try done.
    destruct (IsConflict e); repeat constructor. by eexists. }
  assert (let '(s', l, r) :=
    if status_equal (ing_status original) st.1 then
      let '(l, result) := report_event o in (rs_backend rs, (GCall <$> calls) ++ l, result)
    else let '(s', updates, err) := updateStatus original (with_status st.1 resource) (rs_backend rs) in
      match err with
      | Some e => (s', (GCall <$> calls) ++ updates ++ [GEvent "UpdateFailed"], GError e)
      | None => let '(l, result) := report_event o in (s', (GCall <$> calls) ++ updates ++ l, result)
      end in
    ∃ updates events, l = (GCall <$> calls) ++ updates ++ events ∧
    Forall (status_write original (with_status st.1 resource)) updates ∧ (length updates ≤ 5)%nat ∧
    Forall (λ g, ∃ reason, g = GEvent reason) events ∧
    (r = GDone → o = Ret () ∧ status_stored original (with_status st.1 resource)) ∧
    (∀ key, r ≠ GSkipKey key)) as Hmain.
  { destruct (report_event o) as [l r] eqn:Er. destruct (Hrep l r eq_refl) as (Hl & Hr & Hk).
    destruct (status_equal _ _) eqn:Eq.
    { exists [], l. split_and!; [done|constructor|simpl; lia|done| |done]. intros ->. split; [by apply Hr|by left]. }
    unfold updateStatus.
    pose proof (update_attempts_spec DefaultRetry_Steps 0 original original (with_status st.1 resource) None
      (rs_backend rs) (λ _, eq_refl) ltac:(done)) as Hu.
    destruct (update_attempts _ _ _ _ _ _) as [[s' updates] err]. destruct Hu as (Hw & Hlen & Hst).
    destruct err as [e|].
    - exists updates, [GEvent "UpdateFailed"]. split_and!; try done. repeat constructor. by eexists.
    - exists updates, l. split_and!; try done. intros ->. split; [by apply Hr|by apply Hst]. }
  destruct o as [[]|e|m]; [exact Hmain|exact Hmain|].
  exists [], []. rewrite !app_nil_r. split_and!; try done. simpl. lia.
Qed.

(** C13: a reconcile does something only for an Ingress of this class that is not being
    deleted and for which this replica leads.  It then makes the calls of [ReconcileKind]
    on a defaulted copy, and after them at most five attempts to write the status, each of
    which replaces only the status of an object read before by the one [ReconcileKind]
    led to, and only if it differs.  If it returns nil, [ReconcileKind] did, and that
    status is stored. *)
Theorem Reconcile_writes key ticks s :
  let '(s', l, r) := Reconcile env cfg clock key ticks s in
  (s' = s ∧ l = []) ∨
  ∃ original resource updates events,
    eligible key s original ∧ SetDefaults original = Ret resource ∧ has_http resource ∧
    l = (GCall <$> (kind_run resource ticks s).1.2) ++ updates ++ events ∧
    Forall (status_write original (with_status (final_status original resource ticks s) resource)) updates ∧
    (length updates ≤ 5)%nat ∧ Forall (λ g, ∃ reason, g = GEvent reason) events ∧
    (r = GDone → (kind_run resource ticks s).2 = Ret () ∧
       status_stored original (with_status (final_status original resource ticks s) resource)).
Proof.
  unfold Reconcile. destruct (SplitMetaNamespaceKey key) as [[ns name]|e|m] eqn:Ek; [|by left..].
  destruct (rc_leader s _) eqn:El; [|by left].
  destruct (rc_get_cached s ns name) as [e|[original deleting]] eqn:Eg; [by left|].
  case_decide as Ec; [|by left]. destruct deleting; [by left|].
  destruct (SetDefaults original) as [resource|e|m] eqn:Ed; [|by left..].
  pose proof (reconcile_resource_spec original resource ticks s) as Hr.
  destruct (reconcile_resource _ _ _ _ _ _ _) as [[s' l] r].
  destruct Hr as (updates & events & Hl & Hw & Hlen & He & Hdone & _). right.
  exists original, resource, updates, events.
  split_and!; [exists ns, name; done|done|by eapply SetDefaults_spec|done..].
Qed.

Lemma kind_run_inv original resource ticks s :
  SetDefaults original = Ret resource → status_inv (ing_status original, ticks) →
  status_inv (rs_status (kind_run resource ticks s).1.1) ∧
  ((kind_run resource ticks s).2 = Ret () →
     cond_true (rs_status (kind_run resource ticks s).1.1).1 IngressConditionReady = false ∨
     reconciled_status (S := S) env cfg resource (kind_run resource ticks s).1.1).
Proof.
  intros (_ & Hs & _)%SetDefaults_spec Hi.
  pose proof (ReconcileKind_status_wp env cfg clock resource
    {| rs_backend := s;
       rs_status := PreProcessReconcile clock (ing_generation resource) (ing_status resource, ticks) |}) as Hwp.
  fold (kind_run resource ticks s) in *. unfold wp in Hwp.
  change (ReconcileKind env cfg clock resource _) with (kind_run resource ticks s) in Hwp.
  destruct (kind_run resource ticks s) as [[rs calls] o]. simpl in *. rewrite Hs in *.
  destruct Hwp as [? Hret]; [by apply PreProcessReconcile_inv|]. split; [done|].
  intros ->. destruct (Hret eq_refl) as [[? _]|?]; auto.
Qed.

(** C14: whatever the outcome of a reconcile of an Ingress with a consistent status, every
    status it writes is consistent, is marked as observed for the generation that was
    reconciled, keeps the transition times of unchanged conditions and stamps the others
    with one time; and when [ReconcileKind] succeeded, it says Ready only together with the
    addresses of the configured load balancers, as
    [ReconcileKind] read them. *)
Theorem Reconcile_status_written original resource ticks s :
  SetDefaults original = Ret resource → status_inv (ing_status original, ticks) →
  let st := final_status original resource ticks s in
  ∃ now, status_inv (st, ticks) ∧ st_observed_generation st = ing_generation original ∧
    (∀ c, c ∈ st_conditions st → c ∈ st_conditions (ing_status original) ∨
       (c_time c = now ∧ ∀ c', c' ∈ st_conditions (ing_status original) → ¬ same_but_time c' c)) ∧
    ((kind_run resource ticks s).2 = Ret () → cond_true st IngressConditionReady = true →
       ∃ b : S, read_from resource b (rs_backend (kind_run resource ticks s).1.1) ∧
         st_public st = Some (lbStatus env cfg b IngressVisibilityExternalIP) ∧
         st_private st = Some (lbStatus env cfg b IngressVisibilityClusterLocal)).
Proof.
  intros Hd Hi. destruct (kind_run_inv original resource ticks s Hd Hi) as [Hinv Hret].
  apply SetDefaults_spec in Hd as (Hm & _ & _).
  assert (ing_generation resource = ing_generation original) as Hg by (unfold ing_generation; by rewrite Hm).
  unfold final_status. set (rst := rs_status (kind_run resource ticks s).1.1) in *.
  exists (clock rst.2). split_and!.
  - exact (PostProcessReconcile_inv clock _ _ _ Hinv).
  - done.
  - intros c Hc. eapply PostProcessReconcile_times; [apply Hi|exact Hc].
  - intros Hr Ht. rewrite PostProcessReconcile_cond in Ht.
    destruct (Hret Hr) as [Hn|(_ & _ & Hlb)]; [congruence|by apply Hlb].
Qed.

(** ** A retry that skips the probe *)

Lemma MarkNetworkConfigured_all (s : StatusState) : status_inv s → cond_true s.1 IngressConditionLoadBalancerReady = true →
  cond_true (MarkNetworkConfigured clock s).1 IngressConditionReady = true.
Proof.
  intros [Hwf _] Hlb. rewrite cond_true_status in Hlb |- *. unfold MarkNetworkConfigured. rewrite manage_state.
  apply MarkTrue_happy; auto with golib. intros d Hd Hne.
  apply elem_of_cons in Hd as [->|[->|Hd%elem_of_nil]%elem_of_cons]; done.
Qed.

(** With a load balancer that is marked ready and the generation marked as observed,
    the end of a reconcile asks no probe and leaves the Ingress ready. *)
Lemma finish_skips_probe ing (s : run_state S) : status_inv (rs_status s) →
  cond_true (rs_status s).1 IngressConditionLoadBalancerReady = true →
  st_observed_generation (rs_status s).1 = ing_generation ing →
  wp (finish env cfg clock ing false) s (λ (s' : run_state S) l r,
    r = Ret () ∧ l = [] ∧ IsReady (with_status (rs_status s').1 ing) = true).
Proof.
  intros Hi Hlb Ho. unfold finish. wp_step.
  set (s1 := {| rs_backend := _; rs_status := MarkNetworkConfigured _ _ |}).
  assert (status_inv (rs_status s1)) as Hi1 by (eapply status_step_inv; [constructor|done]).
  assert (cond_true (rs_status s1).1 IngressConditionReady = true) as Hr by (by apply MarkNetworkConfigured_all).
  assert (IsReady (with_status (rs_status s1).1 ing) = true) as Hready.
  { rewrite IsReady_status, Hr, bool_decide_true; [done|]. simpl. by destruct (rs_status s). }
  assert (cond_true (rs_status s1).1 IngressConditionNetworkConfigured = true) as Hn
    by (by apply network_configured).
  clearbody s1. unfold probe_ready. apply wp_bind. wp_step. rewrite Hready. apply wp_ret. cbn [after].
  apply wp_bind. eapply wp_mono; [by apply report_balancers_wp|].
  intros s2 l2 r2 (-> & -> & Hi2 & Hn2 & Hr2 & _). cbn [after].
  wp_step. unfold remove_probe. apply wp_ret. split_and!; [done|done|].
  rewrite IsReady_status, bool_decide_true by (by destruct (rs_status s2)). exact Hr2.
Qed.

(** The first reconcile of a new generation fails while it writes the proxies; what it
    leaves in the status still says that the load balancer is ready. *)
Lemma failed_kind_run resource ticks s e :
  is_Some (ing_annotations resource !! EndpointsProbeKey) →
  (program_proxies env cfg resource {| rs_backend := s;
     rs_status := PreProcessReconcile clock (ing_generation resource) (ing_status resource, ticks) |}).2 = Fail e →
  rs_status (kind_run resource ticks s).1.1 =
    PreProcessReconcile clock (ing_generation resource) (ing_status resource, ticks) ∧
  (kind_run resource ticks s).2 = Fail e.
Proof.
  intros [v Ha] Hf. unfold kind_run, ReconcileKind, endpoint_probe. rewrite Ha.
  unfold mbind, run_bind. simpl.
  set (s0 := {| rs_backend := s; rs_status := _ |}) in *.
  pose proof (program_proxies_keeps env cfg resource s0) as Hk. unfold wp in Hk.
  destruct (program_proxies env cfg resource s0) as [[s1 l] r]. simpl in *. by subst r.
Qed.

(** C21: the comment before the probe says that an Ingress marked Ready for its generation
    must have been probed.  It need not: take an endpoint probe (a child KIngress) whose
    load balancer was marked ready for an older generation.  If the first reconcile of a
    new generation fails while it writes the proxies, the status it leaves is already
    marked as observed, with the load balancer still ready; and when the next reconcile
    gets through with the proxies, it makes the Ingress Ready without asking the prober. *)
Theorem failed_reconcile_skips_probe original resource ticks ticks' s s2 e :
  SetDefaults original = Ret resource → status_inv (ing_status original, ticks) →
  is_Some (ing_annotations resource !! EndpointsProbeKey) →
  cond_true (ing_status original) IngressConditionLoadBalancerReady = true →
  st_observed_generation (ing_status original) ≠ ing_generation original →
  (program_proxies env cfg resource {| rs_backend := s;
     rs_status := PreProcessReconcile clock (ing_generation resource) (ing_status resource, ticks) |}).2 = Fail e →
  let retried := with_status (final_status original resource ticks s) resource in
  (program_proxies env cfg retried {| rs_backend := s2;
     rs_status := PreProcessReconcile clock (ing_generation retried) (ing_status retried, ticks') |}).2 = Ret () →
  IsReady retried = false ∧
  (kind_run retried ticks' s2).2 = Ret () ∧ (AProbe ∉ (kind_run retried ticks' s2).1.2) ∧
  IsReady (with_status (rs_status (kind_run retried ticks' s2).1.1).1 retried) = true.
Proof.
  intros Hd Hi Ha Hlb Ho Hf retried Hok.
  apply SetDefaults_spec in Hd as (Hm & Hst & _).
  assert (ing_generation resource = ing_generation original) as Hg by (unfold ing_generation; by rewrite Hm).
  destruct (failed_kind_run resource ticks s e Ha Hf) as [Hs1 _].
  set (pre := PreProcessReconcile clock (ing_generation resource) (ing_status resource, ticks)) in *.
  assert (status_inv pre) as Hpre by (unfold pre; rewrite Hst; by apply PreProcessReconcile_inv).
  assert (ing_status retried = (PostProcessReconcile clock (ing_generation resource) (ing_status original) pre).1)
    as Hret by (unfold retried, final_status; simpl; by rewrite Hs1).
  assert (status_inv (ing_status retried, ticks')) as Hi2.
  { rewrite Hret. exact (PostProcessReconcile_inv clock _ _ _ Hpre). }
  assert (cond_true (ing_status retried) IngressConditionLoadBalancerReady = true) as Hlb2.
  { rewrite Hret, PostProcessReconcile_cond. unfold pre. rewrite Hst.
    apply PreProcessReconcile_keeps_true; auto with golib. }
  assert (st_observed_generation (ing_status retried) = ing_generation retried) as Ho2 by (by rewrite Hret).
  split.
  { assert (cond_true (ing_status retried) IngressConditionReady = false) as Hn.
    { rewrite Hret, PostProcessReconcile_cond. unfold pre. rewrite Hst.
      apply PreProcessReconcile_new_generation; [done|]. simpl. congruence. }
    unfold IsReady, cond_true in *. rewrite Hn. apply andb_false_r. }
  set (s0 := {| rs_backend := s2; rs_status := _ |}) in Hok.
  assert (wp (program_proxies env cfg retried) s0 (λ (s1 : run_state S) l r,
    rs_status s1 = rs_status s0 ∧ r = Ret () ∧ AProbe ∉ l)) as Hp.
  { pose proof (program_proxies_keeps env cfg retried s0) as Hk.
    pose proof (program_proxies_calls env cfg retried s0) as Hc. unfold wp in *.
    destruct (program_proxies env cfg retried s0) as [[s1 l] r]. simpl in *. split_and!; [done|done|].
    intros Hin. destruct Hc as [Hc _]. rewrite Forall_forall in Hc. specialize (Hc _ Hin). simpl in Hc. lia. }
  assert (wp (ReconcileKind env cfg clock retried) s0 (λ (s1 : run_state S) l r, r = Ret () ∧ (AProbe ∉ l) ∧
    IsReady (with_status (rs_status s1).1 retried) = true)) as Hwp.
  { destruct Ha as [v Ha]. change (ing_annotations retried !! EndpointsProbeKey = Some v) in Ha.
    unfold ReconcileKind, endpoint_probe. rewrite Ha. apply wp_bind, wp_ret. cbn [after].
    apply wp_bind. eapply wp_mono; [exact Hp|]. intros s1 l1 r1 (Hk & -> & Hl1). cbn [after].
    eapply wp_mono; [apply finish_skips_probe|].
    - rewrite Hk. by apply PreProcessReconcile_inv.
    - rewrite Hk. apply PreProcessReconcile_keeps_true; auto with golib.
    - rewrite Hk. simpl. by rewrite PreProcessReconcile_observed.
    - intros s3 l3 r3 (-> & -> & Hr). rewrite app_nil_r. done. }
  apply wp_run in Hwp as (Hr & Hl & Hrd). done.
Qed.
End Facts.
