(* ===== verification/Rollout.v ===== *)
(** * A rollout, step by step

    What [ReconcileKind] does at each stage of the rollout of a generation, against an API
    server whose caches are in sync: before the endpoint probe is ready, when it is, when
    the proxies are written and the prober is still looking, and when all is done.
    [Convergence] is about the proxies; here the child KIngress, the status and the prober
    come in.  [RolloutFacts] composes the stages through the generated reconciler. *)

From S2P Require Import Prelude Hash Meta Regexp Labels Conditions Ingress NetIngress HTTPProxy Config Proxies EndpointProbe Reconcile ReconcileFacts Convergence GenReconciler.

Abbreviation ingress_store := (gmap (string * string) Ingress).

(** The object as the server returns it after a change: another resource version, this status. *)
Definition meta_with_version (rv : string) (m : ObjectMeta) : ObjectMeta := {|
  om_name := om_name m; om_namespace := om_namespace m; om_uid := om_uid m;
  om_resource_version := rv; om_generation := om_generation m; om_labels := om_labels m;
  om_annotations := om_annotations m; om_owners := om_owners m |}.
Definition versioned (rv : string) (st : IngressStatus) (i : Ingress) : Ingress :=
  {| ing_meta := meta_with_version rv (ing_meta i); ing_spec := ing_spec i; ing_status := st |}.

Lemma versioned_self i : versioned (om_resource_version (ing_meta i)) (ing_status i) i = i.
Proof. by destruct i as [[]]. Qed.

(** ** The interface with its laws *)

(** The KIngresses an API server holds, those of them that are being deleted, and what the
    status manager answers for one. *)
Class IngressView (S : Type) := {
  sv_ingresses : S → ingress_store;
  sv_deleting : S → string * string → bool;
  sv_probed : S → Ingress → bool
}.

Section Still.
Context {S : Type} `{Backend S} `{!ResourceClient S} `{!IngressView S}.

(** What no call of the reconciler changes. *)
Definition outside (s s' : S) : Prop :=
  (∀ ns name, bk_get_service s' ns name = bk_get_service s ns name) ∧
  (∀ k, rc_leader s' k = rc_leader s k) ∧ (∀ k, sv_deleting s' k = sv_deleting s k).
Definition still (s s' : S) : Prop := sv_ingresses s' = sv_ingresses s ∧ outside s s'.

#[export] Instance outside_equiv : Equivalence outside.
Proof.
  split.
  - intros s. unfold outside. split_and!; done.
  - intros s s' (? & ? & ?). split_and!; done.
  - intros s1 s2 s3 (A1 & A2 & A3) (B1 & B2 & B3). split_and!; intros; by rewrite ?B1, ?B2, ?B3.
Qed.
#[export] Instance still_preorder : PreOrder still.
Proof.
  split; [by split|]. intros s1 s2 s3 [E1 O1] [E2 O2]. split; [congruence|by etrans].
Qed.
End Still.

(** Caches in sync, objects filed under their keys, status in a subresource; no conflicts,
    since every write is of the version read.  A new specification is a new generation,
    which the status has not observed. *)
Class Served (S : Type) `{Synced S} `{!ResourceClient S} `{!IngressView S} := {
  sv_get (s : S) ns name :
    match sv_ingresses s !! (ns, name) with
    | Some i => bk_get_ingress s ns name = inr i
    | None => ∃ e, bk_get_ingress s ns name = inl e ∧ IsNotFound e = true
    end;
  sv_filed (s : S) k i : sv_ingresses s !! k = Some i → om_key (ing_meta i) = k;
  sv_cached (s : S) ns name i : sv_ingresses s !! (ns, name) = Some i →
    rc_get_cached s ns name = inr (i, sv_deleting s (ns, name));
  sv_create (s : S) ns i : ing_namespace i = ns → ing_status i = empty_status →
    sv_ingresses s !! (ns, ing_name i) = None →
    ∃ s' i', bk_create_ingress s ns i = (s', inr i') ∧ ing_spec i' = ing_spec i ∧
      ing_status i' = empty_status ∧ sv_ingresses s' = <[(ns, ing_name i) := i']> (sv_ingresses s) ∧
      sy_proxies s' = sy_proxies s ∧ outside s s';
  sv_update (s : S) ns i old : ing_namespace i = ns → sv_ingresses s !! (ns, ing_name i) = Some old →
    ing_meta i = ing_meta old → ing_spec i ≠ ing_spec old →
    ∃ s' i', bk_update_ingress s ns i = (s', inr i') ∧ ing_spec i' = ing_spec i ∧ IsReady i' = false ∧
      sv_ingresses s' = <[(ns, ing_name i) := i']> (sv_ingresses s) ∧
      sy_proxies s' = sy_proxies s ∧ outside s s';
  sv_delete (s : S) ns name : is_Some (sv_ingresses s !! (ns, name)) →
    ∃ s', bk_delete_ingress s ns name = (s', inr ()) ∧
      sv_ingresses s' = delete (ns, name) (sv_ingresses s) ∧ sy_proxies s' = sy_proxies s ∧ outside s s';
  sv_update_status (s : S) ns i old : ing_namespace i = ns → sv_ingresses s !! (ns, ing_name i) = Some old →
    ing_meta i = ing_meta old →
    ∃ s' rv, rc_update_status s ns i = (s', inr ()) ∧
      sv_ingresses s' = <[(ns, ing_name i) := versioned rv (ing_status i) old]> (sv_ingresses s) ∧
      sy_proxies s' = sy_proxies s ∧ outside s s';
  sv_create_proxy (s : S) ns p : still s (bk_create_proxy s ns p).1;
  sv_update_proxy (s : S) ns p : still s (bk_update_proxy s ns p).1;
  sv_delete_proxies (s : S) ns text : still s (bk_delete_proxies s ns text).1;
  sv_track (s : S) ref i : still s (bk_track s ref i).1 ∧
    ∀ j, sv_probed (bk_track s ref i).1 j = sv_probed s j;
  sv_probe (s : S) i : ∃ s', bk_probe s i = (s', inr (sv_probed s i)) ∧ still s s' ∧ sy_proxies s' = sy_proxies s
}.

(** ** Runs that move the backend along a relation *)

Definition moves {S A} (F : S → S → Prop) (m : run S A) : Prop :=
  ∀ s, wp m s (λ s' _ _, F (rs_backend s) (rs_backend s')).

Section MovesRules.
Context {S : Type} (F : S → S → Prop) `{!PreOrder F}.

Lemma moves_bind {A B} (m : run S A) (f : A → run S B) : moves F m → (∀ a, moves F (f a)) → moves F (m ≫= f).
Proof.
  intros Hm Hf s. apply wp_bind. eapply wp_mono; [apply Hm|]. intros s1 l1 [a|e|p] Hs; simpl; [|done..].
  eapply wp_mono; [apply Hf|]. simpl. intros. by etrans.
Qed.
Lemma moves_ret {A} (a : A) : moves F (mret a : run S A).
Proof. intros s. apply wp_ret. reflexivity. Qed.
Lemma moves_of_outcome {A} (m : outcome A) : moves F (of_outcome m : run S A).
Proof. intros s. unfold wp, of_outcome. reflexivity. Qed.
Lemma moves_look {A} (g : S → A) : moves F (look g).
Proof. intros s. unfold wp, look. reflexivity. Qed.
Lemma moves_get_status : moves F (get_status : run S _).
Proof. intros s. unfold wp, get_status. reflexivity. Qed.
Lemma moves_throw {A} e : moves F (throw e : run S A).
Proof. intros s. unfold wp, throw. reflexivity. Qed.
Lemma moves_mark g : moves F (mark g : run S ()).
Proof. intros s. unfold wp, mark. reflexivity. Qed.
Lemma moves_call {A} a (f : S → S * (goerr + A)) : (∀ s, F s (f s).1) → moves F (call a f).
Proof. intros Hf s. unfold wp, call. specialize (Hf (rs_backend s)). by destruct (f _). Qed.
Lemma moves_for_each {A} (l : list A) (f : A → run S ()) : (∀ x, moves F (f x)) → moves F (for_each l f).
Proof. intros Hf. induction l as [|x l IH]; simpl; [apply moves_ret|]. by apply moves_bind. Qed.
Lemma moves_for_fold {A B} (l : list A) (b : B) (f : B → A → run S B) :
  (∀ b x, moves F (f b x)) → moves F (for_fold l b f).
Proof. intros Hf. revert b. induction l as [|x l IH]; intros b; simpl; [apply moves_ret|]. by apply moves_bind. Qed.
End MovesRules.

Ltac moves :=
  repeat first [ apply moves_bind; [typeclasses eauto| |intros ?]
               | apply moves_ret; typeclasses eauto
               | apply moves_of_outcome; typeclasses eauto
               | apply moves_look; typeclasses eauto
               | apply moves_get_status; typeclasses eauto
               | apply moves_throw; typeclasses eauto
               | apply moves_mark; typeclasses eauto
               | apply moves_for_each; [typeclasses eauto|intros ?]
               | apply moves_for_fold; [typeclasses eauto|intros ? ?]
               | apply moves_call; intros ?
               | case_match ].

(** ** The stages, for one Ingress *)

Section Stages.
Context {S : Type} `{Served S} `{MapOrder}.
Context (env : Env) (cfg : Config) (clock : nat → Z).
Implicit Types (ing : Ingress) (m : proxy_store).

Definition child_key ing : string * string := (ing_namespace ing, EndpointProbeIngress (ing_meta ing)).

(** No proxy of the current generation. *)
Definition no_current m ing : Prop :=
  ∀ name q, m !! (ing_namespace ing, name) = Some q → ¬ current_labels ing ⊆ hp_labels q.

(** The proxies of the older generations. *)
Definition is_old ing (kp : (string * string) * HTTPProxy) : Prop :=
  kp.1.1 = ing_namespace ing ∧
  Matches (old_generation_selector (ing_name ing) (ing_generation ing)) (hp_labels kp.2) = true.
#[local] Instance is_old_dec ing kp : Decision (is_old ing kp).
Proof. unfold is_old. apply _. Defined.
Definition old_proxies m ing : list HTTPProxy := (map_to_list (filter (is_old ing) m)).*2.

(** The endpoint probe that is wanted. *)
Definition probe_child m ing : outcome Ingress := MakeEndpointProbeIngress cfg ing (old_proxies m ing).
Definition probe_spec m ing (sp : IngressSpec) : Prop := ∃ child, probe_child m ing = Ret child ∧ ing_spec child = sp.

(** An Ingress this program programs. *)
Record programmable ing : Prop := {
  pg_http : has_http ing;
  pg_name : IsLabelValue (ing_name ing) = [];
  pg_generation : (0 ≤ ing_generation ing < 2 ^ 63)%Z;
  pg_top : ing_annotations ing !! EndpointsProbeKey = None
}.

Lemma elem_of_old_proxies m ing p : p ∈ old_proxies m ing ↔
  ∃ name, m !! (ing_namespace ing, name) = Some p ∧
    Matches (old_generation_selector (ing_name ing) (ing_generation ing)) (hp_labels p) = true.
Proof.
  unfold old_proxies. rewrite list_elem_of_fmap. split.
  - intros ([[ns name] q] & -> & [Hq [Hns Hm]]%elem_of_map_to_list%map_lookup_filter_Some).
    simpl in *. subst ns. by exists name.
  - intros (name & Hq & Hm). exists ((ing_namespace ing, name), p). split; [done|].
    apply elem_of_map_to_list, map_lookup_filter_Some. by split.
Qed.

Lemma probe_child_fields m ing desired : has_http ing → probe_child m ing = Ret desired →
  ing_namespace desired = ing_namespace ing ∧ ing_name desired = EndpointProbeIngress (ing_meta ing) ∧
  ing_status desired = empty_status.
Proof.
  intros Hh Hd. destruct (MakeEndpointProbeIngress_ret cfg ing (old_proxies m ing) Hh) as (c & Hc & Hm & Hs & _).
  unfold probe_child in Hd. rewrite Hc in Hd. injection Hd as <-. unfold ing_namespace, ing_name. by rewrite Hm, Hs.
Qed.

(** Getting, creating or updating the child leaves it there as wanted; one that was
    already as wanted is the one that was there. *)
Lemma reconcile_child_runs desired (s : run_state S) :
  ing_status desired = empty_status →
  wp (reconcile_child desired) s (λ s' _ r, ∃ child, r = Ret child ∧ rs_status s' = rs_status s ∧
    ing_spec child = ing_spec desired ∧
    sv_ingresses (rs_backend s') =
      <[(ing_namespace desired, ing_name desired) := child]> (sv_ingresses (rs_backend s)) ∧
    store s' = store s ∧ outside (rs_backend s) (rs_backend s') ∧
    (IsReady child = true →
     sv_ingresses (rs_backend s) !! (ing_namespace desired, ing_name desired) = Some child) ∧
    (∀ old, sv_ingresses (rs_backend s) !! (ing_namespace desired, ing_name desired) = Some old →
     ing_spec old = ing_spec desired → child = old)).
Proof.
  intros Hst. unfold reconcile_child. wp_step.
  pose proof (sv_get (rs_backend s) (ing_namespace desired) (ing_name desired)) as Hg.
  destruct (sv_ingresses (rs_backend s) !! _) as [actual|] eqn:El.
  - rewrite Hg. case_decide as Hsp.
    + apply wp_ret. exists actual. split_and!; try done; [by rewrite insert_id|naive_solver].
    + set (update := with_spec (ing_spec desired) actual).
      pose proof (sv_filed _ _ _ El) as [= Hns Hn].
      destruct (sv_update (rs_backend s) (ing_namespace update) update actual) as (b & i' & Hu & Hsp' & Hr & Hi & Hp & Ho);
        [done|by unfold update, ing_namespace, ing_name in *; simpl; rewrite Hns, Hn|done|by apply not_eq_sym|].
      unfold wp, call. rewrite Hu. simpl. exists i'. split_and!; [done|done|by rewrite Hsp'| |exact Hp|done|by rewrite Hr|].
      2: { intros ? [= <-] E. by destruct Hsp. }
      rewrite Hi. unfold update, ing_namespace, ing_name. simpl. by rewrite Hns, Hn.
  - destruct Hg as (e & -> & ->).
    destruct (sv_create (rs_backend s) (ing_namespace desired) desired) as (b & i' & Hc & Hsp & Hst' & Hi & Hp & Ho);
      [done..|]. unfold wp, call. rewrite Hc. simpl. exists i'. split_and!; [done|done|by rewrite Hsp|exact Hi|exact Hp|done| |done].
    unfold IsReady. rewrite Hst'. simpl. by rewrite andb_false_r.
Qed.

(** Before any proxy of the generation is there: the child is made as wanted, and only if
    it was as wanted before and is ready does the run go on. *)
Lemma endpoint_probe_gate ing (s : run_state S) desired :
  programmable ing → no_current (store s) ing → priors_agree cfg ing (old_proxies (store s) ing) →
  probe_child (store s) ing = Ret desired →
  wp (endpoint_probe cfg clock ing) s (λ s' _ r, ∃ child,
    (∀ old, sv_ingresses (rs_backend s) !! child_key ing = Some old → ing_spec old = ing_spec desired → child = old) ∧
    ing_spec child = ing_spec desired ∧ store s' = store s ∧ outside (rs_backend s) (rs_backend s') ∧
    sv_ingresses (rs_backend s') = <[child_key ing := child]> (sv_ingresses (rs_backend s)) ∧
    if IsReady child
    then r = Ret (Some true) ∧ rs_status s' = rs_status s ∧ sv_ingresses (rs_backend s) !! child_key ing = Some child
    else r = Ret None ∧ rs_status s' =
      MarkIngressNotReady clock "EndpointsNotReady" "Waiting for Envoys to receive Endpoints data."
        (MarkLoadBalancerNotReady clock (rs_status s))).
Proof.
  intros [Hh Hn Hg Ha] Hno Hag Hd. unfold endpoint_probe. rewrite Ha. wp_step.
  destruct (sy_list (rs_backend s) (ing_namespace ing) (SelectorFromSet (current_labels ing))) as (l & -> & Hl).
  assert (l = []) as ->.
  { destruct l as [|q l]; [done|]. destruct (proj1 (Hl q)) as (nm & Hq & Hm); [by left|].
    apply SelectorFromSet_Matches in Hm. by eapply Hno in Hm. }
  apply wp_of_outcome; [|done..]. intros ? [= <-]. rewrite Parse_old_generation by done.
  apply wp_of_outcome; [|done..]. intros sel [= <-]. wp_step.
  destruct (sy_list (rs_backend s) (ing_namespace ing) (old_generation_selector (ing_name ing) (ing_generation ing)))
    as (old & -> & Hold).
  apply wp_of_outcome; [|done..]. intros ? [= <-].
  assert (MakeEndpointProbeIngress cfg ing old = Ret desired) as ->.
  { rewrite <-Hd. symmetry. apply MakeEndpointProbeIngress_order; [done| |done].
    intros p. rewrite elem_of_old_proxies. by rewrite Hold. }
  apply wp_of_outcome; [|done..]. intros ? [= <-].
  destruct (probe_child_fields (store s) ing desired Hh Hd) as (Ens & En & Est).
  apply wp_bind. eapply wp_mono; [by apply reconcile_child_runs|].
  intros s1 l1 r (child & -> & Hs1 & Hsp & Hi & Hst & Ho & Hr & Hold'). cbn [after].
  rewrite Ens, En in Hi, Hr, Hold'. fold (child_key ing) in Hi, Hr, Hold'. destruct (IsReady child) eqn:Er.
  - apply wp_ret. exists child. rewrite Er. split_and!; auto.
  - wp_step. wp_step. apply wp_ret. exists child. rewrite Er. simpl. rewrite Hs1. split_and!; done.
Qed.

(** Once there is one, only the presence of the child is looked at. *)
Lemma endpoint_probe_current ing (s : run_state S) : programmable ing → ¬ no_current (store s) ing →
  endpoint_probe cfg clock ing s =
    (s, [], Ret (Some (bool_decide (is_Some (sv_ingresses (rs_backend s) !! child_key ing))))).
Proof.
  intros [Hh Hn Hg Ha] Hcur. unfold endpoint_probe. rewrite Ha.
  unfold mbind, run_bind, look, of_outcome.
  destruct (sy_list (rs_backend s) (ing_namespace ing) (SelectorFromSet (current_labels ing))) as (l & -> & Hl).
  cbn [lift]. destruct l as [|q l].
  { destruct Hcur. intros nm q Hq Hm. apply (elem_of_nil q), Hl. exists nm. by rewrite SelectorFromSet_Matches. }
  pose proof (sv_get (rs_backend s) (ing_namespace ing) (EndpointProbeIngress (ing_meta ing))) as Hgt.
  unfold child_key. destruct (sv_ingresses (rs_backend s) !! _) as [c|].
  - by rewrite Hgt.
  - destruct Hgt as (e & -> & ->). done.
Qed.

(** ** Programming the proxies *)

Lemma program_proxies_still ing : moves still (program_proxies env cfg ing : run S _).
Proof.
  unfold program_proxies, service_protocols, service_step, reconcile_proxy, cleanup.
  moves; try apply sv_track; try apply sv_create_proxy; try apply sv_update_proxy; try apply sv_delete_proxies.
Qed.

(** Only tracking: the prober is not affected. *)
Definition tracked (s s' : S) : Prop := still s s' ∧ ∀ j, sv_probed s' j = sv_probed s j.
#[local] Instance tracked_preorder : PreOrder tracked.
Proof. split; [by split|]. intros s1 s2 s3 [E1 P1] [E2 P2]. split; [by etrans|]. intros. by rewrite P2. Qed.

Lemma service_protocols_tracked ing : moves tracked (service_protocols cfg ing : run S _).
Proof. unfold service_protocols, service_step. moves. apply sv_track. Qed.

Lemma program_proxies_runs ing (s : run_state S) :
  env_ok env cfg → programmable ing → services_present (rs_backend s) ing →
  separate (wanted env cfg (rs_backend s) ing) →
  Forall (admits (store s) (ing_namespace ing)) (wanted env cfg (rs_backend s) ing) →
  wp (program_proxies env cfg ing) s (λ s' _ r, r = Ret () ∧ rs_status s' = rs_status s ∧
    still (rs_backend s) (rs_backend s') ∧
    Forall (settled (store s') (ing_namespace ing)) (wanted env cfg (rs_backend s) ing) ∧
    no_leftovers (store s') ing).
Proof.
  intros Hok [Hh Hn Hg _] Hsvc Hap Hadm.
  destruct (program_proxies_wp env cfg ing s (λ s', Forall (settled (store s') (ing_namespace ing))
    (wanted env cfg (rs_backend s) ing) ∧ no_leftovers (store s') ing) (λ _, True))
    as (s' & l & Hrun & [Hset Hno] & _); [done..| |].
  - intros s1 l1 Hs1 _. eapply wp_mono; [exact (converging_pass env cfg ing s s1 Hn Hg Hap Hadm Hs1)|]. intros s2 l2 r [-> Hc].
    split; [done|]. eapply wp_mono; [exact Hc|]. intros s3 l3 r (-> & ? & ?). split_and!; first [assumption|done].
  - pose proof (program_proxies_keeps env cfg ing s) as Hk. pose proof (program_proxies_still ing s) as Hst.
    unfold wp in *. rewrite Hrun in *. done.
Qed.

(** Where they are settled, the Services are tracked again and that is all. *)
Lemma program_proxies_again ing (s : run_state S) :
  env_ok env cfg → programmable ing → services_present (rs_backend s) ing →
  Forall (settled (store s) (ing_namespace ing)) (wanted env cfg (rs_backend s) ing) →
  no_leftovers (store s) ing →
  wp (program_proxies env cfg ing) s (λ s' l r, r = Ret () ∧ rs_status s' = rs_status s ∧
    store s' = store s ∧ tracked (rs_backend s) (rs_backend s') ∧ in_phase 1 l).
Proof.
  intros Hok [Hh Hn Hg _] Hsvc Hset Hno.
  pose proof (program_proxies_keeps env cfg ing s) as Hk. revert Hk. unfold program_proxies.
  cut (wp (serviceToProtocol ← service_protocols cfg ing; proxies ← of_outcome (MakeHTTPProxies env cfg ing serviceToProtocol);
           _ ← for_each proxies (reconcile_proxy ing); cleanup ing) s (λ s' l r, r = Ret () ∧ store s' = store s ∧
         tracked (rs_backend s) (rs_backend s') ∧ in_phase 1 l)).
  { unfold wp. destruct ((_ : run S ()) s) as [[s' l] r]. naive_solver. }
  apply wp_bind. pose proof (service_protocols_tracked ing s) as Ht.
  pose proof (service_protocols_wp cfg ing s Hh Hsvc) as Hsp. unfold wp in Ht, Hsp |- *.
  destruct (service_protocols cfg ing s) as [[s1 l1] r1]. destruct Hsp as (-> & Hs1 & Hl1). cbn [after].
  rewrite MakeHTTPProxies_ret by done. apply wp_of_outcome; [|done..]. intros ps [= <-]. apply wp_bind.
  eapply wp_mono; [exact (settled_pass env cfg ing s s1 Hn Hg Hset Hno Hs1)|]. intros s2 l2 r [-> Hc]. cbn [after].
  eapply wp_mono; [exact Hc|]. intros s3 l3 r (-> & -> & -> & ->). rewrite !app_nil_r. split_and!; first [assumption|done].
Qed.

(** ** The end of a run *)

(** All three conditions are True, and the load balancers are those configured. *)
Definition ready_status (b : S) (st : StatusState) : Prop :=
  all_plain ingressCondSet (st_state st) ∧
  st_public st.1 = Some (lbStatus env cfg b IngressVisibilityExternalIP) ∧
  st_private st.1 = Some (lbStatus env cfg b IngressVisibilityClusterLocal).

Lemma lbStatus_outside (b b' : S) vis : outside b b' → lbStatus env cfg b' vis = lbStatus env cfg b vis.
Proof.
  intros (Hs & _). unfold lbStatus. destruct (_ !! vis); [|done]. apply list_fmap_ext. intros i key _.
  destruct (SplitMetaNamespaceKey key) as [[ns name]|e|m]; by rewrite Hs.
Qed.

Lemma probe_ready_runs ing (s : run_state S) :
  wp (probe_ready ing) s (λ s' _ r, ∃ ready, r = Ret ready ∧ rs_status s' = rs_status s ∧ store s' = store s ∧
    still (rs_backend s) (rs_backend s') ∧
    ((∀ j, ing_meta j = ing_meta ing → sv_probed (rs_backend s) j = true) → ready = true)).
Proof.
  unfold probe_ready. wp_step. destruct (IsReady _).
  - apply wp_ret. exists true. split_and!; first [done|reflexivity].
  - unfold wp. destruct (sv_probe (rs_backend s) (with_status (rs_status s).1 ing)) as (b & -> & Hst & Hp).
    eexists. split_and!; [done|done|exact Hp|done|]. intros Hall. by apply Hall.
Qed.

(** Reporting a ready load balancer makes a configured network ready. *)
Lemma lb_ready_status b st : status_inv st → plain ingressCondSet (st_state st) IngressConditionNetworkConfigured →
  ready_status b (MarkLoadBalancerReady clock (lbStatus env cfg b IngressVisibilityExternalIP)
    (lbStatus env cfg b IngressVisibilityClusterLocal) st).
Proof.
  intros [Hwf _] Hn. split; [|apply lb_ready_balancers]. rewrite lb_ready_state. intros t Ht.
  apply elem_of_cons in Ht as [->|Ht].
  - apply MarkTrue_plain_happy; auto with golib. intros d Hd Hne.
    apply elem_of_cons in Hd as [->|[->|Hd%elem_of_nil]%elem_of_cons]; [by eapply plain_status|done|done].
  - apply MarkTrue_plain; auto with golib. apply elem_of_cons in Ht as [->|[->|Ht%elem_of_nil]%elem_of_cons]; auto. done.
Qed.

Lemma remove_probe_runs ing have (s : run_state S) :
  (have = true → is_Some (sv_ingresses (rs_backend s) !! child_key ing)) →
  wp (remove_probe ing have) s (λ s' _ r, r = Ret () ∧ rs_status s' = rs_status s ∧ store s' = store s ∧
    outside (rs_backend s) (rs_backend s') ∧ sv_ingresses (rs_backend s') =
      if have && IsReady (with_status (rs_status s).1 ing) then delete (child_key ing) (sv_ingresses (rs_backend s))
      else sv_ingresses (rs_backend s)).
Proof.
  intros Hc. unfold remove_probe. destruct have; simpl; [|apply wp_ret; split_and!; first [done|reflexivity]].
  wp_step. destruct (IsReady _); [|apply wp_ret; split_and!; first [done|reflexivity]].
  destruct (sv_delete (rs_backend s) (ing_namespace ing) (EndpointProbeIngress (ing_meta ing)) (Hc eq_refl))
    as (b & Hd & Hi & Hp & Ho). unfold wp, call. rewrite Hd. done.
Qed.

Lemma finish_runs ing have (s : run_state S) :
  status_inv (rs_status s) → (have = true → is_Some (sv_ingresses (rs_backend s) !! child_key ing)) →
  wp (finish env cfg clock ing have) s (λ s' _ r, r = Ret () ∧ status_inv (rs_status s') ∧ store s' = store s ∧
    outside (rs_backend s) (rs_backend s') ∧ st_observed_generation (rs_status s').1 = ing_generation ing ∧
    ∃ ready, IsReady (with_status (rs_status s').1 ing) = ready ∧
      ((∀ j, ing_meta j = ing_meta ing → sv_probed (rs_backend s) j = true) → ready = true) ∧
      (ready = true → ready_status (rs_backend s) (rs_status s')) ∧
      sv_ingresses (rs_backend s') =
        if have && ready then delete (child_key ing) (sv_ingresses (rs_backend s)) else sv_ingresses (rs_backend s)).
Proof.
  intros Hinv Hc. unfold finish. wp_step. set (s1 := {| rs_backend := _; rs_status := MarkNetworkConfigured _ _ |}).
  assert (status_inv (rs_status s1)) as Hinv1 by (eapply status_step_1; [constructor|done]).
  assert (plain ingressCondSet (st_state (rs_status s1)) IngressConditionNetworkConfigured) as Hn.
  { unfold s1, MarkNetworkConfigured. simpl. rewrite manage_state. apply MarkTrue_plain; auto with golib. apply Hinv. }
  assert (rs_backend s1 = rs_backend s) as Hb by done. clearbody s1.
  apply wp_bind. eapply wp_mono; [apply probe_ready_runs|].
  intros s2 l2 r (ready & -> & Hst2 & Hp2 & [Hi2 Ho2] & Hprobe). rewrite Hb in *. cbn [after]. rewrite <-Hst2 in Hinv1, Hn.
  apply wp_bind. unfold report_balancers. set (s3 := {| rs_backend := rs_backend s2;
    rs_status := if ready then MarkLoadBalancerReady clock (lbStatus env cfg (rs_backend s2) IngressVisibilityExternalIP)
                   (lbStatus env cfg (rs_backend s2) IngressVisibilityClusterLocal) (rs_status s2)
                 else MarkLoadBalancerNotReady clock (rs_status s2) |}).
  assert (∀ Q, Q s3 [] (Ret ()) → wp (report_balancers env cfg clock ready) s2 Q) as Hrep.
  { intros Q HQ. unfold report_balancers, s3 in *. destruct ready; [by do 2 wp_step|done]. }
  apply Hrep. cbn [after]. clear Hrep.
  assert (status_inv (rs_status s3)) as Hinv3
    by (unfold s3; destruct ready; simpl; [apply (status_step_inv clock _ _ (step_lb_ready clock _ _ _))
        |apply (status_step_inv clock _ _ (step_lb_not_ready clock _))]; exact Hinv1).
  assert (ready = true → ready_status (rs_backend s) (rs_status s3)) as Hready.
  { intros ->. unfold s3. simpl. rewrite !(lbStatus_outside (rs_backend s) (rs_backend s2)) by done. by apply lb_ready_status. }
  assert (cond_true (rs_status s3).1 IngressConditionReady = ready) as Hcr.
  { unfold s3. destruct ready; simpl; [|by apply lb_not_ready_not_ready]. apply lb_ready_all; [done|].
    apply cond_true_status. by eapply plain_status. }
  assert (rs_backend s3 = rs_backend s2) as Hb3 by done. clearbody s3. wp_step.
  set (s4 := {| rs_backend := _; rs_status := _ |}).
  assert (IsReady (with_status (rs_status s4).1 ing) = ready) as Hr4.
  { rewrite IsReady_status, bool_decide_true by done. exact Hcr. }
  eapply wp_mono; [apply remove_probe_runs|].
  - unfold s4. simpl. rewrite Hb3, Hi2. exact Hc.
  - intros s5 l5 r (-> & Hst5 & Hp5 & Ho5 & Hi5). rewrite Hst5 in *. rewrite Hr4 in Hi5.
    unfold s4, store in *. simpl in *. rewrite Hb3 in *.
    split_and!; [done|by apply observe_inv|by rewrite Hp5, Hp2, Hb|by etrans|done|].
    exists ready. split_and!; [exact Hr4|exact Hprobe|exact Hready|]. by rewrite Hi5, Hi2.
Qed.

(** ** When all is done *)

Lemma manage_same (s : StatusState) f : f (st_state s) = st_state s → manage s f = s.
Proof. destruct s as [[] t]. unfold manage, st_state. simpl. by intros ->. Qed.

Lemma MarkNetworkConfigured_settled st : status_inv st → all_plain ingressCondSet (st_state st) →
  MarkNetworkConfigured clock st = st.
Proof. intros [Hwf _] Hall. apply manage_same, MarkTrue_settled; auto with golib. Qed.

Lemma MarkLoadBalancerReady_settled pub priv st : status_inv st → all_plain ingressCondSet (st_state st) →
  st_public st.1 = Some pub → st_private st.1 = Some priv → MarkLoadBalancerReady clock pub priv st = st.
Proof.
  intros [Hwf _] Hall. destruct st as [[g l p q] t]. cbn [fst st_public st_private]. intros -> ->.
  unfold MarkLoadBalancerReady. apply manage_same, MarkTrue_settled; auto with golib.
Qed.

Lemma ready_status_ready b st ing : ready_status b st → st_observed_generation st.1 = ing_generation ing →
  IsReady (with_status st.1 ing) = true.
Proof.
  intros [Hall _] Ho. rewrite IsReady_status, bool_decide_true by done. apply cond_true_status.
  eapply plain_status, Hall. by left.
Qed.

(** The end of a run changes nothing any more. *)
Lemma finish_steady ing (s : run_state S) :
  status_inv (rs_status s) → ready_status (rs_backend s) (rs_status s) →
  st_observed_generation (rs_status s).1 = ing_generation ing → finish env cfg clock ing false s = (s, [], Ret ()).
Proof.
  intros Hinv Hr Ho. destruct s as [b st]. simpl in *.
  unfold finish, probe_ready, report_balancers, remove_probe, mbind, run_bind, mark, get_status. simpl.
  rewrite MarkNetworkConfigured_settled by (done || apply Hr).
  rewrite (ready_status_ready b) by done. simpl. destruct Hr as (Hall & Hpub & Hpriv).
  rewrite MarkLoadBalancerReady_settled by done.
  assert ((with_observed (ing_generation ing) st.1, st.2) = st) as ->; [|done].
  destruct st as [[] t]. simpl in *. by subst.
Qed.

Lemma PreProcessReconcile_steady g st : all_plain ingressCondSet (st_state st) → st_observed_generation st.1 = g →
  PreProcessReconcile clock g st = st.
Proof.
  intros Hall Ho. unfold PreProcessReconcile.
  assert (st_InitializeConditions clock st = st) as ->
    by (apply manage_same, InitializeConditions_settled; auto with golib).
  by rewrite (proj2 (Z.eqb_eq _ _) Ho).
Qed.

Lemma PostProcessReconcile_steady g st : types_unique (st_conditions st.1) → st_observed_generation st.1 = g →
  (PostProcessReconcile clock g st.1 st).1 = st.1.
Proof.
  intros Hu <-. destruct st as [[g l p q] t]. unfold PostProcessReconcile. simpl in *. unfold with_conditions, with_observed. simpl.
  f_equal. etrans; [|apply list_fmap_id]. apply list_fmap_ext. intros i c Hc. simpl. unfold groom, status_condition. simpl.
  rewrite (find_condition_elem (c_type c) l c Hu) by (done || by eapply list_elem_of_lookup_2).
  assert (with_time (c_time c) c = c) as -> by (by destruct c). by rewrite decide_True.
Qed.
End Stages.
