(* ===== verification/RolloutFacts.v ===== *)
(** * Rollouts succeed

    The stages of [Rollout] composed through the generated reconciler of [GenReconciler]:
    reconciling again and again, an Ingress gets its endpoint probe, then its proxies, then
    its Ready condition, and then nothing more is written, provided that between the
    reconciles the endpoint probe becomes ready and the prober sees the proxies.

    [server] is an API server in memory that satisfies the laws of [Rollout]. *)

From S2P Require Import Prelude Hash Meta Regexp Labels Conditions Ingress NetIngress HTTPProxy Config Proxies EndpointProbe Reconcile ReconcileFacts Convergence GenReconciler Rollout.

(** ** Statuses that differ in transition times only *)

Definition like (a b : IngressStatus) : Prop := status_equal a b = true.

Lemma like_fields a b : like a b → st_observed_generation a = st_observed_generation b ∧
  with_time 0 <$> st_conditions a = with_time 0 <$> st_conditions b ∧
  st_public a = st_public b ∧ st_private a = st_private b.
Proof. unfold like, status_equal. intros Hb%bool_decide_eq_true. by injection Hb. Qed.

Lemma find_condition_untimed t l :
  find_condition t (with_time 0 <$> l) = with_time 0 <$> find_condition t l.
Proof. induction l as [|c l IH]; simpl; [done|]. by destruct (String.eqb _ _). Qed.

Lemma like_condition a b t : like a b →
  with_time 0 <$> status_condition a t = with_time 0 <$> status_condition b t.
Proof. intros (_ & Hc & _)%like_fields. unfold status_condition. by rewrite <-!find_condition_untimed, Hc. Qed.

Lemma like_status a b n t : like a b → status_of (st_state (a, n)) t = status_of (st_state (b, n)) t.
Proof.
  intros Hl. apply (like_condition _ _ t) in Hl. unfold status_of, GetCondition. simpl. unfold status_condition in Hl.
  destruct (find_condition t (st_conditions a)), (find_condition t (st_conditions b)); simpl in *; try done.
  injection Hl as _ Hs _ _ _. by rewrite Hs.
Qed.

Lemma like_inv a b n : like a b → status_inv (b, n) → status_inv (a, n).
Proof.
  intros Hl [[Hu HF] Hh]. pose proof (like_fields _ _ Hl) as (_ & Hc & _).
  split; [split|].
  - unfold types_unique in *. simpl in *.
    assert (c_type <$> st_conditions a = c_type <$> st_conditions b) as ->; [|done].
    apply (f_equal (fmap c_type)) in Hc. by rewrite <-!list_fmap_compose in Hc.
  - set (P := λ c, c_type c ∈ happy ingressCondSet :: dependents ingressCondSet ∧ c_severity c = SeverityError) in *.
    change (Forall (P ∘ with_time 0) (st_conditions a)). apply Forall_fmap. rewrite Hc. by apply Forall_fmap.
  - unfold happy_sound in *. setoid_rewrite (like_status a b n _ Hl). exact Hh.
Qed.


Lemma like_IsReady a b i : like a b → IsReady (with_status a i) = IsReady (with_status b i).
Proof.
  intros Hl. pose proof (like_fields _ _ Hl) as (Ho & _). rewrite !IsReady_status, Ho. f_equal.
  apply eq_bool_prop_intro. rewrite !Is_true_true.
  by rewrite (cond_true_status (a, 0)), (cond_true_status (b, 0)), (like_status a b 0).
Qed.

Lemma like_groomed clock g old st : like (PostProcessReconcile clock g old st).1 (with_observed g st.1).
Proof.
  unfold like, status_equal, PostProcessReconcile. apply bool_decide_eq_true. unfold with_conditions. simpl. f_equal.
  rewrite <-list_fmap_compose. apply list_fmap_ext. intros i c _. apply groom_but_time.
Qed.

Lemma like_trans a b c : like a b → like b c → like a c.
Proof. unfold like, status_equal. rewrite !bool_decide_eq_true. congruence. Qed.

(** ** Resource version and status play no part in what is made of an Ingress *)

Lemma SetDefaults_versioned rv st i r : SetDefaults i = Ret r →
  SetDefaults (versioned rv st i) = Ret (versioned rv st r).
Proof.
  unfold SetDefaults. cbn [versioned ing_spec]. destruct (outcome_mapM _ _); simpl; [|done..]. by intros [= <-].
Qed.

Lemma programmable_versioned rv st r : programmable r → programmable (versioned rv st r).
Proof. intros []. by split. Qed.

(** ** Rounds of the generated reconciler *)

Section Rounds.
Context {S : Type} `{Served S} `{MapOrder}.
Context (env : Env) (cfg : Config) (clock : nat → Z).
Context (key ns name : string) (i0 r0 : Ingress).

(** The Ingress [i0] of the key, and what its defaults make of it: a top-level Ingress of
    this program, whose endpoint probe has another name. *)
Record rollable : Prop := {
  rl_key : SplitMetaNamespaceKey key = Ret (ns, name);
  rl_object : om_key (ing_meta i0) = (ns, name);
  rl_class : ing_annotations i0 !! ClassAnnotationKey = Some ContourIngressClassName;
  rl_defaults : SetDefaults i0 = Ret r0;
  rl_programmable : programmable r0;
  rl_env : env_ok env cfg;
  rl_child : EndpointProbeIngress (ing_meta i0) ≠ name
}.

(** The server holds it, not being deleted, with some status; this replica leads for it; its
    Services are there, and the proxies it wants do not get in each other's way. *)
Record base (s : S) : Prop := {
  ba_parent : ∃ rv st, sv_ingresses s !! (ns, name) = Some (versioned rv st i0) ∧ status_inv (st, 0);
  ba_leader : rc_leader s {| nn_namespace := ns; nn_name := name |} = true;
  ba_deleting : sv_deleting s (ns, name) = false;
  ba_services : services_present s r0;
  ba_separate : separate (wanted env cfg s r0);
  ba_some : wanted env cfg s r0 ≠ []
}.

(** No proxy of the generation is there, and the store can take them. *)
Record fresh (s : S) : Prop := {
  fs_none : no_current (sy_proxies s) r0;
  fs_agree : priors_agree cfg r0 (old_proxies (sy_proxies s) r0);
  fs_admits : Forall (admits (sy_proxies s) ns) (wanted env cfg s r0)
}.

(** The child asks for what is to be probed. *)
Definition probe_posted (s : S) : Prop :=
  ∃ child, sv_ingresses s !! child_key r0 = Some child ∧ probe_spec cfg (sy_proxies s) r0 (ing_spec child).
Definition probe_done (s : S) : Prop :=
  ∃ child, sv_ingresses s !! child_key r0 = Some child ∧ probe_spec cfg (sy_proxies s) r0 (ing_spec child) ∧
    IsReady child = true.

Definition programmed (s : S) : Prop :=
  Forall (settled (sy_proxies s) ns) (wanted env cfg s r0) ∧ no_leftovers (sy_proxies s) r0.

Definition parent_ready (s : S) : Prop := ∃ i, sv_ingresses s !! (ns, name) = Some i ∧ IsReady i = true.

(** The prober has seen it served. *)
Definition prober_agrees (s : S) : Prop := ∀ j, om_key (ing_meta j) = (ns, name) → sv_probed s j = true.


Hypothesis Hroll : rollable.

Lemma roll_meta : ing_meta r0 = ing_meta i0.
Proof. apply (SetDefaults_spec i0 r0), Hroll. Qed.

Lemma child_key_ne : child_key r0 ≠ (ns, name).
Proof.
  unfold child_key, ing_namespace. rewrite roll_meta. intros [= _ E]. by apply (rl_child Hroll).
Qed.


Lemma wanted_outside s s' : outside s s' → wanted env cfg s' r0 = wanted env cfg s r0.
Proof.
  intros (Hs & _). unfold wanted. f_equal. apply protocols_of_ext. intros n. apply Hs.
Qed.

(** What a call or another party leaves, but for the Ingress itself. *)
Lemma base_frame s s' rv st : base s → outside s s' →
  sv_ingresses s' !! (ns, name) = Some (versioned rv st i0) → status_inv (st, 0) → base s'.
Proof.
  intros [] Ho Hp Hi. pose proof (wanted_outside _ _ Ho) as Hw. destruct Ho as (Hs & Hl & Hd). split.
  - eauto.
  - by rewrite Hl.
  - by rewrite Hd.
  - intros r Hr. destruct (ba_services0 r Hr) as [svc E]. exists svc. by rewrite Hs.
  - by rewrite Hw.
  - by rewrite Hw.
Qed.



(** A run of [ReconcileKind] that returns nil and leaves the Ingress alone: its status is
    stored, but for transition times if nothing else changed. *)
Lemma Reconcile_ret s ticks rv st rs calls :
  base s → sv_ingresses s !! (ns, name) = Some (versioned rv st i0) →
  kind_run env cfg clock (versioned rv st r0) ticks s = (rs, calls, Ret ()) →
  sv_ingresses (rs_backend rs) !! (ns, name) = Some (versioned rv st i0) →
  outside s (rs_backend rs) → status_inv (rs_status rs) →
  ∃ s' l rv' st', Reconcile env cfg clock key ticks s = (s', (GCall <$> calls) ++ l, GDone) ∧ base s' ∧
    sv_ingresses s' = <[(ns, name) := versioned rv' st' i0]> (sv_ingresses (rs_backend rs)) ∧
    sy_proxies s' = sy_proxies (rs_backend rs) ∧ outside s s' ∧ status_inv (st', 0) ∧
    like st' (with_observed (ing_generation r0) (rs_status rs).1) ∧
    (like st (with_observed (ing_generation r0) (rs_status rs).1) → l = [] ∧ s' = rs_backend rs).
Proof.
  intros Hb Hi Hrun Hrs Hout Hinv.
  cut (∃ s' l rv' st', Reconcile env cfg clock key ticks s = (s', (GCall <$> calls) ++ l, GDone) ∧
    sv_ingresses s' = <[(ns, name) := versioned rv' st' i0]> (sv_ingresses (rs_backend rs)) ∧
    sy_proxies s' = sy_proxies (rs_backend rs) ∧ outside (rs_backend rs) s' ∧
    like st' (with_observed (ing_generation r0) (rs_status rs).1) ∧
    (like st (with_observed (ing_generation r0) (rs_status rs).1) → l = [] ∧ s' = rs_backend rs)).
  { intros (s' & l & rv' & st' & Hr & Hi' & Hp & Ho & Hl & Hsame).
    assert (status_inv (st', 0)) as Hinv'.
    { apply (like_inv _ _ (rs_status rs).2 Hl). destruct (rs_status rs). exact Hinv. }
    assert (outside s s') as Hos by by etrans.
    exists s', l, rv', st'. split_and!; [done| |done..].
    eapply base_frame; [done..| |done]. rewrite Hi'. apply lookup_insert_eq. }
  unfold Reconcile. rewrite (rl_key Hroll), (ba_leader _ Hb).
  rewrite (sv_cached _ _ _ _ Hi), (ba_deleting _ Hb).
  rewrite decide_True by apply (rl_class Hroll). rewrite (SetDefaults_versioned _ _ _ _ (rl_defaults Hroll)).
  unfold reconcile_resource. fold (kind_run env cfg clock (versioned rv st r0) ticks s). rewrite Hrun.
  change (ing_generation (versioned rv st r0)) with (ing_generation r0).
  change (ing_status (versioned rv st i0)) with st.
  pose proof (like_groomed clock (ing_generation r0) st (rs_status rs)) as Hg.
  set (final := PostProcessReconcile clock (ing_generation r0) st (rs_status rs)) in *. cbn [ing_status with_status].
  destruct (status_equal st final.1) eqn:Eq.
  - exists (rs_backend rs), [], rv, st. split_and!; [done|by rewrite insert_id|done|reflexivity|by eapply like_trans|done].
  - unfold updateStatus, update_attempts, DefaultRetry_Steps. cbn [ing_status with_status]. change (ing_status (versioned rv st i0)) with st.
    rewrite Eq. pose proof (rl_object Hroll) as [= Ens En].
    destruct (sv_update_status (rs_backend rs) ns (with_status final.1 (versioned rv st i0)) (versioned rv st i0))
      as (s' & rv' & Hu & Hi' & Hp & Ho); [exact Ens|by unfold ing_name; simpl; rewrite En|done|].
    change (ing_namespace (with_status final.1 (versioned rv st i0))) with (ing_namespace i0).
    unfold ing_namespace at 1. rewrite Ens, Hu. simpl.
    eexists s', _, rv', final.1. split_and!; [done| |done|done|exact Hg|].
    + rewrite Hi'. unfold ing_name. simpl. by rewrite En.
    + intros Hl. exfalso. unfold like in Hl, Hg. apply not_true_iff_false in Eq. apply Eq.
      apply (like_trans _ (with_observed (ing_generation r0) (rs_status rs).1)); [exact Hl|].
      unfold like, status_equal in *. rewrite bool_decide_eq_true in *. by symmetry.
Qed.

Lemma kind_run_start rv st ticks s rs calls (r : outcome ()) :
  (let pre := PreProcessReconcile clock (ing_generation r0) (st, ticks) in
   (have ← endpoint_probe cfg clock (versioned rv st r0);
    match have with
    | None => mret ()
    | Some haveEndpointProbe =>
        _ ← program_proxies env cfg (versioned rv st r0);
        finish env cfg clock (versioned rv st r0) haveEndpointProbe
    end) {| rs_backend := s; rs_status := pre |}) = (rs, calls, r) →
  kind_run env cfg clock (versioned rv st r0) ticks s = (rs, calls, r).
Proof. intros E. exact E. Qed.

(** Before the endpoint probe is done, a reconcile sees to it that it is posted, and
    leaves the proxies alone and the Ingress not ready. *)
Lemma round_posts s ticks : base s → fresh s → ¬ probe_done s →
  ∃ s' l, Reconcile env cfg clock key ticks s = (s', l, GDone) ∧ base s' ∧
    outside s s' ∧ sy_proxies s' = sy_proxies s ∧ probe_posted s' ∧ ¬ parent_ready s'.
Proof.
  intros Hb [Hno Hag _] Hnd. destruct (ba_parent _ Hb) as (rv & st & Hi & Hinv).
  set (pre := PreProcessReconcile clock (ing_generation r0) (st, ticks)).
  assert (status_inv pre) as Hpre by (by apply (PreProcessReconcile_inv clock)).
  destruct (MakeEndpointProbeIngress_ret cfg r0 (old_proxies (sy_proxies s) r0)) as (desired & Hd & _);
    [apply (rl_programmable Hroll)|].
  pose proof (endpoint_probe_gate cfg clock (versioned rv st r0) {| rs_backend := s; rs_status := pre |} desired
    (programmable_versioned _ _ _ (rl_programmable Hroll)) Hno Hag Hd) as Hg. unfold wp in Hg.
  destruct (endpoint_probe cfg clock (versioned rv st r0) _) as [[rs calls] r] eqn:Eg.
  destruct Hg as (child & _ & Hsp & Hp & Ho & Hci & Hr). change (child_key (versioned rv st r0)) with (child_key r0) in *.
  unfold store in Hp. simpl in Hp, Ho, Hci, Hr.
  destruct (IsReady child) eqn:Er.
  { destruct Hnd. destruct Hr as (_ & _ & Hc). exists child. split_and!; [done| |done]. exists desired. done. }
  destruct Hr as (-> & Hst).
  assert (status_inv (MarkLoadBalancerNotReady clock pre)) as Hlb
    by (eapply status_step_inv; [apply step_lb_not_ready|done]).
  destruct (Reconcile_ret s ticks rv st rs calls Hb Hi)
    as (s' & l & rv' & st' & Hrun & Hb' & Hi' & Hp' & Ho' & _ & Hl & _); [|..|done| |].
  { apply kind_run_start. fold pre. unfold mbind, run_bind. rewrite Eg. simpl. by rewrite app_nil_r. }
  { rewrite Hci, lookup_insert_ne; [done|]. by apply child_key_ne. }
  { rewrite Hst. eapply status_step_inv; [apply step_not_ready|done]. }
  exists s', ((GCall <$> calls) ++ l). split_and!; [done..|congruence| |].
  - exists child. rewrite Hi', lookup_insert_ne by (by apply not_eq_sym, child_key_ne).
    rewrite Hci, lookup_insert_eq, Hp', Hp. split; [done|]. exists desired. done.
  - intros (i & Hii & Hir). rewrite Hi', lookup_insert_eq in Hii. injection Hii as <-.
    change (IsReady (with_status st' (versioned rv' st' i0)) = true) in Hir.
    rewrite (like_IsReady _ _ _ Hl), IsReady_status, andb_true_iff in Hir. destruct Hir as [_ Hir].
    change (cond_true (rs_status rs).1 IngressConditionReady = true) in Hir.
    rewrite Hst, unknown_not_ready in Hir; [done|]. exact Hlb.
Qed.








(** ** All the rounds

    Between two reconciles of the key others may change anything but the proxies, the
    Ingress itself, and the specification of its endpoint probe. *)
Record between (s s' : S) : Prop := {
  bt_outside : outside s s';
  bt_proxies : sy_proxies s' = sy_proxies s;
  bt_parent : sv_ingresses s' !! (ns, name) = sv_ingresses s !! (ns, name);
  bt_child : ing_spec <$> sv_ingresses s' !! child_key r0 = ing_spec <$> sv_ingresses s !! child_key r0
}.

(** One reconcile after another, with others in between.  A posted endpoint probe is
    reported ready sooner or later, and programmed proxies are seen by the prober, unless
    they are withdrawn. *)
Record fair_run (ticks : nat → nat) (s : nat → S) : Prop := {
  fr_step n : between (Reconcile env cfg clock key (ticks n) (s n)).1.1 (s (1 + n));
  fr_probe n : probe_posted (s n) → ∃ m, n ≤ m ∧ (probe_done (s m) ∨ ¬ probe_posted (s m));
  fr_prober n : programmed (s n) → ∃ m, n ≤ m ∧ (prober_agrees (s m) ∨ ¬ programmed (s m))
}.

Lemma between_base s s' : base s → between s s' → base s'.
Proof.
  intros Hb []. destruct (ba_parent _ Hb) as (rv & st & Hi & Hinv). apply (base_frame s s' rv st); [done..|congruence|done].
Qed.
Lemma between_fresh s s' : outside s s' → sy_proxies s' = sy_proxies s → fresh s → fresh s'.
Proof. intros Ho Hp []. split; rewrite ?Hp, ?(wanted_outside s s' Ho); done. Qed.
Lemma between_posted s s' : probe_posted s → between s s' → probe_posted s'.
Proof.
  intros (child & Hc & Hsp) []. rewrite Hc in bt_child0. destruct (sv_ingresses s' !! child_key r0) as [c|] eqn:E; [|done].
  exists c. split; [done|]. rewrite bt_proxies0. injection bt_child0 as ->. done.
Qed.
Lemma between_ready s s' : between s s' → parent_ready s' → parent_ready s.
Proof. intros [] (i & Hi & ?). exists i. split; [congruence|done]. Qed.

#[local] Instance probe_done_dec s : Decision (probe_done s).
Proof.
  refine (match sv_ingresses s !! child_key r0 as c return sv_ingresses s !! child_key r0 = c → _ with
          | Some c => λ Hc, match probe_child cfg (sy_proxies s) r0 as d return probe_child cfg (sy_proxies s) r0 = d → _ with
                     | Ret d => λ Hd, cast_if_and (decide (ing_spec d = ing_spec c)) (decide (IsReady c = true))
                     | _ => λ Hd, right _
                     end eq_refl
          | None => λ Hc, right _
          end eq_refl).
  - exists c. split_and!; [done| |done]. by exists d.
  - intros (c' & Hc' & _ & Hr). rewrite Hc in Hc'. injection Hc' as <-. contradiction.
  - intros (c' & Hc' & (d' & Hd' & Hsp) & _). rewrite Hc in Hc'. injection Hc' as <-.
    rewrite Hd in Hd'. injection Hd' as <-. contradiction.
  - intros (c' & Hc' & (d' & Hd' & Hsp) & _). by rewrite Hd in Hd'.
  - intros (c' & Hc' & (d' & Hd' & Hsp) & _). by rewrite Hd in Hd'.
  - intros (c' & Hc' & _). by rewrite Hc in Hc'.
Defined.

Section Run.
Context (ticks : nat → nat) (s : nat → S).
Hypothesis Hrun : fair_run ticks s.
Hypothesis Hbase : base (s 0).
Hypothesis Hfresh : fresh (s 0).

(** While the endpoint probe is not done, the proxies are those of the start, and the
    Ingress waits for the probe that was posted. *)
Definition waiting (n : nat) : Prop :=
  base (s n) ∧ fresh (s n) ∧ sy_proxies (s n) = sy_proxies (s 0) ∧
  (0 < n → probe_posted (s n) ∧ ¬ parent_ready (s n)).

Lemma waiting_step n : waiting n → ¬ probe_done (s n) → waiting (1 + n).
Proof.
  intros (Hb & Hf & Hp & _) Hnd. pose proof (fr_step _ _ Hrun n) as Hbt.
  destruct (round_posts (s n) (ticks n) Hb Hf Hnd) as (s' & l & E & Hb' & Ho & Hp' & Hpost & Hnr).
  rewrite E in Hbt. cbn [fst] in Hbt. split_and!.
  - by apply (between_base s').
  - pose proof Hbt as []. apply (between_fresh s'); [done..|]. by apply (between_fresh (s n)).
  - rewrite (bt_proxies _ _ Hbt). congruence.
  - intros _. split; [by apply (between_posted s')|]. by intros ?%(between_ready s').
Qed.

Lemma waiting_until n : (∀ m, m < n → ¬ probe_done (s m)) → waiting n.
Proof.
  induction n as [|n IH]; intros Hnd.
  - split_and!; [done..|lia].
  - apply waiting_step; [|apply Hnd; lia]. apply IH. intros m Hm. apply Hnd. lia.
Qed.








End Run.
End Rounds.


(** Until a reconcile finds the endpoint probe ready, no proxy is written, the endpoint
    probe stays posted, and the Ingress is not Ready. *)
Theorem rollout_waits {S : Type} `{Served S} `{MapOrder} env cfg clock key ns name i0 r0 (ticks : nat → nat) (s : nat → S) n :
  rollable env cfg key ns name i0 r0 → base env cfg ns name i0 r0 (s 0) → fresh env cfg ns r0 (s 0) →
  fair_run env cfg clock key ns name r0 ticks s → (∀ m, m < n → ¬ probe_done cfg r0 (s m)) →
  sy_proxies (s n) = sy_proxies (s 0) ∧
  (0 < n → probe_posted cfg r0 (s n) ∧ ¬ parent_ready ns name (s n)).
Proof.
  intros Hroll Hb Hf Hrun Hnd.
  by destruct (waiting_until env cfg clock key ns name i0 r0 Hroll ticks s Hrun Hb Hf n Hnd) as (_ & _ & ? & ?).
Qed.

(** A new generation of a programmed Ingress starts afresh: its own proxies are not there,
    and those of the generation before are the older ones its endpoint probe looks at. *)
Lemma next_generation {S : Type} `{Served S} `{MapOrder} env cfg ns r0 (s s' : S) r1 :
  programmed env cfg ns r0 s → sy_proxies s' = sy_proxies s →
  ing_name r1 = ing_name r0 → ing_namespace r1 = ing_namespace r0 → ing_namespace r0 = ns →
  ing_generation r1 ≠ ing_generation r0 →
  no_current (sy_proxies s') r1 ∧
  ∀ p, p ∈ wanted env cfg s r0 → ∃ q, q ∈ old_proxies (sy_proxies s') r1 ∧ up_to_date q p.
Proof.
  intros [Hset Hno] -> Hn Hns Hns0 Hg. split.
  - intros nm q Hq Hcur. rewrite Hns in Hq.
    apply (map_subseteq_spec (current_labels r1)) with (i := ParentKey) (x := ing_name r1) in Hcur as Hp;
      [|unfold current_labels; by rewrite lookup_insert_eq].
    apply (map_subseteq_spec (current_labels r1)) with (i := GenerationKey) (x := FormatInt (ing_generation r1)) in Hcur as Hgen;
      [|unfold current_labels; rewrite lookup_insert_ne by done; by rewrite lookup_singleton_eq].
    rewrite Hn in Hp. rewrite (Hno nm q Hq Hp) in Hgen. injection Hgen as Hgen. by apply Hg, FormatInt_inj.
  - intros p Hp. rewrite Forall_forall in Hset. destruct (Hset p Hp) as (q & (nm & Hq & _) & Hup & _).
    exists q. split; [|done]. apply elem_of_old_proxies. exists nm. rewrite Hns, Hns0. split; [done|].
    apply old_generation_Matches. rewrite Hn. destruct Hup as (Hlab & _).
    unfold wanted in Hp. apply elem_of_proxies_of in Hp as (rule & oh & h & _ & _ & _ & ->).
    rewrite Hlab, host_proxy_labels. unfold proxy_labels. split.
    + rewrite !lookup_insert_ne by done. apply lookup_insert_eq.
    + rewrite lookup_insert_ne, lookup_insert_eq by done. intros [= E%FormatInt_inj]. by apply Hg.
Qed.
