(* ===== verification/Failures.v ===== *)
(** * When calls fail

    What the reconciler leaves behind when an API server fails it at any call, before or
    after having carried the call out, or having carried out a part of a deletion (class
    [Faulty]).  Hosts that were served stay served, by the proxy they had or by the wanted
    one; proxies of others are not touched; and the store still admits the wanted proxies,
    so that [Convergence] applies to the next reconcile. *)

From S2P Require Import Prelude Hash Meta Regexp Labels Conditions Ingress NetIngress HTTPProxy Config Proxies EndpointProbe Reconcile ReconcileFacts Convergence Rollout.

(** ** The interface with its laws *)

(** The store after a write of [p] under [k]: done if it returned an object, and done or
    not if it returned an error. *)
Definition wrote (m m' : proxy_store) (k : string * string) (p : HTTPProxy) (r : goerr + HTTPProxy) : Prop :=
  match r with
  | inr p' => same_content p' p ∧ m' = <[k := p']> m
  | inl _ => m' = m ∨ ∃ p', same_content p' p ∧ m' = <[k := p']> m
  end.

(** The store of proxies behind a backend, or the part of it that is looked at. *)
Class ProxyStore (S : Type) := { fl_proxies : S → proxy_store }.

(** A call that does not concern the proxies; one that does not concern the Services. *)
Definition same_proxies {S : Type} `{ProxyStore S} (s s' : S) : Prop := fl_proxies s' = fl_proxies s.
#[export] Instance same_proxies_preorder {S : Type} `{ProxyStore S} : PreOrder (same_proxies (S := S)).
Proof. split; [by intros s|]. unfold same_proxies. intros s1 s2 s3 E1 E2. congruence. Qed.

Definition same_services {S : Type} `{Backend S} (s s' : S) : Prop :=
  ∀ ns name, bk_get_service s' ns name = bk_get_service s ns name.
#[export] Instance same_services_preorder {S : Type} `{Backend S} : PreOrder (same_services (S := S)).
Proof. split; [by intros s|]. intros s1 s2 s3 E1 E2 ns name. by rewrite E2. Qed.

(** Backends on which the Services stay as they are while a reconcile has yet to read them. *)
Class Steady (S : Type) `{Backend S} : Prop := {
  st_track s ref ing : same_services s (bk_track s ref ing).1;
  st_create_ingress s n i : same_services s (bk_create_ingress s n i).1;
  st_update_ingress s n i : same_services s (bk_update_ingress s n i).1
}.

(** A selector of the proxies of an Ingress, and its proxies. *)
Definition of_parent (parent : string) (sel : Selector) : Prop :=
  ∀ ls, Matches sel ls = true → ls !! ParentKey = Some parent.
Definition mine (ns parent : string) (p : HTTPProxy) : Prop :=
  hp_namespace p = ns ∧ hp_labels p !! ParentKey = Some parent.

(** What the Ingress [parent] of the namespace [ns] relies on: the laws speak of its own
    calls only. *)
Class Faulty (S : Type) `{Backend S} `{ProxyStore S} (ns parent : string) := {
  fl_keys s k p : fl_proxies s !! k = Some p → om_key (hp_meta p) = k;
  fl_list s sel l : of_parent parent sel → bk_list_proxies s ns sel = inr l →
    ∀ p, p ∈ l ↔ ∃ name, fl_proxies s !! (ns, name) = Some p ∧ Matches sel (hp_labels p) = true;
  fl_create s p : mine ns parent p → fl_proxies s !! om_key (hp_meta p) = None →
    wrote (fl_proxies s) (fl_proxies (bk_create_proxy s ns p).1) (om_key (hp_meta p)) p (bk_create_proxy s ns p).2;
  fl_exists s p : mine ns parent p → is_Some (fl_proxies s !! om_key (hp_meta p)) →
    fl_proxies (bk_create_proxy s ns p).1 = fl_proxies s ∧ ∃ e, (bk_create_proxy s ns p).2 = inl e;
  fl_update s p : mine ns parent p → is_Some (fl_proxies s !! om_key (hp_meta p)) →
    wrote (fl_proxies s) (fl_proxies (bk_update_proxy s ns p).1) (om_key (hp_meta p)) p (bk_update_proxy s ns p).2;
  fl_delete s text sel : of_parent parent sel → Parse text = Ret sel →
    let doomed k p := k.1 = ns ∧ Matches sel (hp_labels p) = true in
    let '(s', r) := bk_delete_proxies s ns text in
    fl_proxies s' ⊆ fl_proxies s ∧
    (∀ (k : string * string) p, fl_proxies s !! k = Some p → ¬ doomed k p → fl_proxies s' !! k = Some p) ∧
    (r = inr () → ∀ k p, fl_proxies s' !! k = Some p → ¬ doomed k p);
  fl_track s ref ing : same_proxies s (bk_track s ref ing).1;
  fl_probe s ing : same_proxies s (bk_probe s ing).1;
  fl_create_ingress s n i : same_proxies s (bk_create_ingress s n i).1;
  fl_update_ingress s n i : same_proxies s (bk_update_ingress s n i).1;
  fl_delete_ingress s n name : same_proxies s (bk_delete_ingress s n name).1
}.

(** ** Hosts that stay served *)

(** Proxies with the same place: their name and the labels by which they are found. *)
Definition akin (p q : HTTPProxy) : Prop := hp_name p = hp_name q ∧ match_labels p = match_labels q.

#[export] Instance akin_equivalence : Equivalence akin.
Proof. split; [by intros p|by intros p q []|]. intros p q r [] []. split; congruence. Qed.

Lemma akin_not_apart p q : akin p q → apart p q → False.
Proof. intros [Hn _] []. done. Qed.

Lemma akin_found m ns p u q : akin p u → found_by m ns p q ↔ found_by m ns u q.
Proof. intros [_ E]. unfold found_by. by rewrite E. Qed.

Lemma akin_admits m ns p u : akin p u → admits m ns p → admits m ns u.
Proof.
  intros Ha [Hu Hn]. split.
  - intros q1 q2. rewrite <-!(akin_found m ns p u) by done. apply Hu.
  - intros q. rewrite <-(akin_found m ns p u) by done. rewrite <-(proj1 Ha). apply Hn.
Qed.

(** The wanted proxy belongs to the parent, and is found by its own labels. *)
Definition owned (parent : string) (p : HTTPProxy) : Prop := hp_labels p !! ParentKey = Some parent ∧ self_found p.

Lemma owned_label parent p (ls : gmap string string) : owned parent p → match_labels p ⊆ ls → ls !! ParentKey = Some parent.
Proof.
  intros [Hl _] Hm. rewrite match_labels_found in Hm. rewrite Hm by set_solver. unfold map_get. by rewrite Hl.
Qed.

(** What a reconcile keeps of the store [m0] it started with: [W] are the proxies it wants,
    [U] all those that versions of the Ingress may want. *)
Section Keeping.
Context (ns parent : string) (W U : list HTTPProxy) (m0 : proxy_store).

Record keeping (m : proxy_store) : Prop := {
  kp_admits u : u ∈ U → admits m ns u;
  kp_found u q : u ∈ U → found_by m ns u q →
    (∃ p, p ∈ W ∧ akin p u ∧ up_to_date q p) ∨ found_by m0 ns u q;
  kp_served p : p ∈ W → (∃ q, found_by m0 ns p q) → ∃ q, found_by m ns p q;
  kp_foreign k q : m0 !! k = Some q → hp_labels q !! ParentKey ≠ Some parent → m !! k = Some q
}.

(** They belong to the parent and do not get in the way of other places. *)
Record wanted_among : Prop := {
  wa_places p u : p ∈ W → u ∈ U → akin p u ∨ apart p u;
  wa_sub p : p ∈ W → ∃ u, u ∈ U ∧ akin u p;
  wa_owned p : p ∈ W → owned parent p ∧ hp_namespace p = ns
}.

(** The place of a wanted proxy is taken, by it or by one for the same place. *)
Definition placed (m : proxy_store) (q : HTTPProxy) : Prop := ∃ p, p ∈ W ∧ akin p q ∧ settled m ns p.

Lemma placed_settled m q : separate W → q ∈ W → placed m q → settled m ns q.
Proof. intros Hsep Hq (p & Hp & Ha & Hs). destruct (Hsep p q Hp Hq) as [<-|Hap]; [done|by destruct (akin_not_apart p q)]. Qed.

Lemma keeping_start : (∀ u, u ∈ U → admits m0 ns u) → keeping m0.
Proof. intros Ha. split; auto. Qed.

Hypothesis Hwa : wanted_among.

Lemma keeping_admits m p : keeping m → p ∈ W → admits m ns p.
Proof. intros Hk (u & Hu & Ha)%Hwa. by apply (akin_admits _ _ u), Hk. Qed.

Lemma wanted_akin p q : p ∈ W → q ∈ W → akin p q ∨ apart p q.
Proof.
  intros Hp (u & Hu & Ha)%Hwa. destruct (wa_places Hwa p u Hp Hu) as [Hpu|[Hn Hm]]; [left; by etrans|right].
  destruct Ha as [En Em]. split; congruence.
Qed.

Section Write.
Context (m : proxy_store) (n : string) (p p' : HTTPProxy).
Hypothesis Hkeys : ∀ k q, m !! k = Some q → om_key (hp_meta q) = k.
Hypothesis Hp : p ∈ W.
Hypothesis Hdate : up_to_date p' p.
Hypothesis Hslot : ∀ q, m !! (ns, n) = Some q → match_labels p ⊆ hp_labels q.
Hypothesis Honly : ∀ q, found_by m ns p q → m !! (ns, n) = Some q.
Hypothesis Hname : m !! (ns, n) = None → n = hp_name p.

Let m' : proxy_store := <[(ns, n) := p']> m.

Lemma write_self : self_found p.
Proof. by apply wa_owned. Qed.

Lemma write_settled : settled m' ns p.
Proof. pose proof write_self. by apply put_settled. Qed.

Lemma write_effect q : apart p q → settled m ns q → settled m' ns q.
Proof. pose proof write_self. intros [_ Hne]. by apply (put_settled_other m ns n p p'). Qed.

Lemma write_admits : admits m ns p → admits m' ns p.
Proof.
  intros Ha. destruct write_settled as (f & Hf & _ & Hall).
  split; [intros q1 q2 H1 H2; by rewrite (Hall _ H1), (Hall _ H2)|]. intros r Hr.
  destruct (decide (n = hp_name p)) as [->|Hnn].
  - exists (hp_name p). split; [done|]. unfold m' in Hr. rewrite lookup_insert_eq in Hr. injection Hr as <-.
    apply (put_labels p p'); [apply write_self|done].
  - exfalso. unfold m' in Hr. rewrite lookup_insert_ne in Hr by congruence.
    pose proof (proj2 Ha r Hr) as Hfr. apply Honly in Hfr. apply Hkeys in Hr, Hfr. congruence.
Qed.

Lemma keeping_write : keeping m → keeping m'.
Proof.
  intros Hs. pose proof write_self as Hself. pose proof write_settled as Hset. split.
  - intros u Hu. destruct (wa_places Hwa p u Hp Hu) as [Ha|[Hn Hne]].
    + apply (akin_admits _ _ p); [done|]. by apply write_admits, keeping_admits.
    + apply (put_admits_other m ns n p p'); try done; [|by apply (kp_admits _ Hs)]. intros E. by rewrite (Hname E).
  - intros u r Hu Hr. destruct (wa_places Hwa p u Hp Hu) as [Ha|[_ Hne]].
    + left. destruct Hset as (f & Hf & Hd & Hall). apply (akin_found _ _ p) in Hr; [|done].
      exists p. split_and!; [done..|]. by rewrite (Hall _ Hr).
    + apply (put_found_other m ns n p p') in Hr; [|done..]. by apply (kp_found _ Hs).
  - intros q Hq H0. destruct (wanted_akin p q Hp Hq) as [Ha|[_ Hne]].
    + destruct Hset as (f & Hf & _). exists f. by apply (akin_found _ _ p q).
    + destruct (kp_served _ Hs q Hq H0) as [r Hr]. exists r. by apply (put_found_other m ns n p p').
  - intros k q Hk Hl. pose proof (kp_foreign _ Hs k q Hk Hl) as Hm. unfold m'.
    rewrite lookup_insert_ne; [done|]. intros <-. apply Hl, (owned_label _ p); [by apply Hwa|]. by apply Hslot.
Qed.
End Write.

(** Deleting some of the older ones, once all are settled. *)
Lemma keeping_remove m m' gen : (∀ p, p ∈ W → hp_labels p !! GenerationKey = Some gen) →
  Forall (placed m) W → keeping m → m' ⊆ m →
  (∀ k q, m !! k = Some q →
    ¬ (k.1 = ns ∧ hp_labels q !! ParentKey = Some parent ∧ hp_labels q !! GenerationKey ≠ Some gen) → m' !! k = Some q) →
  keeping m' ∧ Forall (placed m') W.
Proof.
  intros Hgen Hset Hs Hsub Hkept. rewrite Forall_forall in Hset.
  assert (∀ u q, found_by m' ns u q → found_by m ns u q) as Hfound
    by (intros u q (name & Hq & Hm); exists name; split; [by eapply lookup_weaken|done]).
  assert (∀ p, p ∈ W → settled m ns p → settled m' ns p) as Hstay.
  { intros p Hp (f & (name & Hl & Hm) & Hd & Hall). exists f. split_and!; [|done|].
    - exists name. split; [|done]. apply Hkept; [done|]. intros (_ & _ & Hg). apply Hg.
      destruct Hd as [-> _]. by apply Hgen.
    - intros q Hq. by apply Hall, Hfound. }
  assert (∀ p, p ∈ W → placed m' p) as Hset'
    by (intros q Hq; destruct (Hset q Hq) as (p & Hp & Ha & Hs0); exists p; split_and!; [done..|by apply Hstay]).
  split; [split|by apply Forall_forall].
  - intros u Hu. destruct (kp_admits _ Hs u Hu) as [Huniq Hn]. split; [intros q1 q2 H1 H2; by apply Huniq; apply Hfound|].
    intros q Hq. destruct (Hn q) as (nm & _ & Hm); [by eapply lookup_weaken|]. by exists (hp_name u).
  - intros u q Hu Hq. by apply (kp_found _ Hs), Hfound.
  - intros q Hq _. destruct (Hset' q Hq) as (p & Hp & Ha & f & Hf & _). exists f. by apply (akin_found _ _ p q).
  - intros k q Hk Hl. apply Hkept; [by apply (kp_foreign _ Hs)|]. by intros (_ & ? & _).
Qed.
End Keeping.

(** The same for the proxies wanted alone. *)
Record serving (ns parent : string) (W : list HTTPProxy) (m0 m : proxy_store) : Prop := {
  sg_admits p : p ∈ W → admits m ns p;
  sg_found p q : p ∈ W → found_by m ns p q → up_to_date q p ∨ found_by m0 ns p q;
  sg_served p : p ∈ W → (∃ q, found_by m0 ns p q) → ∃ q, found_by m ns p q;
  sg_foreign k q : m0 !! k = Some q → hp_labels q !! ParentKey ≠ Some parent → m !! k = Some q
}.

Lemma keeping_serving ns parent W m0 m : separate W → keeping ns parent W W m0 m → serving ns parent W m0 m.
Proof.
  intros Hsep Hk. split; [apply Hk| |apply Hk|apply Hk].
  intros p q Hp Hq. destruct (kp_found _ _ _ _ _ _ Hk p q Hp Hq) as [(p' & Hp' & [Hn _] & Hd)|]; [left|by right].
  destruct (Hsep p' p Hp' Hp) as [->|[Hne _]]; [done|by destruct Hne].
Qed.

(** ** The pass over the proxies *)

Section Faults.
Context {S : Type} `{Backend S} `{ProxyStore S} (ns parent : string) `{!Faulty S ns parent} `{MapOrder}.
Context (env : Env) (cfg : Config).
Implicit Types (ing : Ingress) (s : run_state S).

Definition kept s : proxy_store := fl_proxies (rs_backend s).

Definition fl_same (b b' : S) : Prop := same_proxies b b' ∧ (Steady S → same_services b b').
#[local] Instance fl_same_preorder : PreOrder fl_same.
Proof. split; [by split|]. intros b1 b2 b3 [E1 G1] [E2 G2]. split; [by etrans|]. intros Hst. etrans; auto. Qed.

Lemma wrote_up_to_date m m' k p r : wrote m m' k p r → m' = m ∧ (∀ q, r ≠ inr q) ∨ ∃ p', up_to_date p' p ∧ m' = <[k := p']> m.
Proof.
  unfold wrote. destruct r as [e|p1]; [intros [->|(p' & (_ & _ & ?) & ->)]|intros [(_ & _ & ?) ->]]; [by left|right; by eexists..].
Qed.

(** A write into the slot of [p], done or not. *)
Lemma keeping_wrote W U m0 m m' n p p1 r :
  wanted_among ns parent W U → p ∈ W → keeping ns parent W U m0 m →
  (∀ k q, m !! k = Some q → om_key (hp_meta q) = k) →
  (∀ q, m !! (ns, n) = Some q → match_labels p ⊆ hp_labels q) →
  (∀ q, found_by m ns p q → m !! (ns, n) = Some q) → (m !! (ns, n) = None → n = hp_name p) →
  up_to_date p1 p → wrote m m' (ns, n) p1 r →
  keeping ns parent W U m0 m' ∧ ((∃ q, r = inr q) → settled m' ns p) ∧
    ∀ q, q ∈ W → apart p q → settled m ns q → settled m' ns q.
Proof.
  intros Hwa Hp Hs Hkeys Hslot Honly Hname Hd Hw.
  destruct (wrote_up_to_date _ _ _ _ _ Hw) as [[-> Hr]|(p' & Hd' & ->)].
  - split_and!; [done| |done]. intros [q ->]. by destruct (Hr q).
  - assert (up_to_date p' p) as Hd2 by (destruct Hd as (? & ? & ?), Hd' as (? & ? & ?); split_and!; congruence).
    split_and!.
    + by apply keeping_write with (p := p).
    + intros _. by apply (write_settled ns parent W U).
    + intros q _. by apply (write_effect ns parent W U).
Qed.

Lemma owned_selector p : owned parent p → of_parent parent (SelectorFromSet (match_labels p)).
Proof. intros Hp ls Hm%SelectorFromSet_Matches. by apply (owned_label _ p). Qed.

(** One proxy: whatever happens, what was served is; if there is no error, it is settled. *)
Lemma reconcile_proxy_keeping ing W U m0 p s : ing_namespace ing = ns →
  wanted_among ns parent W U → p ∈ W → keeping ns parent W U m0 (kept s) →
  wp (reconcile_proxy ing p) s (λ s' _ r, keeping ns parent W U m0 (kept s') ∧ (r = Ret () → settled (kept s') ns p) ∧
    ∀ q, q ∈ W → apart p q → settled (kept s) ns q → settled (kept s') ns q).
Proof.
  intros Ens Hwa Hp Hs. destruct (wa_owned _ _ _ _ Hwa p Hp) as [Hown Hns].
  destruct (keeping_admits _ _ _ _ _ Hwa _ p Hs Hp) as [Huniq Hname].
  unfold reconcile_proxy. wp_step. rewrite Ens.
  destruct (bk_list_proxies (rs_backend s) ns (SelectorFromSet (match_labels p))) as [e|l] eqn:Hl.
  { apply wp_of_outcome; [by intros ? [=]|..]; intros ? [= <-]; done. }
  apply wp_of_outcome; [|done..]. intros ? [= <-].
  assert (∀ q, q ∈ l ↔ found_by (kept s) ns p q) as Hin.
  { intros q. rewrite (fl_list _ _ _ (owned_selector _ Hown) Hl). unfold found_by, kept. by setoid_rewrite SelectorFromSet_Matches. }
  destruct l as [|found l].
  - assert (∀ q, ¬ found_by (kept s) ns p q) as Hno by (intros q Hq%Hin; by apply elem_of_nil in Hq).
    assert (kept s !! (ns, hp_name p) = None) as Hfree
      by (apply eq_None_not_Some; intros [q E]; apply (Hno q), (Hname q E)).
    assert (om_key (hp_meta p) = (ns, hp_name p)) as Hkey by by rewrite <-Hns.
    pose proof (fl_create (rs_backend s) p (conj Hns (proj1 Hown))) as Hcr. rewrite Hkey in Hcr. specialize (Hcr Hfree).
    apply (keeping_wrote W U m0 _ _ _ p) in Hcr as (Hs' & Hset & Hoth); try done;
      [|exact (fl_keys (rs_backend s))|intros q Hq; change (kept s !! (ns, hp_name p) = Some q) in Hq; by rewrite Hfree in Hq|intros q Hq; by destruct (Hno q)].
    apply wp_bind. unfold wp, call. rewrite Hns. destruct (bk_create_proxy (rs_backend s) ns p) as [b [e|q]]; simpl in *;
      (split_and!; [exact Hs'| |exact Hoth]); [done|intros _; apply Hset; by eexists].
  - assert (found_by (kept s) ns p found) as Hf by (apply Hin; left). case_decide as Hupd.
    { apply wp_ret. split_and!; [done| |done]. intros _. exists found. split_and!; [done|by rewrite Hupd|].
      intros q Hq. by apply Huniq. }
    destruct Hf as (name & Hlook & Hsub). pose proof (fl_keys (rs_backend s) _ _ Hlook) as Hk.
    assert (mine ns parent (updated_proxy found p)) as Hmu by (split; [by injection Hk|apply Hown]).
    pose proof (fl_update (rs_backend s) (updated_proxy found p) Hmu) as Hu.
    change (om_key (hp_meta (updated_proxy found p))) with (om_key (hp_meta found)) in Hu. rewrite Hk in Hu.
    specialize (Hu ltac:(by eexists)).
    apply (keeping_wrote W U m0 _ _ _ p) in Hu as (Hs' & Hset & Hoth); try done;
      [|exact (fl_keys (rs_backend s))|intros q Hq; unfold kept in Hlook; rewrite Hlook in Hq; by injection Hq as <-
       |intros q Hq; assert (q = found) as ->; [apply Huniq; [done|by exists name]|done]
       |unfold kept in Hlook; by rewrite Hlook].
    apply wp_bind. unfold wp, call. rewrite Hns. destruct (bk_update_proxy (rs_backend s) ns (updated_proxy found p)) as [b [e|q]];
      simpl in *; (split_and!; [exact Hs'| |exact Hoth]); [done|intros _; apply Hset; by eexists].
Qed.

Lemma reconcile_proxies_keeping ing W U m0 ps s : ing_namespace ing = ns →
  wanted_among ns parent W U → (∀ p, p ∈ ps → p ∈ W) → keeping ns parent W U m0 (kept s) →
  wp (for_each ps (reconcile_proxy ing)) s (λ s' _ r, keeping ns parent W U m0 (kept s') ∧
    (r = Ret () → ∀ p, p ∈ W → p ∈ ps ∨ placed ns W (kept s) p → placed ns W (kept s') p)).
Proof.
  intros Ens Hwa. revert s. induction ps as [|p ps IH]; intros s Hps Hs; simpl.
  { apply wp_ret. split; [done|]. intros _ q _ [Hq|Hq]; [by apply elem_of_nil in Hq|done]. }
  apply wp_bind. eapply wp_mono; [apply (reconcile_proxy_keeping ing W U m0); [done..|apply Hps; by left|done]|].
  intros s1 l1 r (Hs1 & Hset & Hoth). destruct r as [[]|e|m]; simpl; [|by split..].
  eapply wp_mono; [apply IH; [intros q Hq; apply Hps; by right|done]|]. simpl. intros s2 _ r (Hs2 & Hall). split; [done|].
  intros -> q Hq Hin. apply Hall; [done..|]. rewrite elem_of_cons in Hin. assert (p ∈ W) as Hp by (apply Hps; by left).
  assert (settled (kept s1) ns p) as Hsp by (by apply Hset).
  destruct Hin as [[->|Hin]|(p0 & Hp0 & Ha0 & Hs0)]; [right; by exists p|by left|right].
  destruct (wanted_akin ns parent W U Hwa p p0 Hp Hp0) as [Ha|Hap].
  - exists p. split_and!; [done|by etrans|done].
  - exists p0. split_and!; [done..|by apply Hoth].
Qed.

Lemma cleanup_keeping ing W U m0 s : ing_namespace ing = ns → ing_name ing = parent →
  IsLabelValue (ing_name ing) = [] → (0 ≤ ing_generation ing < 2 ^ 63)%Z →
  (∀ p, p ∈ W → current ing p) → keeping ns parent W U m0 (kept s) → Forall (placed ns W (kept s)) W →
  wp (cleanup ing) s (λ s' _ r, keeping ns parent W U m0 (kept s') ∧
    (r = Ret () → Forall (placed ns W (kept s')) W ∧ no_leftovers (kept s') ing)).
Proof.
  intros Ens Epa Hn Hg Hcur Hs Hset. unfold cleanup. rewrite Parse_old_generation by done.
  assert (of_parent parent (old_generation_selector (ing_name ing) (ing_generation ing))) as Hof
    by (intros ls Hm; apply old_generation_Matches in Hm as [-> _]; by rewrite Epa).
  apply wp_of_outcome; [|done..]. intros sel [= <-]. wp_step. rewrite Ens.
  destruct (bk_list_proxies (rs_backend s) ns (old_generation_selector (ing_name ing) (ing_generation ing))) as [e|l] eqn:Hl.
  { apply wp_of_outcome; [by intros ? [=]|..]; intros ? [= <-]; done. }
  apply wp_of_outcome; [|done..]. intros ? [= <-]. destruct l as [|q l].
  { apply wp_ret. split; [done|]. intros _. split; [done|]. intros name q Hq Hp. rewrite Ens in Hq.
    destruct (decide (hp_labels q !! GenerationKey = Some (FormatInt (ing_generation ing)))) as [|Hgen]; [done|].
    assert (q ∈ []) as Hbad; [|by apply elem_of_nil in Hbad]. apply (fl_list _ _ _ Hof Hl). exists name.
    split; [done|]. by apply old_generation_Matches. }
  pose proof (fl_delete (rs_backend s) _ _ Hof (Parse_delete_text _ _ Hn Hg)) as Hdel. simpl in Hdel.
  unfold wp, call. destruct (bk_delete_proxies (rs_backend s) ns _) as [b r]. destruct Hdel as (Hsub & Hkept & Hgone).
  destruct (keeping_remove ns parent W U m0 (kept s) (fl_proxies b) (FormatInt (ing_generation ing))) as [Hs' Hset'];
    [done..| |].
  { intros k p Hk Hno. apply Hkept; [done|]. intros [Hkn Hm]. apply Hno. apply old_generation_Matches in Hm as [? ?]. by rewrite <-Epa. }
  split; [done|]. intros Hr. split; [done|]. intros name p Hp Hpar. rewrite Ens in Hp.
  destruct (decide (hp_labels p !! GenerationKey = Some (FormatInt (ing_generation ing)))) as [|Hgen]; [done|].
  destruct r as [e|[]]; [done|]. destruct (Hgone eq_refl _ _ Hp). split; [done|]. by apply old_generation_Matches.
Qed.

(** *** The calls around it *)

(** The protocols a reconcile may find: those of the Services, if these are steady. *)
Definition possible b ing (stp : gmap string string) : Prop :=
  Steady S → stp = protocols_of cfg b (ing_namespace ing) (sets_List (dom (foldl add_reference ∅ (references ing)))) ∅.

Lemma possible_same b b' ing stp : fl_same b b' → possible b' ing stp → possible b ing stp.
Proof. intros [_ Hg] Hp Hst. rewrite Hp by done. apply protocols_of_ext. intros name. by apply Hg. Qed.

Lemma possible_now b ing : ∃ stp, possible b ing stp.
Proof. eexists. by intros _. Qed.

Lemma service_protocols_serving ing s : has_http ing →
  wp (service_protocols cfg ing) s (λ s' _ r, same_proxies (rs_backend s) (rs_backend s') ∧
    ∀ stp, r = Ret stp → possible (rs_backend s) ing stp).
Proof.
  intros Hh. unfold service_protocols, possible. rewrite ServiceNames_ret by done.
  apply wp_of_outcome; [|done..]. intros info [= <-].
  generalize (sets_List (dom (foldl add_reference ∅ (references ing)))), (∅ : gmap string string).
  intros names stp. revert stp s. induction names as [|n names IH]; intros stp s; simpl.
  { apply wp_ret. split; [done|]. by intros ? [= <-]. }
  apply wp_bind. unfold service_step. wp_step. apply wp_bind. unfold wp at 1, call.
  pose proof (fl_track (rs_backend s) (service_ref ing n) (with_status (rs_status s).1 ing)) as Hp.
  assert (Steady S → same_services (rs_backend s) (bk_track (rs_backend s) (service_ref ing n) (with_status (rs_status s).1 ing)).1) as Hg
    by (intros Hst; apply st_track).
  unfold service_ref in Hp, Hg. destruct (bk_track _ _ _) as [b [e|[]]]; simpl in *; [done|]. wp_step. simpl.
  destruct (bk_get_service b (ing_namespace ing) n) as [e|svc] eqn:Hs.
  { apply wp_of_outcome; [by intros ? [=]|..]; intros ? [= <-]; simpl; done. }
  apply wp_of_outcome; [|done..]. intros svc' [= <-]. apply wp_ret. simpl.
  eapply wp_mono; [apply IH|]. simpl. intros s2 _ r (Hp2 & Hr). split; [by etrans|].
  intros stp' E Hst. rewrite (Hr stp' E Hst), <-(Hg Hst), Hs. apply protocols_of_ext. intros name. by apply Hg.
Qed.

Lemma endpoint_probe_same clock ing : moves fl_same (endpoint_probe cfg clock ing : run S _).
Proof.
  unfold endpoint_probe, reconcile_child. moves; (split; [|intros Hst]);
    first [apply fl_create_ingress|apply fl_update_ingress|apply st_create_ingress|apply st_update_ingress].
Qed.

Lemma finish_same clock ing have : moves same_proxies (finish env cfg clock ing have : run S _).
Proof.
  unfold finish, report_balancers, remove_probe, probe_ready. moves; [|apply fl_delete_ingress..].
  intros s. unfold wp. match goal with |- context [bk_probe ?b ?i] => pose proof (fl_probe b i); by destruct (bk_probe b i) end.
Qed.

(** Whatever protocols it finds, it makes proxies of its own. *)
Lemma proxies_of_owned stp ing p : p ∈ proxies_of env cfg stp ing →
  owned (ing_name ing) p ∧ hp_namespace p = ing_namespace ing ∧ current ing p.
Proof.
  intros Hp. destruct (proxies_of_facts env cfg stp ing p Hp) as (Hns & Hself & Hcur). split; [|done]. split; [|done].
  apply elem_of_proxies_of in Hp as (rule & oh & h & _ & _ & _ & ->).
  rewrite host_proxy_labels. unfold proxy_labels. by simpl_map.
Qed.

(** They are among those that may be wanted. *)
Lemma proxies_of_among stp ing U :
  let W := proxies_of env cfg stp ing in
  (∀ p, p ∈ W → ∃ u, u ∈ U ∧ akin u p) →
  (∀ p u, p ∈ W → u ∈ U → akin p u ∨ apart p u) →
  wanted_among (ing_namespace ing) (ing_name ing) W U.
Proof.
  intros W Hsub Hpl. split; [done|done|].
  intros p Hp. by destruct (proxies_of_owned _ _ _ Hp) as (? & ? & _).
Qed.

(** What is kept, with the protocols that were found, and what a return of nil means. *)
Definition kept_with ing U stp s s' (r : outcome ()) : Prop :=
  let W := proxies_of env cfg stp ing in
  keeping ns parent W U (kept s) (kept s') ∧
  (r = Ret () → kept s' = kept s ∨ Forall (placed ns W (kept s')) W ∧ no_leftovers (kept s') ing).

Lemma kept_untouched ing U stp s s' r : (∀ u, u ∈ U → admits (kept s) ns u) → kept s' = kept s → kept_with ing U stp s s' r.
Proof. intros Hadm E. unfold kept_with. rewrite E. split; [by apply keeping_start|]. by left. Qed.

(** The pass over the proxies. *)
Lemma program_proxies_keeping ing U s : ing_namespace ing = ns → ing_name ing = parent →
  env_ok env cfg → has_http ing → IsLabelValue (ing_name ing) = [] → (0 ≤ ing_generation ing < 2 ^ 63)%Z →
  (∀ stp, possible (rs_backend s) ing stp → wanted_among ns parent (proxies_of env cfg stp ing) U) →
  (∀ u, u ∈ U → admits (kept s) ns u) →
  wp (program_proxies env cfg ing) s (λ s' _ r, ∃ stp, possible (rs_backend s) ing stp ∧ kept_with ing U stp s s' r).
Proof.
  intros Ens Epa Hok Hh Hn Hg Hwas Hadm. destruct (possible_now (rs_backend s) ing) as [stp0 Hstp0].
  unfold program_proxies. apply wp_bind. eapply wp_mono; [by apply service_protocols_serving|].
  intros s1 l1 r (E1 & Hr). change (kept s1 = kept s) in E1.
  destruct r as [stp|e|m]; simpl; [|by exists stp0; split; [|apply kept_untouched]..].
  specialize (Hr stp eq_refl). pose proof (Hwas stp Hr) as Hwa. set (W := proxies_of env cfg stp ing) in *.
  assert (∀ q, q ∈ W → current ing q) as Hcur by (intros q Hq; by apply proxies_of_owned in Hq as (_ & _ & ?)).
  rewrite MakeHTTPProxies_ret by done. apply wp_of_outcome; [|done..]. intros ps [= <-]. fold W. apply wp_bind.
  eapply wp_mono; [apply (reconcile_proxies_keeping ing W U (kept s) W);
    [done..|rewrite E1; by apply (keeping_start ns parent W U)]|].
  intros s2 l2 r (Hs2 & Hset). destruct r as [[]|e|m]; simpl; [|by exists stp; split; [|split]..].
  eapply wp_mono; [apply (cleanup_keeping ing W U (kept s)); [done..|]|].
  - apply Forall_forall. intros p Hp. apply Hset; [done|done|by left].
  - intros s3 _ r (Hs3 & Hr3). exists stp. split; [done|]. split; [done|]. intros E. right. by apply Hr3.
Qed.

(** A whole reconcile, whatever fails and wherever it ends. *)
Lemma ReconcileKind_keeping clock ing U s : ing_namespace ing = ns → ing_name ing = parent →
  env_ok env cfg → has_http ing → IsLabelValue (ing_name ing) = [] → (0 ≤ ing_generation ing < 2 ^ 63)%Z →
  (∀ stp, possible (rs_backend s) ing stp → wanted_among ns parent (proxies_of env cfg stp ing) U) →
  (∀ u, u ∈ U → admits (kept s) ns u) →
  wp (ReconcileKind env cfg clock ing) s (λ s' _ r, ∃ stp, possible (rs_backend s) ing stp ∧ kept_with ing U stp s s' r).
Proof.
  intros Ens Epa Hok Hh Hn Hg Hwas Hadm. destruct (possible_now (rs_backend s) ing) as [stp0 Hstp0].
  unfold ReconcileKind. apply wp_bind. eapply wp_mono; [apply (endpoint_probe_same clock ing)|].
  intros s1 l1 r Hs1. assert (kept s1 = kept s) as E1 by apply Hs1.
  destruct r as [[have|]|e|m]; simpl; [|apply wp_ret|..]; [|by exists stp0; split; [|apply kept_untouched]..].
  apply wp_bind. eapply wp_mono; [apply (program_proxies_keeping ing U s1 Ens Epa Hok Hh Hn Hg)|].
  - intros stp Hstp. apply Hwas. by apply (possible_same _ (rs_backend s1)).
  - by rewrite E1.
  - intros s2 l2 r (stp & Hstp%(possible_same (rs_backend s)) & Hs2); [|done]. unfold kept_with in Hs2. rewrite E1 in Hs2.
    destruct r as [[]|e|m]; simpl; [|by exists stp..].
    eapply wp_mono; [apply (finish_same clock ing have)|]. simpl. intros s3 l3 r Hs3. exists stp. split; [done|].
    unfold kept_with. assert (kept s3 = kept s2) as -> by apply Hs3. destruct Hs2 as [Hk Hset]. split; [done|].
    intros _. by apply Hset.
Qed.
End Faults.

(** C6: whatever fails, and at whatever point a reconcile ends: every wanted host that was
    served before is served after it, by the proxy it had or by the wanted one; proxies of
    others are as they were; and the store admits the wanted proxies, so that a later
    reconcile can go on.  If the reconcile returns nil, either no proxy was touched or all
    are in place and none is left over.  The wanted proxies are those for the Services as they
    were at the start, which the calls do not change; the Ingress is one that proxies can be
    made for, any two wanted proxies are the same or apart, and the store admits them. *)
Theorem ReconcileKind_keeps_serving {S : Type} env cfg clock ing `{Faulty S (ing_namespace ing) (ing_name ing)}
    `{!Steady S} `{MapOrder} (s : run_state S) :
  let ns := ing_namespace ing in let W := wanted env cfg (rs_backend s) ing in
  env_ok env cfg → has_http ing → IsLabelValue (ing_name ing) = [] → (0 ≤ ing_generation ing < 2 ^ 63)%Z →
  separate W → Forall (admits (kept s) ns) W →
  wp (ReconcileKind env cfg clock ing) s (λ s' _ r, serving ns (ing_name ing) W (kept s) (kept s') ∧
    (r = Ret () → kept s' = kept s ∨ Forall (settled (kept s') ns) W ∧ no_leftovers (kept s') ing)).
Proof.
  intros ns W Hok Hh Hn Hg Hsep Hadm. rewrite Forall_forall in Hadm.
  eapply wp_mono; [apply (ReconcileKind_keeping ns (ing_name ing) env cfg clock ing W s); [done..| |done]|].
  - intros stp ->; [|done]. apply proxies_of_among; [intros p Hp; by exists p|].
    intros p u Hp Hu. destruct (Hsep p u Hp Hu) as [->|]; [by left|by right].
  - intros s' _ r (stp & -> & Hk & Hr); [|done]. split; [by apply keeping_serving|]. intros E.
    destruct (Hr E) as [|[Hall Hno]]; [by left|right]. split; [|done]. rewrite Forall_forall in Hall |- *.
    intros p Hp. by apply (placed_settled ns W); [| |apply Hall].
Qed.
