(* ===== verification/Updates.v ===== *)
(** * Updates of an Ingress

    What a sequence of reconciles does to the hosts of an Ingress that is updated all the
    while: reconciles of its versions, in any order (a worker may still have an old one from
    the cache), each with a map order of its own and any failures, with others at work in
    between.  A host that every version wants is served throughout: there is no moment
    between two reconciles, and none between two generations, without a proxy for it. *)

From S2P Require Import Prelude Hash Meta Regexp Labels Conditions Ingress NetIngress HTTPProxy Config Proxies EndpointProbe Reconcile ReconcileFacts Convergence Rollout Failures.

(** ** The places of a version *)

Section Places.
Context (env : Env) (cfg : Config).

(** A version wants the host [h] in the class [c]. *)
Definition wants (v : Ingress) (h c : string) : Prop :=
  ∃ rule oh, rule ∈ is_rules (ing_spec v) ∧ oh ∈ ru_hosts rule ∧ h ∈ ExpandedHosts env {[oh]} ∧
    host_class env cfg rule oh = c.

(** Its proxies up to their content: what counts is the name and the lookup labels, which
    depend neither on Services nor on the order of maps. *)
Definition places (v : Ingress) : list HTTPProxy :=
  is_rules (ing_spec v) ≫= λ rule, ru_hosts rule ≫= λ oh,
    make_host_proxy env cfg v ∅ rule [] oh <$> sets_List (ExpandedHosts env {[oh]}).

Lemma host_proxies_akin v entries entries' rule routes routes' oh h :
  akin (make_host_proxy env cfg v entries rule routes oh h) (make_host_proxy env cfg v entries' rule routes' oh h).
Proof. split; [done|]. apply match_labels_proper. by rewrite !host_proxy_labels. Qed.

Lemma places_akin `{MapOrder} stp v : Forall2 akin (places v) (proxies_of env cfg stp v).
Proof.
  unfold places, proxies_of, proxies_of_rule.
  apply Forall2_bind, Forall_Forall2_diag, Forall_forall. intros rule _.
  apply Forall2_bind, Forall_Forall2_diag, Forall_forall. intros oh _.
  apply Forall2_fmap, Forall_Forall2_diag, Forall_forall. intros h _. apply host_proxies_akin.
Qed.

Lemma apart_akin p p' q q' : akin p p' → akin q q' → apart p q → apart p' q'.
Proof. intros [Hn Hm] [Hn' Hm'] []. split; congruence. Qed.

End Places.

(** ** Runs *)

Section Updates.
Context {S : Type} `{Backend S} `{ProxyStore S} (env : Env) (cfg : Config).
Context (ns parent : string) `{!Faulty S ns parent} (V : list Ingress).

Definition all_places : list HTTPProxy := V ≫= places env cfg.

(** The versions, as the reconciler gets them.  Two places are one or apart: neither names nor
    digests of hosts collide (see [claims]). *)
Record versions_ok : Prop := {
  vo_parent v : v ∈ V → ing_namespace v = ns ∧ ing_name v = parent;
  vo_generation v : v ∈ V → (0 ≤ ing_generation v < 2 ^ 63)%Z;
  vo_http v : v ∈ V → has_http v;
  vo_name : IsLabelValue parent = [];
  vo_places u u' : u ∈ all_places → u' ∈ all_places → akin u u' ∨ apart u u'
}.

(** What others do in the namespace: they leave the proxies of the Ingress alone, make none
    in its name, and take none of their names.  All else may change. *)
Record leaves_alone (m m' : proxy_store) : Prop := {
  la_mine name q : hp_labels q !! ParentKey = Some parent → m !! (ns, name) = Some q ↔ m' !! (ns, name) = Some q;
  la_names u q : u ∈ all_places → m' !! (ns, hp_name u) = Some q → hp_labels q !! ParentKey = Some parent
}.

(** A reconcile of some version, from any status, or a step of others. *)
Inductive step (b : S) : S → Prop :=
  | Reconciled (mo : MapOrder) clock v st : v ∈ V →
      step b (rs_backend (ReconcileKind env cfg clock v {| rs_backend := b; rs_status := st |}).1.1)
  | Others b' : leaves_alone (fl_proxies b) (fl_proxies b') → step b b'.

(** The host [h] is served in the class [c] by a proxy of the Ingress. *)
Definition serves (m : proxy_store) (h c : string) : Prop :=
  ∃ name q, m !! (ns, name) = Some q ∧ hp_labels q !! ParentKey = Some parent ∧
    hp_labels q !! DomainHashKey = Some (sha1_hex h) ∧ hp_labels q !! ClassKey = Some c.

(** The proxy is what some version wants, with the protocols of some state of the Services. *)
Definition wanted_by_some (u q : HTTPProxy) : Prop :=
  ∃ (mo : MapOrder) v stp p, v ∈ V ∧ p ∈ proxies_of env cfg stp v ∧ akin p u ∧ up_to_date q p.

Hypothesis Henv : env_ok env cfg.
Hypothesis Hvs : versions_ok.

Lemma places_labels v u : u ∈ places env cfg v → ∃ h c, wants env cfg v h c ∧
  hp_labels u !! ParentKey = Some (ing_name v) ∧ hp_labels u !! DomainHashKey = Some (sha1_hex h) ∧
  hp_labels u !! ClassKey = Some c.
Proof.
  unfold places. setoid_rewrite list_elem_of_bind. setoid_rewrite list_elem_of_bind. setoid_rewrite list_elem_of_fmap.
  setoid_rewrite elem_of_sets_List. intros (rule & (oh & (h & -> & Hh) & Hoh) & Hrule).
  exists h, (host_class env cfg rule oh). split; [by exists rule, oh|]. rewrite host_proxy_labels. unfold proxy_labels. by simpl_map.
Qed.

Lemma wants_place v h c : wants env cfg v h c → ∃ u, u ∈ places env cfg v ∧
  hp_labels u !! ParentKey = Some (ing_name v) ∧ hp_labels u !! DomainHashKey = Some (sha1_hex h) ∧
  hp_labels u !! ClassKey = Some c.
Proof.
  intros (rule & oh & Hrule & Hoh & Hh & <-). exists (make_host_proxy env cfg v ∅ rule [] oh h). split.
  - unfold places. apply list_elem_of_bind. exists rule. split; [|done]. apply list_elem_of_bind. exists oh. split; [|done].
    apply list_elem_of_fmap. exists h. split; [done|]. by apply elem_of_sets_List.
  - rewrite host_proxy_labels. unfold proxy_labels. by simpl_map.
Qed.

(** A host is served if a proxy is found for its place. *)
Lemma serves_found m u h c : hp_labels u !! ParentKey = Some parent → hp_labels u !! DomainHashKey = Some (sha1_hex h) →
  hp_labels u !! ClassKey = Some c → serves m h c ↔ ∃ q, found_by m ns u q.
Proof.
  intros Hp Hd Hc. unfold serves, found_by. setoid_rewrite match_labels_found. unfold map_get.
  split.
  - intros (name & q & Hq & H1 & H2 & H3). exists q, name. split; [done|]. intros k.
    rewrite !elem_of_cons, elem_of_nil. intros [->|[->|[->|[]]]]; by rewrite ?Hp, ?Hd, ?Hc.
  - intros (q & name & Hq & Hall). exists name, q. pose proof (Hall ParentKey) as H1. pose proof (Hall DomainHashKey) as H2.
    pose proof (Hall ClassKey) as H3. rewrite Hp in H1. rewrite Hd in H2. rewrite Hc in H3. set_solver.
Qed.
Lemma elem_of_all_places u : u ∈ all_places ↔ ∃ v, u ∈ places env cfg v ∧ v ∈ V.
Proof. apply list_elem_of_bind. Qed.

(** What a version wants now are places of that version. *)
Lemma wanted_place `{MapOrder} stp v p : p ∈ proxies_of env cfg stp v → ∃ u, u ∈ places env cfg v ∧ akin u p.
Proof.
  intros (i & Hi)%list_elem_of_lookup. destruct (Forall2_lookup_r _ _ _ _ _ (places_akin env cfg stp v) Hi) as (u & Hu & Ha).
  exists u. split; [by eapply list_elem_of_lookup_2|done].
Qed.

Lemma place_wanted `{MapOrder} stp v u : u ∈ places env cfg v → ∃ p, p ∈ proxies_of env cfg stp v ∧ akin u p.
Proof.
  intros (i & Hi)%list_elem_of_lookup. destruct (Forall2_lookup_l _ _ _ _ _ (places_akin env cfg stp v) Hi) as (p & Hp & Ha).
  exists p. split; [by eapply list_elem_of_lookup_2|done].
Qed.

Lemma version_wanted_among `{MapOrder} stp v : v ∈ V → wanted_among ns parent (proxies_of env cfg stp v) all_places.
Proof.
  intros Hv. destruct (vo_parent Hvs v Hv) as [<- <-]. apply proxies_of_among.
  - intros p Hp. destruct (wanted_place _ v p Hp) as (u & Hu & Ha). exists u. split; [|done].
    apply elem_of_all_places. by exists v.
  - intros p u Hp Hu. destruct (wanted_place _ v p Hp) as (u' & Hu' & Ha).
    destruct (vo_places Hvs u' u) as [Ha'|Hap]; [apply elem_of_all_places; by exists v|done| |].
    + left. by rewrite <-Ha.
    + right. by apply (apart_akin u' p u u).
Qed.

(** ** What holds along a run *)

Record holds (m0 m : proxy_store) : Prop := {
  ho_admits u : u ∈ all_places → admits m ns u;
  ho_found u q : u ∈ all_places → found_by m ns u q → wanted_by_some u q ∨ found_by m0 ns u q;
  ho_served h c : (∀ v, v ∈ V → wants env cfg v h c) → serves m0 h c → serves m h c
}.

Lemma reconciled_holds (mo : MapOrder) clock v b st m0 : v ∈ V → holds m0 (fl_proxies b) →
  holds m0 (fl_proxies (rs_backend (ReconcileKind env cfg clock v {| rs_backend := b; rs_status := st |}).1.1)).
Proof.
  intros Hv Hh. set (s := {| rs_backend := b; rs_status := st |}).
  assert (ing_namespace v = ns ∧ ing_name v = parent) as [En Ep] by by apply (vo_parent Hvs).
  pose proof (ReconcileKind_keeping ns parent env cfg clock v all_places s En Ep Henv) as Hk. rewrite Ep in Hk.
  specialize (Hk (vo_http Hvs v Hv) (vo_name Hvs) (vo_generation Hvs v Hv) (λ stp _, version_wanted_among stp v Hv) (ho_admits _ _ Hh)).
  unfold wp in Hk. destruct (ReconcileKind env cfg clock v s) as [[s' l] r]. destruct Hk as (stp & _ & Hk & _). simpl. split.
  - intros u Hu. by apply (kp_admits _ _ _ _ _ _ Hk).
  - intros u q Hu Hq. destruct (kp_found _ _ _ _ _ _ Hk u q Hu Hq) as [(p & Hp & Ha & Hd)|Hq0].
    + left. exists mo, v. by do 2 eexists.
    + by apply (ho_found _ _ Hh).
  - intros h c Hall Hm0. pose proof (ho_served _ _ Hh h c Hall Hm0) as Hs.
    destruct (wants_place v h c (Hall v Hv)) as (u & Hu & Lp & Ld & Lc). rewrite Ep in Lp.
    destruct (proj1 (serves_found _ u h c Lp Ld Lc) Hs) as [q Hq]. apply (serves_found _ u h c Lp Ld Lc).
    destruct (place_wanted stp v u Hu) as (p & Hp & Ha).
    destruct (kp_served _ _ _ _ _ _ Hk p Hp) as [r' Hr]; [exists q|exists r']; by apply (akin_found _ _ u p).
Qed.

Lemma others_holds m m' m0 : leaves_alone m m' → holds m0 m → holds m0 m'.
Proof.
  intros [Hmine Hnames] Hh.
  assert (∀ u q, u ∈ all_places → found_by m' ns u q ↔ found_by m ns u q) as Hfound.
  { intros u q (v & Hu & Hv)%elem_of_all_places. destruct (places_labels v u Hu) as (h & c & _ & Lp & _).
    rewrite (proj2 (vo_parent Hvs v Hv)) in Lp. unfold found_by.
    split; intros (name & Hq & Hm); exists name; (split; [|done]); apply Hmine in Hq; try done;
      rewrite match_labels_found in Hm; rewrite Hm by set_solver; unfold map_get; by rewrite Lp. }
  split.
  - intros u Hu. destruct (ho_admits _ _ Hh u Hu) as [Huniq Hn]. split.
    + intros q1 q2. rewrite !Hfound by done. apply Huniq.
    + intros q Hq. rewrite Hfound by done. apply Hn, Hmine; [by apply (Hnames u)|done].
  - intros u q Hu. rewrite Hfound by done. by apply Hh.
  - intros h c Hall Hm0. destruct (ho_served _ _ Hh h c Hall Hm0) as (name & q & Hq & Hp & Hr). exists name, q.
    split; [by apply Hmine|done].
Qed.

Lemma run_holds m0 b b' : rtc step b b' → holds m0 (fl_proxies b) → holds m0 (fl_proxies b').
Proof.
  induction 1 as [|b b1 b2 [mo clock v st Hv|b1' Ho] _ IH]; intros Hh; [done|..]; apply IH.
  - by apply reconciled_holds.
  - by apply (others_holds (fl_proxies b)).
Qed.
End Updates.

(** From a store that admits the places of all versions of an Ingress, however their
    reconciles follow each other (old versions after new ones, any map order, any status, any
    call failing) and whatever others do that leaves its proxies alone: a host that all
    versions want in the same class and that was served at the start is served after every
    step; a proxy in one of its places is the one that was there at the start or what some
    version wants; and the store still admits all the places, so that every version can be
    programmed. *)
Theorem updates_keep_serving {S : Type} env cfg ns parent `{Faulty S ns parent} V (b b' : S) :
  env_ok env cfg → versions_ok env cfg ns parent V →
  (∀ u, u ∈ all_places env cfg V → admits (fl_proxies b) ns u) → rtc (step env cfg ns parent V) b b' →
  (∀ h c, (∀ v, v ∈ V → wants env cfg v h c) →
     serves ns parent (fl_proxies b) h c → serves ns parent (fl_proxies b') h c) ∧
  (∀ u q, u ∈ all_places env cfg V → found_by (fl_proxies b') ns u q →
     found_by (fl_proxies b) ns u q ∨ wanted_by_some env cfg V u q) ∧
  (∀ u, u ∈ all_places env cfg V → admits (fl_proxies b') ns u).
Proof.
  intros Henv Hvs Ha Hrun.
  assert (holds env cfg ns parent V (fl_proxies b) (fl_proxies b)) as Hh by (split; auto).
  eapply run_holds in Hrun as [Hadm Hf Hs]; [|done..]. split_and!; [done| |done].
  intros u q Hu Hq. destruct (Hf u q Hu Hq); auto.
Qed.
