(* ===== verification/Interference.v ===== *)
(** * Others at work in the middle of a reconcile

    [Failures] and [Updates] take the calls of a reconcile as following each other directly.
    Here a backend is [shared]: between any two calls others (users, workers that reconcile
    other Ingresses) do what they like, as long as they leave the Ingress its proxies; its
    Services may change while it is reconciled.  What the Ingress sees of a shared backend,
    its own part of the store, still follows the laws of [Faulty], and so a host that all
    versions want stays served in every such run. *)

From S2P Require Import Prelude Hash Meta Regexp Labels Conditions Ingress NetIngress HTTPProxy Config Proxies EndpointProbe Reconcile ReconcileFacts Convergence Failures Updates.

(** ** The own part of a store *)

Section Own.
Context (ns parent : string).

Definition own_part (m : proxy_store) : proxy_store :=
  filter (λ kp, kp.1.1 = ns ∧ hp_labels kp.2 !! ParentKey = Some parent) m.

Lemma own_part_Some m k q : own_part m !! k = Some q ↔ m !! k = Some q ∧ k.1 = ns ∧ hp_labels q !! ParentKey = Some parent.
Proof. apply map_lookup_filter_Some. Qed.

Lemma own_part_insert m k p q : mine ns parent p → k = om_key (hp_meta p) → same_content q p →
  own_part (<[k := q]> m) = <[k := q]> (own_part m).
Proof. intros [Hn Hl] -> (_ & _ & Eq & _). apply map_filter_insert_True. simpl. by rewrite Eq. Qed.

(** A proxy of someone else is not seen. *)
Lemma own_part_foreign m k q : m !! k = None → hp_labels q !! ParentKey ≠ Some parent → own_part (<[k := q]> m) = own_part m.
Proof. intros Hk Hl. unfold own_part. rewrite map_filter_insert_False by (by intros [_ ?]). by rewrite delete_id. Qed.

Lemma own_part_wrote m m' k p r : mine ns parent p → k = om_key (hp_meta p) → wrote m m' k p r →
  wrote (own_part m) (own_part m') k p r.
Proof.
  intros Hm Hk. unfold wrote. destruct r as [e|q].
  - intros [->|(q & Hc & ->)]; [by left|right]. exists q. split; [done|]. by apply (own_part_insert m k p).
  - intros [Hc ->]. split; [done|]. by apply (own_part_insert m k p).
Qed.

Lemma own_part_found m u q : hp_labels u !! ParentKey = Some parent → found_by (own_part m) ns u q ↔ found_by m ns u q.
Proof.
  intros Hu. unfold found_by. setoid_rewrite own_part_Some. split; intros (name & Hq & Hs).
  - exists name. split; [apply Hq|done].
  - exists name. split; [split_and!; [done..|]|done].
    pose proof Hs as Hl. rewrite match_labels_found in Hl. rewrite Hl by set_solver. unfold map_get. by rewrite Hu.
Qed.

Lemma own_part_admits m u : hp_labels u !! ParentKey = Some parent → admits m ns u → admits (own_part m) ns u.
Proof.
  intros Hu [Huniq Hn]. split.
  - intros q1 q2. rewrite !own_part_found by done. apply Huniq.
  - intros q [Hq _]%own_part_Some. apply own_part_found; auto.
Qed.

Lemma own_part_serves m h c : serves ns parent (own_part m) h c ↔ serves ns parent m h c.
Proof.
  unfold serves. setoid_rewrite own_part_Some. split; intros (name & q & Hq & Hp & Hr); exists name, q.
  - split; [by destruct Hq|done].
  - split; [by split_and!|done].
Qed.
End Own.

(** ** Shared backends *)

Section Shared.
Context {S : Type} `{Backend S} `{ProxyStore S} (ns parent : string).

(** What others do in one go.  All but the own part may change, the Services in the cache,
    too. *)
Record meddling := {
  md_step : S → S;
  md_own s : own_part ns parent (fl_proxies (md_step s)) = own_part ns parent (fl_proxies s)
}.

(** A backend with what others will do before and after each of the next calls. *)
Record shared := { sh_backend : S; sh_plan : list meddling }.

Definition meddle (s : shared) : shared :=
  match sh_plan s with
  | [] => s
  | f :: l => {| sh_backend := md_step f (sh_backend s); sh_plan := l |}
  end.

Definition amid {A} (f : S → S * A) (s : shared) : shared * A :=
  let '(b, r) := f (sh_backend (meddle s)) in
  (meddle {| sh_backend := b; sh_plan := sh_plan (meddle s) |}, r).

#[export] Instance shared_backend : Backend shared := {|
  bk_list_proxies s := bk_list_proxies (sh_backend s);
  bk_get_ingress s := bk_get_ingress (sh_backend s);
  bk_get_service s := bk_get_service (sh_backend s);
  bk_create_ingress s n i := amid (λ b, bk_create_ingress b n i) s;
  bk_update_ingress s n i := amid (λ b, bk_update_ingress b n i) s;
  bk_delete_ingress s n name := amid (λ b, bk_delete_ingress b n name) s;
  bk_create_proxy s n p := amid (λ b, bk_create_proxy b n p) s;
  bk_update_proxy s n p := amid (λ b, bk_update_proxy b n p) s;
  bk_delete_proxies s n text := amid (λ b, bk_delete_proxies b n text) s;
  bk_track s ref i := amid (λ b, bk_track b ref i) s;
  bk_probe s i := amid (λ b, bk_probe b i) s
|}.

(** The Ingress sees its own part. *)
#[export] Instance shared_proxies : ProxyStore shared := {|
  fl_proxies s := own_part ns parent (fl_proxies (sh_backend s))
|}.

Lemma meddle_own s : fl_proxies (meddle s) = fl_proxies s.
Proof. unfold meddle. destruct (sh_plan s) as [|f l]; [done|]. apply md_own. Qed.

(** What a call sees, what it leaves behind and what it answers. *)
Lemma amid_run {A} (f : S → S * A) s : ∃ b,
  own_part ns parent (fl_proxies b) = fl_proxies s ∧
  fl_proxies (amid f s).1 = own_part ns parent (fl_proxies (f b).1) ∧ (amid f s).2 = (f b).2.
Proof.
  exists (sh_backend (meddle s)). unfold amid. destruct (f (sh_backend (meddle s))) as [b r]. simpl.
  split_and!; [exact (meddle_own s)|apply meddle_own|done].
Qed.

Lemma amid_same {A} (f : S → S * A) s : (∀ b, same_proxies b (f b).1) → same_proxies s (amid f s).1.
Proof. intros Hf. destruct (amid_run f s) as (b & Eb & Ef & _). unfold same_proxies. by rewrite Ef, (Hf b). Qed.

Context `{!Faulty S ns parent}.

#[export] Instance shared_faulty : Faulty shared ns parent.
Proof.
  split.
  - intros s k p [Hk _]%own_part_Some. by apply (fl_keys (sh_backend s)).
  - intros s sel l Hof El p. rewrite (fl_list (sh_backend s) sel l Hof El). simpl. setoid_rewrite own_part_Some.
    split; intros (name & Hp & Hm); exists name; [|by destruct Hp]. split_and!; [done..|by apply Hof|done].
  - intros s p Hm Hnone. change (bk_create_proxy s ns p) with (amid (λ b, bk_create_proxy b ns p) s).
    destruct (amid_run (λ b, bk_create_proxy b ns p) s) as (b & Eb & -> & ->).
    rewrite <-Eb in Hnone |- *.
    destruct (fl_proxies b !! om_key (hp_meta p)) as [q|] eqn:Eq.
    + destruct (fl_exists b p Hm) as (-> & e & ->); [by eexists|by left].
    + by apply own_part_wrote, fl_create.
  - intros s p Hm [q Hq]. change (bk_create_proxy s ns p) with (amid (λ b, bk_create_proxy b ns p) s).
    destruct (amid_run (λ b, bk_create_proxy b ns p) s) as (b & Eb & -> & ->).
    rewrite <-Eb in Hq |- *. apply own_part_Some in Hq as [Hq _].
    destruct (fl_exists b p Hm) as (-> & e & ->); [by eexists|]. split; [done|by eexists].
  - intros s p Hm [q Hq]. change (bk_update_proxy s ns p) with (amid (λ b, bk_update_proxy b ns p) s).
    destruct (amid_run (λ b, bk_update_proxy b ns p) s) as (b & Eb & -> & ->).
    rewrite <-Eb in Hq |- *. apply own_part_Some in Hq as [Hq _].
    apply own_part_wrote; [done..|]. apply fl_update; [done|by eexists].
  - intros s text sel Hof Hp doomed. change (bk_delete_proxies s ns text) with (amid (λ b, bk_delete_proxies b ns text) s).
    destruct (amid_run (λ b, bk_delete_proxies b ns text) s) as (b & Eb & Ef & Er).
    destruct (amid _ s) as [s' r]. change (fl_proxies s' = own_part ns parent (fl_proxies (bk_delete_proxies b ns text).1)) in Ef.
    rewrite Ef, <-Eb. change (r = (bk_delete_proxies b ns text).2) in Er. subst r.
    pose proof (fl_delete b text sel Hof Hp) as Hdel. destruct (bk_delete_proxies b ns text) as [b' r].
    destruct Hdel as (Hsub & Hkept & Hgone). simpl. split_and!.
    + apply map_subseteq_spec. intros k q [Hk Hq]%own_part_Some. apply own_part_Some. split; [by eapply lookup_weaken|done].
    + intros k q [Hk Hq]%own_part_Some Hd. apply own_part_Some. split; [by apply Hkept|done].
    + intros Hr k q [Hk _]%own_part_Some. by apply Hgone.
  - intros s ref i. apply amid_same. intros b. apply fl_track.
  - intros s i. apply amid_same. intros b. apply fl_probe.
  - intros s n i. apply amid_same. intros b. apply fl_create_ingress.
  - intros s n i. apply amid_same. intros b. apply fl_update_ingress.
  - intros s n name. apply amid_same. intros b. apply fl_delete_ingress.
Qed.
End Shared.
Arguments sh_backend {S _ ns parent} _.
Arguments sh_plan {S _ ns parent} _.

(** ** Updates with others in between *)

(** C5: whatever others do between any two calls of the reconciles of an Ingress (as long as
    they leave it its proxies), however the reconciles of its versions follow each other, and
    whichever calls fail: a host that all versions want in the same class and that was served
    at the start is served after every reconcile; a proxy in one of its places is the one that
    was there at the start or what some version wants; and there are never two in one place.
    Each version is one that proxies can be made for, any two places of theirs are one or
    differ both in name and in lookup labels, and the store at the start has at most one proxy
    in each and no other one of its name. *)
Theorem interleaved_updates_keep_serving {S : Type} env cfg ns parent `{Faulty S ns parent} V (b b' : shared (S := S) ns parent) :
  env_ok env cfg → versions_ok env cfg ns parent V →
  (∀ u, u ∈ all_places env cfg V → admits (fl_proxies b) ns u) → rtc (step env cfg ns parent V) b b' →
  let m := fl_proxies (sh_backend b) in let m' := fl_proxies (sh_backend b') in
  (∀ h c, (∀ v, v ∈ V → wants env cfg v h c) → serves ns parent m h c → serves ns parent m' h c) ∧
  (∀ u q, u ∈ all_places env cfg V → found_by m' ns u q → found_by m ns u q ∨ wanted_by_some env cfg V u q) ∧
  (∀ u q1 q2, u ∈ all_places env cfg V → found_by m' ns u q1 → found_by m' ns u q2 → q1 = q2).
Proof.
  intros Henv Hvs Ha Hrun m m'.
  destruct (updates_keep_serving env cfg ns parent V b b' Henv Hvs Ha Hrun) as (Hserved & Hfound & Hadm).
  assert (∀ u mm q, u ∈ all_places env cfg V → found_by (own_part ns parent mm) ns u q ↔ found_by mm ns u q) as Hsee.
  { intros u mm q (v & Hu & Hv)%elem_of_all_places. apply own_part_found.
    destruct (places_labels env cfg v u Hu) as (h & c & _ & -> & _). by rewrite (proj2 (vo_parent _ _ _ _ _ Hvs v Hv)). }
  split_and!.
  - intros h c Hall. rewrite <-(own_part_serves ns parent m), <-(own_part_serves ns parent m'). by apply Hserved.
  - intros u q Hu. rewrite <-(Hsee u m'), <-(Hsee u m) by done. by apply Hfound.
  - intros u q1 q2 Hu. rewrite <-!(Hsee u m') by done. by apply Hadm.
Qed.
