(* ===== verification/Tracker.v ===== *)
(** * The tracker (vendor/knative.dev/pkg/tracker/enqueue.go)

    The reconciler registers the Services an Ingress refers to; when one of them changes,
    the tracker calls back with the keys of the Ingresses that watch it.  A registration
    is a lease: it lapses unless renewed.  The implementation keeps two maps, drops lapsed
    leases when it meets them and empty inner maps when they become empty; the abstract
    tracker below is one map of leases from which only [OnDeletedObserver] removes. *)

From S2P Require Import Prelude Meta Regexp Labels Ingress HTTPProxy Reconcile Events.
Local Open Scope Z_scope.

(** ** References *)

#[export] Instance Reference_countable : Countable Reference.
Proof.
  apply (inj_countable' (λ r, (tr_api_version r, tr_kind r, tr_namespace r, tr_name r))
    (λ p, {| tr_api_version := p.1.1.1; tr_kind := p.1.1.2; tr_namespace := p.1.2; tr_name := p.2 |})).
  by intros [].
Defined.

Record LabelSelectorRequirement := { lr_key : string; lr_operator : string; lr_values : list string }.
Record LabelSelector := {
  matchLabels : gmap string string;
  matchExpressions : list LabelSelectorRequirement
}.

(** A [tracker.Reference] with its selector.  The maps of the tracker have references
    without one as keys. *)
Record SelectorReference := { rf_ref : Reference; rf_selector : option LabelSelector }.

Definition cIdentifierFmt : re :=
  RCat (RChar (λ c, is_upper c || is_lower c || Ascii.eqb c "_"))
       (RStar (RChar (λ c, isAlphanumeric c || Ascii.eqb c "_"))).
Definition IsCIdentifier (value : string) : list string :=
  if MatchString cIdentifierFmt value then [] else ["a valid C identifier"].

Definition selector_operator (op : string) : option Operator :=
  if String.eqb op "In" then Some In
  else if String.eqb op "NotIn" then Some NotIn
  else if String.eqb op "Exists" then Some Exists
  else if String.eqb op "DoesNotExist" then Some DoesNotExist
  else None.

(** The selector of a pointer that is not nil. *)
Definition LabelSelectorAsSelector `{MapOrder} (ps : LabelSelector) : outcome Selector :=
  labels ← outcome_mapM (λ kv, NewRequirement kv.1 Equals [kv.2]) (range_map (matchLabels ps));
  exprs ← outcome_mapM (λ e,
    match selector_operator (lr_operator e) with
    | Some op => NewRequirement (lr_key e) op (lr_values e)
    | None => Fail (Errorf "%q is not a valid label selector operator" [lr_operator e])
    end) (matchExpressions ps);
  Ret (sort_slice ByKey (labels ++ exprs)).

(** [kmeta.ObjectReference], as a reference of the tracker. *)
Definition ObjectReference (a : Accessor) : Reference :=
  let '(apiVersion, kind) := ToAPIVersionAndKind (FromAPIVersionAndKind (ac_api_version a) (ac_kind a)) in
  {| tr_api_version := apiVersion; tr_kind := kind;
     tr_namespace := om_namespace (ac_meta a); tr_name := om_name (ac_meta a) |}.

(** A reference without its name. *)
Definition partial (r : Reference) : Reference :=
  {| tr_api_version := tr_api_version r; tr_kind := tr_kind r;
     tr_namespace := tr_namespace r; tr_name := "" |}.

(** ** State *)

Record tracker := {
  exact : gmap Reference (gmap NamespacedName Z);
  inexact : gmap Reference (gmap NamespacedName (Selector * Z));
  leaseDuration : Z
}.

Definition New (lease : Z) : tracker := {| exact := ∅; inexact := ∅; leaseDuration := lease |}.

Definition isExpired (now expiry : Z) : bool := now >? expiry.

Section Tracker.
Context `{MapOrder, KeyOrder}.
Implicit Types (i : tracker) (key : NamespacedName) (ref : Reference).

(** ** [TrackReference] *)

(** The [switch] over name and selector: errors of its own, fields to check, selector. *)
Definition reference_selector (rf : SelectorReference)
    : list string * list (string * list string) * option Selector :=
  match rf_selector rf, String.eqb (tr_name (rf_ref rf)) "" with
  | Some _, false => (["cannot provide both Name and Selector"], [], None)
  | None, false => ([], [("Name", IsDNS1123Subdomain (tr_name (rf_ref rf)))], None)
  | Some ps, true =>
      match LabelSelectorAsSelector ps with
      | Ret ls => ([], [], Some ls)
      | Fail e => ([], [("Selector", [err_format e])], None)
      | Panic m => ([], [("Selector", [m])], None)
      end
  | None, true => (["must provide either Name or Selector"], [], None)
  end.

(** The errors, sorted: the order of the map of fields does not matter. *)
Definition fieldErrors (rf : SelectorReference) : list string :=
  let r := rf_ref rf in
  let '(errs, fields, _) := reference_selector rf in
  let invalidFields :=
    [("APIVersion", IsLabelKey (tr_api_version r)); ("Kind", IsCIdentifier (tr_kind r))] ++
    (if String.eqb (tr_namespace r) "" then [] else [("Namespace", IsDNS1123Label (tr_namespace r))]) ++
    fields in
  sort_slice (key_less id)
    (errs ++ (invalidFields ≫= λ kv, (λ msg, kv.1 +:+ ": " +:+ msg) <$> kv.2)).

(** The critical section: [checked] is when the old lease is looked at, [written] when the
    new one is made.  The result holds the keys called back after the lock is released. *)
Definition track_exact (checked written : Z) ref key i : tracker * list NamespacedName :=
  let l := default ∅ (exact i !! ref) in
  ({| exact := <[ref := <[key := written + leaseDuration i]> l]> (exact i);
      inexact := inexact i; leaseDuration := leaseDuration i |},
   match l !! key with
   | Some expiry => if isExpired checked expiry then [key] else []
   | None => [key]
   end).

Definition track_inexact (checked written : Z) ref (selector : Selector) key i
    : tracker * list NamespacedName :=
  let l := default ∅ (inexact i !! partial ref) in
  ({| exact := exact i;
      inexact := <[partial ref := <[key := (selector, written + leaseDuration i)]> l]> (inexact i);
      leaseDuration := leaseDuration i |},
   match l !! key with
   | Some m => if isExpired checked m.2 then [key] else []
   | None => [key]
   end).

Definition TrackReference (checked written : Z) (rf : SelectorReference) (obj : eventobj) i
    : tracker * list NamespacedName * (goerr + ()) :=
  match fieldErrors rf with
  | [] =>
      match DeletionHandlingAccessor obj with
      | inl e => (i, [], inl e)
      | inr object =>
          let key := key_of (ac_meta object) in
          match (reference_selector rf).2 with
          | None => (track_exact checked written (rf_ref rf) key i, inr ())
          | Some selector => (track_inexact checked written (rf_ref rf) selector key i, inr ())
          end
      end
  | errs => (i, [], inl (Errorf "invalid Reference:\n%s" [Join errs "\n"]))
  end.

(** ** [GetObservers], [OnChanged], [OnDeletedObserver] *)

(** One pass over an inner map: [now] is the time at which a key is looked at. *)
Definition prune {V} (expiry : V → Z) (now : NamespacedName → Z) (m : gmap NamespacedName V)
    : gmap NamespacedName V :=
  filter (λ kv, isExpired (now kv.1) (expiry kv.2) = false) m.

Definition drop_empty {V} ref (m : gmap NamespacedName V) (all : gmap Reference (gmap NamespacedName V))
    : gmap Reference (gmap NamespacedName V) :=
  if bool_decide (m = ∅) then delete ref all else <[ref := m]> all.

(** The keys of an inner map with a live lease that [match_] accepts, and what is left. *)
Definition observers {V} (expiry : V → Z) (match_ : V → bool) (now : NamespacedName → Z) ref
    (all : gmap Reference (gmap NamespacedName V))
    : gmap Reference (gmap NamespacedName V) * list NamespacedName :=
  match all !! ref with
  | Some s =>
      (drop_empty ref (prune expiry now s) all,
       (filter (λ kv, isExpired (now kv.1) (expiry kv.2) = false ∧ match_ kv.2 = true) (range_keys s)).*1)
  | None => (all, [])
  end.

Definition GetObservers (now now' : NamespacedName → Z) (obj : eventobj) i
    : tracker * list NamespacedName :=
  match DeletionHandlingAccessor obj with
  | inl _ => (i, [])
  | inr item =>
      let ref := ObjectReference item in
      let '(ex, keys) := observers id (λ _, true) now ref (exact i) in
      let '(inex, keys') :=
        observers snd (λ m, Matches m.1 (om_labels (ac_meta item))) now' (partial ref) (inexact i) in
      ({| exact := ex; inexact := inex; leaseDuration := leaseDuration i |}, keys ++ keys')
  end.

(** [OnChanged] calls back with what [GetObservers] returns. *)
Definition OnChanged (now now' : NamespacedName → Z) (obj : eventobj) i
    : tracker * list NamespacedName :=
  GetObservers now now' obj i.

Definition forget {V} key (all : gmap Reference (gmap NamespacedName V))
    : gmap Reference (gmap NamespacedName V) :=
  filter (λ kv, kv.2 ≠ ∅) (delete key <$> all).

Definition OnDeletedObserver (obj : eventobj) i : tracker :=
  match DeletionHandlingAccessor obj with
  | inl _ => i
  | inr item =>
      let key := key_of (ac_meta item) in
      {| exact := forget key (exact i); inexact := forget key (inexact i);
         leaseDuration := leaseDuration i |}
  end.
End Tracker.

(** ** The abstract tracker

    One lease per reference and watcher, replaced when renewed; a lease that has lapsed
    is as good as none. *)

Record leases := {
  by_name : gmap (Reference * NamespacedName) Z;
  by_selector : gmap (Reference * NamespacedName) (Selector * Z)
}.

(** The calls of the tracker with the times at which they read the clock. *)
Inductive tracker_op :=
  | OTrack (checked written : Z) (rf : SelectorReference) (obj : eventobj)
  | OChanged (now now' : NamespacedName → Z) (obj : eventobj)
  | ODeleted (obj : eventobj).

Section Spec.
Context `{MapOrder, KeyOrder}.
Implicit Types (i : tracker) (key : NamespacedName) (ref : Reference) (a : leases).

Definition lapsed (now : Z) (e : option Z) : bool :=
  match e with Some expiry => isExpired now expiry | None => true end.

Definition spec_track (lease checked written : Z) (rf : SelectorReference) key a
    : leases * gset NamespacedName :=
  match (reference_selector rf).2 with
  | None =>
      ({| by_name := <[(rf_ref rf, key) := written + lease]> (by_name a); by_selector := by_selector a |},
       if lapsed checked (by_name a !! (rf_ref rf, key)) then {[key]} else ∅)
  | Some s =>
      ({| by_name := by_name a;
          by_selector := <[(partial (rf_ref rf), key) := (s, written + lease)]> (by_selector a) |},
       if lapsed checked (snd <$> by_selector a !! (partial (rf_ref rf), key)) then {[key]} else ∅)
  end.

(** The watchers with a live lease on an object. *)
Definition watchers {V} (expiry : V → Z) (match_ : V → bool) (now : NamespacedName → Z) ref
    (b : gmap (Reference * NamespacedName) V) : gset NamespacedName :=
  set_map snd (dom (filter (λ kv, kv.1.1 = ref ∧ isExpired (now kv.1.2) (expiry kv.2) = false ∧
                                  match_ kv.2 = true) b)).

Definition spec_observers (now now' : NamespacedName → Z) (item : Accessor) a : gset NamespacedName :=
  let ref := ObjectReference item in
  watchers id (λ _, true) now ref (by_name a) ∪
  watchers snd (λ m, Matches m.1 (om_labels (ac_meta item))) now' (partial ref) (by_selector a).

Definition spec_step (lease : Z) (o : tracker_op) a : leases * gset NamespacedName * (goerr + ()) :=
  match o with
  | OTrack checked written rf obj =>
      match fieldErrors rf with
      | [] =>
          match DeletionHandlingAccessor obj with
          | inl e => (a, ∅, inl e)
          | inr object => (spec_track lease checked written rf (key_of (ac_meta object)) a, inr ())
          end
      | errs => (a, ∅, inl (Errorf "invalid Reference:\n%s" [Join errs "\n"]))
      end
  | OChanged now now' obj =>
      match DeletionHandlingAccessor obj with
      | inl _ => (a, ∅, inr ())
      | inr item => (a, spec_observers now now' item a, inr ())
      end
  | ODeleted obj =>
      match DeletionHandlingAccessor obj with
      | inl _ => (a, ∅, inr ())
      | inr item =>
          let key := key_of (ac_meta item) in
          ({| by_name := filter (λ kv, kv.1.2 ≠ key) (by_name a);
              by_selector := filter (λ kv, kv.1.2 ≠ key) (by_selector a) |}, ∅, inr ())
      end
  end.

Definition tracker_step (o : tracker_op) i : tracker * list NamespacedName * (goerr + ()) :=
  match o with
  | OTrack checked written rf obj => TrackReference checked written rf obj i
  | OChanged now now' obj => (OnChanged now now' obj i, inr ())
  | ODeleted obj => (OnDeletedObserver obj i, [], inr ())
  end.

(** What the callers and the callback see of a sequence of calls. *)
Fixpoint tracker_run (l : list tracker_op) i : list (list NamespacedName * (goerr + ())) :=
  match l with
  | [] => []
  | o :: l => let '(i', keys, r) := tracker_step o i in (keys, r) :: tracker_run l i'
  end.
Fixpoint spec_run (lease : Z) (l : list tracker_op) a : list (gset NamespacedName * (goerr + ())) :=
  match l with
  | [] => []
  | o :: l => let '(a', keys, r) := spec_step lease o a in (keys, r) :: spec_run lease l a'
  end.

(** Calls are serialised by the lock, and the clock does not go back: [timed t l u] says
    that the calls read times that start at [t] and end before [u]. *)
Definition op_between (t : Z) (o : tracker_op) (u : Z) : Prop :=
  match o with
  | OTrack checked written _ _ => t ≤ checked ∧ checked ≤ written ∧ written ≤ u
  | OChanged now now' _ => ∀ k, t ≤ now k ≤ u ∧ t ≤ now' k ≤ u
  | ODeleted _ => t ≤ u
  end.
Inductive timed : Z → list tracker_op → Prop :=
  | timed_nil t : timed t []
  | timed_cons t o u l : t ≤ u → op_between t o u → timed u l → timed t (o :: l).

(** ** Refinement *)

(** The leases of an inner map agree with the abstract ones, save lapsed ones, which may
    be gone; no inner map is empty. *)
Definition agrees {V} (expiry : V → Z) (t : Z) (m : gmap Reference (gmap NamespacedName V))
    (a : gmap (Reference * NamespacedName) V) : Prop :=
  (∀ ref key v, m !! ref ≫= (.!! key) = Some v → a !! (ref, key) = Some v) ∧
  (∀ ref key v, a !! (ref, key) = Some v → t ≤ expiry v → m !! ref ≫= (.!! key) = Some v) ∧
  map_Forall (λ _ l, l ≠ ∅) m.

Definition refines (t : Z) i a : Prop :=
  agrees id t (exact i) (by_name a) ∧ agrees snd t (inexact i) (by_selector a).

Section Agrees.
Context {V : Type} (expiry : V → Z).
Implicit Types (m : gmap Reference (gmap NamespacedName V)) (b : gmap (Reference * NamespacedName) V).

Lemma agrees_later t u m b : t ≤ u → agrees expiry t m b → agrees expiry u m b.
Proof. intros ? (H1 & H2 & H3). split_and!; [done| |done]. intros. apply H2; [done|lia]. Qed.

(** What a live lease looks like on both sides. *)
Lemma agrees_live t m b ref key v now : agrees expiry t m b → t ≤ now → isExpired now (expiry v) = false →
  m !! ref ≫= (.!! key) = Some v ↔ b !! (ref, key) = Some v.
Proof.
  intros (H1 & H2 & _) Ht Hl. split; [apply H1|]. intros Hb. apply H2; [done|].
  unfold isExpired in Hl. lia.
Qed.

Lemma agrees_lapsed t m b ref key now : agrees expiry t m b → t ≤ now →
  lapsed now (expiry <$> default ∅ (m !! ref) !! key) = lapsed now (expiry <$> b !! (ref, key)).
Proof.
  intros Ha Ht.
  assert (default ∅ (m !! ref) !! key = m !! ref ≫= (.!! key)) as ->.
  { destruct (m !! ref); [done|]. apply lookup_empty. }
  destruct (m !! ref ≫= (.!! key)) as [v|] eqn:E.
  - by rewrite ((proj1 Ha) _ _ _ E).
  - simpl. destruct (b !! (ref, key)) as [v|] eqn:Eb; [|done]. simpl.
    destruct (isExpired now (expiry v)) eqn:El; [done|].
    apply (agrees_live t _ _ _ _ _ now Ha Ht El) in Eb. congruence.
Qed.

Lemma agrees_insert t m b ref key v : agrees expiry t m b →
  agrees expiry t (<[ref := <[key := v]> (default ∅ (m !! ref))]> m) (<[(ref, key) := v]> b).
Proof.
  intros (H1 & H2 & H3).
  assert (∀ ref' key', <[ref:=<[key:=v]> (default ∅ (m !! ref))]> m !! ref' ≫= (.!! key') =
    if decide ((ref', key') = (ref, key)) then Some v else m !! ref' ≫= (.!! key')) as E.
  { intros ref' key'. destruct (decide (ref' = ref)) as [->|].
    - rewrite lookup_insert_eq. simpl. destruct (decide (key' = key)) as [->|].
      + rewrite lookup_insert_eq. by rewrite decide_True.
      + rewrite lookup_insert_ne, decide_False by congruence.
        destruct (m !! ref); [done|]. apply lookup_empty.
    - rewrite lookup_insert_ne, decide_False by congruence. done. }
  split_and!.
  - intros ref' key' w. rewrite E, lookup_insert. repeat case_decide; try congruence. apply H1.
  - intros ref' key' w. rewrite E, lookup_insert. repeat case_decide; try congruence. apply H2.
  - apply map_Forall_insert_2; [|done]. apply insert_non_empty.
Qed.

Lemma agrees_prune t u m b ref l now : (∀ k, t ≤ now k ≤ u) → agrees expiry t m b → m !! ref = Some l →
  agrees expiry u (drop_empty ref (prune expiry now l) m) b.
Proof.
  intros Hn (H1 & H2 & H3) Hl.
  assert (∀ ref' key', drop_empty ref (prune expiry now l) m !! ref' ≫= (.!! key') =
    if decide (ref' = ref) then prune expiry now l !! key' else m !! ref' ≫= (.!! key')) as E.
  { intros ref' key'. unfold drop_empty. case_bool_decide as He; case_decide as Hr; subst.
    - rewrite lookup_delete_eq, He, lookup_empty. done.
    - by rewrite lookup_delete_ne by done.
    - by rewrite lookup_insert_eq.
    - by rewrite lookup_insert_ne by done. }
  split_and!.
  - intros ref' key' w. rewrite E. case_decide; [|apply H1]. subst.
    unfold prune. rewrite map_lookup_filter_Some. intros [? _]. apply H1. by rewrite Hl.
  - intros ref' key' w Hb Hu. rewrite E. pose proof (Hn key').
    apply H2 in Hb; [|lia]. case_decide; [|done]. subst. rewrite Hl in Hb. simpl in Hb.
    unfold prune. apply map_lookup_filter_Some. split; [done|]. simpl. unfold isExpired. lia.
  - unfold drop_empty. case_bool_decide; [by apply map_Forall_delete|by apply map_Forall_insert_2].
Qed.

Lemma agrees_forget t m b key : agrees expiry t m b →
  agrees expiry t (forget key m) (filter (λ kv, kv.1.2 ≠ key) b).
Proof.
  intros (H1 & H2 & H3).
  assert (∀ ref' key', forget key m !! ref' ≫= (.!! key') =
    if decide (key' = key) then None else m !! ref' ≫= (.!! key')) as E.
  { intros ref' key'. unfold forget. rewrite map_lookup_filter, lookup_fmap.
    destruct (m !! ref') as [l|]; simpl; [|by case_decide].
    case_guard as Hg; simpl.
    - case_decide; [subst; apply lookup_delete_eq|by apply lookup_delete_ne].
    - case_decide; [done|]. rewrite <-(lookup_delete_ne l key key') by done.
      assert (delete key l = ∅) as -> by (destruct (decide (delete key l = ∅)); tauto).
      by rewrite lookup_empty. }
  split_and!.
  - intros ref' key' w. rewrite E, map_lookup_filter_Some. case_decide; [done|]. eauto.
  - intros ref' key' w. rewrite E, map_lookup_filter_Some. simpl. intros [? ?] ?.
    case_decide; [done|]. auto.
  - intros ref' l. unfold forget. rewrite map_lookup_filter_Some. by intros [_ ?].
Qed.
End Agrees.

(** One pass finds the abstract watchers. *)
Lemma observers_refines {V} (expiry : V → Z) match_ t u m b ref now :
  (∀ k, t ≤ now k ≤ u) → t ≤ u → agrees expiry t m b →
  agrees expiry u (observers expiry match_ now ref m).1 b ∧
  list_to_set (observers expiry match_ now ref m).2 = watchers expiry match_ now ref b.
Proof.
  intros Hn Htu Ha. unfold observers, watchers. split.
  { destruct (m !! ref) as [l|] eqn:E; [by eapply agrees_prune|by eapply agrees_later]. }
  apply set_eq. intros key. rewrite elem_of_list_to_set, elem_of_map. split.
  - destruct (m !! ref) as [l|] eqn:E; simpl; [|set_solver].
    rewrite list_elem_of_fmap.
    intros ([k v] & -> & [[He HP] Hk%elem_of_range_keys]%list_elem_of_filter). simpl in *.
    exists (ref, k). split; [done|]. apply elem_of_dom. exists v.
    apply map_lookup_filter_Some. split; [|done].
    eapply (agrees_live expiry t m); [done|apply Hn|done|]. by rewrite E.
  - intros ([r k] & -> & [v Hk]%elem_of_dom). simpl in *.
    apply map_lookup_filter_Some in Hk as [Hb (Hr & He & HP)]. simpl in *. subst r.
    eapply (agrees_live expiry t m) in Hb; [|done|apply Hn|done].
    destruct (m !! ref) as [l|]; simpl in *; [|done].
    apply list_elem_of_fmap. exists (k, v). split; [done|]. apply list_elem_of_filter.
    split; [done|]. by apply elem_of_range_keys.
Qed.

Lemma refines_New lease t : refines t (New lease) {| by_name := ∅; by_selector := ∅ |}.
Proof.
  split; (split_and!; [| |apply map_Forall_empty]); intros ref key v; simpl; by rewrite lookup_empty.
Qed.

Lemma refines_later t u i a : t ≤ u → refines t i a → refines u i a.
Proof. intros ? []. split; eapply agrees_later; eauto. Qed.

Definition simulated (t : Z) (r : tracker * list NamespacedName * (goerr + ()))
    (s : leases * gset NamespacedName * (goerr + ())) : Prop :=
  refines t r.1.1 s.1.1 ∧ list_to_set r.1.2 = s.1.2 ∧ r.2 = s.2.

Lemma TrackReference_refines t u checked written rf obj i a :
  t ≤ checked → checked ≤ written → written ≤ u → refines t i a →
  simulated u (TrackReference checked written rf obj i)
              (spec_step (leaseDuration i) (OTrack checked written rf obj) a).
Proof.
  intros Ht Hw Hu Ha. assert (refines u i a) as [Hx Hs] by (eapply refines_later; [|done]; lia).
  unfold TrackReference, spec_step. destruct (fieldErrors rf); [|done].
  destruct (DeletionHandlingAccessor obj) as [e|object]; [done|].
  set (key := key_of _). unfold spec_track. destruct (reference_selector rf).2 as [s|].
  - pose proof (agrees_lapsed snd t _ _ (partial (rf_ref rf)) key checked (proj2 Ha) Ht) as E.
    split_and!; [split; [done|by apply agrees_insert]| |done]. simpl. rewrite <-E.
    destruct (default ∅ (inexact i !! _) !! key) as [m|]; simpl; [destruct (isExpired _ _)|]; set_solver.
  - pose proof (agrees_lapsed id t _ _ (rf_ref rf) key checked (proj1 Ha) Ht) as E.
    rewrite !option_fmap_id in E.
    split_and!; [split; [by apply agrees_insert|done]| |done]. simpl. rewrite <-E.
    destruct (default ∅ (exact i !! _) !! key) as [m|]; simpl; [destruct (isExpired _ _)|]; set_solver.
Qed.

Lemma OnChanged_refines t u now now' obj i a :
  (∀ k, t ≤ now k ≤ u ∧ t ≤ now' k ≤ u) → t ≤ u → refines t i a →
  simulated u (OnChanged now now' obj i, inr ()) (spec_step (leaseDuration i) (OChanged now now' obj) a).
Proof.
  intros Hn Htu Ha. unfold OnChanged, GetObservers, spec_step.
  destruct (DeletionHandlingAccessor obj) as [e|item].
  { split_and!; [by eapply refines_later|done|done]. }
  destruct Ha as [Hx Hs].
  destruct (observers_refines id (λ _, true) t u _ _ (ObjectReference item) now (λ k, proj1 (Hn k)) Htu Hx)
    as [Hx' Ex].
  destruct (observers_refines snd (λ m, Matches m.1 (om_labels (ac_meta item))) t u _ _
    (partial (ObjectReference item)) now' (λ k, proj2 (Hn k)) Htu Hs) as [Hs' Es].
  destruct (observers id _ _ _ _) as [ex keys], (observers snd _ _ _ _) as [inex keys'].
  split_and!; [done| |done]. simpl in *. unfold spec_observers. rewrite <-Ex, <-Es. set_solver.
Qed.

Lemma OnDeletedObserver_refines t u obj i a : t ≤ u → refines t i a →
  simulated u (OnDeletedObserver obj i, [], inr ()) (spec_step (leaseDuration i) (ODeleted obj) a).
Proof.
  intros Htu Ha. eapply refines_later in Ha as [Hx Hs]; [|done].
  unfold OnDeletedObserver, spec_step. destruct (DeletionHandlingAccessor obj); [done|].
  split_and!; [split; by apply agrees_forget|done|done].
Qed.

Lemma tracker_step_lease o i : leaseDuration (tracker_step o i).1.1 = leaseDuration i.
Proof.
  destruct o as [c w rf obj|n n' obj|obj]; simpl.
  - unfold TrackReference. destruct (fieldErrors rf), (DeletionHandlingAccessor obj); try done.
    by destruct (reference_selector rf).2.
  - unfold OnChanged, GetObservers. destruct (DeletionHandlingAccessor obj); [done|].
    by destruct (observers id _ _ _ _), (observers snd _ _ _ _).
  - unfold OnDeletedObserver. by destruct (DeletionHandlingAccessor obj).
Qed.

Lemma tracker_step_refines t u o i a : t ≤ u → op_between t o u → refines t i a →
  simulated u (tracker_step o i) (spec_step (leaseDuration i) o a).
Proof.
  destruct o; simpl; intros Htu Hb Ha.
  - destruct Hb as (?&?&?). by eapply TrackReference_refines.
  - by eapply OnChanged_refines.
  - by eapply OnDeletedObserver_refines.
Qed.

Lemma tracker_run_refines t l i a : timed t l → refines t i a →
  Forall2 (λ o s, list_to_set o.1 = s.1 ∧ o.2 = s.2) (tracker_run l i) (spec_run (leaseDuration i) l a).
Proof.
  intros Ht. revert i a. induction Ht as [t|t o u l Htu Hb _ IH]; intros i a Ha; simpl; [constructor|].
  pose proof (tracker_step_refines t u o i a Htu Hb Ha) as (Hr & Hk & He).
  pose proof (tracker_step_lease o i) as El.
  destruct (tracker_step o i) as [[i' keys] r], (spec_step _ o a) as [[a' keys'] r']. simpl in *.
  constructor; [done|]. rewrite <-El. by apply IH.
Qed.

(** C18: Whatever sequence of calls it gets, the tracker answers like one map of leases:
    with a clock that does not go back, every call of [TrackReference] returns the same
    error or success and calls back exactly when the lease it renews was missing or had
    lapsed, and every [OnChanged] calls back with exactly the watchers that hold a live
    lease on the changed object, by its name or by a selector its labels match. *)
Theorem tracker_refines lease t l : timed t l →
  Forall2 (λ o s, list_to_set o.1 = s.1 ∧ o.2 = s.2)
    (tracker_run l (New lease)) (spec_run lease l {| by_name := ∅; by_selector := ∅ |}).
Proof. intros Ht. by apply (tracker_run_refines t l (New lease)), refines_New. Qed.
End Spec.

(** ** A run *)

Definition sample_meta (ns name : string) : ObjectMeta := {|
  om_name := name; om_namespace := ns; om_uid := ""; om_resource_version := "1"; om_generation := 1;
  om_labels := ∅; om_annotations := ∅; om_owners := [] |}.
Definition sample_pod (name : string) : eventobj :=
  Object {| ac_api_version := "v1"; ac_kind := "Pod"; ac_object := KPod (sample_meta "default" name) "10.0.0.1" |}.
Definition sample_reference (name : string) : SelectorReference :=
  {| rf_ref := {| tr_api_version := "v1"; tr_kind := "Pod"; tr_namespace := "default"; tr_name := name |};
     rf_selector := None |}.

Definition sample_key : NamespacedName := {| nn_namespace := "default"; nn_name := "hello" |}.

(** A watcher registers twice, sees a change, lets the lease lapse, registers again and
    is deleted; a reference without a name is refused. *)
Definition sample_ops : list tracker_op :=
  [OTrack 0 1 (sample_reference "web") (sample_pod "hello");
   OTrack 2 3 (sample_reference "web") (sample_pod "hello");
   OChanged (λ _, 5) (λ _, 5) (sample_pod "web");
   OChanged (λ _, 20) (λ _, 20) (sample_pod "web");
   OTrack 21 21 (sample_reference "") (sample_pod "hello");
   OTrack 22 22 (sample_reference "web") (sample_pod "hello");
   ODeleted (sample_pod "hello");
   OChanged (λ _, 23) (λ _, 23) (sample_pod "web")].

Lemma tracker_refines_witness :
  let _ := ascending_order in let _ := some_key_order in
  timed 0 sample_ops ∧
  (tracker_run sample_ops (New 10)).*1 = [[sample_key]; []; [sample_key]; []; []; [sample_key]; []; []] ∧
  Forall2 (λ o s, list_to_set o.1 = s.1 ∧ o.2 = s.2)
    (tracker_run sample_ops (New 10)) (spec_run 10 sample_ops {| by_name := ∅; by_selector := ∅ |}).
Proof.
  intros Hm Hk.
  assert (timed 0 sample_ops) as Ht.
  { unfold sample_ops.
    apply (timed_cons _ _ 1); [lia|simpl; lia|]. apply (timed_cons _ _ 3); [lia|simpl; lia|].
    apply (timed_cons _ _ 5); [lia|simpl; lia|]. apply (timed_cons _ _ 20); [lia|simpl; lia|].
    apply (timed_cons _ _ 21); [lia|simpl; lia|]. apply (timed_cons _ _ 22); [lia|simpl; lia|].
    apply (timed_cons _ _ 23); [lia|simpl; lia|]. apply (timed_cons _ _ 23); [lia|simpl; lia|].
    constructor. }
  split; [exact Ht|]. split; [vm_compute; reflexivity|]. exact (tracker_refines 10 0 sample_ops Ht).
Defined.
