(* ===== verification/Workqueue.v ===== *)
(** * Work queues (vendor/k8s.io/client-go/util/workqueue)

    The queue behind the status prober: the deduplicating queue of queue.go, the delaying
    queue around it (delaying_queue.go) with its channel, its heap of waiting entries and
    its goroutine, and the exponential back-off of default_rate_limiters.go.  Critical
    sections are functions; the goroutine [waitingLoop] and the passing of time are events.
    [WorkQueue] states what a queue promises to its users, and [delaying_WorkQueue] proves
    that the code keeps the promise. *)

From S2P Require Import Prelude.
Local Open Scope Z_scope.

(** ** The promise

    [wq_count q x] counts the requests to process [x] that were not served yet, and
    [wq_held q] holds the items handed to workers.  A request is not lost while the
    queue is up; an item is never handed to two workers at once; requests to process the
    same item may be merged, never multiplied. *)
Class WorkQueue (T Q : Type) `{Countable T} := {
  wq_event : Type;
  wq_add_after : T → Z → Q → option Q;
  wq_add_rate_limited : Z → T → Q → option Q;
  wq_forget : T → Q → Q;
  wq_get : Q → option (option T * Q);
  wq_done : T → Q → Q;
  wq_shut_down : Q → Q;
  wq_tick : wq_event → Q → option Q;
  wq_ok : Q → Prop;
  wq_count : Q → T → nat;
  wq_held : Q → gset T;
  wq_down : Q → bool;
  wq_add_after_spec q x d q' : wq_ok q → wq_add_after x d q = Some q' →
    wq_ok q' ∧ wq_held q' = wq_held q ∧ wq_down q' = wq_down q ∧
    (∀ y, y ≠ x → wq_count q' y = wq_count q y) ∧
    (wq_count q' x ≤ S (wq_count q x))%nat ∧
    (wq_down q = false → (0 < wq_count q' x)%nat);
  wq_add_rate_limited_spec q b x q' : wq_ok q → wq_add_rate_limited b x q = Some q' →
    wq_ok q' ∧ wq_held q' = wq_held q ∧ wq_down q' = wq_down q ∧
    (∀ y, y ≠ x → wq_count q' y = wq_count q y) ∧
    (wq_count q' x ≤ S (wq_count q x))%nat ∧
    (wq_down q = false → (0 < wq_count q' x)%nat);
  wq_forget_spec q x : wq_ok q →
    wq_ok (wq_forget x q) ∧ wq_held (wq_forget x q) = wq_held q ∧
    wq_down (wq_forget x q) = wq_down q ∧ (∀ y, wq_count (wq_forget x q) y = wq_count q y);
  wq_get_item q x q' : wq_ok q → wq_get q = Some (Some x, q') →
    wq_ok q' ∧ (x ∉ wq_held q) ∧ wq_held q' = {[x]} ∪ wq_held q ∧ wq_down q' = wq_down q ∧
    wq_count q x = S (wq_count q' x) ∧ (∀ y, y ≠ x → wq_count q' y = wq_count q y);
  wq_get_shutdown q q' : wq_ok q → wq_get q = Some (None, q') → wq_down q = true ∧ q' = q;
  wq_done_spec q x : wq_ok q → x ∈ wq_held q →
    wq_ok (wq_done x q) ∧ wq_held (wq_done x q) = wq_held q ∖ {[x]} ∧
    wq_down (wq_done x q) = wq_down q ∧ (∀ y, wq_count (wq_done x q) y = wq_count q y);
  wq_shut_down_spec q : wq_ok q →
    wq_ok (wq_shut_down q) ∧ wq_held (wq_shut_down q) = wq_held q ∧
    wq_down (wq_shut_down q) = true ∧ (∀ y, wq_count (wq_shut_down q) y = wq_count q y);
  wq_tick_spec e q q' : wq_ok q → wq_tick e q = Some q' →
    wq_ok q' ∧ wq_held q' = wq_held q ∧ wq_down q' = wq_down q ∧
    (∀ y, (wq_count q' y ≤ wq_count q y)%nat ∧ ((0 < wq_count q y)%nat → (0 < wq_count q' y)%nat));
  wq_add_after_live q x d : wq_ok q → ∃ q1 q2,
    rtc (λ q q', ∃ e, wq_tick e q = Some q') q q1 ∧ wq_add_after x d q1 = Some q2;
  wq_add_rate_limited_live q b x : wq_ok q → ∃ q1 q2,
    rtc (λ q q', ∃ e, wq_tick e q = Some q') q q1 ∧ wq_add_rate_limited b x q1 = Some q2;
  wq_get_live q x : wq_ok q → wq_down q = false → (0 < wq_count q x)%nat → x ∉ wq_held q →
    ∃ q1 y q2, rtc (λ q q', ∃ e, wq_tick e q = Some q') q q1 ∧ wq_get q1 = Some (Some y, q2)
}.

Definition wq_ticks `{WorkQueue T Q} : relation Q := rtc (λ q q', ∃ e, wq_tick e q = Some q').

Section Queue.
Context {T : Type} `{Countable T}.

(** ** queue.go *)

Record Typed := {
  queue : list T;
  dirty : gset T;
  processing : gset T;
  shuttingDown : bool;
  drain : bool
}.

Definition newQueue : Typed :=
  {| queue := []; dirty := ∅; processing := ∅; shuttingDown := false; drain := false |}.

(** [Touch] of the default queue does nothing. *)
Definition Add (item : T) (q : Typed) : Typed :=
  if shuttingDown q then q
  else if decide (item ∈ dirty q) then q
  else {| queue := if decide (item ∈ processing q) then queue q else queue q ++ [item];
          dirty := {[item]} ∪ dirty q; processing := processing q;
          shuttingDown := shuttingDown q; drain := drain q |}.

(** [Get] blocks ([None]) while the queue is empty and not shutting down; [Some (None, _)]
    is the answer [shutdown = true]. *)
Definition Get (q : Typed) : option (option T * Typed) :=
  match queue q with
  | [] => if shuttingDown q then Some (None, q) else None
  | item :: rest =>
      Some (Some item,
            {| queue := rest; dirty := dirty q ∖ {[item]}; processing := {[item]} ∪ processing q;
               shuttingDown := shuttingDown q; drain := drain q |})
  end.

Definition Done (item : T) (q : Typed) : Typed :=
  {| queue := if decide (item ∈ dirty q) then queue q ++ [item] else queue q;
     dirty := dirty q; processing := processing q ∖ {[item]};
     shuttingDown := shuttingDown q; drain := drain q |}.

Definition ShutDown (q : Typed) : Typed :=
  {| queue := queue q; dirty := dirty q; processing := processing q;
     shuttingDown := true; drain := false |}.

(** [ShutDownWithDrain] sets both flags and returns once [drained]. *)
Definition ShutDownWithDrain (q : Typed) : Typed :=
  {| queue := queue q; dirty := dirty q; processing := processing q;
     shuttingDown := true; drain := true |}.
Definition drained (q : Typed) : bool :=
  bool_decide (processing q = ∅) || negb (drain q).

(** The invariant of the comments of the struct: an item is in the queue exactly when it is
    dirty and not being processed, and it is there once. *)
Record typed_ok (q : Typed) : Prop := {
  queue_nodup : NoDup (queue q);
  queue_spec x : x ∈ queue q ↔ x ∈ dirty q ∧ x ∉ processing q
}.

Lemma newQueue_ok : typed_ok newQueue.
Proof. split; simpl; [constructor|set_solver]. Qed.

Lemma Add_ok x q : typed_ok q → typed_ok (Add x q).
Proof.
  intros [Hn Hs]. unfold Add. destruct (shuttingDown q); [done|].
  destruct (decide (x ∈ dirty q)) as [|Hd]; [done|].
  destruct (decide (x ∈ processing q)) as [Hp|Hp]; split; simpl; [done|set_solver| |].
  - apply NoDup_app. split_and!; [done|set_solver|apply NoDup_singleton].
  - set_solver.
Qed.

Lemma Get_ok x q q' : typed_ok q → Get q = Some (Some x, q') →
  typed_ok q' ∧ x ∈ dirty q ∧ x ∉ processing q.
Proof.
  intros [Hn Hs]. unfold Get. destruct (queue q) as [|y l] eqn:E; [by destruct (shuttingDown q)|].
  intros [= -> <-]. apply NoDup_cons in Hn as [Hx Hn].
  assert (x ∈ dirty q ∧ x ∉ processing q) as [??] by (apply Hs; set_solver).
  split_and!; [|done..]. split; simpl; [done|]. intros z. specialize (Hs z). set_solver.
Qed.

Lemma Done_ok x q : typed_ok q → x ∈ processing q → typed_ok (Done x q).
Proof.
  intros [Hn Hs] Hp. unfold Done. destruct (decide (x ∈ dirty q)) as [Hd|Hd]; split; simpl.
  - apply NoDup_app. split_and!; [done|set_solver|apply NoDup_singleton].
  - intros z. destruct (decide (z = x)); set_solver.
  - done.
  - intros z. destruct (decide (z = x)); set_solver.
Qed.

(** ** default_rate_limiters.go *)

Definition MaxInt64 : Z := 2 ^ 63 - 1.

(** The base and the maximal delay of a [TypedItemExponentialFailureRateLimiter]. *)
Record limiter := { baseDelay : Z; maxDelay : Z }.

(** [time.Duration(f)] of a [float64] with the value [f ≥ 0]: [2^63] has no representation,
    and its conversion is left to the machine (this is amd64's). *)
Definition Duration_of_float (f : Z) : Z := if f <? 2 ^ 63 then f else - 2 ^ 63.

(** [When] for an item that has failed [exp] times.  The product of a base below [2^53]
    and a power of two is exact in [float64]; beyond its range it is infinite, above every
    [int64] like the exact product.  As a [float64], [math.MaxInt64] is [2^63]. *)
Definition When (l : limiter) (exp : nat) : Z :=
  let backoff := baseDelay l * 2 ^ Z.of_nat exp in
  if backoff >? 2 ^ 63 then maxDelay l
  else
    let calculated := Duration_of_float backoff in
    if calculated >? maxDelay l then maxDelay l else calculated.

(** [TypedMaxOfRateLimiter.When] of the back-off and the token bucket, whose delay is
    decided by golang.org/x/time and the load: [bucket]. *)
Definition MaxOf_When (l : limiter) (exp : nat) (bucket : Z) : Z :=
  foldl (λ ret curr, if curr >? ret then curr else ret) 0 [When l exp; bucket].

(** ** delaying_queue.go and rate_limiting_queue.go

    [waitingForAddCh] is the buffered channel, [waitingEntryByData] the heap of
    [waitingLoop] by item; [failures] belongs to the rate limiter. *)
Record delayingType := {
  inner : Typed;
  waitingForAddCh : list (T * Z);
  waitingEntryByData : gmap T Z;
  now : Z;
  failures : gmap T nat;
  rateLimiter : limiter
}.

Definition NewRateLimitingQueue (l : limiter) : delayingType :=
  {| inner := newQueue; waitingForAddCh := []; waitingEntryByData := ∅; now := 0;
     failures := ∅; rateLimiter := l |}.

Definition with_inner (t : Typed) (q : delayingType) : delayingType :=
  {| inner := t; waitingForAddCh := waitingForAddCh q; waitingEntryByData := waitingEntryByData q;
     now := now q; failures := failures q; rateLimiter := rateLimiter q |}.
Definition with_failures (f : gmap T nat) (q : delayingType) : delayingType :=
  {| inner := inner q; waitingForAddCh := waitingForAddCh q; waitingEntryByData := waitingEntryByData q;
     now := now q; failures := f; rateLimiter := rateLimiter q |}.
Definition with_waiting (ch : list (T * Z)) (m : gmap T Z) (q : delayingType) : delayingType :=
  {| inner := inner q; waitingForAddCh := ch; waitingEntryByData := m;
     now := now q; failures := failures q; rateLimiter := rateLimiter q |}.

Definition waitingForAddCh_capacity : nat := 1000.

(** [AddAfter] blocks ([None]) on a full channel, until there is room or a shutdown. *)
Definition AddAfter (item : T) (duration : Z) (q : delayingType) : option delayingType :=
  if shuttingDown (inner q) then Some q
  else if duration <=? 0 then Some (with_inner (Add item (inner q)) q)
  else if (length (waitingForAddCh q) <? waitingForAddCh_capacity)%nat then
    Some (with_waiting (waitingForAddCh q ++ [(item, now q + duration)]) (waitingEntryByData q) q)
  else None.

Definition AddRateLimited (bucket : Z) (item : T) (q : delayingType) : option delayingType :=
  let exp := default 0%nat (failures q !! item) in
  AddAfter item (MaxOf_When (rateLimiter q) exp bucket)
    (with_failures (<[item := S exp]> (failures q)) q).

Definition Forget (item : T) (q : delayingType) : delayingType :=
  with_failures (delete item (failures q)) q.

Definition insert_entry (item : T) (readyAt : Z) (known : gmap T Z) : gmap T Z :=
  match known !! item with
  | Some existing => if existing >? readyAt then <[item := readyAt]> known else known
  | None => <[item := readyAt]> known
  end.

(** What [waitingLoop] and the clock do: an entry whose time has come and that is at the
    root of the heap is added; an entry is received from the channel; time passes. *)
Inductive loop_event := EFire (item : T) | EReceive | ETime (d : Z).

Definition waitingLoop (e : loop_event) (q : delayingType) : option delayingType :=
  match e with
  | EFire item =>
      if shuttingDown (inner q) then None else
      match waitingEntryByData q !! item with
      | Some readyAt =>
          if bool_decide (readyAt ≤ now q ∧ map_Forall (λ _ t, readyAt ≤ t) (waitingEntryByData q)) then
            Some (with_waiting (waitingForAddCh q) (delete item (waitingEntryByData q))
                    (with_inner (Add item (inner q)) q))
          else None
      | None => None
      end
  | EReceive =>
      if shuttingDown (inner q) then None else
      match waitingForAddCh q with
      | (item, readyAt) :: ch =>
          Some (if readyAt >? now q
                then with_waiting ch (insert_entry item readyAt (waitingEntryByData q)) q
                else with_waiting ch (waitingEntryByData q) (with_inner (Add item (inner q)) q))
      | [] => None
      end
  | ETime d =>
      if d <? 0 then None
      else Some {| inner := inner q; waitingForAddCh := waitingForAddCh q;
                   waitingEntryByData := waitingEntryByData q; now := now q + d;
                   failures := failures q; rateLimiter := rateLimiter q |}
  end.

Definition delaying_get (q : delayingType) : option (option T * delayingType) :=
  '(item, t) ← Get (inner q); Some (item, with_inner t q).
Definition delaying_done (item : T) (q : delayingType) : delayingType :=
  with_inner (Done item (inner q)) q.
Definition delaying_shut_down (q : delayingType) : delayingType :=
  with_inner (ShutDown (inner q)) q.

(** Requests not served yet: in the dirty set, on the heap, and in the channel. *)
Definition one (P : Prop) `{Decision P} : nat := if decide P then 1 else 0.
Definition requests (q : delayingType) (x : T) : nat :=
  one (x ∈ dirty (inner q)) + one (is_Some (waitingEntryByData q !! x)) +
  length (filter (λ e, e.1 = x) (waitingForAddCh q)).
End Queue.

Arguments Typed : clear implicits.
Arguments Typed T {_ _}.
Arguments delayingType : clear implicits.
Arguments delayingType T {_ _}.
Arguments loop_event : clear implicits.

(** ** The code keeps the promise *)

Section Laws.
Context {T : Type} `{Countable T}.
Implicit Types (q : delayingType T) (t : Typed T) (x y : T).

Definition delaying_ok q : Prop := typed_ok (inner q).

Ltac count := unfold requests, one in *; simpl in *; repeat case_decide; simplify_option_eq;
  try done; try lia; try (exfalso; set_solver).

Lemma Add_fields x t :
  processing (Add x t) = processing t ∧ shuttingDown (Add x t) = shuttingDown t ∧
  dirty (Add x t) = if shuttingDown t then dirty t else {[x]} ∪ dirty t.
Proof.
  unfold Add. destruct (shuttingDown t) eqn:?; [done|].
  case_decide; simpl; (split; [done|]); (split; [done|]); [|done].
  set_solver.
Qed.

Lemma one_iff (P Q : Prop) `{Decision P, Decision Q} : (P ↔ Q) → one P = one Q.
Proof. unfold one. intros. repeat case_decide; done || tauto. Qed.
Lemma one_le (P : Prop) `{Decision P} : (one P ≤ 1)%nat.
Proof. unfold one. case_decide; lia. Qed.
Lemma one_true (P : Prop) `{Decision P} : P → one P = 1%nat.
Proof. intros. unfold one. by rewrite decide_True. Qed.

Lemma insert_entry_spec x at_ m y :
  is_Some (insert_entry x at_ m !! y) ↔ y = x ∨ is_Some (m !! y).
Proof.
  unfold insert_entry. destruct (m !! x) as [t0|] eqn:E; [destruct (_ >? _)|];
    rewrite ?lookup_insert_is_Some'; naive_solver.
Qed.

(** Adding to the inner queue serves no request and makes at most one. *)
Lemma requests_Add q x y :
  requests (with_inner (Add x (inner q)) q) y =
  (one (y ∈ (if shuttingDown (inner q) then dirty (inner q) else {[x]} ∪ dirty (inner q))) +
   one (is_Some (waitingEntryByData q !! y)) + length (filter (λ e, e.1 = y) (waitingForAddCh q)))%nat.
Proof. unfold requests. simpl. by rewrite (proj2 (proj2 (Add_fields x (inner q)))). Qed.

Lemma AddAfter_spec q x d q' : delaying_ok q → AddAfter x d q = Some q' →
  delaying_ok q' ∧ processing (inner q') = processing (inner q) ∧
  shuttingDown (inner q') = shuttingDown (inner q) ∧
  (∀ y, y ≠ x → requests q' y = requests q y) ∧
  (requests q' x ≤ S (requests q x))%nat ∧
  (shuttingDown (inner q) = false → (0 < requests q' x)%nat).
Proof.
  intros Hok. unfold AddAfter. destruct (shuttingDown (inner q)) eqn:Hd.
  { intros [= <-]. rewrite Hd. split_and!; [done..|lia|done]. }
  destruct (d <=? 0).
  - intros [= <-]. destruct (Add_fields x (inner q)) as (Hp & Hs & _).
    split_and!; [by apply Add_ok|done|simpl; congruence|..].
    + intros y Hy. rewrite requests_Add, Hd. unfold requests. do 2 f_equal. apply one_iff. set_solver.
    + rewrite requests_Add, Hd. unfold requests. pose proof (one_le (x ∈ {[x]} ∪ dirty (inner q))). lia.
    + intros _. rewrite requests_Add, Hd, (one_true (x ∈ _)) by set_solver. lia.
  - destruct (_ <? _)%nat; [|done]. intros [= <-]. unfold requests; simpl.
    split_and!; [done|done|done|..].
    + intros y Hy. by rewrite filter_app, filter_cons_False, filter_nil, app_nil_r by (simpl; congruence).
    + rewrite filter_app, length_app, filter_cons_True by done. simpl. lia.
    + intros _. rewrite filter_app, length_app, filter_cons_True by done. simpl. lia.
Qed.

Lemma waitingLoop_spec e q q' : delaying_ok q → waitingLoop e q = Some q' →
  delaying_ok q' ∧ processing (inner q') = processing (inner q) ∧
  shuttingDown (inner q') = shuttingDown (inner q) ∧
  (∀ y, (requests q' y ≤ requests q y)%nat ∧ ((0 < requests q y)%nat → (0 < requests q' y)%nat)).
Proof.
  intros Hok. destruct e as [x| |d]; simpl.
  - destruct (shuttingDown (inner q)) eqn:Hd; [done|].
    destruct (waitingEntryByData q !! x) as [t|] eqn:Hx; [|done].
    case_bool_decide; [|done]. intros [= <-]. destruct (Add_fields x (inner q)) as (Hp & Hs & Hdi).
    split_and!; [by apply Add_ok|done|simpl; congruence|]. intros y.
    unfold requests; simpl. rewrite Hdi, Hd.
    destruct (decide (y = x)) as [->|Hne].
    + rewrite lookup_delete_eq, Hx, (one_true (is_Some (Some t))), (one_true (x ∈ _)) by (done || set_solver).
      pose proof (one_le (is_Some (@None Z))). unfold one. rewrite (decide_False (P:=is_Some None)); [lia|].
      by apply is_Some_None.
    + rewrite lookup_delete_ne by done. rewrite (one_iff (y ∈ {[x]} ∪ _) (y ∈ dirty (inner q))) by set_solver. lia.
  - destruct (shuttingDown (inner q)) eqn:Hd; [done|].
    destruct (waitingForAddCh q) as [|[x t] ch] eqn:Hc; [done|]. intros [= <-].
    destruct (t >? now q); unfold requests; simpl; rewrite Hc.
    + split_and!; [done|done|done|]. intros y. rewrite filter_cons. simpl.
      rewrite (one_iff (is_Some (insert_entry x t _ !! y)) (y = x ∨ is_Some (waitingEntryByData q !! y)))
        by apply insert_entry_spec.
      case_decide; unfold one; repeat case_decide; simpl; intuition (try lia; try congruence).
    + destruct (Add_fields x (inner q)) as (Hp & Hs & Hdi).
      split_and!; [by apply Add_ok|done|simpl; congruence|]. intros y. rewrite Hdi, Hd, filter_cons. simpl.
      rewrite (one_iff (y ∈ {[x]} ∪ dirty (inner q)) (y = x ∨ y ∈ dirty (inner q))) by set_solver.
      case_decide; unfold one; repeat case_decide; simpl; intuition (try lia; try congruence).
  - destruct (d <? 0); [done|]. intros [= <-]. split_and!; [done|done|done|]. intros y. split; [done|done].
Qed.

Definition ticks : relation (delayingType T) := rtc (λ q q', ∃ e, waitingLoop e q = Some q').

(** The goroutine can empty the channel, which makes room for [AddAfter]. *)
Lemma drain_channel q : shuttingDown (inner q) = false →
  ∃ q', ticks q q' ∧ waitingForAddCh q' = [] ∧ now q' = now q.
Proof.
  remember (waitingForAddCh q) as ch eqn:E. revert q E.
  induction ch as [|[x t] ch IH]; intros q E Hd; [exists q; by split_and!; [constructor|..]|].
  pose (q1 := if t >? now q
              then with_waiting ch (insert_entry x t (waitingEntryByData q)) q
              else with_waiting ch (waitingEntryByData q) (with_inner (Add x (inner q)) q)).
  assert (waitingLoop EReceive q = Some q1) as Hstep by (simpl; by rewrite Hd, <- E).
  destruct (IH q1) as (q' & Ht & Hc & Hn).
  { subst q1. by destruct (t >? now q). }
  { subst q1. destruct (t >? now q); [done|]. simpl. by destruct (Add_fields x (inner q)) as (_ & -> & _). }
  exists q'. split_and!; [|done|].
  - econstructor; [by exists EReceive|done].
  - rewrite Hn. subst q1. by destruct (t >? now q).
Qed.

Lemma AddAfter_live q x d : ∃ q1 q2, ticks q q1 ∧ AddAfter x d q1 = Some q2.
Proof.
  unfold AddAfter. destruct (shuttingDown (inner q)) eqn:Hd.
  { exists q. rewrite Hd. eexists. split; [constructor|done]. }
  destruct (drain_channel q Hd) as (q1 & Ht & Hc & _). exists q1. rewrite Hc. simpl.
  destruct (shuttingDown (inner q1)), (d <=? 0); eexists; (split; [exact Ht|reflexivity]).
Qed.

Lemma ticks_spec q q' : delaying_ok q → ticks q q' →
  delaying_ok q' ∧ processing (inner q') = processing (inner q) ∧
  shuttingDown (inner q') = shuttingDown (inner q) ∧
  (∀ y, (requests q' y ≤ requests q y)%nat ∧ ((0 < requests q y)%nat → (0 < requests q' y)%nat)).
Proof.
  intros Hok Ht. induction Ht as [q|q q1 q2 [e He] Ht IH].
  { split_and!; [done..|]. intros y. split; [done|done]. }
  apply waitingLoop_spec in He as (Hok1 & Hp & Hd & Hr); [|done].
  destruct (IH Hok1) as (? & -> & -> & Hr2). split_and!; [done..|].
  intros y. specialize (Hr y). specialize (Hr2 y). split; [lia|]. intros ?. apply Hr2, Hr. done.
Qed.

Lemma map_minimal (m : gmap T Z) : m ≠ ∅ → ∃ x (t : Z), m !! x = Some t ∧ map_Forall (λ _ (u : Z), t ≤ u) m.
Proof.
  induction m as [|x t m Hx IH] using map_ind; [done|]. intros _.
  destruct (decide (m = ∅)) as [->|Hm].
  { exists x, t. rewrite lookup_insert_eq. split; [done|]. intros y t'.
    rewrite lookup_insert_Some, lookup_empty. intros [[_ ->]|[_ ?]]; [lia|done]. }
  destruct (IH Hm) as (y & s & Hy & Hmin). destruct (decide (t ≤ s)) as [Hle|Hle].
  - exists x, t. rewrite lookup_insert_eq. split; [done|].
    apply map_Forall_insert_2; [lia|]. intros z t' Hz. specialize (Hmin z t' Hz). simpl in Hmin. lia.
  - exists y, s. rewrite lookup_insert_ne by naive_solver. split; [done|].
    apply map_Forall_insert_2; [lia|done].
Qed.

(** Time and the goroutine bring some item to the head of the queue. *)
Lemma fire_until q x : delaying_ok q → shuttingDown (inner q) = false → waitingForAddCh q = [] →
  (0 < requests q x)%nat → x ∉ processing (inner q) →
  ∃ q1 y q2, ticks q q1 ∧ delaying_get q1 = Some (Some y, q2).
Proof.
  remember (size (waitingEntryByData q)) as n eqn:En. revert q En.
  induction n as [n IH] using lt_wf_ind. intros q -> Hok Hd Hc Hr Hx.
  destruct (queue (inner q)) as [|y l] eqn:Eq.
  2: { exists q, y. eexists. split; [constructor|]. unfold delaying_get, Get. by rewrite Eq. }
  assert (x ∉ dirty (inner q)) as Hnd.
  { intros ?. assert (x ∈ queue (inner q)) as Hin by (by apply (queue_spec _ Hok)).
    rewrite Eq in Hin. by apply elem_of_nil in Hin. }
  destruct (map_minimal (waitingEntryByData q)) as (y & t & Hy & Hmin).
  { intros E0. unfold requests, one in Hr. rewrite Hc, E0, lookup_empty in Hr.
    rewrite !decide_False in Hr by (done || apply is_Some_None). simpl in Hr. lia. }
  set (q1 := {| inner := inner q; waitingForAddCh := waitingForAddCh q;
                waitingEntryByData := waitingEntryByData q; now := now q + Z.max 0 (t - now q);
                failures := failures q; rateLimiter := rateLimiter q |}).
  set (q2 := with_waiting (waitingForAddCh q1) (delete y (waitingEntryByData q1))
               (with_inner (Add y (inner q1)) q1)).
  assert (waitingLoop (ETime (Z.max 0 (t - now q))) q = Some q1) as H1.
  { simpl. destruct (Z.ltb_spec (Z.max 0 (t - now q)) 0); [lia|done]. }
  assert (waitingLoop (EFire y) q1 = Some q2) as H2.
  { simpl. rewrite Hd, Hy, bool_decide_true; [done|]. split; [simpl; lia|done]. }
  assert (ticks q q2) as Ht by (econstructor; [by eexists|]; econstructor; [by eexists|constructor]).
  destruct (ticks_spec _ _ Hok Ht) as (Hok2 & Hp2 & Hd2 & Hr2).
  destruct (IH (size (waitingEntryByData q2))) with (q := q2) as (q3 & z & q4 & Ht' & Hg);
    [|done|done|congruence|done|by apply Hr2|by rewrite Hp2|].
  { simpl. rewrite map_size_delete_Some by eauto.
    assert (size (waitingEntryByData q) ≠ 0%nat); [|lia].
    intros E0%map_size_empty_inv. by rewrite E0, lookup_empty in Hy. }
  exists q3, z, q4. split; [by etrans|done].
Qed.

Lemma delaying_get_live q x : delaying_ok q → shuttingDown (inner q) = false →
  (0 < requests q x)%nat → x ∉ processing (inner q) →
  ∃ q1 y q2, ticks q q1 ∧ delaying_get q1 = Some (Some y, q2).
Proof.
  intros Hok Hd Hr Hx. destruct (drain_channel q Hd) as (q1 & Ht & Hc & _).
  destruct (ticks_spec _ _ Hok Ht) as (Hok1 & Hp & Hd1 & Hr1).
  destruct (fire_until q1 x) as (q2 & y & q3 & Ht2 & Hg);
    [done|congruence|done|by apply Hr1|by rewrite Hp|].
  exists q2, y, q3. split; [by etrans|done].
Qed.

Lemma delaying_get_item q x q' : delaying_ok q → delaying_get q = Some (Some x, q') →
  delaying_ok q' ∧ (x ∉ processing (inner q)) ∧
  processing (inner q') = {[x]} ∪ processing (inner q) ∧
  shuttingDown (inner q') = shuttingDown (inner q) ∧
  requests q x = S (requests q' x) ∧ (∀ y, y ≠ x → requests q' y = requests q y).
Proof.
  intros Hok. unfold delaying_get. destruct (Get (inner q)) as [[[y|] t]|] eqn:Hg; [|done..].
  intros [= -> <-]. destruct (Get_ok _ _ _ Hok Hg) as (Hok' & Hdx & Hpx).
  unfold Get in Hg. destruct (queue (inner q)) as [|z l]; [by destruct (shuttingDown _)|].
  injection Hg as -> <-. split_and!; try done.
  - unfold requests. simpl. rewrite one_true by done. unfold one at 2. rewrite decide_False by set_solver. lia.
  - intros y Hy. unfold requests. simpl. do 2 f_equal. apply one_iff. set_solver.
Qed.

#[export] Program Instance delaying_WorkQueue : WorkQueue T (delayingType T) := {
  wq_event := loop_event T;
  wq_add_after := AddAfter;
  wq_add_rate_limited := AddRateLimited;
  wq_forget := Forget;
  wq_get := delaying_get;
  wq_done := delaying_done;
  wq_shut_down := delaying_shut_down;
  wq_tick := waitingLoop;
  wq_ok := delaying_ok;
  wq_count := requests;
  wq_held q := processing (inner q);
  wq_down q := shuttingDown (inner q)
}.
Next Obligation. intros. by eapply AddAfter_spec. Qed.
Next Obligation.
  intros q b x q' Hok Ha. unfold AddRateLimited in Ha. exact (AddAfter_spec _ _ _ _ (Hok : delaying_ok (with_failures _ q)) Ha).
Qed.
Next Obligation. done. Qed.
Next Obligation. intros. by eapply delaying_get_item. Qed.
Next Obligation.
  intros q q' _. unfold delaying_get, Get. destruct (queue (inner q)) as [|? ?]; [|done].
  destruct (shuttingDown (inner q)) eqn:?; [|done]. intros [= <-]. by destruct q.
Qed.
Next Obligation. intros q x Hok Hx. split_and!; [by apply Done_ok|done..]. Qed.
Next Obligation. intros q Hok. split_and!; [by destruct Hok|done..]. Qed.
Next Obligation. intros. by eapply waitingLoop_spec. Qed.
Next Obligation. intros. apply AddAfter_live. Qed.
Next Obligation.
  intros q b x _. unfold AddRateLimited.
  destruct (shuttingDown (inner q)) eqn:Hd.
  - exists q. eexists. split; [constructor|]. unfold AddAfter. simpl. by rewrite Hd.
  - destruct (drain_channel q Hd) as (q1 & Ht & Hc & _). exists q1.
    unfold AddAfter. simpl. rewrite Hc. case_match; [by eexists|]. case_match; by eexists.
Qed.
Next Obligation. intros. by eapply delaying_get_live. Qed.
End Laws.

(** ** Back-off *)

(** The delays fit [int64], and no number of failures gives exactly [2^63] nanoseconds. *)
Record limiter_ok (l : limiter) : Prop := {
  base_positive : 0 < baseDelay l;
  base_max : baseDelay l ≤ maxDelay l;
  max_int64 : maxDelay l ≤ MaxInt64;
  no_wrap (n : nat) : baseDelay l * 2 ^ Z.of_nat n ≠ 2 ^ 63
}.

(** A base that is not a power of two is enough. *)
Lemma not_power_no_wrap (b : Z) (n : nat) : 0 < b → 2 ^ Z.log2 b ≠ b → b * 2 ^ Z.of_nat n ≠ 2 ^ 63.
Proof.
  intros Hb Hp E. apply Hp. pose proof (f_equal Z.log2 E) as El.
  rewrite Z.log2_mul_pow2, Z.log2_pow2 in El by lia.
  assert (2 ^ (63 - Z.of_nat n) * 2 ^ Z.of_nat n = 2 ^ 63) as E2.
  { pose proof (Z.log2_nonneg b). rewrite <-Z.pow_add_r by lia. f_equal. lia. }
  replace (Z.log2 b) with (63 - Z.of_nat n) by lia.
  rewrite <-E in E2. apply Z.mul_reg_r in E2; [done|]. apply Z.pow_nonzero; lia.
Qed.

Lemma When_spec l n : limiter_ok l → When l n = Z.min (baseDelay l * 2 ^ Z.of_nat n) (maxDelay l).
Proof.
  intros [Hb Hbm Hm Hw]. specialize (Hw n). unfold When, Duration_of_float, MaxInt64 in *.
  destruct (Z.gtb_spec (baseDelay l * 2 ^ Z.of_nat n) (2 ^ 63)); [lia|].
  destruct (Z.ltb_spec (baseDelay l * 2 ^ Z.of_nat n) (2 ^ 63)); [|lia].
  destruct (Z.gtb_spec (baseDelay l * 2 ^ Z.of_nat n) (maxDelay l)); lia.
Qed.

Lemma MaxOf_When_spec l n bucket : limiter_ok l → 0 ≤ bucket →
  MaxOf_When l n bucket = Z.max bucket (Z.min (baseDelay l * 2 ^ Z.of_nat n) (maxDelay l)).
Proof.
  intros Hl Hb. unfold MaxOf_When. simpl. rewrite When_spec by done. destruct Hl.
  assert (0 < 2 ^ Z.of_nat n) by (apply Z.pow_pos_nonneg; lia).
  assert (0 < baseDelay l * 2 ^ Z.of_nat n) by (by apply Z.mul_pos_pos).
  destruct (Z.gtb_spec (Z.min (baseDelay l * 2 ^ Z.of_nat n) (maxDelay l)) 0); [|lia].
  destruct (Z.gtb_spec bucket (Z.min (baseDelay l * 2 ^ Z.of_nat n) (maxDelay l))); lia.
Qed.

(** The comment in [When] says that the computed value never overflows; with a power of two
    as the base it does, and the item would be retried at once. *)
Lemma When_overflows : When {| baseDelay := 1; maxDelay := 1000 * 1000000000 |} 63 = - 2 ^ 63.
Proof. vm_compute. reflexivity. Qed.

Section Backoff.
Context {T : Type} `{Countable T}.
Implicit Types (q : delayingType T) (x y : T).

(** [fails] failures in a row, each with its delay of the token bucket. *)
Fixpoint retries x (buckets : list Z) q : option (delayingType T) :=
  match buckets with
  | [] => Some q
  | b :: bs => q ← AddRateLimited b x q; retries x bs q
  end.

Lemma AddRateLimited_fields b x q q' : AddRateLimited b x q = Some q' →
  failures q' = <[x := S (default 0%nat (failures q !! x))]> (failures q) ∧
  rateLimiter q' = rateLimiter q ∧ shuttingDown (inner q') = shuttingDown (inner q) ∧ now q' = now q.
Proof.
  unfold AddRateLimited, AddAfter. simpl. destruct (shuttingDown (inner q)) eqn:Hd; [by intros [= <-]|].
  destruct (_ <=? 0).
  - intros [= <-]. simpl. destruct (Add_fields x (inner q)) as (_ & -> & _). by rewrite Hd.
  - destruct (_ <? _)%nat; [|done]. intros [= <-]. simpl. by rewrite Hd.
Qed.

Lemma retries_fields x bs q q' : retries x bs q = Some q' →
  default 0%nat (failures q' !! x) = (length bs + default 0%nat (failures q !! x))%nat ∧
  rateLimiter q' = rateLimiter q ∧ shuttingDown (inner q') = shuttingDown (inner q) ∧ now q' = now q ∧
  ∀ y, y ≠ x → failures q' !! y = failures q !! y.
Proof.
  revert q. induction bs as [|b bs IH]; simpl; intros q; [by intros [= <-]|].
  destruct (AddRateLimited b x q) as [q1|] eqn:E; simpl; [|done].
  intros (-> & -> & -> & -> & Hy)%IH. apply AddRateLimited_fields in E as (Ef & -> & -> & ->).
  rewrite Ef, lookup_insert_eq. simpl. split_and!; [lia|done..|].
  intros y Hne. by rewrite Hy, Ef, lookup_insert_ne.
Qed.

(** C22: the back-off of a failing item.  After [Forget] and any number of failures, the next
    one puts the item on the channel to be ready after [base * 2^failures], cut off at the
    maximal delay, or after the delay of the token bucket if that is longer; this is at
    least the base delay, grows with the failures, is the maximal delay from the 63rd on,
    and fits [int64] whenever the bucket's delay does.  Other items keep their count. *)
Theorem AddRateLimited_backoff q x bs bucket q1 q2 :
  let l := rateLimiter q in
  let delay n := Z.max bucket (Z.min (baseDelay l * 2 ^ Z.of_nat n) (maxDelay l)) in
  limiter_ok l → 0 ≤ bucket ≤ MaxInt64 → shuttingDown (inner q) = false →
  retries x bs (Forget x q) = Some q1 → AddRateLimited bucket x q1 = Some q2 →
  waitingForAddCh q2 = waitingForAddCh q1 ++ [(x, now q + delay (length bs))] ∧
  (baseDelay l ≤ delay (length bs) ≤ MaxInt64) ∧
  (∀ n, (n ≤ length bs)%nat → delay n ≤ delay (length bs)) ∧
  ((63 ≤ length bs)%nat → delay (length bs) = Z.max bucket (maxDelay l)) ∧
  (∀ y, y ≠ x → failures q2 !! y = failures q !! y).
Proof.
  intros l delay Hl Hb Hd Hr Ha.
  destruct (retries_fields _ _ _ _ Hr) as (Hf & Hlim & Hd1 & Hnow & Hy). simpl in Hf, Hlim, Hd1, Hnow.
  rewrite lookup_delete_eq, Nat.add_0_r in Hf.
  assert (∀ n m : nat, (n ≤ m)%nat → 1 ≤ 2 ^ Z.of_nat n ≤ 2 ^ Z.of_nat m) as Hpow.
  { intros n m Hnm. split; [pose proof (Z.pow_pos_nonneg 2 (Z.of_nat n)); lia|apply Z.pow_le_mono_r; lia]. }
  pose proof (base_positive _ Hl). pose proof (base_max _ Hl). pose proof (max_int64 _ Hl). split_and!.
  - unfold AddRateLimited, AddAfter in Ha. simpl in Ha. rewrite Hd1, Hd, Hf, Hlim in Ha.
    rewrite MaxOf_When_spec in Ha by (done || lia). fold l in Ha. fold (delay (length bs)) in Ha.
    destruct (Z.leb_spec (delay (length bs)) 0) as [Hle|_].
    + specialize (Hpow 0%nat (length bs)). unfold delay in Hle. nia.
    + destruct (_ <? _)%nat; [|done]. injection Ha as <-. simpl. by rewrite Hnow.
  - unfold delay. specialize (Hpow 0%nat (length bs)). nia.
  - unfold delay. lia.
  - intros n Hn. unfold delay. specialize (Hpow n (length bs) Hn). nia.
  - intros Hn. unfold delay. specialize (Hpow 63%nat (length bs) Hn). unfold MaxInt64 in *. nia.
  - intros y Hne. apply AddRateLimited_fields in Ha as (-> & _). rewrite lookup_insert_ne, Hy by done.
    simpl. by rewrite lookup_delete_ne.
Qed.
End Backoff.

Lemma AddRateLimited_backoff_witness :
  let q := NewRateLimitingQueue (T := nat) {| baseDelay := 50 * 1000000; maxDelay := 30 * 1000000000 |} in
  waitingForAddCh <$> (q1 ← retries 7%nat [0; 0; 0] (Forget 7%nat q); AddRateLimited 5 7%nat q1) =
    Some [(7%nat, 50 * 1000000); (7%nat, 100 * 1000000); (7%nat, 200 * 1000000); (7%nat, 400 * 1000000)].
Proof.
  intros q. destruct (retries 7%nat [0; 0; 0] (Forget 7%nat q)) as [q1|] eqn:E1; [|vm_compute in E1; discriminate E1].
  destruct (AddRateLimited 5 7%nat q1) as [q2|] eqn:E2; [|injection E1 as <-; vm_compute in E2; discriminate E2].
  assert (limiter_ok (rateLimiter q)) as Hl.
  { split; simpl; [lia|lia|by vm_compute|]. intros n. apply not_power_no_wrap; [lia|by vm_compute]. }
  destruct (AddRateLimited_backoff q 7%nat [0; 0; 0] 5 q1 q2 Hl) as [Hw _];
    [split; [lia|by vm_compute]|reflexivity|exact E1|exact E2|].
  simpl. rewrite E2. simpl. rewrite Hw. injection E1 as <-. reflexivity.
Defined.
