(* ===== verification/TwoLane.v ===== *)
(** * The controller's work queue (vendor/knative.dev/pkg/controller/two_lane_queue.go)

    Keys wait in a fast lane (events, retries) or a slow lane (global resyncs); a goroutine
    per lane takes them out and offers them on a channel, and a third one moves them to the
    consumer queue the workers read, preferring the fast lane.  Around the fast lane lies
    the delaying, rate limited queue of [Workqueue].  [ControllerQueue] is what the
    controller relies on; [twoLane_WorkQueue] and [twoLane_ControllerQueue] prove it. *)

From S2P Require Import Prelude Workqueue.
Local Open Scope Z_scope.

(** A work queue with immediate additions to either lane. *)
Class ControllerQueue (T Q : Type) `{WorkQueue T Q} := {
  cq_add : T → Q → Q;
  cq_add_slow : T → Q → Q;
  cq_add_spec q x : wq_ok q →
    wq_ok (cq_add x q) ∧ wq_held (cq_add x q) = wq_held q ∧ wq_down (cq_add x q) = wq_down q ∧
    (∀ y, y ≠ x → wq_count (cq_add x q) y = wq_count q y) ∧
    (wq_count (cq_add x q) x ≤ S (wq_count q x))%nat ∧
    (wq_count q x ≤ wq_count (cq_add x q) x)%nat ∧
    (wq_down q = false → (0 < wq_count (cq_add x q) x)%nat);
  cq_add_slow_spec q x : wq_ok q →
    wq_ok (cq_add_slow x q) ∧ wq_held (cq_add_slow x q) = wq_held q ∧
    wq_down (cq_add_slow x q) = wq_down q ∧
    (∀ y, y ≠ x → wq_count (cq_add_slow x q) y = wq_count q y) ∧
    (wq_count (cq_add_slow x q) x ≤ S (wq_count q x))%nat ∧
    (wq_count q x ≤ wq_count (cq_add_slow x q) x)%nat ∧
    (wq_down q = false → (0 < wq_count (cq_add_slow x q) x)%nat)
}.

Section TwoLane.
Context {T : Type} `{Countable T}.

(** The goroutine [process] of a lane: in [Get], between [Get] and [Done], sending on the
    channel, or past the loop with the channel closed. *)
Inductive producer := PIdle | PHold (item : T) | PSend (item : T) | PClosed.

(** The goroutine [runConsumer]: at the [select] that looks at the fast lane only, at the
    one that looks at both, or past the loop. *)
Inductive consumer := CPoll | CBoth | CStop.

(** [fast] holds the fast lane inside the delaying queue, whose [Add] and [ShuttingDown]
    are those of the lane (the slow lane is shut down after it, see [slow_after_fast]). *)
Record twoLaneQueue := {
  delayed : delayingType T;
  slowLane : Typed T;
  consumerQueue : Typed T;
  fastProc : producer;
  slowProc : producer;
  fast_open : bool;
  slow_open : bool;
  consumer_pc : consumer
}.
Abbreviation fastLane q := (inner (delayed q)).
Implicit Types (q : twoLaneQueue) (x y : T).

Definition newTwoLaneWorkQueue (rl : limiter) : twoLaneQueue := {|
  delayed := NewRateLimitingQueue rl; slowLane := newQueue; consumerQueue := newQueue;
  fastProc := PIdle; slowProc := PIdle; fast_open := true; slow_open := true; consumer_pc := CPoll
|}.

Definition with_delayed d q : twoLaneQueue := {|
  delayed := d; slowLane := slowLane q; consumerQueue := consumerQueue q; fastProc := fastProc q;
  slowProc := slowProc q; fast_open := fast_open q; slow_open := slow_open q; consumer_pc := consumer_pc q |}.
Definition with_slow t q : twoLaneQueue := {|
  delayed := delayed q; slowLane := t; consumerQueue := consumerQueue q; fastProc := fastProc q;
  slowProc := slowProc q; fast_open := fast_open q; slow_open := slow_open q; consumer_pc := consumer_pc q |}.
Definition with_consumer t q : twoLaneQueue := {|
  delayed := delayed q; slowLane := slowLane q; consumerQueue := t; fastProc := fastProc q;
  slowProc := slowProc q; fast_open := fast_open q; slow_open := slow_open q; consumer_pc := consumer_pc q |}.
Definition with_procs f s q : twoLaneQueue := {|
  delayed := delayed q; slowLane := slowLane q; consumerQueue := consumerQueue q; fastProc := f;
  slowProc := s; fast_open := fast_open q; slow_open := slow_open q; consumer_pc := consumer_pc q |}.
Definition with_pc f s pc q : twoLaneQueue := {|
  delayed := delayed q; slowLane := slowLane q; consumerQueue := consumerQueue q; fastProc := fastProc q;
  slowProc := slowProc q; fast_open := f; slow_open := s; consumer_pc := pc |}.

(** One step of [process] on its lane; the step that ends a send is the consumer's. *)
Definition process (lane : Typed T) (p : producer) : option (Typed T * producer) :=
  match p with
  | PIdle =>
      match Get lane with
      | Some (Some item, lane') => Some (lane', PHold item)
      | Some (None, lane') => Some (lane', PClosed)
      | None => None
      end
  | PHold item => Some (Done item lane, PSend item)
  | PSend _ | PClosed => None
  end.

(** The consumer receives from a channel: an item, or that it is closed. *)
Definition receive_fast q : option twoLaneQueue :=
  match fastProc q with
  | PSend item =>
      Some (with_consumer (Add item (consumerQueue q))
              (with_procs PIdle (slowProc q) (with_pc (fast_open q) (slow_open q) CPoll q)))
  | PClosed => Some (with_pc false (slow_open q) CPoll q)
  | _ => None
  end.
Definition receive_slow q : option twoLaneQueue :=
  match slowProc q with
  | PSend item =>
      Some (with_consumer (Add item (consumerQueue q))
              (with_procs (fastProc q) PIdle (with_pc (fast_open q) (slow_open q) CPoll q)))
  | PClosed => Some (with_pc (fast_open q) false CPoll q)
  | _ => None
  end.

(** A step of [runConsumer]; [slow] says which case of the second [select] is taken. *)
Definition runConsumer (slow : bool) q : option twoLaneQueue :=
  match consumer_pc q with
  | CPoll =>
      if fast_open q || slow_open q then
        match (if fast_open q then receive_fast q else None) with
        | Some q' => Some q'
        | None => Some (with_pc (fast_open q) (slow_open q) CBoth q)
        end
      else Some (with_consumer (ShutDown (consumerQueue q)) (with_pc false false CStop q))
  | CBoth => if slow then receive_slow q else receive_fast q
  | CStop => None
  end.

Inductive lane_event :=
  | EDelay (e : loop_event T)
  | EFast
  | ESlow
  | EConsume (slow : bool)
  | EShutSlow.

Definition twoLane_tick (e : lane_event) q : option twoLaneQueue :=
  match e with
  | EDelay e => d ← waitingLoop e (delayed q); Some (with_delayed d q)
  | EFast =>
      '(lane, p) ← process (fastLane q) (fastProc q);
      Some (with_procs p (slowProc q) (with_delayed (with_inner lane (delayed q)) q))
  | ESlow =>
      '(lane, p) ← process (slowLane q) (slowProc q);
      Some (with_procs (fastProc q) p (with_slow lane q))
  | EConsume slow => runConsumer slow q
  | EShutSlow =>
      if shuttingDown (fastLane q) then Some (with_slow (ShutDown (slowLane q)) q) else None
  end.

(** [twoLaneQueue.ShutDown] shuts the fast lane down, then the slow one ([EShutSlow]). *)
Definition twoLane_shut_down q : twoLaneQueue := with_delayed (delaying_shut_down (delayed q)) q.

Definition twoLane_add x q : twoLaneQueue := with_delayed (with_inner (Add x (fastLane q)) (delayed q)) q.
Definition AddSlow x q : twoLaneQueue := with_slow (Add x (slowLane q)) q.
Definition twoLane_add_after x d q : option twoLaneQueue :=
  d' ← AddAfter x d (delayed q); Some (with_delayed d' q).
Definition twoLane_add_rate_limited b x q : option twoLaneQueue :=
  d ← AddRateLimited b x (delayed q); Some (with_delayed d q).
Definition twoLane_forget x q : twoLaneQueue := with_delayed (Forget x (delayed q)) q.
Definition twoLane_get q : option (option T * twoLaneQueue) :=
  '(item, t) ← Get (consumerQueue q); Some (item, with_consumer t q).
Definition twoLane_done x q : twoLaneQueue := with_consumer (Done x (consumerQueue q)) q.

(** ** Invariant *)

Definition held_by (p : producer) : gset T := match p with PHold x => {[x]} | _ => ∅ end.
Definition carries (p : producer) (x : T) : nat :=
  match p with PHold y | PSend y => one (x = y) | _ => 0 end.

Record twoLane_ok q : Prop := {
  fast_ok : typed_ok (fastLane q);
  slow_ok : typed_ok (slowLane q);
  consumer_ok : typed_ok (consumerQueue q);
  fast_held : processing (fastLane q) = held_by (fastProc q);
  slow_held : processing (slowLane q) = held_by (slowProc q);
  slow_after_fast : shuttingDown (slowLane q) = true → shuttingDown (fastLane q) = true;
  fast_closed : fastProc q = PClosed → shuttingDown (fastLane q) = true;
  slow_closed : slowProc q = PClosed → shuttingDown (slowLane q) = true;
  fast_flag : fast_open q = false → fastProc q = PClosed;
  slow_flag : slow_open q = false → slowProc q = PClosed;
  consumer_stop : consumer_pc q = CStop → fast_open q = false ∧ slow_open q = false;
  consumer_down : shuttingDown (consumerQueue q) = true → consumer_pc q = CStop
}.

(** Requests in the lanes, on the way, and in the consumer queue. *)
Definition lane_requests q x : nat :=
  (requests (delayed q) x + one (x ∈ dirty (slowLane q)) + carries (fastProc q) x + carries (slowProc q) x)%nat.
Definition twoLane_count q x : nat := (lane_requests q x + one (x ∈ dirty (consumerQueue q)))%nat.
End TwoLane.
Arguments twoLaneQueue : clear implicits.
Arguments twoLaneQueue T {_ _}.
Arguments producer : clear implicits.
Arguments lane_event : clear implicits.

(** ** The queue keeps its promise *)

Section Laws.
Context {T : Type} `{Countable T}.
Implicit Types (q : twoLaneQueue T) (x y : T).

Lemma newTwoLaneWorkQueue_ok rl : twoLane_ok (newTwoLaneWorkQueue (T:=T) rl).
Proof. split; simpl; try done; apply newQueue_ok. Qed.

(** Changes of the delaying queue alone. *)
Lemma with_delayed_ok q d : twoLane_ok q → typed_ok (inner d) →
  processing (inner d) = processing (inner (delayed q)) →
  (shuttingDown (inner (delayed q)) = true → shuttingDown (inner d) = true) →
  twoLane_ok (with_delayed d q).
Proof. intros [] ? Hp Hd. split; simpl; try done; [congruence|auto..]. Qed.

Lemma with_delayed_count q d y :
  (twoLane_count (with_delayed d q) y + requests (delayed q) y = twoLane_count q y + requests d y)%nat.
Proof. unfold twoLane_count, lane_requests. simpl. lia. Qed.

(** Adding to a lane: the request is there, and only it is new. *)
Lemma one_Add (t : Typed T) x y :
  one (y ∈ dirty (Add x t)) = (if decide (y = x) then if shuttingDown t then one (x ∈ dirty t) else 1%nat
                               else one (y ∈ dirty t)).
Proof.
  destruct (Add_fields x t) as (_ & _ & ->). case_decide as E; [subst y|]; destruct (shuttingDown t); try done.
  - apply one_true. set_solver.
  - apply one_iff. set_solver.
Qed.

(** A step of a lane's goroutine moves a request, and keeps what is held in step. *)
Lemma process_spec (t t' : Typed T) p p' : typed_ok t → processing t = held_by p →
  process t p = Some (t', p') →
  typed_ok t' ∧ processing t' = held_by p' ∧ shuttingDown t' = shuttingDown t ∧
  (p' = PClosed → shuttingDown t = true) ∧ p ≠ PClosed ∧
  (∀ y, one (y ∈ dirty t') + carries p' y = one (y ∈ dirty t) + carries p y)%nat.
Proof.
  intros Hok Hp. destruct p as [|x|x|]; simpl; try done.
  - destruct (Get t) as [[[x|] t1]|] eqn:Hg; [| |done]; intros [= <- <-].
    + destruct (Get_ok _ _ _ Hok Hg) as (Hok' & Hdx & Hpx). unfold Get in Hg.
      destruct (queue t) as [|z l]; [by destruct (shuttingDown t)|]. injection Hg as -> <-. simpl in *.
      split_and!; try done; [set_solver|]. intros y. unfold one. repeat case_decide; set_solver || lia.
    + unfold Get in Hg. destruct (queue t) as [|z l]; [|done].
      destruct (shuttingDown t) eqn:E; [|done]. injection Hg as <-. by split_and!.
  - intros [= <- <-]. simpl in *. split_and!; try done; [|set_solver].
    apply Done_ok; [done|set_solver].
Qed.

(** What a step of the queue's goroutines preserves. *)
Definition quiet q q' : Prop :=
  twoLane_ok q' ∧ processing (consumerQueue q') = processing (consumerQueue q) ∧
  shuttingDown (inner (delayed q')) = shuttingDown (inner (delayed q)) ∧
  (∀ y, (twoLane_count q' y ≤ twoLane_count q y)%nat ∧
        ((0 < twoLane_count q y)%nat → (0 < twoLane_count q' y)%nat)).

Lemma EDelay_spec e q d : twoLane_ok q → waitingLoop e (delayed q) = Some d → quiet q (with_delayed d q).
Proof.
  intros Hok He. destruct (waitingLoop_spec e (delayed q) d (fast_ok _ Hok) He) as (Hd & Hp & Hs & Hr).
  split_and!; [apply with_delayed_ok; [done..|by rewrite Hs]|done|done|].
  intros y. pose proof (with_delayed_count q d y). specialize (Hr y) as [Hle Hpos].
  split; [lia|]. intros. destruct (requests (delayed q) y) as [|n]; [lia|].
  specialize (Hpos ltac:(lia)). unfold twoLane_count, lane_requests. simpl. lia.
Qed.

Lemma EFast_spec q q' : twoLane_ok q → twoLane_tick EFast q = Some q' → quiet q q'.
Proof.
  intros Hok. simpl. destruct (process _ _) as [[t p]|] eqn:E; [|done]. intros [= <-].
  destruct (process_spec _ _ _ _ (fast_ok _ Hok) (fast_held _ Hok) E) as (Ht & Hp & Hs & Hc & Hnc & Hr).
  destruct Hok. split_and!; [split; simpl in *; try done|done|done|].
  - by rewrite Hs.
  - intros ->. rewrite Hs. auto.
  - intros ?. by destruct Hnc; auto.
  - intros y. specialize (Hr y). unfold twoLane_count, lane_requests, requests. simpl. lia.
Qed.

Lemma ESlow_spec q q' : twoLane_ok q → twoLane_tick ESlow q = Some q' → quiet q q'.
Proof.
  intros Hok. simpl. destruct (process _ _) as [[t p]|] eqn:E; [|done]. intros [= <-].
  destruct (process_spec _ _ _ _ (slow_ok _ Hok) (slow_held _ Hok) E) as (Ht & Hp & Hs & Hc & Hnc & Hr).
  destruct Hok. split_and!; [split; simpl in *; try done|done|done|].
  - by rewrite Hs.
  - intros ->. rewrite Hs. auto.
  - intros ?. by destruct Hnc; auto.
  - intros y. specialize (Hr y). unfold twoLane_count, lane_requests. simpl. lia.
Qed.

(** The consumer is up while it receives, so that the item it receives is not dropped. *)
Lemma consumer_up q : twoLane_ok q → consumer_pc q ≠ CStop → shuttingDown (consumerQueue q) = false.
Proof. intros Hok Hn. destruct (shuttingDown _) eqn:E; [|done]. by apply (consumer_down _ Hok) in E. Qed.

Lemma receive_fast_spec q q' : twoLane_ok q → consumer_pc q ≠ CStop → receive_fast q = Some q' → quiet q q'.
Proof.
  intros Hok Hn. pose proof (consumer_up q Hok Hn) as Hup. unfold receive_fast.
  destruct (fastProc q) as [|x|x|] eqn:E; try done; intros [= <-].
  - destruct (Add_fields x (consumerQueue q)) as (Hp & Hs & _).
    pose proof (Add_ok x _ (consumer_ok _ Hok)). destruct Hok as []. rewrite E in *.
    split_and!; [split; simpl in *; try done|by simpl|done|].
    + intros Hf. by apply fast_flag0 in Hf.
    + rewrite Hs. congruence.
    + intros y. unfold twoLane_count, lane_requests. simpl. rewrite E. simpl. rewrite one_Add, Hup.
      unfold one. repeat case_decide; subst; try done; lia.
  - destruct Hok. split_and!; [split; simpl in *; try done; congruence|done|done|done].
Qed.

Lemma receive_slow_spec q q' : twoLane_ok q → consumer_pc q ≠ CStop → receive_slow q = Some q' → quiet q q'.
Proof.
  intros Hok Hn. pose proof (consumer_up q Hok Hn) as Hup. unfold receive_slow.
  destruct (slowProc q) as [|x|x|] eqn:E; try done; intros [= <-].
  - destruct (Add_fields x (consumerQueue q)) as (Hp & Hs & _).
    pose proof (Add_ok x _ (consumer_ok _ Hok)). destruct Hok as []. rewrite E in *.
    split_and!; [split; simpl in *; try done|by simpl|done|].
    + intros Hf. by apply slow_flag0 in Hf.
    + rewrite Hs. congruence.
    + intros y. unfold twoLane_count, lane_requests. simpl. rewrite E. simpl. rewrite one_Add, Hup.
      unfold one. repeat case_decide; subst; try done; lia.
  - destruct Hok. split_and!; [split; simpl in *; try done; congruence|done|done|done].
Qed.

Lemma EConsume_spec b q q' : twoLane_ok q → runConsumer b q = Some q' → quiet q q'.
Proof.
  intros Hok. unfold runConsumer. destruct (consumer_pc q) eqn:E; [| |done].
  all: assert (shuttingDown (consumerQueue q) = false) as Hup by (apply consumer_up; [done|by rewrite E]).
  - destruct (fast_open q) eqn:Ef; simpl.
    + destruct (receive_fast q) eqn:Er.
      { intros [= <-]. eapply receive_fast_spec; [done|by rewrite E|done]. }
      intros [= <-]. split_and!; [|done..]. destruct Hok. split; simpl in *; try done; congruence.
    + destruct (slow_open q) eqn:Es; intros [= <-]; (split_and!; [|done..]).
      * destruct Hok. split; simpl in *; try done; try congruence; auto.
      * destruct Hok. split; simpl in *; try done; try congruence; auto. by destruct consumer_ok0.
  - destruct b; intros ?; [eapply receive_slow_spec|eapply receive_fast_spec]; try done; by rewrite E.
Qed.

Lemma twoLane_tick_spec e q q' : twoLane_ok q → twoLane_tick e q = Some q' → quiet q q'.
Proof.
  intros Hok. destruct e as [e| | |b|].
  - simpl. destruct (waitingLoop e _) as [d|] eqn:E; [|done]. intros [= <-]. by eapply EDelay_spec.
  - by apply EFast_spec.
  - by apply ESlow_spec.
  - by apply EConsume_spec.
  - simpl. destruct (shuttingDown _) eqn:E; [|done]. intros [= <-].
    destruct Hok. split_and!; [|done..]. split; simpl; try done. by destruct slow_ok0.
Qed.

(** ** Progress *)

Definition lane_ticks : relation (twoLaneQueue T) := rtc (λ q q', ∃ e, twoLane_tick e q = Some q').

Lemma quiet_refl q : twoLane_ok q → quiet q q.
Proof. intros. split_and!; [done..|]. by intros. Qed.

Lemma lane_ticks_spec q q' : twoLane_ok q → lane_ticks q q' → quiet q q'.
Proof.
  intros Hok Ht. induction Ht as [q|q q1 q2 [e He] Ht IH]; [by apply quiet_refl|].
  apply twoLane_tick_spec in He as (Hok1 & Hp & Hd & Hr); [|done].
  destruct (IH Hok1) as (? & Hp2 & Hd2 & Hr2). split_and!; [done|congruence|congruence|].
  intros y. specialize (Hr y). specialize (Hr2 y). split; [lia|]. intros ?. apply Hr2, Hr. done.
Qed.

Lemma delay_ticks q d : ticks (delayed q) d → lane_ticks q (with_delayed d q).
Proof.
  intros Ht. remember (delayed q) as d0 eqn:E. revert q E.
  induction Ht as [d|d d1 d2 [e He] Ht IH]; intros q ->.
  - destruct q; constructor.
  - eapply rtc_l.
    + exists (EDelay e). simpl. rewrite He. reflexivity.
    + exact (IH (with_delayed d1 q) eq_refl).
Qed.

(** What is on its way to the consumer, weighted by the steps it still has to make. *)
Definition distance (p : producer T) : nat := match p with PHold _ => 3 | PSend _ => 2 | _ => 0 end.
Definition on_the_way q : nat :=
  6 * length (waitingForAddCh (delayed q)) + 5 * size (waitingEntryByData (delayed q)) +
  4 * (size (dirty (inner (delayed q))) + size (dirty (slowLane q))) +
  distance (fastProc q) + distance (slowProc q) + (if consumer_pc q is CPoll then 1 else 0).

Lemma Add_size x (t : Typed T) : (size (dirty (Add x t)) ≤ S (size (dirty t)))%nat.
Proof.
  destruct (Add_fields x t) as (_ & _ & ->). destruct (shuttingDown t); [lia|].
  rewrite size_union_alt, size_singleton.
  pose proof (subseteq_size (dirty t ∖ {[x]}) (dirty t) ltac:(set_solver)). lia.
Qed.

Lemma insert_entry_size x z (m : gmap T Z) : (size (insert_entry x z m) ≤ S (size m))%nat.
Proof.
  unfold insert_entry. destruct (m !! x) eqn:E; [destruct (_ >? _)|].
  - rewrite map_size_insert_Some by eauto. lia.
  - lia.
  - rewrite map_size_insert_None by done. lia.
Qed.

Lemma process_closer (t : Typed T) p : typed_ok t → shuttingDown t = false → processing t = held_by p →
  match p with
  | PIdle => dirty t = ∅ ∨ ∃ t' p', process t p = Some (t', p') ∧ S (size (dirty t')) = size (dirty t) ∧
               distance p' = 3%nat
  | PHold x => process t p = Some (Done x t, PSend x) ∧ dirty (Done x t) = dirty t
  | _ => True
  end.
Proof.
  intros Hok Hd Hp. destruct p as [|x|x|]; try done.
  destruct (queue t) as [|x l] eqn:Eq.
  - left. apply set_eq. intros y. pose proof (queue_spec _ Hok y) as Hy. rewrite Eq, Hp in Hy. set_solver.
  - right. assert (x ∈ dirty t) as Hx by (apply (queue_spec _ Hok); rewrite Eq; set_solver).
    eexists _, _. unfold process, Get. rewrite Eq. split; [done|]. simpl. split; [|done].
    rewrite size_difference, size_singleton by set_solver.
    assert (size (dirty t) ≠ 0%nat); [|lia]. intros ?%size_empty_inv. set_solver.
Qed.

(** The delaying queue hands an entry on. *)
Lemma delayed_closer q : shuttingDown (inner (delayed q)) = false →
  (waitingForAddCh (delayed q) = [] ∧ waitingEntryByData (delayed q) = ∅) ∨
  ∃ q', lane_ticks q q' ∧ (on_the_way q' < on_the_way q)%nat.
Proof.
  intros Hup. destruct (waitingForAddCh (delayed q)) as [|[x z] ch] eqn:Ec.
  - destruct (decide (waitingEntryByData (delayed q) = ∅)) as [|Hne]; [by left|]. right.
    destruct (map_minimal _ Hne) as (y & z & Hy & Hmin).
    pose (d1 := {| inner := inner (delayed q); waitingForAddCh := waitingForAddCh (delayed q);
      waitingEntryByData := waitingEntryByData (delayed q);
      now := now (delayed q) + Z.max 0 (z - now (delayed q));
      failures := failures (delayed q); rateLimiter := rateLimiter (delayed q) |}).
    exists (with_delayed (with_waiting (waitingForAddCh d1) (delete y (waitingEntryByData d1))
             (with_inner (Add y (inner d1)) d1)) q). split.
    + apply delay_ticks. eapply rtc_l; [exists (ETime (Z.max 0 (z - now (delayed q))))|apply rtc_once; exists (EFire y)].
      * simpl. destruct (Z.ltb_spec (Z.max 0 (z - now (delayed q))) 0); [lia|done].
      * simpl. rewrite Hup, Hy, bool_decide_true; [done|]. split; [simpl; lia|done].
    + pose proof (Add_size y (inner (delayed q))). unfold on_the_way. simpl.
      rewrite map_size_delete_Some by eauto.
      assert (size (waitingEntryByData (delayed q)) ≠ 0%nat); [|lia]. by intros ?%map_size_empty_inv.
  - right. eexists. split; [apply rtc_once; exists (EDelay EReceive); simpl; rewrite Hup, Ec; reflexivity|].
    unfold on_the_way. rewrite Ec. pose proof (Add_size x (inner (delayed q))).
    pose proof (insert_entry_size x z (waitingEntryByData (delayed q))).
    destruct (z >? now (delayed q)); simpl; lia.
Qed.

(** A lane's goroutine takes the next item, or the consumer receives the one it offers. *)
Lemma fast_closer q : twoLane_ok q → shuttingDown (inner (delayed q)) = false →
  (dirty (inner (delayed q)) = ∅ ∧ fastProc q = PIdle) ∨
  ∃ q', lane_ticks q q' ∧ (on_the_way q' < on_the_way q)%nat.
Proof.
  intros Hok Hup. pose proof (process_closer _ _ (fast_ok _ Hok) Hup (fast_held _ Hok)) as Hc.
  destruct (fastProc q) as [|x|x|] eqn:Ep.
  - destruct Hc as [?|(t & p & Hp & Hs & Hd)]; [by left|]. right. eexists.
    split; [apply rtc_once; exists EFast; simpl; rewrite Ep, Hp; reflexivity|].
    unfold on_the_way. simpl. rewrite Ep. simpl. lia.
  - destruct Hc as [Hp Hs]. right. eexists.
    split; [apply rtc_once; exists EFast; simpl; rewrite Ep, Hp; reflexivity|].
    unfold on_the_way. simpl in *. rewrite Ep. simpl. lia.
  - right.
    assert (fast_open q = true) as Hf.
    { destruct (fast_open q) eqn:E; [done|]. apply (fast_flag _ Hok) in E. congruence. }
    assert (consumer_pc q ≠ CStop) as Hn.
    { intros E. apply (consumer_stop _ Hok) in E as [E _]. congruence. }
    eexists. split.
    { apply rtc_once. exists (EConsume false). simpl. unfold runConsumer, receive_fast. rewrite Hf, Ep.
      simpl. destruct (consumer_pc q); [reflexivity|reflexivity|done]. }
    unfold on_the_way. simpl. rewrite Ep. simpl. destruct (consumer_pc q); lia.
  - apply (fast_closed _ Hok) in Ep. congruence.
Qed.

Lemma slow_closer q : twoLane_ok q → shuttingDown (inner (delayed q)) = false → fastProc q = PIdle →
  (dirty (slowLane q) = ∅ ∧ slowProc q = PIdle) ∨
  ∃ q', lane_ticks q q' ∧ (on_the_way q' < on_the_way q)%nat.
Proof.
  intros Hok Hup Ef.
  assert (shuttingDown (slowLane q) = false) as Hslow.
  { destruct (shuttingDown (slowLane q)) eqn:E; [|done]. apply (slow_after_fast _ Hok) in E. congruence. }
  pose proof (process_closer _ _ (slow_ok _ Hok) Hslow (slow_held _ Hok)) as Hc.
  destruct (slowProc q) as [|x|x|] eqn:Ep.
  - destruct Hc as [?|(t & p & Hp & Hs & Hd)]; [by left|]. right. eexists.
    split; [apply rtc_once; exists ESlow; simpl; rewrite Ep, Hp; reflexivity|].
    unfold on_the_way. simpl. rewrite Ep. simpl. lia.
  - destruct Hc as [Hp Hs]. right. eexists.
    split; [apply rtc_once; exists ESlow; simpl; rewrite Ep, Hp; reflexivity|].
    unfold on_the_way. simpl in *. rewrite Ep. simpl. lia.
  - right. destruct (consumer_pc q) eqn:Ec.
    + eexists. split.
      { apply rtc_once. exists (EConsume false). simpl. unfold runConsumer, receive_fast. rewrite Ec, Ef.
        destruct (fast_open q) eqn:Eo; [reflexivity|]. apply (fast_flag _ Hok) in Eo. congruence. }
      unfold on_the_way. simpl. rewrite Ec. lia.
    + eexists. split.
      { apply rtc_once. exists (EConsume true). simpl. unfold runConsumer, receive_slow. rewrite Ec, Ep. reflexivity. }
      unfold on_the_way. simpl. rewrite Ep, Ec. simpl. lia.
    + apply (consumer_stop _ Hok) in Ec as [_ E]. apply (slow_flag _ Hok) in E. congruence.
  - apply (slow_closed _ Hok) in Ep. congruence.
Qed.

Lemma closer q : twoLane_ok q → shuttingDown (inner (delayed q)) = false →
  (∀ x, lane_requests q x = 0%nat) ∨ ∃ q', lane_ticks q q' ∧ (on_the_way q' < on_the_way q)%nat.
Proof.
  intros Hok Hup.
  destruct (delayed_closer q Hup) as [[Ec Eh]|?]; [|by right].
  destruct (fast_closer q Hok Hup) as [[Edf Epf]|?]; [|by right].
  destruct (slow_closer q Hok Hup Epf) as [[Eds Eps]|?]; [|by right].
  left. intros x. unfold lane_requests, requests. rewrite Ec, Eh, Edf, Eds, Epf, Eps, lookup_empty.
  unfold one. rewrite !decide_False; [done|..]; apply is_Some_None || set_solver.
Qed.

Lemma twoLane_get_live q x : twoLane_ok q → shuttingDown (inner (delayed q)) = false →
  (0 < twoLane_count q x)%nat → x ∉ processing (consumerQueue q) →
  ∃ q1 y q2, lane_ticks q q1 ∧ twoLane_get q1 = Some (Some y, q2).
Proof.
  remember (on_the_way q) as n eqn:En. revert q En.
  induction n as [n IH] using lt_wf_ind. intros q -> Hok Hup Hr Hx.
  destruct (queue (consumerQueue q)) as [|y l] eqn:Eq.
  2: { exists q, y. eexists. split; [constructor|]. unfold twoLane_get, Get. by rewrite Eq. }
  destruct (closer q Hok Hup) as [Hz|(q1 & Ht & Hlt)].
  - exfalso. unfold twoLane_count, one in Hr. rewrite (Hz x) in Hr. case_decide; [|lia].
    assert (x ∈ queue (consumerQueue q)) as Hin by (by apply (queue_spec _ (consumer_ok _ Hok))).
    rewrite Eq in Hin. set_solver.
  - destruct (lane_ticks_spec q q1 Hok Ht) as (Hok1 & Hp & Hd & Hc).
    destruct (IH _ Hlt q1 eq_refl Hok1) as (q2 & y & q3 & Ht2 & Hg); [congruence|by apply Hc|by rewrite Hp|].
    exists q2, y, q3. split; [by etrans|done].
Qed.

Lemma twoLane_get_item q x q' : twoLane_ok q → twoLane_get q = Some (Some x, q') →
  twoLane_ok q' ∧ (x ∉ processing (consumerQueue q)) ∧
  processing (consumerQueue q') = {[x]} ∪ processing (consumerQueue q) ∧
  shuttingDown (inner (delayed q')) = shuttingDown (inner (delayed q)) ∧
  twoLane_count q x = S (twoLane_count q' x) ∧ (∀ y, y ≠ x → twoLane_count q' y = twoLane_count q y).
Proof.
  intros Hok. unfold twoLane_get. destruct (Get (consumerQueue q)) as [[[y|] t]|] eqn:Hg; [|done..].
  intros [= -> <-]. destruct (Get_ok _ _ _ (consumer_ok _ Hok) Hg) as (Hok' & Hdx & Hpx).
  unfold Get in Hg. destruct (queue (consumerQueue q)) as [|z l]; [by destruct (shuttingDown _)|].
  injection Hg as -> <-. split_and!; try done.
  - destruct Hok. by split.
  - unfold twoLane_count, lane_requests. simpl. rewrite (one_true (x ∈ dirty (consumerQueue q))) by done.
    assert (one (x ∈ dirty (consumerQueue q) ∖ {[x]}) = 0%nat) as ->; [|lia].
    unfold one. rewrite decide_False by set_solver. done.
  - intros y Hy. unfold twoLane_count, lane_requests. simpl. f_equal. apply one_iff. set_solver.
Qed.

Lemma twoLane_add_after_spec q x d q' : twoLane_ok q → twoLane_add_after x d q = Some q' →
  twoLane_ok q' ∧ processing (consumerQueue q') = processing (consumerQueue q) ∧
  shuttingDown (inner (delayed q')) = shuttingDown (inner (delayed q)) ∧
  (∀ y, y ≠ x → twoLane_count q' y = twoLane_count q y) ∧
  (twoLane_count q' x ≤ S (twoLane_count q x))%nat ∧
  (shuttingDown (inner (delayed q)) = false → (0 < twoLane_count q' x)%nat).
Proof.
  intros Hok. unfold twoLane_add_after. destruct (AddAfter x d _) as [d'|] eqn:E; [|done]. intros [= <-].
  apply AddAfter_spec in E as (Hd & Hp & Hs & Hne & Hle & Hpos); [|apply (fast_ok _ Hok)].
  split_and!; [apply with_delayed_ok; [done..|by rewrite Hs]|done|done|..].
  - intros y Hy. pose proof (with_delayed_count q d' y). rewrite Hne in * by done. lia.
  - pose proof (with_delayed_count q d' x). lia.
  - intros Hup. specialize (Hpos Hup). unfold twoLane_count, lane_requests. simpl. lia.
Qed.

#[export] Program Instance twoLane_WorkQueue : WorkQueue T (twoLaneQueue T) := {
  wq_event := lane_event T;
  wq_add_after := twoLane_add_after;
  wq_add_rate_limited := twoLane_add_rate_limited;
  wq_forget := twoLane_forget;
  wq_get := twoLane_get;
  wq_done := twoLane_done;
  wq_shut_down := twoLane_shut_down;
  wq_tick := twoLane_tick;
  wq_ok := twoLane_ok;
  wq_count := twoLane_count;
  wq_held q := processing (consumerQueue q);
  wq_down q := shuttingDown (inner (delayed q))
}.
Next Obligation. intros. by eapply twoLane_add_after_spec. Qed.
Next Obligation.
  intros q b x q' Hok. unfold twoLane_add_rate_limited.
  destruct (AddRateLimited b x (delayed q)) as [d|] eqn:E; [|done]. intros [= <-].
  set (f := <[x := S (default 0%nat (failures (delayed q) !! x))]> (failures (delayed q))).
  refine (twoLane_add_after_spec (with_delayed (with_failures f (delayed q)) q) x
    (MaxOf_When (rateLimiter (delayed q)) (default 0%nat (failures (delayed q) !! x)) b) _ _ _).
  - by apply with_delayed_ok; [|apply (fast_ok _ Hok)|..].
  - unfold twoLane_add_after, f. cbn [delayed with_delayed]. unfold AddRateLimited in E. rewrite E. done.
Qed.
Next Obligation. intros q x Hok. split_and!; [|done..]. by apply with_delayed_ok; [|apply (fast_ok _ Hok)|..]. Qed.
Next Obligation. intros. by eapply twoLane_get_item. Qed.
Next Obligation.
  intros q q' Hok. unfold twoLane_get. destruct (Get (consumerQueue q)) as [[[y|] t]|] eqn:Hg; [done| |done].
  intros [= <-]. unfold Get in Hg. destruct (queue (consumerQueue q)); [|done].
  destruct (shuttingDown (consumerQueue q)) eqn:E; [|done]. injection Hg as <-.
  split; [|by destruct q].
  apply (consumer_down _ Hok), (consumer_stop _ Hok) in E as [E _].
  by apply (fast_closed _ Hok), (fast_flag _ Hok).
Qed.
Next Obligation.
  intros q x Hok Hx. split_and!; [|done..].
  pose proof (Done_ok x _ (consumer_ok _ Hok) Hx). destruct Hok. by split.
Qed.
Next Obligation.
  intros q Hok. split_and!; [|done..]. apply with_delayed_ok; [done| |done|done].
  destruct (fast_ok _ Hok). by split.
Qed.
Next Obligation. intros. by eapply twoLane_tick_spec. Qed.
Next Obligation.
  intros q x d _. destruct (AddAfter_live (delayed q) x d) as (d1 & d2 & Ht & E).
  exists (with_delayed d1 q). eexists. split; [by apply delay_ticks|].
  unfold twoLane_add_after. simpl. rewrite E. reflexivity.
Qed.
Next Obligation.
  intros q b x Hok.
  destruct (wq_add_rate_limited_live (WorkQueue := delaying_WorkQueue (T := T)) (delayed q) b x)
    as (d1 & d2 & Ht & E); [exact (fast_ok _ Hok)|].
  exists (with_delayed d1 q). eexists. split; [by apply delay_ticks|].
  unfold twoLane_add_rate_limited. simpl. simpl in E. rewrite E. reflexivity.
Qed.
Next Obligation. intros. by eapply twoLane_get_live. Qed.

#[export] Program Instance twoLane_ControllerQueue : ControllerQueue T (twoLaneQueue T) := {
  cq_add := twoLane_add;
  cq_add_slow := AddSlow
}.
Next Obligation.
  intros q x Hok. destruct (Add_fields x (inner (delayed q))) as (Hp & Hs & _).
  pose proof (λ y, one_Add (inner (delayed q)) x y) as Ha.
  split_and!; [apply with_delayed_ok; [done|by apply Add_ok, fast_ok|done|simpl; congruence]|done|done|..].
  - intros y Hy. simpl. unfold twoLane_count, lane_requests, requests. simpl. rewrite Ha, decide_False; done.
  - simpl. unfold twoLane_count, lane_requests, requests. simpl. rewrite Ha, decide_True by done.
    destruct (shuttingDown (inner (delayed q))); lia.
  - simpl. unfold twoLane_count, lane_requests, requests. simpl. rewrite Ha, decide_True by done.
    pose proof (one_le (x ∈ dirty (inner (delayed q)))). destruct (shuttingDown (inner (delayed q))); lia.
  - simpl. intros Hup. unfold twoLane_count, lane_requests, requests. simpl.
    rewrite Ha, decide_True, Hup by done. lia.
Qed.
Next Obligation.
  intros q x Hok. destruct (Add_fields x (slowLane q)) as (Hp & Hs & _).
  pose proof (λ y, one_Add (slowLane q) x y) as Ha. pose proof (Add_ok x _ (slow_ok _ Hok)) as Hok'.
  split_and!; [destruct Hok; split; simpl; rewrite ?Hs, ?Hp; done|done|done|..].
  - intros y Hy. simpl. unfold twoLane_count, lane_requests. simpl. rewrite Ha, decide_False; done.
  - simpl. unfold twoLane_count, lane_requests. simpl. rewrite Ha, decide_True by done.
    destruct (shuttingDown (slowLane q)); lia.
  - simpl. unfold twoLane_count, lane_requests. simpl. rewrite Ha, decide_True by done.
    pose proof (one_le (x ∈ dirty (slowLane q))). destruct (shuttingDown (slowLane q)); lia.
  - simpl. intros Hup. unfold twoLane_count, lane_requests. simpl. rewrite Ha, decide_True by done.
    destruct (shuttingDown (slowLane q)) eqn:E; [|lia]. apply (slow_after_fast _ Hok) in E. congruence.
Qed.
End Laws.
