(* ===== verification/Prober.v ===== *)
(** * The status prober (vendor/knative.dev/networking/pkg/status/status.go)

    The prober decides whether a KIngress is ready: it asks every Envoy pod, through every
    URL, for the version it serves, and calls back when the last one agrees.  It is
    concurrent: calls of [IsReady], fifteen workers over a work queue, two goroutines per
    pod that watch contexts, and handlers that cancel probing share counters.

    The model is a transition system.  Structs the code shares by pointer live on heaps
    (lists, a pointer is an index); what the code does under the lock, and every atomic
    operation, is one step; each goroutine's program counter is part of the state, a
    worker's with the work item it holds.  Any interleaving is a run. *)

From S2P Require Import Prelude Meta Ingress NetIngress HTTPProxy ProbeTargets Events Workqueue.
Local Open Scope Z_scope.

(** ** One probe *)

(** What [probeVerifier] looks at: the status, and [Header.Get(HashKey)], which is empty
    when the header is missing. *)
Record Response := { StatusCode : Z; HashHeader : string }.
#[export] Instance Response_eq_dec : EqDecision Response.
Proof. solve_decision. Defined.

Definition StatusOK : Z := 200.
Definition StatusNotFound : Z := 404.
Definition StatusServiceUnavailable : Z := 503.

Definition probeVerifier (hash : string) (r : Response) : bool * option goerr :=
  if StatusCode r =? StatusOK then
    if String.eqb (HashHeader r) "" then (true, None)
    else if String.eqb (HashHeader r) hash then (true, None)
    else (false, Some (Errorf "unexpected hash: want %q, got %q" [hash; HashHeader r]))
  else if (StatusCode r =? StatusNotFound) || (StatusCode r =? StatusServiceUnavailable) then
    (false, Some (Errorf "unexpected status code: want %v, got %v"
                    [FormatInt StatusOK; FormatInt (StatusCode r)]))
  else (true, None).

(** [prober.Do] with the verifier as its only one: an error while sending the request or
    reading the answer ends it. *)
Definition Do (hash : string) (reply : goerr + Response) : bool * option goerr :=
  match reply with
  | inl e => (false, Some (Wrapf "error roundtripping %s: %w" [] e))
  | inr r =>
      match probeVerifier hash r with
      | (ok, Some e) => (false, Some e)
      | (ok, None) => if ok then (true, None) else (false, None)
      end
  end.

(** The probe is neither retried nor dropped: [err == nil && ok]. *)
Definition accepted (hash : string) (reply : goerr + Response) : bool :=
  match Do hash reply with (true, None) => true | _ => false end.

Definition HealthCheckPath : string := "/healthz".
Definition UserAgentKey : string := "User-Agent".
Definition IngressReadinessUserAgent : string := "Knative-Ingress-Probe".
Definition ProbeKey : string := "K-Network-Probe".
Definition ProbeValue : string := "probe".

(** [net.JoinHostPort]. *)
Definition JoinHostPort (host port : string) : string :=
  if Contains host ":" then "[" +:+ host +:+ "]:" +:+ port else host +:+ ":" +:+ port.

(** The request [processWorkItem] sends: to the pod, whatever the host of the URL.  The
    URLs of the targets have no path, and [path.Join("", HealthCheckPath)] is the latter. *)
Record ProbeRequest := {
  pr_dial : string;
  pr_scheme : string;
  pr_host : string;
  pr_path : string;
  pr_headers : gmap string string
}.

Definition probe_request (url : string * string) (podIP podPort : string) : ProbeRequest := {|
  pr_dial := JoinHostPort podIP podPort;
  pr_scheme := url.1;
  pr_host := url.2;
  pr_path := HealthCheckPath;
  pr_headers := <[HashKey := HashValueOverride]> (<[ProbeKey := ProbeValue]>
                  {[UserAgentKey := IngressReadinessUserAgent]})
|}.

(** ** State *)

Definition initialDelay : Z := 200 * 1000000.
Definition probeConcurrency : nat := 15.

(** [st_cancelled] says that [ingCtx] is cancelled; [st_targets] records what the target
    lister answered (the code keeps only the work items made from it).  [lastAccessed] is
    written and never read. *)
Record ingressState := {
  st_hash : string;
  st_ing : Ingress;
  st_pendingCount : Z;
  st_cancelled : bool;
  st_targets : list ProbeTarget
}.

(** The goroutine that runs [onProbingCancellation]: it waits for [podCtx], loads the
    counter, swaps it for zero, counts the pod off, and calls back. *)
Inductive canceller :=
  | CWait
  | CLoad
  | CCas (pendingCount : Z)
  | CAdd
  | CCallback
  | CReturn (swapped : bool).

(** [ps_done]: [podCtx] is done.  [ps_ctx] is the context of the pod's IP, [ps_joiner] says
    that the goroutine joining the two contexts still runs. *)
Record podState := {
  ps_pendingCount : Z;
  ps_done : bool;
  ps_ingress : nat;
  ps_ip : string;
  ps_ctx : nat;
  ps_joiner : bool;
  ps_canceller : canceller
}.

(** A work item goes from the queue to a worker and through [processWorkItem]; the reply
    it got goes with it.  [IRequeued] and [IFinished] are on the way to the deferred
    [workQueue.Done]; a finished item without a reply was dropped. *)
Inductive item_pc :=
  | INew
  | IQueued
  | IProbing
  | IProbed (reply : goerr + Response)
  | IRetry
  | IPodAdd (reply : goerr + Response)
  | IPodCancel (reply : goerr + Response)
  | IIngressAdd (reply : goerr + Response)
  | ICallback (reply : goerr + Response)
  | IRequeued
  | IFinished (reply : option (goerr + Response))
  | IDone (reply : option (goerr + Response)).

Record workItem := {
  wi_ingress : nat;
  wi_pod : nat;
  wi_url : string * string;
  wi_podIP : string;
  wi_podPort : string;
  wi_pc : item_pc
}.

Record ipContext := { cx_ip : string; cx_cancelled : bool }.

(** The URLs, with the port of the pod, that [IsReady] groups by IP. *)
Abbreviation probes := (gmap string (list ((string * string) * string))).

(** A call of [IsReady]: before its first critical section, before it lists the targets,
    in the loop over the IPs with those left, between the lookup of the IP's context and
    the creation of the pod's state, queueing items, returned. *)
Inductive call :=
  | RStart (ing : Ingress)
  | RList (ing : Ingress)
  | RLoop (i : nat) (rest : probes)
  | RPod (i : nat) (ip : string) (urls : list ((string * string) * string)) (ctx : nat) (rest : probes)
  | RQueue (i : nat) (todo : list nat) (rest : probes)
  | RReturn (result : goerr + bool).

Section Prober.
Context {Q : Type} `{!WorkQueue nat Q}.

(** [callbacks] lists the states whose KIngress [readyCallback] was called on, and
    [deletedPods] the IPs of the pods whose deletion was handled. *)
Record Prober := {
  ingresses : list ingressState;
  pods : list podState;
  items : list workItem;
  contexts : list ipContext;
  ingressStates : gmap NamespacedName nat;
  podContexts : gmap string nat;
  workQueue : Q;
  calls : list call;
  idle : nat;
  exited : nat;
  callbacks : list nat;
  deletedPods : gset string
}.

(** [NewProber] and [Start]: the workers wait for work. *)
Definition NewProber (q : Q) : Prober := {|
  ingresses := []; pods := []; items := []; contexts := [];
  ingressStates := ∅; podContexts := ∅; workQueue := q; calls := [];
  idle := probeConcurrency; exited := 0; callbacks := []; deletedPods := ∅
|}.

Implicit Types σ : Prober.

Definition with_ingresses l σ : Prober := {|
  ingresses := l; pods := pods σ; items := items σ; contexts := contexts σ;
  ingressStates := ingressStates σ; podContexts := podContexts σ; workQueue := workQueue σ;
  calls := calls σ; idle := idle σ; exited := exited σ; callbacks := callbacks σ;
  deletedPods := deletedPods σ |}.
Definition with_pods l σ : Prober := {|
  ingresses := ingresses σ; pods := l; items := items σ; contexts := contexts σ;
  ingressStates := ingressStates σ; podContexts := podContexts σ; workQueue := workQueue σ;
  calls := calls σ; idle := idle σ; exited := exited σ; callbacks := callbacks σ;
  deletedPods := deletedPods σ |}.
Definition with_items l σ : Prober := {|
  ingresses := ingresses σ; pods := pods σ; items := l; contexts := contexts σ;
  ingressStates := ingressStates σ; podContexts := podContexts σ; workQueue := workQueue σ;
  calls := calls σ; idle := idle σ; exited := exited σ; callbacks := callbacks σ;
  deletedPods := deletedPods σ |}.
Definition with_contexts l m σ : Prober := {|
  ingresses := ingresses σ; pods := pods σ; items := items σ; contexts := l;
  ingressStates := ingressStates σ; podContexts := m; workQueue := workQueue σ;
  calls := calls σ; idle := idle σ; exited := exited σ; callbacks := callbacks σ;
  deletedPods := deletedPods σ |}.
Definition with_states m σ : Prober := {|
  ingresses := ingresses σ; pods := pods σ; items := items σ; contexts := contexts σ;
  ingressStates := m; podContexts := podContexts σ; workQueue := workQueue σ;
  calls := calls σ; idle := idle σ; exited := exited σ; callbacks := callbacks σ;
  deletedPods := deletedPods σ |}.
Definition with_queue q σ : Prober := {|
  ingresses := ingresses σ; pods := pods σ; items := items σ; contexts := contexts σ;
  ingressStates := ingressStates σ; podContexts := podContexts σ; workQueue := q;
  calls := calls σ; idle := idle σ; exited := exited σ; callbacks := callbacks σ;
  deletedPods := deletedPods σ |}.
Definition with_calls l σ : Prober := {|
  ingresses := ingresses σ; pods := pods σ; items := items σ; contexts := contexts σ;
  ingressStates := ingressStates σ; podContexts := podContexts σ; workQueue := workQueue σ;
  calls := l; idle := idle σ; exited := exited σ; callbacks := callbacks σ;
  deletedPods := deletedPods σ |}.
Definition with_workers n m σ : Prober := {|
  ingresses := ingresses σ; pods := pods σ; items := items σ; contexts := contexts σ;
  ingressStates := ingressStates σ; podContexts := podContexts σ; workQueue := workQueue σ;
  calls := calls σ; idle := n; exited := m; callbacks := callbacks σ;
  deletedPods := deletedPods σ |}.
Definition with_callback i σ : Prober := {|
  ingresses := ingresses σ; pods := pods σ; items := items σ; contexts := contexts σ;
  ingressStates := ingressStates σ; podContexts := podContexts σ; workQueue := workQueue σ;
  calls := calls σ; idle := idle σ; exited := exited σ; callbacks := callbacks σ ++ [i];
  deletedPods := deletedPods σ |}.
Definition with_deleted ip σ : Prober := {|
  ingresses := ingresses σ; pods := pods σ; items := items σ; contexts := contexts σ;
  ingressStates := ingressStates σ; podContexts := podContexts σ; workQueue := workQueue σ;
  calls := calls σ; idle := idle σ; exited := exited σ; callbacks := callbacks σ;
  deletedPods := {[ip]} ∪ deletedPods σ |}.

(** Field updates through a pointer. *)
Definition set_pending (n : Z) (st : ingressState) : ingressState := {|
  st_hash := st_hash st; st_ing := st_ing st; st_pendingCount := n;
  st_cancelled := st_cancelled st; st_targets := st_targets st |}.
Definition set_cancelled (st : ingressState) : ingressState := {|
  st_hash := st_hash st; st_ing := st_ing st; st_pendingCount := st_pendingCount st;
  st_cancelled := true; st_targets := st_targets st |}.
Definition set_pod (n : Z) (done joiner : bool) (c : canceller) (ps : podState) : podState := {|
  ps_pendingCount := n; ps_done := done; ps_ingress := ps_ingress ps; ps_ip := ps_ip ps;
  ps_ctx := ps_ctx ps; ps_joiner := joiner; ps_canceller := c |}.
Definition set_pc (pc : item_pc) (wi : workItem) : workItem := {|
  wi_ingress := wi_ingress wi; wi_pod := wi_pod wi; wi_url := wi_url wi;
  wi_podIP := wi_podIP wi; wi_podPort := wi_podPort wi; wi_pc := pc |}.

Definition put_ingress i st σ := with_ingresses (<[i := st]> (ingresses σ)) σ.
Definition put_pod p ps σ := with_pods (<[p := ps]> (pods σ)) σ.
Definition put_item it wi σ := with_items (<[it := wi]> (items σ)) σ.
Definition put_call c pc σ := with_calls (<[c := pc]> (calls σ)) σ.

(** ** [IsReady] *)

(** The first critical section: [Some ready] when the state of this version is known;
    otherwise an outdated version is cancelled and forgotten. *)
Definition IsReady_cached (key : NamespacedName) (hash : string) σ : Prober * option bool :=
  match ingressStates σ !! key with
  | Some i =>
      match ingresses σ !! i with
      | Some st =>
          if String.eqb (st_hash st) hash then (σ, Some (st_pendingCount st =? 0))
          else (with_states (delete key (ingressStates σ)) (put_ingress i (set_cancelled st) σ), None)
      | None => (σ, None)
      end
  | None => (σ, None)
  end.

(** The loops that group the probes by IP.  Every IP of a target gets its URLs in order,
    whatever the order of the IPs. *)
Definition workItems (targets : list ProbeTarget) : probes :=
  foldl (λ m target,
    foldl (λ m ip,
      foldl (λ (m : probes) url, <[ip := default [] (m !! ip) ++ [(url, pt_pod_port target)]]> m)
        m (pt_urls target))
      m (elements (pt_pod_ips target)))
    ∅ targets.

Definition IsReady_list (c : nat) (ing : Ingress) (reply : goerr + list ProbeTarget) σ : Prober :=
  match reply with
  | inl e => put_call c (RReturn (inl e)) σ
  | inr targets =>
      let i := length (ingresses σ) in
      put_call c (RLoop i (workItems targets))
        (with_ingresses (ingresses σ ++
           [{| st_hash := ComputeHash ing; st_ing := ing;
               st_pendingCount := Z.of_nat (size (workItems targets));
               st_cancelled := false; st_targets := targets |}]) σ)
  end.

(** Get or create the context of an IP, under the lock. *)
Definition IsReady_context (ip : string) σ : Prober * nat :=
  match podContexts σ !! ip with
  | Some cx => (σ, cx)
  | None =>
      let cx := length (contexts σ) in
      (with_contexts (contexts σ ++ [{| cx_ip := ip; cx_cancelled := false |}])
         (<[ip := cx]> (podContexts σ)) σ, cx)
  end.

(** The state of a pod, its two goroutines, and its work items. *)
Definition IsReady_pod (c i : nat) (ip : string) (urls : list ((string * string) * string))
    (cx : nat) (rest : probes) σ : Prober :=
  let p := length (pods σ) in
  put_call c (RQueue i (seq (length (items σ)) (length urls)) rest)
    (with_items (items σ ++
       ((λ u, {| wi_ingress := i; wi_pod := p; wi_url := u.1; wi_podIP := ip; wi_podPort := u.2;
                 wi_pc := INew |}) <$> urls))
    (with_pods (pods σ ++
       [{| ps_pendingCount := Z.of_nat (length urls); ps_done := false; ps_ingress := i; ps_ip := ip;
           ps_ctx := cx; ps_joiner := true; ps_canceller := CWait |}]) σ)).

Definition IsReady_queue (c i it : nat) (todo : list nat) (rest : probes) σ : option Prober :=
  wi ← items σ !! it;
  q ← wq_add_after it initialDelay (workQueue σ);
  Some (put_call c (RQueue i todo rest) (put_item it (set_pc IQueued wi) (with_queue q σ))).

(** The last critical section, and the result [len(workItems) == 0]. *)
Definition IsReady_store (c i : nat) σ : option Prober :=
  st ← ingresses σ !! i;
  Some (put_call c (RReturn (inr (bool_decide (size (workItems (st_targets st)) = 0%nat))))
          (with_states (<[key_of (ing_meta (st_ing st)) := i]> (ingressStates σ)) σ)).

(** ** Workers *)

Definition processWorkItem_get σ : option Prober :=
  match idle σ with
  | O => None
  | S n =>
      '(obj, q) ← wq_get (workQueue σ);
      match obj with
      | None => Some (with_workers n (S (exited σ)) (with_queue q σ))
      | Some it =>
          wi ← items σ !! it;
          Some (with_workers n (exited σ) (put_item it (set_pc IProbing wi) (with_queue q σ)))
      end
  end.

(** After the probe: drop a cancelled item, retry a failed one, or go on. *)
Definition processWorkItem_select (it : nat) (wi : workItem) (reply : goerr + Response) σ
    : option Prober :=
  ps ← pods σ !! wi_pod wi;
  st ← ingresses σ !! wi_ingress wi;
  if ps_done ps then
    Some (put_item it (set_pc (IFinished None) wi) (with_queue (wq_forget it (workQueue σ)) σ))
  else if accepted (st_hash st) reply then
    Some (put_item it (set_pc (IPodAdd reply) wi) (with_queue (wq_forget it (workQueue σ)) σ))
  else Some (put_item it (set_pc IRetry wi) σ).

(** The item goes back to the queue after the delay of the rate limiter. *)
Definition processWorkItem_retry (it : nat) (wi : workItem) (bucket : Z) σ : option Prober :=
  q ← wq_add_rate_limited bucket it (workQueue σ);
  Some (put_item it (set_pc IRequeued wi) (with_queue q σ)).

(** The atomic operations of [onProbingSuccess]. *)
Definition onProbingSuccess_pod (it : nat) (wi : workItem) (reply : goerr + Response) σ : option Prober :=
  ps ← pods σ !! wi_pod wi;
  let n := ps_pendingCount ps - 1 in
  Some (put_item it (set_pc (if n =? 0 then IPodCancel reply else IFinished (Some reply)) wi)
          (put_pod (wi_pod wi) (set_pod n (ps_done ps) (ps_joiner ps) (ps_canceller ps) ps) σ)).

Definition onProbingSuccess_cancel (it : nat) (wi : workItem) (reply : goerr + Response) σ : option Prober :=
  ps ← pods σ !! wi_pod wi;
  Some (put_item it (set_pc (IIngressAdd reply) wi)
          (put_pod (wi_pod wi)
             (set_pod (ps_pendingCount ps) true (ps_joiner ps) (ps_canceller ps) ps) σ)).

Definition onProbingSuccess_ingress (it : nat) (wi : workItem) (reply : goerr + Response) σ : option Prober :=
  st ← ingresses σ !! wi_ingress wi;
  let n := st_pendingCount st - 1 in
  Some (put_item it (set_pc (if n =? 0 then ICallback reply else IFinished (Some reply)) wi)
          (put_ingress (wi_ingress wi) (set_pending n st) σ)).

(** ** Goroutines of a pod *)

(** The goroutine that joins the contexts of the pod and of its IP. *)
Definition joinContexts (p : nat) σ : option Prober :=
  ps ← pods σ !! p;
  cx ← contexts σ !! ps_ctx ps;
  if ps_joiner ps && (ps_done ps || cx_cancelled cx) then
    Some (put_pod p (set_pod (ps_pendingCount ps) true false (ps_canceller ps) ps) σ)
  else None.

(** [podCtx] is derived from [ingCtx]: cancelling the latter reaches the former. *)
Definition propagateCancel (p : nat) σ : option Prober :=
  ps ← pods σ !! p;
  st ← ingresses σ !! ps_ingress ps;
  if st_cancelled st then
    Some (put_pod p (set_pod (ps_pendingCount ps) true (ps_joiner ps) (ps_canceller ps) ps) σ)
  else None.

(** [onProbingCancellation], one atomic operation at a time. *)
Definition onProbingCancellation (p : nat) σ : option Prober :=
  ps ← pods σ !! p;
  let set n c := set_pod n (ps_done ps) (ps_joiner ps) c ps in
  let n := ps_pendingCount ps in
  match ps_canceller ps with
  | CWait => if ps_done ps then Some (put_pod p (set n CLoad) σ) else None
  | CLoad => Some (put_pod p (set n (if n <=? 0 then CReturn false else CCas n)) σ)
  | CCas pendingCount =>
      Some (put_pod p (if n =? pendingCount then set 0 CAdd else set n CLoad) σ)
  | CAdd =>
      st ← ingresses σ !! ps_ingress ps;
      let m := st_pendingCount st - 1 in
      Some (put_pod p (set n (if m =? 0 then CCallback else CReturn true))
              (put_ingress (ps_ingress ps) (set_pending m st) σ))
  | CCallback => Some (put_pod p (set n (CReturn true)) (with_callback (ps_ingress ps) σ))
  | CReturn _ => None
  end.

(** ** Handlers *)

Definition CancelIngressProbingByKey (key : NamespacedName) σ : Prober :=
  match ingressStates σ !! key with
  | Some i =>
      match ingresses σ !! i with
      | Some st => with_states (delete key (ingressStates σ)) (put_ingress i (set_cancelled st) σ)
      | None => σ
      end
  | None => σ
  end.

Definition CancelIngressProbing (obj : eventobj) σ : Prober :=
  match DeletionHandlingAccessor obj with
  | inl _ => σ
  | inr acc => CancelIngressProbingByKey (key_of (ac_meta acc)) σ
  end.

Definition CancelPodProbing (obj : eventobj) σ : Prober :=
  match as_pod obj with
  | None => σ
  | Some ip =>
      with_deleted ip
      match podContexts σ !! ip with
      | Some cx =>
          with_contexts (<[cx := {| cx_ip := ip; cx_cancelled := true |}]> (contexts σ))
            (delete ip (podContexts σ)) σ
      | None => σ
      end
  end.

(** ** The transition system *)

Inductive action :=
  | AIsReady (ing : Ingress)                                       (* a call of [IsReady] *)
  | ACached (c : nat)
  | AList (c : nat) (reply : goerr + list ProbeTarget)
  | AContext (c : nat) (ip : string)
  | APod (c : nat)
  | AQueue (c : nat)
  | AStore (c : nat)
  | AGet                                                           (* a worker *)
  | AProbe (it : nat) (reply : goerr + Response)
  | ASelect (it : nat)
  | ARetry (it : nat) (bucket : Z)
  | ASuccess (it : nat)
  | ADone (it : nat)
  | AJoin (p : nat)                                                (* goroutines of a pod *)
  | APropagate (p : nat)
  | ACanceller (p : nat)
  | ACancelIngress (obj : eventobj)                                (* handlers *)
  | ACancelPod (obj : eventobj)
  | AQueueEvent (e : wq_event (T := nat) (Q := Q))                 (* time, the queue's goroutine *)
  | AShutDown.

Definition exec (a : action) σ : option Prober :=
  match a with
  | AIsReady ing => Some (with_calls (calls σ ++ [RStart ing]) σ)
  | ACached c =>
      match calls σ !! c with
      | Some (RStart ing) =>
          let '(σ', ready) := IsReady_cached (key_of (ing_meta ing)) (ComputeHash ing) σ in
          Some (put_call c (match ready with Some b => RReturn (inr b) | None => RList ing end) σ')
      | _ => None
      end
  | AList c reply =>
      match calls σ !! c with
      | Some (RList ing) => Some (IsReady_list c ing reply σ)
      | _ => None
      end
  | AContext c ip =>
      match calls σ !! c with
      | Some (RLoop i rest) =>
          urls ← rest !! ip;
          let '(σ', cx) := IsReady_context ip σ in
          Some (put_call c (RPod i ip urls cx (delete ip rest)) σ')
      | _ => None
      end
  | APod c =>
      match calls σ !! c with
      | Some (RPod i ip urls cx rest) => Some (IsReady_pod c i ip urls cx rest σ)
      | _ => None
      end
  | AQueue c =>
      match calls σ !! c with
      | Some (RQueue i (it :: todo) rest) => IsReady_queue c i it todo rest σ
      | Some (RQueue i [] rest) => Some (put_call c (RLoop i rest) σ)
      | _ => None
      end
  | AStore c =>
      match calls σ !! c with
      | Some (RLoop i rest) => if bool_decide (rest = ∅) then IsReady_store c i σ else None
      | _ => None
      end
  | AGet => processWorkItem_get σ
  | AProbe it reply =>
      wi ← items σ !! it;
      match wi_pc wi with
      | IProbing => Some (put_item it (set_pc (IProbed reply) wi) σ)
      | _ => None
      end
  | ASelect it =>
      wi ← items σ !! it;
      match wi_pc wi with
      | IProbed reply => processWorkItem_select it wi reply σ
      | _ => None
      end
  | ARetry it bucket =>
      wi ← items σ !! it;
      match wi_pc wi with
      | IRetry => processWorkItem_retry it wi bucket σ
      | _ => None
      end
  | ASuccess it =>
      wi ← items σ !! it;
      match wi_pc wi with
      | IPodAdd reply => onProbingSuccess_pod it wi reply σ
      | IPodCancel reply => onProbingSuccess_cancel it wi reply σ
      | IIngressAdd reply => onProbingSuccess_ingress it wi reply σ
      | ICallback reply =>
          Some (put_item it (set_pc (IFinished (Some reply)) wi) (with_callback (wi_ingress wi) σ))
      | _ => None
      end
  | ADone it =>
      wi ← items σ !! it;
      let finish pc :=
        Some (with_workers (S (idle σ)) (exited σ)
                (put_item it (set_pc pc wi) (with_queue (wq_done it (workQueue σ)) σ))) in
      match wi_pc wi with
      | IRequeued => finish IQueued
      | IFinished reply => finish (IDone reply)
      | _ => None
      end
  | AJoin p => joinContexts p σ
  | APropagate p => propagateCancel p σ
  | ACanceller p => onProbingCancellation p σ
  | ACancelIngress obj => Some (CancelIngressProbing obj σ)
  | ACancelPod obj => Some (CancelPodProbing obj σ)
  | AQueueEvent e => q ← wq_tick e (workQueue σ); Some (with_queue q σ)
  | AShutDown => Some (with_queue (wq_shut_down (workQueue σ)) σ)
  end.

Definition step : relation Prober := λ σ σ', ∃ a, exec a σ = Some σ'.

(** A run that follows a schedule. *)
Fixpoint schedule (l : list action) σ : option Prober :=
  match l with
  | [] => Some σ
  | a :: l => σ' ← exec a σ; schedule l σ'
  end.

Lemma schedule_steps l σ σ' : schedule l σ = Some σ' → rtc step σ σ'.
Proof.
  revert σ. induction l as [|a l IH]; simpl; intros σ.
  - intros [= ->]. constructor.
  - destruct (exec a σ) as [σ1|] eqn:E; [|done]. intros Hs.
    econstructor; [by exists a|by apply IH].
Qed.

(** The same steps by premises and effect. *)
Inductive trans (σ : Prober) : Prober → Prop :=
  | t_start ing : trans σ (with_calls (calls σ ++ [RStart ing]) σ)
  | t_cached c ing i st :
      calls σ !! c = Some (RStart ing) → ingressStates σ !! key_of (ing_meta ing) = Some i →
      ingresses σ !! i = Some st → st_hash st = ComputeHash ing →
      trans σ (put_call c (RReturn (inr (st_pendingCount st =? 0))) σ)
  | t_unknown c ing : calls σ !! c = Some (RStart ing) → trans σ (put_call c (RList ing) σ)
  | t_outdated c ing i st :
      calls σ !! c = Some (RStart ing) → ingressStates σ !! key_of (ing_meta ing) = Some i →
      ingresses σ !! i = Some st →
      trans σ (put_call c (RList ing)
        (with_states (delete (key_of (ing_meta ing)) (ingressStates σ)) (put_ingress i (set_cancelled st) σ)))
  | t_list c ing reply : calls σ !! c = Some (RList ing) → trans σ (IsReady_list c ing reply σ)
  | t_context_old c i rest ip urls cx :
      calls σ !! c = Some (RLoop i rest) → rest !! ip = Some urls → podContexts σ !! ip = Some cx →
      trans σ (put_call c (RPod i ip urls cx (delete ip rest)) σ)
  | t_context_new c i rest ip urls :
      calls σ !! c = Some (RLoop i rest) → rest !! ip = Some urls → podContexts σ !! ip = None →
      trans σ (put_call c (RPod i ip urls (length (contexts σ)) (delete ip rest))
        (with_contexts (contexts σ ++ [{| cx_ip := ip; cx_cancelled := false |}])
           (<[ip := length (contexts σ)]> (podContexts σ)) σ))
  | t_pod c i ip urls cx rest :
      calls σ !! c = Some (RPod i ip urls cx rest) → trans σ (IsReady_pod c i ip urls cx rest σ)
  | t_queue c i it todo rest wi q :
      calls σ !! c = Some (RQueue i (it :: todo) rest) → items σ !! it = Some wi →
      wq_add_after it initialDelay (workQueue σ) = Some q →
      trans σ (put_call c (RQueue i todo rest) (put_item it (set_pc IQueued wi) (with_queue q σ)))
  | t_queued c i rest :
      calls σ !! c = Some (RQueue i [] rest) → trans σ (put_call c (RLoop i rest) σ)
  | t_store c i st :
      calls σ !! c = Some (RLoop i ∅) → ingresses σ !! i = Some st →
      trans σ (put_call c (RReturn (inr (bool_decide (size (workItems (st_targets st)) = 0%nat))))
                 (with_states (<[key_of (ing_meta (st_ing st)) := i]> (ingressStates σ)) σ))
  | t_get n it wi q :
      idle σ = S n → wq_get (workQueue σ) = Some (Some it, q) → items σ !! it = Some wi →
      trans σ (with_workers n (exited σ) (put_item it (set_pc IProbing wi) (with_queue q σ)))
  | t_exit n q :
      idle σ = S n → wq_get (workQueue σ) = Some (None, q) →
      trans σ (with_workers n (S (exited σ)) (with_queue q σ))
  | t_probe it wi reply :
      items σ !! it = Some wi → wi_pc wi = IProbing → trans σ (put_item it (set_pc (IProbed reply) wi) σ)
  | t_drop it wi reply ps :
      items σ !! it = Some wi → wi_pc wi = IProbed reply → pods σ !! wi_pod wi = Some ps →
      ps_done ps = true →
      trans σ (put_item it (set_pc (IFinished None) wi) (with_queue (wq_forget it (workQueue σ)) σ))
  | t_accept it wi reply ps st :
      items σ !! it = Some wi → wi_pc wi = IProbed reply → pods σ !! wi_pod wi = Some ps →
      ps_done ps = false → ingresses σ !! wi_ingress wi = Some st → accepted (st_hash st) reply = true →
      trans σ (put_item it (set_pc (IPodAdd reply) wi) (with_queue (wq_forget it (workQueue σ)) σ))
  | t_fail it wi reply ps :
      items σ !! it = Some wi → wi_pc wi = IProbed reply → pods σ !! wi_pod wi = Some ps →
      trans σ (put_item it (set_pc IRetry wi) σ)
  | t_retry it wi bucket q :
      items σ !! it = Some wi → wi_pc wi = IRetry →
      wq_add_rate_limited bucket it (workQueue σ) = Some q →
      trans σ (put_item it (set_pc IRequeued wi) (with_queue q σ))
  | t_pod_add it wi reply ps :
      items σ !! it = Some wi → wi_pc wi = IPodAdd reply → pods σ !! wi_pod wi = Some ps →
      trans σ (put_item it (set_pc (if ps_pendingCount ps - 1 =? 0 then IPodCancel reply
                                    else IFinished (Some reply)) wi)
        (put_pod (wi_pod wi)
          (set_pod (ps_pendingCount ps - 1) (ps_done ps) (ps_joiner ps) (ps_canceller ps) ps) σ))
  | t_pod_cancel it wi reply ps :
      items σ !! it = Some wi → wi_pc wi = IPodCancel reply → pods σ !! wi_pod wi = Some ps →
      trans σ (put_item it (set_pc (IIngressAdd reply) wi)
        (put_pod (wi_pod wi) (set_pod (ps_pendingCount ps) true (ps_joiner ps) (ps_canceller ps) ps) σ))
  | t_ingress_add it wi reply st :
      items σ !! it = Some wi → wi_pc wi = IIngressAdd reply → ingresses σ !! wi_ingress wi = Some st →
      trans σ (put_item it (set_pc (if st_pendingCount st - 1 =? 0 then ICallback reply
                                    else IFinished (Some reply)) wi)
        (put_ingress (wi_ingress wi) (set_pending (st_pendingCount st - 1) st) σ))
  | t_callback it wi reply :
      items σ !! it = Some wi → wi_pc wi = ICallback reply →
      trans σ (put_item it (set_pc (IFinished (Some reply)) wi) (with_callback (wi_ingress wi) σ))
  | t_done_requeued it wi :
      items σ !! it = Some wi → wi_pc wi = IRequeued →
      trans σ (with_workers (S (idle σ)) (exited σ)
        (put_item it (set_pc IQueued wi) (with_queue (wq_done it (workQueue σ)) σ)))
  | t_done it wi reply :
      items σ !! it = Some wi → wi_pc wi = IFinished reply →
      trans σ (with_workers (S (idle σ)) (exited σ)
        (put_item it (set_pc (IDone reply) wi) (with_queue (wq_done it (workQueue σ)) σ)))
  | t_join p ps cx :
      pods σ !! p = Some ps → contexts σ !! ps_ctx ps = Some cx →
      ps_done ps = true ∨ cx_cancelled cx = true →
      trans σ (put_pod p (set_pod (ps_pendingCount ps) true false (ps_canceller ps) ps) σ)
  | t_propagate p ps st :
      pods σ !! p = Some ps → ingresses σ !! ps_ingress ps = Some st → st_cancelled st = true →
      trans σ (put_pod p (set_pod (ps_pendingCount ps) true (ps_joiner ps) (ps_canceller ps) ps) σ)
  | t_wake p ps :
      pods σ !! p = Some ps → ps_canceller ps = CWait → ps_done ps = true →
      trans σ (put_pod p (set_pod (ps_pendingCount ps) (ps_done ps) (ps_joiner ps) CLoad ps) σ)
  | t_load p ps :
      pods σ !! p = Some ps → ps_canceller ps = CLoad →
      trans σ (put_pod p (set_pod (ps_pendingCount ps) (ps_done ps) (ps_joiner ps)
        (if ps_pendingCount ps <=? 0 then CReturn false else CCas (ps_pendingCount ps)) ps) σ)
  | t_cas p ps n :
      pods σ !! p = Some ps → ps_canceller ps = CCas n → ps_pendingCount ps = n →
      trans σ (put_pod p (set_pod 0 (ps_done ps) (ps_joiner ps) CAdd ps) σ)
  | t_cas_fail p ps n :
      pods σ !! p = Some ps → ps_canceller ps = CCas n →
      trans σ (put_pod p (set_pod (ps_pendingCount ps) (ps_done ps) (ps_joiner ps) CLoad ps) σ)
  | t_cancel_add p ps st :
      pods σ !! p = Some ps → ps_canceller ps = CAdd → ingresses σ !! ps_ingress ps = Some st →
      trans σ (put_pod p (set_pod (ps_pendingCount ps) (ps_done ps) (ps_joiner ps)
                 (if st_pendingCount st - 1 =? 0 then CCallback else CReturn true) ps)
        (put_ingress (ps_ingress ps) (set_pending (st_pendingCount st - 1) st) σ))
  | t_cancel_callback p ps :
      pods σ !! p = Some ps → ps_canceller ps = CCallback →
      trans σ (put_pod p (set_pod (ps_pendingCount ps) (ps_done ps) (ps_joiner ps) (CReturn true) ps)
        (with_callback (ps_ingress ps) σ))
  | t_cancel_ingress key i st :
      ingressStates σ !! key = Some i → ingresses σ !! i = Some st →
      trans σ (with_states (delete key (ingressStates σ)) (put_ingress i (set_cancelled st) σ))
  | t_cancel_pod ip cx :
      podContexts σ !! ip = Some cx →
      trans σ (with_deleted ip
        (with_contexts (<[cx := {| cx_ip := ip; cx_cancelled := true |}]> (contexts σ))
            (delete ip (podContexts σ)) σ))
  | t_deleted ip : trans σ (with_deleted ip σ)
  | t_nothing : trans σ σ
  | t_tick e q : wq_tick e (workQueue σ) = Some q → trans σ (with_queue q σ)
  | t_shut_down : trans σ (with_queue (wq_shut_down (workQueue σ)) σ).

End Prober.

Arguments Prober : clear implicits.
Arguments action Q {_} : rename.
