(* ===== verification/ProberInv.v ===== *)
(** * Invariants of the status prober

    What holds in every state of the transition system of [Prober]: pointers lead somewhere,
    a state has one owner, the work queue and the items agree, the counters of pods and of
    KIngresses count exactly what is outstanding, and a pod stops counting only for a reason.
    Each invariant is preserved by every step ([trans_*]). *)

From S2P Require Import Prelude Meta Ingress NetIngress HTTPProxy ProbeTargets Events Workqueue Prober.
Local Open Scope Z_scope.
#[local] Opaque ComputeHash workItems.

(** Take apart an option computation that returned. *)
Ltac opt_inv H :=
  repeat (simpl in H;
    match type of H with
    | (_ ← _; _) = Some _ =>
        let E := fresh "E" in let x := fresh "x" in apply bind_Some in H as (x & E & H)
    | match ?m with _ => _ end = Some _ => let E := fresh "E" in destruct m eqn:E; try discriminate H
    | Some _ = Some _ => injection H as <-
    end).

(** The two answers of the target lister. *)
Ltac destruct_reply := try match goal with r : (goerr + list ProbeTarget)%type |- _ => destruct r end.

(** ** Lists as heaps *)

(** Every cell is still there, with a content related to the old one. *)
Definition list_grows {A} (R : relation A) (l l' : list A) : Prop :=
  ∀ k x, l !! k = Some x → ∃ y, l' !! k = Some y ∧ R x y.

Section Heaps.
Context {A : Type} (R : relation A) `{!Reflexive R}.
Implicit Types l : list A.

Lemma lg_refl l : list_grows R l l.
Proof. intros k x ?. by exists x. Qed.
Lemma lg_app l l' : list_grows R l (l ++ l').
Proof. intros k x Hk. exists x. split; [by apply lookup_app_l_Some|done]. Qed.
Lemma lg_insert l k x y : l !! k = Some x → R x y → list_grows R l (<[k := y]> l).
Proof.
  intros Hk HR j z Hj. destruct (decide (j = k)) as [->|Hne].
  - simplify_eq. exists y. split; [|done]. apply list_lookup_insert_eq. by eapply lookup_lt_Some.
  - exists z. by rewrite list_lookup_insert_ne.
Qed.
End Heaps.

(** Sums of weights over a heap. *)
Lemma sum_insert {A} (f : A → nat) (l : list A) k x y :
  l !! k = Some x → (sum_list_with f (<[k := y]> l) + f x = sum_list_with f l + f y)%nat.
Proof.
  revert k. induction l as [|z l IH]; intros [|k]; simpl; [done..| |].
  - intros [= ->]. lia.
  - intros Hk. specialize (IH k Hk). lia.
Qed.

Lemma sum_zero {A} (f : A → nat) (l : list A) :
  (∀ k x, l !! k = Some x → f x = 0%nat) → sum_list_with f l = 0%nat.
Proof.
  intros Hf. induction l as [|x l IH]; simpl; [done|].
  rewrite (Hf 0%nat x) by done. apply IH. intros k y Hk. by apply (Hf (S k)).
Qed.

Lemma sum_pos {A} (f : A → nat) (l : list A) :
  (0 < sum_list_with f l)%nat → ∃ k x, l !! k = Some x ∧ (0 < f x)%nat.
Proof.
  induction l as [|x l IH]; simpl; [lia|]. intros Hs.
  destruct (decide (0 < f x)%nat) as [Hx|Hx]; [by exists 0%nat, x|].
  destruct IH as (k & y & ? & ?); [lia|]. by exists (S k), y.
Qed.

Lemma sum_elem {A} (f : A → nat) (l : list A) k x : l !! k = Some x → (f x ≤ sum_list_with f l)%nat.
Proof.
  revert k. induction l as [|z l IH]; intros [|k]; simpl; [done..| |].
  - intros [= ->]. lia.
  - intros Hk. specialize (IH k Hk). lia.
Qed.

Lemma lookup_snoc_inv {A} (l : list A) x k y :
  (l ++ [x]) !! k = Some y → l !! k = Some y ∨ k = length l ∧ y = x.
Proof.
  rewrite lookup_app_Some. intros [?|[? Hy]]; [by left|right].
  apply list_lookup_singleton_Some in Hy as [??]. split; [lia|done].
Qed.

Lemma lookup_insert_inv {A} (l : list A) j x k y :
  <[j := x]> l !! k = Some y → k = j ∧ y = x ∨ k ≠ j ∧ l !! k = Some y.
Proof. rewrite list_lookup_insert_Some. naive_solver. Qed.

(** Cells of a heap after updates: the changed ones, or old ones. *)
Ltac cell_inv H :=
  simpl in H;
  first
    [ apply lookup_insert_inv in H as [[? H]|[? H]]; [simplify_eq|cell_inv H]
    | apply lookup_snoc_inv in H as [H|[? H]]; [cell_inv H|simplify_eq]
    | idtac ].

Section Facts.
Context {Q : Type} `{!WorkQueue nat Q}.
Implicit Types (σ : Prober Q) (i p it c : nat).

Lemma exec_cached c σ σ' : exec (ACached c) σ = Some σ' → trans σ σ'.
Proof.
  intros Ha. simpl in Ha. destruct (calls σ !! c) as [[ing| | | | |]|] eqn:Ec; try done.
  unfold IsReady_cached in Ha.
  destruct (ingressStates σ !! _) as [i|] eqn:Ek; [|injection Ha as <-; by apply t_unknown].
  destruct (ingresses σ !! i) as [st|] eqn:Ei; [|injection Ha as <-; by apply t_unknown].
  destruct (String.eqb_spec (st_hash st) (ComputeHash ing)); injection Ha as <-.
  - by eapply t_cached.
  - by eapply t_outdated.
Qed.

Lemma exec_handler obj σ :
  trans σ (CancelIngressProbing obj σ) ∧ trans σ (CancelPodProbing obj σ).
Proof.
  split.
  - unfold CancelIngressProbing, CancelIngressProbingByKey.
    destruct (DeletionHandlingAccessor obj) as [|acc]; [apply t_nothing|].
    destruct (ingressStates σ !! _) as [i|] eqn:E; [|apply t_nothing].
    destruct (ingresses σ !! i) as [st|] eqn:Ei; [by eapply t_cancel_ingress|apply t_nothing].
  - unfold CancelPodProbing. destruct (as_pod obj) as [ip|]; [|apply t_nothing].
    destruct (podContexts σ !! ip) as [cx|] eqn:E; [by eapply t_cancel_pod|apply t_deleted].
Qed.

Lemma exec_item a it σ σ' :
  a = ASelect it ∨ a = ASuccess it ∨ a = ADone it → exec a σ = Some σ' → trans σ σ'.
Proof.
  intros [->|[->| ->]] Ha; simpl in Ha; unfold processWorkItem_select, onProbingSuccess_pod,
    onProbingSuccess_cancel, onProbingSuccess_ingress in Ha; opt_inv Ha; destruct x as [xi xp ? ? ? xpc];
    simpl in *; subst.
  - by eapply t_drop.
  - by eapply t_accept.
  - by eapply t_fail.
  - by eapply t_pod_add.
  - by eapply t_pod_cancel.
  - by eapply t_ingress_add.
  - by eapply t_callback.
  - by eapply t_done_requeued.
  - by eapply t_done.
Qed.

Lemma exec_canceller p σ σ' : exec (ACanceller p) σ = Some σ' → trans σ σ'.
Proof.
  intros Ha. simpl in Ha. unfold onProbingCancellation in Ha.
  destruct (pods σ !! p) as [ps|] eqn:Ep; [|done]. simpl in Ha.
  destruct (ps_canceller ps) as [| |n| | |] eqn:Ec.
  - destruct (ps_done ps) eqn:Ed; [|done]. injection Ha as <-. rewrite <- Ed. by apply t_wake.
  - injection Ha as <-. by apply t_load.
  - injection Ha as <-. destruct (Z.eqb_spec (ps_pendingCount ps) n); [by eapply t_cas|by eapply t_cas_fail].
  - opt_inv Ha. by eapply t_cancel_add.
  - injection Ha as <-. by eapply t_cancel_callback.
  - done.
Qed.

Lemma step_trans σ σ' : step σ σ' → trans σ σ'.
Proof.
  intros [a Ha]. destruct a; try (by eapply exec_item; [|exact Ha]; eauto); try by eapply exec_canceller.
  - injection Ha as <-. apply t_start.
  - by eapply exec_cached.
  - simpl in Ha. opt_inv Ha. by apply t_list.
  - simpl in Ha. unfold IsReady_context in Ha.
    destruct (podContexts σ !! ip) eqn:E; opt_inv Ha; [by eapply t_context_old|by eapply t_context_new].
  - simpl in Ha. opt_inv Ha. by apply t_pod.
  - simpl in Ha. unfold IsReady_queue in Ha. opt_inv Ha; [by apply t_queued|by eapply t_queue].
  - simpl in Ha. unfold IsReady_store in Ha. opt_inv Ha.
    apply bool_decide_eq_true in E1 as ->. by eapply t_store.
  - simpl in Ha. unfold processWorkItem_get in Ha. opt_inv Ha; [by eapply t_get|by eapply t_exit].
  - simpl in Ha. opt_inv Ha. by eapply t_probe.
  - simpl in Ha. unfold processWorkItem_retry in Ha. opt_inv Ha. by eapply t_retry.
  - simpl in Ha. unfold joinContexts in Ha. opt_inv Ha.
    apply andb_true_iff in E1 as [_ [?|?]%orb_true_iff]; eapply t_join; eauto.
  - simpl in Ha. unfold propagateCancel in Ha. opt_inv Ha. by eapply t_propagate.
  - injection Ha as <-. apply exec_handler.
  - injection Ha as <-. apply exec_handler.
  - simpl in Ha. opt_inv Ha. by eapply t_tick.
  - injection Ha as <-. apply t_shut_down.
Qed.

(** ** What never changes *)

Definition ingress_grows (a b : ingressState) : Prop :=
  st_hash b = st_hash a ∧ st_ing b = st_ing a ∧ st_targets b = st_targets a ∧
  (st_cancelled a = true → st_cancelled b = true).
Definition pod_grows (a b : podState) : Prop :=
  ps_ingress b = ps_ingress a ∧ ps_ip b = ps_ip a ∧ ps_ctx b = ps_ctx a ∧
  (ps_done a = true → ps_done b = true).
Definition item_grows (a b : workItem) : Prop :=
  wi_ingress b = wi_ingress a ∧ wi_pod b = wi_pod a ∧ wi_url b = wi_url a ∧
  wi_podIP b = wi_podIP a ∧ wi_podPort b = wi_podPort a.
Definition context_grows (a b : ipContext) : Prop :=
  cx_ip b = cx_ip a ∧ (cx_cancelled a = true → cx_cancelled b = true).

#[local] Instance ingress_grows_refl : Reflexive ingress_grows. Proof. by intros ?. Qed.
#[local] Instance pod_grows_refl : Reflexive pod_grows. Proof. by intros ?. Qed.
#[local] Instance item_grows_refl : Reflexive item_grows. Proof. by intros ?. Qed.
#[local] Instance context_grows_refl : Reflexive context_grows. Proof. by intros ?. Qed.

Record grows σ σ' : Prop := {
  g_ingress : list_grows ingress_grows (ingresses σ) (ingresses σ');
  g_pod : list_grows pod_grows (pods σ) (pods σ');
  g_item : list_grows item_grows (items σ) (items σ');
  g_context : list_grows context_grows (contexts σ) (contexts σ');
  g_deleted : deletedPods σ ⊆ deletedPods σ'
}.

(** The contexts that are looked up by IP belong to that IP. *)
Definition contexts_ok σ : Prop :=
  (∀ ip k, podContexts σ !! ip = Some k → ∃ cx, contexts σ !! k = Some cx ∧ cx_ip cx = ip) ∧
  (∀ k cx, contexts σ !! k = Some cx → cx_cancelled cx = true → cx_ip cx ∈ deletedPods σ).

Lemma trans_grows σ σ' : contexts_ok σ → trans σ σ' → grows σ σ'.
Proof.
  intros Hcx. destruct 1; unfold IsReady_list, IsReady_pod; destruct_reply; split; simpl;
    first [done | apply lg_refl; apply _ | apply lg_app; apply _ | set_solver | idtac].
  all: try (eapply lg_insert; [apply _|eassumption|]; done).
  destruct Hcx as [Hcx _]. destruct (Hcx ip cx) as (k & Hk & <-); [done|].
  eapply lg_insert; [apply _|eassumption|]. done.
Qed.

Lemma trans_contexts_ok σ σ' : contexts_ok σ → trans σ σ' → contexts_ok σ'.
Proof.
  intros [H1 H2]. destruct 1; unfold IsReady_list; destruct_reply; try (by split); split; simpl; try done.
  - intros ip' k. rewrite lookup_insert_Some. intros [[<- <-]|[? Hk]].
    + eexists. rewrite lookup_app_r, Nat.sub_diag by done. by split.
    + destruct (H1 _ _ Hk) as (cx & ? & ?). exists cx. split; [by apply lookup_app_l_Some|done].
  - intros k cx [?|[_ ->]]%lookup_snoc_inv; [by eapply H2|done].
  - intros ip' k. rewrite lookup_delete_Some. intros [Hne Hk].
    destruct (H1 _ _ Hk) as (cx' & Hcx & <-). destruct (decide (k = cx)) as [->|].
    + exfalso. destruct (H1 ip cx) as (cx2 & Hcx2 & ?); [done|]. congruence.
    + exists cx'. by rewrite list_lookup_insert_ne.
  - intros k cx' [[_ ->]|[_ Hk]]%lookup_insert_inv; simpl; [set_solver|].
    intros ?. apply elem_of_union_r. by eapply H2.
  - intros k cx' Hk ?. apply elem_of_union_r. by eapply H2.
Qed.

(** ** Pointers *)

Definition call_on (pc : call) : option nat :=
  match pc with
  | RLoop i _ | RPod i _ _ _ _ | RQueue i _ _ => Some i
  | RStart _ | RList _ | RReturn _ => None
  end.

Definition pod_ref σ (ps : podState) : Prop :=
  (∃ st, ingresses σ !! ps_ingress ps = Some st) ∧
  (∃ cx, contexts σ !! ps_ctx ps = Some cx ∧ cx_ip cx = ps_ip ps).

Definition item_ref σ (wi : workItem) : Prop :=
  ∃ ps, pods σ !! wi_pod wi = Some ps ∧ ps_ingress ps = wi_ingress wi ∧ ps_ip ps = wi_podIP wi.

(** The state a call works on exists; so does the context it found for an IP. *)
Definition call_ref σ (pc : call) : Prop :=
  (∀ i, call_on pc = Some i → ∃ st, ingresses σ !! i = Some st) ∧
  match pc with
  | RPod _ ip _ k _ => ∃ cx, contexts σ !! k = Some cx ∧ cx_ip cx = ip
  | _ => True
  end.

Lemma grows_pod_ref σ σ' ps : grows σ σ' → pod_ref σ ps → pod_ref σ' ps.
Proof.
  intros Hg [[st Hst] (cx & Hcx & Hip)]. split.
  - destruct (g_ingress _ _ Hg _ _ Hst) as (? & ? & _). eauto.
  - destruct (g_context _ _ Hg _ _ Hcx) as (cx' & ? & ? & _). exists cx'. split; [done|congruence].
Qed.
Lemma grows_item_ref σ σ' wi : grows σ σ' → item_ref σ wi → item_ref σ' wi.
Proof.
  intros Hg (ps & Hps & ? & ?). destruct (g_pod _ _ Hg _ _ Hps) as (ps' & ? & Ha & Hb & _).
  exists ps'. split_and!; [done|congruence|congruence].
Qed.
Lemma grows_call_ref σ σ' pc : grows σ σ' → call_ref σ pc → call_ref σ' pc.
Proof.
  intros Hg [Hi Hc]. split.
  - intros i Hon. destruct (Hi i Hon) as [st Hst]. destruct (g_ingress _ _ Hg _ _ Hst) as (? & ? & _). eauto.
  - destruct pc; try done. destruct Hc as (cx & Hcx & Hip).
    destruct (g_context _ _ Hg _ _ Hcx) as (cx' & ? & ? & _). exists cx'. split; [done|congruence].
Qed.

Record refs σ : Prop := {
  refs_contexts : contexts_ok σ;
  refs_pod p ps : pods σ !! p = Some ps → pod_ref σ ps;
  refs_item it wi : items σ !! it = Some wi → item_ref σ wi;
  refs_call c pc : calls σ !! c = Some pc → call_ref σ pc
}.


(** Where the cells of the heaps come from. *)
Lemma pods_origin σ σ' p ps' : trans σ σ' → pods σ' !! p = Some ps' →
  (∃ ps, pods σ !! p = Some ps ∧ ps_ingress ps' = ps_ingress ps ∧ ps_ip ps' = ps_ip ps ∧
         ps_ctx ps' = ps_ctx ps) ∨
  p = length (pods σ) ∧ ∃ c urls rest,
    calls σ !! c = Some (RPod (ps_ingress ps') (ps_ip ps') urls (ps_ctx ps') rest) ∧
    σ' = IsReady_pod c (ps_ingress ps') (ps_ip ps') urls (ps_ctx ps') rest σ.
Proof.
  destruct 1; unfold IsReady_list; destruct_reply; intros Hk; cell_inv Hk; eauto 10.
Qed.

Lemma items_origin σ σ' it wi' : trans σ σ' → items σ' !! it = Some wi' →
  (∃ wi, items σ !! it = Some wi ∧ item_grows wi wi') ∨
  ∃ c cx urls rest, calls σ !! c = Some (RPod (wi_ingress wi') (wi_podIP wi') urls cx rest) ∧
    (length (items σ) ≤ it < length (items σ) + length urls)%nat ∧
    (wi_url wi', wi_podPort wi') ∈ urls ∧
    wi_pod wi' = length (pods σ) ∧ wi_pc wi' = INew ∧
    σ' = IsReady_pod c (wi_ingress wi') (wi_podIP wi') urls cx rest σ.
Proof.
  destruct 1; unfold IsReady_list; destruct_reply; intros Hk; cell_inv Hk;
    try (left; eexists; split; [eassumption|done]).
  apply lookup_app_Some in Hk as [Hk|[Hlen Hk]]; [left; by eexists|right].
  rewrite list_lookup_fmap in Hk. destruct (urls !! _) as [u|] eqn:Eu; [|done]. injection Hk as <-.
  exists c, cx, urls, rest. simpl. split_and!; try done.
  - apply lookup_lt_Some in Eu. lia.
  - destruct u. by eapply list_elem_of_lookup_2.
Qed.

Lemma ingresses_origin σ σ' i st' : trans σ σ' → ingresses σ' !! i = Some st' →
  (∃ st, ingresses σ !! i = Some st ∧ ingress_grows st st') ∨
  i = length (ingresses σ) ∧ ∃ c,
    calls σ !! c = Some (RList (st_ing st')) ∧ σ' = IsReady_list c (st_ing st') (inr (st_targets st')) σ.
Proof.
  destruct 1; unfold IsReady_list; destruct_reply; intros Hk; cell_inv Hk;
    try (left; eexists; split; [eassumption|done]). right. eauto.
Qed.

(** A call works on the state it worked on before, on a new one, or on none. *)
Lemma calls_origin σ σ' c pc' i : trans σ σ' → calls σ' !! c = Some pc' → call_on pc' = Some i →
  (∃ pc, calls σ !! c = Some pc ∧ call_on pc = Some i) ∨
  i = length (ingresses σ) ∧ ∃ ing targets, calls σ !! c = Some (RList ing) ∧
    pc' = RLoop i (workItems targets) ∧ σ' = IsReady_list c ing (inr targets) σ.
Proof.
  destruct 1; unfold IsReady_list; destruct_reply; intros Hk Hon; cell_inv Hk; simplify_eq/=; eauto 10.
Qed.

Lemma trans_refs σ σ' : refs σ → trans σ σ' → refs σ'.
Proof.
  intros [Hcx Hp Hi Hc] Ht. pose proof (trans_grows _ _ Hcx Ht) as Hg.
  split; [by eapply trans_contexts_ok|..].
  - intros p ps' Hps. destruct (pods_origin _ _ _ _ Ht Hps) as [(ps & Hps0 & E1 & E2 & E3)|(_ & c & urls & rest & Hca & ->)].
    + eapply grows_pod_ref in Hg; [|by eapply Hp]. unfold pod_ref. by rewrite E1, E2, E3.
    + eapply grows_call_ref in Hg as [Hg1 Hg2]; [|by eapply Hc]. split; [by apply Hg1|done].
  - intros it wi' Hwi. destruct (items_origin _ _ _ _ Ht Hwi)
      as [(wi & Hwi0 & E1 & E2 & _ & E3 & _)|(c & cx & urls & rest & Hca & _ & _ & E & _ & ->)].
    + eapply grows_item_ref in Hg; [|by eapply Hi]. unfold item_ref. by rewrite E1, E2, E3.
    + eexists. simpl. rewrite E, lookup_app_r, Nat.sub_diag by done. by split_and!.
  - intros c pc Hpc. split.
    + intros i Hon. destruct (calls_origin _ _ _ _ _ Ht Hpc Hon) as [(pc0 & Hpc0 & Hon0)|(-> & ing & targets & _ & _ & ->)].
      * destruct (proj1 (Hc _ _ Hpc0) i Hon0) as [st Hst].
        destruct (g_ingress _ _ Hg _ _ Hst) as (? & ? & _). eauto.
      * simpl. rewrite lookup_app_r, Nat.sub_diag by done. by eexists.
    + destruct pc as [| | |i ip urls k rest| |]; try done.
      assert (call_ref σ (RPod i ip urls k rest) ∨
              ∃ cx, contexts σ' !! k = Some cx ∧ cx_ip cx = ip) as [Hr|]; [|exact (proj2 (grows_call_ref _ _ _ Hg Hr))|done].
      destruct Ht; unfold IsReady_list in *; destruct_reply; cell_inv Hpc; simplify_eq/=; eauto.
      * right. eapply Hcx. eassumption.
      * right. eexists. by rewrite lookup_app_r, Nat.sub_diag.
Qed.

(** ** Who works on a state

    A state is worked on by one call, then published; it is cancelled only through the map
    it is published in, which forgets it at the same time. *)

Definition st_key (st : ingressState) : NamespacedName := key_of (ing_meta (st_ing st)).

Record owned σ : Prop := {
  own_unique c c' pc pc' i : calls σ !! c = Some pc → calls σ !! c' = Some pc' →
    call_on pc = Some i → call_on pc' = Some i → c = c';
  own_live c pc i st : calls σ !! c = Some pc → call_on pc = Some i →
    ingresses σ !! i = Some st → st_cancelled st = false;
  own_states k i : ingressStates σ !! k = Some i → ∃ st, ingresses σ !! i = Some st ∧
    st_key st = k ∧ st_cancelled st = false ∧ ∀ c pc, calls σ !! c = Some pc → call_on pc ≠ Some i
}.

Lemma cancelled_origin σ σ' i st' : trans σ σ' → ingresses σ' !! i = Some st' → st_cancelled st' = true →
  (∃ st, ingresses σ !! i = Some st ∧ st_cancelled st = true) ∨
  ∃ k, ingressStates σ !! k = Some i ∧ ingressStates σ' = delete k (ingressStates σ).
Proof.
  destruct 1; unfold IsReady_list; destruct_reply; intros Hk Hon; cell_inv Hk; simplify_eq/=; eauto 10.
Qed.

Lemma states_origin σ σ' k i : trans σ σ' → ingressStates σ' !! k = Some i →
  ingressStates σ !! k = Some i ∨
  ∃ c st r, calls σ !! c = Some (RLoop i ∅) ∧ ingresses σ !! i = Some st ∧ k = st_key st ∧
    σ' = put_call c (RReturn (inr r)) (with_states (<[k := i]> (ingressStates σ)) σ).
Proof.
  destruct 1; unfold IsReady_list; destruct_reply; simpl; rewrite ?lookup_delete_Some; try naive_solver.
  rewrite lookup_insert_Some. intros [[<- <-]|[_ ?]]; [right|by left]. eauto 10.
Qed.

Lemma trans_owned σ σ' : refs σ → owned σ → trans σ σ' → owned σ'.
Proof.
  intros Hr [Hu Hl Hs] Ht.
  assert (Hfresh : ∀ c pc, calls σ !! c = Some pc → call_on pc ≠ Some (length (ingresses σ))).
  { intros c pc Hc Hon. destruct (proj1 (refs_call _ Hr _ _ Hc) _ Hon) as [st Hst].
    apply lookup_lt_Some in Hst. lia. }
  split.
  - intros c c' pc pc' i Hc Hc' Hon Hon'.
    destruct (calls_origin _ _ _ _ _ Ht Hc Hon) as [(q & Hq & Hqon)|(Ei & ing & ts & E1 & E2 & E3)],
      (calls_origin _ _ _ _ _ Ht Hc' Hon') as [(q' & Hq' & Hqon')|(Ei' & ing' & ts' & E1' & E2' & E3')];
      [by eapply Hu| | |].
    + subst i. by destruct (Hfresh _ _ Hq Hqon).
    + subst i. by destruct (Hfresh _ _ Hq' Hqon').
    + rewrite E3 in Hc'. cell_inv Hc'; [done|]. simplify_eq.
  - intros c pc i st Hc Hon Hst. destruct (st_cancelled st) eqn:Ec; [|done]. exfalso.
    destruct (calls_origin _ _ _ _ _ Ht Hc Hon) as [(q & Hq & Hqon)|(Ei & ing & ts & E1 & E2 & E3)].
    + destruct (cancelled_origin _ _ _ _ Ht Hst Ec) as [(st0 & Hst0 & Hc0)|(k & Hk & _)].
      * pose proof (Hl _ _ _ _ Hq Hqon Hst0). congruence.
      * destruct (Hs _ _ Hk) as (_ & _ & _ & _ & Hno). by apply (Hno _ _ Hq).
    + subst. simpl in Hst. rewrite lookup_app_r, Nat.sub_diag in Hst by done. by simplify_eq/=.
  - intros k i Hk. destruct (states_origin _ _ _ _ Ht Hk) as [Hk0|(c & st & r & Hc & Hst & -> & ->)].
    + destruct (Hs _ _ Hk0) as (st & Hst & Hkey & Hca & Hno).
      destruct (g_ingress _ _ (trans_grows _ _ (refs_contexts _ Hr) Ht) _ _ Hst) as (st' & Hst' & _ & Hing & _).
      exists st'. split_and!; [done|unfold st_key in *; congruence|..].
      * destruct (st_cancelled st') eqn:Ec; [|done]. exfalso.
        destruct (cancelled_origin _ _ _ _ Ht Hst' Ec) as [(st0 & Hst0 & Hc0)|(k' & Hk' & E)]; [congruence|].
        destruct (Hs _ _ Hk') as (st0 & Hst0 & Hkey' & _). assert (k' = k) as -> by congruence.
        by rewrite E, lookup_delete_eq in Hk.
      * intros c pc Hc Hon. destruct (calls_origin _ _ _ _ _ Ht Hc Hon) as [(q & Hq & Hqon)|(Ei & _)].
        { by apply (Hno _ _ Hq). }
        apply lookup_lt_Some in Hst. lia.
    + exists st. simpl. split_and!; [done|done|by eapply Hl|].
      intros c' pc Hc'. cell_inv Hc'; [done|]. intros Hon. apply (Hu c c' _ _ i Hc Hc') in Hon; [|done]. congruence.
Qed.

(** ** The work queue *)

Definition busy (pc : item_pc) : bool :=
  match pc with INew | IQueued | IDone _ => false | _ => true end.
Definition waits (pc : item_pc) : bool :=
  match pc with IQueued | IRequeued => true | _ => false end.
Definition works (wi : workItem) : nat := if busy (wi_pc wi) then 1 else 0.

Definition pc_of σ it : option item_pc := wi_pc <$> items σ !! it.

Lemma pc_of_item σ it wi : items σ !! it = Some wi → pc_of σ it = Some (wi_pc wi).
Proof. unfold pc_of. by intros ->. Qed.

Lemma pc_of_put (l : list workItem) it wi pc j : l !! it = Some wi →
  wi_pc <$> <[it := set_pc pc wi]> l !! j = if decide (j = it) then Some pc else wi_pc <$> l !! j.
Proof.
  intros Hit. case_decide as E; [subst|by rewrite list_lookup_insert_ne].
  rewrite list_lookup_insert_eq; [done|by eapply lookup_lt_Some].
Qed.

(** The queue and the items agree on who holds what; a request is queued once. *)
Record queue_ok σ : Prop := {
  qo_ok : wq_ok (workQueue σ);
  qo_held it : it ∈ wq_held (workQueue σ) ↔ ∃ pc, pc_of σ it = Some pc ∧ busy pc = true;
  qo_count it : (wq_count (workQueue σ) it ≤ 1)%nat;
  qo_waits it : (0 < wq_count (workQueue σ) it)%nat → ∃ pc, pc_of σ it = Some pc ∧ waits pc = true;
  qo_requests it pc : pc_of σ it = Some pc → waits pc = true → wq_down (workQueue σ) = false →
    (0 < wq_count (workQueue σ) it)%nat;
  qo_todo c i todo rest : calls σ !! c = Some (RQueue i todo rest) → NoDup todo ∧
    ∀ it, it ∈ todo → ∃ wi, items σ !! it = Some wi ∧ wi_ingress wi = i ∧ wi_pc wi = INew
}.

Lemma queue_next σ c i it todo rest : queue_ok σ →
  calls σ !! c = Some (RQueue i (it :: todo) rest) → pc_of σ it = Some INew.
Proof.
  intros Hq Hc. destruct (proj2 (qo_todo _ Hq _ _ _ _ Hc) it) as (wi & Hwi & _ & Hpc); [left|].
  rewrite <- Hpc. by apply pc_of_item.
Qed.

Lemma queue_idle σ it : queue_ok σ → (∀ pc, pc_of σ it = Some pc → waits pc = false) →
  wq_count (workQueue σ) it = 0%nat.
Proof.
  intros Hq Hw. destruct (decide (0 < wq_count (workQueue σ) it)%nat) as [Hlt|]; [|lia].
  destruct (qo_waits _ Hq it Hlt) as (pc & Hpc & E). rewrite (Hw _ Hpc) in E. done.
Qed.

Lemma queue_get σ it q : queue_ok σ → wq_get (workQueue σ) = Some (Some it, q) →
  pc_of σ it = Some IQueued ∧ wq_count q it = 0%nat.
Proof.
  intros Hq Hg. destruct (wq_get_item _ _ _ (qo_ok _ Hq) Hg) as (_ & Hh & _ & _ & Hc & _).
  pose proof (qo_count _ Hq it). split; [|lia].
  destruct (qo_waits _ Hq it) as (pc & Hpc & Hw); [lia|].
  destruct pc; try done. exfalso. apply Hh, (qo_held _ Hq). eauto.
Qed.

(** An item that moves on without entering or leaving the queue or a worker. *)
Lemma queue_put σ it wi pc q : queue_ok σ → items σ !! it = Some wi →
  busy pc = busy (wi_pc wi) → waits pc = waits (wi_pc wi) → wi_pc wi ≠ INew →
  wq_ok q → wq_held q = wq_held (workQueue σ) → wq_down q = wq_down (workQueue σ) →
  (∀ j, wq_count q j = wq_count (workQueue σ) j) →
  queue_ok (put_item it (set_pc pc wi) (with_queue q σ)).
Proof.
  intros Hq Hit Hb Hw Hnew Hok Hh Hd Hc. pose proof (pc_of_item _ _ _ Hit) as Hpc.
  split; unfold pc_of; simpl; try setoid_rewrite pc_of_put; try done.
  - intros j. rewrite Hh, (qo_held _ Hq). unfold pc_of in *. case_decide; [subst|done]. rewrite Hpc.
    split; intros (pc' & [= <-] & ?); eexists; (split; [done|congruence]).
  - intros j. rewrite Hc. apply (qo_count _ Hq).
  - intros j. rewrite Hc. intros Hj. destruct (qo_waits _ Hq j Hj) as (pc' & Hj' & Hw').
    case_decide; [subst|by eauto]. exists pc. split; [done|]. congruence.
  - intros j pc' Hj Hw' Hdn. rewrite Hc. rewrite Hd in Hdn. case_decide; [simplify_eq|].
    + eapply (qo_requests _ Hq); [exact Hpc|congruence|done].
    + by eapply (qo_requests _ Hq).
  - intros c i todo rest Hca. destruct (qo_todo _ Hq _ _ _ _ Hca) as [Hn Ht]. split; [done|].
    intros j Hj. destruct (Ht j Hj) as (wj & Hwj & ? & ?). exists wj. split; [|done].
    rewrite list_lookup_insert_ne; [done|]. intros ->. congruence.
Qed.

Lemma queue_frame σ σ' : queue_ok σ → items σ' = items σ → workQueue σ' = workQueue σ →
  (∀ c i todo rest, calls σ' !! c = Some (RQueue i todo rest) →
     ∃ c' todo' rest', calls σ !! c' = Some (RQueue i todo' rest') ∧
       (NoDup todo' → NoDup todo) ∧ todo ⊆ todo') → queue_ok σ'.
Proof.
  intros [H1 H2 H3 H4 H5 H6] Hi Hq Hc. split; unfold pc_of in *; rewrite ?Hi, ?Hq; try done.
  intros c i todo rest Hca. destruct (Hc _ _ _ _ Hca) as (c' & todo' & rest' & Hc' & Hn & Hsub).
  destruct (H6 _ _ _ _ Hc') as [Hn' Ht]. split; [auto|]. intros it Hit. apply Ht. set_solver.
Qed.

(** Only the queue changes, and keeps its promise. *)
Lemma queue_turn σ q : queue_ok σ → wq_ok q → wq_held q = wq_held (workQueue σ) →
  (wq_down q = false → wq_down (workQueue σ) = false) →
  (∀ j, (wq_count q j ≤ wq_count (workQueue σ) j)%nat) →
  (∀ j, (0 < wq_count (workQueue σ) j → 0 < wq_count q j)%nat) → queue_ok (with_queue q σ).
Proof.
  intros [H1 H2 H3 H4 H5 H6] Hok Hh Hd Hle Hpos. split; simpl; try done.
  - by rewrite Hh.
  - intros j. specialize (Hle j). specialize (H3 j). lia.
  - intros j Hj. apply H4. specialize (Hle j). lia.
  - intros j pc Hj Hw Hdn. apply Hpos. eapply H5; eauto.
Qed.

(** A request is added for the item [it], which had none. *)
Lemma queue_add σ it wi pc q : queue_ok σ → items σ !! it = Some wi →
  waits (wi_pc wi) = false → busy pc = busy (wi_pc wi) → waits pc = true →
  wq_ok q ∧ wq_held q = wq_held (workQueue σ) ∧ wq_down q = wq_down (workQueue σ) ∧
  (∀ y, y ≠ it → wq_count q y = wq_count (workQueue σ) y) ∧
  (wq_count q it ≤ S (wq_count (workQueue σ) it))%nat ∧
  (wq_down (workQueue σ) = false → (0 < wq_count q it)%nat) →
  (∀ c i todo rest, calls σ !! c = Some (RQueue i todo rest) → it ∉ todo) →
  queue_ok (put_item it (set_pc pc wi) (with_queue q σ)).
Proof.
  intros Hq Hit Hw Hb Hw' (Hok & Hh & Hd & Hne & Hle & Hpos) Htodo.
  pose proof (pc_of_item _ _ _ Hit) as Hpc.
  assert (wq_count (workQueue σ) it = 0%nat) as H0.
  { eapply queue_idle; [done|]. intros pc'. rewrite Hpc. naive_solver. }
  split; unfold pc_of in *; simpl; try setoid_rewrite pc_of_put; try done.
  - intros j. rewrite Hh, (qo_held _ Hq). unfold pc_of. case_decide; [subst|done]. rewrite Hpc.
    split; intros (pc' & [= <-] & ?); eexists; (split; [done|congruence]).
  - intros j. destruct (decide (j = it)) as [->|]; [lia|]. rewrite Hne by done. apply (qo_count _ Hq).
  - intros j Hj. case_decide; [by eauto|]. rewrite Hne in Hj by done. by apply (qo_waits _ Hq).
  - intros j pc' Hj Hwj Hdn. rewrite Hd in Hdn. case_decide; [simplify_eq; by apply Hpos|].
    rewrite Hne by done. by eapply (qo_requests _ Hq).
  - intros c i todo rest Hca. destruct (qo_todo _ Hq _ _ _ _ Hca) as [Hn Ht]. split; [done|].
    intros j Hj. destruct (Ht j Hj) as (wj & Hwj & ?). exists wj. split; [|done].
    rewrite list_lookup_insert_ne; [done|]. intros ->. by apply (Htodo _ _ _ _ Hca).
Qed.

Lemma queue_get_ok σ it wi q : queue_ok σ → wq_get (workQueue σ) = Some (Some it, q) →
  items σ !! it = Some wi → queue_ok (put_item it (set_pc IProbing wi) (with_queue q σ)).
Proof.
  intros Hq Hg Hit. destruct (queue_get _ _ _ Hq Hg) as [Hpc H0].
  destruct (wq_get_item _ _ _ (qo_ok _ Hq) Hg) as (Hok & Hh & Hh' & Hd & Hc & Hne).
  split; unfold pc_of in *; simpl; try setoid_rewrite pc_of_put; try done.
  - intros j. rewrite Hh', elem_of_union, elem_of_singleton, (qo_held _ Hq). unfold pc_of.
    case_decide; [subst|]; naive_solver.
  - intros j. destruct (decide (j = it)) as [->|]; [lia|]. rewrite Hne by done. apply (qo_count _ Hq).
  - intros j Hj. case_decide; [subst; lia|]. rewrite Hne in Hj by done. by apply (qo_waits _ Hq).
  - intros j pc' Hj Hwj Hdn. rewrite Hd in Hdn. case_decide; [by simplify_eq|].
    rewrite Hne by done. by eapply (qo_requests _ Hq).
  - intros c i todo rest Hca. destruct (qo_todo _ Hq _ _ _ _ Hca) as [Hn Ht]. split; [done|].
    intros j Hj. destruct (Ht j Hj) as (wj & Hwj & ? & Hnew). exists wj. split; [|done].
    rewrite list_lookup_insert_ne; [done|]. intros ->. rewrite Hwj in Hpc. simpl in Hpc. congruence.
Qed.

Lemma queue_done_ok σ it wi pc : queue_ok σ → items σ !! it = Some wi → busy (wi_pc wi) = true →
  busy pc = false → waits pc = waits (wi_pc wi) → pc ≠ INew →
  queue_ok (put_item it (set_pc pc wi) (with_queue (wq_done it (workQueue σ)) σ)).
Proof.
  intros Hq Hit Hb Hb' Hw Hnew. pose proof (pc_of_item _ _ _ Hit) as Hpc.
  destruct (wq_done_spec (workQueue σ) it (qo_ok _ Hq)) as (Hok & Hh & Hd & Hc); [apply (qo_held _ Hq); eauto|].
  split; unfold pc_of in *; simpl; try setoid_rewrite pc_of_put; try done.
  - intros j. rewrite Hh, elem_of_difference, elem_of_singleton, (qo_held _ Hq). unfold pc_of.
    case_decide; [subst|naive_solver]. split; [naive_solver|]. intros (? & [= <-] & ?). congruence.
  - intros j. rewrite Hc. apply (qo_count _ Hq).
  - intros j. rewrite Hc. intros Hj. destruct (qo_waits _ Hq j Hj) as (pc' & Hj' & Hw').
    case_decide; [subst|by eauto]. exists pc. split; [done|]. unfold pc_of in *. congruence.
  - intros j pc' Hj Hw' Hdn. rewrite Hc. rewrite Hd in Hdn. case_decide; [simplify_eq|].
    + eapply (qo_requests _ Hq); [exact Hpc|congruence|done].
    + by eapply (qo_requests _ Hq).
  - intros c i todo rest Hca. destruct (qo_todo _ Hq _ _ _ _ Hca) as [Hn Ht]. split; [done|].
    intros j Hj. destruct (Ht j Hj) as (wj & Hwj & ? & Hn'). exists wj. split; [|done].
    rewrite list_lookup_insert_ne; [done|]. intros ->. simplify_eq. by rewrite Hn' in Hb.
Qed.

Lemma queue_pod_ok σ c i ip urls cx rest : refs σ → queue_ok σ →
  calls σ !! c = Some (RPod i ip urls cx rest) → queue_ok (IsReady_pod c i ip urls cx rest σ).
Proof.
  intros Hr Hq Hc.
  assert (Hpc : ∀ j, pc_of (IsReady_pod c i ip urls cx rest σ) j =
    if decide (length (items σ) ≤ j < length (items σ) + length urls)%nat then Some INew else pc_of σ j).
  { intros j. unfold pc_of. simpl. case_decide as E.
    - rewrite lookup_app_r, list_lookup_fmap by lia.
      destruct (urls !! (j - length (items σ))%nat) eqn:Eu; [done|]. apply lookup_ge_None in Eu. lia.
    - destruct (decide (j < length (items σ))%nat); [by rewrite lookup_app_l|].
      rewrite (lookup_ge_None_2 (items σ)) by lia.
      rewrite lookup_ge_None_2; [done|]. rewrite length_app, length_fmap. lia. }
  assert (Hnone : ∀ j, (length (items σ) ≤ j)%nat → pc_of σ j = None).
  { intros j Hj. unfold pc_of. by rewrite lookup_ge_None_2. }
  destruct Hq as [H1 H2 H3 H4 H5 H6]. split; try setoid_rewrite Hpc; simpl; try done.
  - intros j. rewrite H2. case_decide; [|done]. rewrite Hnone by lia. split; [naive_solver|].
    by intros (? & [= <-] & ?).
  - intros j Hj. destruct (H4 j Hj) as (pc & Hj' & Hw). case_decide; [|by eauto].
    by rewrite Hnone in Hj' by lia.
  - intros j pc Hj Hw. case_decide; [by simplify_eq|by eapply H5].
  - intros c' i' todo rest' Hc'. cell_inv Hc'.
    + split; [apply NoDup_seq|]. intros j [??]%elem_of_seq.
      destruct (urls !! (j - length (items σ))%nat) as [u|] eqn:Eu.
      2: { apply lookup_ge_None in Eu. lia. }
      eexists. rewrite lookup_app_r, list_lookup_fmap, Eu by lia. by split_and!.
    + destruct (H6 _ _ _ _ Hc') as [Hn Ht]. split; [done|]. intros j Hj.
      destruct (Ht j Hj) as (wj & Hwj & ?). exists wj. split; [by apply lookup_app_l_Some|done].
Qed.

Lemma queue_queue_ok σ c i it todo rest wi q : owned σ → queue_ok σ →
  calls σ !! c = Some (RQueue i (it :: todo) rest) → items σ !! it = Some wi →
  wq_add_after it initialDelay (workQueue σ) = Some q →
  queue_ok (put_call c (RQueue i todo rest) (put_item it (set_pc IQueued wi) (with_queue q σ))).
Proof.
  intros Ho Hq Hc Hit Ha. pose proof (queue_next _ _ _ _ _ _ Hq Hc) as Hnew.
  rewrite (pc_of_item _ _ _ Hit) in Hnew. injection Hnew as Hnew.
  change (queue_ok (put_item it (set_pc IQueued wi) (with_queue q (put_call c (RQueue i todo rest) σ)))).
  eapply queue_add; simpl; [|done|by rewrite Hnew..|done|exact (wq_add_after_spec _ _ _ _ (qo_ok _ Hq) Ha)|].
  - eapply queue_frame; [done..|]. intros c' i' todo' rest' Hc'. cell_inv Hc'.
    + eexists _, _, _. split_and!; [exact Hc|by intros [_ ?]%NoDup_cons|set_solver].
    + by exists c', todo', rest'.
  - intros c' i' todo' rest' Hc' Hin. destruct (qo_todo _ Hq _ _ _ _ Hc) as [[Hn _]%NoDup_cons Ht].
    cell_inv Hc'; [done|].
    destruct (Ht it) as (w1 & ? & ? & _); [left|].
    destruct (proj2 (qo_todo _ Hq _ _ _ _ Hc') it Hin) as (w2 & ? & ? & _). simplify_eq.
    by pose proof (own_unique _ Ho _ _ _ _ _ Hc Hc' eq_refl eq_refl).
Qed.

Lemma trans_queue σ σ' : refs σ → owned σ → queue_ok σ → trans σ σ' → queue_ok σ'.
Proof.
  intros Hr Ho Hq Ht. pose proof (qo_ok _ Hq) as Hok. destruct Ht.
  all: try (eapply queue_frame; [exact Hq|unfold IsReady_list; destruct_reply; done..|];
    unfold IsReady_list; destruct_reply; intros ???? Hk; cell_inv Hk; by eauto 10).
  all: try (pose proof (wq_forget_spec (workQueue σ) it Hok) as (Hf1 & Hf2 & Hf3 & Hf4)).
  all: try (match goal with |- queue_ok (put_item ?it (set_pc ?pc ?wi) _) =>
      eapply (queue_frame (put_item it (set_pc pc wi) (with_queue (workQueue σ) σ))) end;
      [eapply queue_put; try done; try case_match; try (by rewrite H0); congruence|done..|by eauto 10]).
  all: try (eapply queue_put; try done; try case_match; try (by rewrite H0); congruence).
  - by apply queue_pod_ok.
  - by apply queue_queue_ok.
  - eapply queue_frame; [by eapply queue_get_ok|done..|]; by eauto 10.
  - destruct (wq_get_shutdown _ _ Hok H0) as [_ ->]. eapply queue_frame; [exact Hq|done..|by eauto 10].
  - eapply queue_add; [done..|by rewrite H0|by rewrite H0|done| |].
    + exact (wq_add_rate_limited_spec _ _ _ _ Hok H1).
    + intros c i todo rest Hc Hin. destruct (proj2 (qo_todo _ Hq _ _ _ _ Hc) it Hin) as (? & ? & _ & ?). congruence.
  - eapply queue_frame; [eapply (queue_done_ok σ it wi IQueued); try done; by rewrite H0|done..|by eauto 10].
  - eapply queue_frame; [eapply (queue_done_ok σ it wi (IDone reply)); try done; by rewrite H0|done..|by eauto 10].
  - destruct (wq_tick_spec _ _ _ Hok H) as (? & ? & Hd & Hc).
    eapply queue_turn; [done..|by rewrite Hd|apply Hc|apply Hc].
  - destruct (wq_shut_down_spec _ Hok) as (? & ? & Hd & Hc).
    eapply queue_turn; [done..|by rewrite Hd| |]; intros j; rewrite Hc; lia.
Qed.
(** ** The counter of a pod *)

(** The item was subtracted from the counter of its pod. *)
Definition decremented (pc : item_pc) : bool :=
  match pc with
  | IPodCancel _ | IIngressAdd _ | ICallback _ | IFinished (Some _) | IDone (Some _) => true
  | _ => false
  end.
Definition live p (wi : workItem) : nat :=
  if (wi_pod wi =? p)%nat && negb (decremented (wi_pc wi)) then 1 else 0.
Definition gone p (wi : workItem) : nat :=
  if (wi_pod wi =? p)%nat && decremented (wi_pc wi) then 1 else 0.

(** The cancellation took the counter away. *)
Definition swapped (c : canceller) : bool :=
  match c with CAdd | CCallback | CReturn true => true | _ => false end.

Definition pod_count σ p (ps : podState) : Prop :=
  if swapped (ps_canceller ps)
  then ps_pendingCount ps ≤ 0 ∧ - Z.of_nat (sum_list_with (gone p) (items σ)) ≤ ps_pendingCount ps
  else ps_pendingCount ps = Z.of_nat (sum_list_with (live p) (items σ)).

Definition counts_ok σ : Prop :=
  (∀ p ps, pods σ !! p = Some ps → pod_count σ p ps) ∧
  (∀ p ps, pods σ !! p = Some ps →
     match ps_canceller ps with CCas n => 0 < n | CReturn false => ps_pendingCount ps ≤ 0 | _ => True end).

Lemma counts_cas σ p ps n : counts_ok σ → pods σ !! p = Some ps → ps_canceller ps = CCas n → 0 < n.
Proof. intros [_ Hc] Hp E. specialize (Hc _ _ Hp). by rewrite E in Hc. Qed.

(** Equations for the sums over an updated heap. *)
Ltac sums :=
  rewrite ?sum_list_with_app in *;
  repeat match goal with
  | Hk : ?l !! ?k = Some ?x |- context [sum_list_with ?f (<[?k := ?y]> ?l)] =>
      let E := fresh "E" in pose proof (sum_insert f l k x y Hk) as E;
      let s := fresh "s" in set (s := sum_list_with f (<[k := y]> l)) in *; clearbody s
  end.

Lemma sum_live_new p i ip q (urls : list ((string * string) * string)) :
  sum_list_with (live p) ((λ u, {| wi_ingress := i; wi_pod := q; wi_url := u.1; wi_podIP := ip;
     wi_podPort := u.2; wi_pc := INew |}) <$> urls) = if (q =? p)%nat then length urls else 0%nat.
Proof.
  induction urls as [|u urls IH]; csimpl; [by destruct (q =? p)%nat|]. rewrite IH. unfold live. simpl.
  by destruct (q =? p)%nat.
Qed.
Lemma sum_gone_new p i ip q (urls : list ((string * string) * string)) :
  sum_list_with (gone p) ((λ u, {| wi_ingress := i; wi_pod := q; wi_url := u.1; wi_podIP := ip;
     wi_podPort := u.2; wi_pc := INew |}) <$> urls) = 0%nat.
Proof. induction urls as [|u urls IH]; csimpl; [done|]. rewrite IH. unfold gone. simpl. by rewrite andb_false_r. Qed.

Lemma no_items_yet σ p : refs σ → pods σ !! p = None → sum_list_with (live p) (items σ) = 0%nat.
Proof.
  intros Hr Hp. apply sum_zero. intros k wi Hk. unfold live.
  destruct (Nat.eqb_spec (wi_pod wi) p) as [E|]; [|done].
  destruct (refs_item _ Hr _ _ Hk) as (ps & Hps & _). congruence.
Qed.


(** What an item was doing when it is queued for the first time or handed to a worker. *)
Lemma queue_pc σ c i it todo rest wi : queue_ok σ →
  calls σ !! c = Some (RQueue i (it :: todo) rest) → items σ !! it = Some wi → wi_pc wi = INew.
Proof.
  intros Hq Hc Hi. pose proof (queue_next _ _ _ _ _ _ Hq Hc) as E.
  rewrite (pc_of_item _ _ _ Hi) in E. by injection E.
Qed.
Lemma get_pc σ it wi q : queue_ok σ →
  wq_get (workQueue σ) = Some (Some it, q) → items σ !! it = Some wi → wi_pc wi = IQueued.
Proof.
  intros Hq Hc Hi. destruct (queue_get _ _ _ Hq Hc) as [E _].
  rewrite (pc_of_item _ _ _ Hi) in E. by injection E.
Qed.

(** Add what the queue knows about the item at hand. *)
Ltac known_pc Hq :=
  try match goal with
  | Hc : calls ?σ !! _ = Some (RQueue _ (?it :: _) _), Hi : items ?σ !! ?it = Some _ |- _ =>
      pose proof (queue_pc _ _ _ _ _ _ _ Hq Hc Hi)
  | Hc : wq_get (workQueue ?σ) = Some (Some ?it, _), Hi : items ?σ !! ?it = Some _ |- _ =>
      pose proof (get_pc _ _ _ _ Hq Hc Hi)
  end.

(** Compute the weights of an item whose program counter is known. *)
Ltac weigh :=
  unfold live, gone in *; simpl in *;
  repeat match goal with
  | H : wi_pc _ = _ |- _ => rewrite H in *
  | H : ps_canceller _ = _ |- _ => rewrite H in *
  | |- context [if ?n <=? 0 then _ else _] => destruct (Z.leb_spec n 0)
  | _ : context [if ?n =? 0 then _ else _] |- _ => destruct (Z.eqb_spec n 0)
  | |- context [if ?n =? 0 then _ else _] => destruct (Z.eqb_spec n 0)
  end; simpl in *;
  rewrite ?andb_false_r, ?andb_true_r, ?Nat.eqb_refl in *; simpl in *.

Lemma trans_counts σ σ' : refs σ → queue_ok σ → counts_ok σ → trans σ σ' → counts_ok σ'.
Proof.
  intros Hr Hq [Hc Hcas] Ht. split.
  - intros p ps Hp. unfold pod_count. destruct Ht; unfold IsReady_list in *; destruct_reply;
      try exact (Hc p ps Hp); known_pc Hq; cell_inv Hp; simpl; sums;
      rewrite ?sum_live_new, ?sum_gone_new, ?Nat.eqb_refl.
    2: { rewrite no_items_yet; [done..|]. by apply lookup_ge_None_2. }
    all: match goal with Hp : pods _ !! _ = Some _ |- _ => pose proof (Hc _ _ Hp) as Hpc; unfold pod_count in Hpc end.
    all: try exact Hpc.
    { apply lookup_lt_Some in Hp. destruct (Nat.eqb_spec (length (pods σ)) p); [lia|]. by rewrite !Nat.add_0_r. }
    all: weigh; try lia.
    all: repeat case_match; simpl in *; rewrite ?Nat.eqb_eq, ?Nat.eqb_neq in *; lia.
  - intros p ps Hp. destruct Ht; unfold IsReady_list in *; destruct_reply; cell_inv Hp; simplify_eq/=;
      try (by eapply Hcas); try done.
    all: try (match goal with Hk : pods _ !! _ = Some _ |- _ => pose proof (Hcas _ _ Hk) as Hc' end;
      repeat case_match; simplify_eq/=; try done; lia).
Qed.

(** ** Why a pod no longer counts

    Its counter reached zero by successful probes, or its context was cancelled: the pod
    went away, or the KIngress changed. *)

Definition cause σ (ps : podState) : Prop :=
  (∃ cx, contexts σ !! ps_ctx ps = Some cx ∧ cx_cancelled cx = true) ∨
  (∃ st, ingresses σ !! ps_ingress ps = Some st ∧ st_cancelled st = true).
Definition settled (ps : podState) : Prop :=
  swapped (ps_canceller ps) = false ∧ ps_pendingCount ps = 0.

Definition zeroed (pc : item_pc) : bool :=
  match pc with IPodCancel _ | IIngressAdd _ => true | _ => false end.
Definition dropped (pc : item_pc) : bool :=
  match pc with IFinished None | IDone None => true | _ => false end.
(** The reply on which the item was decided. *)
Definition verdict (pc : item_pc) : option (goerr + Response) :=
  match pc with
  | IPodAdd r | IPodCancel r | IIngressAdd r | ICallback r => Some r
  | IFinished r | IDone r => r
  | _ => None
  end.

Record outcomes_ok σ : Prop := {
  oc_swapped p ps : pods σ !! p = Some ps → swapped (ps_canceller ps) = true → cause σ ps;
  oc_done p ps : pods σ !! p = Some ps → ps_done ps = true → settled ps ∨ cause σ ps;
  oc_woken p ps : pods σ !! p = Some ps → ps_canceller ps ≠ CWait → ps_done ps = true;
  oc_zeroed it wi : items σ !! it = Some wi → zeroed (wi_pc wi) = true →
    ∃ ps, pods σ !! wi_pod wi = Some ps ∧ settled ps;
  oc_dropped it wi : items σ !! it = Some wi → dropped (wi_pc wi) = true →
    ∃ ps, pods σ !! wi_pod wi = Some ps ∧ ps_done ps = true;
  oc_verdict it wi r : items σ !! it = Some wi → verdict (wi_pc wi) = Some r →
    ∃ st, ingresses σ !! wi_ingress wi = Some st ∧ accepted (st_hash st) r = true
}.

Lemma cause_grows σ σ' ps ps' : grows σ σ' → ps_ctx ps' = ps_ctx ps → ps_ingress ps' = ps_ingress ps →
  cause σ ps → cause σ' ps'.
Proof.
  unfold cause. intros Hg -> -> [(cx & Hcx & Hc)|(st & Hst & Hc)]; [left|right].
  - destruct (g_context _ _ Hg _ _ Hcx) as (cx' & ? & _ & ?). eauto.
  - destruct (g_ingress _ _ Hg _ _ Hst) as (st' & ? & _ & _ & _ & ?). eauto.
Qed.

Lemma live_item σ it wi : items σ !! it = Some wi → decremented (wi_pc wi) = false →
  (0 < sum_list_with (live (wi_pod wi)) (items σ))%nat.
Proof.
  intros Hi Hd. pose proof (sum_elem (live (wi_pod wi)) _ _ _ Hi) as Hs.
  unfold live in Hs at 1. rewrite Nat.eqb_refl, Hd in Hs. simpl in Hs. lia.
Qed.

Lemma settled_stable σ σ' p ps ps' : counts_ok σ → trans σ σ' →
  pods σ !! p = Some ps → pods σ' !! p = Some ps' → settled ps → settled ps'.
Proof.
  intros [Hc Hcas] Ht Hp Hp' [Hs Hn]. pose proof (Hc _ _ Hp) as Hpc. unfold pod_count in Hpc. rewrite Hs in Hpc.
  destruct Ht; unfold IsReady_list in *; destruct_reply; cell_inv Hp'; simplify_eq/=; try done;
    try (split; simpl; [repeat case_match; congruence|done]).
  - match goal with Hk : pods σ !! _ = Some _ |- _ => apply lookup_lt_Some in Hk end. lia.
  - pose proof (live_item _ _ _ H) as Hl. rewrite H0 in Hl. specialize (Hl eq_refl). lia.
  - split; simpl; [|done]. by destruct (_ <=? _).
  - match goal with Hk : pods σ !! _ = Some _ |- _ => pose proof (Hcas _ _ Hk) as Hn0 end. rewrite H0 in Hn0. lia.
  - rewrite H0 in Hs. done.
  - rewrite H0 in Hs. done.
Qed.

Lemma done_origin σ σ' p ps' : trans σ σ' → pods σ' !! p = Some ps' → ps_done ps' = true →
  ∃ ps, pods σ !! p = Some ps ∧ ps_ctx ps' = ps_ctx ps ∧ ps_ingress ps' = ps_ingress ps ∧
    (ps_done ps = true ∨ cause σ ps ∨
     ∃ it wi, items σ !! it = Some wi ∧ zeroed (wi_pc wi) = true ∧ wi_pod wi = p).
Proof.
  destruct 1; unfold IsReady_list in *; destruct_reply; intros Hk Hd; cell_inv Hk; simplify_eq/=;
    try (eexists; split_and!; [eassumption|done|done|by left]).
  - eexists. split_and!; [done..|]. right; right. exists it, wi. by rewrite H0.
  - eexists. split_and!; [done..|]. destruct H1; [by left|right; left; left; eauto].
  - eexists. split_and!; [done..|]. right; left; right; eauto.
Qed.

Lemma swapped_origin σ σ' p ps' : trans σ σ' → pods σ' !! p = Some ps' → swapped (ps_canceller ps') = true →
  ∃ ps, pods σ !! p = Some ps ∧ ps_ctx ps' = ps_ctx ps ∧ ps_ingress ps' = ps_ingress ps ∧
    (swapped (ps_canceller ps) = true ∨ ps_canceller ps = CCas (ps_pendingCount ps)).
Proof.
  destruct 1; unfold IsReady_list in *; destruct_reply; intros Hk Hd; cell_inv Hk; simplify_eq/=;
    try (eexists; split_and!; [eassumption|done|done|by left]).
  - by destruct (_ <=? _).
  - eexists. split_and!; [done..|]. by right.
  - eexists. split_and!; [done..|]. left. by rewrite H0.
  - eexists. split_and!; [done..|]. left. by rewrite H0.
Qed.

Lemma zeroed_origin σ σ' it wi' : queue_ok σ → counts_ok σ → trans σ σ' →
  items σ' !! it = Some wi' → zeroed (wi_pc wi') = true →
  (∃ wi, items σ !! it = Some wi ∧ wi_pod wi' = wi_pod wi ∧ zeroed (wi_pc wi) = true) ∨
  ∃ ps, pods σ' !! wi_pod wi' = Some ps ∧ settled ps.
Proof.
  intros Hq [Hc _]. destruct 1; unfold IsReady_list in *; destruct_reply; intros Hk Hz; known_pc Hq; cell_inv Hk;
    simplify_eq/=; try (left; eexists; split_and!; [eassumption|done|done]);
    try (left; eexists; split_and!; [eassumption|done|by match goal with E : wi_pc _ = _ |- _ => rewrite E end]).
  - apply lookup_app_Some in Hk as [Hk|[_ Hk]]; [left; by eexists|].
    rewrite list_lookup_fmap in Hk. apply fmap_Some in Hk as (u & _ & ->). done.
  - right. destruct (Z.eqb_spec (ps_pendingCount ps - 1) 0) as [E|]; [|done].
    eexists. split; [apply list_lookup_insert_eq; by eapply lookup_lt_Some|].
    split; simpl; [|done]. specialize (Hc _ _ H1). unfold pod_count in Hc.
    destruct (swapped _); [lia|done].
Qed.

Lemma dropped_origin σ σ' it wi' : queue_ok σ → trans σ σ' →
  items σ' !! it = Some wi' → dropped (wi_pc wi') = true →
  ∃ wi, items σ !! it = Some wi ∧ wi_pod wi' = wi_pod wi ∧
    (dropped (wi_pc wi) = true ∨ ∃ ps, pods σ !! wi_pod wi = Some ps ∧ ps_done ps = true).
Proof.
  intros Hq. destruct 1; unfold IsReady_list in *; destruct_reply; intros Hk Hz; known_pc Hq; cell_inv Hk;
    simplify_eq/=; try (eexists; split_and!; [eassumption|done|by left]);
    try (eexists; split_and!; [eassumption|done|left; by match goal with E : wi_pc _ = _ |- _ => rewrite E end]).
  - apply lookup_app_Some in Hk as [Hk|[_ Hk]]; [by eauto|].
    rewrite list_lookup_fmap in Hk. apply fmap_Some in Hk as (u & _ & ->). done.
  - eauto 10.
  - by destruct (_ =? _).
  - by destruct (_ =? _).
Qed.

Lemma verdict_origin σ σ' it wi' r : queue_ok σ → trans σ σ' →
  items σ' !! it = Some wi' → verdict (wi_pc wi') = Some r →
  ∃ wi, items σ !! it = Some wi ∧ wi_ingress wi' = wi_ingress wi ∧
    (verdict (wi_pc wi) = Some r ∨ ∃ st, ingresses σ !! wi_ingress wi = Some st ∧ accepted (st_hash st) r = true).
Proof.
  intros Hq. destruct 1; unfold IsReady_list in *; destruct_reply; intros Hk Hz; known_pc Hq; cell_inv Hk;
    simplify_eq/=; try (eexists; split_and!; [eassumption|done|by left]);
    try (eexists; split_and!; [eassumption|done|left; by match goal with E : wi_pc _ = _ |- _ => rewrite E end]).
  - apply lookup_app_Some in Hk as [Hk|[_ Hk]]; [by eauto|].
    rewrite list_lookup_fmap in Hk. apply fmap_Some in Hk as (u & _ & ->). done.
  - eauto 10.
  - eexists; split_and!; [done..|]. left. rewrite H0. by destruct (_ =? _).
  - eexists; split_and!; [done..|]. left. rewrite H0. by destruct (_ =? _).
Qed.

Lemma trans_outcomes σ σ' : refs σ → queue_ok σ → counts_ok σ → outcomes_ok σ → trans σ σ' → outcomes_ok σ'.
Proof.
  intros Hr Hq Hc [Hsw Hdo Hwo Hze Hdr Hve] Ht. pose proof (trans_grows _ _ (refs_contexts _ Hr) Ht) as Hg.
  split.
  - intros p ps' Hp Hs. destruct (swapped_origin _ _ _ _ Ht Hp Hs) as (ps & Hps & E1 & E2 & [Hs'|Hcas]).
    + eapply cause_grows; eauto.
    + destruct (Hdo p ps Hps) as [[_ Hn]|]; [|exfalso|by eapply cause_grows].
      * apply (Hwo p); [done|]. by rewrite Hcas.
      * pose proof (counts_cas _ _ _ _ Hc Hps Hcas). lia.
  - intros p ps' Hp Hd. destruct (done_origin _ _ _ _ Ht Hp Hd) as (ps & Hps & E1 & E2 & [Hd'|[?|(it & wi & Hi & Hz & Ep)]]).
    + destruct (Hdo p ps Hps Hd') as [?|?]; [left; by eapply settled_stable|right; by eapply cause_grows].
    + right. by eapply cause_grows.
    + left. destruct (Hze _ _ Hi Hz) as (ps0 & Hps0 & ?). simplify_eq. by eapply settled_stable.
  - intros p ps' Hp. clear Hsw Hdo Hze Hdr Hve.
    destruct Ht; unfold IsReady_list in *; destruct_reply; cell_inv Hp; simplify_eq/=; try done;
      try (by eapply Hwo); intros _; (eapply Hwo; [eassumption|]);
      match goal with E : ps_canceller _ = _ |- _ => by rewrite E end.
  - intros it wi' Hi Hz. destruct (zeroed_origin _ _ _ _ Hq Hc Ht Hi Hz) as [(wi & Hi0 & E & Hz0)|]; [|done].
    destruct (Hze _ _ Hi0 Hz0) as (ps & Hps & Hse). destruct (g_pod _ _ Hg _ _ Hps) as (ps' & Hps' & _).
    exists ps'. rewrite E. split; [done|]. by eapply settled_stable.
  - intros it wi' Hi Hd. destruct (dropped_origin _ _ _ _ Hq Ht Hi Hd) as (wi & Hi0 & E & Ho).
    assert (∃ ps, pods σ !! wi_pod wi = Some ps ∧ ps_done ps = true) as (ps & Hps & Hd')
      by (destruct Ho; [by eapply Hdr|done]).
    destruct (g_pod _ _ Hg _ _ Hps) as (ps' & Hps' & _ & _ & _ & Hdd). exists ps'. rewrite E. auto.
  - intros it wi' r Hi Hv. destruct (verdict_origin _ _ _ _ _ Hq Ht Hi Hv) as (wi & Hi0 & E & Ho).
    assert (∃ st, ingresses σ !! wi_ingress wi = Some st ∧ accepted (st_hash st) r = true) as (st & Hst & Ha)
      by (destruct Ho; [by eapply Hve|done]).
    destruct (g_ingress _ _ Hg _ _ Hst) as (st' & Hst' & Hh & _). exists st'. rewrite E. split; [done|]. by rewrite Hh.
Qed.

(** ** The counter of a KIngress *)

Definition nonempty (rest : probes) : Prop := map_Forall (λ _ urls, urls ≠ []) rest.

Lemma workItems_nonempty targets : nonempty (workItems targets).
Proof.
  Transparent workItems. unfold workItems. Opaque workItems.
  assert (Hgen : ∀ (m : probes), nonempty m → nonempty (foldl (λ m target,
    foldl (λ m ip,
      foldl (λ (m : probes) url, <[ip := default [] (m !! ip) ++ [(url, pt_pod_port target)]]> m)
        m (pt_urls target))
      m (elements (pt_pod_ips target))) m targets)); [|by apply Hgen].
  induction targets as [|t targets IH]; [done|]. intros m Hm. simpl. apply IH. clear IH.
  revert m Hm. induction (elements (pt_pod_ips t)) as [|ip ips IH]; [done|]. intros m Hm. simpl. apply IH. clear IH.
  revert m Hm. induction (pt_urls t) as [|u us IH]; [done|]. intros m Hm. simpl. apply IH.
  apply map_Forall_insert_2; [|done]. by destruct (default [] (m !! ip)).
Qed.

Definition calls_ok σ : Prop := ∀ c pc, calls σ !! c = Some pc →
  match pc with
  | RLoop _ rest | RQueue _ _ rest => nonempty rest
  | RPod _ _ urls _ rest => urls ≠ [] ∧ nonempty rest
  | _ => True
  end.

Lemma trans_calls σ σ' : calls_ok σ → trans σ σ' → calls_ok σ'.
Proof.
  intros Hc Ht c pc Hpc. destruct Ht; unfold IsReady_list in *; destruct_reply; cell_inv Hpc; try exact (Hc _ _ Hpc);
    try done.
  - apply workItems_nonempty.
  - specialize (Hc _ _ H). simpl in Hc. split; [by eapply Hc|by apply map_Forall_delete].
  - specialize (Hc _ _ H). simpl in Hc. split; [by eapply Hc|by apply map_Forall_delete].
  - by apply (Hc _ _ H).
  - exact (Hc _ _ H).
  - exact (Hc _ _ H).
Qed.

(** Who still has to subtract one from the counter of the state [i]. *)
Definition pod_owes i (ps : podState) : nat :=
  if (ps_ingress ps =? i)%nat &&
     ((0 <? ps_pendingCount ps) || match ps_canceller ps with CAdd => true | _ => false end)
  then 1 else 0.
Definition item_owes i (wi : workItem) : nat :=
  if (wi_ingress wi =? i)%nat && zeroed (wi_pc wi) then 1 else 0.
Definition call_owes i (pc : call) : nat :=
  match pc with
  | RLoop j rest | RQueue j _ rest => if (j =? i)%nat then size rest else 0
  | RPod j _ _ _ rest => if (j =? i)%nat then S (size rest) else 0
  | _ => 0
  end.
Definition owes σ i : nat :=
  sum_list_with (pod_owes i) (pods σ) + sum_list_with (item_owes i) (items σ) +
  sum_list_with (call_owes i) (calls σ).

(** The calls of [readyCallback] for the state [i], made or about to be made. *)
Definition pod_rings i (ps : podState) : nat :=
  if (ps_ingress ps =? i)%nat && match ps_canceller ps with CCallback => true | _ => false end then 1 else 0.
Definition item_rings i (wi : workItem) : nat :=
  if (wi_ingress wi =? i)%nat && match wi_pc wi with ICallback _ => true | _ => false end then 1 else 0.
Definition rings σ i : nat :=
  sum_list_with (λ j, if (j =? i)%nat then 1%nat else 0%nat) (callbacks σ) +
  sum_list_with (pod_rings i) (pods σ) + sum_list_with (item_rings i) (items σ).

Definition ingress_ok σ i (st : ingressState) : Prop :=
  st_pendingCount st = Z.of_nat (owes σ i) ∧
  st_pendingCount st ≤ Z.of_nat (size (workItems (st_targets st))) ∧
  rings σ i = if (st_pendingCount st =? 0) && negb (size (workItems (st_targets st)) =? 0)%nat
              then 1%nat else 0%nat.
Definition ingresses_ok σ : Prop := ∀ i st, ingresses σ !! i = Some st → ingress_ok σ i st.

(** Nothing refers to a state that does not exist yet. *)
Lemma fresh_ingress σ : refs σ → (∀ j, j ∈ callbacks σ → ∃ st, ingresses σ !! j = Some st) →
  owes σ (length (ingresses σ)) = 0%nat ∧ rings σ (length (ingresses σ)) = 0%nat.
Proof.
  intros Hr Hcb.
  assert (Hn : ∀ i st, ingresses σ !! i = Some st → (i =? length (ingresses σ))%nat = false).
  { intros i st Hi%lookup_lt_Some. apply Nat.eqb_neq. lia. }
  assert (Hpod : ∀ k ps, pods σ !! k = Some ps → (ps_ingress ps =? length (ingresses σ))%nat = false).
  { intros k ps Hk. destruct (refs_pod _ Hr _ _ Hk) as [[st Hst] _]. by eapply Hn. }
  assert (Hitem : ∀ k wi, items σ !! k = Some wi → (wi_ingress wi =? length (ingresses σ))%nat = false).
  { intros k wi Hk. destruct (refs_item _ Hr _ _ Hk) as (ps & Hps & <- & _). by eapply Hpod. }
  unfold owes, rings. rewrite !sum_zero; [done|..].
  - intros k wi Hk. unfold item_rings. by rewrite (Hitem _ _ Hk).
  - intros k ps Hk. unfold pod_rings. by rewrite (Hpod _ _ Hk).
  - intros k j Hk. destruct (Hcb j) as [st Hst]; [by eapply list_elem_of_lookup_2|]. by rewrite (Hn _ _ Hst).
  - intros k pc Hk. destruct (refs_call _ Hr _ _ Hk) as [Hon _].
    destruct pc; simpl; try done; (destruct (Hon _ eq_refl) as [st Hst]; by rewrite (Hn _ _ Hst)).
  - intros k wi Hk. unfold item_owes. by rewrite (Hitem _ _ Hk).
  - intros k ps Hk. unfold pod_owes. by rewrite (Hpod _ _ Hk).
Qed.

Definition callbacks_ok σ : Prop := ∀ j, j ∈ callbacks σ → ∃ st, ingresses σ !! j = Some st.

Lemma trans_callbacks σ σ' : refs σ → callbacks_ok σ → trans σ σ' → callbacks_ok σ'.
Proof.
  intros Hr Hc Ht j Hj. pose proof (trans_grows _ _ (refs_contexts _ Hr) Ht) as Hg.
  assert (∃ st, ingresses σ !! j = Some st) as [st Hst].
  { destruct Ht; unfold IsReady_list in *; destruct_reply; try exact (Hc j Hj); simpl in Hj;
      apply elem_of_app in Hj as [?| ->%list_elem_of_singleton]; auto.
    - destruct (refs_item _ Hr _ _ H) as (ps & Hps & <- & _). by apply (refs_pod _ Hr _ _ Hps).
    - by apply (refs_pod _ Hr _ _ H). }
  destruct (g_ingress _ _ Hg _ _ Hst) as (st' & ? & _). eauto.
Qed.

Lemma sum_owes_new i j ip q (urls : list ((string * string) * string)) :
  sum_list_with (item_owes i) ((λ u, {| wi_ingress := j; wi_pod := q; wi_url := u.1; wi_podIP := ip;
     wi_podPort := u.2; wi_pc := INew |}) <$> urls) = 0%nat ∧
  sum_list_with (item_rings i) ((λ u, {| wi_ingress := j; wi_pod := q; wi_url := u.1; wi_podIP := ip;
     wi_podPort := u.2; wi_pc := INew |}) <$> urls) = 0%nat.
Proof.
  induction urls as [|u urls [IH1 IH2]]; csimpl; [done|]. rewrite IH1, IH2. unfold item_owes, item_rings. simpl.
  by rewrite !andb_false_r.
Qed.

Ltac weights :=
  simpl in *; unfold pod_owes, item_owes, pod_rings, item_rings in *; simpl in *;
  repeat match goal with
  | H : wi_pc _ = _ |- _ => rewrite H in *
  | H : ps_canceller _ = _ |- _ => rewrite H in *
  end; simpl in *;
  rewrite ?andb_false_r, ?andb_true_r, ?orb_false_r, ?orb_true_r, ?Nat.eqb_refl in *; simpl in *.

(** Case analysis on every comparison that is left. *)
Ltac compare_cases :=
  repeat match goal with
  | |- context [(?a =? ?b)%nat] => destruct (Nat.eqb_spec a b)
  | _ : context [(?a =? ?b)%nat] |- _ => destruct (Nat.eqb_spec a b)
  | |- context [?a =? ?b] => destruct (Z.eqb_spec a b)
  | _ : context [?a =? ?b] |- _ => destruct (Z.eqb_spec a b)
  | |- context [?a <? ?b] => destruct (Z.ltb_spec a b)
  | _ : context [?a <? ?b] |- _ => destruct (Z.ltb_spec a b)
  | |- context [?a <=? ?b] => destruct (Z.leb_spec a b)
  | _ : context [?a <=? ?b] |- _ => destruct (Z.leb_spec a b)
  end; simpl in *; rewrite ?andb_false_r, ?andb_true_r, ?orb_false_r, ?orb_true_r in *; simpl in *.

Lemma size_delete_entry {A} (m : gmap string A) k x :
  m !! k = Some x → size m = S (size (delete k m)).
Proof.
  intros Hk. rewrite map_size_delete_Some by eauto.
  assert (size m ≠ 0%nat); [|lia]. intros E%map_size_empty_inv. by rewrite E, lookup_empty in Hk.
Qed.

(** A pod that is counted is not about to be counted off by its cancellation. *)
Lemma counted_not_cancelled σ p ps : counts_ok σ → pods σ !! p = Some ps → 0 < ps_pendingCount ps →
  match ps_canceller ps with CAdd => true | _ => false end = false.
Proof.
  intros [Hc _] Hp Hn. specialize (Hc _ _ Hp). unfold pod_count in Hc.
  destruct (ps_canceller ps); simpl in Hc; try done. lia.
Qed.

Lemma cancelled_not_counted σ p ps : counts_ok σ → pods σ !! p = Some ps →
  ps_canceller ps = CAdd → ps_pendingCount ps ≤ 0.
Proof. intros [Hc _] Hp E. specialize (Hc _ _ Hp). unfold pod_count in Hc. rewrite E in Hc. simpl in Hc. lia. Qed.

(** Name the sums that are left. *)
Ltac abstract_sums :=
  repeat match goal with
  | |- context [sum_list_with ?f ?l] => let s := fresh "s" in set (s := sum_list_with f l) in *; clearbody s
  | _ : context [sum_list_with ?f ?l] |- _ => let s := fresh "s" in set (s := sum_list_with f l) in *; clearbody s
  end.

Lemma trans_ingresses σ σ' : refs σ → queue_ok σ → counts_ok σ → calls_ok σ → callbacks_ok σ →
  ingresses_ok σ → trans σ σ' → ingresses_ok σ'.
Proof.
  intros Hr Hq Hc Hca Hcb Hi Ht i st' Hst'. unfold ingress_ok, owes, rings.
  pose proof (fresh_ingress _ Hr Hcb) as [Hf1 Hf2]. unfold owes, rings in Hf1, Hf2.
  destruct Ht; unfold IsReady_list, IsReady_pod in *; destruct_reply; try exact (Hi i st' Hst'); known_pc Hq;
    cell_inv Hst'; simpl; sums; rewrite ?(proj1 (sum_owes_new _ _ _ _ _)), ?(proj2 (sum_owes_new _ _ _ _ _)).
  all: try match goal with Hk : ingresses _ !! _ = Some _ |- _ =>
    pose proof (Hi _ _ Hk) as (Hp & Hle & Hring); pose proof (lookup_lt_Some _ _ _ Hk);
    unfold owes, rings in Hp, Hring end.
  all: try match goal with Hk : ?m !! _ = Some _ |- _ =>
    match type of m with probes => pose proof (size_delete_entry _ _ _ Hk) end end.
  all: try match goal with Hk : calls _ !! _ = Some (RPod _ _ ?urls _ _) |- _ =>
    destruct urls; [by destruct (proj1 (Hca _ _ Hk))|] end.
  all: try match goal with Hk : wi_pc ?wi = IPodAdd _, H1 : items _ !! _ = Some ?wi, H2 : pods _ !! _ = Some ?ps |- _ =>
    destruct (refs_item _ Hr _ _ H1) as (? & ? & Hing & _); simplify_eq;
    destruct (decide (0 < ps_pendingCount ps)) as [Hpos|];
      [pose proof (counted_not_cancelled _ _ _ Hc H2 Hpos) as Hnc|] end.
  all: try match goal with Hk : ps_canceller _ = CCas _, H1 : pods _ !! _ = Some _ |- _ =>
    pose proof (counts_cas _ _ _ _ Hc H1 Hk) end.
  all: try match goal with Hk : ps_canceller _ = CAdd, H1 : pods _ !! _ = Some _ |- _ =>
    pose proof (cancelled_not_counted _ _ _ Hc H1 Hk) end.
  all: pose proof (eq_refl : size (∅ : probes) = 0%nat); simpl; abstract_sums; weights.
  all: try (split_and!; [lia|lia|repeat case_match; lia]).
  all: try rewrite Hnc in *; compare_cases; subst; try (split_and!; lia).
  all: repeat case_match; simplify_eq/=; split_and!; lia.
Qed.
End Facts.
