(* ===== verification/ProberFacts.v ===== *)
(** * What the status prober guarantees

    The invariants of [ProberInv] together hold in every reachable state; from them follow the
    theorems on readiness, on the callback, and on progress. *)

From S2P Require Import Prelude Meta Ingress NetIngress HTTPProxy ProbeTargets Events Workqueue Prober ProberInv.
Local Open Scope Z_scope.
#[local] Opaque ComputeHash workItems.

Section Facts.
Context {Q : Type} `{!WorkQueue nat Q}.
Implicit Types (σ : Prober Q) (i p it c : nat).

(** ** Every probe is there *)

Definition ip_pending σ i ip (urls : list ((string * string) * string)) : Prop :=
  ∃ c pc, calls σ !! c = Some pc ∧ call_on pc = Some i ∧
  match pc with
  | RLoop _ rest | RQueue _ _ rest => rest !! ip = Some urls
  | RPod _ ip' urls' _ rest => ip' = ip ∧ urls' = urls ∨ rest !! ip = Some urls
  | _ => False
  end.
Definition probe_item σ i ip (u : (string * string) * string) it : Prop :=
  ∃ wi, items σ !! it = Some wi ∧ wi_ingress wi = i ∧ wi_podIP wi = ip ∧ (wi_url wi, wi_podPort wi) = u.

Definition complete σ : Prop := ∀ i st ip urls, ingresses σ !! i = Some st →
  workItems (st_targets st) !! ip = Some urls →
  ip_pending σ i ip urls ∨ ∀ u, u ∈ urls → ∃ it, probe_item σ i ip u it.

Lemma probe_item_grows σ σ' i ip u it : grows σ σ' → probe_item σ i ip u it → probe_item σ' i ip u it.
Proof.
  intros Hg (wi & Hwi & E1 & E2 & E3). destruct (g_item _ _ Hg _ _ Hwi) as (wi' & Hwi' & F1 & _ & F2 & F3 & F4).
  exists wi'. split_and!; congruence.
Qed.

(** The loop of a call keeps the IPs it has not come to, and makes the items of the others. *)
Lemma ip_pending_step σ σ' i ip urls : trans σ σ' → ip_pending σ i ip urls →
  ip_pending σ' i ip urls ∨ ∀ u, u ∈ urls → ∃ it, probe_item σ' i ip u it.
Proof.
  intros Ht (c & pc & Hc & Hon & Hpc). assert (Hlt := lookup_lt_Some _ _ _ Hc).
  assert (Hsame : calls σ' !! c = Some pc → ip_pending σ' i ip urls) by (intros; by exists c, pc).
  destruct Ht; unfold IsReady_list in *; destruct_reply; try (left; by apply Hsame).
  all: match goal with
    | |- context [put_call ?c' _ _] => destruct (decide (c = c')) as [->|Hne];
        [|left; apply Hsame; simpl; by rewrite list_lookup_insert_ne]
    | |- context [IsReady_pod ?c' _ _ _ _ _ _] => destruct (decide (c = c')) as [->|Hne];
        [|left; apply Hsame; simpl; by rewrite list_lookup_insert_ne]
    | _ => left; apply Hsame; simpl; by apply lookup_app_l_Some
    end; simplify_eq/=.
  all: try (left; eexists _, _; split_and!; [simpl; by apply list_lookup_insert_eq|done|done]).
  - left. eexists _, _. split_and!; [simpl; by apply list_lookup_insert_eq|done|]. simpl.
    destruct (decide (ip0 = ip)) as [->|]; [left; split; congruence|right; by rewrite lookup_delete_ne].
  - left. eexists _, _. split_and!; [simpl; by apply list_lookup_insert_eq|done|]. simpl.
    destruct (decide (ip0 = ip)) as [->|]; [left; split; congruence|right; by rewrite lookup_delete_ne].
  - destruct Hpc as [[-> ->]|Hrest].
    + right. intros u [k Hk]%list_elem_of_lookup. exists (length (items σ) + k)%nat. eexists. simpl.
      rewrite lookup_app_r, Nat.add_comm, Nat.add_sub, list_lookup_fmap, Hk by lia.
      split_and!; [done..|by destruct u].
    + left. eexists _, _. split_and!; [simpl; by apply list_lookup_insert_eq|done|done].
Qed.

Lemma trans_complete σ σ' : refs σ → complete σ → trans σ σ' → complete σ'.
Proof.
  intros Hr Hc Ht i st' ip urls Hst' Hu. pose proof (trans_grows _ _ (refs_contexts _ Hr) Ht) as Hg.
  destruct (ingresses_origin _ _ _ _ Ht Hst') as [(st & Hst & _ & _ & E & _)|(-> & c & Hcall & ->)].
  - rewrite E in Hu. destruct (Hc _ _ _ _ Hst Hu) as [Hp|Hp].
    + by apply (ip_pending_step _ _ _ _ _ Ht).
    + right. intros u Hin. destruct (Hp u Hin) as [it Hit]. exists it. by eapply probe_item_grows.
  - left. eexists c, _. simpl. rewrite list_lookup_insert_eq by (by eapply lookup_lt_Some). by split_and!.
Qed.

(** Every IP and URL of a target is among the probes. *)
Lemma workItems_spec targets t ip url : t ∈ targets → ip ∈ pt_pod_ips t → url ∈ pt_urls t →
  ∃ urls, workItems targets !! ip = Some urls ∧ (url, pt_pod_port t) ∈ urls.
Proof.
  Transparent workItems. unfold workItems. Opaque workItems. intros Ht Hip Hurl.
  pose (has := λ (m : probes), ∃ urls, m !! ip = Some urls ∧ (url, pt_pod_port t) ∈ urls).
  assert (Hins : ∀ (m : probes) k x, has m → has (<[k := default [] (m !! k) ++ [x]]> m)).
  { intros m k x (urls & Hm & Hin). destruct (decide (k = ip)) as [->|].
    - eexists. rewrite lookup_insert_eq, Hm. split; [done|]. simpl. set_solver.
    - exists urls. by rewrite lookup_insert_ne. }
  assert (H1 : ∀ k port us (m : probes), has m →
    has (foldl (λ (m : probes) url, <[k := default [] (m !! k) ++ [(url, port)]]> m) m us)).
  { intros k port us. induction us as [|u us IH]; simpl; auto. }
  assert (H2 : ∀ t' ips (m : probes), has m → has (foldl (λ m ip,
      foldl (λ (m : probes) url, <[ip := default [] (m !! ip) ++ [(url, pt_pod_port t')]]> m) m (pt_urls t')) m ips)).
  { intros t' ips. induction ips as [|k ips IH]; simpl; auto. }
  change (has (foldl (λ m target,
    foldl (λ m ip,
      foldl (λ (m : probes) url, <[ip := default [] (m !! ip) ++ [(url, pt_pod_port target)]]> m)
        m (pt_urls target))
      m (elements (pt_pod_ips target)))
    ∅ targets)).
  generalize (∅ : probes). induction Ht as [t'|? t' ? Ht IH]; intros m; simpl; [|by apply IH].
  assert (Hfold : ∀ ts (m : probes), has m → has (foldl (λ m target,
    foldl (λ m ip,
      foldl (λ (m : probes) url, <[ip := default [] (m !! ip) ++ [(url, pt_pod_port target)]]> m)
        m (pt_urls target)) m (elements (pt_pod_ips target))) m ts)).
  { intros ts. induction ts as [|t1 ts IHts]; simpl; auto. }
  apply Hfold. clear Hfold. apply elem_of_elements in Hip. revert m.
  induction Hip as [?|? ? ? Hip IH]; intros m; simpl; [|by apply IH].
  apply H2. clear H2. revert m.
  induction Hurl as [?|? ? ? Hurl IH]; intros m; simpl; [|by apply IH].
  apply H1. eexists. rewrite lookup_insert_eq. split; [done|set_solver].
Qed.

(** ** Workers *)

Record workers_ok σ : Prop := {
  wo_number : (idle σ + exited σ + sum_list_with works (items σ) = probeConcurrency)%nat;
  wo_exited : wq_down (workQueue σ) = false → exited σ = 0%nat;
  wo_new it wi : items σ !! it = Some wi → wi_pc wi = INew →
    ∃ c todo rest, calls σ !! c = Some (RQueue (wi_ingress wi) todo rest) ∧ it ∈ todo
}.

Lemma sum_works_new i ip q (urls : list ((string * string) * string)) :
  sum_list_with works ((λ u, {| wi_ingress := i; wi_pod := q; wi_url := u.1; wi_podIP := ip;
     wi_podPort := u.2; wi_pc := INew |}) <$> urls) = 0%nat.
Proof. by induction urls as [|u urls IH]; csimpl. Qed.

Lemma workers_number σ σ' : queue_ok σ → workers_ok σ → trans σ σ' →
  (idle σ' + exited σ' + sum_list_with works (items σ') = probeConcurrency)%nat.
Proof.
  intros Hq [Hn _ _] Ht.
  destruct Ht; unfold IsReady_list, IsReady_pod; destruct_reply; simpl; try exact Hn;
    rewrite ?sum_list_with_app, ?sum_works_new; try lia;
    try match goal with
    | Hc : calls σ !! _ = Some (RQueue _ (?it :: _) _), Hi : items σ !! ?it = Some _ |- _ =>
        pose proof (queue_pc _ _ _ _ _ _ _ Hq Hc Hi)
    | Hc : wq_get (workQueue σ) = Some (Some ?it, _), Hi : items σ !! ?it = Some _ |- _ =>
        pose proof (get_pc _ _ _ _ Hq Hc Hi)
    end;
    match goal with Hi : items σ !! ?it = Some ?wi |- context [<[?it := ?wi']> _] =>
      pose proof (sum_insert works _ _ _ wi' Hi) as E end;
    unfold works in E at 2 4; simpl in E;
    match goal with Hpc : wi_pc ?wi = _ |- _ => rewrite Hpc in E end; simpl in E;
    repeat case_match; simpl in *; lia.
Qed.

Lemma workers_exited σ σ' : queue_ok σ → workers_ok σ → trans σ σ' →
  wq_down (workQueue σ') = false → exited σ' = 0%nat.
Proof.
  intros Hq [_ He _] Ht. pose proof (qo_ok _ Hq) as Hok.
  assert (wq_down (workQueue σ') = false → wq_down (workQueue σ) = false ∧ (exited σ' = exited σ)) as Hd.
  { destruct Ht; unfold IsReady_list; destruct_reply; simpl; try done.
    - by destruct (wq_add_after_spec _ _ _ _ Hok H1) as (_ & _ & -> & _).
    - by destruct (wq_get_item _ _ _ Hok H0) as (_ & _ & _ & -> & _).
    - destruct (wq_get_shutdown _ _ Hok H0) as [Hdn ->]. congruence.
    - by destruct (wq_forget_spec _ it Hok) as (_ & _ & -> & _).
    - by destruct (wq_forget_spec _ it Hok) as (_ & _ & -> & _).
    - by destruct (wq_add_rate_limited_spec _ _ _ _ Hok H1) as (_ & _ & -> & _).
    - destruct (wq_done_spec _ it Hok) as (_ & _ & -> & _); [|done].
      apply (qo_held _ Hq). exists (wi_pc wi). split; [by apply pc_of_item|by rewrite H0].
    - destruct (wq_done_spec _ it Hok) as (_ & _ & -> & _); [|done].
      apply (qo_held _ Hq). exists (wi_pc wi). split; [by apply pc_of_item|by rewrite H0].
    - by destruct (wq_tick_spec _ _ _ Hok H) as (_ & _ & -> & _).
    - destruct (wq_shut_down_spec _ Hok) as (_ & _ & Hdn & _). congruence. }
  intros H'. destruct (Hd H') as [H0 ->]. auto.
Qed.

Lemma todo_kept σ σ' c i todo rest it : trans σ σ' → calls σ !! c = Some (RQueue i todo rest) → it ∈ todo →
  (∃ todo' rest', calls σ' !! c = Some (RQueue i todo' rest') ∧ it ∈ todo') ∨
  (∃ wi, items σ' !! it = Some (set_pc IQueued wi)).
Proof.
  intros Ht Hc Hin. assert (Hlt := lookup_lt_Some _ _ _ Hc).
  assert (Hsame : calls σ' !! c = Some (RQueue i todo rest) →
    ∃ todo' rest', calls σ' !! c = Some (RQueue i todo' rest') ∧ it ∈ todo') by eauto.
  destruct Ht; unfold IsReady_list, IsReady_pod in *; destruct_reply; try (left; by apply Hsame).
  all: try (left; apply Hsame; simpl; by apply lookup_app_l_Some).
  all: try (left; apply Hsame; simpl; rewrite list_lookup_insert_ne; [done|]; congruence).
  - destruct (decide (c = c0)) as [->|Hne];
      [|left; apply Hsame; simpl; by rewrite list_lookup_insert_ne].
    simplify_eq. apply elem_of_cons in Hin as [->|Hin].
    + right. exists wi. simpl. apply list_lookup_insert_eq. by eapply lookup_lt_Some.
    + left. eexists _, _. simpl. by rewrite list_lookup_insert_eq.
  - destruct (decide (c = c0)) as [->|Hne];
      [|left; apply Hsame; simpl; by rewrite list_lookup_insert_ne].
    simplify_eq. by apply elem_of_nil in Hin.
Qed.

Lemma new_before σ σ' it wi wi' : trans σ σ' → items σ !! it = Some wi → items σ' !! it = Some wi' →
  wi_pc wi' = INew → wi_pc wi = INew.
Proof.
  intros Ht Hi Hi' Hpc. destruct Ht; unfold IsReady_list, IsReady_pod in *; destruct_reply; simpl in Hi';
    try congruence; try (cell_inv Hi'; simplify_eq/=; try done; repeat case_match; congruence).
  rewrite lookup_app_l in Hi' by (by eapply lookup_lt_Some). congruence.
Qed.

Lemma workers_new σ σ' it wi' : workers_ok σ → trans σ σ' → items σ' !! it = Some wi' → wi_pc wi' = INew →
  ∃ c todo rest, calls σ' !! c = Some (RQueue (wi_ingress wi') todo rest) ∧ it ∈ todo.
Proof.
  intros Hw Ht Hi Hpc. destruct (items_origin _ _ _ _ Ht Hi)
    as [(wi & Hwi & E & _)|(c & cx & urls & rest & Hc & Hr & _ & _ & _ & ->)].
  - pose proof (new_before _ _ _ _ _ Ht Hwi Hi Hpc) as Hnew.
    destruct (wo_new _ Hw _ _ Hwi Hnew) as (c & todo & rest & Hc & Hin). rewrite E.
    destruct (todo_kept _ _ _ _ _ _ _ Ht Hc Hin) as [|[w Hw']]; [by eauto|]. simplify_eq.
  - eexists c, _, _. simpl. rewrite list_lookup_insert_eq by (by eapply lookup_lt_Some).
    split; [done|]. apply elem_of_seq. lia.
Qed.

(** ** All of it *)

Record inv σ : Prop := {
  inv_refs : refs σ;
  inv_owned : owned σ;
  inv_queue : queue_ok σ;
  inv_counts : counts_ok σ;
  inv_outcomes : outcomes_ok σ;
  inv_calls : calls_ok σ;
  inv_callbacks : callbacks_ok σ;
  inv_ingresses : ingresses_ok σ;
  inv_complete : complete σ;
  inv_workers : workers_ok σ
}.

Lemma inv_step σ σ' : inv σ → step σ σ' → inv σ'.
Proof.
  intros [H1 H2 H3 H4 H5 H6 H7 H8 H9 H10] Ht%step_trans. split.
  - by eapply trans_refs.
  - by eapply trans_owned.
  - by eapply trans_queue.
  - by eapply trans_counts.
  - by eapply trans_outcomes.
  - by eapply trans_calls.
  - by eapply trans_callbacks.
  - by eapply trans_ingresses.
  - by eapply trans_complete.
  - split; [by eapply workers_number|by eapply workers_exited|intros; by eapply workers_new].
Qed.

(** A queue nothing was added to. *)
Definition fresh_queue (q : Q) : Prop :=
  wq_ok q ∧ wq_held q = ∅ ∧ wq_down q = false ∧ ∀ x, wq_count q x = 0%nat.

Lemma inv_init q : fresh_queue q → inv (NewProber q).
Proof.
  intros (Hok & Hh & Hd & Hc). split.
  - split; [split|..]; done.
  - split; done.
  - split; unfold pc_of; simpl; try done.
    + intros it. rewrite Hh. split; [set_solver|naive_solver].
    + intros it. rewrite Hc. lia.
    + intros it. rewrite Hc. lia.
  - split; done.
  - split; done.
  - done.
  - intros j Hj. by apply elem_of_nil in Hj.
  - done.
  - done.
  - split; done.
Qed.

Definition reachable σ : Prop := ∃ q, fresh_queue q ∧ rtc step (NewProber q) σ.

Lemma reachable_inv σ : reachable σ → inv σ.
Proof.
  intros (q & Hq & Hs). assert (inv (NewProber q)) as Hi by by apply inv_init.
  clear Hq. induction Hs as [|? ? ? Hst Hs IH]; [done|]. apply IH. by eapply inv_step.
Qed.

(** ** Readiness *)

(** The answer [r] does not contradict that Envoy serves the version [hash]. *)
Definition serves (hash : string) (r : Response) : Prop :=
  StatusCode r ≠ StatusNotFound ∧ StatusCode r ≠ StatusServiceUnavailable ∧
  (StatusCode r = StatusOK → HashHeader r = "" ∨ HashHeader r = hash).

Lemma accepted_spec hash reply : accepted hash reply = true ↔ ∃ r, reply = inr r ∧ serves hash r.
Proof.
  unfold accepted, Do, probeVerifier. destruct reply as [e|r]; [naive_solver|].
  trans (serves hash r); [|naive_solver]. unfold serves, StatusOK, StatusNotFound, StatusServiceUnavailable.
  destruct (Z.eqb_spec (StatusCode r) 200), (Z.eqb_spec (StatusCode r) 404), (Z.eqb_spec (StatusCode r) 503),
    (String.eqb_spec (HashHeader r) ""), (String.eqb_spec (HashHeader r) hash); simpl; try lia; intuition congruence.
Qed.

Lemma decremented_verdict pc : decremented pc = true → ∃ r, verdict pc = Some r.
Proof. destruct pc as [| | | | | | | | | |[r|]|[r|]]; simpl; naive_solver. Qed.

(** A probe of a state that no call works on and that owes nothing was answered well, or
    its pod is gone. *)
Lemma owes_nothing σ i st it wi : inv σ → ingresses σ !! i = Some st → st_cancelled st = false →
  owes σ i = 0%nat → items σ !! it = Some wi → wi_ingress wi = i →
  (∃ r, verdict (wi_pc wi) = Some (inr r) ∧ serves (st_hash st) r) ∨ wi_podIP wi ∈ deletedPods σ.
Proof.
  intros [Hr _ _ [Hc _] Ho _ _ _ _ _] Hst Hca Hz Hit Ei. unfold owes in Hz.
  destruct (refs_item _ Hr _ _ Hit) as (ps & Hps & Epi & Eip).
  destruct (refs_pod _ Hr _ _ Hps) as [_ (cx & Hcx & Ecx)].
  pose proof (sum_elem (pod_owes i) _ _ _ Hps) as Hpo. unfold pod_owes in Hpo at 1.
  rewrite Epi, Ei, Nat.eqb_refl in Hpo. simpl in Hpo.
  destruct (Z.ltb_spec 0 (ps_pendingCount ps)) as [|Hle]; [simpl in Hpo; lia|].
  specialize (Hc _ _ Hps). unfold pod_count in Hc. destruct (swapped (ps_canceller ps)) eqn:Esw.
  - right. destruct (oc_swapped _ Ho _ _ Hps Esw) as [(cx' & Hcx' & Hcc)|(st' & Hst' & Hcc)].
    + simplify_eq. rewrite <- Eip, <- Ecx. by apply (proj2 (refs_contexts _ Hr) (ps_ctx ps)).
    + congruence.
  - left. destruct (decremented (wi_pc wi)) eqn:Ed.
    + destruct (decremented_verdict _ Ed) as [r Hv].
      destruct (oc_verdict _ Ho _ _ _ Hit Hv) as (st' & Hst' & (r' & -> & Hs)%accepted_spec).
      rewrite Ei, Hst in Hst'. simplify_eq. eauto.
    + pose proof (live_item _ _ _ Hit Ed). lia.
Qed.

Lemma ready_probes σ σ' key hash :
  reachable σ → IsReady_cached key hash σ = (σ', Some true) →
  ∃ i st, ingressStates σ !! key = Some i ∧ ingresses σ !! i = Some st ∧
    st_key st = key ∧ st_hash st = hash ∧
    ∀ t ip url, t ∈ st_targets st → ip ∈ pt_pod_ips t → url ∈ pt_urls t →
      ip ∈ deletedPods σ ∨
      ∃ it wi r, items σ !! it = Some wi ∧ wi_ingress wi = i ∧ wi_podIP wi = ip ∧ wi_url wi = url ∧
        wi_podPort wi = pt_pod_port t ∧ verdict (wi_pc wi) = Some (inr r) ∧ serves hash r.
Proof.
  intros Hinv%reachable_inv. unfold IsReady_cached.
  destruct (ingressStates σ !! key) as [i|] eqn:Ek; [|done].
  destruct (ingresses σ !! i) as [st|] eqn:Ei; [|done].
  destruct (String.eqb_spec (st_hash st) hash) as [Eh|]; [|done].
  intros [= _ Hz]. exists i, st.
  destruct (own_states _ (inv_owned _ Hinv) _ _ Ek) as (st' & Hst' & Hkey & Hca & Hno). simplify_eq.
  split_and!; [done..|]. intros t ip url Ht Hip Hurl.
  destruct (workItems_spec _ _ _ _ Ht Hip Hurl) as (urls & Hw & Hin).
  destruct (inv_complete _ Hinv _ _ _ _ Ei Hw) as [(c & pc & Hc & Hon & _)|Hall].
  { by destruct (Hno _ _ Hc). }
  destruct (Hall _ Hin) as (it & wi & Hit & E1 & E2 & [= E3 E4]).
  destruct (inv_ingresses _ Hinv _ _ Ei) as (Hp & _). apply Z.eqb_eq in Hz.
  destruct (owes_nothing σ i st it wi) as [(r & Hv & Hs)|Hd]; [done..|lia|done|done| |].
  - right. exists it, wi, r. by split_and!.
  - left. congruence.
Qed.

(** C11: [IsReady] answers from what it knows that a KIngress is ready only if it knows this
    very version of it, and every URL of every probe target was answered, on every pod, in a
    way that does not contradict that Envoy serves the version, unless the pod is gone. *)
Theorem IsReady_sound σ σ' key hash :
  reachable σ → IsReady_cached key hash σ = (σ', Some true) →
  ∃ i st, ingressStates σ !! key = Some i ∧ ingresses σ !! i = Some st ∧
    st_key st = key ∧ st_hash st = hash ∧
    ∀ t ip url, t ∈ st_targets st → ip ∈ pt_pod_ips t → url ∈ pt_urls t →
      ip ∈ deletedPods σ ∨
      ∃ it wi r, items σ !! it = Some wi ∧ wi_ingress wi = i ∧ wi_podIP wi = ip ∧ wi_url wi = url ∧
        wi_podPort wi = pt_pod_port t ∧ verdict (wi_pc wi) = Some (inr r) ∧ serves hash r.
Proof. apply ready_probes. Qed.

Lemma sum_count (i : nat) l : (sum_list_with (λ j, if (j =? i)%nat then 1%nat else 0%nat) l = 0)%nat → i ∉ l.
Proof.
  intros Hs Hin. apply list_elem_of_lookup in Hin as [k Hk].
  pose proof (sum_elem (λ j, if (j =? i)%nat then 1%nat else 0%nat) _ _ _ Hk) as Hle. simpl in Hle.
  rewrite Nat.eqb_refl in Hle. lia.
Qed.

(** C12: In every reachable state the counter of a KIngress is between zero and the number of
    its pods; the ready callback is called at most once per version, only after the counter
    reached zero, and once it has, it was called or some goroutine is about to call it. *)
Theorem readyCallback_exactly_once σ i st :
  reachable σ → ingresses σ !! i = Some st →
  0 ≤ st_pendingCount st ≤ Z.of_nat (size (workItems (st_targets st))) ∧
  (length (filter (i =.) (callbacks σ)) ≤ 1)%nat ∧
  (i ∈ callbacks σ → st_pendingCount st = 0) ∧
  (st_pendingCount st = 0 → workItems (st_targets st) ≠ ∅ →
     i ∈ callbacks σ ∨
     (∃ it wi r, items σ !! it = Some wi ∧ wi_ingress wi = i ∧ wi_pc wi = ICallback r) ∨
     (∃ p ps, pods σ !! p = Some ps ∧ ps_ingress ps = i ∧ ps_canceller ps = CCallback)).
Proof.
  intros Hinv%reachable_inv Hst. destruct (inv_ingresses _ Hinv _ _ Hst) as (Hp & Hle & Hr).
  unfold rings in Hr.
  assert (Hlen : ∀ l, length (filter (i =.) l) = sum_list_with (λ j, if (j =? i)%nat then 1%nat else 0%nat) l).
  { intros l. induction l as [|j l IH]; [done|]. rewrite filter_cons. simpl.
    destruct (Nat.eqb_spec j i); case_decide; simpl; congruence || lia. }
  split_and!.
  - lia.
  - lia.
  - rewrite Hlen. repeat case_match; lia.
  - intros Hin. destruct (Z.eqb_spec (st_pendingCount st) 0); [done|]. simpl in Hr. exfalso.
    by apply (sum_count i (callbacks σ)); [lia|].
  - intros Hz Hne. rewrite Hz in Hr. simpl in Hr.
    destruct (Nat.eqb_spec (size (workItems (st_targets st))) 0) as [E|_].
    { by apply map_size_empty_inv in E. }
    simpl in Hr. destruct (decide (i ∈ callbacks σ)) as [|Hnin]; [by left|right].
    rewrite (sum_zero _ (callbacks σ)) in Hr.
    2: { intros k j Hk. destruct (Nat.eqb_spec j i) as [->|]; [|done]. by apply list_elem_of_lookup_2 in Hk. }
    destruct (decide (0 < sum_list_with (item_rings i) (items σ))%nat) as [Hpos|].
    + left. apply sum_pos in Hpos as (it & wi & Hit & Hw). unfold item_rings in Hw. exists it, wi.
      destruct (Nat.eqb_spec (wi_ingress wi) i), (wi_pc wi) eqn:?; simpl in Hw; try lia. by eexists.
    + right. destruct (sum_pos (pod_rings i) (pods σ)) as (p & ps & Hps & Hw); [lia|]. exists p, ps.
      unfold pod_rings in Hw. destruct (Nat.eqb_spec (ps_ingress ps) i), (ps_canceller ps) eqn:?; simpl in Hw; try lia. done.
Qed.
End Facts.
