(* ===== verification/ProberLive.v ===== *)
(** * Progress of the status prober

    The prober never gets stuck: from every reachable state in which its queue is up there is
    a continuation, with probes answered well, in which all counters reach zero and all ready
    callbacks are made.  A measure decreases along it: what the running calls, the work
    items and the goroutines of the pods still have to do. *)

From S2P Require Import Prelude Meta Ingress NetIngress HTTPProxy ProbeTargets Events Workqueue Prober ProberInv ProberFacts.
#[local] Opaque ComputeHash workItems.

Section Progress.
Context {Q : Type} `{!WorkQueue nat Q}.
Implicit Types (σ : Prober Q) (i p it c : nat).

(** ** The measure *)

Definition rest_weight (rest : probes) : nat :=
  map_fold (λ _ urls n, 12 + 40 * length urls + n) 0 rest.

Definition call_weight (pc : call) : nat :=
  match pc with
  | RLoop _ rest => 1 + rest_weight rest
  | RPod _ _ urls _ rest => 11 + 40 * length urls + rest_weight rest
  | RQueue _ todo rest => 2 + length todo + rest_weight rest
  | RStart _ | RList _ | RReturn _ => 0
  end.

Definition pc_weight (pc : item_pc) : nat :=
  match pc with
  | INew => 35
  | IProbed _ => 30
  | IRetry => 25
  | IRequeued => 20
  | IQueued => 18
  | IProbing => 17
  | IPodAdd _ => 10
  | IPodCancel _ => 6
  | IIngressAdd _ => 5
  | ICallback _ => 3
  | IFinished _ => 1
  | IDone _ => 0
  end.

Definition item_weight (wi : workItem) : nat := pc_weight (wi_pc wi).

(** A swap that will fail has to load again. *)
Definition pod_weight (ps : podState) : nat :=
  match ps_canceller ps with
  | CWait => 6
  | CLoad => 5
  | CCas n => if (ps_pendingCount ps =? n)%Z then 4 else 6
  | CAdd => 3
  | CCallback => 2
  | CReturn _ => 0
  end.

Definition measure σ : nat :=
  sum_list_with call_weight (calls σ) + sum_list_with item_weight (items σ) +
  sum_list_with pod_weight (pods σ).

Lemma rest_weight_delete rest ip urls : rest !! ip = Some urls →
  rest_weight rest = 12 + 40 * length urls + rest_weight (delete ip rest).
Proof.
  intros Hip. unfold rest_weight. rewrite (map_fold_delete_L _ _ ip urls rest); [done| |done].
  intros. lia.
Qed.

(** Nothing but the queue changed. *)
Lemma measure_queue σ q : measure (with_queue q σ) = measure σ.
Proof. done. Qed.

(** One step or several, the queue staying up and no new state made. *)
Definition advances σ σ' : Prop :=
  rtc step σ σ' ∧ measure σ' < measure σ ∧
  wq_down (workQueue σ') = false ∧ length (ingresses σ') = length (ingresses σ).

Lemma one_step a σ σ' : exec a σ = Some σ' → rtc step σ σ'.
Proof. intros. apply rtc_once. by exists a. Qed.

Lemma ticks_steps σ q : wq_ticks (workQueue σ) q → rtc step σ (with_queue q σ).
Proof.
  intros Ht. remember (workQueue σ) as q0 eqn:E. revert σ E.
  induction Ht as [q|q q1 q2 [e He] Ht IH]; intros σ ->; [by destruct σ|].
  eapply rtc_l; [exists (AQueueEvent e); simpl; by rewrite He|].
  exact (IH (with_queue q1 σ) eq_refl).
Qed.

Lemma ticks_down q q' : wq_ok q → wq_ticks q q' → wq_ok q' ∧ wq_down q' = wq_down q ∧ wq_held q' = wq_held q.
Proof.
  intros Hok Ht. induction Ht as [q|q q1 q2 [e He] Ht IH]; [done|].
  destruct (wq_tick_spec _ _ _ Hok He) as (Hok1 & Hh & Hd & _).
  destruct (IH Hok1) as (? & -> & ->). done.
Qed.

(** ** Calls *)

Lemma advance_call σ c pc i : inv σ → wq_down (workQueue σ) = false →
  calls σ !! c = Some pc → call_on pc = Some i → ∃ σ', advances σ σ'.
Proof.
  intros Hinv Hup Hc Hon. unfold advances, measure.
  destruct (proj1 (refs_call _ (inv_refs _ Hinv) _ _ Hc) i Hon) as [st Hst].
  destruct pc as [| |j rest|j ip urls cx rest|j todo rest|]; simplify_eq/=.
  - destruct (decide (rest = ∅)) as [->|Hne].
    + eexists. split_and!; [eapply (one_step (AStore c)); simpl; rewrite Hc, bool_decide_true by done;
        unfold IsReady_store; by rewrite Hst|..]; try done.
      pose proof (sum_insert call_weight _ _ _ (RReturn (inr (bool_decide (size (workItems (st_targets st)) = 0)))) Hc).
      simpl in *. lia.
    + destruct (map_choose rest Hne) as (ip & urls & Hip).
      pose proof (rest_weight_delete _ _ _ Hip) as Hw.
      destruct (IsReady_context ip σ) as [σ1 cx] eqn:Ecx.
      eexists. split_and!; [eapply (one_step (AContext c ip)); simpl; rewrite Hc, Hip; simpl; by rewrite Ecx|..].
      all: pose proof (sum_insert call_weight _ _ _ (RPod i ip urls cx (delete ip rest)) Hc);
        unfold IsReady_context in Ecx; case_match; simplify_eq/=; done || lia.
  - eexists. split_and!; [eapply (one_step (APod c)); simpl; by rewrite Hc|..]; try done.
    pose proof (sum_insert call_weight _ _ _ (RQueue i (seq (length (items σ)) (length urls)) rest) Hc).
    simpl in *. rewrite !sum_list_with_app. simpl. rewrite length_seq in *.
    assert (Hn : ∀ us : list ((string * string) * string), sum_list_with item_weight
      ((λ u, {| wi_ingress := i; wi_pod := length (pods σ); wi_url := u.1; wi_podIP := ip; wi_podPort := u.2;
                wi_pc := INew |}) <$> us) = 35 * length us).
    { induction us as [|u us IH]; [done|]. rewrite fmap_cons, length_cons.
      change (35 + sum_list_with item_weight ((λ u, {| wi_ingress := i; wi_pod := length (pods σ); wi_url := u.1;
        wi_podIP := ip; wi_podPort := u.2; wi_pc := INew |}) <$> us) = 35 * S (length us)). rewrite IH. lia. }
    rewrite Hn. lia.
  - destruct todo as [|it todo].
    + eexists. split_and!; [eapply (one_step (AQueue c)); simpl; by rewrite Hc|..]; try done.
      pose proof (sum_insert call_weight _ _ _ (RLoop i rest) Hc). simpl in *. lia.
    + pose proof (inv_queue _ Hinv) as Hq. pose proof (qo_ok _ Hq) as Hok.
      destruct (proj2 (qo_todo _ Hq _ _ _ _ Hc) it) as (wi & Hwi & _ & Hpc); [left|].
      destruct (wq_add_after_live (workQueue σ) it initialDelay Hok) as (q1 & q2 & Ht & Ha).
      destruct (ticks_down _ _ Hok Ht) as (Hok1 & Hd1 & _).
      destruct (wq_add_after_spec _ _ _ _ Hok1 Ha) as (_ & _ & Hd2 & _).
      exists (put_call c (RQueue i todo rest) (put_item it (set_pc IQueued wi) (with_queue q2 σ))).
      split_and!; simpl; [|..|congruence|done].
      * etrans; [by apply ticks_steps|]. eapply (one_step (AQueue c)). simpl. rewrite Hc.
        unfold IsReady_queue. simpl. by rewrite Hwi, Ha.
      * pose proof (sum_insert call_weight _ _ _ (RQueue i todo rest) Hc).
        pose proof (sum_insert item_weight _ _ _ (set_pc IQueued wi) Hwi) as E.
        unfold item_weight in E at 2 4. rewrite Hpc in E. simpl in *. lia.
Qed.

(** ** Work items *)

(** An item moves on, and perhaps the counter of its pod. *)
Lemma advance_item σ σ' it wi pc : rtc step σ σ' → items σ !! it = Some wi →
  items σ' = <[it := set_pc pc wi]> (items σ) → calls σ' = calls σ →
  sum_list_with pod_weight (pods σ') + pc_weight pc <
    sum_list_with pod_weight (pods σ) + pc_weight (wi_pc wi) →
  wq_down (workQueue σ') = false → length (ingresses σ') = length (ingresses σ) → advances σ σ'.
Proof.
  intros Hs Hit Hi Hc Hw Hd Hl. split_and!; [done| |done|done]. unfold measure. rewrite Hi, Hc.
  pose proof (sum_insert item_weight _ _ _ (set_pc pc wi) Hit) as E.
  change (item_weight (set_pc pc wi)) with (pc_weight pc) in E.
  change (item_weight wi) with (pc_weight (wi_pc wi)) in E. lia.
Qed.

Lemma pod_weight_put σ p ps ps' : pods σ !! p = Some ps →
  sum_list_with pod_weight (<[p := ps']> (pods σ)) + pod_weight ps =
  sum_list_with pod_weight (pods σ) + pod_weight ps'.
Proof. intros. by apply sum_insert. Qed.

(** After the probe of an item that was answered. *)
Lemma advance_select σ it wi reply : inv σ → wq_down (workQueue σ) = false →
  items σ !! it = Some wi → wi_pc wi = IProbed reply →
  ∃ pc σ', exec (ASelect it) σ = Some σ' ∧ items σ' = <[it := set_pc pc wi]> (items σ) ∧
    calls σ' = calls σ ∧ pods σ' = pods σ ∧ wq_down (workQueue σ') = false ∧ ingresses σ' = ingresses σ ∧
    pc_weight pc ≤ 25 ∧
    ((∀ st, ingresses σ !! wi_ingress wi = Some st → accepted (st_hash st) reply = true) → pc_weight pc ≤ 10).
Proof.
  intros Hinv Hup Hit Hpc. destruct (refs_item _ (inv_refs _ Hinv) _ _ Hit) as (ps & Hps & Epi & _).
  destruct (refs_pod _ (inv_refs _ Hinv) _ _ Hps) as [[st Hst] _]. rewrite Epi in Hst.
  pose proof (wq_forget_spec (workQueue σ) it (qo_ok _ (inv_queue _ Hinv))) as (_ & _ & Hf & _).
  simpl. rewrite Hit. simpl. rewrite Hpc. unfold processWorkItem_select. rewrite Hps. simpl. rewrite Hst. simpl.
  destruct (ps_done ps); [|destruct (accepted (st_hash st) reply) eqn:Ea].
  - eexists (IFinished None), _. split_and!; [done|done|done|done|simpl; congruence|done|simpl; lia|simpl; lia].
  - eexists (IPodAdd reply), _. split_and!; [done|done|done|done|simpl; congruence|done|simpl; lia|simpl; lia].
  - eexists IRetry, _. split_and!; [done|done|done|done|done|done|simpl; lia|].
    intros Hall. specialize (Hall _ eq_refl). congruence.
Qed.

Lemma advance_probing σ it wi : inv σ → wq_down (workQueue σ) = false →
  items σ !! it = Some wi → wi_pc wi = IProbing →
  ∃ pc σ', rtc step σ σ' ∧ items σ' = <[it := set_pc pc wi]> (items σ) ∧
    calls σ' = calls σ ∧ pods σ' = pods σ ∧ wq_down (workQueue σ') = false ∧ ingresses σ' = ingresses σ ∧
    pc_weight pc ≤ 10.
Proof.
  intros Hinv Hup Hit Hpc. pose (reply := inr {| StatusCode := 200; HashHeader := "" |} : goerr + Response).
  pose (σ1 := put_item it (set_pc (IProbed reply) wi) σ).
  assert (exec (AProbe it reply) σ = Some σ1) as H1 by (simpl; rewrite Hit; simpl; by rewrite Hpc).
  assert (inv σ1) as Hinv1 by (eapply inv_step; [done|by eexists]).
  assert (items σ1 !! it = Some (set_pc (IProbed reply) wi)) as Hit1.
  { apply list_lookup_insert_eq. by eapply lookup_lt_Some. }
  destruct (advance_select σ1 it (set_pc (IProbed reply) wi) reply Hinv1 Hup Hit1 eq_refl)
    as (pc & σ2 & H2 & Hi & Hc & Hp & Hd & Hing & _ & Hw).
  exists pc, σ2. split_and!; try done.
  - eapply rtc_l; [by eexists|by eapply one_step].
  - rewrite Hi. simpl. by rewrite list_insert_insert_eq.
  - by apply Hw.
Qed.

Lemma advance_busy σ it wi : inv σ → wq_down (workQueue σ) = false →
  items σ !! it = Some wi → busy (wi_pc wi) = true → ∃ σ', advances σ σ'.
Proof.
  intros Hinv Hup Hit Hb. pose proof (inv_queue _ Hinv) as Hq. pose proof (qo_ok _ Hq) as Hok.
  destruct (refs_item _ (inv_refs _ Hinv) _ _ Hit) as (ps & Hps & Epi & _).
  destruct (refs_pod _ (inv_refs _ Hinv) _ _ Hps) as [[st Hst] _]. rewrite Epi in Hst.
  assert (Hdone : wq_down (wq_done it (workQueue σ)) = false).
  { destruct (wq_done_spec (workQueue σ) it Hok) as (_ & _ & -> & _); [|done].
    apply (qo_held _ Hq). exists (wi_pc wi). split; [by apply pc_of_item|done]. }
  destruct (wi_pc wi) as [| | |reply| |reply|reply|reply|reply| |reply|] eqn:Hpc; try done.
  - destruct (advance_probing σ it wi) as (pc & σ' & Hs & Hi & Hc & Hp & Hd & Hing & Hw); [done..|].
    exists σ'. eapply advance_item; try done; [|by rewrite Hing]. rewrite Hp, Hpc. simpl. lia.
  - destruct (advance_select σ it wi reply) as (pc & σ' & Hs & Hi & Hc & Hp & Hd & Hing & Hw & _); [done..|].
    exists σ'. eapply advance_item; try done; [by eapply one_step| |by rewrite Hing]. rewrite Hp, Hpc. simpl. lia.
  - destruct (wq_add_rate_limited_live (workQueue σ) 0 it Hok) as (q1 & q2 & Ht & Ha).
    destruct (ticks_down _ _ Hok Ht) as (Hok1 & Hd1 & _).
    destruct (wq_add_rate_limited_spec _ _ _ _ Hok1 Ha) as (_ & _ & Hd2 & _).
    exists (put_item it (set_pc IRequeued wi) (with_queue q2 σ)).
    eapply advance_item; try done; [|rewrite Hpc; simpl; lia|simpl; congruence].
    etrans; [by apply ticks_steps|]. eapply (one_step (ARetry it 0)). simpl. rewrite Hit. simpl. rewrite Hpc.
    unfold processWorkItem_retry. simpl. by rewrite Ha.
  - eexists. eapply advance_item; [eapply (one_step (ASuccess it)); simpl; rewrite Hit; simpl; rewrite Hpc;
      unfold onProbingSuccess_pod; by rewrite Hps|done..| |done|done]. simpl.
    pose proof (pod_weight_put _ _ _ (set_pod (ps_pendingCount ps - 1) (ps_done ps) (ps_joiner ps) (ps_canceller ps) ps) Hps) as E.
    rewrite Hpc. unfold pod_weight in E at 2 4. simpl in *. repeat case_match; simpl in *; lia.
  - eexists. eapply advance_item; [eapply (one_step (ASuccess it)); simpl; rewrite Hit; simpl; rewrite Hpc;
      unfold onProbingSuccess_cancel; by rewrite Hps|done..| |done|done]. simpl.
    pose proof (pod_weight_put _ _ _ (set_pod (ps_pendingCount ps) true (ps_joiner ps) (ps_canceller ps) ps) Hps) as E.
    rewrite Hpc. change (pod_weight (set_pod (ps_pendingCount ps) true (ps_joiner ps) (ps_canceller ps) ps)) with (pod_weight ps) in E.
    simpl. lia.
  - eexists. eapply advance_item; [eapply (one_step (ASuccess it)); simpl; rewrite Hit; simpl; rewrite Hpc;
      unfold onProbingSuccess_ingress; by rewrite Hst|done..| |done|]; simpl.
    + rewrite Hpc. case_match; simpl; lia.
    + by rewrite length_insert.
  - eexists. eapply advance_item; [eapply (one_step (ASuccess it)); simpl; rewrite Hit; simpl; by rewrite Hpc|done..| |done|done].
    rewrite Hpc. simpl. lia.
  - eexists. eapply advance_item; [eapply (one_step (ADone it)); simpl; rewrite Hit; simpl; by rewrite Hpc|done..| |done|done].
    rewrite Hpc. simpl. lia.
  - eexists. eapply advance_item; [eapply (one_step (ADone it)); simpl; rewrite Hit; simpl; by rewrite Hpc|done..| |done|done].
    rewrite Hpc. simpl. lia.
Qed.

(** With no item in a worker, all workers are idle; one of them gets some item. *)
Lemma advance_queued σ it wi : inv σ → wq_down (workQueue σ) = false →
  Forall (λ wi, busy (wi_pc wi) = false) (items σ) →
  items σ !! it = Some wi → wi_pc wi = IQueued → ∃ σ', advances σ σ'.
Proof.
  intros Hinv Hup Hidle Hit Hpc. pose proof (inv_queue _ Hinv) as Hq. pose proof (qo_ok _ Hq) as Hok.
  pose proof (pc_of_item _ _ _ Hit) as Hpi. rewrite Hpc in Hpi.
  destruct (wq_get_live (workQueue σ) it Hok Hup) as (q1 & y & q2 & Ht & Hg).
  { by eapply (qo_requests _ Hq). }
  { rewrite (qo_held _ Hq). intros (pc & Hpc' & Hb). rewrite Hpi in Hpc'. by simplify_eq. }
  assert (rtc step σ (with_queue q1 σ)) as Hs1 by by apply ticks_steps.
  assert (inv (with_queue q1 σ)) as Hinv1.
  { clear -Hinv Hs1. induction Hs1 as [|? ? ? Hst _ IH]; [done|]. apply IH. by eapply inv_step. }
  destruct (queue_get _ _ _ (inv_queue _ Hinv1) Hg) as [Hpy _].
  unfold pc_of in Hpy. simpl in Hpy. destruct (items σ !! y) as [wy|] eqn:Hy; [|done]. injection Hpy as Hpy.
  assert (idle σ = 15) as Hi.
  { pose proof (wo_number _ (inv_workers _ Hinv)) as Hn. rewrite (wo_exited _ (inv_workers _ Hinv) Hup) in Hn.
    rewrite (sum_zero works) in Hn; [unfold probeConcurrency in Hn; lia|].
    intros k w Hk. unfold works. rewrite Forall_lookup in Hidle. by rewrite (Hidle _ _ Hk). }
  pose (σ2 := with_workers 14 (exited σ) (put_item y (set_pc IProbing wy) (with_queue q2 σ))).
  assert (exec AGet (with_queue q1 σ) = Some σ2) as H2.
  { simpl. unfold processWorkItem_get. simpl. rewrite Hi, Hg. simpl. by rewrite Hy. }
  assert (inv σ2) as Hinv2 by (eapply inv_step; [exact Hinv1|by eexists]).
  destruct (ticks_down _ _ Hok Ht) as (Hok1 & Hd1 & _).
  destruct (wq_get_item _ _ _ Hok1 Hg) as (_ & _ & _ & Hd2 & _).
  destruct (advance_probing σ2 y (set_pc IProbing wy)) as (pc & σ3 & Hs3 & Hi3 & Hc3 & Hp3 & Hd3 & Hing3 & Hw3);
    [done|simpl; congruence| |done|].
  { simpl. apply list_lookup_insert_eq. by eapply lookup_lt_Some. }
  exists σ3. eapply (advance_item _ _ y wy pc); try done.
  - etrans; [exact Hs1|]. eapply rtc_l; [by eexists|done].
  - rewrite Hi3. simpl. by rewrite list_insert_insert_eq.
  - rewrite Hp3, Hpy. simpl. lia.
  - by rewrite Hing3.
Qed.

(** ** Goroutines of pods *)

Definition waiting (ps : podState) : bool :=
  match ps_canceller ps with CReturn _ => true | CWait => negb (ps_done ps) | _ => false end.

Lemma advance_pod σ p ps : inv σ → wq_down (workQueue σ) = false →
  pods σ !! p = Some ps → waiting ps = false → ∃ σ', advances σ σ'.
Proof.
  intros Hinv Hup Hps Hw. destruct (refs_pod _ (inv_refs _ Hinv) _ _ Hps) as [[st Hst] _].
  assert (Hgo : ∀ ps' σ', exec (ACanceller p) σ = Some σ' → pods σ' = <[p := ps']> (pods σ) →
    items σ' = items σ → calls σ' = calls σ → workQueue σ' = workQueue σ →
    length (ingresses σ') = length (ingresses σ) → pod_weight ps' < pod_weight ps → advances σ σ').
  { intros ps' σ' He Hp Hi Hc Hq Hl Hlt. split_and!; [by eapply one_step| |congruence|done].
    unfold measure. rewrite Hp, Hi, Hc. pose proof (pod_weight_put _ _ _ ps' Hps). lia. }
  unfold waiting in Hw. simpl in Hgo. unfold onProbingCancellation in Hgo. rewrite Hps in Hgo. simpl in Hgo.
  unfold pod_weight in Hgo at 2. revert Hgo Hw.
  destruct (ps_canceller ps) as [| |n| | |] eqn:Ec; intros Hgo Hw; try done.
  - revert Hgo Hw. destruct (ps_done ps); intros Hgo Hw; [|done]. eexists. eapply Hgo; try done. unfold pod_weight. simpl. lia.
  - eexists. eapply Hgo; try done. unfold pod_weight. simpl.
    destruct (_ <=? 0)%Z; [lia|]. rewrite Z.eqb_refl. lia.
  - revert Hgo. destruct (Z.eqb_spec (ps_pendingCount ps) n) as [E|E]; intros Hgo; eexists;
      (eapply Hgo; try done); unfold pod_weight; simpl; lia.
  - rewrite Hst in Hgo. simpl in Hgo. eexists. eapply Hgo; try done; simpl; [by rewrite length_insert|].
    unfold pod_weight. simpl. case_match; lia.
  - eexists. eapply Hgo; try done. unfold pod_weight. simpl. lia.
Qed.

(** ** The end *)

Definition is_done (pc : item_pc) : bool := match pc with IDone _ => true | _ => false end.

Record quiet σ : Prop := {
  quiet_calls c pc : calls σ !! c = Some pc → call_on pc = None;
  quiet_items it wi : items σ !! it = Some wi → is_done (wi_pc wi) = true;
  quiet_pods p ps : pods σ !! p = Some ps → waiting ps = true
}.

Lemma quiet_or_advances σ : inv σ → wq_down (workQueue σ) = false → quiet σ ∨ ∃ σ', advances σ σ'.
Proof.
  intros Hinv Hup.
  destruct (decide (Forall (λ pc, call_on pc = None) (calls σ))) as [Hc|Hc].
  2: { right. apply not_Forall_Exists, Exists_exists in Hc as (pc & [c Hc]%list_elem_of_lookup & Hon); [|apply _].
       simpl in Hon. destruct (call_on pc) as [i|] eqn:E; [|done]. by eapply advance_call. }
  rewrite Forall_lookup in Hc.
  destruct (decide (Forall (λ wi, busy (wi_pc wi) = false) (items σ))) as [Hb|Hb].
  2: { right. apply not_Forall_Exists, Exists_exists in Hb as (wi & [it Hit]%list_elem_of_lookup & Hbusy); [|apply _].
       simpl in Hbusy. eapply advance_busy; [done..|]. by destruct (busy _). }
  destruct (decide (Forall (λ wi, is_done (wi_pc wi) = true) (items σ))) as [Hd|Hd].
  2: { right. apply not_Forall_Exists, Exists_exists in Hd as (wi & [it Hit]%list_elem_of_lookup & Hnd); [|apply _].
       simpl in Hnd. rewrite Forall_lookup in Hb. pose proof (Hb _ _ Hit) as Hbi. simpl in Hbi.
       destruct (wi_pc wi) eqn:E; try done.
       - destruct (wo_new _ (inv_workers _ Hinv) _ _ Hit E) as (c & todo & rest & Hca & _). by specialize (Hc _ _ Hca).
       - eapply advance_queued; [done..|by apply Forall_lookup|done|done]. }
  rewrite Forall_lookup in Hd.
  destruct (decide (Forall (λ ps, waiting ps = true) (pods σ))) as [Hp|Hp].
  2: { right. apply not_Forall_Exists, Exists_exists in Hp as (ps & [p Hps]%list_elem_of_lookup & Hnw); [|apply _].
       simpl in Hnw. eapply advance_pod; [done..|]. by destruct (waiting ps). }
  rewrite Forall_lookup in Hp. left. by split.
Qed.

Lemma quiet_pod σ p ps : inv σ → quiet σ → pods σ !! p = Some ps →
  (ps_pendingCount ps ≤ 0)%Z ∧ ps_canceller ps ≠ CAdd ∧ ps_canceller ps ≠ CCallback.
Proof.
  intros [_ _ _ [Hc1 Hc2] Ho _ _ _ _ _] [_ Hi Hp] Hps. specialize (Hp _ _ Hps). unfold waiting in Hp.
  specialize (Hc1 _ _ Hps). specialize (Hc2 _ _ Hps). unfold pod_count in Hc1.
  destruct (ps_canceller ps) as [| | | | |[]] eqn:Ec; try done; (split; [|done]).
  - simpl in Hc1. rewrite (sum_zero (live p)) in Hc1; [lia|]. intros it wi Hit. unfold live.
    destruct (Nat.eqb_spec (wi_pod wi) p) as [E|]; [|done]. simpl.
    specialize (Hi _ _ Hit). destruct (wi_pc wi) as [| | | | | | | | | | |[r|]] eqn:Hpc; try done.
    exfalso. destruct (oc_dropped _ Ho _ _ Hit) as (ps' & Hps' & Hd); [by rewrite Hpc|].
    rewrite E, Hps in Hps'. simplify_eq. by rewrite Hd in Hp.
  - simpl in Hc1. lia.
Qed.

Lemma quiet_ready σ i st : inv σ → quiet σ → ingresses σ !! i = Some st →
  st_pendingCount st = 0%Z ∧ (workItems (st_targets st) ≠ ∅ → i ∈ callbacks σ).
Proof.
  intros Hinv Hqu Hst. destruct (inv_ingresses _ Hinv _ _ Hst) as (Hp & _ & Hr). unfold owes in Hp. unfold rings in Hr.
  assert (Hitem : ∀ it wi, items σ !! it = Some wi → item_owes i wi = 0 ∧ item_rings i wi = 0).
  { intros it wi Hit. pose proof (quiet_items _ Hqu _ _ Hit) as Hd. unfold item_owes, item_rings.
    destruct (wi_pc wi); try done. by rewrite !andb_false_r. }
  assert (Hpod : ∀ p ps, pods σ !! p = Some ps → pod_owes i ps = 0 ∧ pod_rings i ps = 0).
  { intros p ps Hps. destruct (quiet_pod _ _ _ Hinv Hqu Hps) as (Hle & H1 & H2). unfold pod_owes, pod_rings.
    destruct (Z.ltb_spec 0 (ps_pendingCount ps)); [lia|].
    destruct (ps_canceller ps); try done; by rewrite !andb_false_r. }
  rewrite (sum_zero (pod_owes i)) in Hp by (intros p ps Hps; by apply (Hpod p)).
  rewrite (sum_zero (item_owes i)) in Hp by (intros it wi Hit; by apply (Hitem it)).
  rewrite (sum_zero (call_owes i)) in Hp by (intros c pc Hc; pose proof (quiet_calls _ Hqu _ _ Hc); by destruct pc).
  split; [done|]. intros Hne. rewrite Hp in Hr. simpl in Hr.
  destruct (Nat.eqb_spec (size (workItems (st_targets st))) 0) as [E|_]; [by apply map_size_empty_inv in E|].
  simpl in Hr. rewrite (sum_zero (pod_rings i)) in Hr by (intros p ps Hps; by apply (Hpod p)).
  rewrite (sum_zero (item_rings i)) in Hr by (intros it wi Hit; by apply (Hitem it)).
  destruct (sum_pos (λ j, if j =? i then 1 else 0) (callbacks σ)) as (k & j & Hk & Hj); [lia|].
  destruct (Nat.eqb_spec j i) as [->|]; [by eapply list_elem_of_lookup_2|lia].
Qed.

Lemma rtc_inv σ σ' : inv σ → rtc step σ σ' → inv σ'.
Proof. intros Hi Hs. induction Hs as [|? ? ? Hst _ IH]; [done|]. apply IH. by eapply inv_step. Qed.

(** C19: As long as its queue is up the prober is never stuck: from every reachable state it can
    go on, without a new call, to a state in which every call past the listing of targets has
    returned, every counter is zero and every callback has been made. *)
Theorem prober_never_stuck σ :
  reachable σ → wq_down (workQueue σ) = false →
  ∃ σ', rtc step σ σ' ∧ length (ingresses σ') = length (ingresses σ) ∧
    (∀ c pc, calls σ' !! c = Some pc → call_on pc = None) ∧
    (∀ i st, ingresses σ' !! i = Some st →
       st_pendingCount st = 0%Z ∧ (workItems (st_targets st) ≠ ∅ → i ∈ callbacks σ')).
Proof.
  intros Hinv%reachable_inv. remember (measure σ) as n eqn:En. revert σ Hinv En.
  induction n as [n IH] using lt_wf_ind. intros σ Hinv -> Hup.
  destruct (quiet_or_advances σ Hinv Hup) as [Hqu|(σ1 & Hs1 & Hlt & Hup1 & Hl1)].
  - exists σ. split_and!; [done|done|apply Hqu|]. intros i st Hst. by apply quiet_ready.
  - destruct (IH _ Hlt σ1) as (σ2 & Hs2 & Hl2 & Hend); [by eapply rtc_inv|done|done|].
    exists σ2. split_and!; [by etrans|congruence|apply Hend|apply Hend].
Qed.
End Progress.
