(* ===== verification/Readiness.v ===== *)
(** * What readiness means

    The status prober ([ProberFacts]) over the targets the controller lists for it
    ([ProbeTargets], lister.go): when [IsReady] says that a KIngress is ready, Envoy has been
    asked for every host of every rule, on every address behind every envoy Service that
    serves the rule. *)

From S2P Require Import Prelude Meta Ingress NetIngress HTTPProxy Config ProbeTargets Events Workqueue Prober ProberInv ProberFacts.
#[local] Opaque ComputeHash workItems.

Section Readiness.
Context {Q : Type} `{!WorkQueue nat Q} `{MapOrder} (env : Env) (cfg : Config).
Context (get_service : string → string → goerr + Service).
Context (get_endpoints : string → string → goerr + Endpoints).
Implicit Types σ : Prober Q.

(** The probe of [host] at the address [ip] was answered by a pod serving the version [hash]. *)
Definition probed σ (hash ip host : string) : Prop :=
  ∃ it wi r, items σ !! it = Some wi ∧ wi_podIP wi = ip ∧ (wi_url wi).2 = host ∧
    verdict (wi_pc wi) = Some (inr r) ∧ serves hash r.

(** C20: When [IsReady] answers from what it knows that a KIngress is ready, and the targets of
    the known state were listed by lister.go, then for every host (in all its expansions) of
    every rule and every envoy Service of the rule's visibility, every address in the Service's
    endpoints was probed for the host with the KIngress's own hash and answered well, or the
    pod with this address has been deleted. *)
Theorem ready_means_served σ σ' ing i st rule host key ns name eps sub ip :
  reachable σ → IsReady_cached (key_of (ing_meta ing)) (ComputeHash ing) σ = (σ', Some true) →
  ingressStates σ !! key_of (ing_meta ing) = Some i → ingresses σ !! i = Some st →
  ListProbeTargets env cfg get_service get_endpoints (st_ing st) = Ret (st_targets st) →
  rule ∈ is_rules (ing_spec (st_ing st)) → host ∈ ExpandedHosts env (list_to_set (ru_hosts rule)) →
  key ∈ default ∅ (VisibilityKeys (cfg_Contour cfg) !! ru_visibility rule) →
  SplitMetaNamespaceKey key = Ret (ns, name) → get_endpoints ns name = inr eps →
  sub ∈ en_subsets eps → ip ∈ es_addresses sub →
  ip ∈ deletedPods σ ∨ probed σ (ComputeHash ing) ip host.
Proof.
  intros Hr Hc Hi Hst Hl Hrule Hhost Hkey Hs He Hsub Hip.
  destruct (ListProbeTargets_covers env cfg get_service get_endpoints _ _ _ _ _ Hl Hrule Hhost Hkey)
    as (ns' & name' & eps' & Hs' & He' & Hall).
  rewrite Hs in Hs'. injection Hs' as <- <-. rewrite He in He'. injection He' as <-.
  destruct (Hall sub Hsub) as (t & Ht & (? & ? & ? & ? & ? & ? & _ & _ & _ & _ & _ & _ & Hips & _ & _) & Hurl).
  destruct (ready_probes _ _ _ _ Hr Hc) as (i' & st' & Hi' & Hst' & _ & _ & Hpr). simplify_eq.
  destruct (Hpr t ip _ Ht ltac:(rewrite Hips; by apply elem_of_list_to_set) Hurl)
    as [Hd|(it & wi & r & Hit & _ & E1 & E2 & _ & Hv & Hse)]; [by left|right].
  exists it, wi, r. split_and!; try done. by rewrite E2.
Qed.
End Readiness.
