(* ===== verification/Controller.v ===== *)
(** * The controller (src/pkg/reconciler/contour/controller.go)

    [NewController] connects the parts: informer events go through filters to the work
    queue, the tracker or the prober; the prober's callback, the tracker's callback and a
    change of configuration put keys on the queue; workers take keys, reconcile them and
    put them back when that fails (knative.dev/pkg/controller).

    The whole is a transition system over the states of queue, tracker and prober.  Every
    handler has its own goroutine, so that the delivery of an event to a handler is one
    step; a worker's reconcile is a step that ends with any result (what it can be, and
    what it does to the cluster, is in [GenReconciler]).  The queue is used through the
    interface [ControllerQueue] only. *)

From S2P Require Import Prelude Meta Labels Ingress HTTPProxy Reconcile Events Workqueue TwoLane Tracker Prober GenReconciler.
Local Open Scope Z_scope.

(** ** Filters *)

Definition mapHasOrDefault (m : gmap string string) (key value : string) (defaultValue : bool) : bool :=
  match m !! key with None => defaultValue | Some val => String.eqb val value end.

Definition AnnotationFilterFunc (key value : string) (allowUnset : bool) (obj : eventobj) : bool :=
  match as_object obj with
  | Some mo => mapHasOrDefault (om_annotations (ac_meta mo)) key value allowUnset
  | None => false
  end.

Definition FilterControllerGK (group kind : string) (obj : eventobj) : bool :=
  match as_object obj with
  | None => false
  | Some object =>
      match GetControllerOf (ac_meta object) with
      | None => false
      | Some owner =>
          match ParseGroupVersion (or_api_version owner) with
          | inl _ => false
          | inr ownerGV => String.eqb (gv_group ownerGV) group && String.eqb (or_kind owner) kind
          end
      end
  end.

Definition networking_GroupName : string := "networking.internal.knative.dev".
(** [controller.FilterController(&v1alpha1.Ingress{})] *)
Definition FilterController_Ingress : eventobj → bool := FilterControllerGK networking_GroupName "Ingress".

Definition IngressClassAnnotationKey : string := "networking.knative.dev/ingress.class".
Definition myFilterFunc : eventobj → bool :=
  AnnotationFilterFunc IngressClassAnnotationKey ContourIngressClassName false.

(** ** Handlers of informer events *)

Inductive resource_event :=
  | OnAdd (obj : eventobj)
  | OnUpdate (oldObj newObj : eventobj)
  | OnDelete (obj : eventobj).

(** A handler on a state [W]; [ResourceEventHandlerFuncs] has functions that may be nil. *)
Definition ResourceEventHandler (W : Type) : Type := resource_event → W → W.

Definition ResourceEventHandlerFuncs {W} (add : option (eventobj → W → W))
    (update : option (eventobj → eventobj → W → W)) (del : option (eventobj → W → W))
    : ResourceEventHandler W := λ e w,
  match e with
  | OnAdd obj => match add with Some f => f obj w | None => w end
  | OnUpdate oldObj newObj => match update with Some f => f oldObj newObj w | None => w end
  | OnDelete obj => match del with Some f => f obj w | None => w end
  end.

Definition PassNew {W} (f : eventobj → W → W) : eventobj → eventobj → W → W := λ first second, f second.
Definition HandleAll {W} (h : eventobj → W → W) : ResourceEventHandler W :=
  ResourceEventHandlerFuncs (Some h) (Some (PassNew h)) (Some h).

Definition FilteringResourceEventHandler {W} (FilterFunc : eventobj → bool)
    (handler : ResourceEventHandler W) : ResourceEventHandler W := λ e w,
  match e with
  | OnAdd obj => if FilterFunc obj then handler (OnAdd obj) w else w
  | OnUpdate oldObj newObj =>
      match FilterFunc newObj, FilterFunc oldObj with
      | true, true => handler (OnUpdate oldObj newObj) w
      | true, false => handler (OnAdd newObj) w
      | false, true => handler (OnDelete oldObj) w
      | false, false => w
      end
  | OnDelete obj => if FilterFunc obj then handler (OnDelete obj) w else w
  end.

(** [EnsureTypeMeta]: the callback gets the object with the given version and kind. *)
Definition EnsureTypeMeta {W} (f : eventobj → W → W) (gvk : GroupVersionKind) (untyped : eventobj) (w : W) : W :=
  let '(apiVersion, kind) := ToAPIVersionAndKind gvk in
  match DeletionHandlingAccessor untyped with
  | inl _ => w
  | inr typed =>
      if String.eqb (ac_api_version typed) apiVersion && String.eqb (ac_kind typed) kind
      then f (Object typed) w
      else f (Object {| ac_api_version := apiVersion; ac_kind := kind; ac_object := ac_object typed |}) w
  end.

Definition service_gvk : GroupVersionKind := {| gvk_group := ""; gvk_version := "v1"; gvk_kind := "Service" |}.

(** ** The queue side of [controller.Impl] *)

Section Impl.
Context {Q : Type} `{!WorkQueue NamespacedName Q, !ControllerQueue NamespacedName Q}.
Implicit Types (q : Q) (key : NamespacedName).

Definition EnqueueKey key q : Q := cq_add key q.
Definition EnqueueSlowKey key q : Q := cq_add_slow key q.

Definition Enqueue (obj : eventobj) q : Q :=
  match DeletionHandlingAccessor obj with
  | inl _ => q
  | inr object => EnqueueKey (key_of (ac_meta object)) q
  end.

Definition EnqueueSlow (obj : eventobj) q : Q :=
  match DeletionHandlingAccessor obj with
  | inl _ => q
  | inr object => EnqueueSlowKey (key_of (ac_meta object)) q
  end.

Definition EnqueueControllerOf (obj : eventobj) q : Q :=
  match DeletionHandlingAccessor obj with
  | inl _ => q
  | inr object =>
      match GetControllerOf (ac_meta object) with
      | Some owner =>
          EnqueueKey {| nn_namespace := om_namespace (ac_meta object); nn_name := or_name owner |} q
      | None => q
      end
  end.

Definition FilteredGlobalResync (f : eventobj → bool) (list : list eventobj) q : Q :=
  if wq_down q then q
  else foldl (λ q obj, if f obj then EnqueueSlow obj q else q) q list.

(** [MaybeEnqueueBucketKey] *)
Definition MaybeEnqueueBucketKey (has : NamespacedName → bool) key q : Q :=
  if has key then EnqueueSlowKey key q else q.

(** [PromoteFunc] of the generated reconciler, with the filter of the options. *)
Definition PromoteFunc (has : NamespacedName → bool) (all : list eventobj) q : Q :=
  foldl (λ q elt,
    if myFilterFunc elt then
      match as_object elt with
      | Some mo => MaybeEnqueueBucketKey has (key_of (ac_meta mo)) q
      | None => q
      end
    else q) q all.

(** [handleErr]; [None] while [AddRateLimited] blocks.  The errors of this program are
    neither requests to requeue nor permanent; conflicts are retried like the others. *)
Definition handleErr (bucket : Z) (skip : bool) key q : option Q :=
  if skip || wq_down q then Some (wq_forget key q) else wq_add_rate_limited bucket key q.

(** [processNextWorkItem] after [Reconcile] returned; a panic ends the process. *)
Definition processNextWorkItem_end (bucket : Z) (r : gen_result) key q : option Q :=
  match r with
  | GDone => Some (wq_forget key q)
  | GError _ => handleErr bucket false key q
  | GSkipKey _ => handleErr bucket true key q
  | GPanic _ => None
  end.
End Impl.

(** ** The system *)

(** A worker reconciles a key, or is about to call the deferred [Done]. *)
Inductive worker_pc := WReconciling | WFinishing.

(** [DefaultThreadsPerController] *)
Definition DefaultThreadsPerController : nat := 2.

(** The values a [TypeFilter] may see. *)
Inductive config_value := CContour | CNetwork | COther.

(** The handlers [NewController] registers. *)
Inductive handler_id :=
  | IngressByClass | IngressByOwner | ProxyByOwner | IngressDeleted | PodDeleted | ServiceChanged.

Section System.
Context {Q QP : Type} `{!WorkQueue NamespacedName Q, !ControllerQueue NamespacedName Q, !WorkQueue nat QP, !MapOrder, !KeyOrder}.

Record system := {
  sy_queue : Q;
  sy_tracker : tracker;
  sy_prober : Prober.Prober QP;
  sy_idle : nat;
  sy_workers : gmap NamespacedName worker_pc
}.

Implicit Types (σ : system) (key : NamespacedName).

Definition with_queue q σ : system := {|
  sy_queue := q; sy_tracker := sy_tracker σ; sy_prober := sy_prober σ;
  sy_idle := sy_idle σ; sy_workers := sy_workers σ |}.
Definition with_tracker t σ : system := {|
  sy_queue := sy_queue σ; sy_tracker := t; sy_prober := sy_prober σ;
  sy_idle := sy_idle σ; sy_workers := sy_workers σ |}.
Definition with_prober p σ : system := {|
  sy_queue := sy_queue σ; sy_tracker := sy_tracker σ; sy_prober := p;
  sy_idle := sy_idle σ; sy_workers := sy_workers σ |}.
Definition with_workers n m σ : system := {|
  sy_queue := sy_queue σ; sy_tracker := sy_tracker σ; sy_prober := sy_prober σ;
  sy_idle := n; sy_workers := m |}.

Definition on_queue (f : Q → Q) σ : system := with_queue (f (sy_queue σ)) σ.

(** The callback of the tracker is [EnqueueKey]. *)
Definition enqueue_all (keys : list NamespacedName) σ : system :=
  on_queue (λ q, foldl (λ q key, EnqueueKey key q) q keys) σ.

Definition tracker_OnChanged (now now' : NamespacedName → Z) (obj : eventobj) σ : system :=
  let '(t, keys) := OnChanged now now' obj (sy_tracker σ) in
  enqueue_all keys (with_tracker t σ).

(** The handlers; [now] and [now'] are the clock readings of the tracker. *)
Definition handlers (now now' : NamespacedName → Z) (h : handler_id) : ResourceEventHandler system :=
  match h with
  | IngressByClass =>
      FilteringResourceEventHandler myFilterFunc (HandleAll (λ obj, on_queue (Enqueue obj)))
  | IngressByOwner | ProxyByOwner =>
      FilteringResourceEventHandler FilterController_Ingress
        (HandleAll (λ obj, on_queue (EnqueueControllerOf obj)))
  | IngressDeleted =>
      ResourceEventHandlerFuncs None None
        (Some (λ obj σ, with_prober (CancelIngressProbing obj (sy_prober σ)) σ))
  | PodDeleted =>
      ResourceEventHandlerFuncs None None
        (Some (λ obj σ, with_prober (CancelPodProbing obj (sy_prober σ)) σ))
  | ServiceChanged => HandleAll (EnsureTypeMeta (tracker_OnChanged now now') service_gvk)
  end.

(** [TypeFilter] over the two configurations, around the resync of all Ingresses. *)
Definition resyncIngressesOnConfigChange (value : config_value) (store : list eventobj) σ : system :=
  match value with
  | CContour | CNetwork => on_queue (FilteredGlobalResync myFilterFunc store) σ
  | COther => σ
  end.

(** The prober's callback: [impl.Enqueue(ia)] for every Ingress it was called on. *)
Definition readyCallback (p : Prober.Prober QP) (i : nat) σ : system :=
  match ingresses p !! i with
  | Some st =>
      on_queue (Enqueue (Object {| ac_api_version := ""; ac_kind := ""; ac_object := KIngress (st_ing st) |})) σ
  | None => σ
  end.

Inductive sys_event :=
  | SDeliver (h : handler_id) (e : resource_event) (now now' : NamespacedName → Z)
  | SConfig (value : config_value) (store : list eventobj)
  | SPromote (has : NamespacedName → bool) (all : list eventobj)
  | STrack (checked written : Z) (rf : SelectorReference) (obj : eventobj)    (* a reconcile tracks *)
  | SProber (a : Prober.action QP)                                          (* a step of the prober *)
  | SGet                                                                    (* a worker *)
  | SFinish (key : NamespacedName) (r : gen_result) (bucket : Z)
  | SDone (key : NamespacedName)
  | SQueue (e : wq_event (T := NamespacedName) (Q := Q))
  | SShutDown.

Definition sys_exec (e : sys_event) σ : option system :=
  match e with
  | SDeliver h e now now' => Some (handlers now now' h e σ)
  | SConfig value store => Some (resyncIngressesOnConfigChange value store σ)
  | SPromote has all => Some (on_queue (PromoteFunc has all) σ)
  | STrack checked written rf obj =>
      let '(t, keys, _) := TrackReference checked written rf obj (sy_tracker σ) in
      Some (enqueue_all keys (with_tracker t σ))
  | SProber a =>
      p ← exec a (sy_prober σ);
      let new := drop (length (callbacks (sy_prober σ))) (callbacks p) in
      Some (foldl (λ σ i, readyCallback p i σ) (with_prober p σ) new)
  | SGet =>
      match sy_idle σ with
      | O => None
      | S n =>
          '(obj, q) ← wq_get (sy_queue σ);
          match obj with
          | None => Some (with_workers n (sy_workers σ) (with_queue q σ))
          | Some key => Some (with_workers n (<[key := WReconciling]> (sy_workers σ)) (with_queue q σ))
          end
      end
  | SFinish key r bucket =>
      match sy_workers σ !! key with
      | Some WReconciling =>
          q ← processNextWorkItem_end bucket r key (sy_queue σ);
          Some (with_workers (sy_idle σ) (<[key := WFinishing]> (sy_workers σ)) (with_queue q σ))
      | _ => None
      end
  | SDone key =>
      match sy_workers σ !! key with
      | Some WFinishing =>
          Some (with_workers (S (sy_idle σ)) (delete key (sy_workers σ))
                  (with_queue (wq_done key (sy_queue σ)) σ))
      | _ => None
      end
  | SQueue e => q ← wq_tick e (sy_queue σ); Some (with_queue q σ)
  | SShutDown => Some (with_queue (wq_shut_down (sy_queue σ)) σ)
  end.

Definition NewController (q : Q) (qp : QP) (lease : Z) : system := {|
  sy_queue := q; sy_tracker := Tracker.New lease; sy_prober := NewProber qp;
  sy_idle := DefaultThreadsPerController; sy_workers := ∅
|}.

(** The key an event hands to a worker. *)
Definition handed (e : sys_event) σ : list NamespacedName :=
  match e with
  | SGet => match wq_get (sy_queue σ) with Some (Some key, _) => [key] | _ => [] end
  | _ => []
  end.

(** A run: its events, and the keys handed to workers. *)
Inductive sys_run : list sys_event → system → list NamespacedName → system → Prop :=
  | run_nil σ : sys_run [] σ [] σ
  | run_cons e l σ1 σ2 σ3 ks : sys_exec e σ1 = Some σ2 → sys_run l σ2 ks σ3 →
      sys_run (e :: l) σ1 (handed e σ1 ++ ks) σ3.

(** The same, computed. *)
Fixpoint sys_schedule (l : list sys_event) σ : option (list NamespacedName * system) :=
  match l with
  | [] => Some ([], σ)
  | e :: l => σ' ← sys_exec e σ; '(ks, σ'') ← sys_schedule l σ'; Some (handed e σ ++ ks, σ'')
  end.

Lemma sys_schedule_run l σ ks σ' : sys_schedule l σ = Some (ks, σ') → sys_run l σ ks σ'.
Proof.
  revert σ ks. induction l as [|e l IH]; simpl; intros σ ks; [intros [= <- <-]; constructor|].
  destruct (sys_exec e σ) as [σ1|] eqn:E; simpl; [|done].
  destruct (sys_schedule l σ1) as [[ks1 σ2]|] eqn:E1; simpl; [|done].
  intros [= <- <-]. econstructor; [done|by apply IH].
Qed.
End System.
Arguments system : clear implicits.
Arguments sys_event : clear implicits.
Arguments sys_event Q QP {_ _} : rename.

(** ** Requests *)

Section Requests.
Context {Q : Type} `{!WorkQueue NamespacedName Q, !ControllerQueue NamespacedName Q}.
Implicit Types (q : Q) (key : NamespacedName) (K : gset NamespacedName).

(** From [q] to [q'], the keys of [K] were put on the queue, and nothing else happened. *)
Record enqueued q q' K : Prop := {
  eq_ok : wq_ok q';
  eq_held : wq_held q' = wq_held q;
  eq_down : wq_down q' = wq_down q;
  eq_others key : key ∉ K → wq_count q' key = wq_count q key;
  eq_grows key : (wq_count q key ≤ wq_count q' key)%nat;
  eq_requested key : key ∈ K → wq_down q = false → (0 < wq_count q' key)%nat
}.

Lemma enqueued_refl q : wq_ok q → enqueued q q ∅.
Proof. intros. split; try done. Qed.

Lemma enqueued_trans q1 q2 q3 K1 K2 : enqueued q1 q2 K1 → enqueued q2 q3 K2 → enqueued q1 q3 (K1 ∪ K2).
Proof.
  intros [] []. split; try done; try congruence.
  - intros key Hk. rewrite eq_others1, eq_others0; set_solver.
  - intros key. specialize (eq_grows0 key). specialize (eq_grows1 key). lia.
  - intros key [Hk|Hk]%elem_of_union Hd; [|apply eq_requested1; [done|congruence]].
    specialize (eq_requested0 key Hk Hd). specialize (eq_grows1 key). lia.
Qed.

Lemma EnqueueKey_enqueued key q : wq_ok q → enqueued q (EnqueueKey key q) {[key]}.
Proof.
  intros Hok. destruct (cq_add_spec q key Hok) as (? & ? & ? & Hne & ? & ? & ?).
  split; try done.
  - intros y Hy. apply Hne. set_solver.
  - intros y. destruct (decide (y = key)) as [->|]; [done|]. unfold EnqueueKey. by rewrite Hne.
  - intros y ->%elem_of_singleton. done.
Qed.

Lemma EnqueueSlowKey_enqueued key q : wq_ok q → enqueued q (EnqueueSlowKey key q) {[key]}.
Proof.
  intros Hok. destruct (cq_add_slow_spec q key Hok) as (? & ? & ? & Hne & ? & ? & ?).
  split; try done.
  - intros y Hy. apply Hne. set_solver.
  - intros y. destruct (decide (y = key)) as [->|]; [done|]. unfold EnqueueSlowKey. by rewrite Hne.
  - intros y ->%elem_of_singleton. done.
Qed.

(** The keys of a list of things, put on the queue one after the other. *)
Lemma fold_enqueued {A} (f : Q → A → Q) (K : A → gset NamespacedName) l q :
  (∀ q a, wq_ok q → enqueued q (f q a) (K a)) → wq_ok q →
  enqueued q (foldl f q l) (⋃ (K <$> l)).
Proof.
  intros Hf. revert q. induction l as [|a l IH]; intros q Hok; simpl; [by apply enqueued_refl|].
  eapply enqueued_trans; [by apply Hf|]. apply IH. by eapply eq_ok, Hf.
Qed.

Definition object_key (obj : eventobj) : gset NamespacedName :=
  match DeletionHandlingAccessor obj with inl _ => ∅ | inr a => {[key_of (ac_meta a)]} end.
Definition controller_key (obj : eventobj) : gset NamespacedName :=
  match DeletionHandlingAccessor obj with
  | inl _ => ∅
  | inr a => match GetControllerOf (ac_meta a) with
             | Some owner => {[ {| nn_namespace := om_namespace (ac_meta a); nn_name := or_name owner |} ]}
             | None => ∅
             end
  end.

Lemma Enqueue_enqueued obj q : wq_ok q → enqueued q (Enqueue obj q) (object_key obj).
Proof.
  intros. unfold Enqueue, object_key. destruct (DeletionHandlingAccessor obj);
    [by apply enqueued_refl|by apply EnqueueKey_enqueued].
Qed.
Lemma EnqueueSlow_enqueued obj q : wq_ok q → enqueued q (EnqueueSlow obj q) (object_key obj).
Proof.
  intros. unfold EnqueueSlow, object_key. destruct (DeletionHandlingAccessor obj);
    [by apply enqueued_refl|by apply EnqueueSlowKey_enqueued].
Qed.
Lemma EnqueueControllerOf_enqueued obj q : wq_ok q → enqueued q (EnqueueControllerOf obj q) (controller_key obj).
Proof.
  intros. unfold EnqueueControllerOf, controller_key. destruct (DeletionHandlingAccessor obj) as [|a];
    [by apply enqueued_refl|]. destruct (GetControllerOf _); [by apply EnqueueKey_enqueued|by apply enqueued_refl].
Qed.

Definition resync_keys (f : eventobj → bool) (l : list eventobj) : gset NamespacedName :=
  ⋃ ((λ obj, if f obj then object_key obj else ∅) <$> l).

Lemma FilteredGlobalResync_enqueued f l q : wq_ok q → wq_down q = false →
  enqueued q (FilteredGlobalResync f l q) (resync_keys f l).
Proof.
  intros Hok Hd. unfold FilteredGlobalResync. rewrite Hd. apply fold_enqueued; [|done].
  intros q' obj Hok'. destruct (f obj); [by apply EnqueueSlow_enqueued|by apply enqueued_refl].
Qed.

(** Something was put on the queue, whatever it was. *)
Definition enqueues q q' : Prop := ∃ K, enqueued q q' K.

Lemma enqueues_trans q1 q2 q3 : enqueues q1 q2 → enqueues q2 q3 → enqueues q1 q3.
Proof. intros [K1 ?] [K2 ?]. eexists. by eapply enqueued_trans. Qed.

Lemma FilteredGlobalResync_enqueues f l q : wq_ok q → enqueues q (FilteredGlobalResync f l q).
Proof.
  intros Hok. destruct (wq_down q) eqn:Hd.
  - unfold FilteredGlobalResync. rewrite Hd. exists ∅. by apply enqueued_refl.
  - eexists. by apply FilteredGlobalResync_enqueued.
Qed.

Lemma PromoteFunc_enqueues has l q : wq_ok q → enqueues q (PromoteFunc has l q).
Proof.
  intros Hok. eexists.
  apply (fold_enqueued _ (λ elt, if myFilterFunc elt then
    match as_object elt with
    | Some mo => if has (key_of (ac_meta mo)) then {[key_of (ac_meta mo)]} else ∅ | None => ∅ end else ∅)); [|done].
  intros q' elt Hok'. destruct (myFilterFunc elt); [|by apply enqueued_refl].
  destruct (as_object elt) as [mo|]; [|by apply enqueued_refl]. unfold MaybeEnqueueBucketKey.
  destruct (has _); [by apply EnqueueSlowKey_enqueued|by apply enqueued_refl].
Qed.
End Requests.

(** ** What an event requests *)

(** The object a filtering handler passes on. *)
Definition passed (f : eventobj → bool) (e : resource_event) : option eventobj :=
  match e with
  | OnAdd obj | OnDelete obj => if f obj then Some obj else None
  | OnUpdate oldObj newObj => if f newObj then Some newObj else if f oldObj then Some oldObj else None
  end.

(** The object [HandleAll] passes on. *)
Definition newest (e : resource_event) : eventobj :=
  match e with OnAdd obj | OnUpdate _ obj | OnDelete obj => obj end.

Lemma filtering_handler {W} f (h : eventobj → W → W) e w :
  FilteringResourceEventHandler f (HandleAll h) e w =
  match passed f e with Some obj => h obj w | None => w end.
Proof. destruct e as [obj|o n|obj]; simpl; [by destruct (f obj)|by destruct (f n), (f o)|by destruct (f obj)]. Qed.

Lemma handle_all {W} (h : eventobj → W → W) e w : HandleAll h e w = h (newest e) w.
Proof. by destruct e. Qed.

Lemma EnsureTypeMeta_spec {W} (f : eventobj → W → W) gvk obj a w :
  DeletionHandlingAccessor obj = inr a →
  EnsureTypeMeta f gvk obj w =
    f (Object {| ac_api_version := (ToAPIVersionAndKind gvk).1; ac_kind := (ToAPIVersionAndKind gvk).2;
                 ac_object := ac_object a |}) w.
Proof.
  intros E. unfold EnsureTypeMeta. rewrite E. destruct (ToAPIVersionAndKind gvk) as [v k].
  destruct (String.eqb_spec (ac_api_version a) v), (String.eqb_spec (ac_kind a) k); simpl; try done.
  by destruct a; simplify_eq/=.
Qed.

Definition typed_service (a : Accessor) : eventobj :=
  Object {| ac_api_version := "v1"; ac_kind := "Service"; ac_object := ac_object a |}.

Section SystemFacts.
Context {Q QP : Type} `{!WorkQueue NamespacedName Q, !ControllerQueue NamespacedName Q, !WorkQueue nat QP, !MapOrder, !KeyOrder}.
Implicit Types (σ : system Q QP) (key : NamespacedName).

(** The keys the delivery of an event puts on the queue. *)
Definition delivered_keys (now now' : NamespacedName → Z) (h : handler_id) (e : resource_event) σ
    : gset NamespacedName :=
  match h with
  | IngressByClass => match passed myFilterFunc e with Some obj => object_key obj | None => ∅ end
  | IngressByOwner | ProxyByOwner =>
      match passed FilterController_Ingress e with Some obj => controller_key obj | None => ∅ end
  | ServiceChanged =>
      match DeletionHandlingAccessor (newest e) with
      | inl _ => ∅
      | inr a => list_to_set (OnChanged now now' (typed_service a) (sy_tracker σ)).2
      end
  | IngressDeleted | PodDeleted => ∅
  end.

(** What becomes of the tracker: it learns of Services, and drops the leases that ran out. *)
Definition delivered_tracker (now now' : NamespacedName → Z) (h : handler_id) (e : resource_event) σ : tracker :=
  match h with
  | ServiceChanged =>
      match DeletionHandlingAccessor (newest e) with
      | inl _ => sy_tracker σ
      | inr a => (OnChanged now now' (typed_service a) (sy_tracker σ)).1
      end
  | _ => sy_tracker σ
  end.

(** And of the prober: it learns of deleted Ingresses and Pods. *)
Definition delivered_prober (h : handler_id) (e : resource_event) σ : Prober.Prober QP :=
  match h, e with
  | IngressDeleted, OnDelete obj => CancelIngressProbing obj (sy_prober σ)
  | PodDeleted, OnDelete obj => CancelPodProbing obj (sy_prober σ)
  | _, _ => sy_prober σ
  end.

Lemma enqueue_all_enqueued keys σ : wq_ok (sy_queue σ) →
  enqueued (sy_queue σ) (sy_queue (enqueue_all keys σ)) (list_to_set keys).
Proof.
  intros Hok. simpl.
  replace (list_to_set keys) with (⋃ ((λ key, {[key]}) <$> keys) : gset NamespacedName).
  - apply fold_enqueued; [|done]. intros. by apply EnqueueKey_enqueued.
  - apply set_eq. intros k. rewrite elem_of_union_list, elem_of_list_to_set. split.
    + intros (X & (k' & -> & ?)%list_elem_of_fmap & ->%elem_of_singleton). done.
    + intros ?. exists {[k]}. split; [apply list_elem_of_fmap; by exists k|by apply elem_of_singleton].
Qed.

Lemma deliver_enqueued h e now now' σ : wq_ok (sy_queue σ) →
  enqueued (sy_queue σ) (sy_queue (handlers now now' h e σ)) (delivered_keys now now' h e σ).
Proof.
  intros Hok. destruct h; cbn [handlers delivered_keys].
  - rewrite filtering_handler. destruct (passed _ e); [by apply Enqueue_enqueued|by apply enqueued_refl].
  - rewrite filtering_handler. destruct (passed _ e); [by apply EnqueueControllerOf_enqueued|by apply enqueued_refl].
  - rewrite filtering_handler. destruct (passed _ e); [by apply EnqueueControllerOf_enqueued|by apply enqueued_refl].
  - destruct e; by apply enqueued_refl.
  - destruct e; by apply enqueued_refl.
  - rewrite handle_all. destruct (DeletionHandlingAccessor (newest e)) as [err|a] eqn:E.
    + unfold EnsureTypeMeta. rewrite E. by apply enqueued_refl.
    + rewrite (EnsureTypeMeta_spec _ _ _ a) by done. unfold tracker_OnChanged.
      change (Object _) with (typed_service a).
      destruct (OnChanged now now' (typed_service a) (sy_tracker σ)) as [t keys].
      by apply (enqueue_all_enqueued keys (with_tracker t σ)).
Qed.

(** The rest of the system. *)
Lemma deliver_rest h e now now' σ :
  sy_tracker (handlers now now' h e σ) = delivered_tracker now now' h e σ ∧
  sy_prober (handlers now now' h e σ) = delivered_prober h e σ ∧
  sy_workers (handlers now now' h e σ) = sy_workers σ ∧ sy_idle (handlers now now' h e σ) = sy_idle σ.
Proof.
  destruct h; cbn [handlers delivered_tracker delivered_prober]; rewrite ?filtering_handler, ?handle_all.
  1-3: by destruct (passed _ e), e.
  1-2: by destruct e.
  destruct (DeletionHandlingAccessor (newest e)) as [err|a] eqn:E.
  - unfold EnsureTypeMeta. rewrite E. by destruct e.
  - rewrite (EnsureTypeMeta_spec _ _ _ a) by done. unfold tracker_OnChanged. change (Object _) with (typed_service a).
    destruct (OnChanged _ _ _ _). by destruct e.
Qed.

(** C15: what the wiring does with every event of every informer.  An Ingress event puts
    the Ingress itself on the queue when it has (or, after an update, had) our class; an
    event of an HTTPProxy or child Ingress puts its controlling Ingress on the queue; a
    Service event goes to the tracker, as one of a typed Service, and puts exactly the keys
    the tracker names on the queue; deletions of Ingresses and Pods go to the prober.  No
    other key is requested, none is lost, and the tracker, the prober and the workers are
    otherwise as they were. *)
Theorem deliver_requests h e now now' σ : wq_ok (sy_queue σ) →
  ∃ σ', sys_exec (SDeliver h e now now') σ = Some σ' ∧
    enqueued (sy_queue σ) (sy_queue σ') (delivered_keys now now' h e σ) ∧
    sy_tracker σ' = delivered_tracker now now' h e σ ∧ sy_prober σ' = delivered_prober h e σ ∧
    sy_workers σ' = sy_workers σ ∧ sy_idle σ' = sy_idle σ.
Proof.
  intros Hok. eexists. split; [done|]. split; [by apply deliver_enqueued|]. apply deliver_rest.
Qed.

(** ** Every step *)

(** The workers hold exactly the keys the queue handed out, and there are two of them. *)
Record sys_ok σ : Prop := {
  so_queue : wq_ok (sy_queue σ);
  so_held : dom (sy_workers σ) = wq_held (sy_queue σ);
  so_workers : (sy_idle σ + size (sy_workers σ) ≤ DefaultThreadsPerController)%nat
}.

(** Steps that only put keys on the queue. *)
Lemma enqueues_ok σ σ' : sys_ok σ → enqueues (sy_queue σ) (sy_queue σ') →
  sy_workers σ' = sy_workers σ → sy_idle σ' = sy_idle σ →
  sys_ok σ' ∧ wq_down (sy_queue σ') = wq_down (sy_queue σ) ∧
  ∀ key, (0 < wq_count (sy_queue σ) key)%nat → (0 < wq_count (sy_queue σ') key)%nat.
Proof.
  intros [Hok Hh Hw] [K []] Ew Ei. split_and!.
  - split; [done|by rewrite Ew, eq_held0|by rewrite Ew, Ei].
  - done.
  - intros key Hk. specialize (eq_grows0 key). lia.
Qed.

Lemma callbacks_enqueue p l σ : wq_ok (sy_queue σ) →
  let σ' := foldl (λ σ i, readyCallback p i σ) σ l in
  enqueues (sy_queue σ) (sy_queue σ') ∧ sy_workers σ' = sy_workers σ ∧ sy_idle σ' = sy_idle σ ∧
  ∀ i st, i ∈ l → ingresses p !! i = Some st → wq_down (sy_queue σ) = false →
    (0 < wq_count (sy_queue σ') (key_of (ing_meta (st_ing st))))%nat.
Proof.
  revert σ. induction l as [|i l IH]; intros σ Hok; simpl.
  { split_and!; [exists ∅; by apply enqueued_refl|done|done|set_solver]. }
  assert (∃ K, enqueued (sy_queue σ) (sy_queue (readyCallback p i σ)) K ∧
    ∀ st, ingresses p !! i = Some st → key_of (ing_meta (st_ing st)) ∈ K) as (K & HK & Hin).
  { unfold readyCallback. destruct (ingresses p !! i) as [st|].
    - eexists. split; [by apply Enqueue_enqueued|]. intros st' [= <-]. unfold object_key. simpl. by apply elem_of_singleton.
    - exists ∅. split; [by apply enqueued_refl|done]. }
  assert (sy_workers (readyCallback p i σ) = sy_workers σ ∧ sy_idle (readyCallback p i σ) = sy_idle σ) as [Ew Ei]
    by (unfold readyCallback; by destruct (ingresses p !! i)).
  destruct (IH (readyCallback p i σ) (eq_ok _ _ _ HK)) as ([K2 HK2] & Ew2 & Ei2 & Hreq).
  split_and!; [eexists; by eapply enqueued_trans|congruence|congruence|].
  intros j st [->|Hj]%elem_of_cons Hst Hd.
  - pose proof (eq_grows _ _ _ HK2 (key_of (ing_meta (st_ing st)))).
    pose proof (eq_requested _ _ _ HK _ (Hin st Hst) Hd). lia.
  - eapply Hreq; [done|done|]. by rewrite (eq_down _ _ _ HK).
Qed.

(** After a reconcile the key is forgotten or asked for again; no request is served. *)
Lemma processNextWorkItem_end_spec b r key (q q' : Q) : wq_ok q → processNextWorkItem_end b r key q = Some q' →
  wq_ok q' ∧ wq_held q' = wq_held q ∧ wq_down q' = wq_down q ∧
  (∀ k, (0 < wq_count q k)%nat → (0 < wq_count q' k)%nat).
Proof.
  intros Hok.
  assert (∀ q1, Some (wq_forget key q) = Some q1 → wq_ok q1 ∧ wq_held q1 = wq_held q ∧ wq_down q1 = wq_down q ∧
    (∀ k, (0 < wq_count q k)%nat → (0 < wq_count q1 k)%nat)) as Hf.
  { intros q1 [= <-]. destruct (wq_forget_spec q key Hok) as (? & ? & ? & Hc). split_and!; try done.
    intros k. by rewrite Hc. }
  destruct r; simpl; [apply Hf| |apply Hf|done].
  unfold handleErr. simpl. destruct (wq_down q) eqn:Hd; [apply Hf|].
  intros Ha. apply wq_add_rate_limited_spec in Ha as (? & ? & Hd' & Hne & _ & Hpos); [|done].
  split_and!; [done|done|congruence|]. intros k Hk. destruct (decide (k = key)) as [->|]; [by apply Hpos|].
  by rewrite Hne.
Qed.

(** A step keeps the invariant; a request outlives it unless it is handed to a worker. *)
Lemma sys_exec_spec e σ σ' : sys_ok σ → sys_exec e σ = Some σ' →
  sys_ok σ' ∧ ∀ key, (0 < wq_count (sy_queue σ) key)%nat →
    key ∈ handed e σ ∨ (0 < wq_count (sy_queue σ') key)%nat.
Proof.
  intros Hok. pose proof (so_queue _ Hok) as Hq.
  assert (∀ σ1, enqueues (sy_queue σ) (sy_queue σ1) → sy_workers σ1 = sy_workers σ → sy_idle σ1 = sy_idle σ →
    sys_ok σ1 ∧ ∀ key, (0 < wq_count (sy_queue σ) key)%nat →
      key ∈ handed e σ ∨ (0 < wq_count (sy_queue σ1) key)%nat) as Henq.
  { intros σ1 He Ew Ei. destruct (enqueues_ok σ σ1 Hok He Ew Ei) as (? & _ & ?). split; [done|]. auto. }
  destruct e as [h ev now now'|v store|has all|c w rf obj|a| |key r b|key|ev|]; cbn [sys_exec].
  - pose proof (deliver_enqueued h ev now now' σ Hq) as K. destruct (deliver_rest h ev now now' σ) as (_ & _ & Hw & Hi). intros [= <-].
    apply Henq; [eexists; exact K|done|done].
  - intros [= <-]. destruct v; apply Henq; try done.
    1-2: by apply FilteredGlobalResync_enqueues.
    exists ∅. by apply enqueued_refl.
  - intros [= <-]. apply Henq; [by apply PromoteFunc_enqueues|done|done].
  - destruct (TrackReference _ _ _ _ _) as [[t keys] r]. intros [= <-].
    apply Henq; [|done|done]. eexists. by apply (enqueue_all_enqueued keys (with_tracker t σ)).
  - destruct (exec a (sy_prober σ)) as [p|]; [|done]. intros [= <-].
    destruct (callbacks_enqueue p (drop (length (callbacks (sy_prober σ))) (callbacks p)) (with_prober p σ) Hq)
      as (? & ? & ? & _). by apply Henq.
  - destruct (sy_idle σ) as [|n] eqn:Ei; [done|].
    destruct (wq_get (sy_queue σ)) as [[[key|] q]|] eqn:Eg; [| |done]; simpl; rewrite ?Eg; intros [= <-].
    + apply wq_get_item in Eg as (Hq' & Hnh & Hheld & _ & _ & Hoth); [|done].
      destruct Hok as [_ Hdom Hsz]. split.
      * split; simpl; [done|rewrite dom_insert_L, Hdom, Hheld; set_solver|].
        rewrite map_size_insert_None; [lia|]. apply not_elem_of_dom. by rewrite Hdom.
      * intros k Hk. destruct (decide (k = key)) as [->|Hne]; [left; left|right].
        simpl. by rewrite Hoth.
    + apply wq_get_shutdown in Eg as [_ ->]; [|done]. split; [|by right].
      destruct Hok. split; simpl; [done|done|lia].
  - destruct (sy_workers σ !! key) as [[]|] eqn:Ew; [|done..].
    destruct (processNextWorkItem_end b r key (sy_queue σ)) as [q|] eqn:Eq; [|done]. intros [= <-].
    apply processNextWorkItem_end_spec in Eq as (Hq' & Hheld & _ & Hcount); [|done].
    destruct Hok as [_ Hdom Hsz]. split; [|by right; apply Hcount].
    split; simpl; [done| |by rewrite map_size_insert_Some by eauto].
    rewrite dom_insert_L, Hheld, <-Hdom. apply elem_of_dom_2 in Ew. set_solver.
  - destruct (sy_workers σ !! key) as [[]|] eqn:Ew; [done| |done]. intros [= <-].
    destruct Hok as [_ Hdom Hsz]. pose proof (elem_of_dom_2 _ _ _ Ew) as Hin. rewrite Hdom in Hin.
    destruct (wq_done_spec (sy_queue σ) key Hq Hin) as (Hq' & Hheld & _ & Hc). split.
    + split; simpl; [done|by rewrite dom_delete_L, Hdom, Hheld|].
      rewrite map_size_delete_Some by eauto. assert (size (sy_workers σ) ≠ 0%nat); [|lia].
      intros E0%map_size_empty_inv. by rewrite E0, lookup_empty in Ew.
    + intros k Hk. right. simpl. by rewrite Hc.
  - destruct (wq_tick ev (sy_queue σ)) as [q|] eqn:Et; [|done]. intros [= <-].
    apply wq_tick_spec in Et as (Hq' & Hheld & _ & Hc); [|done]. destruct Hok as [_ Hdom Hsz]. split.
    + split; simpl; [done|by rewrite Hheld|done].
    + intros k Hk. right. simpl. by apply Hc.
  - intros [= <-]. destruct (wq_shut_down_spec (sy_queue σ) Hq) as (Hq' & Hheld & _ & Hc).
    destruct Hok as [_ Hdom Hsz]. split.
    + split; simpl; [done|by rewrite Hheld|done].
    + intros k Hk. right. simpl. by rewrite Hc.
Qed.

Lemma NewController_ok q qp lease : wq_ok q → wq_held q = ∅ → sys_ok (NewController q qp lease).
Proof. intros ? E. split; simpl; [done|by rewrite dom_empty_L|by rewrite map_size_empty]. Qed.

Lemma sys_run_ok l σ ks σ' : sys_run l σ ks σ' → sys_ok σ → sys_ok σ'.
Proof. induction 1; [done|]. intros Hok. by apply IHsys_run, (sys_exec_spec e σ1). Qed.

Lemma sys_run_request l σ ks σ' key : sys_run l σ ks σ' → sys_ok σ →
  (0 < wq_count (sy_queue σ) key)%nat → key ∈ ks ∨ (0 < wq_count (sy_queue σ') key)%nat.
Proof.
  induction 1 as [|e l σ1 σ2 σ3 ks He Hrun IH]; intros Hok Hk; [by right|].
  destruct (sys_exec_spec e σ1 σ2 Hok He) as [Hok2 Hreq].
  destruct (Hreq key Hk) as [?|Hk2]; [left; set_solver|]. destruct (IH Hok2 Hk2); [left; set_solver|by right].
Qed.

(** A failed reconcile asks for its key again. *)
Lemma failed_key_requested σ σ' key e b : sys_ok σ → wq_down (sy_queue σ) = false →
  sys_exec (SFinish key (GError e) b) σ = Some σ' → (0 < wq_count (sy_queue σ') key)%nat.
Proof.
  intros Hok Hd. cbn [sys_exec]. destruct (sy_workers σ !! key) as [[]|]; [|done..].
  simpl. unfold handleErr. rewrite Hd. simpl.
  destruct (wq_add_rate_limited b key (sy_queue σ)) as [q|] eqn:Ea; [|done]. intros [= <-].
  apply wq_add_rate_limited_spec in Ea as (_ & _ & _ & _ & _ & Hpos); [by apply Hpos|apply Hok].
Qed.

(** The queue's goroutines and the clock alone. *)
Lemma queue_steps σ q q' : sy_queue σ = q → rtc (λ q q', ∃ e, wq_tick e q = Some q') q q' →
  ∃ l, sys_run l σ [] (with_queue q' σ).
Proof.
  intros Hq Ht. revert σ Hq. induction Ht as [q|q q1 q2 [e He] Ht IH]; intros σ Hq.
  - exists []. subst q. destruct σ. constructor.
  - destruct (IH (with_queue q1 σ) eq_refl) as [l Hl]. exists (SQueue e :: l).
    apply (run_cons (SQueue e) l σ (with_queue q1 σ) _ []); [simpl; rewrite Hq, He; done|].
    by destruct σ.
Qed.

(** C16: in every state the system can reach, the two workers hold exactly the keys the
    queue handed out and did not get back, so that no key is reconciled twice at the same
    time; whatever happens next, a requested key stays requested until a worker gets it;
    a reconcile that fails while the queue is up requests its key; and while a key waits
    that no worker holds, an idle worker can always get something to do. *)
Theorem controller_keys q qp lease l ks σ :
  wq_ok q → wq_held q = ∅ → sys_run l (NewController q qp lease) ks σ →
  (size (sy_workers σ) ≤ DefaultThreadsPerController)%nat ∧
  (∀ key, key ∈ handed SGet σ → key ∉ dom (sy_workers σ)) ∧
  (∀ l' ks' σ' key, sys_run l' σ ks' σ' → (0 < wq_count (sy_queue σ) key)%nat →
     key ∈ ks' ∨ (0 < wq_count (sy_queue σ') key)%nat) ∧
  (∀ key e b σ1 l' ks' σ', sys_exec (SFinish key (GError e) b) σ = Some σ1 → wq_down (sy_queue σ) = false →
     sys_run l' σ1 ks' σ' → key ∈ ks' ∨ (0 < wq_count (sy_queue σ') key)%nat) ∧
  (∀ key, wq_down (sy_queue σ) = false → (0 < wq_count (sy_queue σ) key)%nat → key ∉ dom (sy_workers σ) →
     (0 < sy_idle σ)%nat →
     ∃ l' σ1 key' σ2, sys_run l' σ [] σ1 ∧ sys_exec SGet σ1 = Some σ2 ∧ handed SGet σ1 = [key']).
Proof.
  intros Hq Hh Hrun. pose proof (sys_run_ok _ _ _ _ Hrun (NewController_ok q qp lease Hq Hh)) as Hok.
  split_and!.
  - pose proof (so_workers _ Hok). lia.
  - intros key. unfold handed. destruct (wq_get (sy_queue σ)) as [[[k|] q']|] eqn:Eg; [|set_solver..].
    intros ->%list_elem_of_singleton. apply wq_get_item in Eg as (_ & Hn & _); [|apply Hok].
    by rewrite (so_held _ Hok).
  - intros l' ks' σ' key Hrun' Hk. by eapply sys_run_request.
  - intros key e b σ1 l' ks' σ' Hf Hd Hrun'.
    eapply sys_run_request; [done|by eapply sys_exec_spec|by eapply failed_key_requested].
  - intros key Hd Hk Hn Hi. rewrite (so_held _ Hok) in Hn.
    destruct (wq_get_live (sy_queue σ) key (so_queue _ Hok) Hd Hk Hn) as (q1 & y & q2 & Ht & Hg).
    destruct (queue_steps σ _ q1 eq_refl Ht) as [l' Hl']. exists l', (with_queue q1 σ), y. simpl. rewrite Hg.
    destruct (sy_idle σ) as [|n]; [lia|]. by eexists.
Qed.
End SystemFacts.
