(* ===== verification/Requeue.v ===== *)
(** * What an Ingress depends on brings it back

    The reconciler's output is level triggered: whatever it made or looked at must put the
    Ingress back on the queue when it changes.  Here the wiring of [Controller] meets the
    objects [Proxies] and [EndpointProbe] make, the references [Reconcile] tracks and the
    callback of [Prober].  The last theorem is the exception: a deletion the informer
    missed. *)

From S2P Require Import Prelude Meta Ingress NetIngress HTTPProxy Config Proxies EndpointProbe Reconcile Events Workqueue TwoLane Tracker Prober GenReconciler Controller.
Local Open Scope Z_scope.

Section Requeue.
Context {Q QP : Type} `{!WorkQueue NamespacedName Q, !ControllerQueue NamespacedName Q, !WorkQueue nat QP, !MapOrder, !KeyOrder}.
Implicit Types (σ : system Q QP) (key : NamespacedName).

(** A key waits to be reconciled. *)
Definition requested σ key : Prop := (0 < wq_count (sy_queue σ) key)%nat.

(** The queue is up and sound. *)
Definition up σ : Prop := wq_ok (sy_queue σ) ∧ wq_down (sy_queue σ) = false.

Lemma delivered_requested h e now now' σ key : up σ → key ∈ delivered_keys now now' h e σ →
  requested (handlers now now' h e σ) key.
Proof.
  intros [Hok Hd] Hin. pose proof (deliver_enqueued h e now now' σ Hok) as K.
  by apply (eq_requested _ _ _ K).
Qed.

(** ** Objects it owns *)

Definition object_of (o : Kobject) : eventobj :=
  Object {| ac_api_version := ""; ac_kind := ""; ac_object := o |}.

(** The event shows the object: it was added, changed (from anything), or deleted while
    the watch was up. *)
Definition shows (o : Kobject) (e : resource_event) : Prop :=
  e = OnAdd (object_of o) ∨ (∃ old, e = OnUpdate old (object_of o)) ∨ e = OnDelete (object_of o).

Lemma shows_passed f o e : shows o e → f (object_of o) = true → passed f e = Some (object_of o).
Proof. intros [->|[[old ->]| ->]] Hf; simpl; by rewrite Hf. Qed.

(** An object whose owner is the controller reference to an Ingress passes the filter and
    leads back to it. *)
Lemma owned_passes m (ing : Ingress) o : ac_meta {| ac_api_version := ""; ac_kind := ""; ac_object := o |} = m →
  om_namespace m = ing_namespace ing → om_owners m = [NewControllerRef (ing_meta ing)] →
  FilterController_Ingress (object_of o) = true ∧ controller_key (object_of o) = {[key_of (ing_meta ing)]}.
Proof.
  intros Hm Hns How. unfold FilterController_Ingress, FilterControllerGK, controller_key, object_of.
  cbn [as_object DeletionHandlingAccessor]. rewrite Hm. unfold GetControllerOf. rewrite How. simpl.
  split; [by vm_compute|]. by rewrite Hns.
Qed.

(** Every event of a generated HTTPProxy, of the child Ingress made for the endpoint
    probe, or of the Ingress itself (with our class) requests the Ingress; so does the
    prober when it finds that the last pod serves it.  For the generated objects it is
    enough that namespace and owner are those the reconciler wrote. *)
Theorem owned_events_requeue env cfg (ing : Ingress) stp proxies proxy prior child σ now now' :
  up σ → env_ok env cfg → has_http ing →
  MakeHTTPProxies env cfg ing stp = Ret proxies → proxy ∈ proxies →
  MakeEndpointProbeIngress cfg ing prior = Ret child →
  let key := key_of (ing_meta ing) in
  (∀ p e, hp_namespace p = hp_namespace proxy → om_owners (hp_meta p) = om_owners (hp_meta proxy) →
     shows (KHTTPProxy p) e → requested (handlers now now' ProxyByOwner e σ) key) ∧
  (∀ i e, ing_namespace i = ing_namespace child → om_owners (ing_meta i) = om_owners (ing_meta child) →
     shows (KIngress i) e → requested (handlers now now' IngressByOwner e σ) key) ∧
  (∀ e, ing_annotations ing !! IngressClassAnnotationKey = Some ContourIngressClassName →
     shows (KIngress ing) e → requested (handlers now now' IngressByClass e σ) key) ∧
  (∀ a σ' p i st, sys_exec (SProber a) σ = Some σ' → exec a (sy_prober σ) = Some p →
     i ∈ drop (length (callbacks (sy_prober σ))) (callbacks p) → ingresses p !! i = Some st →
     key_of (ing_meta (st_ing st)) = key → requested σ' key).
Proof.
  intros Hup Henv Hh Hps Hp Hc key. split_and!.
  - intros p e Hns How Hsh. apply delivered_requested; [done|]. cbn [delivered_keys].
    rewrite MakeHTTPProxies_ret in Hps by done. injection Hps as <-.
    apply elem_of_proxies_of in Hp as (rule & oh & h & _ & _ & _ & ->).
    destruct (owned_passes (hp_meta p) ing (KHTTPProxy p) eq_refl Hns How) as [Hf Hk].
    rewrite (shows_passed _ _ _ Hsh Hf), Hk. by apply elem_of_singleton.
  - intros i e Hns How Hsh. apply delivered_requested; [done|]. cbn [delivered_keys].
    destruct (MakeEndpointProbeIngress_ret cfg ing prior Hh) as (c & Hc' & Hm & _).
    rewrite Hc' in Hc. injection Hc as ->. unfold ing_namespace in Hns. rewrite Hm in Hns, How.
    destruct (owned_passes (ing_meta i) ing (KIngress i) eq_refl Hns How) as [Hf Hk].
    rewrite (shows_passed _ _ _ Hsh Hf), Hk. by apply elem_of_singleton.
  - intros e Ha Hsh. apply delivered_requested; [done|]. cbn [delivered_keys].
    rewrite (shows_passed _ _ _ Hsh); [unfold object_key; simpl; by apply elem_of_singleton|].
    unfold myFilterFunc, AnnotationFilterFunc, mapHasOrDefault. cbn [as_object object_of ac_meta ac_object].
    unfold ing_annotations in Ha. by rewrite Ha.
  - intros a σ' p i st Hs He Hi Hst <-. cbn [sys_exec] in Hs. rewrite He in Hs. injection Hs as <-.
    destruct (callbacks_enqueue p (drop (length (callbacks (sy_prober σ))) (callbacks p)) (with_prober p σ)
      (proj1 Hup)) as (_ & _ & _ & Hreq).
    eapply Hreq; [done|done|apply Hup].
Qed.

(** ** Services it tracks *)

(** The reference [ReconcileKind] tracks a Service by. *)
Definition service_reference (ns name : string) : SelectorReference :=
  {| rf_ref := {| tr_api_version := "v1"; tr_kind := "Service"; tr_namespace := ns; tr_name := name |};
     rf_selector := None |}.

(** The tracker holds a lease of [key] on the object named by [ref], until [expiry] at least. *)
Definition leased (t : tracker) (ref : Reference) key (expiry : Z) : Prop :=
  ∃ e, exact t !! ref ≫= (.!! key) = Some e ∧ expiry ≤ e.

(** An event reads the clock between [lo] and [hi]. *)
Definition within (lo hi : Z) (e : sys_event Q QP) : Prop :=
  match e with
  | SDeliver ServiceChanged _ now _ => ∀ k, now k ≤ hi
  | STrack _ written _ _ => lo ≤ written
  | _ => True
  end.

Lemma track_leased checked written rf obj (t : tracker) ref key expiry :
  leased t ref key expiry → expiry ≤ written + leaseDuration t →
  leased (TrackReference checked written rf obj t).1.1 ref key expiry.
Proof.
  intros (e & He & Hle) Hw. unfold TrackReference.
  destruct (fieldErrors rf); [|by exists e]. destruct (DeletionHandlingAccessor obj) as [|a]; [by exists e|].
  destruct (reference_selector rf).2; [by exists e|]. unfold leased. simpl.
  destruct (decide (rf_ref rf = ref)) as [->|]; [|rewrite lookup_insert_ne by done; by exists e].
  rewrite lookup_insert_eq. simpl. destruct (decide (key_of (ac_meta a) = key)) as [->|].
  - rewrite lookup_insert_eq. by eexists.
  - rewrite lookup_insert_ne by done. destruct (exact t !! ref); [by exists e|done].
Qed.

Lemma changed_leased now now' obj (t : tracker) ref key expiry :
  leased t ref key expiry → (∀ k, now k ≤ expiry) → leased (OnChanged now now' obj t).1 ref key expiry.
Proof.
  intros (e & He & Hle) Hn. unfold OnChanged, GetObservers.
  destruct (DeletionHandlingAccessor obj) as [|a]; [by exists e|].
  destruct (observers snd _ _ _ _) as [inex ks]. unfold observers.
  destruct (exact t !! ObjectReference a) as [s|] eqn:Es; [|by exists e].
  unfold leased. simpl. exists e. split; [|done]. destruct (decide (ref = ObjectReference a)) as [->|Hne].
  - rewrite Es in He. simpl in He.
    assert (prune id now s !! key = Some e) as Hp.
    { unfold prune. apply map_lookup_filter_Some. split; [done|]. simpl. unfold isExpired. specialize (Hn key). lia. }
    unfold drop_empty. case_bool_decide as E0; [by rewrite E0, lookup_empty in Hp|]. by rewrite lookup_insert_eq.
  - unfold drop_empty. case_bool_decide; [by rewrite lookup_delete_ne|by rewrite lookup_insert_ne].
Qed.

Lemma changed_observes now now' a (t : tracker) key expiry :
  leased t (ObjectReference a) key expiry → now key ≤ expiry →
  key ∈ (OnChanged now now' (Object a) t).2.
Proof.
  intros (e & He & Hle) Hn. unfold OnChanged, GetObservers. cbn [DeletionHandlingAccessor].
  destruct (observers snd _ _ _ _) as [inex ks]. unfold observers.
  destruct (exact t !! ObjectReference a) as [s|] eqn:Es; [|done]. simpl in *.
  apply elem_of_app. left. apply list_elem_of_fmap. exists (key, e). split; [done|].
  apply list_elem_of_filter. split; [|by apply elem_of_range_keys]. simpl. unfold isExpired. split; [lia|done].
Qed.

Lemma enqueue_all_tracker keys σ : sy_tracker (enqueue_all keys σ) = sy_tracker σ.
Proof. done. Qed.

Lemma OnChanged_lease now now' obj (t : tracker) : leaseDuration (OnChanged now now' obj t).1 = leaseDuration t.
Proof. exact (tracker_step_lease (OChanged now now' obj) t). Qed.

Lemma step_leased e σ σ' lo hi ref key : sys_exec e σ = Some σ' → within lo hi e →
  leased (sy_tracker σ) ref key hi → hi ≤ lo + leaseDuration (sy_tracker σ) →
  leased (sy_tracker σ') ref key hi ∧ leaseDuration (sy_tracker σ') = leaseDuration (sy_tracker σ).
Proof.
  intros He Hw Hl Hle.
  assert (∀ σ1, sy_tracker σ1 = sy_tracker σ → leased (sy_tracker σ1) ref key hi ∧
    leaseDuration (sy_tracker σ1) = leaseDuration (sy_tracker σ)) as Hsame by (by intros σ1 ->).
  destruct e as [h ev now now'|v store|has all|c w rf obj|a| |k r b|k|ev|]; cbn [sys_exec] in He.
  - injection He as <-. destruct h; cbn [handlers]; rewrite ?filtering_handler, ?handle_all.
    1-3: by destruct (passed _ ev); apply Hsame.
    1-2: by destruct ev; apply Hsame.
    destruct (DeletionHandlingAccessor (newest ev)) as [err|a] eqn:E.
    + unfold EnsureTypeMeta. rewrite E. by apply Hsame.
    + rewrite (EnsureTypeMeta_spec _ _ _ a) by done. unfold tracker_OnChanged.
      pose proof (changed_leased now now' (typed_service a) _ ref key hi Hl Hw) as Hl'.
      pose proof (OnChanged_lease now now' (typed_service a) (sy_tracker σ)) as Hd.
      change (Object _) with (typed_service a). by destruct (OnChanged _ _ _ _).
  - injection He as <-. by destruct v; apply Hsame.
  - injection He as <-. by apply Hsame.
  - pose proof (track_leased c w rf obj (sy_tracker σ) ref key hi Hl) as Hl'.
    pose proof (tracker_step_lease (OTrack c w rf obj) (sy_tracker σ)) as Hd. simpl in Hd, Hw.
    destruct (TrackReference c w rf obj (sy_tracker σ)) as [[t keys] r]. injection He as <-.
    split; [apply Hl'; lia|done].
  - destruct (exec a (sy_prober σ)) as [p|]; [|done]. injection He as <-. apply Hsame.
    generalize (drop (length (callbacks (sy_prober σ))) (callbacks p)). intros l.
    change (sy_tracker σ) with (sy_tracker (with_prober p σ)). generalize (with_prober p σ).
    induction l as [|i l IH]; intros σ0; simpl; [done|]. rewrite IH. unfold readyCallback. by destruct (_ !! _).
  - destruct (sy_idle σ); [done|]. destruct (wq_get _) as [[[?|] ?]|]; [| |done]; injection He as <-; by apply Hsame.
  - destruct (sy_workers σ !! k) as [[]|]; [|done..]. destruct (processNextWorkItem_end _ _ _ _); [|done].
    injection He as <-. by apply Hsame.
  - destruct (sy_workers σ !! k) as [[]|]; [done| |done]. injection He as <-. by apply Hsame.
  - destruct (wq_tick _ _); [|done]. injection He as <-. by apply Hsame.
  - injection He as <-. by apply Hsame.
Qed.

Lemma run_leased l σ ks σ' lo hi ref key : sys_run l σ ks σ' → Forall (within lo hi) l →
  leased (sy_tracker σ) ref key hi → hi ≤ lo + leaseDuration (sy_tracker σ) →
  leased (sy_tracker σ') ref key hi.
Proof.
  induction 1 as [|e l σ1 σ2 σ3 ks He Hrun IH]; [done|].
  intros [Hw Hws]%Forall_cons Hl Hle.
  destruct (step_leased e σ1 σ2 lo hi ref key He Hw Hl Hle) as [Hl2 Hd2]. apply IH; [done|done|by rewrite Hd2].
Qed.

(** C17: once a reconcile has tracked a Service, any event of that Service (a tombstone
    included) that the tracker looks at before the lease ends requests the Ingress, whatever
    happened in between; and if the Ingress held no live lease before, tracking alone
    requests it, so that no change before the registration is missed. *)
Theorem tracked_service_requeues checked written ns name (ing : Ingress) σ σ1 l ks σ2 e a now now' hi :
  let key := key_of (ing_meta ing) in
  let ref := rf_ref (service_reference ns name) in
  up σ → fieldErrors (service_reference ns name) = [] →
  sys_exec (STrack checked written (service_reference ns name) (object_of (KIngress ing))) σ = Some σ1 →
  (exact (sy_tracker σ) !! ref ≫= (.!! key) = None → requested σ1 key) ∧
  (sys_run l σ1 ks σ2 → up σ2 → Forall (within written hi) l →
   hi ≤ written + leaseDuration (sy_tracker σ) →
   DeletionHandlingAccessor (newest e) = inr a → key_of (ac_meta a) = {| nn_namespace := ns; nn_name := name |} →
   now key ≤ hi → requested (handlers now now' ServiceChanged e σ2) key).
Proof.
  intros key ref Hup Hf Hs. cbn [sys_exec] in Hs. unfold TrackReference in Hs. rewrite Hf in Hs.
  cbn [DeletionHandlingAccessor object_of] in Hs.
  assert ((reference_selector (service_reference ns name)).2 = None) as Esel
    by (unfold reference_selector; simpl; by destruct (String.eqb name "")).
  rewrite Esel in Hs. cbn [ac_meta ac_object] in Hs.
  change (rf_ref (service_reference ns name)) with ref in Hs. fold key in Hs.
  destruct (track_exact checked written ref key (sy_tracker σ)) as [t keys] eqn:Et. injection Hs as <-.
  unfold track_exact in Et. injection Et as Et Ek. split.
  - intros Hnone.
    assert (default ∅ (exact (sy_tracker σ) !! ref) !! key = None) as En.
    { destruct (exact (sy_tracker σ) !! ref); [done|]. apply lookup_empty. }
    rewrite En in Ek. subst keys.
    pose proof (enqueue_all_enqueued [key] (with_tracker t σ) (proj1 Hup)) as He.
    apply (eq_requested _ _ _ He); [set_solver|apply Hup].
  - intros Hrun Hup2 Hw Hhi Ha Hkey Hn. apply delivered_requested; [done|]. cbn [delivered_keys]. rewrite Ha.
    apply elem_of_list_to_set. unfold typed_service.
    set (ta := {| ac_api_version := "v1"; ac_kind := "Service"; ac_object := ac_object a |}).
    assert (ObjectReference ta = ref) as Er.
    { unfold ObjectReference, ref. simpl. injection Hkey as <- <-. by destruct a. }
    eapply changed_observes; [|exact Hn]. rewrite Er.
    eapply run_leased; [done|done| |]; rewrite enqueue_all_tracker; simpl; rewrite <-Et; simpl; [|done].
    exists (written + leaseDuration (sy_tracker σ)). simpl. rewrite lookup_insert_eq. simpl.
    by rewrite lookup_insert_eq.
Qed.

(** ** Missed deletions *)

(** A deletion that the informer learns of only when it lists again arrives as a
    tombstone.  [EnqueueControllerOf], [Enqueue] and [CancelIngressProbing] look into
    tombstones, but the filters in front of the first two assert the object's type, and so
    does [CancelPodProbing]: the deletion of an owned HTTPProxy, of a child Ingress, of an
    Ingress of our class or of a Pod changes nothing, although the handler behind the
    filter would request the key. *)
Theorem tombstones_ignored now now' σ k (a : Accessor) h :
  h ≠ IngressDeleted → h ≠ ServiceChanged →
  handlers now now' h (OnDelete (Tombstone k (Some a))) σ = σ ∧
  (∀ owner, GetControllerOf (ac_meta a) = Some owner → up σ →
     (0 < wq_count (EnqueueControllerOf (Tombstone k (Some a)) (sy_queue σ))
            {| nn_namespace := om_namespace (ac_meta a); nn_name := or_name owner |})%nat).
Proof.
  intros H1 H2. split; [destruct h; try done; by destruct σ|].
  intros owner Ho [Hok Hd].
  apply (eq_requested _ _ _ (EnqueueControllerOf_enqueued (Tombstone k (Some a)) (sy_queue σ) Hok)); [|done].
  unfold controller_key. simpl. rewrite Ho. by apply elem_of_singleton.
Qed.
End Requeue.
