(* ===== verification/Client.v ===== *)
(** * The generated typed clients (pkg/client/clientset/versioned/typed/projectcontour/v1)

    The clients for HTTPProxies and TLSCertificateDelegations as the requests they
    build on client-go's [rest.Request], up to the point where a request is sent or
    refused.  Both files hold the same generated code, so the operations are written
    once for a resource name and an object type, and instantiated twice.  Bodies are
    kept as the values handed to [Body] (their serialization, and the encoding of
    option structs as query parameters, belong to the scheme's codecs); pointers
    handed to [Create] and [Update] are not nil. *)

From S2P Require Import Prelude Meta Labels HTTPProxy.
Local Open Scope Z_scope.

(** ** Objects *)

(** What [meta.Accessor] gives for an API object. *)
Class Object (O : Type) := obj_meta : O → ObjectMeta.

Definition GetNamespace {O} `{Object O} (o : O) : string := om_namespace (obj_meta o).
Definition GetName {O} `{Object O} (o : O) : string := om_name (obj_meta o).
Definition GetLabels {O} `{Object O} (o : O) : gmap string string := om_labels (obj_meta o).

Record CertificateDelegation := { cd_secret_name : string; cd_target_namespaces : list string }.
Record TLSCertificateDelegation := {
  td_meta : ObjectMeta;
  td_delegations : list CertificateDelegation
}.

#[export] Instance HTTPProxy_object : Object HTTPProxy := hp_meta.
#[export] Instance TLSCertificateDelegation_object : Object TLSCertificateDelegation := td_meta.

(** ** Requests (client-go/rest/request.go) *)

Inductive body (O : Type) :=
  | BodyObject (o : O)
  | BodyDeleteOptions (options : list (string * string))
  | BodyBytes (data : string).
Arguments BodyObject {O} o.
Arguments BodyDeleteOptions {O} options.
Arguments BodyBytes {O} data.

Section Requests.
Context {O : Type}.

Record Request := {
  rq_verb : string;
  rq_content_type : string;
  rq_namespace_set : bool;
  rq_namespace : string;
  rq_resource : string;
  rq_name : string;
  rq_subresource : string;
  rq_params : list (string * string);
  rq_timeout : Z;
  rq_body : option (body O);
  rq_err : option goerr
}.

Definition new_request (verb : string) : Request := {|
  rq_verb := verb; rq_content_type := ""; rq_namespace_set := false; rq_namespace := "";
  rq_resource := ""; rq_name := ""; rq_subresource := ""; rq_params := []; rq_timeout := 0;
  rq_body := None; rq_err := None
|}.

(** Assignments to a field of the request. *)
Definition set_err (e : goerr) (r : Request) : Request := {|
  rq_verb := rq_verb r; rq_content_type := rq_content_type r;
  rq_namespace_set := rq_namespace_set r; rq_namespace := rq_namespace r;
  rq_resource := rq_resource r; rq_name := rq_name r; rq_subresource := rq_subresource r;
  rq_params := rq_params r; rq_timeout := rq_timeout r; rq_body := rq_body r; rq_err := Some e |}.

Definition set_content_type (pt : string) (r : Request) : Request := {|
  rq_verb := rq_verb r; rq_content_type := pt; rq_namespace_set := rq_namespace_set r;
  rq_namespace := rq_namespace r; rq_resource := rq_resource r; rq_name := rq_name r;
  rq_subresource := rq_subresource r; rq_params := rq_params r; rq_timeout := rq_timeout r;
  rq_body := rq_body r; rq_err := rq_err r |}.

Definition set_namespace (ns : string) (r : Request) : Request := {|
  rq_verb := rq_verb r; rq_content_type := rq_content_type r; rq_namespace_set := true;
  rq_namespace := ns; rq_resource := rq_resource r; rq_name := rq_name r;
  rq_subresource := rq_subresource r; rq_params := rq_params r; rq_timeout := rq_timeout r;
  rq_body := rq_body r; rq_err := rq_err r |}.

Definition set_resource (x : string) (r : Request) : Request := {|
  rq_verb := rq_verb r; rq_content_type := rq_content_type r;
  rq_namespace_set := rq_namespace_set r; rq_namespace := rq_namespace r; rq_resource := x;
  rq_name := rq_name r; rq_subresource := rq_subresource r; rq_params := rq_params r;
  rq_timeout := rq_timeout r; rq_body := rq_body r; rq_err := rq_err r |}.

Definition set_name (x : string) (r : Request) : Request := {|
  rq_verb := rq_verb r; rq_content_type := rq_content_type r;
  rq_namespace_set := rq_namespace_set r; rq_namespace := rq_namespace r;
  rq_resource := rq_resource r; rq_name := x; rq_subresource := rq_subresource r;
  rq_params := rq_params r; rq_timeout := rq_timeout r; rq_body := rq_body r; rq_err := rq_err r |}.

Definition set_subresource (x : string) (r : Request) : Request := {|
  rq_verb := rq_verb r; rq_content_type := rq_content_type r;
  rq_namespace_set := rq_namespace_set r; rq_namespace := rq_namespace r;
  rq_resource := rq_resource r; rq_name := rq_name r; rq_subresource := x;
  rq_params := rq_params r; rq_timeout := rq_timeout r; rq_body := rq_body r; rq_err := rq_err r |}.

Definition add_params (ps : list (string * string)) (r : Request) : Request := {|
  rq_verb := rq_verb r; rq_content_type := rq_content_type r;
  rq_namespace_set := rq_namespace_set r; rq_namespace := rq_namespace r;
  rq_resource := rq_resource r; rq_name := rq_name r; rq_subresource := rq_subresource r;
  rq_params := rq_params r ++ ps; rq_timeout := rq_timeout r; rq_body := rq_body r;
  rq_err := rq_err r |}.

Definition set_timeout (d : Z) (r : Request) : Request := {|
  rq_verb := rq_verb r; rq_content_type := rq_content_type r;
  rq_namespace_set := rq_namespace_set r; rq_namespace := rq_namespace r;
  rq_resource := rq_resource r; rq_name := rq_name r; rq_subresource := rq_subresource r;
  rq_params := rq_params r; rq_timeout := d; rq_body := rq_body r; rq_err := rq_err r |}.

Definition set_body (b : body O) (r : Request) : Request := {|
  rq_verb := rq_verb r; rq_content_type := rq_content_type r;
  rq_namespace_set := rq_namespace_set r; rq_namespace := rq_namespace r;
  rq_resource := rq_resource r; rq_name := rq_name r; rq_subresource := rq_subresource r;
  rq_params := rq_params r; rq_timeout := rq_timeout r; rq_body := Some b; rq_err := rq_err r |}.

Definition IsValidPathSegmentName (name : string) : list string :=
  if String.eqb name "." then ["may not be '.'"]
  else if String.eqb name ".." then ["may not be '..'"]
  else (if Contains name "/" then ["may not contain '/'"] else []) ++
       (if Contains name "%" then ["may not contain '%'"] else []).

(** A builder does nothing once the request has an error. *)
Definition unless_err (f : Request → Request) (r : Request) : Request :=
  match rq_err r with Some _ => r | None => f r end.

Definition Namespace (namespace : string) : Request → Request := unless_err (λ r,
  if rq_namespace_set r then
    set_err (Errorf "namespace already set to %q, cannot change to %q" [rq_namespace r; namespace]) r
  else match IsValidPathSegmentName namespace with
       | [] => set_namespace namespace r
       | msgs => set_err (Errorf "invalid namespace %q: %v" (namespace :: msgs)) r
       end).

Definition Resource (resource : string) : Request → Request := unless_err (λ r,
  if negb (String.eqb (rq_resource r) "") then
    set_err (Errorf "resource already set to %q, cannot change to %q" [rq_resource r; resource]) r
  else match IsValidPathSegmentName resource with
       | [] => set_resource resource r
       | msgs => set_err (Errorf "invalid resource %q: %v" (resource :: msgs)) r
       end).

Definition Name (resourceName : string) : Request → Request := unless_err (λ r,
  if String.eqb resourceName "" then set_err (Errorf "resource name may not be empty" []) r
  else if negb (String.eqb (rq_name r) "") then
    set_err (Errorf "resource name already set to %q, cannot change to %q" [rq_name r; resourceName]) r
  else match IsValidPathSegmentName resourceName with
       | [] => set_name resourceName r
       | msgs => set_err (Errorf "invalid resource name %q: %v" (resourceName :: msgs)) r
       end).

(** [path.Join] of legal segments: empty ones are dropped. *)
Definition nonempty_segments (segments : list string) : list string :=
  List.filter (λ x, negb (String.eqb x "")) segments.
Definition path_join (segments : list string) : string := Join (nonempty_segments segments) "/".

Definition SubResource (subresources : list string) : Request → Request := unless_err (λ r,
  let subresource := path_join subresources in
  if negb (String.eqb (rq_subresource r) "") then
    set_err (Errorf "subresource already set to %q, cannot change to %q"
               [rq_subresource r; subresource]) r
  else match List.find (λ x, negb (bool_decide (IsValidPathSegmentName x = []))) subresources with
       | None => set_subresource subresource r
       | Some x => set_err (Errorf "invalid subresource %q: %v" (x :: IsValidPathSegmentName x)) r
       end).

Definition VersionedParams (params : list (string * string)) : Request → Request :=
  unless_err (add_params params).
Definition Timeout (d : Z) : Request → Request := unless_err (set_timeout d).
Definition Body (b : body O) : Request → Request := unless_err (set_body b).

Definition requestPreflightCheck (r : Request) : option goerr :=
  if negb (rq_namespace_set r) then None
  else if negb (String.eqb (rq_namespace r) "") then None
  else if String.eqb (rq_verb r) "POST" then
    Some (Errorf "an empty namespace may not be set during creation" [])
  else if (String.eqb (rq_verb r) "GET" || String.eqb (rq_verb r) "PUT" || String.eqb (rq_verb r) "DELETE")
          && negb (String.eqb (rq_name r) "") then
    Some (Errorf "an empty namespace may not be set when a resource name is provided" [])
  else None.

(** The request that [Do] sends, or the error it returns without sending one. *)
Definition send (r : Request) : goerr + Request :=
  match rq_err r with
  | Some e => inl e
  | None => match requestPreflightCheck r with Some e => inl e | None => inr r end
  end.

(** [Watch] does not run the preflight check. *)
Definition open_watch (r : Request) : goerr + Request :=
  match rq_err r with Some e => inl e | None => inr r end.

(** The segments of [URL], below the group's path prefix; resource names are in lower
    case already. *)
Definition url_segments (r : Request) : list string :=
  (if rq_namespace_set r && negb (String.eqb (rq_namespace r) "")
   then ["namespaces"; rq_namespace r] else []) ++
  [rq_resource r; rq_name r; rq_subresource r].

Definition URL (r : Request) : string := path_join (url_segments r).
End Requests.
Arguments Request : clear implicits.

(** ** The typed client *)

(** [time.Duration(seconds) * time.Second]. *)
Definition wrap64 (z : Z) : Z := (z + 2 ^ 63) mod 2 ^ 64 - 2 ^ 63.
Definition timeout_of (seconds : option Z) : Z :=
  match seconds with Some s => wrap64 (s * 1000000000) | None => 0 end.

(** [lo_others] are the query parameters of the options the clients do not look at. *)
Record ListOptions := {
  lo_LabelSelector : string;
  lo_Watch : bool;
  lo_TimeoutSeconds : option Z;
  lo_others : list (string * string)
}.

Definition list_params (o : ListOptions) : list (string * string) :=
  (if String.eqb (lo_LabelSelector o) "" then [] else [("labelSelector", lo_LabelSelector o)]) ++
  (if lo_Watch o then [("watch", "true")] else []) ++
  (match lo_TimeoutSeconds o with Some s => [("timeoutSeconds", FormatInt s)] | None => [] end) ++
  lo_others o.

Section Typed.
Context {O : Type} `{Object O} (resource ns : string).
Abbreviation params := (list (string * string)) (only parsing).

Definition typed_Get (name : string) (options : params) : goerr + Request O :=
  send (VersionedParams options (Name name (Resource resource (Namespace ns (new_request "GET"))))).

Definition typed_List (opts : ListOptions) : goerr + Request O :=
  let timeout := timeout_of (lo_TimeoutSeconds opts) in
  send (Timeout timeout (VersionedParams (list_params opts)
    (Resource resource (Namespace ns (new_request "GET"))))).

Definition typed_Watch (opts : ListOptions) : goerr + Request O :=
  let timeout := timeout_of (lo_TimeoutSeconds opts) in
  let opts := {| lo_LabelSelector := lo_LabelSelector opts; lo_Watch := true;
                 lo_TimeoutSeconds := lo_TimeoutSeconds opts; lo_others := lo_others opts |} in
  open_watch (Timeout timeout (VersionedParams (list_params opts)
    (Resource resource (Namespace ns (new_request "GET"))))).

Definition typed_Create (o : O) (opts : params) : goerr + Request O :=
  send (Body (BodyObject o) (VersionedParams opts
    (Resource resource (Namespace ns (new_request "POST"))))).

Definition typed_Update (o : O) (opts : params) : goerr + Request O :=
  send (Body (BodyObject o) (VersionedParams opts
    (Name (GetName o) (Resource resource (Namespace ns (new_request "PUT")))))).

Definition typed_UpdateStatus (o : O) (opts : params) : goerr + Request O :=
  send (Body (BodyObject o) (VersionedParams opts (SubResource ["status"]
    (Name (GetName o) (Resource resource (Namespace ns (new_request "PUT"))))))).

Definition typed_Delete (name : string) (opts : params) : goerr + Request O :=
  send (Body (BodyDeleteOptions opts)
    (Name name (Resource resource (Namespace ns (new_request "DELETE"))))).

Definition typed_DeleteCollection (opts : params) (listOpts : ListOptions) : goerr + Request O :=
  let timeout := timeout_of (lo_TimeoutSeconds listOpts) in
  send (Body (BodyDeleteOptions opts) (Timeout timeout (VersionedParams (list_params listOpts)
    (Resource resource (Namespace ns (new_request "DELETE")))))).

Definition typed_Patch (name pt data : string) (opts : params) (subresources : list string)
    : goerr + Request O :=
  send (Body (BodyBytes data) (VersionedParams opts (SubResource subresources
    (Name name (Resource resource (Namespace ns (set_content_type pt (new_request "PATCH")))))))).
End Typed.

Module HTTPProxies.
Definition Get := typed_Get (O := HTTPProxy) "httpproxies".
Definition List := typed_List (O := HTTPProxy) "httpproxies".
Definition Watch := typed_Watch (O := HTTPProxy) "httpproxies".
Definition Create := typed_Create (O := HTTPProxy) "httpproxies".
Definition Update := typed_Update (O := HTTPProxy) "httpproxies".
Definition UpdateStatus := typed_UpdateStatus (O := HTTPProxy) "httpproxies".
Definition Delete := typed_Delete (O := HTTPProxy) "httpproxies".
Definition DeleteCollection := typed_DeleteCollection (O := HTTPProxy) "httpproxies".
Definition Patch := typed_Patch (O := HTTPProxy) "httpproxies".
End HTTPProxies.

Module TLSCertificateDelegations.
Definition Get := typed_Get (O := TLSCertificateDelegation) "tlscertificatedelegations".
Definition List := typed_List (O := TLSCertificateDelegation) "tlscertificatedelegations".
Definition Watch := typed_Watch (O := TLSCertificateDelegation) "tlscertificatedelegations".
Definition Create := typed_Create (O := TLSCertificateDelegation) "tlscertificatedelegations".
Definition Update := typed_Update (O := TLSCertificateDelegation) "tlscertificatedelegations".
Definition UpdateStatus := typed_UpdateStatus (O := TLSCertificateDelegation) "tlscertificatedelegations".
Definition Delete := typed_Delete (O := TLSCertificateDelegation) "tlscertificatedelegations".
Definition DeleteCollection := typed_DeleteCollection (O := TLSCertificateDelegation) "tlscertificatedelegations".
Definition Patch := typed_Patch (O := TLSCertificateDelegation) "tlscertificatedelegations".
End TLSCertificateDelegations.

(** ** What the operations send *)

(** The operations that change something, with their arguments. *)
Inductive write_op (O : Type) :=
  | OpCreate (o : O) (opts : list (string * string))
  | OpUpdate (o : O) (opts : list (string * string))
  | OpUpdateStatus (o : O) (opts : list (string * string))
  | OpDelete (name : string) (opts : list (string * string))
  | OpDeleteCollection (opts : list (string * string)) (listOpts : ListOptions)
  | OpPatch (name pt data : string) (opts : list (string * string)) (subresources : list string).
Arguments OpCreate {O} o opts.
Arguments OpUpdate {O} o opts.
Arguments OpUpdateStatus {O} o opts.
Arguments OpDelete {O} name opts.
Arguments OpDeleteCollection {O} opts listOpts.
Arguments OpPatch {O} name pt data opts subresources.

Definition request_of {O} `{Object O} (resource ns : string) (op : write_op O) : goerr + Request O :=
  match op with
  | OpCreate o opts => typed_Create resource ns o opts
  | OpUpdate o opts => typed_Update resource ns o opts
  | OpUpdateStatus o opts => typed_UpdateStatus resource ns o opts
  | OpDelete name opts => typed_Delete resource ns name opts
  | OpDeleteCollection opts listOpts => typed_DeleteCollection resource ns opts listOpts
  | OpPatch name pt data opts subs => typed_Patch resource ns name pt data opts subs
  end.

(** The resources of the group. *)
Definition known_resource (resource : string) : Prop :=
  resource = "httpproxies" ∨ resource = "tlscertificatedelegations".

Section Writes.
Context {O : Type} `{Object O}.
Implicit Types (op : write_op O) (r : Request O).

(** What an operation is meant to address: one object, or all (of a namespace). *)
Definition op_name (op : write_op O) : option string :=
  match op with
  | OpCreate _ _ | OpDeleteCollection _ _ => None
  | OpUpdate o _ | OpUpdateStatus o _ => Some (GetName o)
  | OpDelete name _ | OpPatch name _ _ _ _ => Some name
  end.

Definition op_sub (op : write_op O) : list string :=
  match op with
  | OpUpdateStatus _ _ => ["status"]
  | OpPatch _ _ _ _ subs => nonempty_segments subs
  | _ => []
  end.

Definition op_path (resource ns : string) (op : write_op O) : list string :=
  (if String.eqb ns "" then [] else ["namespaces"; ns]) ++
  resource :: (match op_name op with Some n => [n] | None => [] end) ++ op_sub op.

Definition valid_segment (x : string) : Prop := IsValidPathSegmentName x = [].

(** Only deletions of a collection and patches may span all namespaces. *)
Definition cluster_wide (op : write_op O) : bool :=
  match op with OpDeleteCollection _ _ | OpPatch _ _ _ _ _ => true | _ => false end.

Definition raw_sub (op : write_op O) : list string :=
  match op with OpPatch _ _ _ _ subs => subs | _ => [] end.

(** An address is legal. *)
Definition addressed (ns : string) (op : write_op O) : Prop :=
  valid_segment ns ∧ (ns = "" → cluster_wide op = true) ∧
  (∀ n, op_name op = Some n → n ≠ "" ∧ valid_segment n) ∧ Forall valid_segment (raw_sub op).

Lemma find_invalid_None subs :
  List.find (λ x, negb (bool_decide (IsValidPathSegmentName x = []))) subs = None ↔
  Forall valid_segment subs.
Proof.
  induction subs as [|x subs IH]; simpl; [done|]. rewrite Forall_cons, <-IH. unfold valid_segment.
  case_bool_decide; simpl; naive_solver.
Qed.

(** The builders, on a request without an error: they set their field, or fail. *)
Lemma Namespace_step ns r :
  rq_err r = None → rq_namespace_set r = false →
  valid_segment ns ∧ Namespace ns r = set_namespace ns r ∨
  ¬ valid_segment ns ∧ is_Some (rq_err (Namespace ns r)).
Proof.
  intros He Hs. unfold Namespace, unless_err, valid_segment. rewrite He, Hs.
  destruct (IsValidPathSegmentName ns); [by left|right; by split; [|eexists]].
Qed.

Lemma Resource_step resource r :
  rq_err r = None → rq_resource r = "" → known_resource resource →
  Resource resource r = set_resource resource r.
Proof.
  intros He Hs Hk. unfold Resource, unless_err. rewrite He, Hs. by destruct Hk as [-> | ->].
Qed.

Lemma Name_step n r :
  rq_err r = None → rq_name r = "" →
  (n ≠ "" ∧ valid_segment n) ∧ Name n r = set_name n r ∨
  ¬ (n ≠ "" ∧ valid_segment n) ∧ is_Some (rq_err (Name n r)).
Proof.
  intros He Hs. unfold Name, unless_err, valid_segment. rewrite He, Hs.
  destruct (String.eqb_spec n ""); [right; split; [naive_solver|by eexists]|].
  destruct (IsValidPathSegmentName n); [by left|right; split; [naive_solver|by eexists]].
Qed.

Lemma SubResource_step subs r :
  rq_err r = None → rq_subresource r = "" →
  Forall valid_segment subs ∧ SubResource subs r = set_subresource (path_join subs) r ∨
  ¬ Forall valid_segment subs ∧ is_Some (rq_err (SubResource subs r)).
Proof.
  intros He Hs. unfold SubResource, unless_err. rewrite He, Hs. simpl.
  pose proof (find_invalid_None subs) as Hf.
  destruct (List.find _ _); [right|left]; (split; [naive_solver|done]).
Qed.

Lemma unless_err_fails f r : is_Some (rq_err r) → is_Some (rq_err (unless_err f r)).
Proof. unfold unless_err. intros [e E]. rewrite E. by eexists. Qed.

Lemma send_fails r : is_Some (rq_err r) → ∃ e, send r = inl e.
Proof. unfold send. intros [e ->]. by eexists. Qed.

Lemma path_join_nonempty subs : path_join (nonempty_segments subs) = path_join subs.
Proof.
  unfold path_join. f_equal. unfold nonempty_segments. induction subs as [|x subs IH]; simpl; [done|].
  destruct (negb (String.eqb x "")) eqn:E; simpl; [|done]. by rewrite E, IH.
Qed.

(** Close the case of a request that fails while it is built ([E] says where). *)
Ltac refused E :=
  edestruct send_fails as [? ->]; [repeat first [exact E|apply unless_err_fails]|];
  unfold addressed; naive_solver.

(** The request an operation amounts to, field by field. *)
Definition op_verb (op : write_op O) : string :=
  match op with
  | OpCreate _ _ => "POST"
  | OpUpdate _ _ | OpUpdateStatus _ _ => "PUT"
  | OpDelete _ _ | OpDeleteCollection _ _ => "DELETE"
  | OpPatch _ _ _ _ _ => "PATCH"
  end.

Lemma request_of_spec resource ns op :
  known_resource resource →
  match request_of resource ns op with
  | inr r => addressed ns op ∧ rq_verb r = op_verb op ∧ rq_namespace_set r = true ∧
             rq_namespace r = ns ∧ rq_resource r = resource ∧
             rq_name r = default "" (op_name op) ∧ rq_subresource r = path_join (op_sub op)
  | inl _ => ¬ addressed ns op
  end.
Proof.
  intros Hk. pose proof (path_join_nonempty (raw_sub op)) as Hj.
  destruct op as [o opts|o opts|o opts|name opts|opts lopts|name pt data opts subs];
    cbn [request_of op_verb op_name op_sub default raw_sub] in *;
    unfold typed_Create, typed_Update, typed_UpdateStatus, typed_Delete, typed_DeleteCollection,
      typed_Patch;
    (match goal with |- context [Namespace ns ?r] =>
       destruct (Namespace_step ns r eq_refl eq_refl) as [[Hns E]|[Hns E]] end;
     [rewrite E; clear E|refused E]);
    rewrite (Resource_step resource) by done;
    try (match goal with |- context [Name ?n ?r] =>
       destruct (Name_step n r eq_refl eq_refl) as [[Hn E]|[Hn E]] end;
     [rewrite E; clear E|refused E]);
    try (match goal with |- context [SubResource ?l ?r] =>
       destruct (SubResource_step l r eq_refl eq_refl) as [[Hsub E]|[Hsub E]] end;
     [rewrite E; clear E|refused E]);
    unfold send, Body, Timeout, VersionedParams, unless_err; simpl;
    unfold requestPreflightCheck; simpl; destruct (String.eqb_spec ns "") as [->|Hne]; simpl;
    try (match goal with |- context [String.eqb ?n ""] =>
           destruct (String.eqb_spec n ""); [naive_solver|] end; simpl);
    unfold addressed; simpl; naive_solver.
Qed.

(** The path of a request, as the text of the URL. *)
Lemma Join_cons x l sep : l ≠ [] → Join (x :: l) sep = x +:+ sep +:+ Join l sep.
Proof. by destruct l. Qed.

Lemma Join_app_last l m sep : m ≠ [] → Join (l ++ [Join m sep]) sep = Join (l ++ m) sep.
Proof.
  intros Hm. induction l as [|x l IH]; [done|]. cbn [app].
  rewrite !Join_cons by (destruct l, m; done). by rewrite IH.
Qed.

Lemma path_join_last l m : path_join (l ++ [path_join m]) = Join (nonempty_segments (l ++ m)) "/".
Proof.
  unfold path_join, nonempty_segments. rewrite !List.filter_app.
  destruct (List.filter _ m) as [|x m'] eqn:E; [simpl; by rewrite app_nil_r|]. cbn [List.filter].
  assert (x ≠ "") as Hx.
  { assert (List.In x (List.filter (λ x, negb (String.eqb x "")) m)) as [_ Hx]%List.filter_In
      by (rewrite E; by left). intros ->. done. }
  destruct (String.eqb_spec (Join (x :: m') "/") "") as [Ej|_].
  - destruct m'; simpl in Ej; by destruct x.
  - cbn [negb]. by apply (Join_app_last _ (x :: m')).
Qed.

Lemma valid_segment_no_slash x : valid_segment x → Contains x "/" = false.
Proof.
  unfold valid_segment, IsValidPathSegmentName. intros Hx.
  destruct (String.eqb x "."), (String.eqb x ".."), (Contains x "/"); done.
Qed.

Lemma URL_path resource ns op r :
  known_resource resource → request_of resource ns op = inr r →
  URL r = Join (op_path resource ns op) "/" ∧
  Forall (λ x, Contains x "/" = false) (op_path resource ns op).
Proof.
  intros Hk Hr. pose proof (request_of_spec resource ns op Hk) as Hs. rewrite Hr in Hs.
  destruct Hs as ((Hns & _ & Hn & Hsub) & _ & E1 & E2 & E3 & E4 & E5). split.
  - unfold URL, url_segments. rewrite E1, E2, E3, E4, E5.
    replace (_ ++ [resource; _; _]) with
      (((if negb (String.eqb ns "") then ["namespaces"; ns] else []) ++
        [resource; default "" (op_name op)]) ++ [path_join (op_sub op)])
      by (by rewrite <-app_assoc).
    rewrite path_join_last. f_equal. unfold op_path, nonempty_segments. rewrite !List.filter_app.
    rewrite <-!app_assoc. f_equal.
    { destruct (String.eqb ns "") eqn:E; simpl; [done|]. by rewrite E. }
    destruct Hk as [-> | ->]; simpl; f_equal; (f_equal;
      [destruct (op_name op) as [n|]; simpl; [|done];
       destruct (Hn n eq_refl) as [Hne%String.eqb_neq _]; by rewrite Hne|]);
    destruct op; simpl; try done;
    unfold nonempty_segments; clear; induction subresources as [|x l IH]; simpl; try done;
    destruct (String.eqb x "") eqn:E; simpl; rewrite ?E; simpl; by rewrite ?IH.
  - unfold op_path. apply Forall_app; split; [|constructor; [|apply Forall_app; split]].
    + destruct (String.eqb ns ""); repeat constructor. by apply valid_segment_no_slash.
    + by destruct Hk as [-> | ->].
    + destruct (op_name op) as [n|]; repeat constructor. by apply valid_segment_no_slash, Hn.
    + destruct op; simpl; repeat constructor. eapply Forall_impl; [|apply valid_segment_no_slash].
      simpl in Hsub. rewrite Forall_forall in Hsub |- *. intros x Hx. apply Hsub.
      apply list_elem_of_In, List.filter_In in Hx as [Hx _]. by apply list_elem_of_In.
Qed.

Lemma op_path_nonempty resource ns op : op_path resource ns op ≠ [].
Proof. unfold op_path. by destruct (String.eqb ns ""). Qed.
End Writes.

(** Operations with the same path address the same thing. *)
Lemma op_path_inj {O1 O2} `{Object O1} `{Object O2} resource1 ns1 (op1 : write_op O1)
    resource2 ns2 (op2 : write_op O2) :
  known_resource resource1 → known_resource resource2 →
  op_path resource1 ns1 op1 = op_path resource2 ns2 op2 →
  resource1 = resource2 ∧ ns1 = ns2 ∧ op_name op1 = op_name op2 ∧ op_sub op1 = op_sub op2.
Proof.
  intros Hk1 Hk2. unfold op_path.
  destruct (String.eqb_spec ns1 "") as [->|], (String.eqb_spec ns2 "") as [->|]; simpl;
    [|destruct Hk1 as [-> | ->]; done|destruct Hk2 as [-> | ->]; done|];
    intros [= ]; simplify_eq;
    (split; [done|split; [done|]]);
    destruct op1, op2; simplify_eq/=; split; congruence.
Qed.

(** C38: A write reaches the API server exactly when its address is legal: a namespace
    (only patches and collection deletes may leave it out), a name that is not empty,
    and no segment that could step out of its place in the URL.  Two writes that are
    sent to the same URL concern the same resource, namespace, name
    and subresource; in particular no deletion of one object can ever be a deletion of
    the whole collection. *)
Theorem writes_addressed {O1 O2} `{Object O1} `{Object O2} resource1 ns1 (op1 : write_op O1) r1
    resource2 ns2 (op2 : write_op O2) r2 :
  known_resource resource1 → known_resource resource2 →
  (∀ e, request_of resource1 ns1 op1 = inl e → ¬ addressed ns1 op1) ∧
  (request_of resource1 ns1 op1 = inr r1 → addressed ns1 op1) ∧
  (request_of resource1 ns1 op1 = inr r1 → request_of resource2 ns2 op2 = inr r2 →
   URL r1 = URL r2 →
   resource1 = resource2 ∧ ns1 = ns2 ∧ op_name op1 = op_name op2 ∧ op_sub op1 = op_sub op2).
Proof.
  intros Hk1 Hk2. pose proof (request_of_spec resource1 ns1 op1 Hk1) as Hs.
  split_and!; [intros e E; by rewrite E in Hs|intros E; rewrite E in Hs; apply Hs|].
  intros Hr1 Hr2 HU.
  destruct (URL_path _ _ _ _ Hk1 Hr1) as [E1 F1], (URL_path _ _ _ _ Hk2 Hr2) as [E2 F2].
  apply op_path_inj; [done..|].
  rewrite <-(Split_Join "/" _ (op_path_nonempty _ _ _) F1), <-E1, HU, E2.
  by apply Split_Join; [apply op_path_nonempty|].
Qed.

Definition sample_delegation : TLSCertificateDelegation := {|
  td_meta := {| om_name := "certs"; om_namespace := "default"; om_uid := "uid-9";
                om_resource_version := "3"; om_generation := 1; om_labels := ∅;
                om_annotations := ∅; om_owners := [] |};
  td_delegations := [{| cd_secret_name := "wildcard"; cd_target_namespaces := ["*"] |}]
|}.

Lemma writes_addressed_witness :
  known_resource "tlscertificatedelegations" ∧
  addressed "default" (OpUpdate sample_delegation []) ∧
  op_name (OpUpdate sample_delegation []) =
    op_name (O := TLSCertificateDelegation) (OpPatch "certs" "application/json" "[]" [] []).
Proof.
  assert (known_resource "tlscertificatedelegations") as Hk by (by right).
  pose proof (λ r1 r2, writes_addressed "tlscertificatedelegations" "default"
    (OpUpdate sample_delegation []) r1 "tlscertificatedelegations" "default"
    (OpPatch (O := TLSCertificateDelegation) "certs" "application/json" "[]" [] []) r2 Hk Hk) as Hw.
  split; [exact Hk|]. split.
  - eapply (Hw _ (new_request "")). reflexivity.
  - eapply Hw; reflexivity.
Defined.
