(* ===== verification/Clientset.v ===== *)
(** * The clientset (pkg/client/clientset/versioned)

    How [NewForConfig] and its relatives build the clients of clientset.go and
    projectcontour_client.go from a [rest.Config], on client-go's REST clients
    (rest/config.go, rest/client.go, rest/url_utils.go) and discovery client.  Rate
    limiters are shared by reference: the state of the construction is the list of the
    token buckets made so far, and a limiter is an index.  Transports (TLS, proxies,
    authentication) and the parsing of URLs are the parameters [HTTPClientFor] and
    [url_Parse]. *)

From S2P Require Import Prelude Meta Labels HTTPProxy Events Client.
From Stdlib Require Import QArith.
Local Open Scope Z_scope.

(** ** Paths (Go's package path) *)

(** One element of a slash-separated path after those in [acc], which is reversed. *)
Definition clean_element (rooted : bool) (acc : list string) (element : string) : list string :=
  if String.eqb element "" || String.eqb element "." then acc
  else if String.eqb element ".." then
    match acc with
    | [] => if rooted then [] else [".."]
    | ".." :: _ => ".." :: acc
    | _ :: acc => acc
    end
  else element :: acc.

Definition path_Clean (p : string) : string :=
  let rooted := HasPrefix p "/" in
  let elements := rev (foldl (clean_element rooted) [] (Split p "/"%char)) in
  if rooted then "/" +:+ Join elements "/"
  else match elements with [] => "." | _ => Join elements "/" end.

Definition path_Join (elements : list string) : string :=
  match nonempty_segments elements with [] => "" | l => path_Clean (Join l "/") end.

(** ** Configurations and URLs *)

Record Url := { url_Scheme : string; url_Host : string; url_Path : string; url_RawQuery : string; url_Fragment : string }.

(** A token bucket of [flowcontrol.NewTokenBucketRateLimiter]; rates are [float32]. *)
Record bucket := { tb_qps : Q; tb_burst : Z }.

(** [rest.Config], without the fields that only the transport looks at.  A negotiated
    serializer is given by its name. *)
Record RestConfig := {
  rc_Host : string;
  rc_APIPath : string;
  rc_GroupVersion : option GroupVersion;
  rc_NegotiatedSerializer : option string;
  rc_CAFile : string;
  rc_CAData : string;
  rc_CertFile : string;
  rc_CertData : string;
  rc_Insecure : bool;
  rc_UserAgent : string;
  rc_QPS : Q;
  rc_Burst : Z;
  rc_RateLimiter : option nat;
  rc_Timeout : Z
}.

(** Assignments to fields of a copy. *)
Definition set_UserAgent (ua : string) (c : RestConfig) : RestConfig := {|
  rc_Host := rc_Host c; rc_APIPath := rc_APIPath c; rc_GroupVersion := rc_GroupVersion c;
  rc_NegotiatedSerializer := rc_NegotiatedSerializer c; rc_CAFile := rc_CAFile c; rc_CAData := rc_CAData c;
  rc_CertFile := rc_CertFile c; rc_CertData := rc_CertData c; rc_Insecure := rc_Insecure c;
  rc_UserAgent := ua; rc_QPS := rc_QPS c; rc_Burst := rc_Burst c; rc_RateLimiter := rc_RateLimiter c;
  rc_Timeout := rc_Timeout c |}.
Definition set_RateLimiter (l : option nat) (c : RestConfig) : RestConfig := {|
  rc_Host := rc_Host c; rc_APIPath := rc_APIPath c; rc_GroupVersion := rc_GroupVersion c;
  rc_NegotiatedSerializer := rc_NegotiatedSerializer c; rc_CAFile := rc_CAFile c; rc_CAData := rc_CAData c;
  rc_CertFile := rc_CertFile c; rc_CertData := rc_CertData c; rc_Insecure := rc_Insecure c;
  rc_UserAgent := rc_UserAgent c; rc_QPS := rc_QPS c; rc_Burst := rc_Burst c; rc_RateLimiter := l;
  rc_Timeout := rc_Timeout c |}.
Definition set_group (gv : option GroupVersion) (apiPath serializer : string) (c : RestConfig) : RestConfig := {|
  rc_Host := rc_Host c; rc_APIPath := apiPath; rc_GroupVersion := gv;
  rc_NegotiatedSerializer := Some serializer; rc_CAFile := rc_CAFile c; rc_CAData := rc_CAData c;
  rc_CertFile := rc_CertFile c; rc_CertData := rc_CertData c; rc_Insecure := rc_Insecure c;
  rc_UserAgent := rc_UserAgent c; rc_QPS := rc_QPS c; rc_Burst := rc_Burst c; rc_RateLimiter := rc_RateLimiter c;
  rc_Timeout := rc_Timeout c |}.
Definition set_limits (qps : Q) (burst timeout : Z) (c : RestConfig) : RestConfig := {|
  rc_Host := rc_Host c; rc_APIPath := rc_APIPath c; rc_GroupVersion := rc_GroupVersion c;
  rc_NegotiatedSerializer := rc_NegotiatedSerializer c; rc_CAFile := rc_CAFile c; rc_CAData := rc_CAData c;
  rc_CertFile := rc_CertFile c; rc_CertData := rc_CertData c; rc_Insecure := rc_Insecure c;
  rc_UserAgent := rc_UserAgent c; rc_QPS := qps; rc_Burst := burst; rc_RateLimiter := rc_RateLimiter c;
  rc_Timeout := timeout |}.

Definition positive (q : Q) : bool := negb (Qle_bool q 0).

(** Constructors make token buckets and may fail. *)
Definition build (A : Type) : Type := list bucket → list bucket * (goerr + A).
#[export] Instance build_ret : MRet build := λ A a h, (h, inr a).
#[export] Instance build_bind : MBind build := λ A B k m h,
  match m h with
  | (h, inr a) => k a h
  | (h, inl e) => (h, inl e)
  end.
Definition build_of {A} (r : goerr + A) : build A := λ h, (h, r).
Definition NewTokenBucketRateLimiter (qps : Q) (burst : Z) : build nat := λ h,
  (h ++ [{| tb_qps := qps; tb_burst := burst |}], inr (length h)).

Section Clientset.
Context {HTTPClient : Type}.
Context (DefaultKubernetesUserAgent : string).
Context (HTTPClientFor : RestConfig → goerr + HTTPClient).
Context (url_Parse : string → goerr + Url).

(** ** REST clients *)

Definition DefaultQPS : Q := 5.
Definition DefaultBurst : Z := 10.

Record RESTClient := {
  cl_base : Url;
  cl_versionedAPIPath : string;
  cl_GroupVersion : GroupVersion;
  cl_Negotiator : string;
  cl_rateLimiter : option nat;
  cl_Client : HTTPClient
}.

Definition DefaultVersionedAPIPath (apiPath : string) (gv : GroupVersion) : string :=
  let versionedAPIPath := path_Join ["/"; apiPath] in
  if String.eqb (gv_group gv) "" then path_Join [versionedAPIPath; gv_version gv]
  else path_Join [versionedAPIPath; gv_group gv; gv_version gv].

Definition DefaultServerURL (host apiPath : string) (gv : GroupVersion) (defaultTLS : bool)
    : goerr + (Url * string) :=
  if String.eqb host "" then inl (Errorf "host must be a URL or a host:port pair" [])
  else
    let url :=
      match url_Parse host with
      | inr u =>
          if String.eqb (url_Scheme u) "" || String.eqb (url_Host u) "" then None else Some u
      | inl _ => None
      end in
    match url with
    | Some u => inr (u, DefaultVersionedAPIPath apiPath gv)
    | None =>
        match url_Parse ((if defaultTLS then "https://" else "http://") +:+ host) with
        | inl e => inl e
        | inr u =>
            if negb (String.eqb (url_Path u) "") && negb (String.eqb (url_Path u) "/")
            then inl (Errorf "host must be a URL or a host:port pair: %q" [host])
            else inr (u, DefaultVersionedAPIPath apiPath gv)
        end
    end.

Definition defaultTLS (c : RestConfig) : bool :=
  negb (String.eqb (rc_CAFile c) "") || negb (String.eqb (rc_CAData c) "") ||
  negb (String.eqb (rc_CertFile c) "") || negb (String.eqb (rc_CertData c) "") || rc_Insecure c.

Definition DefaultServerUrlFor (c : RestConfig) : goerr + (Url * string) :=
  let host := if String.eqb (rc_Host c) "" then "localhost" else rc_Host c in
  DefaultServerURL host (rc_APIPath c)
    (default {| gv_group := ""; gv_version := "" |} (rc_GroupVersion c)) (defaultTLS c).

(** The rate limiter of a REST client. *)
Definition limiter_for (c : RestConfig) : build (option nat) :=
  match rc_RateLimiter c with
  | Some l => mret (Some l)
  | None =>
      let qps := if Qeq_bool (rc_QPS c) 0 then DefaultQPS else rc_QPS c in
      let burst := if rc_Burst c =? 0 then DefaultBurst else rc_Burst c in
      if positive qps then l ← NewTokenBucketRateLimiter qps burst; mret (Some l) else mret None
  end.

(** [NewRESTClient] *)
Definition NewRESTClient (baseURL : Url) (versionedAPIPath : string) (gv : GroupVersion)
    (negotiator : string) (rateLimiter : option nat) (client : HTTPClient) : RESTClient := {|
  cl_base := {|
    url_Scheme := url_Scheme baseURL; url_Host := url_Host baseURL;
    url_Path := if HasSuffix (url_Path baseURL) "/" then url_Path baseURL else url_Path baseURL +:+ "/";
    url_RawQuery := ""; url_Fragment := "" |};
  cl_versionedAPIPath := versionedAPIPath; cl_GroupVersion := gv; cl_Negotiator := negotiator;
  cl_rateLimiter := rateLimiter; cl_Client := client
|}.

(** What the two constructors share, after their checks. *)
Definition rest_client (c : RestConfig) (gv : GroupVersion) (negotiator : string) (httpClient : HTTPClient)
    : build RESTClient :=
  '(baseURL, versionedAPIPath) ← build_of (DefaultServerUrlFor c);
  rateLimiter ← limiter_for c;
  mret (NewRESTClient baseURL versionedAPIPath gv negotiator rateLimiter httpClient).

Definition RESTClientForConfigAndClient (c : RestConfig) (httpClient : HTTPClient) : build RESTClient :=
  match rc_GroupVersion c, rc_NegotiatedSerializer c with
  | None, _ => build_of (inl (Errorf "GroupVersion is required when initializing a RESTClient" []))
  | _, None => build_of (inl (Errorf "NegotiatedSerializer is required when initializing a RESTClient" []))
  | Some gv, Some s => rest_client c gv s httpClient
  end.

Definition meta_SchemeGroupVersion : GroupVersion := {| gv_group := "meta.k8s.io"; gv_version := "v1" |}.

Definition UnversionedRESTClientForConfigAndClient (c : RestConfig) (httpClient : HTTPClient)
    : build RESTClient :=
  match rc_NegotiatedSerializer c with
  | None => build_of (inl (Errorf "NegotiatedSerializer is required when initializing a RESTClient" []))
  | Some s => rest_client c (default meta_SchemeGroupVersion (rc_GroupVersion c)) s httpClient
  end.

(** The prefix of every request of a client ([rest.NewRequest]). *)
Definition pathPrefix (c : RESTClient) : string :=
  path_Join ["/"; url_Path (cl_base c); cl_versionedAPIPath c].

(** ** The discovery client *)

Record DiscoveryClient := { dc_restClient : RESTClient; dc_LegacyPrefix : string }.

Definition setDiscoveryDefaults (c : RestConfig) : RestConfig :=
  let c := set_limits (rc_QPS c) (if rc_Burst c =? 0 then 300 else rc_Burst c)
             (if rc_Timeout c =? 0 then 32 * 1000000000 else rc_Timeout c) (set_group None "" "noop" c) in
  if String.eqb (rc_UserAgent c) "" then set_UserAgent DefaultKubernetesUserAgent c else c.

Definition NewDiscoveryClient (c : RESTClient) : DiscoveryClient :=
  {| dc_restClient := c; dc_LegacyPrefix := "/api" |}.
Definition NewDiscoveryClientForConfigAndClient (c : RestConfig) (httpClient : HTTPClient)
    : build DiscoveryClient :=
  client ← UnversionedRESTClientForConfigAndClient (setDiscoveryDefaults c) httpClient;
  mret (NewDiscoveryClient client).

(** ** projectcontour_client.go *)

Definition SchemeGroupVersion : GroupVersion := {| gv_group := "projectcontour.io"; gv_version := "v1" |}.

Record ProjectcontourV1Client := { restClient : RESTClient }.

Definition setConfigDefaults (config : RestConfig) : goerr + RestConfig :=
  let config := set_group (Some SchemeGroupVersion) "/apis" "codecs" config in
  inr (if String.eqb (rc_UserAgent config) "" then set_UserAgent DefaultKubernetesUserAgent config else config).

Definition projectcontour_NewForConfigAndClient (c : RestConfig) (h : HTTPClient) : build ProjectcontourV1Client :=
  config ← build_of (setConfigDefaults c);
  client ← RESTClientForConfigAndClient config h;
  mret {| restClient := client |}.

Definition projectcontour_NewForConfig (c : RestConfig) : build ProjectcontourV1Client :=
  config ← build_of (setConfigDefaults c);
  httpClient ← build_of (HTTPClientFor config);
  projectcontour_NewForConfigAndClient config httpClient.

Definition projectcontour_NewForConfigOrDie (c : RestConfig) (h : list bucket) : list bucket * outcome ProjectcontourV1Client :=
  match projectcontour_NewForConfig c h with
  | (h, inl e) => (h, Panic (err_format e))
  | (h, inr client) => (h, Ret client)
  end.

Definition projectcontour_New (c : RESTClient) : ProjectcontourV1Client := {| restClient := c |}.

(** [None] is the nil pointer. *)
Definition projectcontour_RESTClient (c : option ProjectcontourV1Client) : option RESTClient := restClient <$> c.

(** ** clientset.go *)

Record Clientset := { cs_DiscoveryClient : DiscoveryClient; cs_projectcontourV1 : ProjectcontourV1Client }.

Definition ProjectcontourV1 (c : option Clientset) : outcome ProjectcontourV1Client :=
  cs ← nil_deref "c.projectcontourV1" c; Ret (cs_projectcontourV1 cs).
Definition Discovery (c : option Clientset) : option DiscoveryClient := cs_DiscoveryClient <$> c.

(** The limiter both clients are to share. *)
Definition shared_limiter (c : RestConfig) : build RestConfig :=
  if bool_decide (rc_RateLimiter c = None) && positive (rc_QPS c) then
    if rc_Burst c <=? 0 then
      build_of (inl (Errorf "burst is required to be greater than 0 when RateLimiter is not set and QPS is set to greater than 0" []))
    else l ← NewTokenBucketRateLimiter (rc_QPS c) (rc_Burst c); mret (set_RateLimiter (Some l) c)
  else mret c.

Definition NewForConfigAndClient (c : RestConfig) (httpClient : HTTPClient) : build Clientset :=
  configShallowCopy ← shared_limiter c;
  projectcontourV1 ← projectcontour_NewForConfigAndClient configShallowCopy httpClient;
  discovery ← NewDiscoveryClientForConfigAndClient configShallowCopy httpClient;
  mret {| cs_DiscoveryClient := discovery; cs_projectcontourV1 := projectcontourV1 |}.

Definition NewForConfig (c : RestConfig) : build Clientset :=
  let configShallowCopy :=
    if String.eqb (rc_UserAgent c) "" then set_UserAgent DefaultKubernetesUserAgent c else c in
  httpClient ← build_of (HTTPClientFor configShallowCopy);
  NewForConfigAndClient configShallowCopy httpClient.

Definition NewForConfigOrDie (c : RestConfig) (h : list bucket) : list bucket * outcome Clientset :=
  match NewForConfig c h with
  | (h, inl e) => (h, Panic (err_format e))
  | (h, inr cs) => (h, Ret cs)
  end.

Definition New (c : RESTClient) : Clientset :=
  {| cs_DiscoveryClient := NewDiscoveryClient c; cs_projectcontourV1 := projectcontour_New c |}.

(** ** What the constructors build *)

(** The server of a configuration, or the error of its host, whatever the API path. *)
Definition server_url (c : RestConfig) : goerr + Url :=
  match DefaultServerUrlFor c with inl e => inl e | inr (u, _) => inr u end.

Lemma DefaultServerURL_path host tls apiPath gv apiPath' gv' :
  DefaultServerURL host apiPath gv tls =
  match DefaultServerURL host apiPath' gv' tls with
  | inl e => inl e
  | inr (u, _) => inr (u, DefaultVersionedAPIPath apiPath gv)
  end.
Proof. unfold DefaultServerURL. repeat (done || case_match); simplify_eq; done. Qed.

(** Configurations that agree on the fields that make up the server's URL. *)
Lemma DefaultServerUrlFor_server c c' :
  rc_Host c = rc_Host c' → defaultTLS c = defaultTLS c' →
  DefaultServerUrlFor c =
  match server_url c' with
  | inl e => inl e
  | inr u => inr (u, DefaultVersionedAPIPath (rc_APIPath c)
                       (default {| gv_group := ""; gv_version := "" |} (rc_GroupVersion c)))
  end.
Proof.
  intros Hh Ht. unfold server_url, DefaultServerUrlFor. rewrite Hh, Ht.
  rewrite (DefaultServerURL_path _ _ (rc_APIPath c) _ (rc_APIPath c')
    (default {| gv_group := ""; gv_version := "" |} (rc_GroupVersion c'))).
  by destruct (DefaultServerURL _ (rc_APIPath c') _ _) as [|[]].
Qed.

(** The limiter of a REST client of its own: the configured one, a new bucket with the
    configured or default rate, or none when the rate is negative. *)
Definition own_limiter (c : RestConfig) (burst : Z) (h : list bucket) : list bucket * option nat :=
  match rc_RateLimiter c with
  | Some l => (h, Some l)
  | None =>
      let qps := if Qeq_bool (rc_QPS c) 0 then DefaultQPS else rc_QPS c in
      if positive qps then
        (h ++ [{| tb_qps := qps; tb_burst := if rc_Burst c =? 0 then burst else rc_Burst c |}], Some (length h))
      else (h, None)
  end.

Lemma limiter_for_own c h :
  limiter_for c h = ((own_limiter c DefaultBurst h).1, inr (own_limiter c DefaultBurst h).2).
Proof.
  unfold limiter_for, own_limiter. destruct (rc_RateLimiter c); [done|].
  by destruct (positive _).
Qed.

(** The two kinds of client for a configuration, on one HTTP client. *)
Lemma projectcontour_NewForConfigAndClient_spec c http h :
  projectcontour_NewForConfigAndClient c http h =
  match server_url c with
  | inl e => (h, inl e)
  | inr u =>
      let '(h', l) := own_limiter c DefaultBurst h in
      (h', inr {| restClient :=
         NewRESTClient u "/apis/projectcontour.io/v1" SchemeGroupVersion "codecs" l http |})
  end.
Proof.
  unfold projectcontour_NewForConfigAndClient, setConfigDefaults.
  set (c1 := if String.eqb _ _ then _ else _).
  assert (rc_Host c1 = rc_Host c ∧ defaultTLS c1 = defaultTLS c ∧ rc_APIPath c1 = "/apis" ∧
    rc_GroupVersion c1 = Some SchemeGroupVersion ∧ rc_NegotiatedSerializer c1 = Some "codecs" ∧
    rc_RateLimiter c1 = rc_RateLimiter c ∧ rc_QPS c1 = rc_QPS c ∧ rc_Burst c1 = rc_Burst c)
    as (Hh & Ht & Hp & Hg & Hs & Hl & Hq & Hb) by (subst c1; by destruct (String.eqb _ _)).
  unfold mbind, build_bind, build_of, RESTClientForConfigAndClient, rest_client. simpl.
  rewrite Hg, Hs, (DefaultServerUrlFor_server c1 c Hh Ht). unfold mbind, build_bind, build_of.
  destruct (server_url c) as [e|u]; [done|]. rewrite limiter_for_own.
  replace (own_limiter c1 DefaultBurst h) with (own_limiter c DefaultBurst h)
    by (unfold own_limiter; by rewrite Hl, Hq, Hb).
  rewrite Hp, Hg. by destruct (own_limiter c DefaultBurst h).
Qed.

Lemma NewDiscoveryClientForConfigAndClient_spec c http h :
  NewDiscoveryClientForConfigAndClient c http h =
  match server_url c with
  | inl e => (h, inl e)
  | inr u =>
      let '(h', l) := own_limiter c 300 h in
      (h', inr (NewDiscoveryClient (NewRESTClient u "/" meta_SchemeGroupVersion "noop" l http)))
  end.
Proof.
  unfold NewDiscoveryClientForConfigAndClient. set (c1 := setDiscoveryDefaults c).
  assert (rc_Host c1 = rc_Host c ∧ defaultTLS c1 = defaultTLS c ∧ rc_APIPath c1 = "" ∧
    rc_GroupVersion c1 = None ∧ rc_NegotiatedSerializer c1 = Some "noop" ∧
    rc_RateLimiter c1 = rc_RateLimiter c ∧ rc_QPS c1 = rc_QPS c ∧
    rc_Burst c1 = if rc_Burst c =? 0 then 300 else rc_Burst c)
    as (Hh & Ht & Hp & Hg & Hs & Hl & Hq & Hb)
    by (subst c1; unfold setDiscoveryDefaults; by destruct (String.eqb _ _)).
  unfold mbind, build_bind, UnversionedRESTClientForConfigAndClient, rest_client.
  rewrite Hg, Hs, (DefaultServerUrlFor_server c1 c Hh Ht). unfold mbind, build_bind, build_of.
  destruct (server_url c) as [e|u]; [done|]. rewrite limiter_for_own.
  replace (own_limiter c1 DefaultBurst h) with (own_limiter c 300 h).
  - rewrite Hp, Hg. by destruct (own_limiter c 300 h).
  - unfold own_limiter. rewrite Hl, Hq, Hb.
    destruct (Z.eqb_spec (rc_Burst c) 0) as [|Hne]; [done|]. apply Z.eqb_neq in Hne. by rewrite Hne.
Qed.

(** The clientset of a configuration.  It fails exactly when the transport cannot be
    made, when a rate is configured without a burst, or when the host is not one.
    Otherwise group client and discovery client talk to the same server through the same
    HTTP client, the former below /apis/projectcontour.io/v1; they share the configured
    limiter, or one new bucket with the configured rate; each has its own bucket with the
    default rate when none is configured, and none when the rate is negative. *)
Theorem NewForConfig_clients c h :
  let agent := if String.eqb (rc_UserAgent c) "" then set_UserAgent DefaultKubernetesUserAgent c else c in
  let own burst := if rc_Burst c =? 0 then burst else rc_Burst c in
  let '(h', r) := NewForConfig c h in
  match HTTPClientFor agent with
  | inl e => r = inl e ∧ h' = h
  | inr http =>
      if bool_decide (rc_RateLimiter c = None) && positive (rc_QPS c) && (rc_Burst c <=? 0)
      then (∃ e, r = inl e) ∧ h' = h
      else match server_url c with
           | inl e => r = inl e
           | inr u => ∃ cs, r = inr cs ∧
               let p := restClient (cs_projectcontourV1 cs) in
               let d := dc_restClient (cs_DiscoveryClient cs) in
               cl_Client p = http ∧ cl_Client d = http ∧
               url_Scheme (cl_base p) = url_Scheme u ∧ url_Host (cl_base p) = url_Host u ∧ cl_base d = cl_base p ∧
               cl_GroupVersion p = SchemeGroupVersion ∧
               pathPrefix p = path_Join ["/"; url_Path (cl_base p); "/apis/projectcontour.io/v1"] ∧
               pathPrefix d = path_Join ["/"; url_Path (cl_base p); "/"] ∧
               match rc_RateLimiter c with
               | Some l => cl_rateLimiter p = Some l ∧ cl_rateLimiter d = Some l ∧ h' = h
               | None =>
                   if positive (rc_QPS c) then
                     cl_rateLimiter p = Some (length h) ∧ cl_rateLimiter d = Some (length h) ∧
                     h' = h ++ [{| tb_qps := rc_QPS c; tb_burst := rc_Burst c |}]
                   else if Qeq_bool (rc_QPS c) 0 then
                     cl_rateLimiter p = Some (length h) ∧ cl_rateLimiter d = Some (S (length h)) ∧
                     h' = h ++ [{| tb_qps := DefaultQPS; tb_burst := own 10 |};
                                {| tb_qps := DefaultQPS; tb_burst := own 300 |}]
                   else cl_rateLimiter p = None ∧ cl_rateLimiter d = None ∧ h' = h
               end
           end
  end.
Proof.
  intros agent own. unfold NewForConfig. fold agent. subst own. cbv beta. unfold mbind at 1, build_bind at 1, build_of at 1.
  destruct (HTTPClientFor agent) as [e|http]; [done|].
  assert (server_url agent = server_url c ∧ rc_RateLimiter agent = rc_RateLimiter c ∧ rc_QPS agent = rc_QPS c ∧
    rc_Burst agent = rc_Burst c) as (Hu & Hl & Hq & Hb) by (subst agent; by destruct (String.eqb _ _)).
  unfold NewForConfigAndClient, shared_limiter. rewrite <-Hl, <-Hq, <-Hb, <-Hu. clear Hl Hq Hb Hu.
  clearbody agent.
  assert (∀ c1 h1, server_url c1 = server_url agent →
    (projectcontourV1 ← projectcontour_NewForConfigAndClient c1 http;
     discovery ← NewDiscoveryClientForConfigAndClient c1 http;
     mret {| cs_DiscoveryClient := discovery; cs_projectcontourV1 := projectcontourV1 |}) h1 =
    match server_url agent with
    | inl e => (h1, inl e)
    | inr u =>
        let '(h2, l1) := own_limiter c1 DefaultBurst h1 in
        let '(h3, l2) := own_limiter c1 300 h2 in
        (h3, inr {| cs_DiscoveryClient := NewDiscoveryClient (NewRESTClient u "/" meta_SchemeGroupVersion "noop" l2 http);
           cs_projectcontourV1 := {| restClient :=
             NewRESTClient u "/apis/projectcontour.io/v1" SchemeGroupVersion "codecs" l1 http |} |})
    end) as Hboth.
  { intros c1 h1 E. unfold mbind, build_bind. rewrite projectcontour_NewForConfigAndClient_spec, E.
    destruct (server_url agent); [done|]. destruct (own_limiter c1 DefaultBurst h1).
    rewrite NewDiscoveryClientForConfigAndClient_spec, E. by destruct (own_limiter c1 300 _). }
  destruct (rc_RateLimiter agent) as [l|] eqn:El.
  - simpl. unfold mbind at 1, build_bind at 1. simpl. rewrite Hboth by done. unfold own_limiter. rewrite El.
    destruct (server_url agent); [done|]. eexists. by split_and!.
  - simpl. destruct (positive (rc_QPS agent)) eqn:Ep; simpl.
    + destruct (rc_Burst agent <=? 0) eqn:Eb; [split; [by eexists|done]|].
      unfold mbind at 1, build_bind at 1. simpl. rewrite Hboth by done. unfold own_limiter. simpl.
      destruct (server_url agent); [done|]. eexists. by split_and!.
    + unfold mbind at 1, build_bind at 1. simpl. rewrite Hboth by done. unfold own_limiter. rewrite El.
      destruct (server_url agent); [done|]. destruct (Qeq_bool (rc_QPS agent) 0); simpl.
      * eexists. split_and!; try done; simpl; [by rewrite length_app, Nat.add_1_r|by rewrite <-app_assoc].
      * rewrite Ep. eexists. by split_and!.
Qed.
End Clientset.
