(* ===== verification/Fake.v ===== *)
(** * The fake clientset (pkg/client/clientset/versioned/fake)

    The clientset the tests of this repository use: the typed fakes of
    fake_httpproxy.go and fake_tlscertificatedelegation.go, which are the same code for two
    types, clientset_generated.go, and below them client-go's testing package (fake.go,
    fixture.go, actions.go): an action goes through a chain of reactors, the last of which
    keeps the objects in an [ObjectTracker] and tells the watchers.

    A panic leaves the state as it was when it struck.  Applying a patch is a parameter;
    so is parsing field selectors, which the tracker does not look at. *)

From S2P Require Import Prelude Meta Labels Ingress HTTPProxy Events Client Clientset.
Local Open Scope Z_scope.

(** ** Objects *)

(** The types the scheme knows. *)
Inductive runtime_object :=
  | OHTTPProxy (p : HTTPProxy)
  | OTLSCertificateDelegation (d : TLSCertificateDelegation)
  | OHTTPProxyList (l : list HTTPProxy)
  | OTLSCertificateDelegationList (l : list TLSCertificateDelegation).

(** [meta.Accessor]: lists have no object metadata. *)
Definition robj_meta (o : runtime_object) : option ObjectMeta :=
  match o with
  | OHTTPProxy p => Some (hp_meta p)
  | OTLSCertificateDelegation d => Some (td_meta d)
  | _ => None
  end.

Definition meta_with_namespace (ns : string) (m : ObjectMeta) : ObjectMeta := {|
  om_name := om_name m; om_namespace := ns; om_uid := om_uid m;
  om_resource_version := om_resource_version m; om_generation := om_generation m;
  om_labels := om_labels m; om_annotations := om_annotations m; om_owners := om_owners m |}.

Definition SetNamespace (ns : string) (o : runtime_object) : runtime_object :=
  match o with
  | OHTTPProxy p => OHTTPProxy {|
      hp_meta := meta_with_namespace ns (hp_meta p); hp_spec := hp_spec p;
      hp_current_status := hp_current_status p |}
  | OTLSCertificateDelegation d => OTLSCertificateDelegation {|
      td_meta := meta_with_namespace ns (td_meta d); td_delegations := td_delegations d |}
  | _ => o
  end.

(** [strings.ToLower] on ASCII. *)
Definition lower (c : ascii) : ascii :=
  if is_upper c then ascii_of_N (N_of_ascii c + 32) else c.
Fixpoint ToLower (s : string) : string :=
  match s with EmptyString => EmptyString | String c s => String (lower c) (ToLower s) end.

(** [meta.UnsafeGuessKindToResource] *)
Definition UnsafeGuessKindToResource (kind : string) : string :=
  let singularName := ToLower kind in
  if String.eqb kind "" then ""
  else if HasSuffix singularName "endpoints" then singularName
  else if HasSuffix singularName "s" then singularName +:+ "es"
  else if HasSuffix singularName "y" then TrimSuffix singularName "y" +:+ "ies"
  else singularName +:+ "s".

Definition kind_of (o : runtime_object) : string :=
  match o with
  | OHTTPProxy _ => "HTTPProxy"
  | OTLSCertificateDelegation _ => "TLSCertificateDelegation"
  | OHTTPProxyList _ => "HTTPProxyList"
  | OTLSCertificateDelegationList _ => "TLSCertificateDelegationList"
  end.

(** ** Actions (actions.go) *)

Inductive action_impl :=
  | GetActionImpl (name : string)
  | ListActionImpl (kind : string) (restrictions : list Requirement)
  | WatchActionImpl (restrictions : list Requirement)
  | CreateActionImpl (obj : runtime_object)
  | UpdateActionImpl (obj : runtime_object)
  | DeleteActionImpl (name : string)
  | DeleteCollectionActionImpl (restrictions : list Requirement)
  | PatchActionImpl (name patch_type patch : string).

Record Action := {
  ac_namespace : string;
  ac_verb : string;
  ac_resource : string;
  ac_subresource : string;
  ac_impl : action_impl
}.

(** ** The object tracker (fixture.go) *)

Inductive EventType := Added | Modified | Deleted.

(** A [RaceFreeFakeWatcher]: the events in its channel, and whether it was stopped. *)
Record watcher := { w_result : list (EventType * runtime_object); w_Stopped : bool }.
Definition DefaultChanSize : nat := 100.

Record object_tracker := {
  objects : gmap string (gmap NamespacedName runtime_object);
  watchers : gmap (string * string) (list nat);
  channels : list watcher
}.

Definition with_objects m (t : object_tracker) : object_tracker :=
  {| objects := m; watchers := watchers t; channels := channels t |}.
Definition with_channels l (t : object_tracker) : object_tracker :=
  {| objects := objects t; watchers := watchers t; channels := l |}.

Definition NewObjectTracker : object_tracker := {| objects := ∅; watchers := ∅; channels := [] |}.

(** The operations of the tracker: state, errors and panics. *)
Definition tr (A : Type) : Type := object_tracker → object_tracker * outcome A.
#[export] Instance tr_ret : MRet tr := λ A a t, (t, Ret a).
#[export] Instance tr_bind : MBind tr := λ A B k m t,
  match m t with
  | (t, Ret a) => k a t
  | (t, Fail e) => (t, Fail e)
  | (t, Panic s) => (t, Panic s)
  end.
Definition tr_of {A} (r : outcome A) : tr A := λ t, (t, r).
Definition tr_get {A} (f : object_tracker → A) : tr A := λ t, (t, Ret (f t)).
Definition tr_put (f : object_tracker → object_tracker) : tr () := λ t, (f t, Ret ()).

Fixpoint tr_each {A} (f : A → tr ()) (l : list A) : tr () :=
  match l with [] => mret () | x :: l => _ ← f x; tr_each f l end.

(** [Add], [Modify] and [Delete] of a watcher: a full channel is a panic. *)
Definition send_event (ty : EventType) (obj : runtime_object) (i : nat) : tr () := λ t,
  match channels t !! i with
  | Some w =>
      if w_Stopped w then (t, Ret ())
      else if (length (w_result w) <? DefaultChanSize)%nat then
        (with_channels (<[i := {| w_result := w_result w ++ [(ty, obj)]; w_Stopped := false |}]> (channels t)) t,
         Ret ())
      else (t, Panic "channel full")
  | None => (t, Ret ())
  end.

(** What a test does with a watcher: [Stop], which closes the channel, and a receive from
    [ResultChan] that does not wait.  A closed channel still holds what was sent. *)
Definition watcher_Stop (i : nat) : tr () := λ t,
  match channels t !! i with
  | Some w => (with_channels (<[i := {| w_result := w_result w; w_Stopped := true |}]> (channels t)) t, Ret ())
  | None => (t, Ret ())
  end.

Inductive reception (A : Type) := Received (ty : EventType) (obj : A) | NothingYet | Closed.
Arguments Received {A} ty obj.
Arguments NothingYet {A}.
Arguments Closed {A}.

Definition watcher_receive (i : nat) : tr (reception runtime_object) := λ t,
  match channels t !! i with
  | Some w =>
      match w_result w with
      | (ty, obj) :: l =>
          (with_channels (<[i := {| w_result := l; w_Stopped := w_Stopped w |}]> (channels t)) t, Ret (Received ty obj))
      | [] => (t, Ret (if w_Stopped w then Closed else NothingYet))
      end
  | None => (t, Ret NothingYet)
  end.

Definition getWatches (gvr ns : string) (t : object_tracker) : list nat :=
  default [] (watchers t !! (gvr, ns)) ++
  (if String.eqb ns "" then [] else default [] (watchers t !! (gvr, ""))).

Definition notify (ty : EventType) (gvr ns : string) (obj : runtime_object) : tr () :=
  ws ← tr_get (getWatches gvr ns); tr_each (send_event ty obj) ws.

Definition GroupResource (gvr : string) : string := gvr +:+ ".projectcontour.io".
Definition NewNotFound (gvr name : string) : goerr :=
  APIStatus StatusReasonNotFound (GroupResource gvr +:+ " " +:+ name +:+ " not found").
Definition NewAlreadyExists (gvr name : string) : goerr :=
  APIStatus StatusReasonAlreadyExists (GroupResource gvr +:+ " " +:+ name +:+ " already exists").

Definition objs_of (gvr : string) (t : object_tracker) : gmap NamespacedName runtime_object :=
  default ∅ (objects t !! gvr).
Definition put_objs (gvr : string) (m : gmap NamespacedName runtime_object) (t : object_tracker) : object_tracker :=
  with_objects (<[gvr := m]> (objects t)) t.

Definition tracker_add (gvr : string) (obj : runtime_object) (ns : string) (replaceExisting : bool) : tr () :=
  let obj :=
    match robj_meta obj with
    | Some newMeta => if String.eqb (om_namespace newMeta) "" then SetNamespace ns obj else obj
    | None => obj
    end in
  match robj_meta obj with
  | None => tr_of (Fail (Errorf "object does not implement the Object interfaces" []))
  | Some newMeta =>
      if negb (String.eqb ns (om_namespace newMeta)) then
        tr_of (Fail (APIStatus StatusReasonBadRequest
          ("request namespace does not match object namespace, request: " +:+ ns +:+
           " object: " +:+ om_namespace newMeta)))
      else
        let namespacedName := key_of newMeta in
        m ← tr_get (objs_of gvr);
        match m !! namespacedName with
        | Some _ =>
            if replaceExisting then
              _ ← notify Modified gvr ns obj;
              tr_put (put_objs gvr (<[namespacedName := obj]> m))
            else tr_of (Fail (NewAlreadyExists gvr (om_name newMeta)))
        | None =>
            if replaceExisting then tr_of (Fail (NewNotFound gvr (om_name newMeta)))
            else
              _ ← tr_put (put_objs gvr (<[namespacedName := obj]> m));
              notify Added gvr ns obj
        end
  end.

Definition tracker_Get (gvr ns name : string) : tr runtime_object :=
  m ← tr_get (objs_of gvr);
  match m !! {| nn_namespace := ns; nn_name := name |} with
  | Some obj => mret obj
  | None => tr_of (Fail (NewNotFound gvr name))
  end.

Definition tracker_Delete (gvr ns name : string) : tr () :=
  m ← tr_get (objs_of gvr);
  let namespacedName := {| nn_namespace := ns; nn_name := name |} in
  match m !! namespacedName with
  | Some obj =>
      _ ← tr_put (put_objs gvr (delete namespacedName m));
      notify Deleted gvr ns obj
  | None => tr_of (Fail (NewNotFound gvr name))
  end.

Definition tracker_Watch (gvr ns : string) : tr nat := λ t,
  let i := length (channels t) in
  ({| objects := objects t;
      watchers := <[(gvr, ns) := default [] (watchers t !! (gvr, ns)) ++ [i]]> (watchers t);
      channels := channels t ++ [{| w_result := []; w_Stopped := false |}] |}, Ret i).

Definition as_HTTPProxy (o : runtime_object) : option HTTPProxy :=
  match o with OHTTPProxy p => Some p | _ => None end.
Definition as_TLSCertificateDelegation (o : runtime_object) : option TLSCertificateDelegation :=
  match o with OTLSCertificateDelegation d => Some d | _ => None end.

(** The scheme's list type for a kind, filled by [meta.SetList]. *)
Definition list_of (kind : string) (objs : list runtime_object) : outcome runtime_object :=
  if String.eqb kind "HTTPProxy" then
    match mapM as_HTTPProxy objs with
    | Some l => Ret (OHTTPProxyList l)
    | None => Fail (Errorf "item[%d]: can't assign or convert %v into %v" [])
    end
  else if String.eqb kind "TLSCertificateDelegation" then
    match mapM as_TLSCertificateDelegation objs with
    | Some l => Ret (OTLSCertificateDelegationList l)
    | None => Fail (Errorf "item[%d]: can't assign or convert %v into %v" [])
    end
  else Fail (Errorf "no kind %q is registered for version %q in scheme %q" [kind +:+ "List"]).

(** The order of a list: by namespace, then by name. *)
Definition robj_key (o : runtime_object) : NamespacedName :=
  match robj_meta o with Some m => key_of m | None => {| nn_namespace := ""; nn_name := "" |} end.
Definition nn_less (a b : NamespacedName) : bool :=
  if String.eqb (nn_namespace a) (nn_namespace b) then string_lt (nn_name a) (nn_name b)
  else string_lt (nn_namespace a) (nn_namespace b).

Section Fake.
Context `{KeyOrder}.
Context (patched_HTTPProxy : string → string → HTTPProxy → goerr + HTTPProxy).
Context (patched_TLSCertificateDelegation :
  string → string → TLSCertificateDelegation → goerr + TLSCertificateDelegation).
Context (ParseFieldSelector : ListOptions → option goerr).

Definition filterByNamespace (objs : gmap NamespacedName runtime_object) (ns : string) : list runtime_object :=
  sort_slice (λ a b, nn_less (robj_key a) (robj_key b))
    (filter (λ o, ns = "" ∨ nn_namespace (robj_key o) = ns) (range_keys objs).*2).

Definition tracker_List (gvr kind ns : string) : tr runtime_object :=
  m ← tr_get (objs_of gvr); tr_of (list_of kind (filterByNamespace m ns)).

(** The result of a patch, by type. *)
Definition patched (pt patch : string) (o : runtime_object) : goerr + runtime_object :=
  match o with
  | OHTTPProxy p =>
      match patched_HTTPProxy pt patch p with inl e => inl e | inr p => inr (OHTTPProxy p) end
  | OTLSCertificateDelegation d =>
      match patched_TLSCertificateDelegation pt patch d with
      | inl e => inl e | inr d => inr (OTLSCertificateDelegation d) end
  | _ => inl (Errorf "PatchType %s is not supported" [pt])
  end.

(** ** Reactions *)

(** What a reactor answers: whether it handled the action, an object or nil, an error or
    nil. *)
Definition ReactionFunc : Type := Action → tr (bool * option runtime_object * option goerr).

(** [obj, err := ...; return true, obj, err] *)
Definition reaction (m : tr (option runtime_object)) : tr (bool * option runtime_object * option goerr) := λ t,
  match m t with
  | (t, Ret obj) => (t, Ret (true, obj, None))
  | (t, Fail e) => (t, Ret (true, None, Some e))
  | (t, Panic s) => (t, Panic s)
  end.

Definition name_in (obj : runtime_object) : tr string :=
  match robj_meta obj with
  | Some m => mret (om_name m)
  | None => tr_of (Fail (Errorf "object does not implement the Object interfaces" []))
  end.

Definition react_Create (a : Action) (obj : runtime_object) : tr (option runtime_object) :=
  name ← name_in obj;
  if String.eqb (ac_subresource a) "" then
    _ ← tracker_add (ac_resource a) obj (ac_namespace a) false;
    obj ← tracker_Get (ac_resource a) (ac_namespace a) name; mret (Some obj)
  else
    oldObj ← tracker_Get (ac_resource a) (ac_namespace a) name;
    if String.eqb (kind_of oldObj) (kind_of obj) then
      _ ← tracker_add (ac_resource a) obj (ac_namespace a) true;
      obj ← tracker_Get (ac_resource a) (ac_namespace a) name; mret (Some obj)
    else mret (Some obj).

Definition react_Update (a : Action) (obj : runtime_object) : tr (option runtime_object) :=
  name ← name_in obj;
  _ ← tracker_add (ac_resource a) obj (ac_namespace a) true;
  obj ← tracker_Get (ac_resource a) (ac_namespace a) name; mret (Some obj).

Definition ApplyPatchType : string := "application/apply-patch+yaml".

(** [Apply] reads the object again after the tracker has changed it; [Patch] returns the
    object it made. *)
Definition react_Patch (a : Action) (name pt patch : string) : tr (option runtime_object) :=
  obj ← tracker_Get (ac_resource a) (ac_namespace a) name;
  match patched pt patch obj with
  | inl e => tr_of (Fail e)
  | inr obj =>
      _ ← tracker_add (ac_resource a) obj (ac_namespace a) true;
      if String.eqb pt ApplyPatchType then
        obj ← tracker_Get (ac_resource a) (ac_namespace a) name; mret (Some obj)
      else mret (Some obj)
  end.

(** [ObjectReaction]: the types of actions it does not list are not handled. *)
Definition ObjectReaction : ReactionFunc := λ a,
  match ac_impl a with
  | ListActionImpl kind _ =>
      reaction (obj ← tracker_List (ac_resource a) kind (ac_namespace a); mret (Some obj))
  | GetActionImpl name =>
      reaction (obj ← tracker_Get (ac_resource a) (ac_namespace a) name; mret (Some obj))
  | CreateActionImpl obj => reaction (react_Create a obj)
  | UpdateActionImpl obj => reaction (react_Update a obj)
  | DeleteActionImpl name =>
      reaction (_ ← tracker_Delete (ac_resource a) (ac_namespace a) name; mret None)
  | PatchActionImpl name pt patch => reaction (react_Patch a name pt patch)
  | WatchActionImpl _ | DeleteCollectionActionImpl _ =>
      mret (false, None, Some (Errorf "no reaction implemented for %s" [ac_verb a]))
  end.

(** Watches have a chain of their own. *)
Definition WatchReactionFunc : Type := Action → tr (bool * option nat * option goerr).
Definition watch_reaction : WatchReactionFunc := λ a,
  i ← tracker_Watch (ac_resource a) (ac_namespace a); mret (true, Some i, None).

(** ** The fake (fake.go) *)

Record Reactor := { rx_Verb : string; rx_Resource : string; rx_Reaction : ReactionFunc }.
Record WatchReactor := { wx_Resource : string; wx_Reaction : WatchReactionFunc }.

(** The text before and after the first slash. *)
Fixpoint cut_slash (s : string) : option (string * string) :=
  match s with
  | EmptyString => None
  | String c s =>
      if Ascii.eqb c "/" then Some ("", s)
      else match cut_slash s with Some (a, b) => Some (String c a, b) | None => None end
  end.

Definition resourceCovers (resource : string) (a : Action) : bool :=
  String.eqb resource "*" || String.eqb resource (ac_resource a) ||
  match cut_slash resource with
  | Some (top, sub) => String.eqb top (ac_resource a) && String.eqb sub (ac_subresource a)
  | None => false
  end.

Definition Handles (r : Reactor) (a : Action) : bool :=
  (String.eqb (rx_Verb r) "*" || String.eqb (rx_Verb r) (ac_verb a)) && resourceCovers (rx_Resource r) a.

Record Fake := {
  fk_actions : list Action;
  ReactionChain : list Reactor;
  WatchReactionChain : list WatchReactor;
  fk_tracker : object_tracker
}.

Definition with_tracker (t : object_tracker) (f : Fake) : Fake := {|
  fk_actions := fk_actions f; ReactionChain := ReactionChain f;
  WatchReactionChain := WatchReactionChain f; fk_tracker := t |}.
Definition record_action (a : Action) (f : Fake) : Fake := {|
  fk_actions := fk_actions f ++ [a]; ReactionChain := ReactionChain f;
  WatchReactionChain := WatchReactionChain f; fk_tracker := fk_tracker f |}.

Definition AddReactor (verb resource : string) (r : ReactionFunc) (f : Fake) : Fake := {|
  fk_actions := fk_actions f;
  ReactionChain := ReactionChain f ++ [{| rx_Verb := verb; rx_Resource := resource; rx_Reaction := r |}];
  WatchReactionChain := WatchReactionChain f; fk_tracker := fk_tracker f |}.
Definition PrependReactor (verb resource : string) (r : ReactionFunc) (f : Fake) : Fake := {|
  fk_actions := fk_actions f;
  ReactionChain := {| rx_Verb := verb; rx_Resource := resource; rx_Reaction := r |} :: ReactionChain f;
  WatchReactionChain := WatchReactionChain f; fk_tracker := fk_tracker f |}.
Definition AddWatchReactor (resource : string) (r : WatchReactionFunc) (f : Fake) : Fake := {|
  fk_actions := fk_actions f; ReactionChain := ReactionChain f;
  WatchReactionChain := WatchReactionChain f ++ [{| wx_Resource := resource; wx_Reaction := r |}];
  fk_tracker := fk_tracker f |}.

Fixpoint react (chain : list Reactor) (a : Action) (defaultReturnObj : runtime_object)
    : tr (option runtime_object * option goerr) :=
  match chain with
  | [] => mret (Some defaultReturnObj, None)
  | reactor :: chain =>
      if Handles reactor a then
        '(handled, ret, err) ← rx_Reaction reactor a;
        if (handled : bool) then mret (ret, err) else react chain a defaultReturnObj
      else react chain a defaultReturnObj
  end.

Fixpoint react_watch (chain : list WatchReactor) (a : Action) : tr (option nat * option goerr) :=
  match chain with
  | [] => mret (None, Some (Errorf "unhandled watch: %#v" [ac_resource a]))
  | reactor :: chain =>
      if resourceCovers (wx_Resource reactor) a then
        '(handled, ret, err) ← wx_Reaction reactor a;
        if (handled : bool) then mret (ret, err) else react_watch chain a
      else react_watch chain a
  end.

(** The operations of the fake. *)
Definition fk (A : Type) : Type := Fake → Fake * outcome A.
Definition run_tracker {A} (m : tr A) : fk A := λ f,
  let '(t, r) := m (fk_tracker f) in (with_tracker t f, r).

Definition Invokes (a : Action) (defaultReturnObj : runtime_object)
    : fk (option runtime_object * option goerr) := λ f,
  let f := record_action a f in run_tracker (react (ReactionChain f) a defaultReturnObj) f.
Definition InvokesWatch (a : Action) : fk (option nat * option goerr) := λ f,
  let f := record_action a f in run_tracker (react_watch (WatchReactionChain f) a) f.

(** ** clientset_generated.go *)

(** [Add] of the tracker: the items of a list one by one. *)
Definition tracker_Add_one (obj : runtime_object) : tr () :=
  match robj_meta obj with
  | Some m => tracker_add (UnsafeGuessKindToResource (kind_of obj)) obj (om_namespace m) false
  | None => tr_of (Fail (Errorf "object does not implement the Object interfaces" []))
  end.
Definition tracker_Add (obj : runtime_object) : tr () :=
  match obj with
  | OHTTPProxyList l => tr_each tracker_Add_one (OHTTPProxy <$> l)
  | OTLSCertificateDelegationList l => tr_each tracker_Add_one (OTLSCertificateDelegation <$> l)
  | _ => tracker_Add_one obj
  end.

Definition new_fake (t : object_tracker) : Fake :=
  AddWatchReactor "*" watch_reaction
    (AddReactor "*" "*" ObjectReaction
      {| fk_actions := []; ReactionChain := []; WatchReactionChain := []; fk_tracker := t |}).

Definition NewSimpleClientset (objs : list runtime_object) : outcome Fake :=
  match tr_each tracker_Add objs NewObjectTracker with
  | (t, Ret _) => Ret (new_fake t)
  | (_, Fail e) => Panic (err_format e)
  | (_, Panic s) => Panic s
  end.

(** ** The typed fakes *)

(** The two types of the group: their resource, and the type assertions to them. *)
Class FakeObject (O : Type) := {
  fo_object :: Object O;
  fo_resource : string;
  fo_kind : string;
  fo_inject : O → runtime_object;
  fo_as : runtime_object → option O;
  fo_inject_list : list O → runtime_object;
  fo_as_list : runtime_object → option (list O);
  fo_zero : O;
  fo_SetNamespace : string → O → O
}.

Section Typed.
Context {O : Type} `{FakeObject O} (ns : string).

Definition action (verb subresource : string) (impl : action_impl) : Action := {|
  ac_namespace := ns; ac_verb := verb; ac_resource := fo_resource; ac_subresource := subresource;
  ac_impl := impl |}.

(** A nil object is returned as nil; any other is asserted to be of the type. *)
Definition typed_result {A} (as_ : runtime_object → option A)
    (m : fk (option runtime_object * option goerr)) : fk (option A * option goerr) := λ f,
  match m f with
  | (f, Ret (None, err)) => (f, Ret (None, err))
  | (f, Ret (Some obj, err)) =>
      (f, match as_ obj with Some o => Ret (Some o, err) | None => Panic "interface conversion" end)
  | (f, Fail e) => (f, Fail e)
  | (f, Panic s) => (f, Panic s)
  end.

Definition error_result (m : fk (option runtime_object * option goerr)) : fk (option goerr) := λ f,
  match m f with
  | (f, Ret (_, err)) => (f, Ret err)
  | (f, Fail e) => (f, Fail e)
  | (f, Panic s) => (f, Panic s)
  end.

(** Selectors that do not parse are panics. *)
Definition ExtractFromListOptions (opts : ListOptions) : outcome (list Requirement) :=
  match Parse (lo_LabelSelector opts) with
  | Ret sel => match ParseFieldSelector opts with None => Ret sel | Some _ => Panic "invalid selector %q: %v" end
  | Fail _ => Panic "invalid selector %q: %v"
  | Panic s => Panic s
  end.
Definition with_restrictions {A} (opts : ListOptions) (k : list Requirement → fk A) : fk A := λ f,
  match ExtractFromListOptions opts with
  | Ret sel => k sel f
  | Fail e => (f, Fail e)
  | Panic s => (f, Panic s)
  end.

Definition fake_Get (name : string) : fk (option O * option goerr) :=
  typed_result fo_as (Invokes (action "get" "" (GetActionImpl name)) (fo_inject fo_zero)).

Definition fake_List (opts : ListOptions) : fk (option (list O) * option goerr) :=
  with_restrictions opts (λ label, typed_result
    (λ obj, filter (λ item, Matches label (GetLabels item) = true) <$> fo_as_list obj)
    (Invokes (action "list" "" (ListActionImpl fo_kind label)) (fo_inject_list []))).

Definition fake_Watch (opts : ListOptions) : fk (option nat * option goerr) :=
  with_restrictions opts (λ label, InvokesWatch (action "watch" "" (WatchActionImpl label))).

Definition fake_Create (o : O) : fk (option O * option goerr) :=
  typed_result fo_as (Invokes (action "create" "" (CreateActionImpl (fo_inject o))) (fo_inject fo_zero)).

Definition fake_Update (o : O) : fk (option O * option goerr) :=
  typed_result fo_as (Invokes (action "update" "" (UpdateActionImpl (fo_inject o))) (fo_inject fo_zero)).

Definition fake_UpdateStatus (o : O) : fk (option O * option goerr) :=
  typed_result fo_as (Invokes (action "update" "status" (UpdateActionImpl (fo_inject o))) (fo_inject fo_zero)).

Definition fake_Delete (name : string) : fk (option goerr) :=
  error_result (Invokes (action "delete" "" (DeleteActionImpl name)) (fo_inject fo_zero)).

Definition fake_DeleteCollection (listOpts : ListOptions) : fk (option goerr) :=
  with_restrictions listOpts (λ label, error_result
    (Invokes (action "delete-collection" "" (DeleteCollectionActionImpl label)) (fo_inject_list []))).

Definition fake_Patch (name pt data : string) (subresources : list string) : fk (option O * option goerr) :=
  typed_result fo_as
    (Invokes (action "patch" (path_Join subresources) (PatchActionImpl name pt data)) (fo_inject fo_zero)).
End Typed.
End Fake.

Definition zero_meta : ObjectMeta := {|
  om_name := ""; om_namespace := ""; om_uid := ""; om_resource_version := ""; om_generation := 0;
  om_labels := ∅; om_annotations := ∅; om_owners := [] |}.

#[export] Instance HTTPProxy_fake : FakeObject HTTPProxy := {
  fo_resource := "httpproxies"; fo_kind := "HTTPProxy";
  fo_inject := OHTTPProxy; fo_as := as_HTTPProxy; fo_inject_list := OHTTPProxyList;
  fo_as_list o := match o with OHTTPProxyList l => Some l | _ => None end;
  fo_zero := {| hp_meta := zero_meta; hp_spec := {| hs_virtual_host := None; hs_routes := [] |};
                hp_current_status := "" |};
  fo_SetNamespace ns p := {|
    hp_meta := meta_with_namespace ns (hp_meta p); hp_spec := hp_spec p;
    hp_current_status := hp_current_status p |}
}.
#[export] Instance TLSCertificateDelegation_fake : FakeObject TLSCertificateDelegation := {
  fo_resource := "tlscertificatedelegations"; fo_kind := "TLSCertificateDelegation";
  fo_inject := OTLSCertificateDelegation; fo_as := as_TLSCertificateDelegation;
  fo_inject_list := OTLSCertificateDelegationList;
  fo_as_list o := match o with OTLSCertificateDelegationList l => Some l | _ => None end;
  fo_zero := {| td_meta := zero_meta; td_delegations := [] |};
  fo_SetNamespace ns d :=
    {| td_meta := meta_with_namespace ns (td_meta d); td_delegations := td_delegations d |}
}.

Module FakeHTTPProxies.
Definition Get := fake_Get (O := HTTPProxy).
Definition List parse := fake_List parse (O := HTTPProxy).
Definition Watch parse := fake_Watch parse (O := HTTPProxy).
Definition Create := fake_Create (O := HTTPProxy).
Definition Update := fake_Update (O := HTTPProxy).
Definition UpdateStatus := fake_UpdateStatus (O := HTTPProxy).
Definition Delete := fake_Delete (O := HTTPProxy).
Definition DeleteCollection parse := fake_DeleteCollection parse (O := HTTPProxy).
Definition Patch := fake_Patch (O := HTTPProxy).
End FakeHTTPProxies.

Module FakeTLSCertificateDelegations.
Definition Get := fake_Get (O := TLSCertificateDelegation).
Definition List parse := fake_List parse (O := TLSCertificateDelegation).
Definition Watch parse := fake_Watch parse (O := TLSCertificateDelegation).
Definition Create := fake_Create (O := TLSCertificateDelegation).
Definition Update := fake_Update (O := TLSCertificateDelegation).
Definition UpdateStatus := fake_UpdateStatus (O := TLSCertificateDelegation).
Definition Delete := fake_Delete (O := TLSCertificateDelegation).
Definition DeleteCollection parse := fake_DeleteCollection parse (O := TLSCertificateDelegation).
Definition Patch := fake_Patch (O := TLSCertificateDelegation).
End FakeTLSCertificateDelegations.

(** ** What the tracker keeps *)

(** The resource under which an object of the group belongs. *)
Definition resource_of (o : runtime_object) : option string :=
  match o with
  | OHTTPProxy _ => Some "httpproxies"
  | OTLSCertificateDelegation _ => Some "tlscertificatedelegations"
  | _ => None
  end.

(** Objects are stored under their resource, namespace and name. *)
Definition stored_ok (t : object_tracker) : Prop :=
  ∀ gvr k o, objs_of gvr t !! k = Some o → robj_key o = k ∧ resource_of o = Some gvr.

Lemma guess_resource o : is_Some (robj_meta o) →
  resource_of o = Some (UnsafeGuessKindToResource (kind_of o)).
Proof. destruct o; simpl; [by vm_compute|by vm_compute|by intros []..]. Qed.

Lemma robj_meta_resource o : is_Some (robj_meta o) ↔ is_Some (resource_of o).
Proof. destruct o; simpl; rewrite <-?not_eq_None_Some; naive_solver. Qed.

Lemma SetNamespace_resource ns o : resource_of (SetNamespace ns o) = resource_of o.
Proof. by destruct o. Qed.

Lemma objs_of_put gvr gvr' m t :
  objs_of gvr' (put_objs gvr m t) = if decide (gvr = gvr') then m else objs_of gvr' t.
Proof.
  unfold objs_of, put_objs. simpl. case_decide; simplify_map_eq; done.
Qed.

(** Events change channels only. *)
Lemma tr_each_keeps {A} (P : object_tracker → Prop) (f : A → tr ()) l t :
  (∀ x t, P t → P (f x t).1) → P t → P (tr_each f l t).1.
Proof.
  intros Hf. revert t. induction l as [|x l IH]; intros t Ht; simpl; [done|].
  unfold mbind, tr_bind. pose proof (Hf x t Ht) as H1. destruct (f x t) as [t1 [[]|e|s]]; auto.
Qed.

Lemma send_event_keeps ty obj i t :
  objects (send_event ty obj i t).1 = objects t ∧ watchers (send_event ty obj i t).1 = watchers t.
Proof. unfold send_event. repeat case_match; done. Qed.

Lemma notify_keeps ty gvr ns obj t :
  objects (notify ty gvr ns obj t).1 = objects t ∧ watchers (notify ty gvr ns obj t).1 = watchers t.
Proof.
  unfold notify, mbind, tr_bind, tr_get.
  apply (tr_each_keeps (λ t', objects t' = objects t ∧ watchers t' = watchers t)); [|done].
  intros i t' [<- <-]. apply send_event_keeps.
Qed.

Lemma notify_unwatched ty gvr ns obj t : watchers t = ∅ → notify ty gvr ns obj t = (t, Ret ()).
Proof.
  intros Hw. unfold notify, mbind, tr_bind, tr_get, getWatches. rewrite Hw, !lookup_empty. simpl.
  by destruct (String.eqb ns "").
Qed.
