(* ===== verification/FakeFacts.v ===== *)
(** * What the fake clientset promises

    [spec_step] is an API server reduced to a map from namespace and name to object and a
    list of watches, and [fake_refines] says that the typed fakes answer like it, through
    actions, reactors and the object tracker.  Differences from the real server are part of
    the specification: [UpdateStatus] replaces the whole object, [DeleteCollection] reports
    success and deletes nothing, watches do not select, and a write panics when the channel
    of a watch is full. *)

From S2P Require Import Prelude Meta Labels Ingress HTTPProxy Events Scheme Client Clientset Fake.
Local Open Scope Z_scope.

(** The two types agree with the untyped operations on objects. *)
Class FakeLaws (O : Type) `{FakeObject O} := {
  as_inject (o : O) : fo_as (fo_inject o) = Some o;
  as_list_inject (l : list O) : fo_as_list (fo_inject_list l) = Some l;
  list_of_inject (l : list O) : list_of fo_kind (fo_inject <$> l) = Ret (fo_inject_list l);
  meta_inject (o : O) : robj_meta (fo_inject o) = Some (obj_meta o);
  SetNamespace_inject ns (o : O) : SetNamespace ns (fo_inject o) = fo_inject (fo_SetNamespace ns o);
  meta_SetNamespace ns (o : O) : obj_meta (fo_SetNamespace ns o) = meta_with_namespace ns (obj_meta o);
  inject_resource (o : O) : resource_of (fo_inject o) = Some fo_resource;
  resource_inject r : resource_of r = Some fo_resource → ∃ o : O, r = fo_inject o
}.

Lemma mapM_inject {A} (f : A → runtime_object) (g : runtime_object → option A) l :
  (∀ a, g (f a) = Some a) → mapM g (f <$> l) = Some l.
Proof. intros Hg. apply mapM_Some, Forall2_fmap_l, Forall_Forall2_diag, Forall_true. auto. Qed.

#[export] Instance HTTPProxy_laws : FakeLaws HTTPProxy.
Proof.
  split; try done; [|by intros [] [=]; eexists].
  intros l. unfold list_of. cbn -[mapM]. by rewrite (mapM_inject OHTTPProxy as_HTTPProxy).
Qed.
#[export] Instance TLSCertificateDelegation_laws : FakeLaws TLSCertificateDelegation.
Proof.
  split; try done; [|by intros [] [=]; eexists].
  intros l. unfold list_of. cbn -[mapM].
  by rewrite (mapM_inject OTLSCertificateDelegation as_TLSCertificateDelegation).
Qed.

(** ** The specification *)

Inductive fake_op (O : Type) :=
  | FGet (ns name : string)
  | FList (ns : string) (opts : ListOptions)
  | FCreate (ns : string) (o : O)
  | FUpdate (ns : string) (o : O)
  | FUpdateStatus (ns : string) (o : O)
  | FDelete (ns name : string)
  | FDeleteCollection (ns : string) (opts : ListOptions)
  | FWatch (ns : string) (opts : ListOptions)
  | FReceive (i : nat)
  | FStop (i : nat)
  | FPatch (ns name pt data : string) (subresources : list string).
Arguments FGet {O} ns name.
Arguments FList {O} ns opts.
Arguments FCreate {O} ns o.
Arguments FUpdate {O} ns o.
Arguments FUpdateStatus {O} ns o.
Arguments FDelete {O} ns name.
Arguments FDeleteCollection {O} ns opts.
Arguments FWatch {O} ns opts.
Arguments FReceive {O} i.
Arguments FStop {O} i.
Arguments FPatch {O} ns name pt data subresources.

(** An object, a list, or neither, each with an error or nil; a watch, by its number; what
    was received from one. *)
Inductive answer (O : Type) :=
  | AObject (o : option O) (err : option goerr)
  | AList (l : option (list O)) (err : option goerr)
  | AError (err : option goerr)
  | AWatch (i : option nat) (err : option goerr)
  | AEvent (e : reception O).
Arguments AObject {O} o err.
Arguments AList {O} l err.
Arguments AError {O} err.
Arguments AWatch {O} i err.
Arguments AEvent {O} e.

Section Spec.
Context {O : Type} `{FakeObject O}.
Context (patch_object : string → string → O → goerr + O).
Context (ParseFieldSelector : ListOptions → option goerr).
Implicit Types m : gmap NamespacedName O.

Definition obj_key (o : O) : NamespacedName := key_of (obj_meta o).

(** A watch of a namespace (of all, for the empty one): the events not yet received, and
    whether it was stopped. *)
Record watch := { wt_namespace : string; wt_events : list (EventType * O); wt_stopped : bool }.
Record api := { api_objects : gmap NamespacedName O; api_watches : list watch }.

Definition set_objects m (st : api) : api := {| api_objects := m; api_watches := api_watches st |}.
Definition set_watches ws (st : api) : api := {| api_objects := api_objects st; api_watches := ws |}.

(** The watches that hear of a namespace: its own, then those of all namespaces. *)
Definition watching (ns : string) (ws : list watch) : list nat :=
  (filter (λ iw, iw.2 = ns) (imap pair (wt_namespace <$> ws))).*1.
Definition audience (ns : string) (ws : list watch) : list nat :=
  watching ns ws ++ (if String.eqb ns "" then [] else watching "" ws).

(** They are told one after the other; a stopped one is passed over, and one with a full
    channel makes the call panic. *)
Fixpoint spec_tell (ty : EventType) (o : O) (l : list nat) (ws : list watch) : list watch * outcome () :=
  match l with
  | [] => (ws, Ret ())
  | i :: l =>
      match ws !! i with
      | Some w =>
          if wt_stopped w then spec_tell ty o l ws
          else if (length (wt_events w) <? DefaultChanSize)%nat then
            spec_tell ty o l (<[i := {| wt_namespace := wt_namespace w; wt_events := wt_events w ++ [(ty, o)];
                                        wt_stopped := false |}]> ws)
          else (ws, Panic "channel full")
      | None => spec_tell ty o l ws
      end
  end.
Definition tell (ty : EventType) (ns : string) (o : O) (st : api) : api * outcome () :=
  let '(ws, r) := spec_tell ty o (audience ns (api_watches st)) (api_watches st) in (set_watches ws st, r).

(** Storing an object: it gets the namespace of the request if it has none, and must not
    have another; [must_exist] tells an update from a creation.  A new object is there before
    the watches are told of it; an updated one after, and not at all if that panics. *)
Definition spec_put (must_exist : bool) (ns : string) (o : O) (st : api) : api * outcome () :=
  let o := if String.eqb (GetNamespace o) "" then fo_SetNamespace ns o else o in
  let m' := <[obj_key o := o]> (api_objects st) in
  if negb (String.eqb ns (GetNamespace o)) then
    (st, Fail (APIStatus StatusReasonBadRequest ("request namespace does not match object namespace, request: " +:+ ns +:+
           " object: " +:+ GetNamespace o)))
  else match api_objects st !! obj_key o, must_exist with
       | Some _, false => (st, Fail (NewAlreadyExists fo_resource (GetName o)))
       | None, true => (st, Fail (NewNotFound fo_resource (GetName o)))
       | None, false => tell Added ns o (set_objects m' st)
       | Some _, true =>
           match tell Modified ns o st with (st, Ret _) => (set_objects m' st, Ret ()) | p => p end
       end.

(** An object or nil, an error or nil. *)
Definition found : Type := option O * option goerr.

Definition spec_get (ns name : string) (st : api) : found :=
  match api_objects st !! {| nn_namespace := ns; nn_name := name |} with
  | Some o => (Some o, None)
  | None => (None, Some (NewNotFound fo_resource name))
  end.

Definition spec_write (must_exist : bool) (ns : string) (o : O) (st : api) : api * outcome found :=
  match spec_put must_exist ns o st with
  | (st, Ret _) => (st, Ret (spec_get ns (GetName o) st))
  | (st, Fail e) => (st, Ret (None, Some e))
  | (st, Panic s) => (st, Panic s)
  end.

Definition spec_delete (ns name : string) (st : api) : api * outcome (option goerr) :=
  let key := {| nn_namespace := ns; nn_name := name |} in
  match api_objects st !! key with
  | Some o =>
      let '(st, r) := tell Deleted ns o (set_objects (delete key (api_objects st)) st) in (st, (λ _, None) <$> r)
  | None => (st, Ret (Some (NewNotFound fo_resource name)))
  end.

Definition spec_patch (ns name pt data : string) (st : api) : api * outcome found :=
  match api_objects st !! {| nn_namespace := ns; nn_name := name |} with
  | None => (st, Ret (None, Some (NewNotFound fo_resource name)))
  | Some o =>
      match patch_object pt data o with
      | inl e => (st, Ret (None, Some e))
      | inr o' =>
          match spec_put true ns o' st with
          | (st, Ret _) => (st, Ret (if String.eqb pt ApplyPatchType then spec_get ns name st else (Some o', None)))
          | (st, Fail e) => (st, Ret (None, Some e))
          | (st, Panic s) => (st, Panic s)
          end
      end
  end.

Definition spec_receive (i : nat) (st : api) : api * reception O :=
  match api_watches st !! i with
  | Some w =>
      match wt_events w with
      | (ty, o) :: l =>
          (set_watches (<[i := {| wt_namespace := wt_namespace w; wt_events := l; wt_stopped := wt_stopped w |}]>
             (api_watches st)) st, Received ty o)
      | [] => (st, if wt_stopped w then Closed else NothingYet)
      end
  | None => (st, NothingYet)
  end.

Definition spec_stop (i : nat) (st : api) : api :=
  match api_watches st !! i with
  | Some w =>
      set_watches (<[i := {| wt_namespace := wt_namespace w; wt_events := wt_events w; wt_stopped := true |}]>
        (api_watches st)) st
  | None => st
  end.

(** The objects of a namespace (of all, for the empty one) in order. *)
Definition spec_list (ns : string) m : list O :=
  sort_slice (λ a b, nn_less (obj_key a) (obj_key b))
    (filter (λ o, ns = "" ∨ GetNamespace o = ns) (map_to_list m).*2).

Definition AFound (r : found) : answer O := AObject r.1 r.2.

Definition spec_step (op : fake_op O) (st : api) : api * outcome (answer O) :=
  match op with
  | FGet ns name => (st, Ret (AFound (spec_get ns name st)))
  | FList ns opts =>
      (st, label ← ExtractFromListOptions ParseFieldSelector opts;
           Ret (AList (Some (filter (λ o, Matches label (GetLabels o) = true) (spec_list ns (api_objects st)))) None))
  | FCreate ns o => let '(st, r) := spec_write false ns o st in (st, AFound <$> r)
  | FUpdate ns o | FUpdateStatus ns o => let '(st, r) := spec_write true ns o st in (st, AFound <$> r)
  | FDelete ns name => let '(st, r) := spec_delete ns name st in (st, AError <$> r)
  | FDeleteCollection ns opts =>
      (st, label ← ExtractFromListOptions ParseFieldSelector opts; Ret (AError None))
  | FWatch ns opts =>
      match ExtractFromListOptions ParseFieldSelector opts with
      | Ret _ => (set_watches (api_watches st ++ [{| wt_namespace := ns; wt_events := []; wt_stopped := false |}]) st,
                  Ret (AWatch (Some (length (api_watches st))) None))
      | Fail e => (st, Fail e)
      | Panic s => (st, Panic s)
      end
  | FReceive i => let '(st, e) := spec_receive i st in (st, Ret (AEvent e))
  | FStop i => (spec_stop i st, Ret (AError None))
  | FPatch ns name pt data _ => let '(st, r) := spec_patch ns name pt data st in (st, AFound <$> r)
  end.

Fixpoint spec_run (ops : list (fake_op O)) (st : api) : api * list (outcome (answer O)) :=
  match ops with
  | [] => (st, [])
  | op :: ops =>
      let '(st, a) := spec_step op st in let '(st, l) := spec_run ops st in (st, a :: l)
  end.

(** Where there is room, each of them hears of the event once, in its order. *)
Definition hears (ns : string) (w : watch) : bool :=
  negb (wt_stopped w) && (String.eqb (wt_namespace w) ns || String.eqb (wt_namespace w) "").
Definition hearing (ty : EventType) (ns : string) (o : O) (w : watch) : watch :=
  if hears ns w then {| wt_namespace := wt_namespace w; wt_events := wt_events w ++ [(ty, o)]; wt_stopped := false |} else w.

Lemma elem_of_watching ns ws i : i ∈ watching ns ws ↔ ∃ w, ws !! i = Some w ∧ wt_namespace w = ns.
Proof.
  unfold watching. rewrite list_elem_of_fmap. split.
  - intros ([j n] & -> & [Hn Hi]%list_elem_of_filter). simpl in *. subst n.
    apply elem_of_lookup_imap in Hi as (j' & n & [= -> ->] & Hl). rewrite list_lookup_fmap in Hl.
    destruct (ws !! j') as [w|] eqn:E; [|done]. injection Hl as <-. by exists w.
  - intros (w & Hw & <-). exists (i, wt_namespace w). split; [done|]. apply list_elem_of_filter. split; [done|].
    apply elem_of_lookup_imap. exists i, (wt_namespace w). by rewrite list_lookup_fmap, Hw.
Qed.

Lemma NoDup_watching ns ws : NoDup (watching ns ws).
Proof.
  unfold watching. apply (sublist_NoDup _ (imap pair (wt_namespace <$> ws)).*1).
  - rewrite fmap_imap. simpl. generalize (wt_namespace <$> ws). intros l.
    rewrite (imap_ext _ (λ i _, id i) l) by done. rewrite imap_seq_0, list_fmap_id. apply NoDup_seq.
  - apply fmap_sublist, sublist_filter.
Qed.

Lemma audience_spec ns ws : NoDup (audience ns ws) ∧
  ∀ i, i ∈ audience ns ws ↔ ∃ w, ws !! i = Some w ∧ (wt_namespace w = ns ∨ wt_namespace w = "").
Proof.
  unfold audience. destruct (String.eqb_spec ns "") as [->|Hns].
  - rewrite app_nil_r. split; [apply NoDup_watching|]. intros i. rewrite elem_of_watching. naive_solver.
  - split.
    + apply NoDup_app. split_and!; [apply NoDup_watching| |apply NoDup_watching].
      intros i (w & Hw & <-)%elem_of_watching (w' & Hw' & E)%elem_of_watching. congruence.
    + intros i. rewrite elem_of_app, !elem_of_watching. naive_solver.
Qed.

Lemma spec_tell_room ty o l ws : NoDup l →
  (∀ i w, i ∈ l → ws !! i = Some w → wt_stopped w = false → (length (wt_events w) < DefaultChanSize)%nat) →
  let told w := if wt_stopped w then w else
    {| wt_namespace := wt_namespace w; wt_events := wt_events w ++ [(ty, o)]; wt_stopped := false |} in
  ∃ ws', spec_tell ty o l ws = (ws', Ret ()) ∧
    ∀ i, ws' !! i = if decide (i ∈ l) then told <$> ws !! i else ws !! i.
Proof.
  intros Hnd Hroom told. revert ws Hroom. induction Hnd as [|i l Hi Hnd IH]; intros ws Hroom; cbn [spec_tell].
  { exists ws. split; [done|]. intros i. by rewrite decide_False by apply not_elem_of_nil. }
  assert (∀ ws1 w, ws !! i = Some w → ws1 = <[i := told w]> ws →
    ∃ ws', spec_tell ty o l ws1 = (ws', Ret ()) ∧ ∀ j, ws' !! j = if decide (j ∈ i :: l) then told <$> ws !! j else ws !! j) as Hgo.
  { intros ws1 w Hw ->. destruct (IH (<[i := told w]> ws)) as (ws' & E & Hl).
    - intros j w' Hj. rewrite list_lookup_insert_ne by (by intros ->). apply Hroom. by right.
    - exists ws'. split; [done|]. intros j. rewrite Hl. destruct (decide (j = i)) as [->|Hne].
      + rewrite decide_False, decide_True by (by constructor || done).
        rewrite list_lookup_insert_eq by (by eapply lookup_lt_Some). by rewrite Hw.
      + rewrite list_lookup_insert_ne by done. destruct (decide (j ∈ l)).
        * by rewrite decide_True by by right.
        * by rewrite decide_False by (by intros [|]%elem_of_cons). }
  destruct (ws !! i) as [w|] eqn:Hw.
  - specialize (Hroom i w ltac:(left) Hw) as Hlt. destruct (wt_stopped w) eqn:Hs.
    + apply (Hgo ws w); [done|]. unfold told. rewrite Hs. by rewrite list_insert_id.
    + rewrite (proj2 (Nat.ltb_lt _ _)) by auto. apply (Hgo _ w); [done|]. unfold told. by rewrite Hs.
  - destruct (IH ws) as (ws' & E & Hl); [intros; by eapply Hroom; [right|..]|]. exists ws'. split; [done|]. intros j. rewrite Hl.
    destruct (decide (j = i)) as [->|Hne].
    + rewrite decide_False, decide_True by (by constructor || done). by rewrite Hw.
    + destruct (decide (j ∈ l)); [by rewrite decide_True by by right|by rewrite decide_False by (by intros [|]%elem_of_cons)].
Qed.

Lemma spec_tell_no_error ty o l ws e : (spec_tell ty o l ws).2 ≠ Fail e.
Proof.
  revert ws. induction l as [|i l IH]; intros ws; simpl; [done|]. destruct (ws !! i) as [w|]; [|apply IH].
  destruct (wt_stopped w); [apply IH|]. destruct (_ <? _)%nat; [apply IH|done].
Qed.
Lemma tell_no_error ty ns o st e : (tell ty ns o st).2 ≠ Fail e.
Proof.
  unfold tell. pose proof (spec_tell_no_error ty o (audience ns (api_watches st)) (api_watches st) e) as He.
  by destruct (spec_tell _ _ _ _).
Qed.

Lemma tell_room ty ns o st :
  (∀ w, w ∈ api_watches st → hears ns w = true → (length (wt_events w) < DefaultChanSize)%nat) →
  tell ty ns o st = (set_watches (hearing ty ns o <$> api_watches st) st, Ret ()).
Proof.
  intros Hroom. unfold tell. destruct (audience_spec ns (api_watches st)) as [Hnd Hin].
  destruct (spec_tell_room ty o _ (api_watches st) Hnd) as (ws' & -> & Hl).
  { intros i w (w' & Hw' & Hn)%Hin Hw Hs. apply Hroom; [by eapply list_elem_of_lookup_2|]. unfold hears.
    assert (w' = w) as -> by congruence. rewrite Hs. simpl. apply orb_true_iff. rewrite !String.eqb_eq. done. }
  do 2 f_equal. apply list_eq. intros i. rewrite Hl, list_lookup_fmap.
  destruct (api_watches st !! i) as [w|] eqn:Hw; simpl; [|by case_decide].
  unfold hearing, hears. case_decide as Hi.
  - apply Hin in Hi as (w' & Hw' & Hn). assert (w' = w) as -> by congruence.
    rewrite (proj2 (orb_true_iff _ _)) by (rewrite !String.eqb_eq; done). by destruct (wt_stopped w).
  - destruct (orb_true_iff (String.eqb (wt_namespace w) ns) (String.eqb (wt_namespace w) "")) as [Ho _].
    rewrite !String.eqb_eq in Ho. destruct (_ || _); [|by rewrite andb_false_r].
    destruct Hi. apply Hin. exists w. split; [done|]. by apply Ho.
Qed.
End Spec.

(** ** The fakes implement it *)

Section Refines.
Context `{!KeyOrder}.
Context (patched_HTTPProxy : string → string → HTTPProxy → goerr + HTTPProxy).
Context (patched_TLSCertificateDelegation :
  string → string → TLSCertificateDelegation → goerr + TLSCertificateDelegation).
Context (ParseFieldSelector : ListOptions → option goerr).
Abbreviation PATCHED := (patched patched_HTTPProxy patched_TLSCertificateDelegation).
Abbreviation REACTION := (ObjectReaction patched_HTTPProxy patched_TLSCertificateDelegation).

Context {O : Type} `{FakeLaws O}.
Context (patch_object : string → string → O → goerr + O).
Context (patch_object_patched : ∀ pt data o, PATCHED pt data (fo_inject o) =
  match patch_object pt data o with inl e => inl e | inr o' => inr (fo_inject o') end).
Implicit Types (m : gmap NamespacedName O) (f : Fake).

Definition fk_answer {A} (k : A → answer O) (r : fk A) : fk (answer O) := λ f,
  let '(f, r) := r f in (f, k <$> r).

(** A test receives an event and asserts the type of its object. *)
Definition fake_Receive (i : nat) : fk (reception O) := λ f,
  match run_tracker (watcher_receive i) f with
  | (f, Ret (Received ty obj)) =>
      (f, match fo_as obj with Some o => Ret (Received ty o) | None => Panic "interface conversion" end)
  | (f, Ret NothingYet) => (f, Ret NothingYet)
  | (f, Ret Closed) => (f, Ret Closed)
  | (f, Fail e) => (f, Fail e)
  | (f, Panic s) => (f, Panic s)
  end.

Definition fake_step (op : fake_op O) : fk (answer O) :=
  match op with
  | FGet ns name => fk_answer (λ r, AObject r.1 r.2) (fake_Get ns name)
  | FList ns opts => fk_answer (λ r, AList r.1 r.2) (fake_List ParseFieldSelector ns opts)
  | FCreate ns o => fk_answer (λ r, AObject r.1 r.2) (fake_Create ns o)
  | FUpdate ns o => fk_answer (λ r, AObject r.1 r.2) (fake_Update ns o)
  | FUpdateStatus ns o => fk_answer (λ r, AObject r.1 r.2) (fake_UpdateStatus ns o)
  | FDelete ns name => fk_answer AError (fake_Delete (O := O) ns name)
  | FDeleteCollection ns opts => fk_answer AError (fake_DeleteCollection ParseFieldSelector (O := O) ns opts)
  | FWatch ns opts => fk_answer (λ r, AWatch r.1 r.2) (fake_Watch ParseFieldSelector (O := O) ns opts)
  | FReceive i => fk_answer AEvent (fake_Receive i)
  | FStop i => fk_answer (λ _, AError None) (run_tracker (watcher_Stop i))
  | FPatch ns name pt data subs => fk_answer (λ r, AObject r.1 r.2) (fake_Patch ns name pt data subs)
  end.

Fixpoint fake_run (ops : list (fake_op O)) f : Fake * list (outcome (answer O)) :=
  match ops with
  | [] => (f, [])
  | op :: ops =>
      let '(f, a) := fake_step op f in let '(f, l) := fake_run ops f in (f, a :: l)
  end.

(** The action an operation records: none when its selector does not parse. *)
Definition recorded (op : fake_op O) : list Action :=
  let restricted (opts : ListOptions) (k : list Requirement → Action) :=
    match ExtractFromListOptions ParseFieldSelector opts with Ret label => [k label] | _ => [] end in
  let act := action (O := O) in
  match op with
  | FGet ns name => [act ns "get" "" (GetActionImpl name)]
  | FList ns opts => restricted opts (λ label, act ns "list" "" (ListActionImpl fo_kind label))
  | FCreate ns o => [act ns "create" "" (CreateActionImpl (fo_inject o))]
  | FUpdate ns o => [act ns "update" "" (UpdateActionImpl (fo_inject o))]
  | FUpdateStatus ns o => [act ns "update" "status" (UpdateActionImpl (fo_inject o))]
  | FDelete ns name => [act ns "delete" "" (DeleteActionImpl name)]
  | FDeleteCollection ns opts =>
      restricted opts (λ label, act ns "delete-collection" "" (DeleteCollectionActionImpl label))
  | FWatch ns opts => restricted opts (λ label, act ns "watch" "" (WatchActionImpl label))
  | FReceive _ | FStop _ => []
  | FPatch ns name pt data subs => [act ns "patch" (path_Join subs) (PatchActionImpl name pt data)]
  end.

(** ** The tracker, on objects of one type *)

Definition to_watcher (w : watch (O := O)) : watcher :=
  {| w_result := prod_map id fo_inject <$> wt_events w; w_Stopped := wt_stopped w |}.

(** [st] is what the tracker holds for the type: its objects, and its watches, which are the
    only ones. *)
Record holds (t : object_tracker) (st : api (O := O)) : Prop := {
  ho_objects : objs_of fo_resource t = fo_inject <$> api_objects st;
  ho_keys k o : api_objects st !! k = Some o → obj_key o = k;
  ho_channels : channels t = to_watcher <$> api_watches st;
  ho_watchers ns : default [] (watchers t !! (fo_resource, ns)) = watching ns (api_watches st)
}.

(** A step on the tracker that leaves the other resources alone. *)
Definition becomes (t t' : object_tracker) st' : Prop :=
  holds t' st' ∧ ∀ gvr, gvr ≠ fo_resource → objs_of gvr t' = objs_of gvr t.

Lemma holds_becomes t st : holds t st → becomes t t st.
Proof. by split. Qed.

Lemma becomes_trans t1 t2 t3 st2 st3 : becomes t1 t2 st2 → becomes t2 t3 st3 → becomes t1 t3 st3.
Proof. intros [_ E1] [Hb E2]. split; [done|]. intros gvr Hne. by rewrite E2, E1. Qed.

Lemma put_becomes t st m' : holds t st → (∀ k o, m' !! k = Some o → obj_key o = k) →
  becomes t (put_objs fo_resource (fo_inject <$> m') t) (set_objects m' st).
Proof.
  intros [Ho Hk Hc Hw] Hk'. split; [split|]; try done.
  - by rewrite objs_of_put, decide_True.
  - intros gvr Hne. by rewrite objs_of_put, decide_False.
Qed.

Lemma insert_keys (m : gmap NamespacedName O) o : (∀ k o, m !! k = Some o → obj_key o = k) →
  ∀ k o', <[obj_key o := o]> m !! k = Some o' → obj_key o' = k.
Proof. intros Hk k o' [[<- <-]|[_ ?]]%lookup_insert_Some; [done|by apply Hk]. Qed.

(** *** Watches *)

Lemma watching_namespaces ns (ws ws' : list (watch (O := O))) :
  wt_namespace <$> ws' = wt_namespace <$> ws → watching ns ws' = watching ns ws.
Proof. intros E. unfold watching. by rewrite E. Qed.

(** A watch changes, but not its namespace. *)
Lemma channel_becomes t st i w w' : holds t st → api_watches st !! i = Some w → wt_namespace w' = wt_namespace w →
  becomes t (with_channels (<[i := to_watcher w']> (channels t)) t) (set_watches (<[i := w']> (api_watches st)) st).
Proof.
  intros [Ho Hk Hc Hw] Hi Hn. split; [|done]. split; try done.
  - simpl. by rewrite Hc, list_fmap_insert.
  - intros ns. simpl. rewrite Hw. symmetry. apply watching_namespaces.
    rewrite list_fmap_insert, Hn. apply list_insert_id. by rewrite list_lookup_fmap, Hi.
Qed.

Lemma channel_lookup t st i : holds t st → channels t !! i = to_watcher <$> api_watches st !! i.
Proof. intros Ht. by rewrite (ho_channels _ _ Ht), list_lookup_fmap. Qed.

Lemma send_spec ty o l t st : holds t st →
  let '(ws, r) := spec_tell ty o l (api_watches st) in
  ∃ t', tr_each (send_event ty (fo_inject o)) l t = (t', r) ∧ becomes t t' (set_watches ws st).
Proof.
  revert t st. induction l as [|i l IH]; intros t st Ht; simpl.
  { exists t. split; [done|]. destruct st. by apply holds_becomes. }
  unfold mbind, tr_bind, send_event at 1. rewrite (channel_lookup t st) by done.
  destruct (api_watches st !! i) as [w|] eqn:Hi; simpl; [|by apply IH].
  destruct (wt_stopped w) eqn:Es; [by apply IH|]. rewrite length_fmap. destruct (_ <? _)%nat.
  - set (w' := {| wt_namespace := wt_namespace w; wt_events := wt_events w ++ [(ty, o)]; wt_stopped := false |}).
    pose proof (channel_becomes t st i w w' Ht Hi eq_refl) as Hb.
    specialize (IH _ _ (proj1 Hb)). simpl in IH. destruct (spec_tell ty o l _) as [ws r].
    destruct IH as (t' & E & Hb'). exists t'. split; [|by eapply becomes_trans].
    rewrite <-E. unfold to_watcher, w'. simpl. by rewrite fmap_app.
  - exists t. split; [done|]. destruct st. by apply holds_becomes.
Qed.

Lemma notify_spec ty ns o t st : holds t st →
  let '(st', r) := tell ty ns o st in
  ∃ t', notify ty fo_resource ns (fo_inject o) t = (t', r) ∧ becomes t t' st'.
Proof.
  intros Ht. unfold tell, notify, mbind, tr_bind, tr_get.
  replace (getWatches fo_resource ns t) with (audience ns (api_watches st)).
  2: { unfold getWatches, audience. by rewrite !(ho_watchers _ _ Ht). }
  pose proof (send_spec ty o (audience ns (api_watches st)) t st Ht) as Hs.
  by destruct (spec_tell _ _ _ _) as [ws r].
Qed.

Lemma tracker_Watch_spec ns t st : holds t st →
  ∃ t', tracker_Watch fo_resource ns t = (t', Ret (length (api_watches st))) ∧
    becomes t t' (set_watches (api_watches st ++ [{| wt_namespace := ns; wt_events := []; wt_stopped := false |}]) st).
Proof.
  intros [Ho Hk Hc Hw]. unfold tracker_Watch. rewrite Hc, length_fmap. eexists. split; [done|].
  split; [|done]. split; try done.
  - simpl. by rewrite fmap_app.
  - intros ns'. simpl. unfold watching at 1. rewrite fmap_app, imap_app. simpl. rewrite filter_app, fmap_app, length_fmap.
    rewrite Nat.add_0_r, filter_cons, filter_nil. simpl. fold (watching ns' (api_watches st)). rewrite <-(Hw ns').
    destruct (decide (ns = ns')) as [->|Hne].
    + by rewrite lookup_insert_eq, Hw.
    + rewrite lookup_insert_ne by congruence. by rewrite app_nil_r.
Qed.

(** *** Objects *)

Lemma tracker_add_spec t st replace ns o : holds t st →
  let '(st', r) := spec_put replace ns o st in
  ∃ t', tracker_add fo_resource (fo_inject o) ns replace t = (t', r) ∧ becomes t t' st'.
Proof.
  intros Ht. pose proof Ht as [Ho Hk _ _]. unfold tracker_add, spec_put. rewrite meta_inject.
  change (om_namespace (obj_meta o)) with (GetNamespace o).
  set (o1 := if String.eqb (GetNamespace o) "" then fo_SetNamespace ns o else o).
  replace (if String.eqb (GetNamespace o) "" then SetNamespace ns (fo_inject o) else fo_inject o)
    with (fo_inject o1) by (subst o1; rewrite SetNamespace_inject; by destruct (String.eqb _ _)).
  rewrite meta_inject. change (om_namespace (obj_meta o1)) with (GetNamespace o1).
  destruct (negb _); [exists t; split; [done|by apply holds_becomes]|].
  unfold mbind, tr_bind, tr_get, tr_put, tr_of. rewrite Ho, lookup_fmap.
  change (key_of (obj_meta o1)) with (obj_key o1). rewrite <-fmap_insert.
  assert (∀ k o', <[obj_key o1 := o1]> (api_objects st) !! k = Some o' → obj_key o' = k) as Hk' by by apply insert_keys.
  pose proof (put_becomes t st _ Ht Hk') as Hb.
  destruct (api_objects st !! obj_key o1), replace; simpl; [|by exists t..|].
  - pose proof (notify_spec Modified ns o1 t st Ht) as Hn. destruct (tell Modified ns o1 st) as [st1 r].
    destruct Hn as (t1 & -> & Hb1). destruct r as [[]|e|m]; [|by exists t1..].
    eexists. split; [done|]. eapply becomes_trans; [exact Hb1|]. by apply put_becomes; [apply Hb1|].
  - destruct Hb as [Hh Hoth]. pose proof (notify_spec Added ns o1 _ _ Hh) as Hn.
    destruct (tell Added ns o1 _) as [st1 r]. destruct Hn as (t1 & -> & Hb1). exists t1. split; [done|].
    by eapply becomes_trans; [split|].
Qed.

Lemma tracker_Get_spec t st ns name : holds t st →
  tracker_Get fo_resource ns name t =
  (t, match api_objects st !! {| nn_namespace := ns; nn_name := name |} with
      | Some o => Ret (fo_inject o)
      | None => Fail (NewNotFound fo_resource name)
      end).
Proof.
  intros [Ho _ _ _]. unfold tracker_Get, mbind, tr_bind, tr_get. rewrite Ho, lookup_fmap.
  by destruct (api_objects st !! _).
Qed.

(** ** Lists *)

Lemma nn_less_asym a b : nn_less a b = true → nn_less b a = false.
Proof.
  unfold nn_less. rewrite (String.eqb_sym (nn_namespace b)).
  destruct (String.eqb _ _); eauto using string_lt_asym.
Qed.

Lemma nn_less_separates a b : nn_less a b = false → nn_less b a = false → a = b.
Proof.
  unfold nn_less. rewrite (String.eqb_sym (nn_namespace b)).
  destruct a as [n1 x1], b as [n2 x2]; simpl.
  destruct (String.eqb_spec n1 n2) as [->|Hne]; intros L1 L2.
  - f_equal. by apply string_lt_antisym.
  - destruct Hne. by apply string_lt_antisym.
Qed.

Lemma nn_less_negtrans a b c : nn_less b a = false → nn_less c b = false → nn_less c a = false.
Proof.
  unfold nn_less. destruct a as [n1 x1], b as [n2 x2], c as [n3 x3]; simpl.
  destruct (String.eqb_spec n2 n1) as [->|H21], (String.eqb_spec n3 n1) as [->|H31];
    rewrite ?String.eqb_refl; eauto using string_lt_negtrans.
  - destruct (String.eqb_spec n1 n2) as [->|_]; [done|]. intros L1 L2.
    destruct H21. by apply string_lt_antisym.
  - destruct (String.eqb_spec n3 n2) as [->|_]; [done|]. eauto using string_lt_negtrans.
Qed.

Lemma sort_slice_fmap {A B} (f : A → B) (less : B → B → bool) (less' : A → A → bool) l :
  (∀ a b, less (f a) (f b) = less' a b) → sort_slice less (f <$> l) = f <$> sort_slice less' l.
Proof.
  intros Hl.
  assert (∀ a p, insert_left less (f a) (f <$> p) = f <$> insert_left less' a p) as Hi.
  { intros a p. induction p as [|b p IH]; simpl; [done|]. rewrite Hl. destruct (less' a b); [|done].
    csimpl. by f_equal. }
  unfold sort_slice. rewrite fmap_reverse. f_equal.
  assert (∀ p, foldl (λ prefix x, insert_left less x prefix) (f <$> p) (f <$> l) =
    f <$> foldl (λ prefix x, insert_left less' x prefix) p l) as Hg; [|exact (Hg [])].
  induction l as [|a l IH]; intros p; csimpl; [done|]. by rewrite Hi.
Qed.

Lemma robj_key_inject (o : O) : robj_key (fo_inject o) = obj_key o.
Proof. unfold robj_key. by rewrite meta_inject. Qed.

Lemma filter_fmap {A B} (f : A → B) (P : B → Prop) (Q : A → Prop)
    `{!∀ b, Decision (P b), !∀ a, Decision (Q a)} (l : list A) :
  (∀ a, P (f a) ↔ Q a) → filter P (f <$> l) = f <$> filter Q l.
Proof.
  intros HPQ. induction l as [|a l IH]; [done|]. csimpl. rewrite !filter_cons, IH.
  destruct (decide (P (f a))), (decide (Q a)); naive_solver.
Qed.

Lemma filterByNamespace_spec m ns : (∀ k o, m !! k = Some o → obj_key o = k) →
  filterByNamespace (fo_inject <$> m) ns = fo_inject <$> spec_list ns m.
Proof.
  intros Hk. unfold filterByNamespace, spec_list.
  assert ((range_keys (fo_inject <$> m)).*2 ≡ₚ fo_inject <$> (map_to_list m).*2) as Hp.
  { rewrite range_keys_perm, map_to_list_fmap, <-!list_fmap_compose. done. }
  rewrite <-(sort_slice_fmap fo_inject (λ a b, nn_less (robj_key a) (robj_key b)))
    by (intros; by rewrite !robj_key_inject).
  rewrite <-(filter_fmap fo_inject (λ o, ns = "" ∨ nn_namespace (robj_key o) = ns)
    (λ o, ns = "" ∨ GetNamespace o = ns)).
  2: { intros a. by rewrite robj_key_inject. }
  apply (sort_slice_perm_eq _ (λ r, ∃ o, r = fo_inject o ∧ m !! obj_key o = Some o)).
  - split; intros; eauto using nn_less_asym, nn_less_negtrans.
  - intros a b (oa & -> & Ha) (ob & -> & Hb) L1 L2. f_equal.
    rewrite !robj_key_inject in L1, L2. pose proof (nn_less_separates _ _ L1 L2) as E.
    rewrite E in Ha. congruence.
  - apply Forall_forall. intros r [_ Hr]%list_elem_of_filter. rewrite Hp in Hr.
    apply list_elem_of_fmap in Hr as (o & -> & Ho). exists o. split; [done|].
    apply list_elem_of_fmap in Ho as ([k o'] & -> & Ho). apply elem_of_map_to_list in Ho. simpl.
    by rewrite (Hk _ _ Ho).
  - by rewrite Hp.
Qed.

(** ** Reactions *)

(** What the reactor answers to an action, and what becomes of the tracker. *)
Definition reaction_of (r : found (O := O)) : bool * option runtime_object * option goerr := (true, fo_inject <$> r.1, r.2).
Definition reacts (t : object_tracker) (a : Action) (p : api (O := O) * outcome (found (O := O))) : Prop :=
  ∃ t', REACTION a t = (t', reaction_of <$> p.2) ∧ becomes t t' p.1.

Lemma react_write t st replace ns o : holds t st →
  ∃ t', reaction (_ ← tracker_add fo_resource (fo_inject o) ns replace;
                  obj ← tracker_Get fo_resource ns (GetName o); mret (Some obj)) t =
      (t', reaction_of <$> (spec_write replace ns o st).2) ∧ becomes t t' (spec_write replace ns o st).1.
Proof.
  intros Ht. unfold spec_write. pose proof (tracker_add_spec t st replace ns o Ht) as Ha.
  unfold reaction, mbind, tr_bind. destruct (spec_put replace ns o st) as [st' r].
  destruct Ha as (t' & -> & Hb). destruct r as [[]|e|m]; [|by exists t'..].
  rewrite (tracker_Get_spec t' st') by apply Hb. unfold spec_get. destruct (api_objects st' !! _); by exists t'.
Qed.

Lemma name_in_inject (o : O) t : name_in (fo_inject o) t = (t, Ret (GetName o)).
Proof. unfold name_in. by rewrite meta_inject. Qed.

Lemma react_Create_spec t st ns o : holds t st →
  reacts t (action (O := O) ns "create" "" (CreateActionImpl (fo_inject o))) (spec_write false ns o st).
Proof.
  intros Ht. destruct (react_write t st false ns o Ht) as (t' & Hr & Hb). exists t'. split; [|done].
  rewrite <-Hr. unfold ObjectReaction, reaction, react_Create. simpl. unfold mbind at 1, tr_bind at 1.
  by rewrite name_in_inject.
Qed.

Lemma react_Update_spec t st ns sub o : holds t st →
  reacts t (action (O := O) ns "update" sub (UpdateActionImpl (fo_inject o))) (spec_write true ns o st).
Proof.
  intros Ht. destruct (react_write t st true ns o Ht) as (t' & Hr & Hb). exists t'. split; [|done].
  rewrite <-Hr. unfold ObjectReaction, reaction, react_Update. simpl. unfold mbind at 1, tr_bind at 1.
  by rewrite name_in_inject.
Qed.

Lemma react_Get_spec t st ns name : holds t st →
  reacts t (action (O := O) ns "get" "" (GetActionImpl name)) (st, Ret (spec_get ns name st)).
Proof.
  intros Ht. unfold reacts, ObjectReaction, reaction, spec_get. simpl. unfold mbind, tr_bind.
  rewrite (tracker_Get_spec t st) by done. exists t. split; [|by apply holds_becomes]. by destruct (api_objects st !! _).
Qed.

Lemma react_List_spec t st ns label : holds t st →
  REACTION (action (O := O) ns "list" "" (ListActionImpl fo_kind label)) t =
  (t, Ret (true, Some (fo_inject_list (spec_list ns (api_objects st))), None)).
Proof.
  intros Ht. unfold ObjectReaction, reaction, tracker_List, mbind, tr_bind, tr_get, tr_of. simpl.
  rewrite (ho_objects _ _ Ht), filterByNamespace_spec by apply Ht. by rewrite list_of_inject.
Qed.

Lemma react_Delete_spec t st ns name : holds t st →
  reacts t (action (O := O) ns "delete" "" (DeleteActionImpl name))
    (let '(st', r) := spec_delete ns name st in (st', (λ e, (None, e)) <$> r)).
Proof.
  intros Ht. pose proof Ht as [Ho Hk _ _]. unfold reacts, ObjectReaction, reaction, tracker_Delete, spec_delete. simpl.
  unfold mbind, tr_bind, tr_get, tr_put. rewrite Ho, lookup_fmap.
  set (key := {| nn_namespace := ns; nn_name := name |}). destruct (api_objects st !! key) as [o|]; simpl.
  2: { exists t. split; [done|by apply holds_becomes]. }
  rewrite <-fmap_delete. assert (∀ k o', delete key (api_objects st) !! k = Some o' → obj_key o' = k) as Hk'
    by (intros k o' [_ ?]%lookup_delete_Some; by apply Hk).
  destruct (put_becomes t st _ Ht Hk') as [Hh Hoth]. pose proof (notify_spec Deleted ns o _ _ Hh) as Hn.
  pose proof (tell_no_error Deleted ns o (set_objects (delete key (api_objects st)) st)) as Hne.
  destruct (tell Deleted ns o _) as [st1 r]. destruct Hn as (t1 & -> & Hb1). exists t1.
  split; [destruct r as [[]|e|m]; [done|by destruct (Hne e)|done]|]. by eapply becomes_trans; [split|].
Qed.

Lemma react_Patch_spec t st ns name pt data sub : holds t st →
  reacts t (action (O := O) ns "patch" sub (PatchActionImpl name pt data)) (spec_patch patch_object ns name pt data st).
Proof.
  intros Ht. unfold reacts, ObjectReaction, reaction, react_Patch, spec_patch. simpl. unfold mbind, tr_bind.
  rewrite (tracker_Get_spec t st) by done. destruct (api_objects st !! _) as [o|] eqn:Eo.
  2: { exists t. split; [done|by apply holds_becomes]. }
  rewrite patch_object_patched. destruct (patch_object pt data o) as [e|o'].
  { exists t. split; [done|by apply holds_becomes]. }
  pose proof (tracker_add_spec t st true ns o' Ht) as Ha. destruct (spec_put true ns o' st) as [st' r].
  destruct Ha as (t' & -> & Hb). exists t'. destruct r as [[]|e|m]; [|by split..]. split; [|done].
  destruct (String.eqb pt ApplyPatchType); [|done]. rewrite (tracker_Get_spec t' st') by apply Hb. unfold spec_get.
  by destruct (api_objects st' !! _).
Qed.

(** ** Operations *)

(** A clientset with nothing but its own reactors, whose tracker holds [st]. *)
Record fake_holds f st : Prop := {
  fh_tracker : holds (fk_tracker f) st;
  fh_chain : ReactionChain f = [{| rx_Verb := "*"; rx_Resource := "*"; rx_Reaction := REACTION |}];
  fh_watch_chain : WatchReactionChain f = [{| wx_Resource := "*"; wx_Reaction := watch_reaction |}]
}.

(** After an operation that recorded [l]. *)
Record after f (l : list Action) f' st' : Prop := {
  af_holds : fake_holds f' st';
  af_actions : fk_actions f' = fk_actions f ++ l;
  af_others gvr : gvr ≠ fo_resource → objs_of gvr (fk_tracker f') = objs_of gvr (fk_tracker f)
}.

Lemma after_none f st : fake_holds f st → after f [] f st.
Proof. intros Hf. split; [done|by rewrite app_nil_r|done]. Qed.

(** An operation that only works on the tracker, and one that records an action first. *)
Lemma after_tracker f t' st st' : fake_holds f st → becomes (fk_tracker f) t' st' → after f [] (with_tracker t' f) st'.
Proof. intros [_ Hc Hw] [Hb Ho]. split; [by split|simpl; by rewrite app_nil_r|done]. Qed.
Lemma after_action f a t' st st' : fake_holds f st → becomes (fk_tracker f) t' st' →
  after f [a] (with_tracker t' (record_action a f)) st'.
Proof. intros [_ Hc Hw] [Hb Ho]. split; [by split|done|done]. Qed.

Lemma Invokes_handled f st a d p : fake_holds f st → reacts (fk_tracker f) a p →
  ∃ f', Invokes a d f = (f', (λ r : found (O := O), (fo_inject <$> r.1, r.2)) <$> p.2) ∧ after f [a] f' p.1.
Proof.
  intros Hf (t' & Hr & Hb). unfold Invokes, run_tracker. simpl. rewrite (fh_chain _ _ Hf). simpl.
  unfold mbind, tr_bind. rewrite Hr. eexists. split; [|by eapply after_action].
  destruct p as [st' [[o e]|e|m]]; done.
Qed.

Lemma typed_handled f st a p : fake_holds f st → reacts (fk_tracker f) a p →
  ∃ f', fk_answer AFound (typed_result fo_as (Invokes a (fo_inject fo_zero))) f = (f', AFound <$> p.2) ∧ after f [a] f' p.1.
Proof.
  intros Hf Hr. destruct (Invokes_handled f st a (fo_inject fo_zero) p Hf Hr) as (f' & E & Ha).
  exists f'. split; [|done]. unfold fk_answer, typed_result. rewrite E.
  destruct p as [st' [[[o|] e]|e|m]]; simpl; [|done..]. by rewrite as_inject.
Qed.

(** An operation with selectors does nothing if they do not parse. *)
Lemma restricted_spec {A} (g : A → answer O) (r : list Requirement → A) (l : list Requirement → Action)
    opts (k : list Requirement → fk A) f st : fake_holds f st →
  (∀ label, k label f = (with_tracker (fk_tracker f) (record_action (l label) f), Ret (r label))) →
  ∃ f', fk_answer g (with_restrictions ParseFieldSelector opts k) f =
      (f', label ← ExtractFromListOptions ParseFieldSelector opts; Ret (g (r label))) ∧
    after f (match ExtractFromListOptions ParseFieldSelector opts with Ret label => [l label] | _ => [] end) f' st.
Proof.
  intros Hf Hk. unfold fk_answer, with_restrictions. destruct (ExtractFromListOptions _ opts) as [label|e|m];
    [|by exists f; split; [|apply after_none]..].
  rewrite Hk. eexists. split; [done|]. eapply after_action; [done|apply holds_becomes, Hf].
Qed.

Lemma fake_List_spec f st ns opts : fake_holds f st →
  ∃ f', fake_step (FList ns opts) f = (f', (spec_step patch_object ParseFieldSelector (FList ns opts) st).2) ∧
    after f (recorded (FList ns opts)) f' st.
Proof.
  intros Hf. apply (restricted_spec (λ r, AList r.1 r.2)
    (λ label, (Some (filter (λ o, Matches label (GetLabels o) = true) (spec_list ns (api_objects st))), None))
    (λ label, action (O := O) ns "list" "" (ListActionImpl fo_kind label))); [done|]. intros label.
  unfold typed_result, Invokes, run_tracker. simpl. rewrite (fh_chain _ _ Hf). simpl. unfold mbind, tr_bind.
  rewrite (react_List_spec _ st) by apply Hf. simpl. by rewrite as_list_inject.
Qed.

Lemma fake_DeleteCollection_spec f st ns opts : fake_holds f st →
  ∃ f', fake_step (FDeleteCollection ns opts) f =
      (f', (spec_step patch_object ParseFieldSelector (FDeleteCollection ns opts) st).2) ∧
    after f (recorded (FDeleteCollection ns opts)) f' st.
Proof.
  intros Hf. apply (restricted_spec AError (λ label, None)
    (λ label, action (O := O) ns "delete-collection" "" (DeleteCollectionActionImpl label))); [done|]. intros label.
  unfold error_result, Invokes, run_tracker. simpl. by rewrite (fh_chain _ _ Hf).
Qed.

Lemma fake_Watch_spec f st ns opts : fake_holds f st →
  let '(st', a) := spec_step patch_object ParseFieldSelector (FWatch ns opts) st in
  ∃ f', fake_step (FWatch ns opts) f = (f', a) ∧ after f (recorded (FWatch ns opts)) f' st'.
Proof.
  intros Hf. unfold fake_step, fk_answer, fake_Watch, with_restrictions, recorded, spec_step.
  destruct (ExtractFromListOptions _ opts) as [label|e|m]; [|by exists f; split; [|apply after_none]..].
  destruct (tracker_Watch_spec ns _ st (fh_tracker _ _ Hf)) as (t' & Ew & Hb).
  unfold InvokesWatch, run_tracker. simpl. rewrite (fh_watch_chain _ _ Hf). simpl. unfold watch_reaction, mbind, tr_bind. simpl.
  unfold tracker_Watch in Ew. injection Ew as <- El. rewrite El in Hb |- *. eexists.
  split; [done|by eapply after_action].
Qed.

Lemma fake_Receive_spec f st i : fake_holds f st →
  let '(st', e) := spec_receive i st in
  ∃ f', fake_Receive i f = (f', Ret e) ∧ after f [] f' st'.
Proof.
  intros Hf. pose proof (fh_tracker _ _ Hf) as Ht. unfold fake_Receive, run_tracker, watcher_receive, spec_receive.
  rewrite (channel_lookup _ st) by done. destruct (api_watches st !! i) as [w|] eqn:Hi; simpl.
  2: { eexists. split; [done|]. by eapply after_tracker; [done|apply holds_becomes]. }
  destruct (wt_events w) as [|[ty o] l] eqn:Ee; simpl.
  - exists (with_tracker (fk_tracker f) f). split; [by destruct (wt_stopped w)|].
    by eapply after_tracker; [done|apply holds_becomes].
  - rewrite as_inject. eexists. split; [done|]. eapply after_tracker; [done|].
    by apply (channel_becomes _ st i w {| wt_namespace := wt_namespace w; wt_events := l; wt_stopped := wt_stopped w |}).
Qed.

Lemma fake_Stop_spec f st i : fake_holds f st →
  ∃ f', run_tracker (watcher_Stop i) f = (f', Ret ()) ∧ after f [] f' (spec_stop i st).
Proof.
  intros Hf. pose proof (fh_tracker _ _ Hf) as Ht. unfold run_tracker, watcher_Stop, spec_stop.
  rewrite (channel_lookup _ st) by done. destruct (api_watches st !! i) as [w|] eqn:Hi; simpl.
  - eexists. split; [done|]. eapply after_tracker; [done|].
    by apply (channel_becomes _ st i w {| wt_namespace := wt_namespace w; wt_events := wt_events w; wt_stopped := true |}).
  - eexists. split; [done|]. by eapply after_tracker; [done|apply holds_becomes].
Qed.

Lemma fake_step_spec op f st : fake_holds f st →
  let '(st', a) := spec_step patch_object ParseFieldSelector op st in
  ∃ f', fake_step op f = (f', a) ∧ after f (recorded op) f' st'.
Proof.
  intros Hf. pose proof Hf as [Ht _ _].
  destruct op as [ns name|ns opts|ns o|ns o|ns o|ns name|ns opts|ns opts|i|i|ns name pt data subs].
  - exact (typed_handled f st _ _ Hf (react_Get_spec _ st ns name Ht)).
  - exact (fake_List_spec f st ns opts Hf).
  - pose proof (typed_handled f st _ _ Hf (react_Create_spec _ st ns o Ht)) as Hh. simpl.
    by destruct (spec_write false ns o st).
  - pose proof (typed_handled f st _ _ Hf (react_Update_spec _ st ns "" o Ht)) as Hh. simpl.
    by destruct (spec_write true ns o st).
  - pose proof (typed_handled f st _ _ Hf (react_Update_spec _ st ns "status" o Ht)) as Hh. simpl.
    by destruct (spec_write true ns o st).
  - pose proof (Invokes_handled f st _ (fo_inject fo_zero) _ Hf (react_Delete_spec _ st ns name Ht)) as (f' & E & Ha).
    simpl. destruct (spec_delete ns name st) as [st' r]. exists f'. split; [|exact Ha].
    unfold fk_answer, fake_Delete, error_result. rewrite E. by destruct r.
  - exact (fake_DeleteCollection_spec f st ns opts Hf).
  - exact (fake_Watch_spec f st ns opts Hf).
  - pose proof (fake_Receive_spec f st i Hf) as Hr. simpl. destruct (spec_receive i st) as [st' e].
    destruct Hr as (f' & E & Ha). exists f'. unfold fk_answer. by rewrite E.
  - destruct (fake_Stop_spec f st i Hf) as (f' & E & Ha). exists f'. simpl. unfold fk_answer. by rewrite E.
  - pose proof (typed_handled f st _ _ Hf (react_Patch_spec _ st ns name pt data (path_Join subs) Ht)) as Hh. simpl.
    by destruct (spec_patch patch_object ns name pt data st).
Qed.

Lemma fake_run_spec ops f st : fake_holds f st →
  let '(st', l) := spec_run patch_object ParseFieldSelector ops st in
  ∃ f', fake_run ops f = (f', l) ∧ after f (ops ≫= recorded) f' st'.
Proof.
  revert f st. induction ops as [|op ops IH]; intros f st Hf; simpl.
  - exists f. split; [done|by apply after_none].
  - pose proof (fake_step_spec op f st Hf) as Hs. destruct (spec_step _ _ op st) as [st1 a].
    destruct Hs as (f1 & -> & [Hf1 Ha1 Ho1]). specialize (IH f1 st1 Hf1).
    destruct (spec_run _ _ ops st1) as [st' l]. destruct IH as (f' & -> & [Hf2 Ha2 Ho2]).
    exists f'. split; [done|]. split; [done|by rewrite Ha2, Ha1, app_assoc|].
    intros gvr Hne. by rewrite Ho2, Ho1.
Qed.

(** ** The objects it starts with *)

(** Nobody watches yet, and objects are where they belong. *)
Record quiet (t : object_tracker) : Prop := {
  qt_stored : stored_ok t;
  qt_watchers : watchers t = ∅;
  qt_channels : channels t = []
}.

Lemma tracker_add_stored gvr o ns t : quiet t → resource_of o = Some gvr → quiet (tracker_add gvr o ns false t).1.
Proof.
  intros [Hs Hw Hc] Hg. unfold tracker_add.
  set (o1 := match robj_meta o with Some _ => _ | None => _ end).
  assert (resource_of o1 = Some gvr) as Hg1.
  { subst o1. destruct (robj_meta o); [|done]. destruct (String.eqb _ _); [by rewrite SetNamespace_resource|done]. }
  clearbody o1. destruct (robj_meta o1) as [m1|] eqn:Em; [|done]. destruct (negb _); [done|].
  unfold mbind, tr_bind, tr_get, tr_put, tr_of. destruct (objs_of gvr t !! key_of m1); [done|].
  rewrite notify_unwatched by done. simpl. split; [|done|done].
  intros gvr' k r. rewrite objs_of_put. case_decide as E; [subst gvr'|apply Hs].
  intros [[<- <-]|[_ ?]]%lookup_insert_Some; [|by apply Hs]. split; [|done].
  unfold robj_key. by rewrite Em.
Qed.

Lemma tracker_Add_stored o t : quiet t → quiet (tracker_Add o t).1.
Proof.
  intros Hq. assert (∀ o t, quiet t → quiet (tracker_Add_one o t).1) as Hone.
  { intros r u Hu. unfold tracker_Add_one. destruct (robj_meta r) eqn:E; [|done].
    apply tracker_add_stored; [done|]. by apply guess_resource; rewrite E. }
  destruct o; [by apply Hone|by apply Hone| |]; (apply (tr_each_keeps quiet); [apply Hone|done]).
Qed.

(** The objects of the type in a tracker. *)
Definition content (t : object_tracker) : gmap NamespacedName O := omap fo_as (objs_of fo_resource t).

(** What the clientset starts with, as the specification sees it. *)
Definition initial (t : object_tracker) : api := {| api_objects := content t; api_watches := [] |}.

Lemma content_holds t : quiet t → holds t (initial t).
Proof.
  intros [Hs Hw Hc].
  assert (∀ k r, objs_of fo_resource t !! k = Some r → ∃ o, r = fo_inject o ∧ obj_key o = k) as Ho.
  { intros k r [Hk Hr]%Hs. destruct (resource_inject _ Hr) as [o ->]. exists o. by rewrite <-robj_key_inject. }
  split; simpl; [|intros k o Hk|done|intros ns; by rewrite Hw, lookup_empty].
  - apply map_eq. intros k. unfold content. rewrite lookup_fmap, lookup_omap.
    destruct (objs_of fo_resource t !! k) as [r|] eqn:Er; [|done].
    destruct (Ho k r Er) as (o & -> & _). simpl. by rewrite as_inject.
  - unfold content in Hk. rewrite lookup_omap in Hk.
    destruct (objs_of fo_resource t !! k) as [r|] eqn:Er; [|done].
    destruct (Ho k r Er) as (o' & -> & ?). simpl in Hk. rewrite as_inject in Hk. by injection Hk as <-.
Qed.

Lemma NewSimpleClientset_holds objs f :
  NewSimpleClientset patched_HTTPProxy patched_TLSCertificateDelegation objs = Ret f →
  fake_holds f (initial (fk_tracker f)) ∧ fk_actions f = [].
Proof.
  unfold NewSimpleClientset.
  assert (quiet NewObjectTracker) as Hq.
  { split; [|done|done]. intros gvr k r. unfold objs_of. simpl. by rewrite lookup_empty. }
  pose proof (tr_each_keeps quiet tracker_Add objs NewObjectTracker) as Hk.
  destruct (tr_each tracker_Add objs NewObjectTracker) as [t [[]|e|s]]; [|done..].
  intros [= <-]. split; [|done]. split; [|done|done]. apply content_holds, Hk; [|done]. intros o u. apply tracker_Add_stored.
Qed.

(** C36: the typed fake of a type answers like the specification, whatever sequence of
    operations (watches included) a test performs on a clientset made of given objects and on
    the watches it gets, errors and panics included, and in whatever order the tracker ranges
    over its objects; afterwards the tracker holds what the specification says, the watches
    hold the events it says, the objects of the other type are untouched, and the recorded
    actions are those of the operations, in order. *)
Theorem fake_refines objs ops f :
  NewSimpleClientset patched_HTTPProxy patched_TLSCertificateDelegation objs = Ret f →
  let '(f', answers) := fake_run ops f in
  ∃ ws, spec_run patch_object ParseFieldSelector ops (initial (fk_tracker f)) =
      ({| api_objects := content (fk_tracker f'); api_watches := ws |}, answers) ∧
    channels (fk_tracker f') = to_watcher <$> ws ∧
    fk_actions f' = ops ≫= recorded ∧
    (∀ gvr, gvr ≠ fo_resource → objs_of gvr (fk_tracker f') = objs_of gvr (fk_tracker f)).
Proof.
  intros [Hf Ha]%NewSimpleClientset_holds. pose proof (fake_run_spec ops f _ Hf) as Hr.
  destruct (spec_run _ _ ops _) as [st' l]. destruct Hr as (f' & -> & [Hf' Ha' Ho']). pose proof (fh_tracker _ _ Hf') as Ht.
  exists (api_watches st'). split_and!; [|apply Ht|by rewrite Ha', Ha|done]. f_equal.
  assert (content (fk_tracker f') = api_objects st') as ->; [|by destruct st'].
  unfold content. rewrite (ho_objects _ _ Ht). apply map_eq. intros k.
  rewrite lookup_omap, lookup_fmap. destruct (api_objects st' !! k); simpl; [by rewrite as_inject|done].
Qed.
End Refines.

(** ** A run *)

Definition fake_proxy (name generation : string) : HTTPProxy := {|
  hp_meta := {| om_name := name; om_namespace := "default"; om_uid := ""; om_resource_version := "";
                om_generation := 1; om_labels := {["generation" := generation]}; om_annotations := ∅;
                om_owners := [] |};
  hp_spec := {| hs_virtual_host := None; hs_routes := [] |};
  hp_current_status := ""
|}.

Definition selecting (s : string) : ListOptions :=
  {| lo_LabelSelector := s; lo_Watch := false; lo_TimeoutSeconds := None; lo_others := [] |}.

Definition fake_ops : list (fake_op HTTPProxy) :=
  [FWatch "default" (selecting "generation=2");
   FCreate "default" (fake_proxy "b" "2"); FCreate "default" (fake_proxy "a" "2");
   FList "default" (selecting "generation=2"); FDeleteCollection "default" (selecting "generation!=2");
   FGet "default" "a"; FDelete "default" "a"; FUpdate "default" (fake_proxy "a" "3");
   FReceive 0; FStop 0; FCreate "default" (fake_proxy "c" "2"); FReceive 0; FReceive 0].

(** The creation of an existing proxy fails, the list shows the new one only, the proxy
    that [DeleteCollection] selected is still there, and a deleted one cannot be updated.
    The watch hears of the creation and of the deletion of a proxy it does not select, and
    of nothing after it was stopped. *)
Definition fake_answers : list (outcome (answer HTTPProxy)) :=
  [Ret (AWatch (Some 0%nat) None);
   Ret (AObject (Some (fake_proxy "b" "2")) None);
   Ret (AObject None (Some (NewAlreadyExists "httpproxies" "a")));
   Ret (AList (Some [fake_proxy "b" "2"]) None); Ret (AError None);
   Ret (AObject (Some (fake_proxy "a" "1")) None); Ret (AError None);
   Ret (AObject None (Some (NewNotFound "httpproxies" "a")));
   Ret (AEvent (Received Added (fake_proxy "b" "2"))); Ret (AError None);
   Ret (AObject (Some (fake_proxy "c" "2")) None);
   Ret (AEvent (Received Deleted (fake_proxy "a" "1"))); Ret (AEvent Closed)].

#[local] Existing Instance some_key_order.

Lemma fake_refines_witness :
  ∃ f, NewSimpleClientset (λ _ _ p, inr p) (λ _ _ d, inr d) [OHTTPProxy (fake_proxy "a" "1")] = Ret f ∧
    (fake_run (λ _, None) fake_ops f).2 = fake_answers ∧
    (spec_run (λ _ _ p, inr p) (λ _, None) fake_ops (initial (fk_tracker f))).2 = fake_answers.
Proof.
  destruct (NewSimpleClientset (λ _ _ p, inr p) (λ _ _ d, inr d) [OHTTPProxy (fake_proxy "a" "1")]) as [f|e|m] eqn:E;
    [|discriminate E..].
  exists f. split; [reflexivity|].
  pose proof (fake_refines (λ _ _ p, inr p) (λ _ _ d, inr d) (λ _, None) (O := HTTPProxy) (λ _ _ p, inr p)
    (λ _ _ _, eq_refl) _ fake_ops f E) as Hr.
  assert ((fake_run (λ _, None) fake_ops f).2 = fake_answers) as Ha
    by (injection E as <-; vm_compute; reflexivity).
  split; [exact Ha|]. destruct (fake_run _ fake_ops f) as [f' l]. simpl in Ha. subst l.
  destruct Hr as (ws & E' & _). exact (f_equal snd E').
Defined.

(** A watch that nobody reads holds a hundred events: the next write panics. *)
Example fake_channel_full :
  last ((fake_run (O := HTTPProxy) (λ _, None)
    (FWatch "" (selecting "") :: FCreate "default" (fake_proxy "a" "1") ::
     replicate DefaultChanSize (FUpdate "default" (fake_proxy "a" "1")))
    {| fk_tracker := NewObjectTracker; fk_actions := [];
       ReactionChain := [{| rx_Verb := "*"; rx_Resource := "*";
                            rx_Reaction := ObjectReaction (λ _ _ p, inr p) (λ _ _ d, inr d) |}];
       WatchReactionChain := [{| wx_Resource := "*"; wx_Reaction := watch_reaction |}] |}).2) = Some (Panic "channel full").
Proof. vm_compute. reflexivity. Qed.

(** The kinds the fakes go by are those their scheme knows for the types, and the tracker
    finds each list type under its kind. *)
Definition runtime_type (o : runtime_object) : dyn := ptr_to contour_pkg (kind_of o).

Lemma fake_kinds o : ObjectKinds fake_scheme (runtime_type o) = Ret ([WithKind contour_GroupVersion (kind_of o)], false) ∧
  Scheme.New fake_scheme (WithKind contour_GroupVersion (kind_of o)) = Ret (runtime_type o).
Proof. destruct o; split; vm_compute; reflexivity. Qed.

Lemma list_of_kind kind objs o : list_of kind objs = Ret o → kind_of o = kind +:+ "List".
Proof.
  unfold list_of. destruct (String.eqb_spec kind "HTTPProxy") as [->|]; [by case_match; intros [= <-]|].
  destruct (String.eqb_spec kind "TLSCertificateDelegation") as [->|]; [by case_match; intros [= <-]|done].
Qed.
