(* ===== verification/Listers.v ===== *)
(** * The generated listers and the cache they read (pkg/client/listers)

    The listers for HTTPProxies and TLSCertificateDelegations over client-go's
    indexed store ([tools/cache]): the store with its secondary indices, the two
    listing functions, and the generated methods, which are the same code for both
    resources.  The theorem is a refinement: after any sequence of cache events, with
    or without the namespace index, the listers answer like a map from namespace and
    name to object. *)

From S2P Require Import Prelude Meta Labels HTTPProxy Client.
Local Open Scope string_scope.

(** ** The indexed store (tools/cache/thread_safe_store.go)

    An index function is applied to an object's metadata, which is all that the index
    functions in use look at; it does not fail. *)

Definition IndexFunc : Type := ObjectMeta → list string.
Abbreviation index := (gmap string (gset string)) (only parsing).

Definition NamespaceIndex : string := "namespace".
Definition MetaNamespaceIndexFunc : IndexFunc := λ m, [om_namespace m].

Definition addKeyToIndex (key indexValue : string) (idx : index) : index :=
  let set := default ∅ (idx !! indexValue) in
  <[indexValue := set ∪ {[key]}]> idx.

Definition deleteKeyFromIndex (key indexValue : string) (idx : index) : index :=
  match idx !! indexValue with
  | None => idx
  | Some set =>
      let set := set ∖ {[key]} in
      if decide (set = ∅) then delete indexValue idx else <[indexValue := set]> idx
  end.

Definition MetaNamespaceKeyFunc (m : ObjectMeta) : string :=
  if negb (String.eqb (om_namespace m) "") then om_namespace m +:+ "/" +:+ om_name m else om_name m.

Section Store.
Context {O : Type} `{Object O} `{MapOrder}.

Record threadSafeMap := {
  items : gmap string O;
  indexers : gmap string IndexFunc;
  indices : gmap string index
}.

Definition updateSingleIndex (indexFunc : IndexFunc) (oldObj newObj : option O) (key : string)
    (idx : index) : index :=
  let oldIndexValues := match oldObj with Some o => indexFunc (obj_meta o) | None => [] end in
  let indexValues := match newObj with Some o => indexFunc (obj_meta o) | None => [] end in
  match indexValues, oldIndexValues with
  | [v], [w] =>
      if String.eqb v w then idx
      else addKeyToIndex key v (deleteKeyFromIndex key w idx)
  | _, _ =>
      foldl (λ idx value, addKeyToIndex key value idx)
        (foldl (λ idx value, deleteKeyFromIndex key value idx) idx oldIndexValues) indexValues
  end.

Definition updateIndices (ix : gmap string IndexFunc) (oldObj newObj : option O) (key : string)
    (ids : gmap string index) : gmap string index :=
  foldl (λ ids nf, <[nf.1 := updateSingleIndex nf.2 oldObj newObj key (default ∅ (ids !! nf.1))]> ids)
    ids (range_map ix).

Definition tsm_Update (key : string) (obj : O) (c : threadSafeMap) : threadSafeMap := {|
  items := <[key := obj]> (items c);
  indexers := indexers c;
  indices := updateIndices (indexers c) (items c !! key) (Some obj) key (indices c)
|}.

Definition tsm_Delete (key : string) (c : threadSafeMap) : threadSafeMap :=
  match items c !! key with
  | Some obj => {|
      items := delete key (items c);
      indexers := indexers c;
      indices := updateIndices (indexers c) (Some obj) None key (indices c) |}
  | None => c
  end.

Definition tsm_Replace (its : gmap string O) (c : threadSafeMap) : threadSafeMap := {|
  items := its;
  indexers := indexers c;
  indices := foldl (λ ids ki, updateIndices (indexers c) None (Some ki.2) ki.1 ids) ∅ (range_map its)
|}.

Definition tsm_List (c : threadSafeMap) : list O := (range_map (items c)).*2.

Definition getKeysFromIndex (indexName : string) (obj : ObjectMeta) (c : threadSafeMap)
    : goerr + gset string :=
  match indexers c !! indexName with
  | None => inl (Errorf "Index with name %s does not exist" [indexName])
  | Some indexFunc =>
      let idx := default ∅ (indices c !! indexName) in
      inr (match indexFunc obj with
           | [v] => default ∅ (idx !! v)
           | values => foldl (λ set v, set ∪ default ∅ (idx !! v)) ∅ values
           end)
  end.

(** The listed items are [c.items[storeKey]], nil for a key that is not there. *)
Definition tsm_Index (indexName : string) (obj : ObjectMeta) (c : threadSafeMap)
    : goerr + list (option O) :=
  match getKeysFromIndex indexName obj c with
  | inl e => inl e
  | inr set => inr ((λ key, items c !! key) <$> range_set set)
  end.

(** ** The cache on top of it (tools/cache/store.go, without a transformer) *)

Definition NewIndexer (ix : gmap string IndexFunc) : threadSafeMap :=
  {| items := ∅; indexers := ix; indices := ∅ |}.

Definition cache_Update (o : O) : threadSafeMap → threadSafeMap :=
  tsm_Update (MetaNamespaceKeyFunc (obj_meta o)) o.
Definition cache_Add : O → threadSafeMap → threadSafeMap := cache_Update.
Definition cache_Delete (o : O) : threadSafeMap → threadSafeMap :=
  tsm_Delete (MetaNamespaceKeyFunc (obj_meta o)).
Definition cache_Replace (l : list O) : threadSafeMap → threadSafeMap :=
  tsm_Replace (foldl (λ its o, <[MetaNamespaceKeyFunc (obj_meta o) := o]> its) ∅ l).
Definition GetByKey (key : string) (c : threadSafeMap) : option O := items c !! key.

(** ** Listing (tools/cache/listers.go) *)

(** [labels.Nothing()] or a conjunction of requirements. *)
Inductive AnySelector :=
  | NothingSelector
  | InternalSelector (s : Selector).

Definition any_Matches (sel : AnySelector) (ls : gmap string string) : bool :=
  match sel with NothingSelector => false | InternalSelector s => Matches s ls end.
Definition MatchesNothing (sel : AnySelector) : bool :=
  match sel with NothingSelector => true | _ => false end.
Definition any_Empty (sel : AnySelector) : bool :=
  match sel with InternalSelector [] => true | _ => false end.

Definition ListAll (c : threadSafeMap) (sel : AnySelector) : list O :=
  if MatchesNothing sel then []
  else
    let selectAll := any_Empty sel in
    filter (λ o, selectAll || any_Matches sel (GetLabels o) = true) (tsm_List c).

Definition ListAllByNamespace (c : threadSafeMap) (namespace : string) (sel : AnySelector)
    : outcome (list O) :=
  if MatchesNothing sel then Ret []
  else if String.eqb namespace "" then Ret (ListAll c sel)
  else match tsm_Index NamespaceIndex
               {| om_name := ""; om_namespace := namespace; om_uid := ""; om_resource_version := "";
                  om_generation := 0; om_labels := ∅; om_annotations := ∅; om_owners := [] |} c with
       | inl _ =>
           Ret (filter (λ o, String.eqb (GetNamespace o) namespace && any_Matches sel (GetLabels o) = true)
                  (tsm_List c))
       | inr its =>
           let selectAll := any_Empty sel in
           os ← outcome_mapM (nil_deref "interface conversion") its;
           Ret (filter (λ o, selectAll || any_Matches sel (GetLabels o) = true) os)
       end.

(** ** The generated methods *)

(** [errors.NewNotFound] of a resource of the group (the quotes of [%q] left out). *)
Definition NewNotFound (resource name : string) : goerr :=
  APIStatus StatusReasonNotFound (resource +:+ ".projectcontour.io " +:+ name +:+ " not found").

Record lister := { ls_indexer : threadSafeMap; ls_resource : string }.
Record namespaceLister := { nl_indexer : threadSafeMap; nl_resource : string; nl_namespace : string }.

Definition lister_List (s : lister) (sel : AnySelector) : list O := ListAll (ls_indexer s) sel.

Definition lister_in (s : lister) (namespace : string) : namespaceLister :=
  {| nl_indexer := ls_indexer s; nl_resource := ls_resource s; nl_namespace := namespace |}.

Definition namespace_List (s : namespaceLister) (sel : AnySelector) : outcome (list O) :=
  ListAllByNamespace (nl_indexer s) (nl_namespace s) sel.

Definition namespace_Get (s : namespaceLister) (name : string) : outcome O :=
  match GetByKey (nl_namespace s +:+ "/" +:+ name) (nl_indexer s) with
  | None => Fail (NewNotFound (nl_resource s) name)
  | Some o => Ret o
  end.
End Store.
Arguments threadSafeMap : clear implicits.
Arguments lister : clear implicits.
Arguments namespaceLister : clear implicits.

(** The two instances. *)
Definition NewHTTPProxyLister (indexer : threadSafeMap HTTPProxy) : lister HTTPProxy :=
  {| ls_indexer := indexer; ls_resource := "httpproxy" |}.
Definition NewTLSCertificateDelegationLister (indexer : threadSafeMap TLSCertificateDelegation)
    : lister TLSCertificateDelegation :=
  {| ls_indexer := indexer; ls_resource := "tlscertificatedelegation" |}.

Module HTTPProxyLister.
Section Methods.
Context `{MapOrder}.
Definition List : lister HTTPProxy → AnySelector → list HTTPProxy := lister_List.
Definition HTTPProxies : lister HTTPProxy → string → namespaceLister HTTPProxy := lister_in.
Definition NamespaceList : namespaceLister HTTPProxy → AnySelector → outcome (list HTTPProxy) :=
  namespace_List.
Definition Get : namespaceLister HTTPProxy → string → outcome HTTPProxy := namespace_Get.
End Methods.
End HTTPProxyLister.

Module TLSCertificateDelegationLister.
Section Methods.
Context `{MapOrder}.
Abbreviation T := TLSCertificateDelegation (only parsing).
Definition List : lister T → AnySelector → list T := lister_List.
Definition TLSCertificateDelegations : lister T → string → namespaceLister T := lister_in.
Definition NamespaceList : namespaceLister T → AnySelector → outcome (list T) := namespace_List.
Definition Get : namespaceLister T → string → outcome T := namespace_Get.
End Methods.
End TLSCertificateDelegationLister.

(** ** The indices are in step with the items *)

Lemma elem_of_addKeyToIndex key v idx w k :
  k ∈ default ∅ (addKeyToIndex key v idx !! w) ↔ k = key ∧ w = v ∨ k ∈ default ∅ (idx !! w).
Proof.
  unfold addKeyToIndex. destruct (decide (w = v)) as [->|Hw].
  - rewrite lookup_insert_eq. simpl. set_solver.
  - rewrite lookup_insert_ne by done. naive_solver.
Qed.

Lemma elem_of_deleteKeyFromIndex key v idx w k :
  k ∈ default ∅ (deleteKeyFromIndex key v idx !! w) ↔ k ∈ default ∅ (idx !! w) ∧ ¬ (k = key ∧ w = v).
Proof.
  unfold deleteKeyFromIndex. destruct (idx !! v) as [set|] eqn:E.
  - destruct (decide (w = v)) as [->|Hw]; [rewrite E|]; case_decide as Hd;
      rewrite ?lookup_insert_eq, ?lookup_delete_eq, ?lookup_insert_ne, ?lookup_delete_ne by done;
      simpl; try set_solver.
  - split; [|naive_solver]. intros Hk. split; [done|]. intros [-> ->]. rewrite E in Hk. set_solver.
Qed.

Lemma elem_of_add_all key l idx w k :
  k ∈ default ∅ (foldl (λ idx value, addKeyToIndex key value idx) idx l !! w) ↔
  k = key ∧ w ∈ l ∨ k ∈ default ∅ (idx !! w).
Proof.
  revert idx. induction l as [|v l IH]; intros idx; cbn [foldl]; [set_solver|].
  rewrite IH, elem_of_addKeyToIndex. set_solver.
Qed.

Lemma elem_of_delete_all key l idx w k :
  k ∈ default ∅ (foldl (λ idx value, deleteKeyFromIndex key value idx) idx l !! w) ↔
  k ∈ default ∅ (idx !! w) ∧ ¬ (k = key ∧ w ∈ l).
Proof.
  revert idx. induction l as [|v l IH]; intros idx; cbn [foldl]; [set_solver|].
  rewrite IH, elem_of_deleteKeyFromIndex. set_solver.
Qed.

Section StoreFacts.
Context {O : Type} `{Object O} `{MapOrder}.
Implicit Types (o : O) (c : threadSafeMap O) (its : gmap string O).

(** The values an object that may be missing is indexed under. *)
Definition values_of (f : IndexFunc) (o : option O) : list string :=
  match o with Some o => f (obj_meta o) | None => [] end.

Lemma elem_of_updateSingleIndex f old new key idx w k :
  (∀ v, key ∈ default ∅ (idx !! v) ↔ v ∈ values_of f old) →
  k ∈ default ∅ (updateSingleIndex f old new key idx !! w) ↔
  k = key ∧ w ∈ values_of f new ∨ k ≠ key ∧ k ∈ default ∅ (idx !! w).
Proof.
  intros Hold.
  assert (k ∈ default ∅ (foldl (λ idx value, addKeyToIndex key value idx)
      (foldl (λ idx value, deleteKeyFromIndex key value idx) idx (values_of f old))
      (values_of f new) !! w) ↔
    k = key ∧ w ∈ values_of f new ∨ k ≠ key ∧ k ∈ default ∅ (idx !! w)) as Hgen.
  { rewrite elem_of_add_all, elem_of_delete_all. specialize (Hold w).
    destruct (decide (k = key)); naive_solver. }
  unfold updateSingleIndex. change (match new with Some o => _ | None => _ end) with (values_of f new).
  change (match old with Some o => _ | None => _ end) with (values_of f old).
  destruct (values_of f new) as [|v [|? ?]] eqn:En, (values_of f old) as [|v' [|? ?]] eqn:Eo;
    try exact Hgen.
  destruct (String.eqb_spec v v') as [->|Hv]; [|exact Hgen].
  specialize (Hold w). destruct (decide (k = key)) as [->|]; [|naive_solver].
  rewrite Hold. naive_solver.
Qed.

Lemma updateIndices_lookup ix old new key ids name :
  updateIndices ix old new key ids !! name =
  match ix !! name with
  | Some f => Some (updateSingleIndex f old new key (default ∅ (ids !! name)))
  | None => ids !! name
  end.
Proof.
  unfold updateIndices.
  assert (∀ l, NoDup l.*1 → ∀ ids : gmap string (gmap string (gset string)),
    foldl (λ ids nf, <[nf.1 := updateSingleIndex nf.2 old new key (default ∅ (ids !! nf.1))]> ids)
      ids l !! name =
    match (list_to_map l : gmap string IndexFunc) !! name with
    | Some f => Some (updateSingleIndex f old new key (default ∅ (ids !! name)))
    | None => ids !! name
    end) as Hgen.
  { clear ids ix. induction l as [|[n f] l IH]; intros Hnd ids; cbn [foldl]; [done|].
    apply NoDup_cons in Hnd as [Hn Hnd]. rewrite IH by done. cbn [list_to_map foldr fst snd uncurry].
    destruct (decide (name = n)) as [->|].
    - rewrite not_elem_of_list_to_map_1 by done. by rewrite !lookup_insert_eq.
    - by rewrite !lookup_insert_ne by done. }
  rewrite Hgen by apply NoDup_range_map_keys.
  by rewrite (list_to_map_proper _ _ (NoDup_range_map_keys ix) (range_map_perm ix)), list_to_map_to_list.
Qed.

(** Every index lists, under each value, exactly the keys of the items with that value. *)
Definition indexed (ix : gmap string IndexFunc) (ids : gmap string (gmap string (gset string)))
    (its : gmap string O) : Prop :=
  ∀ name (f : IndexFunc), ix !! name = Some f → ∀ v k,
    k ∈ default ∅ (default ∅ (ids !! name) !! v) ↔ ∃ o, its !! k = Some o ∧ v ∈ f (obj_meta o).

Lemma indexed_values ix ids its name f key :
  indexed ix ids its → ix !! name = Some f →
  ∀ v, key ∈ default ∅ (default ∅ (ids !! name) !! v) ↔ v ∈ values_of f (its !! key).
Proof.
  intros Hi Hf v. rewrite (Hi _ _ Hf). destruct (its !! key); set_solver.
Qed.

Lemma indexed_update ix ids its key o :
  indexed ix ids its →
  indexed ix (updateIndices ix (its !! key) (Some o) key ids) (<[key := o]> its).
Proof.
  intros Hi name f Hf v k. rewrite updateIndices_lookup, Hf. cbn [from_option id].
  rewrite elem_of_updateSingleIndex by (by apply (indexed_values ix)).
  destruct (decide (k = key)) as [->|Hk].
  - rewrite lookup_insert_eq. set_solver.
  - rewrite lookup_insert_ne by done. rewrite (Hi _ _ Hf). naive_solver.
Qed.

Lemma indexed_delete ix ids its key :
  indexed ix ids its →
  indexed ix (updateIndices ix (its !! key) None key ids) (delete key its).
Proof.
  intros Hi name f Hf v k. rewrite updateIndices_lookup, Hf. cbn [from_option id].
  rewrite elem_of_updateSingleIndex by (by apply (indexed_values ix)).
  destruct (decide (k = key)) as [->|Hk].
  - rewrite lookup_delete_eq. set_solver.
  - rewrite lookup_delete_ne by done. rewrite (Hi _ _ Hf). naive_solver.
Qed.

Definition store_ok (c : threadSafeMap O) : Prop := indexed (indexers c) (indices c) (items c).

Lemma tsm_Update_ok key o c : store_ok c → store_ok (tsm_Update key o c).
Proof. apply indexed_update. Qed.

Lemma tsm_Delete_ok key c : store_ok c → store_ok (tsm_Delete key c).
Proof.
  unfold tsm_Delete. destruct (items c !! key) as [o|] eqn:E; [|done]. unfold store_ok. simpl.
  rewrite <-E. apply indexed_delete.
Qed.

Lemma tsm_Replace_ok its c : store_ok (tsm_Replace its c).
Proof.
  unfold store_ok. simpl.
  assert (∀ l, NoDup l.*1 → ∀ ids its0, (∀ k, k ∈ l.*1 → its0 !! k = None) →
    indexed (indexers c) ids its0 →
    indexed (indexers c)
      (foldl (λ ids ki, updateIndices (indexers c) None (Some ki.2) ki.1 ids) ids l)
      (list_to_map l ∪ its0)) as Hgen.
  { clear its. induction l as [|[k o] l IH]; intros Hnd ids its0 Hfresh Hi; cbn [foldl fst snd].
    { change (list_to_map []) with (∅ : gmap string O). by rewrite (left_id_L ∅ (∪)). }
    apply NoDup_cons in Hnd as [Hk Hnd]. cbn [list_to_map foldr fst snd uncurry].
    assert (its0 !! k = None) as E by (apply Hfresh; by left).
    replace (<[k:=o]> (list_to_map l) ∪ its0) with (list_to_map l ∪ <[k:=o]> its0).
    - apply IH; [done| |by rewrite <-E; apply indexed_update].
      intros k' Hk'. rewrite lookup_insert_ne by (intros ->; done). apply Hfresh. by right.
    - rewrite <-insert_union_l, insert_union_r; [done|]. by apply not_elem_of_list_to_map_1. }
  specialize (Hgen (range_map its) (NoDup_range_map_keys its) ∅ ∅).
  rewrite (list_to_map_proper _ _ (NoDup_range_map_keys its) (range_map_perm its)),
    list_to_map_to_list, (right_id_L ∅ (∪)) in Hgen.
  apply Hgen; [set_solver|]. intros name f Hf v k. rewrite !lookup_empty. set_solver.
Qed.

(** ** The listers against a map from namespace and name to object *)

Inductive event :=
  | EvAdd (o : O)
  | EvUpdate (o : O)
  | EvDelete (o : O)
  | EvReplace (l : list O).

Definition cache_step (c : threadSafeMap O) (e : event) : threadSafeMap O :=
  match e with
  | EvAdd o => cache_Add o c
  | EvUpdate o => cache_Update o c
  | EvDelete o => cache_Delete o c
  | EvReplace l => cache_Replace l c
  end.

Definition put (m : gmap (string * string) O) (o : O) : gmap (string * string) O :=
  <[(GetNamespace o, GetName o) := o]> m.

Definition spec_step (m : gmap (string * string) O) (e : event) : gmap (string * string) O :=
  match e with
  | EvAdd o | EvUpdate o => put m o
  | EvDelete o => delete (GetNamespace o, GetName o) m
  | EvReplace l => foldl put ∅ l
  end.

(** A namespace as the API server has them: not empty and without a slash. *)
Definition legal_ns (ns : string) : Prop := ns ≠ "" ∧ Contains ns "/" = false.

Definition legal_event (e : event) : Prop :=
  match e with
  | EvAdd o | EvUpdate o | EvDelete o => legal_ns (GetNamespace o)
  | EvReplace l => Forall (λ o, legal_ns (GetNamespace o)) l
  end.

Definition in_ns (ns name : string) : string := ns +:+ "/" +:+ name.

Lemma in_ns_inj ns1 n1 ns2 n2 :
  legal_ns ns1 → legal_ns ns2 → in_ns ns1 n1 = in_ns ns2 n2 → ns1 = ns2 ∧ n1 = n2.
Proof.
  intros [_ H1] [_ H2]. unfold in_ns. revert ns2 H2. induction ns1 as [|a ns1 IH]; intros [|b ns2] H2 E.
  - simpl in E. by injection E as E.
  - simpl in E. injection E as <- _. apply Contains_sep_cons in H2 as [? _]. done.
  - simpl in E. injection E as -> _. apply Contains_sep_cons in H1 as [? _]. done.
  - injection E as <- E2. apply Contains_sep_cons in H1 as [_ H1], H2 as [_ H2].
    by destruct (IH H1 ns2 H2 E2) as [-> ->].
Qed.

Lemma key_in_ns o :
  legal_ns (GetNamespace o) → MetaNamespaceKeyFunc (obj_meta o) = in_ns (GetNamespace o) (GetName o).
Proof.
  intros [Hne%String.eqb_neq _]. unfold MetaNamespaceKeyFunc.
  change (om_namespace (obj_meta o)) with (GetNamespace o). by rewrite Hne.
Qed.

(** The items hold the objects of the map, each under its key. *)
Record holds (its : gmap string O) (m : gmap (string * string) O) : Prop := {
  ho_lookup ns name : legal_ns ns → its !! in_ns ns name = m !! (ns, name);
  ho_items k o : its !! k = Some o → legal_ns (GetNamespace o) ∧ k = in_ns (GetNamespace o) (GetName o);
  ho_keys p o : m !! p = Some o → p = (GetNamespace o, GetName o) ∧ legal_ns (GetNamespace o)
}.

Lemma holds_empty : holds ∅ ∅.
Proof. split; intros *; rewrite ?lookup_empty; done. Qed.

Lemma holds_put its m o :
  legal_ns (GetNamespace o) → holds its m →
  holds (<[MetaNamespaceKeyFunc (obj_meta o) := o]> its) (put m o).
Proof.
  intros Hl Hh. rewrite key_in_ns by done. unfold put. split.
  - intros ns name Hns. destruct (decide ((GetNamespace o, GetName o) = (ns, name))) as [[= <- <-]|Hne].
    + by rewrite !lookup_insert_eq.
    + rewrite !lookup_insert_ne; [by apply Hh|done|].
      intros E. apply Hne. by destruct (in_ns_inj _ _ _ _ Hl Hns E) as [-> ->].
  - intros k o' [[<- <-]|[_ E]]%lookup_insert_Some; [done|]. by eapply ho_items.
  - intros p o' [[<- <-]|[_ E]]%lookup_insert_Some; [done|]. by eapply ho_keys.
Qed.

Lemma holds_delete its m o :
  legal_ns (GetNamespace o) → holds its m →
  holds (delete (MetaNamespaceKeyFunc (obj_meta o)) its) (delete (GetNamespace o, GetName o) m).
Proof.
  intros Hl Hh. rewrite key_in_ns by done. split.
  - intros ns name Hns. destruct (decide ((GetNamespace o, GetName o) = (ns, name))) as [[= <- <-]|Hne].
    + by rewrite !lookup_delete_eq.
    + rewrite !lookup_delete_ne; [by apply Hh|done|].
      intros E. apply Hne. by destruct (in_ns_inj _ _ _ _ Hl Hns E) as [-> ->].
  - intros k o' [_ E]%lookup_delete_Some. by eapply ho_items.
  - intros p o' [_ E]%lookup_delete_Some. by eapply ho_keys.
Qed.

Lemma holds_replace l its m :
  Forall (λ o, legal_ns (GetNamespace o)) l → holds its m →
  holds (foldl (λ its o, <[MetaNamespaceKeyFunc (obj_meta o) := o]> its) its l) (foldl put m l).
Proof.
  intros Hl. revert its m. induction Hl as [|o l Ho Hl IH]; intros its m Hh; [done|].
  cbn [foldl]. apply IH. by apply holds_put.
Qed.

Lemma cache_step_refines c m e :
  legal_event e → store_ok c → holds (items c) m →
  store_ok (cache_step c e) ∧ holds (items (cache_step c e)) (spec_step m e) ∧
  indexers (cache_step c e) = indexers c.
Proof.
  intros Hl Hok Hh. destruct e as [o|o|o|l]; simpl in Hl |- *.
  1,2: split; [by apply tsm_Update_ok|split; [by apply holds_put|done]].
  - split; [by apply tsm_Delete_ok|]. unfold cache_Delete, tsm_Delete.
    pose proof (holds_delete _ _ _ Hl Hh) as Hd.
    destruct (items c !! _) eqn:E; [done|]. by rewrite delete_id in Hd.
  - split; [apply tsm_Replace_ok|]. split; [|done]. by apply holds_replace, holds_empty.
Qed.

Lemma cache_run_refines ix es :
  Forall legal_event es →
  let c := foldl cache_step (NewIndexer ix) es in
  store_ok c ∧ holds (items c) (foldl spec_step ∅ es) ∧ indexers c = ix.
Proof.
  intros Hl. simpl.
  assert (∀ c m, store_ok c → holds (items c) m → indexers c = ix →
    store_ok (foldl cache_step c es) ∧ holds (items (foldl cache_step c es)) (foldl spec_step m es) ∧
    indexers (foldl cache_step c es) = ix) as Hgen.
  { induction Hl as [|e es He Hl IH]; intros c m Hok Hh Hix; [done|]. cbn [foldl].
    destruct (cache_step_refines c m e He Hok Hh) as (Hok' & Hh' & Hix'). apply IH; [done|done|by rewrite Hix']. }
  apply Hgen; [|apply holds_empty|done].
  intros name f Hf v k. simpl. rewrite !lookup_empty. set_solver.
Qed.

(** The objects of the map, as a listing in some order. *)
Definition objects (m : gmap (string * string) O) : list O := (map_to_list m).*2.

Lemma holds_objects its m : holds its m → (map_to_list its).*2 ≡ₚ objects m.
Proof.
  intros Hh. unfold objects.
  assert (map_to_list its ≡ₚ (λ po, (in_ns po.1.1 po.1.2, po.2)) <$> map_to_list m) as ->;
    [|by rewrite <-list_fmap_compose].
  apply NoDup_Permutation; [apply NoDup_map_to_list| |].
  - apply NoDup_fmap_2_strong; [|apply NoDup_map_to_list].
    intros [p1 o1] [p2 o2] E1%elem_of_map_to_list E2%elem_of_map_to_list [= _ ->].
    apply (ho_keys _ _ Hh) in E1 as [-> _], E2 as [-> _]. done.
  - intros [k o]. rewrite elem_of_map_to_list, list_elem_of_fmap. split.
    + intros E. destruct (ho_items _ _ Hh _ _ E) as [Hl ->].
      exists ((GetNamespace o, GetName o), o). split; [done|].
      apply elem_of_map_to_list. by rewrite <-(ho_lookup _ _ Hh).
    + intros ([[ns n] o'] & [= -> ->] & E%elem_of_map_to_list).
      destruct (ho_keys _ _ Hh _ _ E) as [[= -> ->] Hl]. simpl. by rewrite (ho_lookup _ _ Hh).
Qed.

Definition selected (sel : AnySelector) (o : O) : Prop := any_Matches sel (GetLabels o) = true.
#[local] Instance selected_dec sel o : Decision (selected sel o) := decide (_ = true).

Lemma any_Empty_or sel o :
  any_Empty sel || any_Matches sel (GetLabels o) = true ↔ selected sel o.
Proof. unfold selected. by destruct sel as [|[|? ?]]. Qed.

Lemma filter_none {A} (P : A → Prop) `{∀ x, Decision (P x)} (l : list A) : (∀ x, ¬ P x) → filter P l = [].
Proof.
  intros HP. induction l as [|x l IH]; [done|]. rewrite filter_cons.
  destruct (decide (P x)); [|done]. by destruct (HP x).
Qed.

Lemma filter_fmap_list {A B} (f : A → B) (P : B → Prop) `{∀ x, Decision (P x)} (l : list A) :
  filter P (f <$> l) = f <$> filter (λ x, P (f x)) l.
Proof.
  induction l as [|x l IH]; [done|]. rewrite fmap_cons, !filter_cons.
  destruct (decide (P (f x))); rewrite IH; done.
Qed.

Lemma ListAll_objects c m sel :
  holds (items c) m → ListAll c sel ≡ₚ filter (selected sel) (objects m).
Proof.
  intros Hh. unfold ListAll. destruct (MatchesNothing sel) eqn:En.
  { destruct sel; [|done]. by rewrite filter_none. }
  rewrite (list_filter_iff _ (selected sel)) by (intros o; apply any_Empty_or).
  unfold tsm_List. by rewrite range_map_perm, (holds_objects _ _ Hh).
Qed.

Lemma nil_deref_all {K} what (f : K → option O) ks :
  (∀ k, k ∈ ks → is_Some (f k)) → outcome_mapM (nil_deref what) (f <$> ks) = Ret (omap f ks).
Proof.
  induction ks as [|k ks IH]; intros Hf; [done|]. cbn [fmap list_fmap outcome_mapM].
  destruct (Hf k) as [o Ho]; [by left|]. rewrite Ho. simpl. rewrite Ho.
  change (list_fmap ?a ?b f ks) with (f <$> ks). rewrite IH; [done|]. intros k' Hk'. apply Hf. by right.
Qed.

Lemma omap_keys its (l : list (string * O)) :
  (∀ k o, (k, o) ∈ l → its !! k = Some o) → omap (λ k, its !! k) l.*1 = l.*2.
Proof.
  induction l as [|[k o] l IH]; intros Hl; [done|]. simpl. rewrite (Hl k o) by left. f_equal.
  apply IH. intros k' o' Hk. apply Hl. by right.
Qed.

(** The objects behind the keys of an index are those with the value looked up. *)
Lemma omap_index its (ks : list string) (P : O → Prop) `{∀ o, Decision (P o)} :
  NoDup ks → (∀ k, k ∈ ks ↔ ∃ o, its !! k = Some o ∧ P o) →
  omap (λ k, its !! k) ks ≡ₚ filter P (map_to_list its).*2.
Proof.
  intros Hnd Hks. rewrite filter_fmap_list.
  assert (ks ≡ₚ (filter (λ ko, P ko.2) (map_to_list its)).*1) as ->.
  { apply NoDup_Permutation; [done| |].
    - eapply sublist_NoDup; [apply (NoDup_fst_map_to_list its)|].
      apply fmap_sublist, sublist_filter.
    - intros k. rewrite Hks, list_elem_of_fmap. split.
      + intros (o & E & Ho). exists (k, o). split; [done|].
        by rewrite list_elem_of_filter, elem_of_map_to_list.
      + intros ([k' o] & -> & [Ho E%elem_of_map_to_list]%list_elem_of_filter). by exists o. }
  rewrite omap_keys; [done|]. intros k o [_ E]%list_elem_of_filter. by apply elem_of_map_to_list.
Qed.

Lemma ListAllByNamespace_objects c m ns sel :
  store_ok c → holds (items c) m →
  (∀ f, indexers c !! NamespaceIndex = Some f → f = MetaNamespaceIndexFunc) → ns ≠ "" →
  ∃ l, ListAllByNamespace c ns sel = Ret l ∧
       l ≡ₚ filter (λ o, GetNamespace o = ns ∧ selected sel o) (objects m).
Proof.
  intros Hok Hh Hix Hns%String.eqb_neq. unfold ListAllByNamespace.
  destruct (MatchesNothing sel) eqn:En.
  { destruct sel; [|done]. exists []. split; [done|].
    rewrite filter_none; [done|]. by intros o [_ ?]. }
  rewrite Hns. unfold tsm_Index, getKeysFromIndex.
  destruct (indexers c !! NamespaceIndex) as [f|] eqn:Ef.
  - assert (f = MetaNamespaceIndexFunc) as -> by auto. cbn [MetaNamespaceIndexFunc om_namespace].
    set (keys := default ∅ _).
    assert (∀ k, k ∈ range_set keys ↔ ∃ o, items c !! k = Some o ∧ GetNamespace o = ns) as Hk.
    { intros k. rewrite elem_of_range_set. unfold keys. rewrite (Hok _ _ Ef). f_equiv; intros o.
      unfold MetaNamespaceIndexFunc. rewrite list_elem_of_singleton. naive_solver. }
    rewrite nil_deref_all by (intros k (o & -> & _)%Hk; by eexists). simpl.
    eexists; split; [done|].
    rewrite (list_filter_iff _ (selected sel)) by (intros o; apply any_Empty_or).
    rewrite (omap_index (items c) _ (λ o, GetNamespace o = ns)) by auto using NoDup_range_set.
    rewrite (holds_objects _ _ Hh), list_filter_filter.
    erewrite list_filter_iff; [done|]. naive_solver.
  - eexists; split; [done|]. unfold tsm_List. rewrite range_map_perm, (holds_objects _ _ Hh).
    erewrite list_filter_iff; [done|]. intros o. by rewrite andb_true_iff, String.eqb_eq.
Qed.
End StoreFacts.

(** C35: After any sequence of cache events on objects in namespaces, and whether or not
    the cache has the namespace index, the listers answer like a map from namespace and
    name to the latest object: [Get] finds exactly the object of that name and reports
    NotFound otherwise, and both listings give exactly the objects (of the namespace)
    that the selector matches, each once; none of them panics. *)
Theorem listers_refine {O} `{Object O} `{MapOrder} (ix : gmap string IndexFunc) (es : list event)
    (resource : string) (sel : AnySelector) :
  Forall legal_event es →
  (∀ f, ix !! NamespaceIndex = Some f → f = MetaNamespaceIndexFunc) →
  let m := foldl spec_step ∅ es in
  let s := {| ls_indexer := foldl cache_step (NewIndexer ix) es; ls_resource := resource |} in
  lister_List s sel ≡ₚ filter (λ o, any_Matches sel (GetLabels o) = true) (objects m) ∧
  ∀ ns, legal_ns ns →
    (∃ l, namespace_List (lister_in s ns) sel = Ret l ∧
      l ≡ₚ filter (λ o, GetNamespace o = ns ∧ any_Matches sel (GetLabels o) = true) (objects m)) ∧
    ∀ name, namespace_Get (lister_in s ns) name =
      match m !! (ns, name) with Some o => Ret o | None => Fail (NewNotFound resource name) end.
Proof.
  intros Hes Hix m s. destruct (cache_run_refines ix es Hes) as (Hok & Hh & Hi). split.
  - by apply ListAll_objects.
  - intros ns Hns. split.
    + apply ListAllByNamespace_objects; [done|done| |apply Hns]. simpl. intros f. rewrite Hi. apply Hix.
    + intros name. unfold namespace_Get, GetByKey. simpl.
      change (ns +:+ "/" +:+ name) with (in_ns ns name). by rewrite (ho_lookup _ _ Hh).
Qed.

Definition delegation (ns name team : string) : TLSCertificateDelegation := {|
  td_meta := {| om_name := name; om_namespace := ns; om_uid := ""; om_resource_version := "";
                om_generation := 1; om_labels := {["team" := team]}; om_annotations := ∅;
                om_owners := [] |};
  td_delegations := []
|}.

(** An indexed cache: two namespaces, an object that changes its label, one that goes. *)
Lemma listers_refine_witness :
  let es := [EvAdd (delegation "a" "x" "red"); EvAdd (delegation "b" "x" "red");
             EvUpdate (delegation "a" "x" "blue"); EvAdd (delegation "a" "y" "red");
             EvDelete (delegation "b" "x" "red")] in
  let s := NewTLSCertificateDelegationLister
             (foldl (cache_step (H0 := ascending_order))
                (NewIndexer {[NamespaceIndex := MetaNamespaceIndexFunc]}) es) in
  namespace_Get (lister_in s "a") "x" = Ret (delegation "a" "x" "blue") ∧
  namespace_Get (lister_in s "b") "x" = Fail (NewNotFound "tlscertificatedelegation" "x").
Proof.
  intros es s.
  assert (Forall legal_event es) as Hes by (repeat constructor; done).
  assert (∀ f, ({[NamespaceIndex := MetaNamespaceIndexFunc]} : gmap string IndexFunc) !! NamespaceIndex
    = Some f → f = MetaNamespaceIndexFunc) as Hix by (intros f; vm_compute; by intros [= <-]).
  destruct (listers_refine (H0 := ascending_order) _ es "tlscertificatedelegation" NothingSelector
    Hes Hix) as [_ Hns].
  split.
  - destruct (Hns "a") as [_ Hget]; [by split|]. exact (Hget "x").
  - destruct (Hns "b") as [_ Hget]; [by split|]. exact (Hget "x").
Defined.
