(* ===== verification/TableListers.v ===== *)
(** * The listers of the table tests (pkg/reconciler/testing/listers.go)

    A table test gives objects of all kinds; [Listers] sorts them by type into indexers
    ([ObjectSorter] of knative.dev/pkg/reconciler/testing), from which the listers of the
    reconciler are made, and hands the objects of each clientset to its fake.  The
    theorem: a lister and a fake are given the same objects, the last one of each name.

    The registrations of the Kubernetes clientset are a parameter: any registration that
    is composed of the operations of [Scheme]. *)

From S2P Require Import Prelude Meta Labels Ingress HTTPProxy EndpointProbe Events Client Listers Scheme.
Local Open Scope string_scope.

(** ** Objects of a test *)

Inductive test_object :=
  | TIngress (i : Ingress)
  | THTTPProxy (p : HTTPProxy)
  | TTLSCertificateDelegation (d : TLSCertificateDelegation)
  | TService (s : Service)
  | TEndpoints (e : Endpoints)
  | TOther (t : go_type) (m : ObjectMeta).

Definition core_pkg : string := "k8s.io/api/core/v1".
Definition struct_type (pkg name : string) : go_type := {| gt_pkg := pkg; gt_name := name; gt_struct := true |}.

(** [reflect.TypeOf(obj).Elem()] *)
Definition TypeOf_Elem (o : test_object) : go_type :=
  match o with
  | TIngress _ => struct_type networking_pkg "Ingress"
  | THTTPProxy _ => struct_type contour_pkg "HTTPProxy"
  | TTLSCertificateDelegation _ => struct_type contour_pkg "TLSCertificateDelegation"
  | TService _ => struct_type core_pkg "Service"
  | TEndpoints _ => struct_type core_pkg "Endpoints"
  | TOther t _ => t
  end.

#[export] Instance test_object_meta : Object test_object := λ o,
  match o with
  | TIngress i => ing_meta i
  | THTTPProxy p => hp_meta p
  | TTLSCertificateDelegation d => td_meta d
  | TService s => sv_meta s
  | TEndpoints e => en_meta e
  | TOther _ m => m
  end.

(** Ranging over the map of kinds visits them in any order. *)
Class KindOrder := {
  range_kinds : gmap GroupVersionKind go_type → list (GroupVersionKind * go_type);
  range_kinds_perm m : range_kinds m ≡ₚ map_to_list m
}.
Definition some_kind_order : KindOrder := {| range_kinds := map_to_list; range_kinds_perm m := reflexivity _ |}.

(** ** The sorter (knative.dev/pkg/reconciler/testing/sorter.go) *)

Section Sorter.
Context `{MapOrder} `{KindOrder}.

Definition emptyIndexer : threadSafeMap test_object := NewIndexer {[NamespaceIndex := MetaNamespaceIndexFunc]}.

Abbreviation ObjectSorter := (gmap go_type (threadSafeMap test_object)).

Definition NewObjectSorter (s : scheme) : ObjectSorter :=
  foldl (λ cache kt, <[kt.2 := emptyIndexer]> cache) ∅ (range_kinds (AllKnownTypes s)).

Fixpoint AddObjects (objs : list test_object) (o : ObjectSorter) : outcome ObjectSorter :=
  match objs with
  | [] => Ret o
  | obj :: objs =>
      match o !! TypeOf_Elem obj with
      | None => Panic "Unrecognized type %T"
      | Some indexer => AddObjects objs (<[TypeOf_Elem obj := cache_Add obj indexer]> o)
      end
  end.

(** The indexer of a type that is not there is the nil interface. *)
Definition ObjectsForScheme (s : scheme) (o : ObjectSorter) : outcome (list test_object) :=
  ls ← outcome_mapM (λ kt : GroupVersionKind * go_type,
         indexer ← nil_deref "indexer" (o !! kt.2); Ret (tsm_List indexer)) (range_kinds (AllKnownTypes s));
  Ret (concat ls).

Definition ObjectsForSchemeFunc (funcs : list registration) (o : ObjectSorter) : outcome (list test_object) :=
  match each_reg Must funcs NewScheme with
  | (s, Ret _) => ObjectsForScheme s o
  | (_, Fail e) => Fail e
  | (_, Panic m) => Panic m
  end.

Definition IndexerForObjectType (obj : test_object) (o : ObjectSorter) : outcome (threadSafeMap test_object) :=
  match o !! TypeOf_Elem obj with
  | None => Panic "indexer for type %v doesn't exist"
  | Some indexer => Ret indexer
  end.

(** ** The listers (listers.go) *)

Context (kube_AddToScheme : registration).

Definition clientSetSchemes : list registration := [networking_fake_AddToScheme; fake_AddToScheme; kube_AddToScheme].

(** Errors are dropped. *)
Fixpoint add_all (l : list registration) (s : scheme) : outcome scheme :=
  match l with
  | [] => Ret s
  | addTo :: l => match addTo s with (_, Panic m) => Panic m | (s, _) => add_all l s end
  end.
Definition test_NewScheme : outcome scheme := add_all clientSetSchemes NewScheme.

Record Listers := { sorter : ObjectSorter }.

Definition NewListers (objs : list test_object) : outcome Listers :=
  s ← test_NewScheme;
  o ← AddObjects objs (NewObjectSorter s);
  Ret {| sorter := o |}.

Definition IndexerFor (obj : test_object) (l : Listers) : outcome (threadSafeMap test_object) :=
  IndexerForObjectType obj (sorter l).

Definition GetNetworkingObjects (l : Listers) : outcome (list test_object) :=
  ObjectsForSchemeFunc [networking_fake_AddToScheme] (sorter l).
Definition GetContourObjects (l : Listers) : outcome (list test_object) :=
  ObjectsForSchemeFunc [fake_AddToScheme] (sorter l).
Definition GetKubeObjects (l : Listers) : outcome (list test_object) :=
  ObjectsForSchemeFunc [kube_AddToScheme] (sorter l).

(** The empty objects the getters ask with. *)
Definition no_meta : ObjectMeta := {| om_name := ""; om_namespace := ""; om_uid := ""; om_resource_version := "";
  om_generation := 0; om_labels := ∅; om_annotations := ∅; om_owners := [] |}.
Definition empty_Ingress : test_object := TIngress {| ing_meta := no_meta;
  ing_spec := {| is_tls := []; is_rules := []; is_http_option := "" |}; ing_status := empty_status |}.
Definition empty_HTTPProxy : test_object := THTTPProxy {| hp_meta := no_meta;
  hp_spec := {| hs_virtual_host := None; hs_routes := [] |}; hp_current_status := "" |}.
Definition empty_Service : test_object := TService {| sv_meta := no_meta; sv_cluster_ip := ""; sv_ports := [] |}.
Definition empty_Endpoints : test_object := TEndpoints {| en_meta := no_meta; en_subsets := [] |}.

Definition lister_for (obj : test_object) (resource : string) (l : Listers) : outcome (lister test_object) :=
  ix ← IndexerFor obj l; Ret {| ls_indexer := ix; ls_resource := resource |}.
Definition GetIngressLister : Listers → outcome (lister test_object) := lister_for empty_Ingress "ingress".
Definition GetHTTPProxyLister : Listers → outcome (lister test_object) := lister_for empty_HTTPProxy "httpproxy".
Definition GetK8sServiceLister : Listers → outcome (lister test_object) := lister_for empty_Service "service".
Definition GetEndpointsLister : Listers → outcome (lister test_object) := lister_for empty_Endpoints "endpoints".

(** ** What is where *)

(** The objects of a type, in order. *)
Definition of_type (t : go_type) (objs : list test_object) : list test_object :=
  filter (λ o, TypeOf_Elem o = t) objs.
Definition indexer_of (t : go_type) (objs : list test_object) : threadSafeMap test_object :=
  foldl cache_step emptyIndexer (EvAdd <$> of_type t objs).
(** The last one of each name. *)
Definition latest (t : go_type) (objs : list test_object) : gmap (string * string) test_object :=
  foldl put ∅ (of_type t objs).

Definition known (s : scheme) (t : go_type) : Prop := ∃ gvk, gvkToType s !! gvk = Some t.

Lemma NewObjectSorter_lookup s t :
  NewObjectSorter s !! t = Some emptyIndexer ∧ known s t ∨ NewObjectSorter s !! t = None ∧ ¬ known s t.
Proof.
  unfold NewObjectSorter, AllKnownTypes, known.
  assert (∀ (l : list (GroupVersionKind * go_type)) (o : ObjectSorter), (∃ k, (k, t) ∈ l) ∧ foldl (λ cache kt, <[kt.2 := emptyIndexer]> cache) o l !! t = Some emptyIndexer ∨
    (¬ ∃ k, (k, t) ∈ l) ∧ foldl (λ cache kt, <[kt.2 := emptyIndexer]> cache) o l !! t = o !! t) as Hgen.
  { induction l as [|[k t'] l IH]; intros o; simpl.
    - right. split; [|done]. by intros [k ?%elem_of_nil].
    - destruct (IH (<[t' := emptyIndexer]> o)) as [[[k' Hk] E]|[Hn E]].
      + left. split; [|done]. exists k'. by right.
      + rewrite E. destruct (decide (t' = t)) as [->|Hne].
        * left. rewrite lookup_insert_eq. split; [|done]. exists k. by left.
        * right. rewrite lookup_insert_ne by done. split; [|done].
          intros [k' [[= -> ->]|Hk]%elem_of_cons]; [done|]. apply Hn. by exists k'. }
  destruct (Hgen (range_kinds (gvkToType s)) ∅) as [[[k Hk] E]|[Hn E]]; [left|right]; (split; [exact E|]).
  - exists k. by rewrite range_kinds_perm, elem_of_map_to_list in Hk.
  - intros [k Hk]. apply Hn. exists k. by rewrite range_kinds_perm, elem_of_map_to_list.
Qed.

Lemma indexer_of_cons t obj objs (ix : threadSafeMap test_object) :
  foldl cache_step ix (EvAdd <$> of_type t (obj :: objs)) =
  foldl cache_step (if decide (TypeOf_Elem obj = t) then cache_Add obj ix else ix) (EvAdd <$> of_type t objs).
Proof. unfold of_type. rewrite filter_cons. by case_decide. Qed.

(** Every indexer has the objects of its type, in order. *)
Lemma AddObjects_spec objs (o : ObjectSorter) : (∀ obj, obj ∈ objs → is_Some (o !! TypeOf_Elem obj)) →
  ∃ o', AddObjects objs o = Ret o' ∧
    ∀ t, o' !! t = (λ ix, foldl cache_step ix (EvAdd <$> of_type t objs)) <$> o !! t.
Proof.
  revert o. induction objs as [|obj objs IH]; intros o Hk.
  { exists o. split; [done|]. intros t. simpl. by destruct (o !! t). }
  simpl. destruct (Hk obj) as [ix E]; [by left|]. rewrite E.
  destruct (IH (<[TypeOf_Elem obj := cache_Add obj ix]> o)) as (o' & -> & Ho').
  { intros obj' Hin. destruct (decide (TypeOf_Elem obj' = TypeOf_Elem obj)) as [->|];
      [by rewrite lookup_insert_eq|rewrite lookup_insert_ne by done]. apply Hk. by right. }
  exists o'. split; [done|]. intros t. rewrite Ho'.
  destruct (decide (TypeOf_Elem obj = t)) as [<-|Hne].
  - rewrite lookup_insert_eq, E. simpl. rewrite indexer_of_cons. by rewrite decide_True.
  - rewrite lookup_insert_ne by done. destruct (o !! t) as [ix'|]; [|done]. simpl.
    rewrite indexer_of_cons. by rewrite decide_False.
Qed.

Lemma of_type_namespaces t objs : Forall (λ o, legal_ns (GetNamespace o)) objs →
  Forall legal_event (EvAdd <$> of_type t objs).
Proof.
  rewrite Forall_forall. intros HF. apply Forall_fmap, Forall_forall. intros o [_ Ho]%list_elem_of_filter. by apply HF.
Qed.

Lemma latest_events t objs : latest t objs = foldl spec_step ∅ (EvAdd <$> of_type t objs).
Proof. unfold latest. generalize (∅ : gmap (string * string) test_object). induction (of_type t objs); intros m; simpl; auto. Qed.

Lemma latest_type t objs k o : latest t objs !! k = Some o → o ∈ objs ∧ TypeOf_Elem o = t ∧ k = (GetNamespace o, GetName o).
Proof.
  unfold latest.
  assert (∀ l (m : gmap (string * string) test_object), foldl put m l !! k = Some o →
    m !! k = Some o ∨ o ∈ l ∧ k = (GetNamespace o, GetName o)) as Hgen.
  { induction l as [|x l IH]; intros m; simpl; [by left|]. intros [E|[? ?]]%IH; [|right; split; [by right|done]].
    unfold put in E. apply lookup_insert_Some in E as [[<- <-]|[_ E]]; [right; split; [by left|done]|by left]. }
  intros [E|[Hin Ek]]%Hgen; [by rewrite lookup_empty in E|]. apply list_elem_of_filter in Hin as [? ?]. done.
Qed.

Lemma indexer_of_ok t objs : Forall (λ o, legal_ns (GetNamespace o)) objs →
  store_ok (indexer_of t objs) ∧ holds (items (indexer_of t objs)) (latest t objs).
Proof.
  intros Hns. rewrite latest_events.
  by destruct (cache_run_refines {[NamespaceIndex := MetaNamespaceIndexFunc]} (EvAdd <$> of_type t objs)
    (of_type_namespaces t objs Hns)) as (? & ? & _).
Qed.

Lemma elem_of_indexer t objs o : Forall (λ o, legal_ns (GetNamespace o)) objs →
  o ∈ tsm_List (indexer_of t objs) ↔ TypeOf_Elem o = t ∧ latest t objs !! (GetNamespace o, GetName o) = Some o.
Proof.
  intros Hns. destruct (indexer_of_ok t objs Hns) as [_ Hh]. unfold tsm_List.
  rewrite range_map_perm, (holds_objects _ _ Hh). unfold objects. rewrite list_elem_of_fmap. split.
  - intros ([k o'] & -> & E%elem_of_map_to_list). simpl in *. pose proof (latest_type _ _ _ _ E) as (_ & ? & ->). done.
  - intros [_ E]. exists ((GetNamespace o, GetName o), o). split; [done|]. by apply elem_of_map_to_list.
Qed.

Lemma NoDup_indexer t objs : Forall (λ o, legal_ns (GetNamespace o)) objs → NoDup (tsm_List (indexer_of t objs)).
Proof.
  intros Hns. destruct (indexer_of_ok t objs Hns) as [_ Hh]. unfold tsm_List.
  rewrite range_map_perm, (holds_objects _ _ Hh). unfold objects.
  apply NoDup_fmap_2_strong; [|apply NoDup_map_to_list].
  intros [k1 o1] [k2 o2] E1%elem_of_map_to_list E2%elem_of_map_to_list. simpl. intros ->.
  pose proof (latest_type _ _ _ _ E1) as (_ & _ & ->). by pose proof (latest_type _ _ _ _ E2) as (_ & _ & ->).
Qed.

(** A sorter that knows the types of [s] and was given the objects. *)
Definition sorts (s : scheme) (objs : list test_object) (o : ObjectSorter) : Prop :=
  ∀ t, known s t → o !! t = Some (indexer_of t objs).

Lemma outcome_mapM_all {A B} (f : A → outcome B) (g : A → B) l :
  (∀ x, x ∈ l → f x = Ret (g x)) → outcome_mapM f l = Ret (g <$> l).
Proof.
  intros Hf. apply outcome_mapM_ret. induction l as [|x l IH]; constructor; [apply Hf; by left|].
  apply IH. intros y Hy. apply Hf. by right.
Qed.

Lemma concat_fmap {A B} (f : A → list B) l : concat (f <$> l) = l ≫= f.
Proof. induction l as [|x l IH]; [done|]. change (f x ++ concat (f <$> l) = f x ++ (l ≫= f))%list. by rewrite IH. Qed.

Lemma ObjectsForScheme_spec s s1 objs o : sorts s objs o → gvkToType s1 ⊆ gvkToType s →
  (∀ k1 k2 t, gvkToType s1 !! k1 = Some t → gvkToType s1 !! k2 = Some t → k1 = k2) →
  Forall (λ o, legal_ns (GetNamespace o)) objs →
  ∃ l, ObjectsForScheme s1 o = Ret l ∧ NoDup l ∧ ∀ x, x ∈ l ↔
    known s1 (TypeOf_Elem x) ∧ latest (TypeOf_Elem x) objs !! (GetNamespace x, GetName x) = Some x.
Proof.
  intros Ho Hsub Hone Hns. unfold ObjectsForScheme, AllKnownTypes.
  assert (∀ kt, kt ∈ range_kinds (gvkToType s1) ↔ gvkToType s1 !! kt.1 = Some kt.2) as Hr.
  { intros [k t]. by rewrite range_kinds_perm, elem_of_map_to_list. }
  rewrite (outcome_mapM_all _ (λ kt, tsm_List (indexer_of kt.2 objs))).
  2: { intros [k t] E%Hr. simpl. rewrite (Ho t); [done|]. exists k. by eapply lookup_weaken. }
  simpl. eexists. split; [done|].
  rewrite concat_fmap. split.
  - apply NoDup_bind.
    + intros [k1 t1] [k2 t2] x E1%Hr E2%Hr. simpl in *. rewrite !elem_of_indexer by done.
      intros [<- _] [<- _]. f_equal. by eapply Hone.
    + intros [k t] _. by apply NoDup_indexer.
    + rewrite range_kinds_perm. apply NoDup_map_to_list.
  - intros x. rewrite list_elem_of_bind. split.
    + intros ([k t] & Hx & E%Hr). simpl in *. apply elem_of_indexer in Hx as [<- Hx]; [|done]. split; [exists k; exact E|done].
    + intros [[k E] Hx]. exists (k, TypeOf_Elem x). rewrite Hr. split; [|done]. by apply elem_of_indexer.
Qed.
End Sorter.

Definition contour_scheme : scheme := (each_reg Must [fake_AddToScheme] NewScheme).1.
Definition networking_scheme : scheme := (each_reg Must [networking_fake_AddToScheme] NewScheme).1.
Definition both_scheme : scheme := (each_reg id [networking_fake_AddToScheme; fake_AddToScheme] NewScheme).1.

Definition one_kind_each (s : scheme) : bool :=
  bool_decide (map_Forall (λ _ ks, length ks = 1) (typeToGVK s)).

Lemma one_kind s : scheme_ok s → one_kind_each s = true → ∀ k1 k2 t, gvkToType s !! k1 = Some t →
  gvkToType s !! k2 = Some t → k1 = k2.
Proof.
  unfold one_kind_each. rewrite bool_decide_eq_true. intros Hok Hall k1 k2 t H1%(so_kinds _ Hok) H2%(so_kinds _ Hok).
  unfold kinds_of in *. destruct (typeToGVK s !! t) as [ks|] eqn:E; [|by apply elem_of_nil in H1]. simpl in *.
  specialize (Hall t ks E). simpl in Hall.
  destruct ks as [|k [|? ?]]; [done| |done]. apply list_elem_of_singleton in H1 as ->. by apply list_elem_of_singleton in H2 as ->.
Qed.

Lemma run_ok r : composed r → (r NewScheme).2 = Ret () → scheme_ok (r NewScheme).1.
Proof.
  intros Hc Hr. apply reachable_ok. specialize (Hc NewScheme reach_new). destruct (r NewScheme) as [s o].
  simpl in Hr. subst o. exact Hc.
Qed.

Lemma composed_fake_AddToScheme : composed fake_AddToScheme.
Proof. apply composed_builder. intros r ->%list_elem_of_singleton. apply composed_contour. Qed.
Lemma composed_networking_fake_AddToScheme : composed networking_fake_AddToScheme.
Proof. apply composed_builder. intros r ->%list_elem_of_singleton. apply composed_networking. Qed.

Lemma both_scheme_ok : scheme_ok both_scheme.
Proof.
  apply run_ok; [|vm_compute; reflexivity]. apply composed_each.
  intros r [-> | ->%list_elem_of_singleton]%elem_of_cons;
    [apply composed_networking_fake_AddToScheme|apply composed_fake_AddToScheme].
Qed.
Lemma contour_scheme_ok : scheme_ok contour_scheme.
Proof.
  apply run_ok; [|vm_compute; reflexivity]. apply composed_each.
  intros r ->%list_elem_of_singleton. apply composed_Must, composed_fake_AddToScheme.
Qed.
Lemma networking_scheme_ok : scheme_ok networking_scheme.
Proof.
  apply run_ok; [|vm_compute; reflexivity]. apply composed_each.
  intros r ->%list_elem_of_singleton. apply composed_Must, composed_networking_fake_AddToScheme.
Qed.

Lemma add_all_app l l' s : (each_reg id l s).2 = Ret () →
  add_all (l ++ l')%list s = add_all l' (each_reg id l s).1.
Proof.
  revert s. induction l as [|r l IH]; intros s; [done|]. cbn [each_reg app add_all]. unfold then_reg, id.
  destruct (r s) as [s1 [[]|e|m]]; [apply IH|done..].
Qed.

Lemma both_scheme_covers : gvkToType contour_scheme ⊆ gvkToType both_scheme ∧
  gvkToType networking_scheme ⊆ gvkToType both_scheme.
Proof. split; refine (bool_decide_unpack _ _); vm_compute; exact I. Qed.

Lemma test_NewScheme_both kube : test_NewScheme kube = add_all [kube] both_scheme.
Proof.
  unfold test_NewScheme, clientSetSchemes. change [networking_fake_AddToScheme; fake_AddToScheme; kube]
    with ([networking_fake_AddToScheme; fake_AddToScheme] ++ [kube])%list.
  by rewrite add_all_app by (vm_compute; reflexivity).
Qed.
Lemma test_NewScheme_run kube : (kube both_scheme).2 = Ret () → test_NewScheme kube = Ret (kube both_scheme).1.
Proof.
  rewrite test_NewScheme_both. generalize both_scheme. intros b. cbn [add_all]. destruct (kube b) as [s r].
  cbn [fst snd]. by intros ->.
Qed.

Lemma test_NewScheme_extends kube s : keeps kube → test_NewScheme kube = Ret s →
  gvkToType contour_scheme ⊆ gvkToType s ∧ gvkToType networking_scheme ⊆ gvkToType s.
Proof.
  intros Hk. rewrite test_NewScheme_both.
  destruct both_scheme_covers as [Hc Hn]. pose proof (Hk both_scheme both_scheme_ok) as Hb.
  revert Hb Hc Hn. generalize both_scheme. intros b Hb Hc Hn. cbn [add_all].
  destruct (kube b) as [s1 [?|e|m]]; [..|done]; intros [= <-]; (split; [rewrite Hc|rewrite Hn]; apply Hb).
Qed.

Lemma ObjectsForSchemeFunc_run `{MapOrder} `{KindOrder} funcs o : (each_reg Must funcs NewScheme).2 = Ret () →
  ObjectsForSchemeFunc funcs o = ObjectsForScheme (each_reg Must funcs NewScheme).1 o.
Proof. unfold ObjectsForSchemeFunc. destruct (each_reg Must funcs NewScheme) as [s r]. cbn [fst snd]. by intros ->. Qed.

Lemma contour_one_kind : one_kind_each contour_scheme = true.
Proof. vm_compute. reflexivity. Qed.
Lemma networking_one_kind : one_kind_each networking_scheme = true.
Proof. vm_compute. reflexivity. Qed.

(** The objects of a fake: those of the types of its scheme, the last one of each name. *)
Definition objects_of (s1 : scheme) (objs l : list test_object) : Prop :=
  NoDup l ∧ ∀ x, x ∈ l ↔ known s1 (TypeOf_Elem x) ∧
    latest (TypeOf_Elem x) objs !! (GetNamespace x, GetName x) = Some x.

(** Sorting the objects of a test succeeds if their types are known.  Afterwards every lister
    answers [Get] like a map from namespace and name to the last such object of its type,
    and the fake clientsets are given exactly the same objects, each once. *)
Theorem NewListers_sorts `{MapOrder} `{KindOrder} kube s objs :
  keeps kube → test_NewScheme kube = Ret s → Forall (λ o, known s (TypeOf_Elem o)) objs →
  Forall (λ o, legal_ns (GetNamespace o)) objs →
  ∃ ls, NewListers kube objs = Ret ls ∧
    (∀ obj resource, known s (TypeOf_Elem obj) → ∃ l, lister_for obj resource ls = Ret l ∧
       ∀ ns name, legal_ns ns → namespace_Get (lister_in l ns) name =
         match latest (TypeOf_Elem obj) objs !! (ns, name) with
         | Some o => Ret o
         | None => Fail (NewNotFound resource name)
         end) ∧
    (∃ l, GetContourObjects ls = Ret l ∧ objects_of contour_scheme objs l) ∧
    (∃ l, GetNetworkingObjects ls = Ret l ∧ objects_of networking_scheme objs l).
Proof.
  intros Hk Hs Hknown Hns. pose proof (test_NewScheme_extends kube s Hk Hs) as [Hc Hn].
  destruct (AddObjects_spec objs (NewObjectSorter s)) as (o & Ho & Hl).
  { intros obj Hin. rewrite Forall_forall in Hknown.
    destruct (NewObjectSorter_lookup s (TypeOf_Elem obj)) as [[-> _]|[_ Hno]]; [by eexists|]. by destruct Hno; apply Hknown. }
  assert (sorts s objs o) as Hsort.
  { intros t Ht. rewrite Hl. destruct (NewObjectSorter_lookup s t) as [[-> _]|[_ Hno]]; [done|]. by destruct Hno. }
  exists {| sorter := o |}. split_and!.
  - unfold NewListers. by rewrite Hs; simpl; rewrite Ho.
  - intros obj resource Ht. unfold lister_for, IndexerFor, IndexerForObjectType. simpl. rewrite (Hsort _ Ht).
    eexists. split; [done|]. intros ns name Hnl. unfold namespace_Get, GetByKey. simpl.
    destruct (indexer_of_ok (TypeOf_Elem obj) objs Hns) as [_ Hh].
    change (ns +:+ "/" +:+ name) with (in_ns ns name). by rewrite (ho_lookup _ _ Hh).
  - unfold GetContourObjects. rewrite ObjectsForSchemeFunc_run by (vm_compute; reflexivity). fold contour_scheme.
    pose proof (one_kind _ contour_scheme_ok contour_one_kind) as Hone. revert Hc Hone. generalize contour_scheme.
    intros s1 Hc Hone. exact (ObjectsForScheme_spec s s1 objs o Hsort Hc Hone Hns).
  - unfold GetNetworkingObjects. rewrite ObjectsForSchemeFunc_run by (vm_compute; reflexivity). fold networking_scheme.
    pose proof (one_kind _ networking_scheme_ok networking_one_kind) as Hone. revert Hn Hone. generalize networking_scheme.
    intros s1 Hn Hone. exact (ObjectsForScheme_spec s s1 objs o Hsort Hn Hone Hns).
Qed.

(** ** A test *)

Definition core_types : registration :=
  AddKnownTypes {| gv_group := ""; gv_version := "v1" |} (ptr_to core_pkg <$> ["Service"; "Endpoints"]).

Definition named (ns name rv : string) : ObjectMeta := {| om_name := name; om_namespace := ns; om_uid := "";
  om_resource_version := rv; om_generation := 1; om_labels := ∅; om_annotations := ∅; om_owners := [] |}.
Definition a_proxy (rv : string) : test_object := THTTPProxy {| hp_meta := named "ns" "p" rv;
  hp_spec := {| hs_virtual_host := None; hs_routes := [] |}; hp_current_status := "" |}.
Definition table_objects : list test_object :=
  [a_proxy "1"; TService {| sv_meta := named "ns" "s" "1"; sv_cluster_ip := ""; sv_ports := [] |}; a_proxy "2"].

Definition table_scheme : scheme := (core_types both_scheme).1.
Lemma table_scheme_run : test_NewScheme core_types = Ret table_scheme.
Proof. apply test_NewScheme_run. vm_compute. reflexivity. Qed.

Lemma table_known : Forall (λ o, known table_scheme (TypeOf_Elem o)) table_objects.
Proof.
  assert (gvkToType table_scheme !! WithKind contour_GroupVersion "HTTPProxy" = Some (struct_type contour_pkg "HTTPProxy"))
    as Hp by (vm_compute; reflexivity).
  assert (gvkToType table_scheme !! WithKind Unversioned "Service" = Some (struct_type core_pkg "Service"))
    as Hs by (vm_compute; reflexivity).
  revert Hp Hs. generalize table_scheme. intros s Hp Hs. repeat constructor; [by eexists|by eexists|by eexists].
Defined.

Lemma NewListers_sorts_witness : ∃ ls l,
  @NewListers ascending_order some_kind_order core_types table_objects = Ret ls ∧ GetHTTPProxyLister ls = Ret l ∧
  namespace_Get (lister_in l "ns") "p" = Ret (a_proxy "2").
Proof.
  destruct (@NewListers_sorts ascending_order some_kind_order core_types table_scheme table_objects (keeps_AddKnownTypes _ _)
    table_scheme_run table_known) as (ls & Hls & Hl & _).
  - repeat (constructor; [by split|]). constructor.
  - destruct (Hl empty_HTTPProxy "httpproxy") as (l & Hll & Hg).
    + exact (Forall_inv table_known).
    + exists ls, l. split_and!; [exact Hls|exact Hll|]. rewrite Hg by (by split). vm_compute. reflexivity.
Defined.
