(* ===== verification/Informers.v ===== *)
(** * The generated informer factory (pkg/client/informers/externalversions)

    [sharedInformerFactory] as a state machine.  Its methods run under the factory's
    lock, so each critical section is one step; the goroutines it starts, and the
    callers blocked in [Shutdown], are part of the state.  Informers are pointers: a
    heap holds what each was created with.  A [reflect.Type] is the name of the type.
    The theorem is an invariant of all interleavings of calls and of goroutines that
    end. *)

From S2P Require Import Prelude Meta Labels HTTPProxy Client Listers.
Local Open Scope Z_scope.

Section Factory.
Context {TransformFunc : Type} `{MapOrder}.

(** ** Informers *)

(** A [TweakListOptionsFunc] changes the options it is given. *)
Definition TweakListOptionsFunc : Type := ListOptions → ListOptions.

(** [cache.NewSharedIndexInformer] with the arguments the generated code gives it: the
    list and watch functions are given by resource, namespace and tweak. *)
Record Informer := {
  in_type : string;
  in_resource : string;
  in_namespace : string;
  in_tweak : option TweakListOptionsFunc;
  in_resync : Z;
  in_indexers : gmap string IndexFunc;
  in_transform : option TransformFunc
}.

Definition SetTransform (t : option TransformFunc) (i : Informer) : Informer := {|
  in_type := in_type i; in_resource := in_resource i; in_namespace := in_namespace i;
  in_tweak := in_tweak i; in_resync := in_resync i; in_indexers := in_indexers i; in_transform := t
|}.

Definition tweaked (tweak : option TweakListOptionsFunc) (options : ListOptions) : ListOptions :=
  match tweak with Some t => t options | None => options end.

(** The informer's [ListFunc] and [WatchFunc]. *)
Definition ListFunc {O} (i : Informer) (options : ListOptions) : goerr + Request O :=
  typed_List (in_resource i) (in_namespace i) (tweaked (in_tweak i) options).
Definition WatchFunc {O} (i : Informer) (options : ListOptions) : goerr + Request O :=
  typed_Watch (in_resource i) (in_namespace i) (tweaked (in_tweak i) options).

Definition HTTPProxyType : string := "*v1.HTTPProxy".
Definition TLSCertificateDelegationType : string := "*v1.TLSCertificateDelegation".

Definition NewFilteredHTTPProxyInformer (namespace : string) (resyncPeriod : Z)
    (indexers : gmap string IndexFunc) (tweakListOptions : option TweakListOptionsFunc) : Informer := {|
  in_type := HTTPProxyType; in_resource := "httpproxies"; in_namespace := namespace;
  in_tweak := tweakListOptions; in_resync := resyncPeriod; in_indexers := indexers;
  in_transform := None
|}.

Definition NewFilteredTLSCertificateDelegationInformer (namespace : string) (resyncPeriod : Z)
    (indexers : gmap string IndexFunc) (tweakListOptions : option TweakListOptionsFunc) : Informer := {|
  in_type := TLSCertificateDelegationType; in_resource := "tlscertificatedelegations";
  in_namespace := namespace; in_tweak := tweakListOptions; in_resync := resyncPeriod;
  in_indexers := indexers; in_transform := None
|}.

Definition NewHTTPProxyInformer (namespace : string) (resyncPeriod : Z)
    (indexers : gmap string IndexFunc) : Informer :=
  NewFilteredHTTPProxyInformer namespace resyncPeriod indexers None.
Definition NewTLSCertificateDelegationInformer (namespace : string) (resyncPeriod : Z)
    (indexers : gmap string IndexFunc) : Informer :=
  NewFilteredTLSCertificateDelegationInformer namespace resyncPeriod indexers None.

(** ** The factory *)

Record sharedInformerFactory := {
  namespace : string;
  tweakListOptions : option TweakListOptionsFunc;
  defaultResync : Z;
  customResync : gmap string Z;
  transform : option TransformFunc;
  informers : gmap string nat;
  startedInformers : gset string;
  wg : Z;
  shuttingDown : bool
}.

(** Options, applied in order by the constructor.  The custom periods come in the order
    in which their map is ranged over; several objects may have the same type. *)
Inductive SharedInformerOption :=
  | WithCustomResyncConfig (resyncConfig : list (string * Z))
  | WithTweakListOptions (tweak : option TweakListOptionsFunc)
  | WithNamespace (ns : string)
  | WithTransform (t : option TransformFunc).

Definition apply_option (f : sharedInformerFactory) (o : SharedInformerOption) : sharedInformerFactory := {|
  namespace := match o with WithNamespace ns => ns | _ => namespace f end;
  tweakListOptions := match o with WithTweakListOptions t => t | _ => tweakListOptions f end;
  defaultResync := defaultResync f;
  customResync := match o with
                  | WithCustomResyncConfig l => foldl (λ m kv, <[kv.1 := kv.2]> m) (customResync f) l
                  | _ => customResync f
                  end;
  transform := match o with WithTransform t => t | _ => transform f end;
  informers := informers f; startedInformers := startedInformers f; wg := wg f;
  shuttingDown := shuttingDown f
|}.

Definition NewSharedInformerFactoryWithOptions (resync : Z) (options : list SharedInformerOption)
    : sharedInformerFactory :=
  foldl apply_option
    {| namespace := ""; tweakListOptions := None; defaultResync := resync; customResync := ∅;
       transform := None; informers := ∅; startedInformers := ∅; wg := 0; shuttingDown := false |}
    options.

Definition NewSharedInformerFactory (resync : Z) : sharedInformerFactory :=
  NewSharedInformerFactoryWithOptions resync [].
Definition NewFilteredSharedInformerFactory (resync : Z) (ns : string)
    (tweak : option TweakListOptionsFunc) : sharedInformerFactory :=
  NewSharedInformerFactoryWithOptions resync [WithNamespace ns; WithTweakListOptions tweak].

(** The factory with what it shares with other goroutines: the informers on the heap,
    the goroutines that are inside [informer.Run] with their stop channel, and the
    callers blocked in [Shutdown]; [spawned] lists the informers [Run] was called on, and
    [downs] counts the calls of [Shutdown] that have returned. *)
Record world := {
  factory : sharedInformerFactory;
  heap : list Informer;
  running : list (nat * string);
  spawned : list nat;
  blocked : nat;
  downs : nat
}.

Definition new_world (f : sharedInformerFactory) : world :=
  {| factory := f; heap := []; running := []; spawned := []; blocked := 0; downs := 0 |}.

Definition with_informers (m : gmap string nat) (f : sharedInformerFactory) : sharedInformerFactory := {|
  namespace := namespace f; tweakListOptions := tweakListOptions f; defaultResync := defaultResync f;
  customResync := customResync f; transform := transform f; informers := m;
  startedInformers := startedInformers f; wg := wg f; shuttingDown := shuttingDown f
|}.

Definition InformerFor (informerType : string) (newFunc : Z → Informer) (w : world) : world * nat :=
  let f := factory w in
  match informers f !! informerType with
  | Some informer => (w, informer)
  | None =>
      let resyncPeriod := default (defaultResync f) (customResync f !! informerType) in
      let informer := length (heap w) in
      ({| factory := with_informers (<[informerType := informer]> (informers f)) f;
          heap := heap w ++ [SetTransform (transform f) (newFunc resyncPeriod)];
          running := running w; spawned := spawned w; blocked := blocked w; downs := downs w |},
       informer)
  end.

(** One iteration of the loop of [Start]. *)
Definition start_one (stopCh : string) (w : world) (ti : string * nat) : world :=
  let f := factory w in
  if decide (ti.1 ∈ startedInformers f) then w
  else {| factory := {| namespace := namespace f; tweakListOptions := tweakListOptions f;
                        defaultResync := defaultResync f; customResync := customResync f;
                        transform := transform f; informers := informers f;
                        startedInformers := startedInformers f ∪ {[ti.1]};
                        wg := wg f + 1; shuttingDown := shuttingDown f |};
          heap := heap w; running := running w ++ [(ti.2, stopCh)];
          spawned := spawned w ++ [ti.2]; blocked := blocked w; downs := downs w |}.

Definition Start (stopCh : string) (w : world) : world :=
  if shuttingDown (factory w) then w
  else foldl (start_one stopCh) w (range_map (informers (factory w))).

(** A goroutine's [Run] returns, and its deferred [wg.Done] runs. *)
Definition run_returns (i : nat) (w : world) : world :=
  let f := factory w in
  {| factory := {| namespace := namespace f; tweakListOptions := tweakListOptions f;
                   defaultResync := defaultResync f; customResync := customResync f;
                   transform := transform f; informers := informers f;
                   startedInformers := startedInformers f; wg := wg f - 1;
                   shuttingDown := shuttingDown f |};
     heap := heap w; running := delete i (running w); spawned := spawned w; blocked := blocked w;
     downs := downs w |}.

(** [Shutdown] marks the factory, then waits for the group; it returns when it is empty. *)
Definition Shutdown_mark (w : world) : world :=
  let f := factory w in
  {| factory := {| namespace := namespace f; tweakListOptions := tweakListOptions f;
                   defaultResync := defaultResync f; customResync := customResync f;
                   transform := transform f; informers := informers f;
                   startedInformers := startedInformers f; wg := wg f; shuttingDown := true |};
     heap := heap w; running := running w; spawned := spawned w; blocked := S (blocked w);
     downs := downs w |}.

Definition Shutdown_returns (w : world) : world :=
  {| factory := factory w; heap := heap w; running := running w; spawned := spawned w;
     blocked := pred (blocked w); downs := S (downs w) |}.

(** [WaitForCacheSync]: the informers it waits for, then the answer of
    [cache.WaitForCacheSync] for each. *)
Definition synced_informers (w : world) : gmap string nat :=
  filter (λ ti, ti.1 ∈ startedInformers (factory w)) (informers (factory w)).
Definition WaitForCacheSync (hasSynced : nat → bool) (w : world) : gmap string bool :=
  hasSynced <$> synced_informers w.

(** ** Typed access: [f.Projectcontour().V1()] and [ForResource] *)

Record typedInformer := { ti_namespace : string; ti_tweak : option TweakListOptionsFunc }.

Definition Projectcontour_V1 (w : world) : typedInformer :=
  {| ti_namespace := namespace (factory w); ti_tweak := tweakListOptions (factory w) |}.

Definition namespace_indexers : gmap string IndexFunc := {[NamespaceIndex := MetaNamespaceIndexFunc]}.

Definition HTTPProxies_defaultInformer (t : typedInformer) (resyncPeriod : Z) : Informer :=
  NewFilteredHTTPProxyInformer (ti_namespace t) resyncPeriod namespace_indexers (ti_tweak t).
Definition HTTPProxies_Informer (t : typedInformer) : world → world * nat :=
  InformerFor HTTPProxyType (HTTPProxies_defaultInformer t).

Definition TLSCertificateDelegations_defaultInformer (t : typedInformer) (resyncPeriod : Z) : Informer :=
  NewFilteredTLSCertificateDelegationInformer (ti_namespace t) resyncPeriod namespace_indexers (ti_tweak t).
Definition TLSCertificateDelegations_Informer (t : typedInformer) : world → world * nat :=
  InformerFor TLSCertificateDelegationType (TLSCertificateDelegations_defaultInformer t).

Record GroupVersionResource := { gvr_group : string; gvr_version : string; gvr_resource : string }.
#[export] Instance GroupVersionResource_eq_dec : EqDecision GroupVersionResource.
Proof. solve_decision. Defined.

Definition WithResource (resource : string) : GroupVersionResource :=
  {| gvr_group := "projectcontour.io"; gvr_version := "v1"; gvr_resource := resource |}.

Record genericInformer := { gi_informer : nat; gi_group : string; gi_resource : string }.

Definition ForResource (r : GroupVersionResource) (w : world) : world * (goerr + genericInformer) :=
  if decide (r = WithResource "httpproxies") then
    let '(w, i) := HTTPProxies_Informer (Projectcontour_V1 w) w in
    (w, inr {| gi_informer := i; gi_group := gvr_group r; gi_resource := gvr_resource r |})
  else if decide (r = WithResource "tlscertificatedelegations") then
    let '(w, i) := TLSCertificateDelegations_Informer (Projectcontour_V1 w) w in
    (w, inr {| gi_informer := i; gi_group := gvr_group r; gi_resource := gvr_resource r |})
  else (w, inl (Errorf "no informer found for %v" [gvr_group r; gvr_version r; gvr_resource r])).

(** The listers, over the caches [GetIndexer] gives for the informers. *)
Definition HTTPProxies_Lister (GetIndexer : nat → threadSafeMap HTTPProxy) (t : typedInformer)
    (w : world) : world * lister HTTPProxy :=
  let '(w, i) := HTTPProxies_Informer t w in (w, NewHTTPProxyLister (GetIndexer i)).
Definition TLSCertificateDelegations_Lister
    (GetIndexer : nat → threadSafeMap TLSCertificateDelegation) (t : typedInformer)
    (w : world) : world * lister TLSCertificateDelegation :=
  let '(w, i) := TLSCertificateDelegations_Informer t w in
  (w, NewTLSCertificateDelegationLister (GetIndexer i)).

(** ** Steps *)

Inductive step : world → world → Prop :=
  | StepHTTPProxies w : step w (HTTPProxies_Informer (Projectcontour_V1 w) w).1
  | StepTLSCertificateDelegations w :
      step w (TLSCertificateDelegations_Informer (Projectcontour_V1 w) w).1
  | StepForResource r w : step w (ForResource r w).1
  | StepStart stopCh w : step w (Start stopCh w)
  | StepRunReturns i w : (i < length (running w))%nat → step w (run_returns i w)
  | StepShutdownMark w : step w (Shutdown_mark w)
  | StepShutdownReturns w : (0 < blocked w)%nat → wg (factory w) = 0 → step w (Shutdown_returns w).

(** ** The invariant *)

(** The settings of a factory, which no step changes. *)
Definition settings (f : sharedInformerFactory) :=
  (namespace f, tweakListOptions f, defaultResync f, customResync f, transform f).

(** The informer a type must have: of its resource, in the namespace of the factory and
    with its tweak, the custom period of the type if there is one, and indexed by namespace. *)
Definition expected (f : sharedInformerFactory) (t : string) : option Informer :=
  let resync := default (defaultResync f) (customResync f !! t) in
  if String.eqb t HTTPProxyType then
    Some {| in_type := t; in_resource := "httpproxies"; in_namespace := namespace f;
            in_tweak := tweakListOptions f; in_resync := resync;
            in_indexers := namespace_indexers; in_transform := transform f |}
  else if String.eqb t TLSCertificateDelegationType then
    Some {| in_type := t; in_resource := "tlscertificatedelegations"; in_namespace := namespace f;
            in_tweak := tweakListOptions f; in_resync := resync;
            in_indexers := namespace_indexers; in_transform := transform f |}
  else None.

Record inv (f0 : sharedInformerFactory) (w : world) : Prop := {
  iv_settings : settings (factory w) = settings f0;
  iv_informers t p : informers (factory w) !! t = Some p →
    is_Some (expected f0 t) ∧ heap w !! p = expected f0 t;
  iv_started t : t ∈ startedInformers (factory w) → is_Some (informers (factory w) !! t);
  iv_spawned p : p ∈ spawned w ↔
    ∃ t, t ∈ startedInformers (factory w) ∧ informers (factory w) !! t = Some p;
  iv_once : NoDup (spawned w);
  iv_running : (running w).*1 `sublist_of` spawned w;
  iv_wg : wg (factory w) = Z.of_nat (length (running w));
  iv_down : (0 < blocked w + downs w)%nat → shuttingDown (factory w) = true;
  iv_quiet : (0 < downs w)%nat → running w = []
}.

Lemma settings_options resync options :
  let f := NewSharedInformerFactoryWithOptions resync options in
  informers f = ∅ ∧ startedInformers f = ∅ ∧ wg f = 0.
Proof.
  unfold NewSharedInformerFactoryWithOptions. set (f0 := Build_sharedInformerFactory _ _ _ _ _ _ _ _ _).
  assert (∀ f, informers f = ∅ ∧ startedInformers f = ∅ ∧ wg f = 0 →
    let f' := foldl apply_option f options in
    informers f' = ∅ ∧ startedInformers f' = ∅ ∧ wg f' = 0) as Hgen; [|by apply Hgen].
  induction options as [|o options IH]; intros f Hf; [done|]. by apply IH.
Qed.

Lemma inv_new resync options :
  inv (NewSharedInformerFactoryWithOptions resync options)
    (new_world (NewSharedInformerFactoryWithOptions resync options)).
Proof.
  destruct (settings_options resync options) as (Hi & Hs & Hw).
  split; simpl; [done| | | |constructor|constructor|done|lia|lia].
  - intros t p. by rewrite Hi.
  - intros t. rewrite Hs. set_solver.
  - intros p. rewrite Hs. set_solver.
Qed.

(** Different types have different informers. *)
Lemma expected_type f t i : expected f t = Some i → in_type i = t.
Proof. unfold expected. repeat case_match; naive_solver. Qed.

Lemma inv_types_inj f0 w t1 t2 p :
  inv f0 w → informers (factory w) !! t1 = Some p → informers (factory w) !! t2 = Some p → t1 = t2.
Proof.
  intros Hi [[i1 E1] H1]%(iv_informers _ _ Hi) [[i2 E2] H2]%(iv_informers _ _ Hi).
  rewrite H1, E1, E2 in H2. injection H2 as ->.
  by rewrite <-(expected_type _ _ _ E1), <-(expected_type _ _ _ E2).
Qed.

(** What a step keeps: informers stay where they are, calls of [Run] are never undone, and
    once a [Shutdown] has returned nothing is started. *)
Record grows (w w' : world) : Prop := {
  gr_informers : informers (factory w) ⊆ informers (factory w');
  gr_heap : heap w `prefix_of` heap w';
  gr_spawned : spawned w `prefix_of` spawned w';
  gr_downs : (downs w ≤ downs w')%nat;
  gr_quiet : (0 < downs w)%nat → spawned w' = spawned w
}.

Lemma grows_refl w : grows w w.
Proof. by split. Qed.

Lemma grows_trans w1 w2 w3 : grows w1 w2 → grows w2 w3 → grows w1 w3.
Proof.
  intros [] []. split; [by etrans|by etrans|by etrans|lia|].
  intros Hd. rewrite gr_quiet1 by lia. auto.
Qed.

Lemma InformerFor_inv f0 w t newFunc :
  inv f0 w →
  (∀ r, r = default (defaultResync f0) (customResync f0 !! t) →
    expected f0 t = Some (SetTransform (transform f0) (newFunc r))) →
  inv f0 (InformerFor t newFunc w).1 ∧ grows w (InformerFor t newFunc w).1.
Proof.
  intros Hi Hnew. unfold InformerFor. destruct (informers (factory w) !! t) as [p|] eqn:E.
  { split; [done|apply grows_refl]. }
  pose proof (iv_settings _ _ Hi) as Hs. injection Hs as Hn Ht Hd Hc Htr.
  assert (∀ t' p, informers (factory w) !! t' = Some p → (p < length (heap w))%nat) as Hlt.
  { intros t' p [[i Hi'] Hh]%(iv_informers _ _ Hi). apply lookup_lt_is_Some. rewrite Hh. by eexists. }
  split; [destruct Hi; split|split]; simpl; try done.
  - intros t' p [[<- <-]|[Hne Hp]]%lookup_insert_Some.
    + rewrite Hd, Hc, Htr. rewrite (Hnew _ eq_refl). split; [by eexists|].
      by rewrite lookup_app_r, Nat.sub_diag by lia.
    + specialize (iv_informers0 _ _ Hp) as [? Hh]. split; [done|].
      rewrite lookup_app_l by eauto. done.
  - intros t' Ht'. destruct (decide (t' = t)) as [->|]; [rewrite lookup_insert_eq; by eexists|].
    rewrite lookup_insert_ne by done. by apply iv_started0.
  - intros p. rewrite iv_spawned0. f_equiv; intros t'. split; intros [Hst Hp]; (split; [done|]).
    + rewrite lookup_insert_ne; [done|]. by intros <-; rewrite E in Hp.
    + apply lookup_insert_Some in Hp as [[<- <-]|[_ Hp]]; [|done].
      destruct (iv_started0 _ Hst) as [? Hst']. by rewrite E in Hst'.
  - by apply insert_subseteq.
  - by apply prefix_app_r.
Qed.

Lemma start_one_inv f0 stopCh w t p :
  inv f0 w → informers (factory w) !! t = Some p → shuttingDown (factory w) = false →
  inv f0 (start_one stopCh w (t, p)) ∧ grows w (start_one stopCh w (t, p)) ∧
  informers (factory (start_one stopCh w (t, p))) = informers (factory w) ∧
  startedInformers (factory (start_one stopCh w (t, p))) = startedInformers (factory w) ∪ {[t]} ∧
  shuttingDown (factory (start_one stopCh w (t, p))) = false.
Proof.
  intros Hi Hp Hsd. unfold start_one. case_decide as Hst; simpl in Hst |- *.
  { split; [done|]. split; [apply grows_refl|]. split_and!; [done|set_solver|done]. }
  assert (¬ (0 < blocked w + downs w)%nat) as Hno by (intros ?%(iv_down _ _ Hi); congruence).
  assert (p ∉ spawned w) as Hnew.
  { intros (t' & Ht' & Hp')%(iv_spawned _ _ Hi).
    by rewrite (inv_types_inj _ _ _ _ _ Hi Hp Hp') in Hst. }
  split; [|split; [|done]].
  - destruct Hi; split; simpl; try done; try lia.
    + intros t' [?| ->%elem_of_singleton]%elem_of_union; [auto|by eexists].
    + intros p'. rewrite elem_of_app, list_elem_of_singleton, iv_spawned0. split.
      * intros [(t' & ? & ?)| ->]; [exists t'|exists t]; set_solver.
      * intros (t' & [?| ->%elem_of_singleton]%elem_of_union & ?); [naive_solver|]. right. congruence.
    + apply NoDup_app. split; [done|]. split; [set_solver|apply NoDup_singleton].
    + rewrite fmap_app. by apply sublist_app.
    + rewrite length_app. simpl. lia.
  - split; simpl; try done; [by apply prefix_app_r|lia].
Qed.

Lemma Start_inv f0 stopCh w :
  inv f0 w →
  inv f0 (Start stopCh w) ∧ grows w (Start stopCh w) ∧
  informers (factory (Start stopCh w)) = informers (factory w) ∧
  (shuttingDown (factory w) = false →
   ∀ t, is_Some (informers (factory w) !! t) → t ∈ startedInformers (factory (Start stopCh w))).
Proof.
  intros Hi. unfold Start. destruct (shuttingDown (factory w)) eqn:Hsd.
  { split_and!; [done|apply grows_refl|done|done]. }
  set (m := informers (factory w)).
  assert (∀ l w', inv f0 w' → grows w w' → informers (factory w') = m →
    shuttingDown (factory w') = false → (∀ t p, (t, p) ∈ l → m !! t = Some p) →
    let w'' := foldl (start_one stopCh) w' l in
    inv f0 w'' ∧ grows w w'' ∧ informers (factory w'') = m ∧
    ∀ t, t ∈ startedInformers (factory w') ∨ t ∈ l.*1 → t ∈ startedInformers (factory w'')) as Hgen.
  { clear Hi Hsd. induction l as [|[t p] l IH]; intros w' Hi Hg Hm Hsd Hl.
    { simpl. split_and!; [done..|]. set_solver. }
    destruct (start_one_inv f0 stopCh w' t p) as (Hi' & Hg' & Hm' & Hst & Hsd'); [done| |done|].
    { rewrite Hm. apply Hl. by left. }
    destruct (IH (start_one stopCh w' (t, p))) as (? & ? & ? & Hall);
      [done|by eapply grows_trans|by rewrite Hm'|done|intros ? ? ?; apply Hl; by right|].
    cbn [foldl]. split_and!; [done..|]. intros t' Ht'. apply Hall. rewrite Hst. set_solver. }
  destruct (Hgen (range_map m) w Hi (grows_refl w) eq_refl Hsd) as (? & ? & ? & Hall).
  { intros t p. apply elem_of_range_map. }
  split_and!; [done..|]. intros _ t [p Hp]. apply Hall. right.
  apply list_elem_of_fmap. exists (t, p). split; [done|]. by apply elem_of_range_map.
Qed.

Lemma HTTPProxies_Informer_inv f0 w :
  inv f0 w → let w' := (HTTPProxies_Informer (Projectcontour_V1 w) w).1 in inv f0 w' ∧ grows w w'.
Proof.
  intros Hi. apply InformerFor_inv; [done|]. intros r ->.
  pose proof (iv_settings _ _ Hi) as Hs. injection Hs as Hn Ht _ _ _.
  unfold HTTPProxies_defaultInformer, Projectcontour_V1. simpl. by rewrite Hn, Ht.
Qed.

Lemma TLSCertificateDelegations_Informer_inv f0 w :
  inv f0 w →
  let w' := (TLSCertificateDelegations_Informer (Projectcontour_V1 w) w).1 in inv f0 w' ∧ grows w w'.
Proof.
  intros Hi. apply InformerFor_inv; [done|]. intros r ->.
  pose proof (iv_settings _ _ Hi) as Hs. injection Hs as Hn Ht _ _ _.
  unfold TLSCertificateDelegations_defaultInformer, Projectcontour_V1. simpl. by rewrite Hn, Ht.
Qed.

Lemma step_inv f0 w w' : inv f0 w → step w w' → inv f0 w' ∧ grows w w'.
Proof.
  intros Hi Hs. destruct Hs as [w|w|r w|ch w|i w Hlt|w|w Hb Hw].
  - by apply HTTPProxies_Informer_inv.
  - by apply TLSCertificateDelegations_Informer_inv.
  - unfold ForResource. destruct (decide _); [|destruct (decide _)].
    + pose proof (HTTPProxies_Informer_inv f0 w Hi) as Hh. by destruct (HTTPProxies_Informer _ _).
    + pose proof (TLSCertificateDelegations_Informer_inv f0 w Hi) as Hh.
      by destruct (TLSCertificateDelegations_Informer _ _).
    + split; [done|apply grows_refl].
  - destruct (Start_inv f0 ch w Hi) as (? & ? & _). done.
  - split; [destruct Hi; split|split]; simpl; try done.
    + etrans; [|done]. apply fmap_sublist, sublist_delete.
    + rewrite iv_wg0, length_delete by (by apply lookup_lt_is_Some). lia.
    + intros Hd. by rewrite iv_quiet0.
  - split; [destruct Hi; split|split]; simpl; done.
  - split; [destruct Hi; split|split]; simpl; try done; try lia.
    + intros _. apply iv_down0. lia.
    + intros _. rewrite iv_wg0 in Hw. destruct (running w); [done|]. simpl in Hw. lia.
Qed.

Lemma steps_inv f0 w w' : inv f0 w → rtc step w w' → inv f0 w' ∧ grows w w'.
Proof.
  intros Hi Hs. induction Hs as [w|w w1 w2 H1 Hs IH]; [split; [done|apply grows_refl]|].
  destruct (step_inv f0 w w1 Hi H1) as [Hi1 Hg1]. destruct (IH Hi1) as [Hi2 Hg2].
  split; [done|by eapply grows_trans].
Qed.
End Factory.

(** C34: However calls and goroutines interleave, the factory shares informers and stops
    cleanly.  A type keeps the one informer it was first given, made for the factory's
    namespace, tweak and resync period and indexed by namespace; [Run] is called at most
    once on an informer; the wait group counts exactly the goroutines in [Run]; after a
    [Start] that is not refused, [WaitForCacheSync] covers every informer; and once a
    [Shutdown] has returned, no goroutine runs and none is ever started again. *)
Theorem factory_safe {TransformFunc} `{MapOrder} resync (options : list SharedInformerOption)
    (w w' : world (TransformFunc := TransformFunc)) :
  let f0 := NewSharedInformerFactoryWithOptions resync options in
  rtc step (new_world f0) w → rtc step w w' →
  (∀ t p, informers (factory w) !! t = Some p →
    informers (factory w') !! t = Some p ∧ is_Some (expected f0 t) ∧ heap w' !! p = expected f0 t) ∧
  NoDup (spawned w') ∧ spawned w `prefix_of` spawned w' ∧
  wg (factory w') = Z.of_nat (length (running w')) ∧ NoDup (running w').*1 ∧
  (∀ stopCh hasSynced, shuttingDown (factory w') = false →
    dom (WaitForCacheSync hasSynced (Start stopCh w')) = dom (informers (factory w'))) ∧
  ((0 < downs w)%nat → running w' = [] ∧ spawned w' = spawned w).
Proof.
  intros f0 Hs Hs'.
  destruct (steps_inv f0 _ _ (inv_new resync options) Hs) as [Hi _].
  destruct (steps_inv f0 _ _ Hi Hs') as [Hi' Hg]. split_and!.
  - intros t p Hp. pose proof (lookup_weaken _ _ _ _ Hp (gr_informers _ _ Hg)) as Hp'.
    split; [done|]. by apply (iv_informers _ _ Hi').
  - apply Hi'.
  - apply Hg.
  - apply Hi'.
  - eapply sublist_NoDup; [apply (iv_once _ _ Hi')|apply Hi'].
  - intros ch hs Hsd. unfold WaitForCacheSync, synced_informers. rewrite dom_fmap_L.
    destruct (Start_inv f0 ch w' Hi') as (_ & _ & -> & Hall). apply set_eq. intros t.
    rewrite !elem_of_dom. split.
    + intros [p [Hp _]%map_lookup_filter_Some]. by eexists.
    + intros [p Hp]. exists p. apply map_lookup_filter_Some. split; [done|]. apply Hall; eauto.
  - intros Hd. split; [|by apply Hg]. apply (iv_quiet _ _ Hi').
    pose proof (gr_downs _ _ Hg). lia.
Qed.

(** A run: two informers, two calls of [Start], the goroutines end, [Shutdown] returns, and
    a last [Start] does nothing. *)
Section Witness.
#[local] Existing Instance ascending_order.
Definition sample_factory : sharedInformerFactory (TransformFunc := nat) :=
  NewSharedInformerFactoryWithOptions 10 [WithNamespace "default"].
Definition sample_w1 :=
  Start "stop" (HTTPProxies_Informer (Projectcontour_V1 (new_world sample_factory))
                  (new_world sample_factory)).1.
Definition sample_w2 :=
  Start "stop" (ForResource (WithResource "tlscertificatedelegations") sample_w1).1.
Definition sample_w3 :=
  Shutdown_returns (run_returns 0 (run_returns 0 (Shutdown_mark sample_w2))).

Lemma factory_safe_witness :
  spawned sample_w3 = [0; 1]%nat ∧ running (Start "late" sample_w3) = [] ∧
  spawned (Start "late" sample_w3) = spawned sample_w3.
Proof.
  split; [reflexivity|].
  apply (factory_safe 10 [WithNamespace "default"] sample_w3 (Start "late" sample_w3)).
  - eapply rtc_l; [apply StepHTTPProxies|]. eapply rtc_l; [apply (StepStart "stop")|].
    eapply rtc_l; [apply (StepForResource (WithResource "tlscertificatedelegations"))|].
    eapply rtc_l; [apply (StepStart "stop")|]. eapply rtc_l; [apply StepShutdownMark|].
    eapply rtc_l; [apply (StepRunReturns 0); vm_compute; lia|].
    eapply rtc_l; [apply (StepRunReturns 0); vm_compute; lia|].
    eapply rtc_l; [apply StepShutdownReturns; [vm_compute; lia|reflexivity]|]. apply rtc_refl.
  - eapply rtc_l; [apply (StepStart "late")|apply rtc_refl].
  - vm_compute. lia.
Defined.
End Witness.
