(* ===== verification/Injection.v ===== *)
(** * Dependency injection (pkg/client/injection)

    How the process gets its clients, informer factories and informers: every package
    under pkg/client/injection registers an injector when it is linked, and
    knative.dev/pkg/injection runs them at start-up, each putting what it makes on the
    context, from which [NewController] takes it.  The packages for the two types are the
    same code, and so are those for the real and the fake client.

    Clientsets come from [Clientset], fakes from [Fake], informer factories from
    [Informers]; factories and fakes are pointers, so the state holds them on heaps.  A
    missing value is a panic, as [logging.FromContext(ctx).Panic] is.

    [SetupInformers_provides] says what a context holds after start-up. *)

From S2P Require Import Prelude Meta Labels Ingress HTTPProxy Events Client Clientset Listers Informers Fake.
From Stdlib Require Import QArith.
Local Open Scope Z_scope.

(** The two types of the group. *)
Inductive resource_kind := RHTTPProxy | RTLSCertificateDelegation.
#[export] Instance resource_kind_eq_dec : EqDecision resource_kind.
Proof. solve_decision. Defined.

(** The keys of the context: those of the framework, and one [Key] type per package. *)
Inductive ctx_key :=
  | ConfigKey
  | NamespaceKey
  | ResyncPeriodKey
  | LabelKey
  | ClientKey
  | FactoryKey
  | FilteredFactoryKey (selector : string)
  | InformerKey (r : resource_kind)
  | FilteredInformerKey (r : resource_kind) (selector : string).
#[export] Instance ctx_key_eq_dec : EqDecision ctx_key.
Proof. solve_decision. Defined.

Section Injection.
Context {TransformFunc HTTPClient : Type} `{!MapOrder, !KeyOrder}.
Context (DefaultKubernetesUserAgent : string).
Context (HTTPClientFor : RestConfig → goerr + HTTPClient).
Context (url_Parse : string → goerr + Url).
Context (patched_HTTPProxy : string → string → HTTPProxy → goerr + HTTPProxy).
Context (patched_TLSCertificateDelegation :
  string → string → TLSCertificateDelegation → goerr + TLSCertificateDelegation).

(** [versioned.Interface]: a clientset, or a pointer to a fake one. *)
Inductive client_ref := RealClient (cs : Clientset (HTTPClient := HTTPClient)) | FakeClient (i : nat).

(** What [f.Projectcontour().V1().HTTPProxies()] returns: the factory, the namespace and
    the tweak. *)
Record informer_ref := {
  ir_kind : resource_kind;
  ir_factory : nat;
  ir_typed : typedInformer
}.

Inductive ctx_value :=
  | VConfig (c : RestConfig)
  | VString (s : string)
  | VDuration (d : Z)
  | VSelectors (l : list string)
  | VClient (c : client_ref)
  | VFactory (f : nat)
  | VInformer (i : informer_ref).

Definition context : Type := list (ctx_key * ctx_value).
Definition WithValue (k : ctx_key) (v : ctx_value) (ctx : context) : context := (k, v) :: ctx.
Fixpoint Value (ctx : context) (k : ctx_key) : option ctx_value :=
  match ctx with
  | [] => None
  | (k', v) :: ctx => if decide (k' = k) then Some v else Value ctx k
  end.

(** A factory: its client, how it was made, and what became of it. *)
Record factory_object := {
  sf_client : client_ref;
  sf_made : sharedInformerFactory (TransformFunc := TransformFunc);
  sf_world : world (TransformFunc := TransformFunc)
}.

Record process := {
  ps_buckets : list bucket;
  ps_fakes : list Fake;
  ps_factories : list factory_object
}.

(** Injectors change the state and may panic. *)
Definition inj (A : Type) : Type := process → process * outcome A.
#[local] Instance inj_ret : MRet inj := λ A a s, (s, Ret a).
#[local] Instance inj_bind : MBind inj := λ A B k m s,
  match m s with
  | (s, Ret a) => k a s
  | (s, Fail e) => (s, Fail e)
  | (s, Panic e) => (s, Panic e)
  end.
Definition inj_of {A} (r : outcome A) : inj A := λ s, (s, r).

(** ** The framework's context (injection/context.go, controller.go) *)

Definition WithConfig (cfg : RestConfig) : context → context := WithValue ConfigKey (VConfig cfg).
Definition GetConfig (ctx : context) : option RestConfig :=
  match Value ctx ConfigKey with Some (VConfig c) => Some c | _ => None end.
Definition WithNamespaceScope (ns : string) : context → context := WithValue NamespaceKey (VString ns).
Definition GetNamespaceScope (ctx : context) : string :=
  match Value ctx NamespaceKey with Some (VString ns) => ns | _ => "" end.
Definition HasNamespaceScope (ctx : context) : bool := negb (String.eqb (GetNamespaceScope ctx) "").
Definition DefaultResyncPeriod : Z := 10 * 3600 * 1000000000.
Definition GetResyncPeriod (ctx : context) : Z :=
  match Value ctx ResyncPeriodKey with Some (VDuration d) => d | _ => DefaultResyncPeriod end.
Definition GetTrackerLease (ctx : context) : Z := 3 * GetResyncPeriod ctx.

(** ** injection/client/client.go and its fake *)

Definition client_Get (ctx : context) : outcome client_ref :=
  match Value ctx ClientKey with
  | Some (VClient c) => Ret c
  | _ =>
      match GetConfig ctx with
      | None => Panic "Unable to fetch knative.dev/net-contour/pkg/client/clientset/versioned.Interface from context. This context is not the application context (which is typically given to constructors via sharedmain)."
      | Some _ => Panic "Unable to fetch knative.dev/net-contour/pkg/client/clientset/versioned.Interface from context."
      end
  end.

Definition withClientFromConfig (ctx : context) (cfg : RestConfig) : inj context := λ s,
  let '(b, r) := NewForConfigOrDie DefaultKubernetesUserAgent HTTPClientFor url_Parse cfg (ps_buckets s) in
  ({| ps_buckets := b; ps_fakes := ps_fakes s; ps_factories := ps_factories s |},
   (λ cs, WithValue ClientKey (VClient (RealClient cs)) ctx) <$> r).

(** [With] of the fake: a new clientset with the given objects. *)
Definition fake_With (ctx : context) (objs : list runtime_object) : inj (context * nat) := λ s,
  match NewSimpleClientset patched_HTTPProxy patched_TLSCertificateDelegation objs with
  | Ret cs =>
      let i := length (ps_fakes s) in
      ({| ps_buckets := ps_buckets s; ps_fakes := ps_fakes s ++ [cs]; ps_factories := ps_factories s |},
       Ret (WithValue ClientKey (VClient (FakeClient i)) ctx, i))
  | Fail e => (s, Fail e)
  | Panic m => (s, Panic m)
  end.
Definition fake_withClient (ctx : context) (cfg : RestConfig) : inj context :=
  '(ctx, _) ← fake_With ctx []; mret ctx.

(** The fake's [Get] asserts the client to be a fake. *)
Definition fake_client_Get (ctx : context) : outcome client_ref :=
  match Value ctx ClientKey with
  | Some (VClient (FakeClient i)) => Ret (FakeClient i)
  | Some (VClient (RealClient _)) => Panic "interface conversion"
  | _ => Panic "Unable to fetch knative.dev/net-contour/pkg/client/clientset/versioned/fake.Clientset from context."
  end.

(** ** injection/informers/factory *)

Definition scope_options (ctx : context) : list (SharedInformerOption (TransformFunc := TransformFunc)) :=
  if HasNamespaceScope ctx then [WithNamespace (GetNamespaceScope ctx)] else [].

Definition make_factory (c : client_ref) (ctx : context)
    (opts : list (SharedInformerOption (TransformFunc := TransformFunc))) : inj nat := λ s,
  let f := NewSharedInformerFactoryWithOptions (GetResyncPeriod ctx) opts in
  ({| ps_buckets := ps_buckets s; ps_fakes := ps_fakes s;
      ps_factories := ps_factories s ++ [{| sf_client := c; sf_made := f; sf_world := new_world f |}] |},
   Ret (length (ps_factories s))).

(** Both variants, which differ in how they get the client. *)
Definition with_factory (getc : context → outcome client_ref) (ctx : context) : inj context :=
  c ← inj_of (getc ctx);
  f ← make_factory c ctx (scope_options ctx);
  mret (WithValue FactoryKey (VFactory f) ctx).
Definition withInformerFactory : context → inj context := with_factory client_Get.
Definition fake_withInformerFactory : context → inj context := with_factory fake_client_Get.

Definition factory_Get (ctx : context) : outcome nat :=
  match Value ctx FactoryKey with
  | Some (VFactory f) => Ret f
  | _ => Panic "Unable to fetch knative.dev/net-contour/pkg/client/informers/externalversions.SharedInformerFactory from context."
  end.

(** ** injection/informers/factory/filtered *)

Definition WithSelectors (selectors : list string) : context → context :=
  WithValue LabelKey (VSelectors selectors).

Definition label_selectors (ctx : context) : outcome (list string) :=
  match Value ctx LabelKey with
  | Some (VSelectors l) => Ret l
  | _ => Panic "Unable to fetch labelkey from context."
  end.

(** The tweak sets the label selector of every list and watch. *)
Definition select_tweak (selector : string) : TweakListOptionsFunc := λ l,
  {| lo_LabelSelector := selector; lo_Watch := lo_Watch l;
     lo_TimeoutSeconds := lo_TimeoutSeconds l; lo_others := lo_others l |}.

Fixpoint filtered_factories (c : client_ref) (selectors : list string) (ctx : context) : inj context :=
  match selectors with
  | [] => mret ctx
  | selector :: selectors =>
      f ← make_factory c ctx (scope_options ctx ++ [WithTweakListOptions (Some (select_tweak selector))]);
      filtered_factories c selectors (WithValue (FilteredFactoryKey selector) (VFactory f) ctx)
  end.

Definition with_filtered_factories (getc : context → outcome client_ref) (ctx : context) : inj context :=
  c ← inj_of (getc ctx);
  labelSelectors ← inj_of (label_selectors ctx);
  filtered_factories c labelSelectors ctx.

Definition filtered_withInformerFactory : context → inj context := with_filtered_factories client_Get.
Definition fake_filtered_withInformerFactory : context → inj context :=
  with_filtered_factories fake_client_Get.

Definition filtered_factory_Get (ctx : context) (selector : string) : outcome nat :=
  match Value ctx (FilteredFactoryKey selector) with
  | Some (VFactory f) => Ret f
  | _ => Panic ("Unable to fetch knative.dev/net-contour/pkg/client/informers/externalversions.SharedInformerFactory with selector " +:+ selector +:+ " from context.")
  end.

(** ** injection/informers/projectcontour/v1 *)

(** [inf.Informer()] *)
Definition typed_Informer (i : informer_ref) : world (TransformFunc := TransformFunc) → world * nat :=
  match ir_kind i with
  | RHTTPProxy => HTTPProxies_Informer (ir_typed i)
  | RTLSCertificateDelegation => TLSCertificateDelegations_Informer (ir_typed i)
  end.

Definition with_world (w : world) (o : factory_object) : factory_object :=
  {| sf_client := sf_client o; sf_made := sf_made o; sf_world := w |}.

(** The answer is the pointer to an informer: the factory and the index on its heap. *)
Definition call_Informer (i : informer_ref) : inj (nat * nat) := λ s,
  match ps_factories s !! ir_factory i with
  | Some o =>
      let '(w, p) := typed_Informer i (sf_world o) in
      ({| ps_buckets := ps_buckets s; ps_fakes := ps_fakes s;
          ps_factories := <[ir_factory i := with_world w o]> (ps_factories s) |}, Ret (ir_factory i, p))
  | None => (s, Panic "nil pointer")
  end.

(** [f.Projectcontour().V1()] *)
Definition typed_access (r : resource_kind) (f : nat) : inj informer_ref := λ s,
  match ps_factories s !! f with
  | Some o => (s, Ret {| ir_kind := r; ir_factory := f; ir_typed := Projectcontour_V1 (sf_world o) |})
  | None => (s, Panic "nil pointer")
  end.

Definition withInformer (r : resource_kind) (ctx : context) : inj (context * (nat * nat)) :=
  f ← inj_of (factory_Get ctx);
  inf ← typed_access r f;
  p ← call_Informer inf;
  mret (WithValue (InformerKey r) (VInformer inf) ctx, p).

Definition informer_name (r : resource_kind) : string :=
  match r with
  | RHTTPProxy => "knative.dev/net-contour/pkg/client/informers/externalversions/projectcontour/v1.HTTPProxyInformer"
  | RTLSCertificateDelegation =>
      "knative.dev/net-contour/pkg/client/informers/externalversions/projectcontour/v1.TLSCertificateDelegationInformer"
  end.

Definition informer_Get (r : resource_kind) (ctx : context) : outcome informer_ref :=
  match Value ctx (InformerKey r) with
  | Some (VInformer i) => Ret i
  | _ => Panic ("Unable to fetch " +:+ informer_name r +:+ " from context.")
  end.

Fixpoint filtered_informers (r : resource_kind) (selectors : list string) (ctx : context)
    : inj (context * list (nat * nat)) :=
  match selectors with
  | [] => mret (ctx, [])
  | selector :: selectors =>
      f ← inj_of (filtered_factory_Get ctx selector);
      inf ← typed_access r f;
      p ← call_Informer inf;
      '(ctx, infs) ← filtered_informers r selectors (WithValue (FilteredInformerKey r selector) (VInformer inf) ctx);
      mret (ctx, p :: infs)
  end.

Definition filtered_withInformer (r : resource_kind) (ctx : context) : inj (context * list (nat * nat)) :=
  labelSelectors ← inj_of (label_selectors ctx); filtered_informers r labelSelectors ctx.

Definition filtered_informer_Get (r : resource_kind) (ctx : context) (selector : string) : outcome informer_ref :=
  match Value ctx (FilteredInformerKey r selector) with
  | Some (VInformer i) => Ret i
  | _ => Panic ("Unable to fetch " +:+ informer_name r +:+ " with selector " +:+ selector +:+ " from context.")
  end.

(** The packages of the types and of their fakes have a copy each; those of the fakes get
    the same factory. *)
Definition httpproxy_withInformer : context → inj (context * (nat * nat)) := withInformer RHTTPProxy.
Definition tlscertificatedelegation_withInformer : context → inj (context * (nat * nat)) :=
  withInformer RTLSCertificateDelegation.
Definition httpproxy_fake_withInformer : context → inj (context * (nat * nat)) := withInformer RHTTPProxy.
Definition tlscertificatedelegation_fake_withInformer : context → inj (context * (nat * nat)) :=
  withInformer RTLSCertificateDelegation.
Definition httpproxy_filtered_withInformer : context → inj (context * list (nat * nat)) :=
  filtered_withInformer RHTTPProxy.
Definition tlscertificatedelegation_filtered_withInformer : context → inj (context * list (nat * nat)) :=
  filtered_withInformer RTLSCertificateDelegation.
Definition httpproxy_filtered_fake_withInformer : context → inj (context * list (nat * nat)) :=
  filtered_withInformer RHTTPProxy.
Definition tlscertificatedelegation_filtered_fake_withInformer : context → inj (context * list (nat * nat)) :=
  filtered_withInformer RTLSCertificateDelegation.
Definition httpproxy_Get : context → outcome informer_ref := informer_Get RHTTPProxy.
Definition tlscertificatedelegation_Get : context → outcome informer_ref := informer_Get RTLSCertificateDelegation.
Definition httpproxy_filtered_Get : context → string → outcome informer_ref := filtered_informer_Get RHTTPProxy.
Definition tlscertificatedelegation_filtered_Get : context → string → outcome informer_ref :=
  filtered_informer_Get RTLSCertificateDelegation.

(** ** Registration and start-up (injection.Interface) *)

Record injection := {
  ij_clients : list (context → RestConfig → inj context);
  ij_clientFetchers : list (context → outcome client_ref);
  ij_factories : list (context → inj context);
  ij_informers : list (context → inj (context * (nat * nat)));
  ij_filteredInformers : list (context → inj (context * list (nat * nat)))
}.

Definition no_injection : injection := {|
  ij_clients := []; ij_clientFetchers := []; ij_factories := []; ij_informers := []; ij_filteredInformers := [] |}.

Definition RegisterClient f (i : injection) : injection := {|
  ij_clients := ij_clients i ++ [f]; ij_clientFetchers := ij_clientFetchers i; ij_factories := ij_factories i;
  ij_informers := ij_informers i; ij_filteredInformers := ij_filteredInformers i |}.
Definition RegisterClientFetcher f (i : injection) : injection := {|
  ij_clients := ij_clients i; ij_clientFetchers := ij_clientFetchers i ++ [f]; ij_factories := ij_factories i;
  ij_informers := ij_informers i; ij_filteredInformers := ij_filteredInformers i |}.
Definition RegisterInformerFactory f (i : injection) : injection := {|
  ij_clients := ij_clients i; ij_clientFetchers := ij_clientFetchers i; ij_factories := ij_factories i ++ [f];
  ij_informers := ij_informers i; ij_filteredInformers := ij_filteredInformers i |}.
Definition RegisterInformer f (i : injection) : injection := {|
  ij_clients := ij_clients i; ij_clientFetchers := ij_clientFetchers i; ij_factories := ij_factories i;
  ij_informers := ij_informers i ++ [f]; ij_filteredInformers := ij_filteredInformers i |}.
Definition RegisterFilteredInformers f (i : injection) : injection := {|
  ij_clients := ij_clients i; ij_clientFetchers := ij_clientFetchers i; ij_factories := ij_factories i;
  ij_informers := ij_informers i; ij_filteredInformers := ij_filteredInformers i ++ [f] |}.

(** The [init] functions of the packages, in an order Go allows (a package after those it
    imports), for the real and the fake variant. *)
Definition client_init (fake : bool) (i : injection) : injection :=
  if fake then RegisterClientFetcher fake_client_Get (RegisterClient fake_withClient i)
  else RegisterClientFetcher client_Get (RegisterClient withClientFromConfig i).
Definition factory_init (fake : bool) : injection → injection :=
  RegisterInformerFactory (if fake then fake_withInformerFactory else withInformerFactory).
Definition filtered_factory_init (fake : bool) : injection → injection :=
  RegisterInformerFactory (if fake then fake_filtered_withInformerFactory else filtered_withInformerFactory).
Definition informer_init (fake : bool) (r : resource_kind) : injection → injection :=
  RegisterInformer match r, fake with
                   | RHTTPProxy, false => httpproxy_withInformer
                   | RHTTPProxy, true => httpproxy_fake_withInformer
                   | RTLSCertificateDelegation, false => tlscertificatedelegation_withInformer
                   | RTLSCertificateDelegation, true => tlscertificatedelegation_fake_withInformer
                   end.
Definition filtered_informer_init (fake : bool) (r : resource_kind) : injection → injection :=
  RegisterFilteredInformers match r, fake with
                            | RHTTPProxy, false => httpproxy_filtered_withInformer
                            | RHTTPProxy, true => httpproxy_filtered_fake_withInformer
                            | RTLSCertificateDelegation, false => tlscertificatedelegation_filtered_withInformer
                            | RTLSCertificateDelegation, true => tlscertificatedelegation_filtered_fake_withInformer
                            end.

(** A program that links the packages of the client, the factory and the informers of
    [rs], and perhaps the filtered packages too. *)
Definition linked (fake filtered : bool) (rs : list resource_kind) : injection :=
  let i := factory_init fake (client_init fake no_injection) in
  let i := if filtered then filtered_factory_init fake i else i in
  let i := foldl (λ i r, informer_init fake r i) i rs in
  if filtered then foldl (λ i r, filtered_informer_init fake r i) i rs else i.
(** What the controller links. *)
Definition controller_linked : injection := linked false false [RHTTPProxy].

Fixpoint inject_each {F} (run : F → context → inj context) (l : list F) (ctx : context) : inj context :=
  match l with [] => mret ctx | f :: l => ctx ← run f ctx; inject_each run l ctx end.

Fixpoint inject_informers (l : list (context → inj (context * (nat * nat)))) (ctx : context)
    : inj (context * list (nat * nat)) :=
  match l with
  | [] => mret (ctx, [])
  | ii :: l => '(ctx, inf) ← ii ctx; '(ctx, infs) ← inject_informers l ctx; mret (ctx, inf :: infs)
  end.

Fixpoint inject_filtered (l : list (context → inj (context * list (nat * nat)))) (ctx : context)
    : inj (context * list (nat * nat)) :=
  match l with
  | [] => mret (ctx, [])
  | fii :: l => '(ctx, infs) ← fii ctx; '(ctx, infs') ← inject_filtered l ctx; mret (ctx, infs ++ infs')
  end.

Definition SetupInformers (i : injection) (ctx : context) (cfg : RestConfig) : inj (context * list (nat * nat)) :=
  ctx ← inject_each (λ ci ctx, ci ctx cfg) (ij_clients i) ctx;
  ctx ← inject_each (λ fi ctx, fi ctx) (ij_factories i) ctx;
  '(ctx, informers) ← inject_informers (ij_informers i) ctx;
  '(ctx, filteredinfs) ← inject_filtered (ij_filteredInformers i) ctx;
  mret (ctx, informers ++ filteredinfs).

(** [EnableInjectionOrDie] with a configuration at hand. *)
Definition EnableInjectionOrDie (i : injection) (ctx : context) (cfg : RestConfig)
    : inj (context * list (nat * nat)) :=
  let cfg := set_limits (if Qeq_bool (rc_QPS cfg) 0 then DefaultQPS else rc_QPS cfg)
               (if rc_Burst cfg =? 0 then DefaultBurst else rc_Burst cfg) (rc_Timeout cfg) cfg in
  SetupInformers i (WithConfig cfg ctx) cfg.

Definition FetchAllClients (i : injection) (ctx : context) : outcome (list client_ref) :=
  outcome_mapM (λ f, f ctx) (ij_clientFetchers i).

(** ** What start-up provides *)

Definition type_of (r : resource_kind) : string :=
  match r with RHTTPProxy => HTTPProxyType | RTLSCertificateDelegation => TLSCertificateDelegationType end.
Definition resource_name (r : resource_kind) : string :=
  match r with RHTTPProxy => "httpproxies" | RTLSCertificateDelegation => "tlscertificatedelegations" end.

(** An injector succeeds, with this result and state. *)
Definition yields {A} (m : inj A) (Φ : A → process → Prop) (s : process) : Prop :=
  ∃ a s', m s = (s', Ret a) ∧ Φ a s'.

Lemma yields_ret {A} (a : A) (Φ : A → process → Prop) s : Φ a s → yields (mret a) Φ s.
Proof. intros. by exists a, s. Qed.
Lemma yields_bind {A B} (m : inj A) (k : A → inj B) (Φ : B → process → Prop) s :
  yields m (λ a s', yields (k a) Φ s') s → yields (m ≫= k) Φ s.
Proof.
  intros (a & s1 & E & b & s2 & E2 & HΦ). exists b, s2. split; [|done].
  unfold mbind, inj_bind. by rewrite E.
Qed.
Lemma yields_of {A} (r : outcome A) a (Φ : A → process → Prop) s : r = Ret a → Φ a s → yields (inj_of r) Φ s.
Proof. intros -> ?. by exists a, s. Qed.
Lemma yields_mono {A} (m : inj A) (Φ Ψ : A → process → Prop) s :
  yields m Φ s → (∀ a s', Φ a s' → Ψ a s') → yields m Ψ s.
Proof. intros (a & s' & E & HΦ) Himp. exists a, s'. auto. Qed.

(** Every factory satisfies the invariant of [Informers] for the way it was made. *)
Definition all_inv (s : process) : Prop :=
  ∀ f o, ps_factories s !! f = Some o → inv (sf_made o) (sf_world o).

(** Factories stay, and their informers. *)
Definition later (s s' : process) : Prop :=
  ∀ f o, ps_factories s !! f = Some o → ∃ o', ps_factories s' !! f = Some o' ∧
    sf_client o' = sf_client o ∧ sf_made o' = sf_made o ∧ grows (sf_world o) (sf_world o').

#[local] Instance later_preorder : PreOrder later.
Proof.
  split.
  - intros s f o Ho. exists o. split_and!; [done..|apply grows_refl].
  - intros s1 s2 s3 H12 H23 f o Ho. destruct (H12 f o Ho) as (o2 & Ho2 & E1 & E2 & G).
    destruct (H23 f o2 Ho2) as (o3 & Ho3 & E3 & E4 & G'). exists o3.
    split_and!; [done|congruence|congruence|by eapply grows_trans].
Qed.

Lemma yields_make_factory c ctx opts (Φ : nat → process → Prop) s : all_inv s →
  (∀ f s' o, all_inv s' → later s s' → ps_factories s' !! f = Some o → sf_client o = c →
     sf_made o = NewSharedInformerFactoryWithOptions (GetResyncPeriod ctx) opts → Φ f s') →
  yields (make_factory c ctx opts) Φ s.
Proof.
  intros Hi HΦ. unfold yields, make_factory. eexists _, _. split; [done|].
  eapply HΦ; simpl; [| |by rewrite lookup_app_r, Nat.sub_diag|done|done].
  - intros f o. simpl. intros [Ho|[_ Ho]]%lookup_app_Some; [by eapply Hi|].
    apply list_lookup_singleton_Some in Ho as [_ <-]. apply inv_new.
  - intros f o Ho. exists o. simpl. split_and!; [by apply lookup_app_l_Some|done|done|apply grows_refl].
Qed.

(** The value [v] is a typed informer of kind [r] on factory [f]; its informer has been
    made, is among [infs], and the factory was made like [made] for the client [c]. *)
Definition provided (s : process) (v : option ctx_value) (infs : list (nat * nat)) (r : resource_kind)
    (f : nat) (made : sharedInformerFactory (TransformFunc := TransformFunc)) (c : client_ref) : Prop :=
  ∃ i p o, v = Some (VInformer i) ∧ ir_kind i = r ∧ ir_factory i = f ∧ (f, p) ∈ infs ∧
    ps_factories s !! f = Some o ∧ informers (factory (sf_world o)) !! type_of r = Some p ∧
    sf_made o = made ∧ sf_client o = c.

Lemma provided_later s s' v infs infs' r f made c :
  provided s v infs r f made c → later s s' → infs ⊆ infs' → provided s' v infs' r f made c.
Proof.
  intros (i & p & o & Hv & Hr & Hf & Hin & Ho & Hp & Hm & Hc) Hl Hsub.
  destruct (Hl f o Ho) as (o' & Ho' & E1 & E2 & G). exists i, p, o'.
  split_and!; try done; [by apply Hsub| |congruence|congruence].
  by eapply lookup_weaken; [|apply G].
Qed.

Lemma typed_Informer_inv r w f f0 : inv f0 w →
  let '(w', p) := typed_Informer {| ir_kind := r; ir_factory := f; ir_typed := Projectcontour_V1 w |} w in
  inv f0 w' ∧ grows w w' ∧ informers (factory w') !! type_of r = Some p.
Proof.
  intros Hi. unfold typed_Informer. simpl. destruct r.
  - pose proof (HTTPProxies_Informer_inv f0 w Hi) as Hh. simpl in Hh.
    destruct (HTTPProxies_Informer _ w) as [w' p] eqn:E. simpl in Hh. destruct Hh. split_and!; [done..|].
    unfold HTTPProxies_Informer, InformerFor in E. simpl.
    destruct (informers (factory w) !! HTTPProxyType) eqn:El; injection E as <- <-; [done|].
    simpl. apply lookup_insert_eq.
  - pose proof (TLSCertificateDelegations_Informer_inv f0 w Hi) as Hh. simpl in Hh.
    destruct (TLSCertificateDelegations_Informer _ w) as [w' p] eqn:E. simpl in Hh. destruct Hh. split_and!; [done..|].
    unfold TLSCertificateDelegations_Informer, InformerFor in E. simpl.
    destruct (informers (factory w) !! TLSCertificateDelegationType) eqn:El; injection E as <- <-; [done|].
    simpl. apply lookup_insert_eq.
Qed.

(** Typed access to a factory, and the call of [Informer]. *)
Lemma yields_informer {A} r f o (k : informer_ref → nat * nat → inj A) (Φ : A → process → Prop) s :
  all_inv s → ps_factories s !! f = Some o →
  (∀ inf p s', all_inv s' → later s s' →
     provided s' (Some (VInformer inf)) [(f, p)] r f (sf_made o) (sf_client o) → yields (k inf (f, p)) Φ s') →
  yields (inf ← typed_access r f; p ← call_Informer inf; k inf p) Φ s.
Proof.
  intros Hi Ho Hk. apply yields_bind. unfold typed_access, yields at 1. rewrite Ho. eexists _, s. split; [done|].
  apply yields_bind. unfold call_Informer, yields at 1. simpl. rewrite Ho.
  pose proof (typed_Informer_inv r (sf_world o) f (sf_made o) (Hi f o Ho)) as Ht.
  destruct (typed_Informer _ (sf_world o)) as [w' p]. destruct Ht as (Hinv & Hg & Hp).
  eexists _, _. split; [done|]. pose proof (lookup_lt_Some _ _ _ Ho) as Hlt. apply Hk.
  - intros f' o'. simpl. intros [(-> & <- & _)|[_ Ho']]%list_lookup_insert_Some; [done|by eapply Hi].
  - intros f' o' Ho'. simpl. destruct (decide (f' = f)) as [->|Hne].
    + rewrite Ho in Ho'. injection Ho' as <-. eexists. by rewrite list_lookup_insert_eq.
    + exists o'. rewrite list_lookup_insert_ne by done. split_and!; [done..|apply grows_refl].
  - eexists _, p, (with_world w' o). split_and!; [done|done|done|by left| |exact Hp|done|done]. simpl.
    by rewrite list_lookup_insert_eq.
Qed.

(** How the factories are made, from the scope of a context. *)
Definition plain_factory (base : context) : sharedInformerFactory (TransformFunc := TransformFunc) :=
  NewSharedInformerFactoryWithOptions (GetResyncPeriod base) (scope_options base).
Definition selecting_factory (base : context) (selector : string)
    : sharedInformerFactory (TransformFunc := TransformFunc) :=
  NewSharedInformerFactoryWithOptions (GetResyncPeriod base)
    (scope_options base ++ [WithTweakListOptions (Some (select_tweak selector))]).

(** The contexts have the same scope. *)
Definition same_scope (ctx base : context) : Prop :=
  Value ctx NamespaceKey = Value base NamespaceKey ∧ Value ctx ResyncPeriodKey = Value base ResyncPeriodKey.

Lemma same_scope_eq ctx base : same_scope ctx base →
  scope_options ctx = scope_options base ∧ GetResyncPeriod ctx = GetResyncPeriod base.
Proof.
  intros [E1 E2]. unfold scope_options, HasNamespaceScope, GetNamespaceScope, GetResyncPeriod.
  by rewrite E1, E2.
Qed.

(** The context has the factory of a selector. *)
Definition filtered_at (s : process) (ctx base : context) (c : client_ref) (selector : string) : Prop :=
  ∃ f o, Value ctx (FilteredFactoryKey selector) = Some (VFactory f) ∧ ps_factories s !! f = Some o ∧
    sf_client o = c ∧ sf_made o = selecting_factory base selector.

Lemma filtered_at_later s s' ctx ctx' base c sel : filtered_at s ctx base c sel → later s s' →
  Value ctx' (FilteredFactoryKey sel) = Value ctx (FilteredFactoryKey sel) → filtered_at s' ctx' base c sel.
Proof.
  intros (f & o & Hv & Ho & Hc & Hm) Hl E. destruct (Hl f o Ho) as (o' & Ho' & E1 & E2 & _).
  exists f, o'. split_and!; [by rewrite E|done|congruence|congruence].
Qed.

Lemma yields_filtered_factories c base selectors ctx s : all_inv s → same_scope ctx base →
  yields (filtered_factories c selectors ctx) (λ ctx' s', all_inv s' ∧ later s s' ∧
    (∀ k, (∀ sel, sel ∈ selectors → k ≠ FilteredFactoryKey sel) → Value ctx' k = Value ctx k) ∧
    (∀ sel, sel ∈ selectors → filtered_at s' ctx' base c sel)) s.
Proof.
  revert ctx s. induction selectors as [|sel l IH]; intros ctx s Hi Hb; simpl.
  { apply yields_ret. split_and!; [done|done|done|by intros ? ?%elem_of_nil]. }
  apply yields_bind, yields_make_factory; [done|]. intros f s1 o Hi1 Hl1 Ho Hc Hm.
  set (ctx1 := WithValue _ _ ctx).
  apply (yields_mono _ _ _ _ (IH ctx1 s1 Hi1 Hb)). intros ctx' s' (Hi' & Hl' & Hk & Hs). split_and!.
  - done.
  - by etrans.
  - intros k Hne. rewrite Hk by set_solver. subst ctx1. simpl. rewrite decide_False; [done|].
    intros <-. by eapply Hne; [left|].
  - intros sel' Hin. destruct (decide (sel' ∈ l)) as [|Hnin]; [by apply Hs|].
    apply elem_of_cons in Hin as [->|]; [|done].
    apply (filtered_at_later s1 s' ctx1); [|done|apply Hk; intros sel' ? [= ->]; done].
    exists f, o. split_and!; [by subst ctx1; simpl; rewrite decide_True|done|done|].
    rewrite Hm. destruct (same_scope_eq ctx base Hb) as [E1 E2]. unfold selecting_factory. by rewrite E1, E2.
Qed.

(** The context has the informer of a type and a selector. *)
Definition filtered_provided (s : process) (ctx base : context) (infs : list (nat * nat)) (r : resource_kind)
    (c : client_ref) (selector : string) : Prop :=
  ∃ f, Value ctx (FilteredFactoryKey selector) = Some (VFactory f) ∧
    provided s (Value ctx (FilteredInformerKey r selector)) infs r f (selecting_factory base selector) c.

Lemma yields_filtered_informers r base c selectors ctx s : all_inv s →
  (∀ sel, sel ∈ selectors → filtered_at s ctx base c sel) →
  yields (filtered_informers r selectors ctx) (λ a s', all_inv s' ∧ later s s' ∧
    (∀ k, (∀ sel, sel ∈ selectors → k ≠ FilteredInformerKey r sel) → Value a.1 k = Value ctx k) ∧
    (∀ sel, sel ∈ selectors → filtered_provided s' a.1 base a.2 r c sel)) s.
Proof.
  revert ctx s. induction selectors as [|sel l IH]; intros ctx s Hi Hf; simpl.
  { apply yields_ret. split_and!; [done|done|done|by intros ? ?%elem_of_nil]. }
  destruct (Hf sel) as (f & o & Hv & Ho & Hc & Hm); [by left|].
  apply yields_bind, (yields_of _ f); [unfold filtered_factory_Get; by rewrite Hv|].
  apply (yields_informer r f o); [done|done|]. intros inf p s1 Hi1 Hl1 Hp. rewrite Hm, Hc in Hp.
  set (ctx1 := WithValue _ _ ctx). apply yields_bind. eapply yields_mono; [apply (IH ctx1 s1 Hi1)|].
  { intros sel' Hin. apply (filtered_at_later s s1 ctx); [apply Hf; by right|done|done]. }
  intros [ctx' infs] s' (Hi' & Hl' & Hk & Hs). simpl in Hk, Hs. apply yields_ret. simpl. split_and!.
  - done.
  - by etrans.
  - intros k Hne. rewrite Hk by set_solver. subst ctx1. simpl. rewrite decide_False; [done|].
    intros <-. by eapply Hne; [left|].
  - intros sel' Hin. destruct (decide (sel' ∈ l)) as [Hl|Hnin].
    + destruct (Hs sel' Hl) as (f' & Hv' & Hp'). exists f'. split; [done|].
      by eapply provided_later; [done|done|set_solver].
    + apply elem_of_cons in Hin as [->|]; [|done]. exists f. split; [by rewrite Hk|].
      rewrite Hk by (intros sel' ? [= ->]; done). subst ctx1. simpl. rewrite decide_True by done.
      by eapply provided_later; [done|done|set_solver].
Qed.

(** ** The phases of start-up *)

(** The configuration makes a client. *)
Definition config_ok (fake : bool) (cfg : RestConfig) (s : process) (c : client_ref) : Prop :=
  if fake then c = FakeClient (length (ps_fakes s))
  else ∃ b cs, NewForConfigOrDie DefaultKubernetesUserAgent HTTPClientFor url_Parse cfg (ps_buckets s) = (b, Ret cs) ∧
         c = RealClient cs.

Lemma linked_fields fake filtered rs :
  let i := linked fake filtered rs in
  ij_clients i = [if fake then fake_withClient else withClientFromConfig] ∧
  ij_factories i = (if fake then fake_withInformerFactory else withInformerFactory) ::
    (if filtered then [if fake then fake_filtered_withInformerFactory else filtered_withInformerFactory] else []) ∧
  ij_informers i = withInformer <$> rs ∧
  ij_filteredInformers i = if filtered then filtered_withInformer <$> rs else [].
Proof.
  assert (∀ i, let j := foldl (λ i r, informer_init fake r i) i rs in
    ij_clients j = ij_clients i ∧ ij_factories j = ij_factories i ∧
    ij_informers j = ij_informers i ++ (withInformer <$> rs) ∧
    ij_filteredInformers j = ij_filteredInformers i) as Hi.
  { clear. induction rs as [|r rs IH]; intros i; simpl; [by rewrite app_nil_r|].
    destruct (IH (informer_init fake r i)) as (-> & -> & -> & ->). simpl. rewrite <-app_assoc. by destruct r, fake. }
  assert (∀ i, let j := foldl (λ i r, filtered_informer_init fake r i) i rs in
    ij_clients j = ij_clients i ∧ ij_factories j = ij_factories i ∧ ij_informers j = ij_informers i ∧
    ij_filteredInformers j = ij_filteredInformers i ++ (filtered_withInformer <$> rs)) as Hf.
  { clear. induction rs as [|r rs IH]; intros i; simpl; [by rewrite app_nil_r|].
    destruct (IH (filtered_informer_init fake r i)) as (-> & -> & -> & ->). simpl. rewrite <-app_assoc. by destruct r, fake. }
  unfold linked. destruct filtered.
  - edestruct Hf as (-> & -> & -> & ->). edestruct Hi as (-> & -> & -> & ->). by destruct fake.
  - edestruct Hi as (-> & -> & -> & ->). by destruct fake.
Qed.

Lemma yields_client (fake : bool) ctx cfg c s : all_inv s → config_ok fake cfg s c →
  yields ((if fake then fake_withClient else withClientFromConfig) ctx cfg)
    (λ ctx' s', ctx' = WithValue ClientKey (VClient c) ctx ∧ all_inv s') s.
Proof.
  intros Hi Hc. unfold yields. destruct fake; simpl in Hc.
  - subst c. eexists _, _. split; [reflexivity|]. split; [done|exact Hi].
  - destruct Hc as (b & cs & E & ->). exists (WithValue ClientKey (VClient (RealClient cs)) ctx).
    exists {| ps_buckets := b; ps_fakes := ps_fakes s; ps_factories := ps_factories s |}.
    split; [|split; [done|exact Hi]]. unfold withClientFromConfig. by rewrite E.
Qed.

Lemma yields_with_factory getc c ctx (Φ : context → process → Prop) s : all_inv s → getc ctx = Ret c →
  (∀ f s' o, all_inv s' → later s s' → ps_factories s' !! f = Some o → sf_client o = c →
     sf_made o = plain_factory ctx → Φ (WithValue FactoryKey (VFactory f) ctx) s') →
  yields (with_factory getc ctx) Φ s.
Proof.
  intros Hi Hc HΦ. apply yields_bind, (yields_of _ c); [done|]. apply yields_bind, yields_make_factory; [done|].
  intros f s' o Hi' Hl Ho Hoc Hm. apply yields_ret. by eapply HΦ.
Qed.

(** What the factory phase leaves: the client, a plain factory and one per selector. *)
Record factories_ready (s : process) (ctx base : context) (c : client_ref) (selectors : list string)
    (f : nat) (o : factory_object) : Prop := {
  fr_inv : all_inv s;
  fr_client : Value ctx ClientKey = Some (VClient c);
  fr_factory : Value ctx FactoryKey = Some (VFactory f);
  fr_object : ps_factories s !! f = Some o;
  fr_for : sf_client o = c ∧ sf_made o = plain_factory base;
  fr_filtered sel : sel ∈ selectors → filtered_at s ctx base c sel
}.

(** The filtered packages find the selectors; without them there are none. *)
Definition labels_ok (filtered : bool) (ctx : context) (selectors : list string) : Prop :=
  if filtered then Value ctx LabelKey = Some (VSelectors selectors) else selectors = [].

Lemma yields_factories (fake filtered : bool) rs base c selectors s :
  all_inv s → (if fake then ∃ i, c = FakeClient i else True) → labels_ok filtered base selectors →
  yields (inject_each (λ fi ctx, fi ctx) (ij_factories (linked fake filtered rs)) (WithValue ClientKey (VClient c) base))
    (λ ctx s', labels_ok filtered ctx selectors ∧ ∃ f o, factories_ready s' ctx base c selectors f o) s.
Proof.
  intros Hi Hfake Hl. destruct (linked_fields fake filtered rs) as (_ & -> & _).
  set (ctx0 := WithValue _ _ base). set (getc := if fake then fake_client_Get else client_Get).
  assert (∀ f, getc (WithValue FactoryKey (VFactory f) ctx0) = Ret c ∧ getc ctx0 = Ret c) as Hget
    by (intros f; subst getc; destruct fake; [destruct Hfake as [i ->]|]; done).
  replace (if fake then fake_withInformerFactory else withInformerFactory) with (with_factory getc) by (by destruct fake).
  replace (if fake then fake_filtered_withInformerFactory else filtered_withInformerFactory)
    with (with_filtered_factories getc) by (by destruct fake).
  apply yields_bind, (yields_with_factory getc c); [done|by apply (Hget O)|]. intros f s1 o Hi1 _ Ho Hc Hm.
  change (plain_factory ctx0) with (plain_factory base) in Hm. destruct filtered; simpl in Hl |- *.
  - apply yields_bind, yields_bind, (yields_of _ c); [apply Hget|]. apply yields_bind, (yields_of _ selectors).
    { unfold label_selectors. simpl. by rewrite Hl. }
    eapply yields_mono; [by apply (yields_filtered_factories c base)|].
    intros ctx s' (Hi' & Hl' & Hk & Hf). destruct (Hl' f o Ho) as (o' & Ho' & E1 & E2 & _).
    apply yields_ret. split; [by rewrite Hk|]. exists f, o'. split; [done|by rewrite Hk|by rewrite Hk|done| |done].
    split; congruence.
  - subst selectors. apply yields_ret. split; [done|]. exists f, o. split; try done. by intros ? ?%elem_of_nil.
Qed.

(** The informer phases leave what is there. *)
Lemma factories_ready_later s s' ctx ctx' base c selectors f o :
  factories_ready s ctx base c selectors f o → all_inv s' → later s s' →
  (∀ k, (∀ r, k ≠ InformerKey r) → (∀ r sel, k ≠ FilteredInformerKey r sel) → Value ctx' k = Value ctx k) →
  ∃ o', factories_ready s' ctx' base c selectors f o'.
Proof.
  intros [] Hi Hl Hk. destruct (Hl f o fr_object0) as (o' & Ho & E1 & E2 & _).
  exists o'. split; [done|by rewrite Hk|by rewrite Hk|done| |].
  - destruct fr_for0. split; congruence.
  - intros sel Hin. eapply filtered_at_later; [by apply fr_filtered0|done|by apply Hk].
Qed.

Lemma yields_informers rs base c selectors f o ctx s : NoDup rs → factories_ready s ctx base c selectors f o →
  yields (inject_informers (withInformer <$> rs) ctx) (λ a s', all_inv s' ∧ later s s' ∧
    (∀ k, (∀ r, r ∈ rs → k ≠ InformerKey r) → Value a.1 k = Value ctx k) ∧
    ∀ r, r ∈ rs → provided s' (Value a.1 (InformerKey r)) a.2 r f (plain_factory base) c) s.
Proof.
  revert o ctx s. induction rs as [|r rs IH]; intros o ctx s Hnd Hr.
  { apply yields_ret. split_and!; [apply Hr|done|done|by intros ? ?%elem_of_nil]. }
  apply NoDup_cons in Hnd as [Hnin Hnd]. simpl. apply yields_bind, yields_bind, (yields_of _ f).
  { unfold factory_Get. by rewrite (fr_factory _ _ _ _ _ _ _ Hr). }
  apply (yields_informer r f o); [apply Hr..|]. intros inf p s1 Hi1 Hl1 Hp.
  destruct (fr_for _ _ _ _ _ _ _ Hr) as [Hc Hm]. rewrite Hc, Hm in Hp.
  apply yields_ret. set (ctx1 := WithValue _ _ ctx). apply yields_bind.
  assert (∀ k, k ≠ InformerKey r → Value ctx1 k = Value ctx k) as Hctx1
    by (intros k Hk; subst ctx1; simpl; by rewrite decide_False).
  destruct (factories_ready_later s s1 ctx ctx1 base c selectors f o Hr Hi1 Hl1) as [o' Hr'].
  { intros k Hk _. by apply Hctx1. }
  eapply yields_mono; [by apply (IH o' ctx1 s1)|]. intros [ctx' infs] s' (Hi' & Hl' & Hk & Hs).
  simpl in Hk, Hs. apply yields_ret. simpl. split_and!.
  - done.
  - by etrans.
  - intros k Hne. rewrite Hk by (intros; apply Hne; by right). apply Hctx1, Hne. by left.
  - intros r' [->|Hin]%elem_of_cons.
    + rewrite Hk by (intros ? ? [= ->]; done). subst ctx1. simpl. rewrite decide_True by done.
      by eapply provided_later; [done|done|set_solver].
    + by eapply provided_later; [by apply Hs|done|set_solver].
Qed.

Lemma yields_filtered rs base c selectors f o ctx s : NoDup rs → factories_ready s ctx base c selectors f o →
  Value ctx LabelKey = Some (VSelectors selectors) →
  yields (inject_filtered (filtered_withInformer <$> rs) ctx) (λ a s', all_inv s' ∧ later s s' ∧
    (∀ k, (∀ r sel, r ∈ rs → k ≠ FilteredInformerKey r sel) → Value a.1 k = Value ctx k) ∧
    ∀ r sel, r ∈ rs → sel ∈ selectors → filtered_provided s' a.1 base a.2 r c sel) s.
Proof.
  revert o ctx s. induction rs as [|r rs IH]; intros o ctx s Hnd Hr Hlab.
  { apply yields_ret. split_and!; [apply Hr|done|done|by intros ? ? ?%elem_of_nil]. }
  apply NoDup_cons in Hnd as [Hnin Hnd]. simpl. apply yields_bind, yields_bind, (yields_of _ selectors).
  { unfold label_selectors. by rewrite Hlab. }
  eapply yields_mono; [apply (yields_filtered_informers r base c selectors); apply Hr|].
  intros [ctx1 infs1] s1 (Hi1 & Hl1 & Hk1 & Hs1). simpl in Hk1, Hs1. apply yields_bind.
  destruct (factories_ready_later s s1 ctx ctx1 base c selectors f o Hr Hi1 Hl1) as [o' Hr'].
  { intros k _ Hk. apply Hk1. intros sel _. apply Hk. }
  eapply yields_mono; [apply (IH o' ctx1 s1); [done..|by rewrite Hk1]|]. intros [ctx' infs] s' (Hi' & Hl' & Hk & Hs).
  simpl in Hk, Hs. apply yields_ret. simpl. split_and!.
  - done.
  - by etrans.
  - intros k Hne. rewrite Hk by (intros; apply Hne; by right). apply Hk1. intros. apply Hne. by left.
  - intros r' sel [->|Hin]%elem_of_cons Hsel.
    + destruct (Hs1 sel Hsel) as (f' & Hv & Hp). exists f'.
      rewrite !Hk; [|intros ? ? ? [= -> ->]; done|done]. split; [done|].
      by eapply provided_later; [done|done|set_solver].
    + destruct (Hs r' sel Hin Hsel) as (f' & Hv & Hp). exists f'. split; [done|].
      by eapply provided_later; [done|done|set_solver].
Qed.

(** ** What the getters give *)

(** The informer [i] for the type [r]: asking for it again gives one of [infs], and it
    lists and watches that type for the client [c], in this scope. *)
Definition delivers (s : process) (infs : list (nat * nat)) (c : client_ref) (ns : string) (resync : Z)
    (tweak : option TweakListOptionsFunc) (r : resource_kind) (i : informer_ref) : Prop :=
  ∃ p o inf, call_Informer i s = (s, Ret (ir_factory i, p)) ∧ (ir_factory i, p) ∈ infs ∧
    ps_factories s !! ir_factory i = Some o ∧ sf_client o = c ∧ heap (sf_world o) !! p = Some inf ∧
    in_resource inf = resource_name r ∧ in_namespace inf = ns ∧ in_resync inf = resync ∧
    in_tweak inf = tweak ∧ in_indexers inf = namespace_indexers.

(** A factory made for the scope of [base], with this tweak. *)
Definition scoped (base : context) (tweak : option TweakListOptionsFunc)
    (made : sharedInformerFactory (TransformFunc := TransformFunc)) : Prop :=
  namespace made = GetNamespaceScope base ∧ tweakListOptions made = tweak ∧
  defaultResync made = GetResyncPeriod base ∧ customResync made = ∅.

Lemma plain_scoped base : scoped base None (plain_factory base).
Proof.
  unfold plain_factory, scope_options, HasNamespaceScope.
  destruct (String.eqb_spec (GetNamespaceScope base) "") as [E|]; [unfold scoped; by rewrite E|done].
Qed.

Lemma selecting_scoped base selector : scoped base (Some (select_tweak selector)) (selecting_factory base selector).
Proof.
  unfold selecting_factory, scope_options, HasNamespaceScope.
  destruct (String.eqb_spec (GetNamespaceScope base) "") as [E|]; [unfold scoped; by rewrite E|done].
Qed.

Lemma with_world_same o : with_world (sf_world o) o = o.
Proof. by destruct o. Qed.

Lemma provided_delivers s v infs r f made c base tweak : all_inv s → provided s v infs r f made c →
  scoped base tweak made →
  ∃ i, v = Some (VInformer i) ∧ ir_factory i = f ∧
    delivers s infs c (GetNamespaceScope base) (GetResyncPeriod base) tweak r i.
Proof.
  intros Hi (i & p & o & -> & Hr & <- & Hin & Ho & Hp & Hm & Hc) (Hns & Htw & Hrs & Hcr).
  exists i. split_and!; [done..|].
  destruct (iv_informers _ _ (Hi _ o Ho) _ _ Hp) as [[inf Einf] Hheap]. rewrite Einf in Hheap.
  exists p, o, inf. split_and!; try done.
  - unfold call_Informer. rewrite Ho. subst r.
    assert (typed_Informer i (sf_world o) = (sf_world o, p)) as ->.
    { unfold typed_Informer, HTTPProxies_Informer, TLSCertificateDelegations_Informer, InformerFor.
      by destruct (ir_kind i); simpl in Hp; rewrite Hp. }
    rewrite with_world_same, list_insert_id by done. by destruct s.
  - rewrite Hm in Einf. by destruct r; injection Einf as <-.
  - rewrite Hm in Einf. rewrite <-Hns. by destruct r; injection Einf as <-.
  - rewrite Hm in Einf. rewrite <-Hrs. destruct r; injection Einf as <-; simpl; by rewrite Hcr.
  - rewrite Hm in Einf. rewrite <-Htw. by destruct r; injection Einf as <-.
  - by destruct r; injection Einf as <-.
Qed.

(** The context [ctx] is what start-up is to give. *)
Record started (s : process) (ctx base : context) (infs : list (nat * nat)) (c : client_ref)
    (rs : list resource_kind) (selectors : list string) (f : nat) : Prop := {
  sd_inv : all_inv s;
  sd_client : Value ctx ClientKey = Some (VClient c);
  sd_factory : Value ctx FactoryKey = Some (VFactory f);
  sd_informers r : r ∈ rs → provided s (Value ctx (InformerKey r)) infs r f (plain_factory base) c;
  sd_filtered r sel : r ∈ rs → sel ∈ selectors → filtered_provided s ctx base infs r c sel;
  sd_filtered_factory sel : sel ∈ selectors → filtered_at s ctx base c sel
}.

Lemma yields_SetupInformers (fake filtered : bool) rs base cfg c selectors s :
  NoDup rs → all_inv s → config_ok fake cfg s c → labels_ok filtered base selectors →
  yields (SetupInformers (linked fake filtered rs) base cfg) (λ a s', ∃ f, started s' a.1 base a.2 c rs selectors f) s.
Proof.
  intros Hnd Hi Hc Hsel. unfold SetupInformers.
  assert (if fake then ∃ i, c = FakeClient i else True) as Hfake by (destruct fake; [by eexists|done]).
  pose proof (yields_factories fake filtered rs base c selectors) as Hfac.
  destruct (linked_fields fake filtered rs) as (-> & _ & -> & ->).
  apply yields_bind, yields_bind. eapply yields_mono; [by apply (yields_client fake base cfg c)|]. intros ctx1 s1 [-> Hi1]. apply yields_ret.
  apply yields_bind. eapply yields_mono; [by apply Hfac|]. intros ctx2 s2 (Hlab2 & f & o & Hr2).
  apply yields_bind. eapply yields_mono; [by apply (yields_informers rs base c selectors f o)|].
  intros [ctx3 infs3] s3 (Hi3 & Hl3 & Hk3 & Hp3). simpl in Hk3, Hp3.
  destruct (factories_ready_later s2 s3 ctx2 ctx3 base c selectors f o Hr2 Hi3 Hl3) as [o3 Hr3]; [by auto|].
  assert (yields (inject_filtered (if filtered then filtered_withInformer <$> rs else []) ctx3) (λ a s', all_inv s' ∧
    later s3 s' ∧ (∀ k, (∀ r sel, r ∈ rs → k ≠ FilteredInformerKey r sel) → Value a.1 k = Value ctx3 k) ∧
    ∀ r sel, r ∈ rs → sel ∈ selectors → filtered_provided s' a.1 base a.2 r c sel) s3) as Hfil.
  { destruct filtered; simpl in Hlab2.
    - apply (yields_filtered rs base c selectors f o3); [done..|by rewrite Hk3].
    - subst selectors. apply yields_ret. split_and!; [done..|by intros ? ? ? ?%elem_of_nil]. }
  apply yields_bind. eapply yields_mono; [apply Hfil|].
  intros [ctx4 infs4] s4 (Hi4 & Hl4 & Hk4 & Hp4). simpl in Hk4, Hp4. apply yields_ret. exists f. split; simpl.
  - done.
  - rewrite Hk4 by done. apply Hr3.
  - rewrite Hk4 by done. apply Hr3.
  - intros r Hr. rewrite Hk4 by done. by eapply provided_later; [apply Hp3|done|set_solver].
  - intros r sel Hr Hin. destruct (Hp4 r sel Hr Hin) as (f' & Ef' & Hp'). exists f'. split; [done|].
    by eapply provided_later; [done|done|set_solver].
  - intros sel Hin. apply (filtered_at_later s3 s4 ctx3); [by apply Hr3|done|by apply Hk4].
Qed.

(** C37: start-up of a program that links the client, the factory and the informers of some
    types (and perhaps the filtered ones, on a context with label selectors), with the real
    client and a configuration that makes one, or with the fake, gives a context on which
    every getter succeeds: the client; one factory, and of it an informer for each type, in
    the namespace and with the resync period of the context; and for every selector a
    factory and an informer for each type that also select by it.  All these informers are
    for that client and among those that start-up returns (the ones the process runs), and
    asking a typed informer for its informer again makes no other. *)
Theorem SetupInformers_provides (fake filtered : bool) rs base cfg c selectors s :
  NoDup rs → all_inv s → config_ok fake cfg s c → labels_ok filtered base selectors →
  ∃ ctx infs s', SetupInformers (linked fake filtered rs) base cfg s = (s', Ret (ctx, infs)) ∧
    client_Get ctx = Ret c ∧
    (∃ f, factory_Get ctx = Ret f ∧ ∀ r, r ∈ rs → ∃ i, informer_Get r ctx = Ret i ∧ ir_factory i = f ∧
       delivers s' infs c (GetNamespaceScope base) (GetResyncPeriod base) None r i) ∧
    ∀ sel, sel ∈ selectors → ∃ f, filtered_factory_Get ctx sel = Ret f ∧
      ∀ r, r ∈ rs → ∃ i, filtered_informer_Get r ctx sel = Ret i ∧ ir_factory i = f ∧
        delivers s' infs c (GetNamespaceScope base) (GetResyncPeriod base) (Some (select_tweak sel)) r i.
Proof.
  intros Hnd Hi Hc Hsel. destruct (yields_SetupInformers fake filtered rs base cfg c selectors s Hnd Hi Hc Hsel)
    as ([ctx infs] & s' & E & f & [Hi' Hcl Hfac Hp Hf Hff]). simpl in *.
  exists ctx, infs, s'. split; [done|]. split; [unfold client_Get; by rewrite Hcl|]. split.
  - exists f. split; [unfold factory_Get; by rewrite Hfac|]. intros r Hr.
    destruct (provided_delivers _ _ _ _ _ _ _ base None Hi' (Hp r Hr) (plain_scoped base)) as (i & Ei & Efi & Hd).
    exists i. unfold informer_Get. by rewrite Ei.
  - intros sel Hin. destruct (Hff sel Hin) as (f' & o' & Ef' & _). exists f'.
    split; [unfold filtered_factory_Get; by rewrite Ef'|]. intros r Hr.
    destruct (Hf r sel Hr Hin) as (f2 & Ef2 & Hp2). rewrite Ef' in Ef2. injection Ef2 as <-.
    destruct (provided_delivers _ _ _ _ _ _ _ base _ Hi' Hp2 (selecting_scoped base sel)) as (i & Ei & Efi & Hd).
    exists i. unfold filtered_informer_Get. by rewrite Ei.
Qed.

(** An injector panics. *)
Definition panics {A} (m : inj A) (e : string) (s : process) : Prop := (m s).2 = Panic e.
Lemma panics_now {A B} (m : inj A) (k : A → inj B) e s : panics m e s → panics (m ≫= k) e s.
Proof. unfold panics, mbind, inj_bind. destruct (m s) as [s' r]. simpl. by intros ->. Qed.
Lemma panics_later {A B} (m : inj A) (k : A → inj B) e s : yields m (λ a s', panics (k a) e s') s → panics (m ≫= k) e s.
Proof. intros (a & s' & E & Hk). unfold panics, mbind, inj_bind. by rewrite E. Qed.

(** Start-up dies when the configuration makes no client, and when the filtered packages
    are linked and the context has no selectors. *)
Lemma SetupInformers_no_client filtered rs base cfg s h e :
  NewForConfigOrDie DefaultKubernetesUserAgent HTTPClientFor url_Parse cfg (ps_buckets s) = (h, Panic e) →
  panics (SetupInformers (linked false filtered rs) base cfg) e s.
Proof.
  intros E. unfold SetupInformers. destruct (linked_fields false filtered rs) as (-> & _).
  apply panics_now, panics_now. unfold panics, withClientFromConfig. by rewrite E.
Qed.

Lemma SetupInformers_no_selectors rs base cfg s : all_inv s → Value base LabelKey = None →
  panics (SetupInformers (linked true true rs) base cfg) "Unable to fetch labelkey from context." s.
Proof.
  intros Hi E. unfold SetupInformers. destruct (linked_fields true true rs) as (-> & -> & _).
  apply panics_later, yields_bind. eapply yields_mono; [by apply (yields_client true base cfg)|]. intros ? s1 [-> Hi1]. apply yields_ret.
  apply panics_now, panics_later. eapply (yields_with_factory fake_client_Get); [done..|]. intros f s2 o _ _ _ _ _.
  apply panics_now, panics_later. eapply yields_of; [done|]. apply panics_now.
  unfold panics, label_selectors. simpl. by rewrite E.
Qed.
End Injection.

(** ** A start-up *)

Definition in_cluster : RestConfig := {|
  rc_Host := "10.0.0.1"; rc_APIPath := ""; rc_GroupVersion := None; rc_NegotiatedSerializer := None; rc_CAFile := "";
  rc_CAData := ""; rc_CertFile := ""; rc_CertData := ""; rc_Insecure := false; rc_UserAgent := "";
  rc_QPS := 0; rc_Burst := 0; rc_RateLimiter := None; rc_Timeout := 0 |}.
Definition parse_host (s : string) : goerr + Url :=
  inr {| url_Scheme := "https"; url_Host := s; url_Path := ""; url_RawQuery := ""; url_Fragment := "" |}.
Definition one_namespace : context (HTTPClient := unit) :=
  WithSelectors ["app=web"; "app=api"] (WithNamespaceScope "team" []).
Definition at_start : process (TransformFunc := unit) (HTTPClient := unit) :=
  {| ps_buckets := []; ps_fakes := []; ps_factories := [] |}.

#[local] Existing Instance some_key_order.

Lemma SetupInformers_provides_witness :
  ∃ c ctx infs s' f i,
    SetupInformers
      (linked "agent" (λ _, inr ()) parse_host (λ _ _ p, inr p) (λ _ _ d, inr d)
         false true [RHTTPProxy; RTLSCertificateDelegation])
      one_namespace in_cluster at_start = (s', Ret (ctx, infs)) ∧
    client_Get ctx = Ret c ∧ filtered_factory_Get ctx "app=api" = Ret f ∧
    filtered_informer_Get RTLSCertificateDelegation ctx "app=api" = Ret i ∧ ir_factory i = f ∧
    delivers s' infs c "team" DefaultResyncPeriod (Some (select_tweak "app=api")) RTLSCertificateDelegation i.
Proof.
  assert (∃ c, config_ok "agent" (λ _, inr ()) parse_host false in_cluster at_start c) as [c Hc].
  { eexists. eexists _, _. split; [vm_compute; reflexivity|reflexivity]. }
  destruct (SetupInformers_provides "agent" (λ _, inr ()) parse_host (λ _ _ p, inr p) (λ _ _ d, inr d)
    false true [RHTTPProxy; RTLSCertificateDelegation] one_namespace in_cluster c ["app=web"; "app=api"] at_start)
    as (ctx & infs & s' & E & Hcl & _ & Hsel).
  - apply (bool_decide_unpack _). reflexivity.
  - intros f o Ho. discriminate Ho.
  - exact Hc.
  - reflexivity.
  - destruct (Hsel "app=api") as (f & Hf & Hr); [apply (bool_decide_unpack _); reflexivity|].
    destruct (Hr RTLSCertificateDelegation) as (i & Hi & Hif & Hd); [apply (bool_decide_unpack _); reflexivity|].
    exists c, ctx, infs, s', f, i. exact (conj E (conj Hcl (conj Hf (conj Hi (conj Hif Hd))))).
Defined.
