(* ===== verification/Samples.v ===== *)
(** * Concrete runs

    A small Ingress, configuration and cluster, on which the hypotheses of the
    theorems hold and the definitions can be run. *)

From S2P Require Import Prelude Hash Meta Regexp Labels Conditions Ingress NetIngress Duration HTTPProxy Config Proxies EndpointProbe Reconcile ReconcileFacts Convergence ProbeTargets GenReconciler.

#[local] Existing Instance ascending_order.

(** ** The sample *)

Definition sample_env : Env :=
  {| env_cluster_domain := "cluster.local"; env_system_namespace := Some "knative-serving" |}.

Definition sample_config : Config := {|
  cfg_Contour := {|
    VisibilityKeys := default_keys; VisibilityClasses := default_classes;
    DefaultTLSSecret := None; TimeoutPolicyResponse := "infinity"; TimeoutPolicyIdle := "infinity";
    ContourCORSPolicy := None |};
  cfg_Network := None
|}.

Definition sample_meta : ObjectMeta := {|
  om_name := "hello"; om_namespace := "default"; om_uid := "uid-1"; om_resource_version := "7";
  om_generation := 2; om_labels := ∅; om_annotations := ∅; om_owners := []
|}.

Definition sample_split : IngressBackendSplit := {|
  sp_service_namespace := "default"; sp_service_name := "hello-00002";
  sp_service_port := FromInt 80; sp_percent := 100; sp_append_headers := ∅
|}.

Definition sample_path : HTTPIngressPath := {|
  pa_path := ""; pa_rewrite_host := ""; pa_headers := ∅;
  pa_splits := [sample_split]; pa_append_headers := {["K-Revision" := "2"]}
|}.

Definition sample_rule : IngressRule := {|
  ru_hosts := ["hello.example.com"]; ru_visibility := IngressVisibilityExternalIP;
  ru_http := Some [sample_path]
|}.

Definition sample_tls : IngressTLS := {|
  tls_hosts := ["hello.example.com"]; tls_secret_name := "cert"; tls_secret_namespace := "default"
|}.

Definition sample_ingress : Ingress := {|
  ing_meta := sample_meta;
  ing_spec := {| is_tls := [sample_tls]; is_rules := [sample_rule];
                 is_http_option := HTTPOptionRedirected |};
  ing_status := empty_status
|}.

(** The proxy of the previous generation. *)
Definition old_proxy : HTTPProxy := {|
  hp_meta := {| om_name := "hello-contour-external-old.example.com"; om_namespace := "default";
                om_uid := "uid-2"; om_resource_version := "5"; om_generation := 1;
                om_labels := <[GenerationKey := "1"]> (<[ParentKey := "hello"]>
                  (<[DomainHashKey := "0"]> {[ClassKey := "contour-external"]}));
                om_annotations := {[ClassKey := "contour-external"]}; om_owners := [] |};
  hp_spec := {| hs_virtual_host := None; hs_routes := [] |};
  hp_current_status := "valid"
|}.

Definition sample_service : Service := {|
  sv_meta := {| om_name := "hello-00002"; om_namespace := "default"; om_uid := ""; om_resource_version := "";
                om_generation := 0; om_labels := ∅; om_annotations := ∅; om_owners := [] |};
  sv_cluster_ip := "10.0.0.1"; sv_ports := [{| sv_port_name := "http"; sv_port := 80 |}]
|}.

(** The endpoint probe of the sample, ready. *)
Definition ready_status : IngressStatus := {|
  st_observed_generation := 0;
  st_conditions := [{| c_type := IngressConditionReady; c_status := ConditionTrue;
                       c_severity := SeverityError; c_time := 0; c_reason := ""; c_message := "" |}];
  st_public := None; st_private := None
|}.

Definition sample_child : Ingress :=
  match MakeEndpointProbeIngress sample_config sample_ingress [old_proxy] with
  | Ret child => with_status ready_status child
  | _ => sample_ingress
  end.

Definition sample_cluster : cluster := {|
  cl_ingresses := {[("default", "hello--ep") := sample_child]};
  cl_proxies := {[om_key (hp_meta old_proxy) := old_proxy]};
  cl_services := {[("default", "hello-00002") := sample_service]};
  cl_tracked := []; cl_probed := true
|}.

Definition sample_clock (n : nat) : Z := Z.of_nat n.

Definition sample_state : run_state cluster :=
  {| rs_backend := sample_cluster; rs_status := (empty_status, 0) |}.

Definition sample_run : run_state cluster * list action * outcome () :=
  ReconcileKind sample_env sample_config sample_clock sample_ingress sample_state.

(** The whole handler on the sample: it goes through every phase. *)
Example sample_run_phases :
  phase <$> sample_run.1.2 = [1; 2; 3; 4; 5] ∧ sample_run.2 = Ret () ∧
  IsReady (with_status (rs_status sample_run.1.1).1 sample_ingress) = true.
Proof. vm_compute. split_and!; reflexivity. Qed.

(** ** Facts about the sample *)

Definition stp0 : gmap string string := ∅.

Lemma sample_has_http : has_http sample_ingress.
Proof. repeat constructor; by eexists. Defined.

Lemma sample_env_ok : env_ok sample_env sample_config.
Proof. by intros Hf. Defined.

Definition sample_proxies : list HTTPProxy := proxies_of sample_env sample_config stp0 sample_ingress.

Lemma sample_proxies_ret :
  MakeHTTPProxies sample_env sample_config sample_ingress stp0 = Ret sample_proxies.
Proof. vm_compute. reflexivity. Defined.

Definition sample_proxy : HTTPProxy :=
  make_host_proxy sample_env sample_config sample_ingress (tlsEntries sample_ingress) sample_rule
    (routes_of sample_env sample_config stp0 sample_ingress sample_rule)
    "hello.example.com" "hello.example.com".

Lemma sample_proxy_in : sample_proxy ∈ sample_proxies.
Proof.
  apply elem_of_proxies_of. exists sample_rule, "hello.example.com", "hello.example.com".
  split_and!; [left|left| |reflexivity]. refine (bool_decide_unpack _ _). vm_compute. exact I.
Defined.

(** ** Witnesses: configuration *)

Definition sample_entry : gmap string visibilityValue :=
  <[IngressVisibilityClusterLocal := {| vv_class := "internal"; vv_service := "ns/int" |}]>
    {[IngressVisibilityExternalIP := {| vv_class := "external"; vv_service := "ns/ext" |}]}.

Definition no_yaml_cors (text : string) : goerr + option CORSPolicy := inr None.
Definition sample_yaml_visibility (text : string) : goerr + gmap string visibilityValue :=
  inr sample_entry.

Lemma NewContourFromConfigMap_visibility_witness :
  ∃ c, NewContourFromConfigMap no_yaml_cors sample_yaml_visibility {[visibilityConfigKey := "yaml"]} = Ret c.
Proof.
  eexists. eapply NewContourFromConfigMap_visibility; [reflexivity|].
  split_and!; [by eexists|by eexists| |reflexivity].
  intros k v Hkv. unfold sample_entry in Hkv.
  apply lookup_insert_Some in Hkv as [[<- <-]|[_ Hkv]]; [done|].
  apply lookup_singleton_Some in Hkv as [<- <-]. done.
Defined.

(** ** Witnesses: proxies *)

Lemma MakeHTTPProxies_per_host_witness :
  ∃ ps, MakeHTTPProxies sample_env sample_config sample_ingress stp0 = Ret ps ∧
    length (vhost_of <$> ps) = 1.
Proof.
  destruct (MakeHTTPProxies_per_host sample_env sample_config stp0 sample_ingress
    sample_env_ok sample_has_http) as (ps & Hps & Hv).
  exists ps. split; [exact Hps|]. rewrite Hv. vm_compute. reflexivity.
Defined.

Lemma MakeHTTPProxies_identity_witness : slen (hp_name sample_proxy) ≤ 63.
Proof.
  destruct (MakeHTTPProxies_identity sample_env sample_config stp0 sample_ingress sample_proxies
    sample_proxy sample_proxies_ret sample_env_ok sample_has_http sample_proxy_in)
    as (? & ? & ? & ? & ? & ? & ? & ? & ? & ? & ? & Hlen).
  exact Hlen.
Defined.


Lemma MakeHTTPProxies_backends_witness :
  ∃ route, route ∈ hs_routes (hp_spec sample_proxy) ∧ ro_permit_insecure route = false.
Proof.
  destruct (hs_routes (hp_spec sample_proxy)) as [|route routes] eqn:E; [vm_compute in E; discriminate|].
  exists route. split; [left|].
  destruct (MakeHTTPProxies_backends sample_env sample_config stp0 sample_ingress sample_proxies
    sample_proxy route sample_proxies_ret sample_env_ok sample_has_http sample_proxy_in)
    as (rule & paths & path & Hrule & _ & _ & _ & Hins); [rewrite E; left|].
  rewrite Hins. simpl in Hrule. apply list_elem_of_singleton in Hrule as ->.
  apply bool_decide_eq_false. by intros [?|?].
Defined.

Lemma MakeHTTPProxies_deterministic_witness :
  @MakeHTTPProxies ascending_order sample_env sample_config sample_ingress stp0 =
  @MakeHTTPProxies descending_order sample_env sample_config sample_ingress stp0.
Proof.
  apply MakeHTTPProxies_deterministic; [exact sample_env_ok|exact sample_has_http|].
  repeat constructor.
Defined.

Lemma tlsEntries_sound_witness : sample_tls ∈ is_tls (ing_spec sample_ingress).
Proof.
  apply (tlsEntries_sound sample_ingress "hello.example.com" sample_tls). vm_compute. reflexivity.
Defined.

Lemma tlsEntries_complete_witness : is_Some (tlsEntries sample_ingress !! "hello.example.com").
Proof.
  apply (tlsEntries_complete sample_ingress sample_rule sample_tls).
  - by repeat constructor.
  - left.
  - left.
  - left.
  - intros h Hh. exact Hh.
  - by left.
Defined.

Lemma ServiceNames_spec_witness :
  ∃ m, ServiceNames sample_ingress = Ret m ∧ is_Some (m !! "hello-00002").
Proof.
  destruct (ServiceNames_spec sample_ingress sample_has_http) as (m & Hm & Hl).
  exists m. split; [exact Hm|]. rewrite Hl. by eexists.
Defined.

Definition broken_ingress : Ingress :=
  with_spec {| is_tls := []; is_http_option := "";
               is_rules := [{| ru_hosts := []; ru_visibility := ""; ru_http := None |}] |} sample_ingress.

Lemma missing_http_panics_witness : ∃ msg, ServiceNames broken_ingress = Panic msg.
Proof.
  apply (missing_http_panics sample_env sample_config broken_ingress stp0).
  intros Hh. apply Forall_cons in Hh as [[paths Hp] _]. discriminate.
Defined.

(** ** Witnesses: the endpoint probe *)

Definition made_child : Ingress :=
  match MakeEndpointProbeIngress sample_config sample_ingress [old_proxy] with
  | Ret child => child
  | _ => sample_ingress
  end.

Lemma made_child_ret :
  MakeEndpointProbeIngress sample_config sample_ingress [old_proxy] = Ret made_child.
Proof. vm_compute. reflexivity. Defined.

Lemma MakeEndpointProbeIngress_coverage_witness :
  ∃ child, MakeEndpointProbeIngress sample_config sample_ingress [old_proxy] = Ret child ∧
    ∃ rule, rule ∈ is_rules (ing_spec child) ∧
      probes sample_ingress rule "hello-00002" IngressVisibilityExternalIP.
Proof.
  destruct (MakeEndpointProbeIngress_coverage sample_config sample_ingress [old_proxy] sample_has_http)
    as (child & Hc & Hcov).
  exists child. split; [exact Hc|]. apply Hcov. split; [vm_compute; reflexivity|].
  left. eexists. split; [left|]. split; reflexivity.
Defined.

Lemma MakeEndpointProbeIngress_child_witness :
  ing_annotations made_child = {[EndpointsProbeKey := "true"]}.
Proof.
  destruct (MakeEndpointProbeIngress_child sample_config sample_ingress [old_proxy] made_child
    sample_has_http made_child_ret) as [Ha _].
  rewrite Ha. reflexivity.
Defined.

Lemma MakeEndpointProbeIngress_https_witness :
  is_http_option (ing_spec made_child) = HTTPOptionRedirected.
Proof.
  apply (MakeEndpointProbeIngress_https sample_config sample_ingress [old_proxy] made_child
    sample_has_http made_child_ret).
  split; [reflexivity|left]. vm_compute. discriminate.
Defined.

Lemma sample_classes_distinct : classes_distinct sample_config.
Proof.
  intros v1 v2 c. simpl. unfold default_classes.
  rewrite !lookup_insert_Some, !lookup_singleton_Some. naive_solver.
Defined.

Lemma MakeEndpointProbeIngress_deterministic_witness :
  @MakeEndpointProbeIngress ascending_order sample_config sample_ingress [old_proxy] =
  @MakeEndpointProbeIngress descending_order sample_config sample_ingress [old_proxy].
Proof. apply MakeEndpointProbeIngress_deterministic. exact sample_classes_distinct. Defined.

(** ** Witnesses: the reconciler *)

Lemma sample_status_inv : status_inv (rs_status sample_state).
Proof. apply empty_status_inv. Defined.

Definition nth_call (n : nat) : action := default AProbe (sample_run.1.2 !! n).

Lemma nth_call_in n : n < 5 → nth_call n ∈ sample_run.1.2.
Proof.
  intros Hn. unfold nth_call.
  destruct (sample_run.1.2 !! n) as [a|] eqn:E; [by apply list_elem_of_lookup_2 in E|].
  apply lookup_ge_None in E.
  assert (length sample_run.1.2 = 5) as Hl by (vm_compute; reflexivity). lia.
Defined.

Lemma ReconcileKind_gate_witness : gate_open sample_config sample_cluster sample_ingress.
Proof.
  apply (ReconcileKind_gate sample_env sample_config sample_clock sample_ingress sample_state (nth_call 1));
    [reflexivity|apply nth_call_in; lia|left; vm_compute; reflexivity].
Defined.

Lemma ReconcileKind_status_witness : status_inv (rs_status sample_run.1.1).
Proof.
  pose proof (ReconcileKind_status sample_env sample_config sample_clock sample_ingress sample_state
    sample_status_inv) as Hs. unfold sample_run.
  destruct (ReconcileKind sample_env sample_config sample_clock sample_ingress sample_state) as [[s' l] r].
  apply Hs.
Defined.

Lemma sample_calls :
  calls_of (ReconcileKind sample_env sample_config sample_clock sample_ingress) sample_state = sample_run.1.2.
Proof. unfold calls_of, sample_run. reflexivity. Defined.

Lemma ReconcileKind_probe_removal_witness :
  IsReady (with_status (status_after (ReconcileKind sample_env sample_config sample_clock sample_ingress)
    sample_state) sample_ingress) = true.
Proof.
  apply (ReconcileKind_probe_removal sample_env sample_config sample_clock sample_ingress sample_state
    "default" "hello--ep" sample_status_inv).
  rewrite sample_calls.
  assert (ADeleteIngress "default" "hello--ep" = nth_call 4) as -> by (vm_compute; reflexivity).
  apply nth_call_in. lia.
Defined.

Lemma ReconcileKind_no_panic_witness :
  result_of (ReconcileKind sample_env sample_config sample_clock sample_ingress) sample_state ≠ Panic "".
Proof.
  apply (ReconcileKind_no_panic sample_env sample_config sample_clock sample_ingress sample_state);
    [exact sample_env_ok|exact sample_has_http|].
  intros e He. vm_compute in He. discriminate.
Defined.

Definition delete_text : string :=
  match nth_call 2 with ADeleteProxies _ text => text | _ => "" end.

Lemma ReconcileKind_deletes_only_old_witness : ∃ selector, Parse delete_text = Ret selector.
Proof.
  destruct (ReconcileKind_deletes_only_old sample_env sample_config sample_clock sample_ingress
    sample_state "default" delete_text) as (_ & selector & Hp & _);
    [vm_compute; reflexivity|split; vm_compute; [discriminate|reflexivity]| |by exists selector].
  rewrite sample_calls.
  assert (ADeleteProxies "default" delete_text = nth_call 2) as -> by (vm_compute; reflexivity).
  apply nth_call_in. lia.
Defined.

Lemma ReconcileKind_tracks_witness :
  ATrack (service_ref sample_ingress "hello-00002") ∈ sample_run.1.2.
Proof.
  apply (ReconcileKind_tracks sample_env sample_config sample_clock sample_ingress sample_state
    (nth_call 1) (foldl add_reference ∅ (references sample_ingress)));
    [apply nth_call_in; lia|vm_compute; lia|vm_compute; reflexivity|].
  refine (bool_decide_unpack _ _). vm_compute. exact I.
Defined.

(** A name of 64 letters: a valid object name, but not a label value. *)
Definition long_name : string := Join (replicate 64 "a") "".

Definition long_ingress : Ingress := {|
  ing_meta := {| om_name := long_name; om_namespace := "default"; om_uid := ""; om_resource_version := "";
                 om_generation := 1; om_labels := ∅; om_annotations := ∅; om_owners := [] |};
  ing_spec := ing_spec sample_ingress; ing_status := empty_status
|}.

Lemma ReconcileKind_long_name_witness :
  result_of (ReconcileKind sample_env sample_config sample_clock long_ingress) sample_state ≠ Ret ().
Proof.
  apply (ReconcileKind_long_name sample_env sample_config sample_clock long_ingress sample_state); [vm_compute; reflexivity|discriminate|vm_compute; discriminate|reflexivity].
Defined.

(** A backend whose child lookup fails for another reason than absence. *)
Definition failing_backend : Backend cluster := {|
  bk_list_proxies c ns sel := inr [old_proxy];
  bk_get_ingress c ns name := inl (Errorf "cache not synced" []);
  bk_get_service := bk_get_service; bk_create_ingress := bk_create_ingress;
  bk_update_ingress := bk_update_ingress; bk_delete_ingress := bk_delete_ingress;
  bk_create_proxy := bk_create_proxy; bk_update_proxy := bk_update_proxy;
  bk_delete_proxies := bk_delete_proxies; bk_track := bk_track; bk_probe := bk_probe
|}.

Lemma ReconcileKind_lookup_panic_witness :
  ∃ msg, result_of (@ReconcileKind cluster failing_backend _ sample_env sample_config sample_clock
    sample_ingress) sample_state = Panic msg.
Proof.
  apply (@ReconcileKind_lookup_panic cluster failing_backend ascending_order sample_env sample_config
    sample_clock sample_ingress sample_state old_proxy [] (Errorf "cache not synced" [])); reflexivity.
Defined.

(** ** Witnesses: convergence *)

Definition wanted_proxy : HTTPProxy :=
  default old_proxy (head (wanted sample_env sample_config sample_cluster sample_ingress)).

Lemma sample_wanted :
  wanted sample_env sample_config sample_cluster sample_ingress = [wanted_proxy].
Proof. vm_compute. reflexivity. Defined.

Lemma sample_services : services_present sample_cluster sample_ingress.
Proof. intros r Hr. apply list_elem_of_singleton in Hr as ->. by eexists. Defined.

Lemma sample_generation : (0 ≤ ing_generation sample_ingress < 2 ^ 63)%Z.
Proof. split; vm_compute; [discriminate|reflexivity]. Defined.

Lemma old_not_found name q :
  filed (cl_proxies sample_cluster) !! ("default", name) = Some q →
  name = "hello-contour-external-old.example.com" ∧ hp_labels q !! DomainHashKey = Some "0".
Proof.
  intros [Hq _]%map_lookup_filter_Some. unfold sample_cluster in Hq. simpl in Hq. apply lookup_singleton_Some in Hq as [Hk <-].
  injection Hk as <-. done.
Defined.

Lemma sample_admits : admits (store sample_state) "default" wanted_proxy.
Proof.
  split.
  - intros q1 q2 (name & Hl & Hs) _. apply old_not_found in Hl as [_ Hl].
    apply match_labels_found with (k := DomainHashKey) in Hs; [|set_solver].
    rewrite Hl in Hs. vm_compute in Hs. discriminate.
  - intros q Hq. apply old_not_found in Hq as [Hn _]. vm_compute in Hn. discriminate.
Defined.

(** An Ingress for a cluster-local host under all its names, as Knative makes them. *)
Definition local_rule : IngressRule := {|
  ru_hosts := ["hello.default"; "hello.default.svc"; "hello.default.svc.cluster.local"];
  ru_visibility := IngressVisibilityClusterLocal; ru_http := Some [sample_path]
|}.
Definition local_ingress : Ingress := {|
  ing_meta := sample_meta;
  ing_spec := {| is_tls := []; is_rules := [local_rule]; is_http_option := HTTPOptionEnabled |};
  ing_status := empty_status
|}.

Lemma local_claims rule oh h : claims sample_env local_ingress rule oh h →
  rule = local_rule ∧ host_class sample_env sample_config rule oh = "contour-internal" ∧ h ∈ ru_hosts local_rule.
Proof.
  intros (->%list_elem_of_singleton & Hoh & Hh). split; [done|]. apply elem_of_elements in Hh.
  simpl in Hoh. rewrite !elem_of_cons, elem_of_nil in Hoh. destruct Hoh as [->|[->|[->|[]]]].
  all: split; [vm_compute; reflexivity|]; revert h Hh; apply Forall_forall; apply (bool_decide_unpack _); vm_compute; exact I.
Defined.

Lemma local_free : collision_free sample_env sample_config local_ingress.
Proof.
  split.
  - intros rule oh rule' oh' h (-> & _)%local_claims (-> & _)%local_claims. done.
  - intros rule oh h rule' oh' h' (_ & -> & Hh)%local_claims (_ & -> & Hh')%local_claims E. split; [done|]. revert E.
    simpl in Hh, Hh'. rewrite !elem_of_cons, elem_of_nil in Hh, Hh'.
    destruct Hh as [->|[->|[->|[]]]], Hh' as [->|[->|[->|[]]]]; first [done|intros E; vm_compute in E; discriminate E].
  - intros rule oh h rule' oh' h' (_ & _ & Hh)%local_claims (_ & _ & Hh')%local_claims E. revert E.
    simpl in Hh, Hh'. rewrite !elem_of_cons, elem_of_nil in Hh, Hh'.
    destruct Hh as [->|[->|[->|[]]]], Hh' as [->|[->|[->|[]]]]; first [reflexivity|intros E; vm_compute in E; discriminate E].
Defined.

Lemma local_admits : Forall (admits (store sample_state) "default") (wanted sample_env sample_config sample_cluster local_ingress).
Proof.
  apply Forall_forall. intros p Hp.
  assert (hp_name p ≠ hp_name old_proxy ∧ match_labels p !! DomainHashKey ≠ Some "0") as [Hn Hd].
  { revert p Hp. apply Forall_forall. apply (bool_decide_unpack _). vm_compute. exact I. }
  split.
  - intros q1 q2 (name & Hl & Hs) _. apply old_not_found in Hl as [_ Hl]. destruct Hd.
    rewrite match_labels_found in Hs. specialize (Hs DomainHashKey ltac:(set_solver)). rewrite Hl in Hs.
    rewrite match_labels_lookup. simpl. by rewrite Hs.
  - intros q Hq. apply old_not_found in Hq as [E _]. by destruct Hn.
Defined.

Lemma program_proxies_converges_witness :
  ∃ s' l, program_proxies sample_env sample_config local_ingress sample_state = (s', l, Ret ()) ∧
    Forall (settled (store s') "default") (wanted sample_env sample_config sample_cluster local_ingress) ∧
    no_leftovers (store s') local_ingress.
Proof.
  apply (program_proxies_converges sample_env sample_config local_ingress sample_state).
  - exact sample_env_ok.
  - apply Forall_singleton. by eexists.
  - intros r Hr. apply list_elem_of_singleton in Hr as ->. by eexists.
  - vm_compute. reflexivity.
  - exact sample_generation.
  - apply proxies_of_separate, local_free.
  - exact local_admits.
Defined.

Definition settled_cluster : cluster :=
  with_proxies {[om_key (hp_meta wanted_proxy) := wanted_proxy]} sample_cluster.
Definition settled_state : run_state cluster :=
  {| rs_backend := settled_cluster; rs_status := (empty_status, 0) |}.

Lemma single_lookup p name q :
  hp_namespace p = "default" →
  filed {[om_key (hp_meta p) := p]} !! ("default", name) = Some q ↔ name = hp_name p ∧ q = p.
Proof.
  intros Hns. unfold filed. rewrite map_lookup_filter_Some, lookup_singleton_Some.
  assert (om_key (hp_meta p) = ("default", hp_name p)) as Hk by by rewrite <-Hns.
  rewrite Hk. split.
  - intros [[Heq <-] _]. by injection Heq as <-.
  - intros [-> ->]. done.
Defined.

Lemma wanted_namespace : hp_namespace wanted_proxy = "default".
Proof. vm_compute. reflexivity. Defined.

Lemma settled_lookup name q :
  filed (cl_proxies settled_cluster) !! ("default", name) = Some q ↔
  name = hp_name wanted_proxy ∧ q = wanted_proxy.
Proof. exact (single_lookup wanted_proxy name q wanted_namespace). Defined.

Lemma single_settled p :
  hp_namespace p = "default" → self_found p →
  settled (filed {[om_key (hp_meta p) := p]}) "default" p.
Proof.
  intros Hns Hself. exists p. split_and!; [|done|].
  - exists (hp_name p). split; [|done]. by apply single_lookup.
  - by intros q (name & [_ Hq]%single_lookup & _).
Defined.

Lemma wanted_self_found : self_found wanted_proxy.
Proof. refine (bool_decide_unpack _ _). vm_compute. exact I. Defined.

Lemma settled_sample : settled (store settled_state) (ing_namespace sample_ingress) wanted_proxy.
Proof.
  exact (single_settled wanted_proxy wanted_namespace
    wanted_self_found).
Defined.

Lemma settled_wanted :
  wanted sample_env sample_config settled_cluster sample_ingress = [wanted_proxy].
Proof. vm_compute. reflexivity. Defined.

Lemma settled_no_leftovers : no_leftovers (store settled_state) sample_ingress.
Proof.
  intros name q Hq _. apply settled_lookup in Hq as [_ ->]. vm_compute. reflexivity.
Defined.

Lemma program_proxies_idempotent_witness :
  ∃ s' l, program_proxies sample_env sample_config sample_ingress settled_state = (s', l, Ret ()) ∧
    store s' = store settled_state ∧ in_phase 1 l.
Proof.
  apply program_proxies_idempotent.
  - exact sample_env_ok.
  - exact sample_has_http.
  - exact sample_services.
  - vm_compute. reflexivity.
  - exact sample_generation.
  - change (rs_backend settled_state) with settled_cluster. rewrite settled_wanted.
    apply Forall_singleton. exact settled_sample.
  - exact settled_no_leftovers.
Defined.

(** ** Witnesses: probe targets *)

Definition envoy_service (ns name : string) : goerr + Service := inr {|
  sv_meta := sample_meta; sv_cluster_ip := "10.0.0.2";
  sv_ports := [{| sv_port_name := "http"; sv_port := 80 |}; {| sv_port_name := "https"; sv_port := 443 |}]
|}.

Definition envoy_subset : EndpointSubset := {|
  es_addresses := ["10.1.0.1"; "10.1.0.2"];
  es_ports := [{| ep_port_name := "http"; ep_port := 8080 |}; {| ep_port_name := "https"; ep_port := 8443 |}]
|}.

Definition envoy_endpoints (ns name : string) : goerr + Endpoints :=
  inr {| en_meta := sample_meta; en_subsets := [envoy_subset] |}.

Definition sample_targets : list ProbeTarget :=
  match ListProbeTargets sample_env sample_config envoy_service envoy_endpoints sample_ingress with
  | Ret ts => ts
  | _ => []
  end.

Lemma sample_targets_ret :
  ListProbeTargets sample_env sample_config envoy_service envoy_endpoints sample_ingress =
  Ret sample_targets.
Proof. vm_compute. reflexivity. Defined.

Lemma ListProbeTargets_complete_witness :
  ∃ t, t ∈ sample_targets ∧ ("https", "hello.example.com") ∈ pt_urls t.
Proof.
  destruct (ListProbeTargets_complete sample_env sample_config envoy_service envoy_endpoints
    sample_ingress sample_targets sample_rule "hello.example.com" "contour-external/envoy"
    sample_targets_ret) as (ns & name & eps & _ & Heps & Hall).
  - left.
  - refine (bool_decide_unpack _ _). vm_compute. exact I.
  - refine (bool_decide_unpack _ _). vm_compute. exact I.
  - injection Heps as <-. destruct (Hall envoy_subset) as (t & Ht & _ & Hurl); [left|].
    exists t. split; [exact Ht|]. vm_compute in Hurl |- *. exact Hurl.
Defined.

Lemma ListProbeTargets_sound_witness :
  ∃ rule, rule ∈ is_rules (ing_spec sample_ingress) ∧
    "hello.example.com" ∈ ExpandedHosts sample_env (list_to_set (ru_hosts rule)).
Proof.
  destruct (ListProbeTargets_sound sample_env sample_config envoy_service envoy_endpoints
    sample_ingress sample_targets (default {| pt_pod_ips := ∅; pt_pod_port := ""; pt_port := "";
      pt_urls := [] |} (head sample_targets)) "https" "hello.example.com" sample_targets_ret)
    as (key & sub & rule & _ & Hr & Hh & _).
  - refine (bool_decide_unpack _ _). vm_compute. exact I.
  - refine (bool_decide_unpack _ _). vm_compute. exact I.
  - by exists rule.
Defined.

(** ** Witnesses: the generated reconciler *)

(** The cluster as the generated reconciler sees it: one replica leads for everything. *)
#[local] Instance cluster_client : ResourceClient cluster := {|
  rc_leader c key := true;
  rc_get_cached c ns name :=
    match cl_ingresses c !! (ns, name) with Some i => inr (i, false) | None => inl (not_found "ingress" name) end;
  rc_get c ns name :=
    (c, match cl_ingresses c !! (ns, name) with Some i => inr i | None => inl (not_found "ingress" name) end);
  rc_update_status c ns i :=
    match cl_ingresses c !! (ns, ing_name i) with
    | Some old => (with_ingresses (<[(ns, ing_name i) := with_status (ing_status i) old]> (cl_ingresses c)) c, inr ())
    | None => (c, inl (not_found "ingress" (ing_name i)))
    end
|}.

Definition classed_ingress : Ingress := {|
  ing_meta := {| om_name := "hello"; om_namespace := "default"; om_uid := "uid-1"; om_resource_version := "7";
                 om_generation := 2; om_labels := ∅;
                 om_annotations := {[ClassAnnotationKey := ContourIngressClassName]}; om_owners := [] |};
  ing_spec := ing_spec sample_ingress; ing_status := empty_status |}.

Definition gen_cluster : cluster := {|
  cl_ingresses := {[("default", "hello") := classed_ingress]};
  cl_proxies := ∅; cl_services := cl_services sample_cluster; cl_tracked := []; cl_probed := true |}.

(** A first reconcile creates the endpoint probe and reports that it waits for it. *)
Example gen_run :
  let '(c, l, r) := Reconcile sample_env sample_config sample_clock "default/hello" 0 gen_cluster in
  length l = 2 ∧ r = GDone ∧ is_Some (cl_ingresses c !! ("default", "hello--ep")) ∧
  (st_observed_generation ∘ ing_status <$> cl_ingresses c !! ("default", "hello")) = Some 2%Z.
Proof. vm_compute. split_and!; try reflexivity. by eexists. Qed.

Lemma Reconcile_status_written_witness :
  st_observed_generation (final_status sample_env sample_config sample_clock sample_ingress sample_ingress 0
    sample_cluster) = 2%Z.
Proof.
  assert (SetDefaults sample_ingress = Ret sample_ingress) as Hd by (vm_compute; reflexivity).
  destruct (Reconcile_status_written sample_env sample_config sample_clock sample_ingress sample_ingress 0
    sample_cluster Hd (empty_status_inv 0 0 None None)) as (now & _ & Ho & _). exact Ho.
Defined.

(** An endpoint probe that was ready at generation 1 and is now at generation 2. *)
Definition all_true (t : string) : Condition := {|
  c_type := t; c_status := ConditionTrue; c_severity := SeverityError; c_time := 0; c_reason := ""; c_message := "" |}.
Definition stale_child : Ingress := {|
  ing_meta := {| om_name := "hello--ep"; om_namespace := "default"; om_uid := "uid-3"; om_resource_version := "9";
                 om_generation := 2; om_labels := ∅; om_annotations := {[EndpointsProbeKey := "true"]};
                 om_owners := [] |};
  ing_spec := ing_spec sample_ingress;
  ing_status := {| st_observed_generation := 1;
                   st_conditions := [all_true IngressConditionLoadBalancerReady;
                                     all_true IngressConditionNetworkConfigured; all_true IngressConditionReady];
                   st_public := None; st_private := None |} |}.

(** The Service is missing at first, and there for the retry; the prober would say no. *)
Definition without_service : cluster := {|
  cl_ingresses := ∅; cl_proxies := ∅; cl_services := ∅; cl_tracked := []; cl_probed := false |}.
Definition with_service : cluster := {|
  cl_ingresses := ∅; cl_proxies := ∅; cl_services := cl_services sample_cluster; cl_tracked := []; cl_probed := false |}.

Lemma stale_child_inv : status_inv (ing_status stale_child, 0).
Proof.
  split; [split|].
  - unfold types_unique. simpl. repeat (constructor; [set_solver|]). constructor.
  - repeat (constructor; [split; [vm_compute; set_solver|reflexivity]|]). constructor.
  - intros _ d [->|[->|Hd%elem_of_nil]%elem_of_cons]%elem_of_cons; [reflexivity|reflexivity|done].
Defined.

Lemma failed_reconcile_skips_probe_witness :
  let retried := with_status (final_status sample_env sample_config sample_clock stale_child stale_child 0
    without_service) stale_child in
  IsReady retried = false ∧
  (AProbe ∉ (kind_run sample_env sample_config sample_clock retried 9 with_service).1.2) ∧
  IsReady (with_status (rs_status (kind_run sample_env sample_config sample_clock retried 9 with_service).1.1).1
    retried) = true.
Proof.
  intros retried.
  destruct (failed_reconcile_skips_probe sample_env sample_config sample_clock stale_child stale_child 0 9
    without_service with_service (not_found "service" "hello-00002")) as (H1 & _ & H2 & H3).
  - vm_compute. reflexivity.
  - exact stale_child_inv.
  - by eexists.
  - reflexivity.
  - done.
  - vm_compute. reflexivity.
  - vm_compute. reflexivity.
  - exact (conj H1 (conj H2 H3)).
Defined.
