(* ===== verification/RolloutSamples.v ===== *)
(** * A rollout, run

    [server] is an API server in memory: it keeps resource versions, refuses writes of an
    older one, counts generations, and keeps the status apart.  It satisfies the laws of
    [Rollout]; on it, the sample of [Samples] is rolled out. *)

From S2P Require Import Prelude Hash Meta Regexp Labels Conditions Ingress NetIngress HTTPProxy Config Proxies EndpointProbe Reconcile ReconcileFacts Convergence GenReconciler Rollout RolloutFacts Samples.

#[local] Existing Instance ascending_order.

(** ** The server *)

Record server := Server { srv : cluster }.

Definition conflict (what name : string) : goerr :=
  APIStatus StatusReasonConflict (what +:+ " " +:+ name +:+ ": the object has been modified").

Definition filed_ingresses (m : ingress_store) : ingress_store := filter (λ kp, om_key (ing_meta kp.2) = kp.1) m.
Definition srv_ingresses (s : server) : ingress_store := filed_ingresses (cl_ingresses (srv s)).
Definition store_ingress (k : string * string) (i : Ingress) (s : server) : server :=
  Server (with_ingresses (<[k := i]> (srv_ingresses s)) (srv s)).

(** What is made of an object that is created, or whose specification is written. *)
Definition meta_at (rv : string) (g : Z) (m : ObjectMeta) : ObjectMeta := {|
  om_name := om_name m; om_namespace := om_namespace m; om_uid := om_uid m;
  om_resource_version := rv; om_generation := g; om_labels := om_labels m;
  om_annotations := om_annotations m; om_owners := om_owners m |}.
Definition next_version (i : Ingress) : string := om_resource_version (ing_meta i) +:+ "'".
Definition created (i : Ingress) : Ingress :=
  {| ing_meta := meta_at "1" 1 (ing_meta i); ing_spec := ing_spec i; ing_status := empty_status |}.
Definition updated (i old : Ingress) : Ingress := {|
  ing_meta := meta_at (next_version old)
    (if decide (ing_spec i = ing_spec old) then ing_generation old
     else 1 + Z.max (ing_generation old) (st_observed_generation (ing_status old))) (ing_meta i);
  ing_spec := ing_spec i; ing_status := ing_status old |}.
Definition same_version (i old : Ingress) : bool :=
  bool_decide (om_resource_version (ing_meta i) = om_resource_version (ing_meta old)).

Definition on_cluster {A} (f : cluster → cluster * A) (s : server) : server * A :=
  let '(c, a) := f (srv s) in (Server c, a).

#[export] Instance server_backend : Backend server := {|
  bk_list_proxies s := bk_list_proxies (srv s);
  bk_get_ingress s ns name :=
    match srv_ingresses s !! (ns, name) with Some i => inr i | None => inl (not_found "ingress" name) end;
  bk_get_service s := bk_get_service (srv s);
  bk_create_ingress s ns i :=
    match srv_ingresses s !! (ns, ing_name i) with
    | Some _ => (s, inl (already_exists "ingress" (ing_name i)))
    | None => (store_ingress (ns, ing_name i) (created i) s, inr (created i))
    end;
  bk_update_ingress s ns i :=
    match srv_ingresses s !! (ns, ing_name i) with
    | Some old =>
        if same_version i old then (store_ingress (ns, ing_name i) (updated i old) s, inr (updated i old))
        else (s, inl (conflict "ingress" (ing_name i)))
    | None => (s, inl (not_found "ingress" (ing_name i)))
    end;
  bk_delete_ingress s ns name :=
    match srv_ingresses s !! (ns, name) with
    | Some _ => (Server (with_ingresses (delete (ns, name) (srv_ingresses s)) (srv s)), inr ())
    | None => (s, inl (not_found "ingress" name))
    end;
  bk_create_proxy s ns p := on_cluster (λ c, bk_create_proxy c ns p) s;
  bk_update_proxy s ns p := on_cluster (λ c, bk_update_proxy c ns p) s;
  bk_delete_proxies s ns text := on_cluster (λ c, bk_delete_proxies c ns text) s;
  bk_track s ref i := (s, inr ());
  bk_probe s i := (s, inr (cl_probed (srv s)))
|}.

#[export] Instance server_client : ResourceClient server := {|
  rc_leader s key := true;
  rc_get_cached s ns name :=
    match srv_ingresses s !! (ns, name) with Some i => inr (i, false) | None => inl (not_found "ingress" name) end;
  rc_get s ns name :=
    (s, match srv_ingresses s !! (ns, name) with Some i => inr i | None => inl (not_found "ingress" name) end);
  rc_update_status s ns i :=
    match srv_ingresses s !! (ns, ing_name i) with
    | Some old =>
        if same_version i old
        then (store_ingress (ns, ing_name i) (versioned (next_version old) (ing_status i) old) s, inr ())
        else (s, inl (conflict "ingress" (ing_name i)))
    | None => (s, inl (not_found "ingress" (ing_name i)))
    end
|}.

#[export] Instance server_view : IngressView server := {|
  sv_ingresses := srv_ingresses; sv_deleting s k := false; sv_probed s i := cl_probed (srv s) |}.

Lemma on_cluster_eq {A} (f : cluster → cluster * A) s c a : f (srv s) = (c, a) → on_cluster f s = (Server c, a).
Proof. unfold on_cluster. by intros ->. Qed.

#[export] Instance server_synced : Synced server.
Proof.
  refine {| sy_proxies s := sy_proxies (srv s) |}.
  - intros s. apply sy_keys.
  - intros s. apply (sy_list (srv s)).
  - intros s p Hp. destruct (sy_create (srv s) p Hp) as (c & p' & E & ? & ?). exists (Server c), p'.
    split; [exact (on_cluster_eq _ _ _ _ E)|done].
  - intros s p Hp. destruct (sy_update (srv s) p Hp) as (c & p' & E & ? & ?). exists (Server c), p'.
    split; [exact (on_cluster_eq _ _ _ _ E)|done].
  - intros s ns text sel Hp. destruct (sy_delete (srv s) ns text sel Hp) as (c & E & ?). exists (Server c).
    split; [exact (on_cluster_eq _ _ _ _ E)|done].
  - intros s ref i. by exists s.
Defined.

Lemma filed_ingress_insert k i m : om_key (ing_meta i) = k →
  filed_ingresses (<[k := i]> (filed_ingresses m)) = <[k := i]> (filed_ingresses m).
Proof.
  intros Hk. apply map_filter_id. intros k' j Hj. apply lookup_insert_Some in Hj as [[<- <-]|[_ Hj]]; [done|].
  by apply map_lookup_filter_Some in Hj as [_ ?].
Qed.
Lemma filed_ingress_delete k m : filed_ingresses (delete k (filed_ingresses m)) = delete k (filed_ingresses m).
Proof.
  apply map_filter_id. intros k' j Hj. apply lookup_delete_Some in Hj as [_ Hj].
  by apply map_lookup_filter_Some in Hj as [_ ?].
Qed.

Lemma srv_ingresses_filed s k i : srv_ingresses s !! k = Some i → om_key (ing_meta i) = k.
Proof. by intros [_ ?]%map_lookup_filter_Some. Qed.

Lemma store_ingress_outside k i s : outside s (store_ingress k i s).
Proof. split_and!; done. Qed.

Lemma on_cluster_still {A} (f : cluster → cluster * A) s :
  cl_ingresses (f (srv s)).1 = cl_ingresses (srv s) → cl_services (f (srv s)).1 = cl_services (srv s) →
  still s (on_cluster f s).1.
Proof.
  intros Hi Hs. unfold on_cluster. destruct (f (srv s)) as [c a]. simpl in *.
  split; [|split_and!]; [|intros ns name|done..]; simpl; [unfold srv_ingresses; simpl|]; by rewrite ?Hi, ?Hs.
Qed.

#[export] Instance server_served : Served server.
Proof.
  split.
  - intros s ns name. simpl. destruct (srv_ingresses s !! _); [done|]. by eexists.
  - exact srv_ingresses_filed.
  - intros s ns name i E. simpl in *. by rewrite E.
  - intros s ns i Hns Hst E. simpl in *. rewrite E. exists (store_ingress (ns, ing_name i) (created i) s), (created i).
    split_and!; try done. apply filed_ingress_insert. unfold om_key. simpl. by rewrite <-Hns.
  - intros s ns i old Hns E Hm Hsp. simpl in *. rewrite E. unfold same_version. rewrite Hm, bool_decide_true by done.
    exists (store_ingress (ns, ing_name i) (updated i old) s), (updated i old). split_and!; try done.
    + unfold IsReady, updated. simpl. rewrite decide_False by done. simpl.
      rewrite bool_decide_false; [done|]. unfold ing_generation. simpl. lia.
    + apply filed_ingress_insert. unfold om_key. simpl. by rewrite <-Hns.
  - intros s ns name [i E]. simpl in *. rewrite E. eexists. split; [done|]. split_and!; try done. apply filed_ingress_delete.
  - intros s ns i old Hns E Hm. simpl in *. rewrite E. unfold same_version. rewrite Hm, bool_decide_true by done.
    eexists _, (next_version old). split_and!; try done. apply filed_ingress_insert.
    exact (srv_ingresses_filed _ _ _ E).
  - intros s ns p. apply on_cluster_still; simpl; by case_match.
  - intros s ns p. apply on_cluster_still; simpl; by case_match.
  - intros s ns text. apply on_cluster_still; simpl; by case_match.
  - intros s ref i. by split.
  - intros s i. exists s. split_and!; done.
Qed.

(** ** The run of the sample *)

Definition first_server : server := Server {|
  cl_ingresses := {[("default", "hello") := classed_ingress]}; cl_proxies := {[om_key (hp_meta old_proxy) := old_proxy]};
  cl_services := cl_services sample_cluster; cl_tracked := []; cl_probed := false |}.

(** What goes on between the reconciles: the endpoint probe is reconciled, as an Ingress
    of its own, and becomes ready; the prober sees the proxies that are there. *)
Definition made_ready (i : Ingress) : Ingress :=
  with_status {| st_observed_generation := ing_generation i;
    st_conditions := [all_true IngressConditionReady]; st_public := None; st_private := None |} i.
Definition attend (s : server) : server :=
  let c := srv s in
  Server {| cl_ingresses := alter made_ready ("default", "hello--ep") (cl_ingresses c);
    cl_proxies := cl_proxies c; cl_services := cl_services c; cl_tracked := cl_tracked c;
    cl_probed := bool_decide (is_Some (cl_proxies c !! ("default", hp_name wanted_proxy))) |}.

Definition rollout_round (s : server) : server :=
  attend (Reconcile sample_env sample_config sample_clock "default/hello" 0 s).1.1.
Definition rollout_run (n : nat) : server := Nat.iter n rollout_round first_server.

(** The endpoint probe comes and goes; the proxy comes, and then Ready. *)
Example rollout_stages :
  (λ n, let s := rollout_run n in
    (bool_decide (is_Some (srv_ingresses s !! ("default", "hello--ep"))),
     bool_decide (is_Some (sy_proxies s !! ("default", hp_name wanted_proxy))),
     from_option IsReady false (srv_ingresses s !! ("default", "hello")))) <$> [0; 1; 2; 3] =
  [(false, false, false); (true, false, false); (true, true, false); (false, true, true)].
Proof. vm_compute. reflexivity. Qed.
Lemma rollout_run_stable : rollout_round (rollout_run 3) = rollout_run 3.
Proof. vm_compute. reflexivity. Defined.

Lemma rollout_run_settled n : rollout_run (3 + n) = rollout_run 3.
Proof.
  induction n as [|n IH]; [done|]. change (rollout_run (3 + Datatypes.S n)) with (rollout_round (rollout_run (3 + n))).
  rewrite IH. exact rollout_run_stable.
Defined.

Lemma sample_rollable :
  rollable sample_env sample_config "default/hello" "default" "hello" classed_ingress classed_ingress.
Proof.
  split; [vm_compute; reflexivity..| |exact sample_env_ok|].
  - split; [repeat constructor; by eexists|vm_compute; reflexivity|split; vm_compute; [discriminate|reflexivity]|vm_compute; reflexivity].
  - vm_compute. discriminate.
Defined.

Definition classed_proxy : HTTPProxy := default old_proxy (head (wanted sample_env sample_config first_server classed_ingress)).
Lemma classed_wanted : wanted sample_env sample_config first_server classed_ingress = [classed_proxy].
Proof. vm_compute. reflexivity. Defined.

Lemma first_base : base sample_env sample_config "default" "hello" classed_ingress classed_ingress first_server.
Proof.
  split.
  - exists "7", empty_status. split; [vm_compute; reflexivity|apply empty_status_inv].
  - reflexivity.
  - reflexivity.
  - intros r Hr. apply list_elem_of_singleton in Hr as ->. by eexists.
  - rewrite classed_wanted. apply separate_singleton.
  - by rewrite classed_wanted.
Defined.

Lemma first_old name q :
  sy_proxies first_server !! ("default", name) = Some q →
  name = "hello-contour-external-old.example.com" ∧ q = old_proxy.
Proof.
  intros [Hq _]%map_lookup_filter_Some. simpl in Hq. apply lookup_singleton_Some in Hq as [Hk <-].
  by injection Hk as <-.
Defined.

Lemma first_fresh : fresh sample_env sample_config "default" classed_ingress first_server.
Proof.
  split.
  - intros name q [_ ->]%first_old Hs. apply (lookup_weaken _ _ GenerationKey "2") in Hs; [|vm_compute; reflexivity].
    vm_compute in Hs. discriminate.
  - intros u1 u2 Hu1. unfold prior_uses in Hu1. apply list_elem_of_bind in Hu1 as (p & Hu & Hp).
    apply elem_of_old_proxies in Hp as (name & [_ ->]%first_old & _). vm_compute in Hu. by apply elem_of_nil in Hu.
  - rewrite classed_wanted. apply Forall_singleton. split.
    + intros q1 q2 (name & [_ ->]%first_old & Hs) _.
      apply match_labels_found with (k := DomainHashKey) in Hs; [|set_solver]. vm_compute in Hs. discriminate.
    + intros q [Hn _]%first_old. vm_compute in Hn. discriminate.
Defined.

Lemma attend_between s : between "default" "hello" classed_ingress s (attend s).
Proof.
  assert (srv_ingresses (attend s) = alter made_ready ("default", "hello--ep") (srv_ingresses s)) as Hi.
  { apply map_eq. intros k. unfold srv_ingresses, filed_ingresses. rewrite map_lookup_filter. simpl.
    destruct (decide (k = ("default", "hello--ep"))) as [->|Hk].
    - rewrite !lookup_alter_eq, map_lookup_filter. destruct (cl_ingresses (srv s) !! _) as [i|]; [|done]. simpl.
      change (om_key (ing_meta (made_ready i))) with (om_key (ing_meta i)). by case_guard.
    - rewrite !lookup_alter_ne, map_lookup_filter by done. done. }
  split.
  - by split_and!.
  - done.
  - simpl. rewrite Hi. by apply lookup_alter_ne.
  - simpl. rewrite Hi. change (child_key classed_ingress) with ("default", "hello--ep").
    rewrite lookup_alter_eq. by destruct (srv_ingresses s !! _).
Defined.

Lemma sample_fair :
  fair_run sample_env sample_config sample_clock "default/hello" "default" "hello" classed_ingress (λ _, 0) rollout_run.
Proof.
  split; intros n.
  - apply attend_between.
  - intros _. exists (3 + n). split; [lia|]. right. rewrite rollout_run_settled. intros (child & Hc & _). vm_compute in Hc. discriminate.
  - intros _. exists (3 + n). split; [lia|]. left. rewrite rollout_run_settled. intros j _. vm_compute. reflexivity.
Defined.


Lemma rollout_waits_witness : sy_proxies (rollout_run 1) = sy_proxies first_server.
Proof.
  apply (rollout_waits sample_env sample_config sample_clock "default/hello" "default" "hello"
    classed_ingress classed_ingress (λ _, 0) rollout_run 1 sample_rollable first_base first_fresh sample_fair).
  intros m Hm. assert (m = 0) as -> by lia. intros (child & Hc & _). vm_compute in Hc. discriminate.
Defined.
