(* ===== verification/FailureSamples.v ===== *)
(** * A failing API server

    [flaky] is the in-memory cluster of [Convergence] behind a connection that loses
    requests or answers, following a list of faults.  It satisfies the laws of [Failures];
    on it, an update of a served proxy is lost, and the host stays served. *)

From S2P Require Import Prelude Hash Meta Regexp Labels Conditions Ingress NetIngress HTTPProxy Config Proxies EndpointProbe Reconcile ReconcileFacts Convergence Failures Samples.

#[local] Existing Instance ascending_order.

(** ** The server *)

(** A call works, its request is lost, or its answer is. *)
Inductive fault := FNone | FRequest | FAnswer.
Record flaky := { fk_cluster : cluster; fk_faults : list fault }.

Definition timeout : goerr := Errorf "context deadline exceeded" [].

Definition flaky_call {A} (f : cluster → cluster * (goerr + A)) (s : flaky) : flaky * (goerr + A) :=
  match fk_faults s with
  | FRequest :: l => ({| fk_cluster := fk_cluster s; fk_faults := l |}, inl timeout)
  | FAnswer :: l => ({| fk_cluster := (f (fk_cluster s)).1; fk_faults := l |}, inl timeout)
  | l => ({| fk_cluster := (f (fk_cluster s)).1; fk_faults := tail l |}, (f (fk_cluster s)).2)
  end.

#[export] Instance flaky_backend : Backend flaky := {|
  bk_list_proxies s := bk_list_proxies (fk_cluster s);
  bk_get_ingress s := bk_get_ingress (fk_cluster s);
  bk_get_service s := bk_get_service (fk_cluster s);
  bk_create_ingress s ns i := flaky_call (λ c, bk_create_ingress c ns i) s;
  bk_update_ingress s ns i := flaky_call (λ c, bk_update_ingress c ns i) s;
  bk_delete_ingress s ns name := flaky_call (λ c, bk_delete_ingress c ns name) s;
  bk_create_proxy s ns p := flaky_call (λ c, bk_create_proxy c ns p) s;
  bk_update_proxy s ns p := flaky_call (λ c, bk_update_proxy c ns p) s;
  bk_delete_proxies s ns text := flaky_call (λ c, bk_delete_proxies c ns text) s;
  bk_track s ref i := flaky_call (λ c, bk_track c ref i) s;
  bk_probe s i := flaky_call (λ c, bk_probe c i) s
|}.

#[export] Instance flaky_proxies : ProxyStore flaky := {| fl_proxies s := sy_proxies (fk_cluster s) |}.

Lemma flaky_call_proxies {A} (f : cluster → cluster * (goerr + A)) s :
  cl_proxies (f (fk_cluster s)).1 = cl_proxies (fk_cluster s) → same_proxies s (flaky_call f s).1.
Proof. intros Hp. unfold flaky_call. destruct (fk_faults s) as [|[] l]; unfold same_proxies; simpl; by rewrite ?Hp. Qed.

Lemma flaky_call_services {A} (f : cluster → cluster * (goerr + A)) s :
  cl_services (f (fk_cluster s)).1 = cl_services (fk_cluster s) → same_services s (flaky_call f s).1.
Proof. intros Hs ns name. unfold flaky_call. destruct (fk_faults s) as [|[] l]; simpl; by rewrite ?Hs. Qed.

Lemma flaky_call_wrote (f : cluster → cluster * (goerr + HTTPProxy)) s k p :
  (∃ c p', f (fk_cluster s) = (c, inr p') ∧ same_content p' p ∧
     sy_proxies c = <[k := p']> (sy_proxies (fk_cluster s))) →
  wrote (sy_proxies (fk_cluster s)) (sy_proxies (fk_cluster (flaky_call f s).1)) k p (flaky_call f s).2.
Proof.
  intros (c & p' & E & Hc & Hp). unfold flaky_call, wrote.
  destruct (fk_faults s) as [|[] l]; simpl; rewrite ?E; simpl; [done|done|by left|right; by exists p'].
Qed.

Lemma flaky_call_exists (f : cluster → cluster * (goerr + HTTPProxy)) s :
  (∃ e, f (fk_cluster s) = (fk_cluster s, inl e)) →
  sy_proxies (fk_cluster (flaky_call f s).1) = sy_proxies (fk_cluster s) ∧ ∃ e, (flaky_call f s).2 = inl e.
Proof.
  intros (e & E). unfold flaky_call. destruct (fk_faults s) as [|[] l]; simpl; rewrite ?E; simpl; (split; [done|by eexists]).
Qed.

#[export] Instance flaky_faulty ns0 parent : Faulty flaky ns0 parent.
Proof.
  split.
  - intros s. apply sy_keys.
  - intros s sel l _ E. destruct (sy_list (fk_cluster s) ns0 sel) as (l' & E' & Hl).
    assert ((inr l' : goerr + list HTTPProxy) = inr l) as [= ->] by (etrans; [symmetry; exact E'|exact E]). exact Hl.
  - intros s p [<- _] Hp. apply flaky_call_wrote. by apply sy_create.
  - intros s p [<- _] [q Hq]. apply flaky_call_exists. exists (already_exists "httpproxy" (hp_name p)). simpl.
    change (filed (cl_proxies (fk_cluster s)) !! (hp_namespace p, hp_name p) = Some q) in Hq. by rewrite Hq.
  - intros s p [<- _] Hp. apply flaky_call_wrote. by apply sy_update.
  - intros s text sel _ Hp. change fl_proxies with (λ s, sy_proxies (fk_cluster s)). destruct (sy_delete (fk_cluster s) ns0 text sel Hp) as (c & E & Hc). intros doomed.
    assert (∀ m : proxy_store, filter (λ kp, ¬ (kp.1.1 = ns0 ∧ Matches sel (hp_labels kp.2) = true)) m ⊆ m) as Hsub
      by (intros m; apply map_filter_subseteq).
    assert (∀ (m : proxy_store) (k : string * string) p, m !! k = Some p → ¬ doomed k p →
      filter (λ kp, ¬ (kp.1.1 = ns0 ∧ Matches sel (hp_labels kp.2) = true)) m !! k = Some p) as Hkeep
      by (intros m k p Hk Hd; by apply map_lookup_filter_Some).
    assert (∀ (m : proxy_store) k p, filter (λ kp, ¬ (kp.1.1 = ns0 ∧ Matches sel (hp_labels kp.2) = true)) m !! k = Some p →
      ¬ doomed k p) as Hgone by (intros m k p Hk; by apply map_lookup_filter_Some in Hk as [_ ?]).
    change (bk_delete_proxies s ns0 text) with (flaky_call (λ c, bk_delete_proxies c ns0 text) s). unfold flaky_call. rewrite E.
    destruct (fk_faults s) as [|[] l]; cbn beta iota delta [fst snd fk_cluster]; rewrite ?Hc;
      split_and!; first [done|apply Hsub|exact (Hkeep _)|intros _; exact (Hgone _)|by intros].
  - intros s ref i. apply flaky_call_proxies; done.
  - intros s i. apply flaky_call_proxies; done.
  - intros s ns i. apply flaky_call_proxies; simpl; by case_match.
  - intros s ns i. apply flaky_call_proxies; simpl; by case_match.
  - intros s ns name. apply flaky_call_proxies; simpl; by case_match.
Defined.

#[export] Instance flaky_steady : Steady flaky.
Proof.
  split; [intros s ref i|intros s n i..]; apply flaky_call_services; [done|simpl; by case_match..].
Defined.

(** ** A lost update

    The third generation of the sample: its host is served by the proxy of the second. *)

Definition next_ingress : Ingress := {|
  ing_meta := {| om_name := "hello"; om_namespace := "default"; om_uid := "uid-1"; om_resource_version := "8";
                 om_generation := 3; om_labels := ∅; om_annotations := ∅; om_owners := [] |};
  ing_spec := ing_spec sample_ingress; ing_status := empty_status |}.

Definition next_child : Ingress :=
  match MakeEndpointProbeIngress sample_config next_ingress [wanted_proxy] with
  | Ret child => with_status ready_status child
  | _ => sample_ingress
  end.

Definition next_cluster : cluster := {|
  cl_ingresses := {[("default", "hello--ep") := next_child]};
  cl_proxies := {[om_key (hp_meta wanted_proxy) := wanted_proxy]};
  cl_services := cl_services sample_cluster; cl_tracked := []; cl_probed := true |}.

(** Tracking works, and the answer to the update, or the update, is lost. *)
Definition flaky_state (f : fault) : run_state flaky :=
  {| rs_backend := {| fk_cluster := next_cluster; fk_faults := [FNone; f] |}; rs_status := (empty_status, 0) |}.
Definition flaky_run (f : fault) := ReconcileKind sample_env sample_config sample_clock next_ingress (flaky_state f).

Definition generations (m : proxy_store) : list string :=
  (λ kp : (string * string) * HTTPProxy, map_get (hp_labels kp.2) GenerationKey) <$> map_to_list m.
Example flaky_runs :
  (λ f : fault, (phase <$> (flaky_run f).1.2, is_ret (flaky_run f).2, generations (kept (flaky_run f).1.1))) <$>
    [FRequest; FAnswer; FNone] =
  [([1; 2], false, ["2"]); ([1; 2], false, ["3"]); ([1; 2; 4; 5], true, ["3"])].
Proof. vm_compute. reflexivity. Qed.

Definition next_wanted : HTTPProxy := default old_proxy (head (wanted sample_env sample_config (rs_backend (flaky_state FRequest)) next_ingress)).
Lemma next_wanted_all : wanted sample_env sample_config (rs_backend (flaky_state FRequest)) next_ingress = [next_wanted].
Proof. vm_compute. reflexivity. Defined.

Lemma next_found : found_by (kept (flaky_state FRequest)) "default" next_wanted wanted_proxy.
Proof.
  exists (hp_name wanted_proxy). split; [vm_compute; reflexivity|].
  refine (bool_decide_unpack _ _). vm_compute. exact I.
Defined.

Lemma next_admits : admits (kept (flaky_state FRequest)) "default" next_wanted.
Proof.
  assert (∀ name q, kept (flaky_state FRequest) !! ("default", name) = Some q → q = wanted_proxy) as Hone
    by (intros name q [_ ->]%(single_lookup wanted_proxy name q wanted_namespace); done).
  split.
  - intros q1 q2 (n1 & H1 & _) (n2 & H2 & _). by rewrite (Hone _ _ H1), (Hone _ _ H2).
  - intros q Hq. rewrite (Hone _ _ Hq). exact next_found.
Defined.

(** The update was lost, and the host is still served. *)
Lemma ReconcileKind_keeps_serving_witness :
  ∃ q, found_by (kept (flaky_run FRequest).1.1) "default" next_wanted q.
Proof.
  pose proof (separate_singleton next_wanted) as Hap.
  pose proof (Forall_singleton (admits (kept (flaky_state FRequest)) "default") next_wanted) as [_ Hadm].
  specialize (Hadm next_admits). rewrite <-next_wanted_all in Hap, Hadm.
  assert (IsLabelValue (ing_name next_ingress) = []) as Hn by (vm_compute; reflexivity).
  assert (0 ≤ ing_generation next_ingress < 2 ^ 63)%Z as Hg by (split; vm_compute; [discriminate|reflexivity]).
  pose proof (ReconcileKind_keeps_serving sample_env sample_config sample_clock next_ingress (flaky_state FRequest)
    sample_env_ok sample_has_http Hn Hg Hap Hadm) as Hk.
  unfold flaky_run. revert Hk. unfold wp.
  destruct (ReconcileKind sample_env sample_config sample_clock next_ingress (flaky_state FRequest)) as [[s l] r].
  intros [Hs _]. apply (sg_served _ _ _ _ _ Hs); [rewrite next_wanted_all; by left|].
  exists wanted_proxy. exact next_found.
Defined.
