(* ===== verification/UpdateSamples.v ===== *)
(** * An Ingress that is updated

    The sample Ingress and a version of it with a second host, on the failing API server of
    [FailureSamples]: updates are lost, the old version is reconciled again in between, and
    the host both versions want stays served. *)

From S2P Require Import Prelude Hash Meta Regexp Labels Conditions Ingress NetIngress HTTPProxy Config Proxies EndpointProbe Reconcile ReconcileFacts Convergence Failures Updates Samples FailureSamples.

#[local] Existing Instance ascending_order.

Definition grown_rule : IngressRule := {|
  ru_hosts := ["hello.example.com"; "www.example.com"]; ru_visibility := IngressVisibilityExternalIP;
  ru_http := Some [sample_path]
|}.
Definition grown_ingress : Ingress := {|
  ing_meta := ing_meta next_ingress;
  ing_spec := {| is_tls := [sample_tls]; is_rules := [grown_rule]; is_http_option := HTTPOptionRedirected |};
  ing_status := empty_status
|}.
Definition both_versions : list Ingress := [sample_ingress; grown_ingress].

(** A reconcile of a version. *)
Definition after_reconcile (v : Ingress) (b : flaky) : flaky :=
  rs_backend (ReconcileKind sample_env sample_config sample_clock v {| rs_backend := b; rs_status := (empty_status, 0) |}).1.1.

(** The new version is reconciled until its update is lost, then with the answer of its
    second write lost; then the old version once more, and the new one without faults. *)
Definition update_faults : list fault := [FNone; FRequest; FNone; FNone; FAnswer].
Definition update_start : flaky := {| fk_cluster := next_cluster; fk_faults := update_faults |}.
Definition update_run : list flaky :=
  let b1 := after_reconcile grown_ingress update_start in
  let b2 := after_reconcile grown_ingress b1 in
  let b3 := after_reconcile sample_ingress b2 in
  [update_start; b1; b2; b3; after_reconcile grown_ingress b3].

Definition what_is_served (b : flaky) : list (string * string) :=
  (λ kp : (string * string) * HTTPProxy, (kp.1.2, map_get (hp_labels kp.2) GenerationKey)) <$> map_to_list (fl_proxies b).
Example update_runs : what_is_served <$> update_run =
  [[("hello-contour-external-hello.example.com", "2")];
   [("hello-contour-external-hello.example.com", "2")];
   [("hello-contour-external-www.example.com", "3"); ("hello-contour-external-hello.example.com", "3")];
   [("hello-contour-external-hello.example.com", "2")];
   [("hello-contour-external-hello.example.com", "2")]].
Proof. vm_compute. reflexivity. Qed.

Lemma both_wanted v : v ∈ both_versions → wants sample_env sample_config v "hello.example.com" "contour-external".
Proof.
  unfold both_versions. rewrite !elem_of_cons, elem_of_nil. intros [->|[->|[]]].
  - exists sample_rule, "hello.example.com". split_and!; [left|left|apply (bool_decide_unpack _); vm_compute; exact I|vm_compute; reflexivity].
  - exists grown_rule, "hello.example.com". split_and!; [left|left|apply (bool_decide_unpack _); vm_compute; exact I|vm_compute; reflexivity].
Defined.

(** The places: the one of the old version, and those of the new. *)
Definition hello_place : HTTPProxy := default old_proxy (head (places sample_env sample_config sample_ingress)).
Definition www_place : HTTPProxy := default old_proxy (last (places sample_env sample_config grown_ingress)).

Lemma places_apart : apart hello_place www_place.
Proof. split; [vm_compute; discriminate|]. apply (bool_decide_unpack _). vm_compute. exact I. Defined.

Lemma both_places : all_places sample_env sample_config both_versions = [hello_place; default old_proxy (head (places sample_env sample_config grown_ingress)); www_place].
Proof. vm_compute. reflexivity. Defined.

Lemma grown_place_akin : akin hello_place (default old_proxy (head (places sample_env sample_config grown_ingress))).
Proof. split; [vm_compute; reflexivity|]. apply (bool_decide_unpack _). vm_compute. exact I. Defined.

Lemma both_versions_ok : versions_ok sample_env sample_config "default" "hello" both_versions.
Proof.
  split.
  - unfold both_versions. intros v. rewrite !elem_of_cons, elem_of_nil. by intros [->|[->|[]]].
  - unfold both_versions. intros v. rewrite !elem_of_cons, elem_of_nil. intros [->|[->|[]]]; split; (discriminate || reflexivity).
  - unfold both_versions. intros v. rewrite !elem_of_cons, elem_of_nil. intros [->|[->|[]]]; repeat constructor; by eexists.
  - vm_compute. reflexivity.
  - rewrite both_places. generalize grown_place_akin, places_apart.
    generalize hello_place, www_place, (default old_proxy (head (places sample_env sample_config grown_ingress))).
    intros p w g Ha Hp u u'. assert (apart g w) as Hg by by apply (apart_akin p g w w).
    rewrite !elem_of_cons, !elem_of_nil.
    intros [->|[->|[->|[]]]] [->|[->|[->|[]]]]; first [by left|by right|right; by apply apart_sym].
Defined.

Lemma start_only name q : fl_proxies update_start !! ("default", name) = Some q → name = hp_name wanted_proxy ∧ q = wanted_proxy.
Proof. exact (proj1 (single_lookup wanted_proxy name q wanted_namespace)). Defined.

Lemma hello_found : found_by (fl_proxies update_start) "default" hello_place wanted_proxy.
Proof.
  exists (hp_name wanted_proxy). split; [vm_compute; reflexivity|].
  apply (bool_decide_unpack _). vm_compute. exact I.
Defined.

Lemma start_admits u : u ∈ all_places sample_env sample_config both_versions → admits (fl_proxies update_start) "default" u.
Proof.
  assert (∀ u, (hp_name u = hp_name wanted_proxy → match_labels u ⊆ hp_labels wanted_proxy) →
    admits (fl_proxies update_start) "default" u) as Hone.
  { intros u' Hu. split.
    - intros q1 q2 (n1 & [_ ->]%start_only & _) (n2 & [_ ->]%start_only & _). done.
    - intros q Hq. exists (hp_name u'). split; [done|]. apply start_only in Hq as [E ->]. by apply Hu. }
  assert (admits (fl_proxies update_start) "default" hello_place) as Hhello.
  { apply Hone. intros _. destruct hello_found as (name & _ & Hm). exact Hm. }
  rewrite both_places, !elem_of_cons, elem_of_nil. intros [->|[->|[->|[]]]].
  - exact Hhello.
  - exact (akin_admits _ _ _ _ grown_place_akin Hhello).
  - apply Hone. vm_compute. discriminate.
Defined.

Lemma hello_served : serves "default" "hello" (fl_proxies update_start) "hello.example.com" "contour-external".
Proof.
  exists (hp_name wanted_proxy), wanted_proxy.
  split_and!; vm_compute; reflexivity.
Defined.

(** Someone else adds a proxy. *)
Definition foreign_proxy : HTTPProxy := {|
  hp_meta := {| om_name := "shop"; om_namespace := "default"; om_uid := "uid-9"; om_resource_version := "1"; om_generation := 1;
                om_labels := {[ParentKey := "shop"]}; om_annotations := ∅; om_owners := [] |};
  hp_spec := {| hs_virtual_host := None; hs_routes := [] |}; hp_current_status := "" |}.
Definition update_others : flaky := {|
  fk_cluster := with_proxies (<[("default", "shop") := foreign_proxy]> (filed (cl_proxies next_cluster))) next_cluster;
  fk_faults := update_faults |}.

Lemma others_proxies : fl_proxies update_others = <[("default", "shop") := foreign_proxy]> (fl_proxies update_start).
Proof. exact (filed_insert (cl_proxies next_cluster) foreign_proxy). Defined.

Lemma others_alone : leaves_alone sample_env sample_config "default" "hello" both_versions (fl_proxies update_start) (fl_proxies update_others).
Proof.
  rewrite others_proxies. split.
  - intros name q Hp. destruct (decide (name = "shop")) as [->|Hne].
    + rewrite lookup_insert_eq. split; intros E; exfalso.
      * apply start_only in E as [E _]. vm_compute in E. discriminate E.
      * assert (q = foreign_proxy) as -> by (by injection E). vm_compute in Hp. discriminate Hp.
    + rewrite lookup_insert_ne; [done|]. intros [= E]. by apply Hne.
  - intros u q Hu. assert (hp_name u ≠ "shop") as Hne.
    { revert Hu. rewrite both_places, !elem_of_cons, elem_of_nil. intros [->|[->|[->|[]]]]; vm_compute; discriminate. }
    rewrite lookup_insert_ne by congruence. intros [_ ->]%start_only. vm_compute. reflexivity.
Defined.

(** Throughout such a run, the host is served. *)
Lemma updates_keep_serving_witness :
  let b := after_reconcile grown_ingress (after_reconcile sample_ingress
             (after_reconcile grown_ingress (after_reconcile grown_ingress update_others))) in
  serves "default" "hello" (fl_proxies b) "hello.example.com" "contour-external".
Proof.
  intros b. refine (proj1 (updates_keep_serving sample_env sample_config "default" "hello" both_versions update_start b
    sample_env_ok both_versions_ok start_admits _) _ _ both_wanted hello_served).
  assert (sample_ingress ∈ both_versions) as Hs by left. assert (grown_ingress ∈ both_versions) as Hg by (right; left).
  assert (∀ v b, v ∈ both_versions → step sample_env sample_config "default" "hello" both_versions b (after_reconcile v b)) as Hstep
    by (intros v b' Hv; apply (Reconciled _ _ _ _ _ b' ascending_order sample_clock v (empty_status, 0) Hv)).
  eapply rtc_l; [exact (Others _ _ _ _ _ _ update_others others_alone)|].
  eapply rtc_l; [apply Hstep, Hg|]. eapply rtc_l; [apply Hstep, Hg|]. eapply rtc_l; [apply Hstep, Hs|].
  apply rtc_once, Hstep, Hg.
Defined.
