(* ===== verification/InterferenceSamples.v ===== *)
(** * Others at work in the middle of sample reconciles

    The run of [UpdateSamples] on a shared API server: while the Ingress is reconciled, others
    create proxies, one of them under the very name the new host's proxy is to have, and
    delete the Services it refers to. *)

From S2P Require Import Prelude Hash Meta Regexp Labels Conditions Ingress NetIngress HTTPProxy Config Proxies EndpointProbe Reconcile ReconcileFacts Convergence Failures Updates Interference Samples FailureSamples UpdateSamples.

#[local] Existing Instance ascending_order.

(** Someone else creates a proxy; the answer is theirs. *)
Definition create_foreign (p : HTTPProxy) (s : flaky) : flaky :=
  {| fk_cluster := (bk_create_proxy (fk_cluster s) (hp_namespace p) p).1; fk_faults := fk_faults s |}.

Lemma create_foreign_own p s : hp_labels p !! ParentKey ≠ Some "hello" →
  own_part "default" "hello" (fl_proxies (create_foreign p s)) = own_part "default" "hello" (fl_proxies s).
Proof.
  intros Hl. change (fl_proxies s) with (filed (cl_proxies (fk_cluster s))).
  change (fl_proxies (create_foreign p s)) with (filed (cl_proxies (bk_create_proxy (fk_cluster s) (hp_namespace p) p).1)).
  simpl. destruct (filed (cl_proxies (fk_cluster s)) !! (hp_namespace p, hp_name p)) eqn:E; [done|].
  etrans; [exact (f_equal _ (filed_insert (cl_proxies (fk_cluster s)) p))|]. by apply own_part_foreign.
Qed.

Definition creates (p : HTTPProxy) (Hl : hp_labels p !! ParentKey ≠ Some "hello") : meddling "default" "hello" := {|
  md_step := create_foreign p;
  md_own s := create_foreign_own p s Hl
|}.

(** One that takes the name the proxy of the new host is to have. *)
Definition squatter : HTTPProxy := {|
  hp_meta := {| om_name := "hello-contour-external-www.example.com"; om_namespace := "default"; om_uid := "uid-10"; om_resource_version := "1";
                om_generation := 1; om_labels := {[ParentKey := "shop"]}; om_annotations := ∅; om_owners := [] |};
  hp_spec := {| hs_virtual_host := None; hs_routes := [] |}; hp_current_status := "" |}.

Lemma foreign_not_own : hp_labels foreign_proxy !! ParentKey ≠ Some "hello".
Proof. vm_compute. discriminate. Defined.
Lemma squatter_not_own : hp_labels squatter !! ParentKey ≠ Some "hello".
Proof. vm_compute. discriminate. Defined.

(** And someone deletes the Services. *)
Definition without_services (s : flaky) : flaky :=
  let c := fk_cluster s in
  {| fk_cluster := {| cl_ingresses := cl_ingresses c; cl_proxies := cl_proxies c; cl_services := ∅;
                      cl_tracked := cl_tracked c; cl_probed := cl_probed c |};
     fk_faults := fk_faults s |}.
Definition deletes_services : meddling "default" "hello" := {|
  md_step := without_services; md_own s := eq_refl (own_part "default" "hello" (fl_proxies s)) |}.

(** The first proxies come before and after the first call, and the Services go after the
    update of the second reconcile. *)
Definition shared_start : shared (S := flaky) "default" "hello" := {|
  sh_backend := update_start;
  sh_plan := creates foreign_proxy foreign_not_own :: creates squatter squatter_not_own ::
               replicate 4 (creates foreign_proxy foreign_not_own) ++ [deletes_services] |}.

Definition shared_reconcile (v : Ingress) (b : shared (S := flaky) "default" "hello") : shared (S := flaky) "default" "hello" :=
  rs_backend (ReconcileKind sample_env sample_config sample_clock v {| rs_backend := b; rs_status := (empty_status, 0) |}).1.1.

Definition shared_run : list (shared (S := flaky) "default" "hello") :=
  let b1 := shared_reconcile grown_ingress shared_start in
  let b2 := shared_reconcile grown_ingress b1 in
  [shared_start; b1; b2; shared_reconcile sample_ingress b2].

Example shared_runs : (λ b, what_is_served (sh_backend b)) <$> shared_run =
  [[("hello-contour-external-hello.example.com", "2")];
   [("shop", ""); ("hello-contour-external-www.example.com", ""); ("hello-contour-external-hello.example.com", "2")];
   [("shop", ""); ("hello-contour-external-www.example.com", ""); ("hello-contour-external-hello.example.com", "3")];
   [("shop", ""); ("hello-contour-external-www.example.com", ""); ("hello-contour-external-hello.example.com", "3")]].
Proof. vm_compute. reflexivity. Qed.

Lemma shared_admits u : u ∈ all_places sample_env sample_config both_versions → admits (fl_proxies shared_start) "default" u.
Proof.
  intros Hu. apply own_part_admits; [|by apply start_admits].
  apply elem_of_all_places in Hu as (v & Hu & Hv). destruct (places_labels sample_env sample_config v u Hu) as (h & c & _ & -> & _).
  by rewrite (proj2 (vo_parent _ _ _ _ _ both_versions_ok v Hv)).
Defined.

(** The host both versions want is served after every one of them. *)
Lemma interleaved_updates_keep_serving_witness :
  let b := shared_reconcile sample_ingress (shared_reconcile grown_ingress (shared_reconcile grown_ingress shared_start)) in
  serves "default" "hello" (fl_proxies (sh_backend b)) "hello.example.com" "contour-external".
Proof.
  intros b. refine (proj1 (interleaved_updates_keep_serving sample_env sample_config "default" "hello" both_versions shared_start b
    sample_env_ok both_versions_ok shared_admits _) _ _ both_wanted hello_served).
  assert (sample_ingress ∈ both_versions) as Hs by left. assert (grown_ingress ∈ both_versions) as Hg by (right; left).
  assert (∀ v b, v ∈ both_versions → step sample_env sample_config "default" "hello" both_versions b (shared_reconcile v b)) as Hstep
    by (intros v b' Hv; apply (Reconciled _ _ _ _ _ b' ascending_order sample_clock v (empty_status, 0) Hv)).
  eapply rtc_l; [apply Hstep, Hg|]. eapply rtc_l; [apply Hstep, Hg|]. apply rtc_once, Hstep, Hs.
Defined.
