(* ===== verification/ProberSamples.v ===== *)
(** * A run of the status prober

    A concrete schedule over the work queue of [Workqueue]: two pods are probed, one answers,
    the other is deleted, and the callback is made.  The hypotheses of the theorems on the
    prober hold in the state it ends in. *)

From S2P Require Import Prelude Meta Ingress NetIngress HTTPProxy Config ProbeTargets Events Workqueue Prober ProberInv ProberFacts ProberLive Readiness Samples.
Local Open Scope Z_scope.

(** [NewProber]'s queue: back-off from 50ms to 30s. *)
Definition probing_queue : delayingType nat :=
  NewRateLimitingQueue {| baseDelay := 50 * 1000000; maxDelay := 30 * 1000000000 |}.

Lemma probing_queue_fresh : fresh_queue probing_queue.
Proof. split_and!; [apply newQueue_ok|done|done|]. intros x. reflexivity. Qed.

Definition envoy_service : Service := {|
  sv_meta := {| om_name := "envoy"; om_namespace := "contour-external"; om_uid := ""; om_resource_version := "";
                om_generation := 0; om_labels := ∅; om_annotations := ∅; om_owners := [] |};
  sv_cluster_ip := "10.0.0.2"; sv_ports := [{| sv_port_name := "https"; sv_port := 443 |}]
|}.
Definition envoy_endpoints : Endpoints := {|
  en_meta := sv_meta envoy_service;
  en_subsets := [{| es_addresses := ["10.1.0.8"; "10.1.0.9"];
                    es_ports := [{| ep_port_name := "https"; ep_port := 8443 |}] |}]
|}.
Definition sample_get_service (ns name : string) : goerr + Service := inr envoy_service.
Definition sample_get_endpoints (ns name : string) : goerr + Endpoints := inr envoy_endpoints.

Definition sample_targets : list ProbeTarget :=
  match ListProbeTargets (H := ascending_order) sample_env sample_config sample_get_service
          sample_get_endpoints sample_ingress with
  | Ret ts => ts
  | _ => []
  end.

Definition sample_reply : goerr + Response :=
  inr {| StatusCode := 200; HashHeader := ComputeHash sample_ingress |}.
Definition sample_pod : eventobj :=
  Object {| ac_api_version := "v1"; ac_kind := "Pod"; ac_object := KPod sample_meta "10.1.0.9" |}.

(** The schedule up to the answer [IsReady] gives the reconciler, and the rest. *)
Definition sample_call : list (action (delayingType nat)) :=
  [AIsReady sample_ingress; ACached 0; AList 0 (inr sample_targets);
   AContext 0 "10.1.0.8"; APod 0; AQueue 0; AQueue 0;
   AContext 0 "10.1.0.9"; APod 0; AQueue 0; AQueue 0; AStore 0].
Definition sample_probing : list (action (delayingType nat)) :=
  [AQueueEvent EReceive; AQueueEvent EReceive; AQueueEvent (ETime initialDelay);
   AQueueEvent (EFire 0%nat); AQueueEvent (EFire 1%nat);
   AGet; AProbe 0 (inr {| StatusCode := 404; HashHeader := "" |}); ASelect 0; ARetry 0 0; ADone 0;
   AQueueEvent EReceive; AQueueEvent (ETime 50000000); AQueueEvent (EFire 0%nat);
   AGet; AProbe 1 (inl (Errorf "connection refused" []));
   AGet; AProbe 0 sample_reply; ASelect 0; ASuccess 0; ASuccess 0; ASuccess 0; ADone 0;
   ACancelPod sample_pod; AJoin 1; ASelect 1; ADone 1;
   ACanceller 1; ACanceller 1; ACanceller 1; ACanceller 1; ACanceller 1].

Definition start : Prober (delayingType nat) := NewProber probing_queue.
Definition called : Prober (delayingType nat) := default start (schedule sample_call start).
Definition probed_all : Prober (delayingType nat) := default start (schedule sample_probing called).

Lemma called_run : schedule sample_call start = Some called.
Proof. vm_compute. reflexivity. Qed.
Lemma probed_run : schedule sample_probing called = Some probed_all.
Proof. vm_compute. reflexivity. Qed.

Lemma called_reachable : reachable called.
Proof. exists probing_queue. split; [exact probing_queue_fresh|exact (schedule_steps _ _ _ called_run)]. Qed.
Lemma probed_reachable : reachable probed_all.
Proof.
  exists probing_queue. split; [exact probing_queue_fresh|].
  etrans; [exact (schedule_steps _ _ _ called_run)|exact (schedule_steps _ _ _ probed_run)].
Qed.

Definition sample_key : NamespacedName := key_of (ing_meta sample_ingress).

(** [IsReady] first says no, later yes. *)
Example called_result : calls called = [RReturn (inr false)].
Proof. vm_compute. reflexivity. Qed.
Lemma probed_ready : IsReady_cached sample_key (ComputeHash sample_ingress) probed_all = (probed_all, Some true).
Proof. vm_compute. reflexivity. Qed.

Lemma IsReady_sound_witness : ∃ i st, ingressStates probed_all !! sample_key = Some i ∧
  ingresses probed_all !! i = Some st ∧ st_hash st = ComputeHash sample_ingress.
Proof.
  destruct (IsReady_sound _ _ _ _ probed_reachable probed_ready) as (i & st & H1 & H2 & _ & H3 & _).
  exists i, st. exact (conj H1 (conj H2 H3)).
Defined.

(** The state the run makes for the sample. *)
Definition sample_ingress_state : ingressState :=
  {| st_hash := ComputeHash sample_ingress; st_ing := sample_ingress; st_pendingCount := 0;
     st_cancelled := false; st_targets := sample_targets |}.
Lemma probed_state : ingresses probed_all !! 0%nat = Some sample_ingress_state.
Proof. vm_compute. reflexivity. Qed.

Lemma readyCallback_exactly_once_witness : (length (filter (0%nat =.) (callbacks probed_all)) ≤ 1)%nat.
Proof. exact (proj1 (proj2 (readyCallback_exactly_once _ _ _ probed_reachable probed_state))). Defined.

Lemma called_up : wq_down (workQueue called) = false.
Proof. vm_compute. reflexivity. Qed.

Lemma prober_never_stuck_witness : ∃ σ, rtc step called σ ∧ length (ingresses σ) = length (ingresses called).
Proof.
  destruct (prober_never_stuck called called_reachable called_up) as (σ & H1 & H2 & _).
  exists σ. exact (conj H1 H2).
Defined.

Lemma ready_means_served_witness :
  "10.1.0.8" ∈ deletedPods probed_all ∨ probed probed_all (ComputeHash sample_ingress) "10.1.0.8" "hello.example.com".
Proof.
  apply (ready_means_served (H := ascending_order) sample_env sample_config sample_get_service sample_get_endpoints
    probed_all probed_all sample_ingress 0 sample_ingress_state sample_rule "hello.example.com"
    "contour-external/envoy" "contour-external" "envoy" envoy_endpoints
    {| es_addresses := ["10.1.0.8"; "10.1.0.9"]; es_ports := [{| ep_port_name := "https"; ep_port := 8443 |}] |}).
  - exact probed_reachable.
  - exact probed_ready.
  - vm_compute. reflexivity.
  - exact probed_state.
  - vm_compute. reflexivity.
  - left.
  - vm_compute. reflexivity.
  - vm_compute. reflexivity.
  - vm_compute. reflexivity.
  - reflexivity.
  - left.
  - left.
Defined.
