(* ===== verification/ControllerSamples.v ===== *)
(** * A concrete run of the controller

    The system of [Controller] over the two-lane queue, driven by a few events, with the
    sample Ingress and Services of [Samples]: the hypotheses of the theorems about wiring,
    requests and the tracker hold there. *)

From S2P Require Import Prelude Meta Labels Ingress NetIngress HTTPProxy Config Proxies EndpointProbe Reconcile ReconcileFacts Convergence Events Workqueue TwoLane Tracker Prober GenReconciler Controller Requeue Samples.
Local Open Scope Z_scope.

#[local] Existing Instance ascending_order.
#[local] Existing Instance some_key_order.

(** The prober's queue is a plain rate-limited one. *)
#[local] Instance probe_queue : WorkQueue nat (delayingType nat) | 0 := delaying_WorkQueue.

Definition sample_limiter : limiter := {| baseDelay := 5 * 1000000; maxDelay := 1000 * 1000000000 |}.

Abbreviation sample_queue := (newTwoLaneWorkQueue (T := NamespacedName) sample_limiter).
Abbreviation sample_system :=
  (NewController sample_queue (NewRateLimitingQueue (T := nat) sample_limiter) 1000).

Definition the_key : NamespacedName := {| nn_namespace := "default"; nn_name := "hello" |}.
Definition the_ingress : eventobj := object_of (KIngress classed_ingress).
Definition the_service : eventobj := object_of (KService sample_service).

Lemma sample_queue_ok : wq_ok sample_queue.
Proof. exact (newTwoLaneWorkQueue_ok sample_limiter). Defined.

Lemma sample_up : up sample_system.
Proof. split; [exact sample_queue_ok|reflexivity]. Defined.

(** The Ingress appears and is handed to a worker, whose reconcile tracks its Service and
    fails; the back-off passes and the key is handed out again. *)
Definition sample_events : list (sys_event (twoLaneQueue NamespacedName) (delayingType nat)) :=
  [SDeliver IngressByClass (OnAdd the_ingress) (λ _, 0) (λ _, 0);
   SQueue EFast; SQueue EFast; SQueue (EConsume false); SGet;
   STrack 1 2 (service_reference "default" "hello-00002") the_ingress;
   SFinish the_key (GError (Errorf "conflict" [])) 0; SDone the_key;
   SQueue EFast; SQueue EFast; SQueue (EConsume false); SGet;
   SFinish the_key GDone 0; SDone the_key].

Example sample_events_run :
  fst <$> sys_schedule sample_events sample_system = Some [the_key; the_key].
Proof. vm_compute. reflexivity. Qed.

Definition first_events : list (sys_event (twoLaneQueue NamespacedName) (delayingType nat)) :=
  [SDeliver IngressByClass (OnAdd the_ingress) (λ _, 0) (λ _, 0)].

Definition first_run : bool :=
  match sys_schedule first_events sample_system with
  | Some (ks, σ) =>
      bool_decide (0 < wq_count (sy_queue σ) the_key)%nat && bool_decide (ks = []) && bool_decide (wq_down (sy_queue σ) = false) &&
      bool_decide (sy_workers σ = ∅) && bool_decide (sy_idle σ = 2%nat)
  | None => false
  end.

Lemma first_events_run : first_run = true.
Proof. vm_compute. reflexivity. Qed.

Lemma controller_keys_witness :
  ∃ σ, sys_run first_events sample_system [] σ ∧ requested σ the_key ∧
    ∃ l' σ1 key' σ2, sys_run l' σ [] σ1 ∧ sys_exec SGet σ1 = Some σ2 ∧ handed SGet σ1 = [key'].
Proof.
  pose proof (first_events_run) as Hrun. unfold first_run in Hrun.
  destruct (sys_schedule first_events sample_system) as [[ks σ]|] eqn:E; [|discriminate Hrun].
  rewrite !andb_true_iff, !bool_decide_eq_true in Hrun. destruct Hrun as ((((Hr & ->) & Hd) & Hw) & Hi).
  apply sys_schedule_run in E. exists σ. split; [exact E|]. split; [exact Hr|].
  destruct (controller_keys sample_queue (NewRateLimitingQueue (T := nat) sample_limiter) 1000 first_events [] σ
    sample_queue_ok eq_refl E) as (_ & _ & _ & _ & Hlive).
  apply (Hlive the_key Hd Hr); [by rewrite Hw|rewrite Hi; lia].
Defined.

Lemma deliver_requests_witness :
  ∃ σ', sys_exec (SDeliver IngressByClass (OnAdd the_ingress) (λ _, 0) (λ _, 0)) sample_system = Some σ' ∧
    requested σ' the_key.
Proof.
  destruct (deliver_requests IngressByClass (OnAdd the_ingress) (λ _, 0) (λ _, 0) sample_system sample_queue_ok)
    as (σ' & Hs & He & _).
  exists σ'. split; [exact Hs|]. apply (eq_requested _ _ _ He); [|reflexivity].
  refine (bool_decide_unpack _ _). vm_compute. exact I.
Defined.

(** A proxy of the sample changes. *)
Lemma owned_events_requeue_witness :
  requested (handlers (λ _, 0) (λ _, 0) ProxyByOwner (OnAdd (object_of (KHTTPProxy sample_proxy))) sample_system)
    the_key.
Proof.
  destruct (MakeEndpointProbeIngress_ret sample_config sample_ingress [] sample_has_http) as (child & Hc & _).
  refine (proj1 (owned_events_requeue sample_env sample_config sample_ingress stp0 sample_proxies sample_proxy []
    child sample_system (λ _, 0) (λ _, 0) sample_up sample_env_ok sample_has_http sample_proxies_ret
    sample_proxy_in Hc) sample_proxy (OnAdd (object_of (KHTTPProxy sample_proxy))) eq_refl eq_refl _).
  by left.
Defined.

Lemma tracked_service_requeues_witness :
  ∃ σ1, sys_exec (STrack 1 2 (service_reference "default" "hello-00002") the_ingress) sample_system = Some σ1 ∧
    requested σ1 the_key ∧
    requested (handlers (λ _, 9) (λ _, 9) ServiceChanged (OnDelete the_service) σ1) the_key.
Proof.
  destruct (sys_exec (STrack 1 2 (service_reference "default" "hello-00002") the_ingress) sample_system)
    as [σ1|] eqn:E;
    [|cbn [sys_exec] in E; destruct (TrackReference _ _ _ _ _) as [[??]?]; discriminate E].
  exists σ1. split; [reflexivity|].
  assert (up σ1) as Hup1.
  { cbn [sys_exec] in E. destruct (TrackReference _ _ _ _ _) as [[t keys] r]. injection E as <-.
    destruct (enqueue_all_enqueued keys (with_tracker t sample_system) sample_queue_ok). split; [done|].
    rewrite eq_down. reflexivity. }
  assert (fieldErrors (service_reference "default" "hello-00002") = []) as Hf by (vm_compute; reflexivity).
  destruct (tracked_service_requeues 1 2 "default" "hello-00002" classed_ingress sample_system σ1 [] [] σ1
    (OnDelete the_service) {| ac_api_version := ""; ac_kind := ""; ac_object := KService sample_service |}
    (λ _, 9) (λ _, 9) 10 sample_up Hf E) as [H1 H2].
  split; [exact (H1 eq_refl)|].
  apply H2; [constructor|exact Hup1|constructor|vm_compute; discriminate|reflexivity|reflexivity|lia].
Defined.

Lemma tombstones_ignored_witness :
  handlers (λ _, 0) (λ _, 0) ProxyByOwner (OnDelete (Tombstone "default/p" (Some
    {| ac_api_version := ""; ac_kind := ""; ac_object := KHTTPProxy sample_proxy |}))) sample_system = sample_system.
Proof.
  refine (proj1 (tombstones_ignored (λ _, 0) (λ _, 0) sample_system "default/p" _ ProxyByOwner _ _)); discriminate.
Defined.
